(* ===== verification/_CoqProject ===== *)
-Q . S2P
Prelude.v
Codec.v
Endian.v
Slice.v
SliceBuffer.v
Mpscq.v
Refcount.v
ConnTable.v
Timer.v
Poller.v
Kqueue.v
Registrar.v
PollLoop.v
Iocp.v
IocpSpec.v
Address.v
Resolver.v
Text.v
Log.v
Clock.v
Connection.v
ConnInv.v
ConnProofs.v
ConnTheorems.v
ConnProgress.v
WinConnection.v
WinProofs.v
WinInv.v
WinIo.v
WinTheorems.v
WinSystem.v
ConnMetrics.v
Executor.v
ExecProofs.v
ExecTheorems.v
Worker.v
WorkerProofs.v
WorkerTheorems.v
WorkerPool.v
Runtime.v
Sync.v
Client.v
ClientProofs.v
ClientTheorems.v
EchoClient.v
EchoServer.v
EchoSession.v
