(* ===== verification/Prelude.v ===== *)
(** * connx: a verification development

    connx is a C++ library for TCP clients: an application creates a client with a codec that
    cuts the byte stream into frames and a handler that receives them, connects, sends, and
    gets callbacks. This development models the library in Rocq and proves what makes it
    correct. File names below are relative to the repository.

    ** The program and the files that model it

    - [src/codec/*.cc], [include/connx/codec*]: the codecs. [Codec.v]. [src/utils/endian.h], the
      conversion to network order, on which [Codec.v] builds its frames: [Endian.v].
    - [src/utils/slice.*]: byte slices, inline or reference counted. [Slice.v], on an explicit
      heap.
    - [src/utils/slice_buffer.*]: a queue of slices read as one byte string. [SliceBuffer.v],
      with its specification [Chunks] on plain byte strings.
    - [src/utils/mpscq.*]: the lock-free queue of tasks. [Mpscq.v], one step per atomic access.
    - [src/utils/atomic.h], [src/utils/refcounted.h]: reference counts that threads share.
      [Refcount.v], one step per atomic access.
    - [src/net/connection_id.h], [src/net/connection_table.*]: ids with generations, and the
      table that maps them to connections. [ConnTable.v].
    - [src/net/timer_queue.*]: [Timer.v]. [std::priority_queue] is a class with laws.
    - [src/net/poller.h] with [poller_linux.cc] and [poller_kqueue.cc]: [Poller.v] and
      [Kqueue.v] (Module [Kqueue]); [Registrar.v] is the interface both implement.
    - [src/net/poller_win32.cc]: [Iocp.v], the requests on a completion port; [IocpSpec.v], the pool
      of requests that it refines.
    - [src/net/runtime.cc], the poll thread and those who wake it: [PollLoop.v], interleaved.
    - [src/net/resolve_address.*], [src/net/socket_util.cc]: [Address.v]; [getaddrinfo] and
      [inet_pton] are parameters. [Resolver.v] has the memory of the resolver.
    - [src/net/client_connection.{h,cc}], [client_connection_posix.cc]: the connection. Its
      tasks, run one at a time, are [Connection.v]; the invariant is in [ConnInv.v], its proof
      in [ConnProofs.v], the theorems in [ConnTheorems.v] and [ConnProgress.v]. The code that
      both platforms share is written over the record [Platform] of the methods they
      define, of which [posix] is an instance. How threads
      that post tasks, the worker that runs them and the owner that closes synchronize is
      [Executor.v], with [ExecProofs.v] and [ExecTheorems.v].
    - [src/net/client_connection_win32.cc]: the instance [windows] of [Platform], with
      overlapped requests in place of readiness. [WinConnection.v]; [WinProofs.v] shows that it
      keeps the invariant of [ConnInv.v] (the classes [PlatformOk], [PlatformCalm]),
      [WinInv.v] has the steps of a connection on Windows and the invariant of its requests,
      [WinIo.v] the proof, [WinTheorems.v] the theorems. [WinSystem.v] puts the connection and
      the completion port of [Iocp.v] together. [ConnMetrics.v] treats the counters on
      both platforms.
    - [src/net/worker_pool.*]: one worker and the threads that use it, interleaved, in
      [Worker.v] with [WorkerProofs.v] and [WorkerTheorems.v]; the pool as its callers see it
      in [WorkerPool.v].
    - [src/net/runtime.*], [src/core/*]: bringing everything up and down, the reference-counted
      initialization, on Windows with Winsock (Module [Winsock]), and one round of the poll
      loop. [Runtime.v].
    - [src/utils/sync.*], the locking of [src/core/init.cc]: mutexes, once-initialization, and
      threads that call [LibraryInit] and [LibraryShutdown], interleaved. [Sync.v].
    - [src/bridge/c.cc], [src/bridge/client.cc], [src/net/clientimpl.cc],
      [src/utils/refcounted.h]: the objects behind the C handles and who owns them.
      [Client.v], with [ClientProofs.v] and [ClientTheorems.v].
    - [example/client_c.c], [example/client_cc.cc]: programs over that interface,
      [EchoClient.v]. [example/server.cc]: [EchoServer.v]; [EchoSession.v] has a connection and
      that server, with TCP between them.

    - [src/utils/string.cc], [src/utils/status.*]: formatted text and error objects. [Text.v].
    - [src/bridge/log.cc]: [Log.v]. [src/utils/time.cc], the timed wait of
      [src/utils/sync.cc]: [Clock.v].

    This file has what they share: machine integers, bytes, lists indexed by [Z], record
    updates, sums over threads, and the tactics.

    ** How the code is represented

    Integers are [Z] with the wrap-around of their type written out; [size_t] has the width of
    the class [SizeT]. Sequential code is a function from state to result and state, in a
    state monad where it is long ([Connection.M], [Client.M]); undefined behaviour is a result
    of its own ([None] in [Slice.v], [fault] in [Connection.v], [Fault] in [Client.v]).
    A worker thread that detaches itself lives on ([WorkerPool.v]), and closing a completion
    port does not end the operations the kernel still has ([Iocp.v]).
    Concurrent code is a machine with one step per access to shared memory, and threads are
    lists of program counters. Memory is sequentially consistent, except that [Executor.v]
    also has store buffers. System calls, the handler and the scheduler are arbitrary: their
    answers are arguments, or choices of the step.

    The files build on each other through what is proved: [Connection.v] uses a list of chunks
    because [SliceBuffer.v] refines it, a list of tasks because [Mpscq.v] is one, and tasks
    that run one at a time because [ExecTheorems.drain_exclusive] says so, and on Windows a list of
    requests because [IocpSpec.iocp_refines_pool] shows that the completion port is one and
    [WinSystem.win_system_refines] that the two work together; [Runtime.v] takes the calls of the library as single
    steps because [Sync.library_calls_atomic] shows that they are. Classes
    state what one part needs of another: [StreamCodec], [PriorityQueue], [Registrar],
    [WakeFd], [PlatformOk], [PlatformCalm], [PlatformTyped], [Guarded].

    ** What the theorems show

    - Data: codecs cut every stream the same way however it arrives; slices and buffers are
      memory safe and refine byte strings; the queue is first in first out; ids are not
      reused while they are valid; timers come out exactly when due.
    - The connection: what the handler gets is the framing of what was received, once and in
      order, and nothing stays behind; what is sent is what was queued, in order; callbacks
      follow their protocol; sockets and table entries are released; the poller is asked for
      what is needed. On Windows the same holds of what the kernel received and sent, one
      receive is always under way, and a send whenever there is something to send; there the
      theorems are about runs in which no [Disconnect] overtakes a connection attempt (the first
      argument of [WinInv.win_step]; [win_overtaken_mixes_up] shows a run without that)
      and no id is given out again ([WinInv.id_fresh]), which
      [ConnTable.connection_ids_unique] proves of the first 2^32 registrations of a slot. The
      metrics are exact modulo the width of their types: on POSIX they count what the kernel
      transferred, on Windows what its completions reported before the connection was closed.
      The pollers report a socket for what was asked and what the kernel granted; with epoll
      also, as readable, one whose peer has closed ([EPOLLRDHUP] is always asked for).
    - Threads: tasks of a connection run one at a time, in order, none is lost, none after the
      close; a worker never sleeps on work and [Stop] leaves nothing behind; the poll thread
      wakes up in time and stops when told; a shared object is deleted once, after its last
      reference.
    - The library: initialization is all or nothing, and atomic when threads race for it; the
      C interface neither leaks nor uses freed memory, if the rules of
      [ClientProofs.allowed] are kept, and its calls return, except that destroying a client
      takes as long as [CloseFromOwner] does (an outcome [Hang] of [Client.v], since that wait
      can be endless).
    - The examples: the echo server sends back what it receives, closes what it opens and
      serves every client that is ready; a connection that talks to it gets back its own
      messages, in order; the echo clients free what they allocate on every path.
    - Where the code does not do what it means to: [length_field_overread],
      [disconnect_while_resolving_leaks], [win_overtaken_mixes_up], [drain_can_forget], [close_from_owner_can_hang],
      [local_address_dangles], [log_callback_torn], [error_text_lost],
      [echo_server_fd_overflow].

    ** Fuel

    Loops of the code that are not structural take fuel. It is always enough, and the theorems
    are about the result, not conditional on one: the socket loops get one unit per system
    call answer left ([PlatformHandleReadable], [PlatformHandleWritable]); [PopExpired] the
    size of the queue; the drain loops of [PollLoop.v] the number of bytes. The budgets
    [kDrainTaskBudget] and [kParseMessageBudget] are the code's own.

    ** Not modelled

    - The class [ConditionVariable] of [src/utils/sync.h], which forwards to the system and
      which only tests use (the worker pool has its own, in [Worker.v]), the Windows side of
      that file, and the macros of [useful.h]. The monotonic clock of Windows, which
      is floating point, and the version strings, which the build sets.
      Of the C library, [getaddrinfo], [inet_pton], [strerror_r], [strftime] and the expansion of
      [printf] formats other than those of decimal numbers are arguments.
    - Weak memory beyond store buffers, signals, allocation failure (the code aborts) except in [Resolver.v] and [Text.v].
    - Tests, and what the examples print. *)

From Stdlib Require Strings.Byte.
From Stdlib Require Export Init.Byte ZArith Lia.
From stdpp Require Export base list gmap strings numbers.

#[global] Open Scope Z_scope.

(** ** Fixed-width machine integers *)

(** An unsigned [w]-bit value is an integer in [0, 2^w); every arithmetic
    result the code stores in such a type goes through [wrap w]. *)
Definition wrap (w z : Z) : Z := z mod 2 ^ w.
Definition u8 (z : Z) : Z := wrap 8 z.
Definition u16 (z : Z) : Z := wrap 16 z.
Definition u32 (z : Z) : Z := wrap 32 z.
Definition u64 (z : Z) : Z := wrap 64 z.

Definition UINT32_MAX : Z := 2 ^ 32 - 1.
Definition INT64_MAX : Z := 2 ^ 63 - 1.
Definition INT64_MIN : Z := - 2 ^ 63.

(** [size_t] is the one integer type whose width differs between the
    platforms the library builds for. *)
Class SizeT := {
  size_bits : Z;
  size_bits_ok : size_bits = 32 \/ size_bits = 64
}.

Definition SIZE_MAX `{SizeT} : Z := 2 ^ size_bits - 1.
Definition usize `{SizeT} (z : Z) : Z := wrap size_bits z.

#[export] Instance SizeT64 : SizeT | 10 := { size_bits := 64; size_bits_ok := or_intror eq_refl }.
Definition SizeT32 : SizeT := {| size_bits := 32; size_bits_ok := or_introl eq_refl |}.

Lemma wrap_small w z : 0 <= z < 2 ^ w -> wrap w z = z.
Proof. apply Z.mod_small. Qed.

Lemma wrap_range w z : 0 <= w -> 0 <= wrap w z < 2 ^ w.
Proof. intros. apply Z.mod_pos_bound. lia. Qed.

Lemma size_bits_pos `{SizeT} : 0 < size_bits.
Proof. destruct size_bits_ok as [-> | ->]; lia. Qed.

Lemma SIZE_MAX_ge_u32 `{SizeT} : UINT32_MAX <= SIZE_MAX.
Proof. unfold SIZE_MAX, UINT32_MAX. destruct size_bits_ok as [-> | ->]; lia. Qed.

Lemma usize_small `{SizeT} z : 0 <= z <= SIZE_MAX -> usize z = z.
Proof. unfold SIZE_MAX. intros. apply wrap_small. lia. Qed.

(** Packing a low part below a shifted high part is addition: the two have
    no bit in common. *)
Lemma land_shiftl_low v b n : 0 <= n -> 0 <= b < 2 ^ n -> Z.land (Z.shiftl v n) b = 0.
Proof.
  intros Hn Hb. apply Z.bits_inj'. intros i Hi.
  rewrite Z.land_spec, Z.bits_0.
  destruct (Z.lt_ge_cases i n) as [Hlt | Hge].
  - rewrite Z.shiftl_spec_low by lia. done.
  - replace b with (b mod 2 ^ n) by (apply Z.mod_small; lia).
    rewrite Z.mod_pow2_bits_high by lia. apply andb_false_r.
Qed.

Lemma lor_shiftl_add v b n :
  0 <= n -> 0 <= b < 2 ^ n -> Z.lor (Z.shiftl v n) b = v * 2 ^ n + b.
Proof.
  intros Hn Hb. pose proof (Z.add_lor_land (Z.shiftl v n) b) as E.
  rewrite land_shiftl_low in E by done. rewrite <- Z.shiftl_mul_pow2 by done. lia.
Qed.

(** ** Bytes *)

#[export] Instance byte_eq_decision : EqDecision byte := Stdlib.Strings.Byte.byte_eq_dec.

(** The value of a byte, [static_cast<uint8_t>]. *)
Definition byte_val (b : byte) : Z := Z.of_N (Byte.to_N b).

Lemma byte_val_range b : 0 <= byte_val b < 256.
Proof. unfold byte_val. pose proof (Byte.to_N_bounded b). lia. Qed.

Lemma byte_val_inj b1 b2 : byte_val b1 = byte_val b2 -> b1 = b2.
Proof.
  unfold byte_val. intros E. apply N2Z.inj in E.
  pose proof (Byte.of_to_N b1) as E1. pose proof (Byte.of_to_N b2) as E2.
  rewrite E in E1. congruence.
Qed.

(** The byte with a given value, taken modulo 256. *)
Definition byte_of (z : Z) : byte := default x00 (Byte.of_N (Z.to_N (u8 z))).

Lemma byte_val_of z : byte_val (byte_of z) = u8 z.
Proof.
  unfold byte_of, byte_val, u8. pose proof (wrap_range 8 z ltac:(lia)) as R.
  destruct (Byte.of_N (Z.to_N (wrap 8 z))) as [b |] eqn:E; cbn.
  - apply Byte.to_of_N in E. lia.
  - apply Byte.of_N_None_iff in E. lia.
Qed.

(** ** Lists measured in [Z] *)

Definition zlen {A} (l : list A) : Z := Z.of_nat (length l).

Lemma zlen_nonneg {A} (l : list A) : 0 <= zlen l.
Proof. unfold zlen. lia. Qed.

Lemma zlen_nil {A} : zlen (@nil A) = 0.
Proof. done. Qed.

Lemma zlen_cons {A} (x : A) l : zlen (x :: l) = 1 + zlen l.
Proof. unfold zlen. cbn [length]. lia. Qed.

Lemma zlen_app {A} (l k : list A) : zlen (l ++ k) = zlen l + zlen k.
Proof. unfold zlen. rewrite length_app. lia. Qed.

Lemma zlen_0 {A} (l : list A) : zlen l = 0 -> l = [].
Proof. unfold zlen. destruct l; cbn [length]; [done | lia]. Qed.

(** [ptr + n] and the first [n] bytes at a pointer. *)
Definition ztake {A} (n : Z) (l : list A) : list A := take (Z.to_nat n) l.
Definition zdrop {A} (n : Z) (l : list A) : list A := drop (Z.to_nat n) l.

Lemma ztake_zdrop {A} n (l : list A) : ztake n l ++ zdrop n l = l.
Proof. apply take_drop. Qed.

Lemma zlen_ztake {A} n (l : list A) : 0 <= n <= zlen l -> zlen (ztake n l) = n.
Proof. unfold zlen, ztake. rewrite length_take. lia. Qed.

Lemma zlen_zdrop {A} n (l : list A) : 0 <= n <= zlen l -> zlen (zdrop n l) = zlen l - n.
Proof. unfold zlen, zdrop. rewrite length_drop. lia. Qed.

Lemma zdrop_0 {A} (l : list A) : zdrop 0 l = l.
Proof. done. Qed.

Lemma zdrop_zdrop {A} n m (l : list A) :
  0 <= n -> 0 <= m -> zdrop m (zdrop n l) = zdrop (n + m) l.
Proof. intros. unfold zdrop. rewrite drop_drop. f_equal. lia. Qed.

Lemma ztake_app_le {A} n (l k : list A) : n <= zlen l -> ztake n (l ++ k) = ztake n l.
Proof. unfold ztake, zlen. intros. apply take_app_le. lia. Qed.

Lemma zdrop_app_le {A} n (l k : list A) : n <= zlen l -> zdrop n (l ++ k) = zdrop n l ++ k.
Proof. unfold zdrop, zlen. intros. apply drop_app_le. lia. Qed.

Lemma ztake_all {A} n (l : list A) : zlen l <= n -> ztake n l = l.
Proof. unfold ztake, zlen. intros. apply take_ge. lia. Qed.

Lemma zdrop_all {A} n (l : list A) : zlen l <= n -> zdrop n l = [].
Proof. unfold zdrop, zlen. intros. apply drop_ge. lia. Qed.

(** Overwrite the part of [l] that starts at index [off] with [src]. *)
Definition splice {A} (off : nat) (src l : list A) : list A :=
  take off l ++ src ++ drop (off + length src) l.

Lemma length_splice {A} off (src l : list A) :
  (off + length src <= length l)%nat -> length (splice off src l) = length l.
Proof. intros. unfold splice. rewrite !length_app, length_take, length_drop. lia. Qed.

Lemma take_splice {A} n off (src l : list A) :
  (off + length src <= n)%nat -> (off + length src <= length l)%nat ->
  take n (splice off src l) = splice off src (take n l).
Proof.
  intros Hn Hl. unfold splice.
  rewrite take_app_ge by (rewrite length_take; lia).
  rewrite length_take, Nat.min_l, take_app_ge, take_take, Nat.min_l by lia.
  rewrite skipn_firstn_comm. do 3 f_equal. lia.
Qed.

Lemma drop_splice {A} n off (src l : list A) :
  (n + off <= length l)%nat ->
  drop n (splice (n + off) src l) = splice off src (drop n l).
Proof.
  intros Hl. unfold splice. rewrite drop_app_le by (rewrite length_take; lia).
  rewrite skipn_firstn_comm, drop_drop.
  replace (n + off - n)%nat with off by lia.
  replace (n + (off + length src))%nat with (n + off + length src)%nat by lia. done.
Qed.

Lemma splice_0 {A} (src l : list A) : splice 0 src l = src ++ drop (length src) l.
Proof. done. Qed.

#[global] Arguments splice : simpl never.
#[global] Arguments zlen : simpl never.
#[global] Arguments ztake : simpl never.
#[global] Arguments zdrop : simpl never.
#[global] Arguments wrap : simpl never.

Create HintDb connx discriminated.
#[export] Hint Resolve zlen_nonneg byte_val_range : connx.
Create Rewrite HintDb zlen.
#[export] Hint Rewrite @zlen_nil @zlen_cons @zlen_app : zlen.

(** ** Tactics *)

(** Destruct the discriminee of the innermost [match] or [if] of the goal. *)
Ltac case_goal :=
  match goal with
  | |- context [match ?x with _ => _ end] =>
      lazymatch x with
      | context [match _ with _ => _ end] => fail
      | _ => destruct x eqn:?
      end
  end.

(** Turn boolean comparisons of [Z] in hypotheses into propositions. *)
Ltac zbool :=
  repeat match goal with
  | H : (_ <? _) = true |- _ => apply Z.ltb_lt in H
  | H : (_ <? _) = false |- _ => apply Z.ltb_ge in H
  | H : (_ <=? _) = true |- _ => apply Z.leb_le in H
  | H : (_ <=? _) = false |- _ => apply Z.leb_gt in H
  | H : (_ =? _) = true |- _ => apply Z.eqb_eq in H
  | H : (_ =? _) = false |- _ => apply Z.eqb_neq in H
  | H : (_ >? _) = true |- _ => rewrite Z.gtb_ltb in H
  | H : (_ >? _) = false |- _ => rewrite Z.gtb_ltb in H
  | H : (_ >=? _) = true |- _ => rewrite Z.geb_leb in H
  | H : (_ >=? _) = false |- _ => rewrite Z.geb_leb in H
  | H : andb _ _ = true |- _ => apply andb_true_iff in H as [? ?]
  | H : andb _ _ = false |- _ => apply andb_false_iff in H as [? | ?]
  | H : orb _ _ = true |- _ => apply orb_true_iff in H as [? | ?]
  | H : orb _ _ = false |- _ => apply orb_false_iff in H as [? ?]
  | H : negb _ = true |- _ => apply negb_true_iff in H
  | H : negb _ = false |- _ => apply negb_false_iff in H
  end.

(** Record that the lengths in sight are not negative. *)
Ltac zlen_pos :=
  repeat match goal with
  | |- context [zlen ?l] =>
      lazymatch goal with H : 0 <= zlen l |- _ => fail | _ => pose proof (zlen_nonneg l) end
  | _ : context [zlen ?l] |- _ =>
      lazymatch goal with H : 0 <= zlen l |- _ => fail | _ => pose proof (zlen_nonneg l) end
  end.

(** Linear arithmetic on lengths and boolean comparisons. *)
Ltac zlia := zbool; autorewrite with zlen in *; zlen_pos; lia.

(** ** Record update *)

(** [r <| f := v |>] is the record [r] with field [f] replaced. A record type
    provides its eta-expansion; the update of a field abstracts the projection
    from it. *)
Class Eta (R : Type) := eta : R -> R.
Class Setter {R T : Type} (proj : R -> T) := set_field : (T -> T) -> R -> R.
#[global] Hint Mode Eta + : typeclass_instances.

Ltac solve_setter :=
  match goal with
  | |- @Setter ?R _ ?p =>
      let inst := constr:(_ : Eta R) in
      let e := eval hnf in inst in
      match (eval pattern p in e) with
      | ?F _ => exact (fun f r => F (fun r' => f (p r')) r)
      end
  end.

Notation "r <| f := v |>" := (set_field (proj := f) (fun _ => v) r)
  (at level 1, left associativity, format "r  <| f  :=  v |>").

(** ** Sums over the elements of a list *)

(** The threads of a concurrent program are a list; invariants count those at a given
    point, by weights. *)
Definition weigh {A} (f : A -> Z) (l : list A) : Z := foldr (fun x n => f x + n) 0 l.

Section Weigh.
Context {A : Type}.
Implicit Types (f g : A -> Z) (l k : list A).

Lemma weigh_app f l k : weigh f (l ++ k) = weigh f l + weigh f k.
Proof. unfold weigh. induction l; cbn; lia. Qed.

Lemma weigh_perm f l k : l ≡ₚ k -> weigh f l = weigh f k.
Proof. unfold weigh. induction 1; cbn; lia. Qed.

(** A map that does not change the weight of an element. *)
Lemma weigh_fmap f (h : A -> A) l : (forall x, f (h x) = f x) -> weigh f (h <$> l) = weigh f l.
Proof. intros Hh. unfold weigh. induction l; cbn; rewrite ?Hh; lia. Qed.

Lemma weigh_none f l : (forall x, x ∈ l -> f x = 0) -> weigh f l = 0.
Proof.
  intros Hf. unfold weigh. induction l as [| x l IH]; cbn; [done |]. rewrite Hf by left.
  rewrite IH; [done |]. intros y Hy. apply Hf. by right.
Qed.

Lemma weigh_nonneg f l : (forall x, 0 <= f x) -> 0 <= weigh f l.
Proof. intros Hf. unfold weigh. induction l as [| x l IH]; cbn; [lia |]. specialize (Hf x). lia. Qed.

Lemma weigh_le f g l : (forall x, f x <= g x) -> weigh f l <= weigh g l.
Proof. intros Hf. unfold weigh. induction l as [| x l IH]; cbn; [lia |]. specialize (Hf x). lia. Qed.

Lemma delete_insert_same l i x : delete i (<[i := x]> l) = delete i l.
Proof.
  revert i. induction l as [| y l IH]; intros [| i]; [done .. |].
  change (y :: delete i (<[i := x]> l) = y :: delete i l). by rewrite IH.
Qed.

(** Changing element [i] replaces its weight. *)
Lemma weigh_split f l i x :
  l !! i = Some x ->
  weigh f l = f x + weigh f (delete i l) /\ forall y, weigh f (<[i := y]> l) = f y + weigh f (delete i l).
Proof.
  intros Hi. split; [| intros y].
  - by rewrite (weigh_perm f _ _ (delete_Permutation _ _ _ Hi)).
  - assert (Hi' : <[i := y]> l !! i = Some y) by (apply list_lookup_insert_eq; by eapply lookup_lt_Some).
    rewrite (weigh_perm f _ _ (delete_Permutation _ _ _ Hi')). cbn. by rewrite delete_insert_same.
Qed.

Lemma weigh_at f l i x : (forall y, 0 <= f y) -> l !! i = Some x -> f x <= weigh f l.
Proof.
  intros Hf Hi. destruct (weigh_split f _ _ _ Hi) as [-> _]. pose proof (weigh_nonneg f (delete i l) Hf). lia.
Qed.

(** A positive weight has an element that carries some of it. *)
Lemma weigh_pos f l : 0 < weigh f l -> exists i x, l !! i = Some x /\ 0 < f x.
Proof.
  unfold weigh. induction l as [| x l IH]; cbn; intros Hw; [lia |].
  destruct (Z_lt_le_dec 0 (f x)); [by exists 0%nat, x |].
  destruct IH as (i & y & Hi & Hy); [lia |]. by exists (S i), y.
Qed.

End Weigh.
