(* ===== verification/Codec.v ===== *)
(** * Frame codecs

    [src/codec/*.cc] with the interface [include/connx/codec.h]: the three
    built-in codecs that cut a byte stream into frames, what the receive loop
    needs of any codec (the class [StreamCodec]) and the reference framing of a
    whole stream ([frames]).

    [Decode(data, len, &consumed)] is a function from the readable bytes
    [data[0..len)] to the result and the value left in [*consumed]. *)

From S2P Require Import Prelude.

Module DecodeResult.
Inductive t := kSuccess | kNeedMoreData | kError.
End DecodeResult.

Definition decode_fn : Type := list byte -> DecodeResult.t * Z.

(** ** DelimiterCodec *)

(** C's [memchr]: the index of the first byte equal to [c]. *)
Fixpoint memchr (data : list byte) (c : byte) : option Z :=
  match data with
  | [] => None
  | b :: data' => if decide (b = c) then Some 0 else Z.succ <$> memchr data' c
  end.

(** [pos - data] is a pointer difference inside one buffer, so adding 1 to it
    does not leave [size_t]. *)
Definition DelimiterCodec_Decode (delimiter_ : byte) : decode_fn := fun data =>
  match memchr data delimiter_ with
  | Some pos => (DecodeResult.kSuccess, pos + 1)
  | None => (DecodeResult.kNeedMoreData, 0)
  end.

(** ** FixedLengthCodec *)

(** The constructor replaces a length of 0 by 1. *)
Definition FixedLengthCodec_new (fixed_length : Z) : Z :=
  if fixed_length =? 0 then 1 else fixed_length.

Definition FixedLengthCodec_Decode (fixed_length_ : Z) : decode_fn := fun data =>
  (if zlen data <? fixed_length_ then DecodeResult.kNeedMoreData else DecodeResult.kSuccess,
   fixed_length_).

(** ** LengthFieldCodec *)

Record LengthFieldCodec := {
  length_field_offset_ : Z;
  length_field_length_ : Z;
  header_len_ : Z;
  network_to_host_ : bool
}.

(** The constructor; [None] is the [abort] of a failed [CONNX_ASSERT]. *)
Definition LengthFieldCodec_new (length_field_offset length_field_length header_len : Z)
    (network_to_host : bool) : option LengthFieldCodec :=
  if negb (length_field_offset <? header_len) then None
  else if negb ((1 <=? length_field_length) && (length_field_length <=? 8)) then None
  else if negb (length_field_length <=? header_len) then None
  else Some {| length_field_offset_ := length_field_offset;
               length_field_length_ := length_field_length;
               header_len_ := header_len;
               network_to_host_ := network_to_host |}.

(** The two loops of [ReadLengthValue], [n] iterations from index [i]. Reading
    [ptr[i]] past the readable bytes gives [None]. *)
Fixpoint ReadLengthValue_network (n i : nat) (ptr : list byte) (value : Z) : option Z :=
  match n with
  | O => Some value
  | S n' =>
      b ← ptr !! i;
      ReadLengthValue_network n' (S i) ptr (Z.lor (u64 (Z.shiftl value 8)) (byte_val b))
  end.

Fixpoint ReadLengthValue_host (n i : nat) (ptr : list byte) (value : Z) : option Z :=
  match n with
  | O => Some value
  | S n' =>
      b ← ptr !! i;
      ReadLengthValue_host n' (S i) ptr
        (Z.lor value (u64 (Z.shiftl (byte_val b) (u32 (Z.of_nat i * 8)))))
  end.

Definition ReadLengthValue (self : LengthFieldCodec) (ptr : list byte) : option Z :=
  if network_to_host_ self
  then ReadLengthValue_network (Z.to_nat (length_field_length_ self)) 0 ptr 0
  else ReadLengthValue_host (Z.to_nat (length_field_length_ self)) 0 ptr 0.

Section LengthField.
Context `{SizeT}.

Definition LengthFieldCodec_Decode (self : LengthFieldCodec) (data : list byte)
    : option (DecodeResult.t * Z) :=
  if zlen data <? header_len_ self then Some (DecodeResult.kNeedMoreData, 0)
  else
    body_length ← ReadLengthValue self (zdrop (length_field_offset_ self) data);
    if (INT64_MAX <=? body_length) || (SIZE_MAX - header_len_ self <? body_length)
    then Some (DecodeResult.kError, 0)
    else
      let consumed := usize (header_len_ self + usize body_length) in
      Some (if zlen data <? consumed then DecodeResult.kNeedMoreData else DecodeResult.kSuccess,
            consumed).

(** The codec as the virtual [Codec::Decode]; the error default stands for a
    read outside the buffer, which [length_field_overread] characterises. *)
Definition LengthFieldCodec_decode_fn (self : LengthFieldCodec) : decode_fn := fun data =>
  default (DecodeResult.kError, 0) (LengthFieldCodec_Decode self data).

End LengthField.

(** ** What the receive loop needs of a codec *)

(** A codec delimits frames of a stream: a frame it reports is not empty and
    lies in the data it was given, and neither the report of a frame nor that of
    an error is revised when more data arrives. *)
Class StreamCodec (decode : decode_fn) : Prop := {
  codec_bounds data n :
    decode data = (DecodeResult.kSuccess, n) -> 0 < n <= zlen data;
  codec_success_app data more n :
    decode data = (DecodeResult.kSuccess, n) -> decode (data ++ more) = (DecodeResult.kSuccess, n);
  codec_error_app data more :
    fst (decode data) = DecodeResult.kError -> fst (decode (data ++ more)) = DecodeResult.kError
}.

(** The reference framing of a stream: the frames it starts with, the bytes
    left over, and whether the codec refused them. [fuel] bounds the number of
    frames; the length of the stream is enough. *)
Fixpoint frames_fuel (fuel : nat) (decode : decode_fn) (data : list byte)
    : list (list byte) * list byte * bool :=
  match fuel with
  | O => ([], data, false)
  | S fuel' =>
      match data with
      | [] => ([], [], false)
      | _ =>
          match decode data with
          | (DecodeResult.kNeedMoreData, _) => ([], data, false)
          | (DecodeResult.kError, _) => ([], data, true)
          | (DecodeResult.kSuccess, n) =>
              if (n <=? 0) || (zlen data <? n) then ([], data, true)
              else
                let '(fs, rest, bad) := frames_fuel fuel' decode (zdrop n data) in
                (ztake n data :: fs, rest, bad)
          end
      end
  end.

Definition frames (decode : decode_fn) (data : list byte) : list (list byte) * list byte * bool :=
  frames_fuel (length data) decode data.

(** ** The value of a length field *)

Definition be_value (l : list byte) : Z := foldl (fun v b => v * 256 + byte_val b) 0 l.
Definition le_value (l : list byte) : Z := foldr (fun b v => byte_val b + 256 * v) 0 l.

(** The field's value as the configuration reads it. *)
Definition field_value (self : LengthFieldCodec) (data : list byte) : Z :=
  let field := ztake (length_field_length_ self) (zdrop (length_field_offset_ self) data) in
  if network_to_host_ self then be_value field else le_value field.

Lemma foldl_be_range l v :
  0 <= v ->
  v * 256 ^ zlen l <= foldl (fun v b => v * 256 + byte_val b) v l < (v + 1) * 256 ^ zlen l.
Proof.
  revert v. induction l as [| b l IH]; intros v Hv; cbn [foldl].
  - rewrite zlen_nil. lia.
  - pose proof (byte_val_range b). specialize (IH (v * 256 + byte_val b) ltac:(lia)).
    rewrite zlen_cons, Z.pow_add_r by (auto with connx; lia).
    pose proof (Z.pow_pos_nonneg 256 (zlen l) ltac:(lia) (zlen_nonneg l)). nia.
Qed.

Lemma be_value_range l : 0 <= be_value l < 256 ^ zlen l.
Proof. unfold be_value. pose proof (foldl_be_range l 0 ltac:(lia)). lia. Qed.

Lemma le_value_range l : 0 <= le_value l < 256 ^ zlen l.
Proof.
  induction l as [| b l IH]; [done |].
  change (le_value (b :: l)) with (byte_val b + 256 * le_value l).
  rewrite zlen_cons, Z.pow_add_r by (auto with connx; lia).
  pose proof (byte_val_range b). nia.
Qed.

Lemma le_value_app l k : le_value (l ++ k) = le_value l + 256 ^ zlen l * le_value k.
Proof.
  induction l as [| b l IH]; [change (le_value ([] ++ k)) with (le_value k); rewrite (@zlen_nil byte), Z.pow_0_r; cbn [le_value foldr]; lia |].
  change (le_value ((b :: l) ++ k)) with (byte_val b + 256 * le_value (l ++ k)).
  change (le_value (b :: l)) with (byte_val b + 256 * le_value l).
  rewrite IH, zlen_cons, Z.pow_add_r by (auto with connx; lia). ring.
Qed.

(** The same bytes read in the two orders. *)
Lemma be_value_rev l : be_value (rev l) = le_value l.
Proof.
  unfold be_value. induction l as [| b l IH]; [done |].
  cbn [rev]. rewrite foldl_app, IH. cbn. fold (le_value l). lia.
Qed.

(** One step of a loop adds one byte; [256^(zlen pre)] counts the bytes read. *)
Lemma ReadLengthValue_network_ok pre l :
  zlen (pre ++ l) <= 8 ->
  forall rest,
  ReadLengthValue_network (length l) (length pre) (pre ++ l ++ rest) (be_value pre) =
  Some (be_value (pre ++ l)).
Proof.
  revert pre. induction l as [| b l IH]; intros pre Hlen rest.
  - rewrite app_nil_r. done.
  - cbn [length ReadLengthValue_network]. rewrite <- app_comm_cons.
    rewrite list_lookup_middle by done. cbn.
    replace (Z.lor _ _) with (be_value (pre ++ [b])).
    + replace (S (length pre)) with (length (pre ++ [b])) by (rewrite length_app; cbn; lia).
      replace (pre ++ b :: l ++ rest) with ((pre ++ [b]) ++ l ++ rest) by (rewrite <- app_assoc; done).
      rewrite IH; rewrite <- app_assoc; done.
    + autorewrite with zlen in Hlen.
      pose proof (be_value_range pre) as R. pose proof (byte_val_range b).
      pose proof (Z.pow_le_mono_r 256 (zlen pre) 7 ltac:(lia) ltac:(zlia)).
      unfold u64. rewrite wrap_small by (rewrite Z.shiftl_mul_pow2 by lia; lia).
      rewrite lor_shiftl_add by lia.
      unfold be_value. rewrite foldl_app. cbn. lia.
Qed.

Lemma ReadLengthValue_host_ok pre l :
  zlen (pre ++ l) <= 8 ->
  forall rest,
  ReadLengthValue_host (length l) (length pre) (pre ++ l ++ rest) (le_value pre) =
  Some (le_value (pre ++ l)).
Proof.
  revert pre. induction l as [| b l IH]; intros pre Hlen rest.
  - rewrite app_nil_r. done.
  - cbn [length ReadLengthValue_host]. rewrite <- app_comm_cons.
    rewrite list_lookup_middle by done. cbn -[Z.mul].
    replace (Z.lor _ _) with (le_value (pre ++ [b])).
    + replace (S (length pre)) with (length (pre ++ [b])) by (rewrite length_app; cbn; lia).
      replace (pre ++ b :: l ++ rest) with ((pre ++ [b]) ++ l ++ rest) by (rewrite <- app_assoc; done).
      rewrite IH; rewrite <- app_assoc; done.
    + autorewrite with zlen in Hlen. fold (zlen pre).
      pose proof (le_value_range pre) as R. pose proof (byte_val_range b).
      pose proof (zlen_nonneg pre). pose proof (zlen_nonneg l).
      pose proof (Z.pow_le_mono_r 256 (zlen pre) 7 ltac:(lia) ltac:(lia)).
      assert (E : 256 ^ zlen pre = 2 ^ (zlen pre * 8)) by (rewrite Z.mul_comm, Z.pow_mul_r by lia; done).
      unfold u32, u64. rewrite (wrap_small 32) by lia.
      rewrite wrap_small by (rewrite Z.shiftl_mul_pow2, <- E by lia; nia).
      rewrite Z.lor_comm, lor_shiftl_add by lia.
      rewrite le_value_app, <- E. cbn. lia.
Qed.

Lemma ReadLengthValue_network_none n i ptr v :
  (length ptr < i + n)%nat -> (i <= length ptr)%nat -> ReadLengthValue_network n i ptr v = None.
Proof.
  revert i v. induction n as [| n IH]; intros i v Hlt Hle; [lia |].
  cbn. destruct (ptr !! i) as [b |] eqn:E; [| done]. cbn.
  apply lookup_lt_Some in E. apply IH; lia.
Qed.

Lemma ReadLengthValue_host_none n i ptr v :
  (length ptr < i + n)%nat -> (i <= length ptr)%nat -> ReadLengthValue_host n i ptr v = None.
Proof.
  revert i v. induction n as [| n IH]; intros i v Hlt Hle; [lia |].
  cbn. destruct (ptr !! i) as [b |] eqn:E; [| done]. cbn.
  apply lookup_lt_Some in E. apply IH; lia.
Qed.

(** What the constructor guarantees of its (unsigned 32-bit) arguments. *)
Definition lf_wf (self : LengthFieldCodec) : Prop :=
  0 <= length_field_offset_ self < header_len_ self /\
  header_len_ self <= UINT32_MAX /\
  1 <= length_field_length_ self <= 8 /\
  length_field_length_ self <= header_len_ self.

(** What its documentation asks for: the field lies inside the header. *)
Definition lf_inside (self : LengthFieldCodec) : Prop :=
  length_field_offset_ self + length_field_length_ self <= header_len_ self.

Lemma LengthFieldCodec_new_wf o l h n self :
  0 <= o -> h <= UINT32_MAX -> LengthFieldCodec_new o l h n = Some self -> lf_wf self.
Proof.
  unfold LengthFieldCodec_new, lf_wf. intros ? ?.
  repeat case_goal; intros; simplify_eq; cbn; zlia.
Qed.

Lemma ReadLengthValue_field self data :
  lf_wf self ->
  length_field_offset_ self + length_field_length_ self <= zlen data ->
  ReadLengthValue self (zdrop (length_field_offset_ self) data) = Some (field_value self data).
Proof.
  intros (Ho & _ & Hl & _) Hin. unfold ReadLengthValue, field_value.
  set (p := zdrop (length_field_offset_ self) data).
  assert (Hp : length_field_length_ self <= zlen p) by (unfold p; rewrite zlen_zdrop; lia).
  set (f := ztake (length_field_length_ self) p).
  assert (Hf : zlen f = length_field_length_ self) by (apply zlen_ztake; lia).
  replace (Z.to_nat (length_field_length_ self)) with (length f) by (unfold zlen in Hf; lia).
  rewrite <- (ztake_zdrop (length_field_length_ self) p). fold f.
  destruct (network_to_host_ self).
  - apply (ReadLengthValue_network_ok [] f). cbn [app]. lia.
  - apply (ReadLengthValue_host_ok [] f). cbn [app]. lia.
Qed.

Lemma ReadLengthValue_short self data :
  lf_wf self ->
  length_field_offset_ self <= zlen data < length_field_offset_ self + length_field_length_ self ->
  ReadLengthValue self (zdrop (length_field_offset_ self) data) = None.
Proof.
  intros (Ho & _ & Hl & _) Hin. unfold ReadLengthValue.
  pose proof (zlen_zdrop (length_field_offset_ self) data ltac:(lia)) as Hp. unfold zlen in Hp at 1.
  destruct (network_to_host_ self);
    [apply ReadLengthValue_network_none | apply ReadLengthValue_host_none]; lia.
Qed.

Lemma field_value_range self data : lf_wf self -> 0 <= field_value self data < 2 ^ 64.
Proof.
  intros (Ho & _ & Hl & _). unfold field_value.
  set (f := ztake _ _).
  assert (zlen f <= 8) by (unfold f, ztake, zlen; rewrite length_take; lia).
  pose proof (be_value_range f). pose proof (le_value_range f).
  pose proof (Z.pow_le_mono_r 256 (zlen f) 8 ltac:(lia) ltac:(lia)).
  destruct (network_to_host_ self); lia.
Qed.

Lemma field_value_app self data more :
  length_field_offset_ self + length_field_length_ self <= zlen data ->
  0 <= length_field_offset_ self -> 0 <= length_field_length_ self ->
  field_value self (data ++ more) = field_value self data.
Proof.
  intros. unfold field_value.
  rewrite zdrop_app_le, ztake_app_le by (rewrite ?zlen_zdrop; lia). done.
Qed.

(** ** Theorems *)

Section LengthFieldTheorems.
Context `{SizeT}.

(** Framing computed on mathematical integers, with no wrap-around. *)
Definition lf_spec (self : LengthFieldCodec) (data : list byte) : DecodeResult.t * Z :=
  let total := header_len_ self + field_value self data in
  if zlen data <? header_len_ self then (DecodeResult.kNeedMoreData, 0)
  else if (INT64_MAX <=? field_value self data) || (SIZE_MAX <? total)
  then (DecodeResult.kError, 0)
  else if zlen data <? total then (DecodeResult.kNeedMoreData, total)
  else (DecodeResult.kSuccess, total).

Lemma LengthFieldCodec_Decode_spec (self : LengthFieldCodec) (data : list byte) :
  lf_wf self -> lf_inside self ->
  LengthFieldCodec_Decode self data = Some (lf_spec self data).
Proof.
  intros Hwf Hin. unfold LengthFieldCodec_Decode, lf_spec.
  pose proof (field_value_range self data Hwf). pose proof SIZE_MAX_ge_u32.
  destruct (Z.ltb_spec (zlen data) (header_len_ self)) as [| Hh]; [done |].
  destruct Hwf as (Ho & Hu & Hl & Hlh) eqn:E. unfold lf_inside in Hin.
  rewrite ReadLengthValue_field by (done || lia). cbn.
  replace (SIZE_MAX - header_len_ self <? field_value self data)
    with (SIZE_MAX <? header_len_ self + field_value self data) by lia.
  destruct (_ || _) eqn:Eb; [done |].
  rewrite (usize_small (field_value _ _)) by zlia.
  rewrite usize_small by zlia. by case_goal.
Qed.

(** C30: LengthFieldCodec::Decode, for a configuration whose length field lies inside
    the header, reads only bytes it was given and computes the total frame size
    exactly: neither the 64-bit accumulator nor the [size_t] sum wraps around,
    on 32- and on 64-bit platforms. An incomplete header is [kNeedMoreData] with
    [consumed] 0; a length of [INT64_MAX] or more, or too large for a frame, is
    [kError]; a complete frame is [kSuccess] with its size. When the header is complete and the frame
    is not, the result is [kNeedMoreData] with [consumed] set to the size of the whole frame: the code
    differs there from the comments of [codec.h] and [c.h], which say that [consumed] is set to 0; the
    connection ignores the value. *)
Theorem length_field_decode_exact (self : LengthFieldCodec) (data : list byte) :
  lf_wf self -> lf_inside self ->
  LengthFieldCodec_Decode self data = Some (lf_spec self data).
Proof. apply LengthFieldCodec_Decode_spec. Qed.

(** The exact condition under which Decode reads past the [len] bytes it was
    given: the constructor checks neither alone nor together that
    [length_field_offset + length_field_length <= header_len]. *)
Theorem length_field_overread (self : LengthFieldCodec) (data : list byte) :
  lf_wf self ->
  LengthFieldCodec_Decode self data = None <->
  header_len_ self <= zlen data < length_field_offset_ self + length_field_length_ self.
Proof.
  intros Hwf. unfold LengthFieldCodec_Decode.
  destruct (Z.ltb_spec (zlen data) (header_len_ self)) as [| Hh]; [split; [done | lia] |].
  destruct (Z.lt_ge_cases (zlen data) (length_field_offset_ self + length_field_length_ self)).
  - rewrite ReadLengthValue_short; [split; [lia | done] | done |]. destruct Hwf. lia.
  - rewrite ReadLengthValue_field by (done || lia). cbn.
    destruct (_ || _); split; (done || lia).
Qed.

End LengthFieldTheorems.

(** An accepted configuration that does read out of bounds: a 4-byte field at
    offset 3 of a 4-byte header, on a buffer that holds exactly the header. *)
Example length_field_overread_ex :
  exists self, LengthFieldCodec_new 3 4 4 true = Some self /\
               LengthFieldCodec_Decode self [x00; x00; x00; x05] = None.
Proof. eexists. split; reflexivity. Qed.

(** ** Building length-prefixed frames *)

Fixpoint le_bytes (n : nat) (v : Z) : list byte :=
  match n with
  | O => []
  | S n' => byte_of v :: le_bytes n' (v / 256)
  end.

Definition be_bytes (n : nat) (v : Z) : list byte := rev (le_bytes n v).

Lemma length_le_bytes n v : length (le_bytes n v) = n.
Proof. revert v. induction n; intros; cbn; auto. Qed.

Lemma le_value_bytes n v : 0 <= v < 256 ^ Z.of_nat n -> le_value (le_bytes n v) = v.
Proof.
  revert v. induction n as [| n IH]; intros v Hv; [cbn in *; lia |].
  change (le_value (le_bytes (S n) v)) with (byte_val (byte_of v) + 256 * le_value (le_bytes n (v / 256))).
  rewrite Nat2Z.inj_succ, Z.pow_succ_r in Hv by lia.
  rewrite IH by (split; [apply Z.div_pos; lia | apply Z.div_lt_upper_bound; lia]).
  rewrite byte_val_of. unfold u8, wrap. change (2 ^ 8) with 256.
  pose proof (Z.div_mod v 256 ltac:(lia)). lia.
Qed.

Lemma be_value_bytes n v : 0 <= v < 256 ^ Z.of_nat n -> be_value (be_bytes n v) = v.
Proof. intros. unfold be_bytes. rewrite be_value_rev. by apply le_value_bytes. Qed.

(** A frame for a body: [pre] up to the length field, the field, [post] up to the
    end of the header, the body. *)
Definition lf_frame (self : LengthFieldCodec) (pre post body : list byte) : list byte :=
  let n := Z.to_nat (length_field_length_ self) in
  pre ++ (if network_to_host_ self then be_bytes n (zlen body) else le_bytes n (zlen body))
      ++ post ++ body.

Section LengthFieldRoundTrip.
Context `{SizeT}.

(** Round trip: a frame built for a body with the configured layout is decoded
    from the front of any stream that starts with it, and its size is reported
    exactly. *)
Theorem length_field_roundtrip self pre post body rest :
  lf_wf self ->
  zlen pre = length_field_offset_ self ->
  zlen pre + length_field_length_ self + zlen post = header_len_ self ->
  zlen body < 256 ^ length_field_length_ self ->
  zlen body < INT64_MAX -> header_len_ self + zlen body <= SIZE_MAX ->
  LengthFieldCodec_Decode self (lf_frame self pre post body ++ rest) =
  Some (DecodeResult.kSuccess, zlen (lf_frame self pre post body)).
Proof.
  intros Hwf Hpre Hpost Hfit Hmax Hsize.
  assert (Hin : lf_inside self) by (unfold lf_inside; zlia).
  rewrite LengthFieldCodec_Decode_spec by done.
  destruct Hwf as (Ho & Hu & Hl & Hlh).
  set (n := Z.to_nat (length_field_length_ self)).
  set (fld := if network_to_host_ self then be_bytes n (zlen body) else le_bytes n (zlen body)).
  assert (Hfld : zlen fld = length_field_length_ self).
  { unfold fld, be_bytes, zlen. destruct (network_to_host_ self); rewrite ?length_rev, length_le_bytes; lia. }
  assert (Hlen : zlen (lf_frame self pre post body) = header_len_ self + zlen body).
  { unfold lf_frame. fold n fld. rewrite !zlen_app. lia. }
  assert (Hv : field_value self (lf_frame self pre post body ++ rest) = zlen body).
  { unfold field_value, lf_frame. fold n fld. rewrite <- Hpre, <- Hfld, <- !app_assoc.
    unfold zdrop. rewrite drop_app_length' by (unfold zlen; lia).
    rewrite ztake_app_le, ztake_all by lia.
    assert (0 <= zlen body < 256 ^ Z.of_nat n) by (unfold n; rewrite Z2Nat.id by lia; zlia).
    unfold fld. destruct (network_to_host_ self); [by apply be_value_bytes | by apply le_value_bytes]. }
  unfold lf_spec. rewrite Hv, zlen_app, Hlen. pose proof (zlen_nonneg body). pose proof (zlen_nonneg rest).
  repeat case_goal; zlia || done.
Qed.

End LengthFieldRoundTrip.

(** ** The built-in codecs are stream codecs *)

Lemma memchr_Some data c p :
  memchr data c = Some p -> 0 <= p < zlen data /\ data !! Z.to_nat p = Some c /\ c ∉ ztake p data.
Proof.
  revert p. induction data as [| b data IH]; intros p; [done |]. cbn [memchr].
  rewrite zlen_cons. case_decide as E; intros Hp.
  - simplify_eq. split; [zlia |]. split; [done |]. apply not_elem_of_nil.
  - destruct (memchr data c) as [q |]; simplify_eq/=.
    destruct (IH q eq_refl) as (Hq & Hl & Hn). split; [lia |].
    replace (Z.to_nat (Z.succ q)) with (S (Z.to_nat q)) by lia. split; [done |].
    unfold ztake. replace (Z.to_nat (Z.succ q)) with (S (Z.to_nat q)) by lia.
    cbn. apply not_elem_of_cons. auto.
Qed.

Lemma memchr_None data c : memchr data c = None <-> c ∉ data.
Proof.
  induction data as [| b data IH]; cbn; [split; [intros _; apply not_elem_of_nil | done] |].
  rewrite not_elem_of_cons. case_decide as E.
  - split; [done | intros [? _]; congruence].
  - rewrite fmap_None, IH. split; [split; congruence || done | by intros [_ ?]].
Qed.

Lemma memchr_app data more c p : memchr data c = Some p -> memchr (data ++ more) c = Some p.
Proof.
  revert p. induction data as [| b data IH]; intros p; [done |]. cbn.
  case_decide; [done |]. destruct (memchr data c); [| done]. intros. by rewrite (IH _ eq_refl).
Qed.

(** DelimiterCodec::Decode reports a frame exactly when the delimiter occurs in
    the data; the frame runs up to and including its first occurrence, so the
    delimiter is part of the frame handed to the application. *)
Theorem delimiter_decode_spec (c : byte) (data : list byte) :
  match DelimiterCodec_Decode c data with
  | (DecodeResult.kSuccess, n) =>
      0 < n <= zlen data /\ exists body, ztake n data = body ++ [c] /\ c ∉ body
  | (DecodeResult.kNeedMoreData, n) => n = 0 /\ c ∉ data
  | (DecodeResult.kError, _) => False
  end.
Proof.
  unfold DelimiterCodec_Decode.
  destruct (memchr data c) as [p |] eqn:E; [| by rewrite memchr_None in E].
  destruct (memchr_Some _ _ _ E) as (Hp & Hl & Hn). split; [lia |].
  exists (ztake p data). split; [| done].
  unfold ztake. replace (Z.to_nat (p + 1)) with (S (Z.to_nat p)) by lia. by apply take_S_r.
Qed.

#[export] Instance delimiter_stream_codec c : StreamCodec (DelimiterCodec_Decode c).
Proof.
  unfold DelimiterCodec_Decode. split.
  - intros data n. destruct (memchr data c) eqn:E; [| done]. intros. simplify_eq.
    apply memchr_Some in E. lia.
  - intros data more n. destruct (memchr data c) eqn:E; [| done].
    by rewrite (memchr_app _ _ _ _ E).
  - intros data more. by destruct (memchr data c).
Qed.

#[export] Instance fixed_length_stream_codec n :
  0 <= n -> StreamCodec (FixedLengthCodec_Decode (FixedLengthCodec_new n)).
Proof.
  intros Hn. unfold FixedLengthCodec_Decode, FixedLengthCodec_new. split.
  - intros data m. repeat case_goal; intros; simplify_eq; zlia.
  - intros data more m. repeat case_goal; intros; simplify_eq; done || zlia.
  - intros data more. by repeat case_goal.
Qed.

Section LengthFieldInstance.
Context `{SizeT}.

Lemma lf_spec_app self data more :
  lf_wf self -> lf_inside self ->
  header_len_ self <= zlen data ->
  match lf_spec self data with
  | (DecodeResult.kNeedMoreData, _) => True
  | r => lf_spec self (data ++ more) = r
  end.
Proof.
  intros (Ho & Hu & Hl & Hlh) Hin Hd. unfold lf_inside in Hin. unfold lf_spec.
  rewrite field_value_app by lia. rewrite zlen_app. pose proof (zlen_nonneg more).
  repeat case_goal; done || zlia.
Qed.

Lemma lf_decode_fn_spec self data :
  lf_wf self -> lf_inside self -> LengthFieldCodec_decode_fn self data = lf_spec self data.
Proof. intros. unfold LengthFieldCodec_decode_fn. by rewrite LengthFieldCodec_Decode_spec. Qed.

#[export] Instance length_field_stream_codec self :
  lf_wf self -> lf_inside self -> StreamCodec (LengthFieldCodec_decode_fn self).
Proof.
  intros Hwf Hin.
  assert (Hsh : forall data, zlen data < header_len_ self ->
                lf_spec self data = (DecodeResult.kNeedMoreData, 0)).
  { intros data Hd. unfold lf_spec. case_goal; done || zlia. }
  split; [intros data n | intros data more n | intros data more]; rewrite !lf_decode_fn_spec by done.
  - pose proof (field_value_range self data Hwf). destruct Hwf as (Ho & ? & ? & ?).
    unfold lf_spec. repeat case_goal; intros; simplify_eq; zlia.
  - destruct (Z.lt_ge_cases (zlen data) (header_len_ self)); [by rewrite Hsh |].
    pose proof (lf_spec_app self data more Hwf Hin ltac:(lia)) as E. by intros Hs; rewrite Hs in E.
  - destruct (Z.lt_ge_cases (zlen data) (header_len_ self)); [by rewrite Hsh |].
    pose proof (lf_spec_app self data more Hwf Hin ltac:(lia)) as E.
    destruct (lf_spec self data) as [[] ?]; cbn; try done. by rewrite E.
Qed.

End LengthFieldInstance.

(** ** Framing a whole stream *)

Section Frames.
Context (decode : decode_fn) `{!StreamCodec decode}.

Lemma frames_fuel_enough n data :
  (length data <= n)%nat -> frames_fuel n decode data = frames decode data.
Proof.
  unfold frames. remember (length data) as m eqn:Hm. assert (length data <= m)%nat by lia. clear Hm.
  revert n data H. induction m as [| m IH]; intros n data Hd Hn.
  - destruct data; [| cbn in Hd; lia]. by destruct n.
  - destruct n as [| n]; [lia |]. cbn. destruct data as [| b data]; [done |].
    destruct (decode (b :: data)) as [[] c] eqn:E; try done.
    destruct (_ || _) eqn:Eb; [done |].
    rewrite IH; [done | | lia]. zbool.
    unfold zdrop. rewrite length_drop. cbn in *. lia.
Qed.

(** The equation of [frames]. *)
Lemma frames_unfold data :
  frames decode data =
  match data with
  | [] => ([], [], false)
  | _ =>
      match decode data with
      | (DecodeResult.kNeedMoreData, _) => ([], data, false)
      | (DecodeResult.kError, _) => ([], data, true)
      | (DecodeResult.kSuccess, n) =>
          let '(fs, rest, bad) := frames decode (zdrop n data) in (ztake n data :: fs, rest, bad)
      end
  end.
Proof.
  destruct data as [| b data]; [done |]. unfold frames at 1. cbn [length frames_fuel].
  destruct (decode (b :: data)) as [[] n] eqn:E; try done.
  pose proof (codec_bounds _ _ E) as Hn.
  destruct (_ || _) eqn:Eb; [zlia |].
  rewrite frames_fuel_enough; [done |]. unfold zdrop. rewrite length_drop. cbn. lia.
Qed.

Lemma frames_nil : frames decode [] = ([], [], false).
Proof. done. Qed.

(** Induction on the frames of a stream. *)
Lemma frames_ind (P : list byte -> Prop) :
  (forall data, (forall n, 0 < n <= zlen data -> P (zdrop n data)) -> P data) ->
  forall data, P data.
Proof.
  intros HP data. remember (length data) as m eqn:Hm. assert (length data <= m)%nat by lia. clear Hm.
  revert data H. induction m as [| m IH]; intros data Hd; apply HP; intros n Hn.
  - unfold zlen in Hn. lia.
  - apply IH. unfold zdrop. rewrite length_drop. lia.
Qed.

(** The frames tile the stream: put back together with the bytes left over they
    are the stream, and no frame is empty. *)
Theorem frames_tile (data : list byte) :
  let '(fs, rest, _) := frames decode data in
  concat fs ++ rest = data /\ Forall (fun f => f <> []) fs.
Proof.
  induction data as [data IH] using frames_ind. rewrite frames_unfold.
  destruct data as [| b data]; [done |].
  destruct (decode (b :: data)) as [[] n] eqn:E; try done.
  pose proof (codec_bounds _ _ E) as Hn. specialize (IH n Hn).
  destruct (frames decode (zdrop n (b :: data))) as [[fs rest] bad]. destruct IH as [IH Hne].
  cbn [concat]. rewrite <- app_assoc, IH, ztake_zdrop. split; [done |].
  constructor; [| done]. intros Ht. apply (f_equal zlen) in Ht.
  rewrite zlen_ztake in Ht by lia. rewrite zlen_nil in Ht. lia.
Qed.

(** Framing does not depend on how the stream is cut into chunks: framing a
    stream and then what is left over together with the next chunk gives the
    frames of the whole; once a codec has refused a stream, more data changes
    nothing. *)
Theorem frames_app (data more : list byte) :
  frames decode (data ++ more) =
  let '(fs, rest, bad) := frames decode data in
  if bad then (fs, rest ++ more, true)
  else let '(fs', rest', bad') := frames decode (rest ++ more) in (fs ++ fs', rest', bad').
Proof.
  induction data as [data IH] using frames_ind. rewrite (frames_unfold data).
  destruct data as [| b data].
  { cbn [app]. by destruct (frames decode more) as [[? ?] ?]. }
  destruct (decode (b :: data)) as [[] n] eqn:E.
  - pose proof (codec_bounds _ _ E) as Hn. specialize (IH n Hn).
    rewrite frames_unfold. pose proof (codec_success_app _ more _ E) as E'.
    cbn [app] in E' |- *. rewrite E'.
    change (b :: data ++ more) with ((b :: data) ++ more).
    rewrite zdrop_app_le, ztake_app_le, IH by lia.
    destruct (frames decode (zdrop n (b :: data))) as [[fs rest] []]; [done |].
    by destruct (frames decode (rest ++ more)) as [[? ?] ?].
  - by destruct (frames decode ((b :: data) ++ more)) as [[? ?] ?].
  - rewrite frames_unfold. cbn [app].
    assert (E' : fst (decode (b :: data ++ more)) = DecodeResult.kError).
    { change (b :: data ++ more) with ((b :: data) ++ more). apply codec_error_app. by rewrite E. }
    destruct (decode (b :: data ++ more)) as [[] ?]; done.
Qed.

(** Frames that the codec recognises on their own are recognised in sequence. *)
Lemma frames_concat fs rest :
  Forall (fun f => decode f = (DecodeResult.kSuccess, zlen f)) fs ->
  frames decode (concat fs ++ rest) =
  let '(fs', rest', bad) := frames decode rest in (fs ++ fs', rest', bad).
Proof.
  induction 1 as [| f fs Hf Hfs IH]; cbn [concat app]; [by destruct (frames decode rest) as [[? ?] ?] |].
  rewrite <- app_assoc, frames_unfold.
  pose proof (codec_bounds _ _ Hf) as Hn. pose proof (codec_success_app _ (concat fs ++ rest) _ Hf) as E.
  destruct (f ++ concat fs ++ rest) as [| b d] eqn:Ed.
  { apply (f_equal zlen) in Ed. zlia. }
  rewrite E, <- Ed, ztake_app_le, ztake_all, zdrop_app_le, zdrop_all by lia. cbn [app].
  rewrite IH. by destruct (frames decode rest) as [[? ?] ?].
Qed.

End Frames.

(** ** The theorems on concrete inputs *)

(** A big-endian 2-byte field at offset 1 of a 4-byte header. *)
Definition lf_demo : LengthFieldCodec :=
  {| length_field_offset_ := 1; length_field_length_ := 2; header_len_ := 4; network_to_host_ := true |}.

Lemma lf_demo_wf : lf_wf lf_demo.
Proof. unfold lf_wf, UINT32_MAX. cbn. lia. Qed.

Lemma length_field_decode_exact_witness :
  LengthFieldCodec_Decode lf_demo [x01; x00; x02; xff; x61; x62; x63] = Some (DecodeResult.kSuccess, 6) /\
  LengthFieldCodec_Decode lf_demo [x01; x00; x02; xff; x61] = Some (DecodeResult.kNeedMoreData, 6).
Proof.
  assert (Hin : lf_inside lf_demo) by (unfold lf_inside; cbn; lia). split.
  - exact (length_field_decode_exact lf_demo [x01; x00; x02; xff; x61; x62; x63] lf_demo_wf Hin).
  - exact (length_field_decode_exact lf_demo [x01; x00; x02; xff; x61] lf_demo_wf Hin).
Defined.

Lemma length_field_overread_witness :
  LengthFieldCodec_Decode {| length_field_offset_ := 3; length_field_length_ := 4; header_len_ := 4; network_to_host_ := true |}
    [x00; x00; x00; x05] = None.
Proof.
  apply (length_field_overread
    {| length_field_offset_ := 3; length_field_length_ := 4; header_len_ := 4; network_to_host_ := true |}).
  - unfold lf_wf, UINT32_MAX. cbn. lia.
  - cbn. unfold zlen. cbn. lia.
Defined.

Lemma length_field_roundtrip_witness :
  LengthFieldCodec_Decode lf_demo (lf_frame lf_demo [x01] [xff] [x61; x62] ++ [x63]) = Some (DecodeResult.kSuccess, 6).
Proof.
  apply (length_field_roundtrip lf_demo [x01] [xff] [x61; x62] [x63] lf_demo_wf); vm_compute; reflexivity || discriminate.
Defined.

Lemma frames_tile_witness :
  concat [[x61; x0a]; [x0a]] ++ [x62] = [x61; x0a; x0a; x62].
Proof. exact (proj1 (frames_tile (DelimiterCodec_Decode x0a) [x61; x0a; x0a; x62])). Defined.

Lemma frames_app_witness :
  frames (DelimiterCodec_Decode x0a) ([x61; x0a; x62] ++ [x0a]) = ([[x61; x0a]; [x62; x0a]], [], false).
Proof. rewrite (frames_app (DelimiterCodec_Decode x0a) [x61; x0a; x62] [x0a]). reflexivity. Defined.
