(* ===== verification/Endian.v ===== *)
(** * Byte order

    [src/utils/endian.h]: the conversion between the order of the host and network order, on
    hosts of either order. *)

From S2P Require Import Prelude Codec.

(** [__builtin_bswap32], [__builtin_bswap64] and their equivalents: the [n] bytes of the value in
    the opposite order. *)
Definition bswap (n : nat) (v : Z) : Z := le_value (rev (le_bytes n v)).

(** [connx_swap_bytes] of each width. *)
Definition connx_swap_bytes8 (val : Z) : Z := val.
Definition connx_swap_bytes16 (val : Z) : Z := u16 (Z.lor (Z.shiftl val 8) (Z.shiftr val 8)).
Definition connx_swap_bytes32 (val : Z) : Z := bswap 4 val.
Definition connx_swap_bytes64 (val : Z) : Z := bswap 8 val.

(** The integer types the templates are used at, by their size. *)
Inductive width := W8 | W16 | W32 | W64.
Definition bytes_of (w : width) : nat := match w with W8 => 1 | W16 => 2 | W32 => 4 | W64 => 8 end.

Definition connx_swap_bytes (w : width) (val : Z) : Z :=
  match w with
  | W8 => connx_swap_bytes8 val
  | W16 => connx_swap_bytes16 val
  | W32 => connx_swap_bytes32 val
  | W64 => connx_swap_bytes64 val
  end.

(** [big]: [CONNX_IS_BIG_ENDIAN]. *)
Definition host_to_network (big : bool) (w : width) (val : Z) : Z := if big then val else connx_swap_bytes w val.
Definition network_to_host (big : bool) (w : width) (val : Z) : Z := host_to_network big w val.

(** How the host stores a value. *)
Definition memory_of (big : bool) (w : width) (val : Z) : list byte :=
  if big then be_bytes (bytes_of w) val else le_bytes (bytes_of w) val.

(** ** Swapping reverses the bytes *)

Lemma le_bytes_value l : le_bytes (length l) (le_value l) = l.
Proof.
  induction l as [| b l IH]; [done |]. pose proof (byte_val_range b).
  change (le_value (b :: l)) with (byte_val b + 256 * le_value l). cbn [length le_bytes].
  replace (byte_val b + 256 * le_value l) with (le_value l * 256 + byte_val b) by lia.
  rewrite Z.div_add_l, (Z.div_small (byte_val b)), Z.add_0_r, IH by lia. f_equal.
  apply byte_val_inj. rewrite byte_val_of. unfold u8, wrap. rewrite Z.add_comm, Z.mod_add by lia. by apply Z.mod_small.
Qed.

Lemma le_bytes_bswap n v : le_bytes n (bswap n v) = be_bytes n v.
Proof. unfold bswap, be_bytes. rewrite <- (length_le_bytes n v) at 1. by rewrite <- length_rev, le_bytes_value. Qed.

Lemma bswap_range n v : 0 <= bswap n v < 256 ^ Z.of_nat n.
Proof.
  unfold bswap. pose proof (le_value_range (rev (le_bytes n v))) as Hr. unfold zlen in Hr. by rewrite length_rev, length_le_bytes in Hr.
Qed.

Lemma bswap_bswap n v : 0 <= v < 256 ^ Z.of_nat n -> bswap n (bswap n v) = v.
Proof. intros Hv. unfold bswap at 1. rewrite le_bytes_bswap. unfold be_bytes. by rewrite rev_involutive, le_value_bytes. Qed.

(** The shifts of the 16-bit version do the same as the intrinsics. *)
Lemma swap16 v : 0 <= v < 2 ^ 16 -> connx_swap_bytes16 v = bswap 2 v.
Proof.
  intros Hv. unfold connx_swap_bytes16, u16, wrap. rewrite Z.shiftr_div_pow2 by lia. change (2 ^ 8) with 256.
  pose proof (Z.div_mod v 256 ltac:(lia)) as Hd. pose proof (Z.mod_pos_bound v 256 ltac:(lia)) as Hm.
  assert (Hq : 0 <= v / 256 < 256) by (split; [apply Z.div_pos | apply Z.div_lt_upper_bound]; lia).
  rewrite lor_shiftl_add by (change (2 ^ 8) with 256; lia). change (2 ^ 8) with 256. change (2 ^ 16) with 65536.
  replace (v * 256 + v / 256) with ((v mod 256) * 256 + v / 256 + (v / 256) * 65536) by lia.
  rewrite Z.mod_add, Z.mod_small by lia. unfold bswap. cbn [le_bytes rev app le_value foldr].
  rewrite !byte_val_of. unfold u8, wrap. change (2 ^ 8) with 256. rewrite (Z.mod_small (v / 256)) by lia. lia.
Qed.

Lemma swap_bswap w v : 0 <= v < 256 ^ Z.of_nat (bytes_of w) -> connx_swap_bytes w v = bswap (bytes_of w) v.
Proof.
  destruct w; intros Hv; [| by apply swap16 | done ..].
  cbn in Hv. unfold bswap. cbn [bytes_of le_bytes rev app le_value foldr connx_swap_bytes]. rewrite byte_val_of.
  unfold connx_swap_bytes8, u8, wrap. rewrite Z.mod_small by lia. lia.
Qed.

(** ** Theorem *)

(** Network order, on hosts of either byte order and at every width: what
    [host_to_network] makes of a value lies in memory with its most significant byte first,
    so a length field codec for network order reads the value back;
    [network_to_host] undoes the conversion. *)
Theorem network_order_exact (big : bool) (w : width) (v : Z) (rest : list byte) (self : LengthFieldCodec) :
  0 <= v < 256 ^ Z.of_nat (bytes_of w) -> length_field_length_ self = Z.of_nat (bytes_of w) -> network_to_host_ self = true ->
  memory_of big w (host_to_network big w v) = be_bytes (bytes_of w) v /\
  ReadLengthValue self (memory_of big w (host_to_network big w v) ++ rest) = Some v /\
  network_to_host big w (host_to_network big w v) = v.
Proof.
  intros Hv Hl Hn.
  assert (Hm : memory_of big w (host_to_network big w v) = be_bytes (bytes_of w) v).
  { unfold memory_of, host_to_network. destruct big; [done |]. by rewrite swap_bswap, le_bytes_bswap. }
  split; [done |]. split.
  - rewrite Hm. unfold ReadLengthValue. rewrite Hn, Hl, Nat2Z.id.
    assert (Hb : length (be_bytes (bytes_of w) v) = bytes_of w) by (unfold be_bytes; by rewrite length_rev, length_le_bytes).
    pose proof (ReadLengthValue_network_ok [] (be_bytes (bytes_of w) v)) as Er. cbn [app length] in Er.
    rewrite Hb, be_value_bytes in Er by done. apply Er. unfold zlen. rewrite Hb. by destruct w.
  - unfold network_to_host, host_to_network. destruct big; [done |].
    rewrite (swap_bswap w v) by done. rewrite swap_bswap by apply bswap_range. by apply bswap_bswap.
Qed.

Lemma network_order_exact_witness :
  ReadLengthValue {| length_field_offset_ := 0; length_field_length_ := 4; header_len_ := 4; network_to_host_ := true |}
    (memory_of false W32 (host_to_network false W32 5) ++ [x61]) = Some 5.
Proof.
  apply (network_order_exact false W32 5 [x61]
    {| length_field_offset_ := 0; length_field_length_ := 4; header_len_ := 4; network_to_host_ := true |}); [cbn; lia | reflexivity | reflexivity].
Defined.
