(* ===== verification/Slice.v ===== *)
(** * Reference-counted byte slices

    [src/utils/slice.h], [src/utils/slice.cc]: short slices hold their bytes
    inline, longer ones share a heap block whose header counts the [Slice]
    objects that point to it.

    The heap is explicit: every operation takes it and returns the new one, and
    [None] is undefined behaviour (a freed block, an access outside a block). A
    memory cell holds [None] while it is indeterminate. [malloc] is assumed to
    succeed (the code aborts otherwise). *)

From S2P Require Import Prelude.

Abbreviation loc := nat.
Abbreviation cell := (option byte).

(** A heap block: the [SliceRefCount] header and the bytes behind it. *)
Record block := Block { blk_refs : Z; blk_cells : list cell }.
Abbreviation heap := (gmap loc block).

Definition SLICE_INLINED_SIZE : Z := 23.
Definition sizeof_SliceRefCount : Z := 4.
Definition INT32_MAX : Z := 2 ^ 31 - 1.
Definition i32 (z : Z) : Z := (z + 2 ^ 31) mod 2 ^ 32 - 2 ^ 31.

(** A [Slice] object: [refs_ == nullptr] selects the inlined member of the
    union. [off] is [data_.refcounted.bytes] as an offset into the block. *)
Inductive Slice :=
| Inlined (length : Z) (bytes : list cell)
| Refcounted (refs : loc) (length : Z) (off : Z).

(** ** SliceRefCount *)

Definition SliceRefCount_AddRef (h : heap) (l : loc) : option heap :=
  b ← h !! l;
  Some (<[l := Block (i32 (blk_refs b + 1)) (blk_cells b)]> h).

Definition SliceRefCount_DecRef (h : heap) (l : loc) : option heap :=
  b ← h !! l;
  let n := blk_refs b in
  if n =? 1 then Some (delete l h)
  else Some (<[l := Block (i32 (n - 1)) (blk_cells b)]> h).

(** ** Memory *)

(** [memcpy] of [src] into an object at offset [off]. *)
Definition write_cells (cells : list cell) (off : nat) (src : list cell) : option (list cell) :=
  if decide (off + length src <= length cells)%nat
  then Some (splice off src cells)
  else None.

Section SizeT.
Context `{SizeT}.

(** [malloc(sizeof(SliceRefCount) + len)] and the placement of a reference
    count of 1. The sum is a [size_t]: the block has the wrapped size. *)
Definition malloc_slice (h : heap) (len : Z) : loc * heap :=
  let l := fresh (dom h) in
  let bytes := usize (sizeof_SliceRefCount + len) - sizeof_SliceRefCount in
  (l, <[l := Block 1 (replicate (Z.to_nat bytes) None)]> h).

(** [memcpy] into the bytes of a block. *)
Definition write_block (h : heap) (l : loc) (off : Z) (src : list cell) : option heap :=
  b ← h !! l;
  cells ← write_cells (blk_cells b) (Z.to_nat off) src;
  Some (<[l := Block (blk_refs b) cells]> h).

Definition zero_inlined : list cell := replicate 23 (Some x00).

(** ** Construction and destruction *)

Definition Slice_default : Slice := Inlined 0 zero_inlined.

(** [Slice(const char* ptr, size_t len)]; [ptr] is [None] for a null pointer,
    otherwise the [len] bytes it points to. *)
Definition Slice_new (h : heap) (ptr : option (list byte)) (len : Z) : option (Slice * heap) :=
  if len =? 0 then Some (Slice_default, h)
  else if len <=? SLICE_INLINED_SIZE then
    match ptr with
    | Some p => cells ← write_cells (replicate 23 None) 0 (Some <$> ztake len p);
                Some (Inlined (u8 len) cells, h)
    | None => Some (Inlined (u8 len) (replicate 23 None), h)
    end
  else
    let '(l, h1) := malloc_slice h len in
    match ptr with
    | Some p => h2 ← write_block h1 l 0 (Some <$> ztake len p);
                Some (Refcounted l len 0, h2)
    | None => Some (Refcounted l len 0, h1)
    end.

Definition Slice_destroy (h : heap) (s : Slice) : option heap :=
  match s with
  | Inlined _ _ => Some h
  | Refcounted l _ _ => SliceRefCount_DecRef h l
  end.

(** The copy constructor: the new object has the same members. *)
Definition Slice_copy (h : heap) (oth : Slice) : option (Slice * heap) :=
  match oth with
  | Inlined _ _ => Some (oth, h)
  | Refcounted l _ _ => h' ← SliceRefCount_AddRef h l; Some (oth, h')
  end.

(** [this = oth] for two different objects: the reference of [oth] is taken
    before the one of [this] is dropped. *)
Definition Slice_assign (h : heap) (this oth : Slice) : option (Slice * heap) :=
  h1 ← match oth with
       | Refcounted l _ _ => SliceRefCount_AddRef h l
       | Inlined _ _ => Some h
       end;
  h2 ← match this with
       | Refcounted l _ _ => SliceRefCount_DecRef h1 l
       | Inlined _ _ => Some h1
       end;
  Some (oth, h2).

(** The move constructor: the new object and what is left of [oth], an empty
    slice (the bytes past its length are not observable). *)
Definition Slice_move (oth : Slice) : Slice * Slice := (oth, Slice_default).

Definition Slice_move_assign (h : heap) (this oth : Slice) : option (Slice * Slice * heap) :=
  h1 ← match this with
       | Refcounted l _ _ => SliceRefCount_DecRef h l
       | Inlined _ _ => Some h
       end;
  Some (oth, Slice_default, h1).

(** ** Observers *)

Definition Slice_size (s : Slice) : Z :=
  match s with
  | Refcounted _ length _ => length
  | Inlined length _ => length
  end.

Definition Slice_empty (s : Slice) : bool := Slice_size s =? 0.

(** The cells in [begin(), end()). *)
Definition Slice_cells (h : heap) (s : Slice) : option (list cell) :=
  match s with
  | Inlined length bytes =>
      if decide (0 <= length <= zlen bytes) then Some (ztake length bytes) else None
  | Refcounted l length off =>
      b ← h !! l;
      if decide (0 <= off /\ 0 <= length /\ off + length <= zlen (blk_cells b))
      then Some (ztake length (zdrop off (blk_cells b))) else None
  end.

(** [compare]: sizes first, then [memcmp]. Comparing an indeterminate byte is
    undefined. *)
Definition Slice_compare (h : heap) (s : Slice) (ptr : list byte) (len : Z) : option bool :=
  if negb (len =? Slice_size s) then Some false
  else if len =? 0 then Some true
  else
    cells ← Slice_cells h s;
    bytes ← mapM (fun c : cell => c) cells;
    Some (bool_decide (bytes = ztake len ptr)).

(** The bytes of a slice, as [std::string(s.data(), s.size())] reads them. *)
Definition SliceToString (h : heap) (s : Slice) : option (list byte) :=
  cells ← Slice_cells h s; mapM (fun c : cell => c) cells.

Definition SliceFromString (h : heap) (s : list byte) : option (Slice * heap) := Slice_new h (Some s) (zlen s).

(** The comparison operators; the second operand is read only if the sizes agree. *)
Definition Slice_eq (h : heap) (s t : Slice) : option bool :=
  if negb (Slice_size t =? Slice_size s) then Some false
  else bytes ← SliceToString h t; Slice_compare h s bytes (Slice_size t).
Definition Slice_neq (h : heap) (s t : Slice) : option bool := negb <$> Slice_eq h s t.
Definition Slice_eq_string (h : heap) (s : Slice) (str : list byte) : option bool := Slice_compare h s str (zlen str).

(** A C string is its characters without the NUL, or NULL. *)
Definition Slice_eq_cstr (h : heap) (s : Slice) (ptr : option (list byte)) : option bool :=
  match ptr with None => Some (Slice_empty s) | Some p => Slice_compare h s p (zlen p) end.

(** ** Trimming *)

Definition RemoveTail (s : Slice) (remove_size : Z) : Slice :=
  if remove_size =? 0 then s
  else
    let remove_size := if Slice_size s <? remove_size then Slice_size s else remove_size in
    match s with
    | Refcounted l length off => Refcounted l (usize (length - remove_size)) off
    | Inlined length bytes => Inlined (u8 (length - u8 remove_size)) bytes
    end.

(** [memmove(bytes, bytes + n, length)] inside the 23 inlined bytes. *)
Definition memmove_inlined (bytes : list cell) (n length : Z) : list cell :=
  let moved := ztake length (zdrop n bytes) in
  moved ++ zdrop (zlen moved) bytes.

Definition RemoveHead (s : Slice) (remove_size : Z) : Slice :=
  if remove_size =? 0 then s
  else
    let remove_size := if Slice_size s <? remove_size then Slice_size s else remove_size in
    match s with
    | Refcounted l length off =>
        Refcounted l (usize (length - remove_size)) (off + remove_size)
    | Inlined length bytes =>
        let length' := u8 (length - u8 remove_size) in
        Inlined length' (memmove_inlined bytes remove_size length')
    end.

(** ** Allocation and concatenation *)

Definition MakeSliceByLength (h : heap) (len : Z) : Slice * heap :=
  if len <=? SLICE_INLINED_SIZE then (Inlined (u8 len) zero_inlined, h)
  else let '(l, h1) := malloc_slice h len in (Refcounted l len 0, h1).

Definition MakeSliceByPage (h : heap) (page : Z) : Slice * heap :=
  if page =? 0 then MakeSliceByLength h 0
  else MakeSliceByLength h (usize (usize (page * 4096) - sizeof_SliceRefCount)).

Definition MakeSliceDefault (h : heap) : Slice * heap := MakeSliceByPage h 1.

(** [memcpy(s.buffer() + off, src, n)]: the write through the pointer of a slice. *)
Definition Slice_write (h : heap) (s : Slice) (off : Z) (src : list cell) : option (Slice * heap) :=
  match s with
  | Inlined length bytes =>
      bytes' ← write_cells bytes (Z.to_nat off) src; Some (Inlined length bytes', h)
  | Refcounted l _ base => h' ← write_block h l (base + off) src; Some (s, h')
  end.

(** [operator+]: the arguments are passed by value and destroyed on return,
    except for the one that is moved into the result. *)
Definition Slice_plus (h : heap) (s1 s2 : Slice) : option (Slice * heap) :=
  if Slice_empty s1 then h1 ← Slice_destroy h s1; Some (s2, h1)
  else if Slice_empty s2 then h1 ← Slice_destroy h s2; Some (s1, h1)
  else
    let '(s, h1) := MakeSliceByLength h (usize (Slice_size s1 + Slice_size s2)) in
    c1 ← Slice_cells h1 s1;
    '(s, h2) ← Slice_write h1 s 0 c1;
    c2 ← Slice_cells h2 s2;
    '(s, h3) ← Slice_write h2 s (Slice_size s1) c2;
    h4 ← Slice_destroy h3 s2;
    h5 ← Slice_destroy h4 s1;
    Some (s, h5).

(** [this += s]: [*this] and [s] are copied into the parameters of [operator+]
    and the result is moved into [this]. *)
Definition Slice_plus_assign (h : heap) (this s : Slice) : option (Slice * heap) :=
  '(p1, h1) ← Slice_copy h this;
  '(p2, h2) ← Slice_copy h1 s;
  '(tmp, h3) ← Slice_plus h2 p1 p2;
  '(this', _, h4) ← Slice_move_assign h3 this tmp;
  Some (this', h4).

Definition Slice_clear (h : heap) (this : Slice) : option (Slice * heap) :=
  '(this', _, h1) ← Slice_move_assign h this Slice_default;
  Some (this', h1).

End SizeT.

(** ** The ownership invariant *)

Definition points_to (l : loc) (s : Slice) : Prop :=
  match s with Refcounted l' _ _ => l' = l | Inlined _ _ => False end.

#[export] Instance points_to_dec l s : Decision (points_to l s).
Proof. destruct s; cbn; apply _. Defined.

(** How many of the objects [L] point to block [l]. *)
Definition refcount (l : loc) (L : list Slice) : Z := zlen (filter (points_to l) L).

Section Invariant.
Context `{SizeT}.

(** A slice lies inside its storage. *)
Definition slice_ok (h : heap) (s : Slice) : Prop :=
  match s with
  | Inlined length bytes => zlen bytes = SLICE_INLINED_SIZE /\ 0 <= length <= SLICE_INLINED_SIZE
  | Refcounted l length off =>
      exists b, h !! l = Some b /\ 0 <= off /\ 0 <= length /\
                off + length <= zlen (blk_cells b) <= SIZE_MAX
  end.

(** [L] lists the live [Slice] objects of the program: every block is held by
    at least one of them and counts them exactly. *)
Record heap_ok (h : heap) (L : list Slice) : Prop := {
  ok_refs l b : h !! l = Some b -> blk_refs b = refcount l L /\ 0 < blk_refs b;
  ok_slices : Forall (slice_ok h) L;
  ok_count : zlen L <= INT32_MAX
}.

(** ** Auxiliary lemmas *)

Lemma refcount_nil l : refcount l [] = 0.
Proof. done. Qed.

Lemma refcount_cons l s L :
  refcount l (s :: L) = (if decide (points_to l s) then 1 else 0) + refcount l L.
Proof. unfold refcount. rewrite filter_cons. case_decide; [apply zlen_cons | lia]. Qed.

Lemma refcount_nonneg l L : 0 <= refcount l L.
Proof. apply zlen_nonneg. Qed.

Lemma refcount_perm l L L' : L ≡ₚ L' -> refcount l L = refcount l L'.
Proof. intros HP. unfold refcount, zlen. f_equal. apply Permutation_length. by rewrite HP. Qed.

Lemma refcount_pos l s L : s ∈ L -> points_to l s -> 0 < refcount l L.
Proof.
  intros Hs Hp. unfold refcount.
  assert (Hin : s ∈ filter (points_to l) L) by (by apply list_elem_of_filter).
  destruct (filter (points_to l) L); [by apply not_elem_of_nil in Hin | zlia].
Qed.

Lemma refcount_le l L : refcount l L <= zlen L.
Proof. unfold refcount, zlen. pose proof (length_filter (points_to l) L). lia. Qed.

Lemma heap_ok_perm h L L' : L ≡ₚ L' -> heap_ok h L -> heap_ok h L'.
Proof.
  intros HP [Hr Hs Hc]. split.
  - intros l b Hb. rewrite <- (refcount_perm _ _ _ HP). by apply Hr.
  - by rewrite <- HP.
  - unfold zlen in *. by rewrite <- (Permutation_length HP).
Qed.

(** Two heaps hold the same bytes at [l]. *)
Definition same_bytes (h h' : heap) (l : loc) : Prop := blk_cells <$> h' !! l = blk_cells <$> h !! l.

(** The slices of [L] are unaffected by the step from [h] to [h']. *)
Definition frame (h h' : heap) (L : list Slice) : Prop :=
  forall s l, s ∈ L -> points_to l s -> same_bytes h h' l.

Lemma frame_cells h h' L s : frame h h' L -> s ∈ L -> Slice_cells h' s = Slice_cells h s.
Proof.
  intros HF Hs. destruct s as [len bytes | l len off]; [done |]. cbn.
  specialize (HF _ l Hs eq_refl). unfold same_bytes in HF.
  destruct (h !! l) as [b |], (h' !! l) as [b' |]; simplify_eq/=; [by rewrite HF | done].
Qed.

Lemma frame_ok h h' L : frame h h' L -> Forall (slice_ok h) L -> Forall (slice_ok h') L.
Proof.
  intros HF. rewrite !list.Forall_forall. intros HL s Hs. specialize (HL s Hs).
  destruct s as [len bytes | l len off]; [done |]. cbn in *. destruct HL as (b & Hb & HL).
  specialize (HF _ l Hs eq_refl). unfold same_bytes in HF. rewrite Hb in HF.
  destruct (h' !! l) as [b' |]; simplify_eq/=. exists b'. by rewrite HF.
Qed.

Lemma frame_refl h L : frame h h L.
Proof. by intros s l _ _. Qed.

Lemma frame_trans h1 h2 h3 L : frame h1 h2 L -> frame h2 h3 L -> frame h1 h3 L.
Proof. intros F1 F2 s l Hs Hp. unfold same_bytes. rewrite (F2 s l Hs Hp). by apply (F1 s). Qed.

Lemma frame_mono h h' L L' : (forall s, s ∈ L' -> s ∈ L) -> frame h h' L -> frame h h' L'.
Proof. intros HL HF s l Hs. apply HF, HL, Hs. Qed.

Lemma frame_insert h l b cells L :
  h !! l = Some b -> cells = blk_cells b ->
  forall n, frame h (<[l := Block n cells]> h) L.
Proof.
  intros Hb -> n s l' _ _. unfold same_bytes.
  destruct (decide (l = l')) as [<- |]; [by rewrite lookup_insert_eq, Hb | by rewrite lookup_insert_ne].
Qed.

Lemma slice_ok_cells h s : slice_ok h s -> exists c, Slice_cells h s = Some c /\ zlen c = Slice_size s.
Proof.
  destruct s as [len bytes | l len off]; cbn.
  - intros [Hb Hl]. rewrite decide_True by lia. eexists. split; [done |]. apply zlen_ztake. lia.
  - intros (b & -> & Ho & Hl & Hin). cbn. rewrite decide_True by lia. eexists. split; [done |].
    apply zlen_ztake. rewrite zlen_zdrop; lia.
Qed.

Lemma slice_ok_size h s : slice_ok h s -> 0 <= Slice_size s <= SIZE_MAX.
Proof.
  pose proof SIZE_MAX_ge_u32. unfold UINT32_MAX in *.
  destruct s; cbn; [unfold SLICE_INLINED_SIZE; lia | intros (b & _ & ?); lia].
Qed.

(** A block dies with its last owner: no leak is possible. *)
Lemma heap_ok_nil h : heap_ok h [] -> h = ∅.
Proof.
  intros [Hr _ _]. apply map_eq. intros l. rewrite lookup_empty.
  destruct (h !! l) as [b |] eqn:E; [| done]. destruct (Hr l b E) as [-> Hp].
  rewrite refcount_nil in Hp. lia.
Qed.

Lemma i32_small z : 0 <= z <= INT32_MAX -> i32 z = z.
Proof. unfold i32, INT32_MAX. intros. rewrite Z.mod_small; lia. Qed.

(** ** Reference counting *)

Lemma heap_ok_lookup h L l len off :
  heap_ok h L -> Refcounted l len off ∈ L ->
  exists b, h !! l = Some b /\ blk_refs b = refcount l L.
Proof.
  intros [Hr Hs _] Hin. rewrite list.Forall_forall in Hs.
  destruct (Hs _ Hin) as (b & Hb & _). exists b. split; [done | by apply Hr].
Qed.

(** Copying shares the block, counts the copy and leaves every slice's bytes
    as they were. *)
Lemma Slice_copy_ok h s L :
  heap_ok h (s :: L) -> zlen L + 2 <= INT32_MAX ->
  exists h', Slice_copy h s = Some (s, h') /\ heap_ok h' (s :: s :: L) /\ frame h h' (s :: L).
Proof.
  intros Hok Hc. destruct s as [len bytes | l len off]; cbn.
  - exists h. split; [done |]. split; [| apply frame_refl]. destruct Hok as [Hr Hs _]. split.
    + intros l b Hb. rewrite refcount_cons, decide_False by auto. rewrite Z.add_0_l. by apply Hr.
    + constructor; [by inversion Hs | done].
    + zlia.
  - destruct (heap_ok_lookup _ _ l len off Hok) as (b & Hb & Hn); [constructor |].
    unfold SliceRefCount_AddRef. rewrite Hb. cbn.
    assert (HF : forall K, frame h (<[l:=Block (i32 (blk_refs b + 1)) (blk_cells b)]> h) K)
      by (intros; by eapply frame_insert).
    eexists. split; [done |]. split; [| apply HF]. destruct Hok as [Hr Hs _]. split.
    + intros l' b' Hb'. rewrite refcount_cons. cbn.
      pose proof (refcount_le l (Refcounted l len off :: L)). rewrite zlen_cons in *.
      destruct (decide (l = l')) as [<- | Hne].
      * rewrite lookup_insert_eq in Hb'. simplify_eq. cbn.
        pose proof (refcount_nonneg l (Refcounted l len off :: L)).
        rewrite i32_small by lia. lia.
      * rewrite lookup_insert_ne in Hb' by done. rewrite Z.add_0_l. by apply Hr.
    + eapply frame_ok; [apply HF |]. constructor; [by inversion Hs | done].
    + zlia.
Qed.

(** Destroying an object frees its block exactly when it was the last owner;
    the other slices are unaffected. *)
Lemma Slice_destroy_ok h s L :
  heap_ok h (s :: L) ->
  exists h', Slice_destroy h s = Some h' /\ heap_ok h' L /\ frame h h' L.
Proof.
  intros Hok. destruct s as [len bytes | l len off]; cbn.
  - exists h. split; [done |]. split; [| apply frame_refl]. destruct Hok as [Hr Hs ?]. split.
    + intros l b Hb. specialize (Hr l b Hb). rewrite refcount_cons, decide_False in Hr by auto. lia.
    + by inversion Hs.
    + zlia.
  - destruct (heap_ok_lookup _ _ l len off Hok) as (b & Hb & Hn); [constructor |].
    unfold SliceRefCount_DecRef. rewrite Hb. cbn. destruct Hok as [Hr Hs Hc].
    rewrite refcount_cons in Hn. cbn in Hn. rewrite decide_True in Hn by done.
    pose proof (refcount_nonneg l L). pose proof (refcount_le l L).
    apply list.Forall_cons in Hs as [_ Hs].
    destruct (Z.eqb_spec (blk_refs b) 1) as [E1 | E1]; eexists; (split; [done |]).
    + assert (HF : frame h (delete l h) L).
      { intros s' l' Hs' Hp. unfold same_bytes. destruct (decide (l = l')) as [<- | Hne].
        - pose proof (refcount_pos _ _ _ Hs' Hp). lia.
        - by rewrite lookup_delete_ne. }
      split; [| done]. split.
      * intros l' b' Hb'. destruct (decide (l = l')) as [<- | Hne]; [by rewrite lookup_delete_eq in Hb' |].
        rewrite lookup_delete_ne in Hb' by done. specialize (Hr _ _ Hb').
        rewrite refcount_cons, decide_False in Hr by done. lia.
      * by eapply frame_ok.
      * zlia.
    + assert (HF : frame h (<[l:=Block (i32 (blk_refs b - 1)) (blk_cells b)]> h) L)
        by (by eapply frame_insert).
      split; [| done]. split.
      * intros l' b' Hb'. destruct (decide (l = l')) as [<- | Hne].
        -- rewrite lookup_insert_eq in Hb'. simplify_eq. cbn.
           rewrite zlen_cons in Hc. rewrite i32_small by lia. lia.
        -- rewrite lookup_insert_ne in Hb' by done. specialize (Hr _ _ Hb').
           rewrite refcount_cons, decide_False in Hr by done. lia.
      * by eapply frame_ok.
      * zlia.
Qed.

(** ** Assignment *)

Lemma Slice_assign_copy_destroy h this oth :
  Slice_assign h this oth =
  '(s, h1) ← Slice_copy h oth; h2 ← Slice_destroy h1 this; Some (s, h2).
Proof.
  unfold Slice_assign, Slice_copy, Slice_destroy.
  destruct oth, this; cbn; try done; by destruct (SliceRefCount_AddRef _ _).
Qed.

Lemma Slice_move_assign_destroy h this oth :
  Slice_move_assign h this oth = h1 ← Slice_destroy h this; Some (oth, Slice_default, h1).
Proof. by destruct this. Qed.

Lemma Slice_assign_ok h this oth L :
  heap_ok h (this :: oth :: L) -> zlen L + 3 <= INT32_MAX ->
  exists h', Slice_assign h this oth = Some (oth, h') /\
             heap_ok h' (oth :: oth :: L) /\ frame h h' (oth :: L).
Proof.
  intros Hok Hc. rewrite Slice_assign_copy_destroy.
  assert (HP : this :: oth :: L ≡ₚ oth :: this :: L) by apply Permutation_swap.
  destruct (Slice_copy_ok h oth (this :: L)) as (h1 & -> & Hok1 & F1);
    [by apply (heap_ok_perm _ _ _ HP) | zlia |]. cbn.
  destruct (Slice_destroy_ok h1 this (oth :: oth :: L)) as (h2 & -> & Hok2 & F2).
  { eapply heap_ok_perm; [| exact Hok1]. symmetry. apply (Permutation_middle [oth; oth] L this). }
  exists h2. split; [done |]. split; [done |].
  eapply frame_trans; eapply frame_mono; [| exact F1 | | exact F2];
    intros s; rewrite !elem_of_cons; tauto.
Qed.

(** ** Trimming *)

Lemma slice_trim_ok h s s' L :
  heap_ok h (s :: L) -> slice_ok h s' -> (forall l, points_to l s' <-> points_to l s) ->
  heap_ok h (s' :: L).
Proof.
  intros [Hr Hs Hc] Hs' HP. split.
  - intros l b Hb. specialize (Hr l b Hb). rewrite refcount_cons in Hr |- *.
    by rewrite (decide_ext (points_to l s') (points_to l s)).
  - constructor; [done |]. by inversion Hs.
  - zlia.
Qed.

(** The amount both trimming operations really remove. *)
Definition clamp (s : Slice) (n : Z) : Z := Z.min n (Slice_size s).

Lemma clamp_if s n : (if Slice_size s <? n then Slice_size s else n) = clamp s n.
Proof. unfold clamp. case_goal; zlia. Qed.

Lemma RemoveHead_ok h s n :
  slice_ok h s -> 0 <= n ->
  slice_ok h (RemoveHead s n) /\
  Slice_cells h (RemoveHead s n) = zdrop n <$> Slice_cells h s.
Proof.
  intros Hok Hn. pose proof (slice_ok_size _ _ Hok) as Hsz. unfold RemoveHead.
  destruct (Z.eqb_spec n 0) as [-> | Hn0]; [split; [done |]; by destruct (Slice_cells h s) |].
  rewrite clamp_if. set (m := clamp s n).
  assert (Hm : 0 <= m <= Slice_size s /\ (m = n \/ (m = Slice_size s /\ Slice_size s < n)))
    by (unfold m, clamp; lia).
  destruct s as [len bytes | l len off]; cbn in *.
  - destruct Hok as [Hb Hl]. unfold SLICE_INLINED_SIZE in *.
    unfold u8. rewrite (wrap_small 8 m), wrap_small by lia.
    unfold memmove_inlined. rewrite !zlen_ztake by (rewrite zlen_zdrop; lia).
    split; [rewrite zlen_app, zlen_ztake, zlen_zdrop by (rewrite ?zlen_zdrop; lia); lia |].
    rewrite !decide_True by (rewrite ?zlen_app, ?zlen_ztake, ?zlen_zdrop by (rewrite ?zlen_zdrop; lia); lia).
    cbn. f_equal. rewrite ztake_app_le, ztake_all by (rewrite zlen_ztake; rewrite ?zlen_zdrop; lia).
    unfold ztake, zdrop.
    destruct Hm as [_ [-> | [-> Hlt]]].
    + rewrite skipn_firstn_comm. f_equal. lia.
    + rewrite Z.sub_diag. cbn. symmetry. apply drop_ge. rewrite length_take. lia.
  - destruct Hok as (b & Hb & Ho & Hl & Hin). rewrite usize_small by lia.
    split; [exists b; split; [done | lia] |].
    rewrite Hb. cbn. rewrite !decide_True by lia. cbn. f_equal.
    destruct Hm as [_ [-> | [-> Hlt]]].
    + unfold ztake, zdrop. rewrite skipn_firstn_comm, drop_drop. f_equal; [lia | f_equal; lia].
    + rewrite Z.sub_diag. symmetry. apply zdrop_all. rewrite zlen_ztake; [lia |]. rewrite zlen_zdrop; lia.
Qed.

Lemma RemoveTail_ok h s n :
  slice_ok h s -> 0 <= n ->
  slice_ok h (RemoveTail s n) /\
  Slice_cells h (RemoveTail s n) = (fun c => ztake (zlen c - n) c) <$> Slice_cells h s.
Proof.
  intros Hok Hn. pose proof (slice_ok_size _ _ Hok) as Hsz. unfold RemoveTail.
  destruct (slice_ok_cells _ _ Hok) as (c & Hc & Hlen).
  destruct (Z.eqb_spec n 0) as [-> | Hn0].
  { split; [done |]. rewrite Hc. cbn. by rewrite ztake_all by lia. }
  rewrite clamp_if. set (m := clamp s n).
  assert (Hm : m = Z.min n (Slice_size s)) by done. rewrite Hc. cbn. rewrite Hlen.
  destruct s as [len bytes | l len off]; cbn in *.
  - destruct Hok as [Hb Hl]. unfold SLICE_INLINED_SIZE in *.
    unfold u8. rewrite (wrap_small 8 m), wrap_small by lia. split; [lia |].
    rewrite decide_True in Hc by lia. rewrite decide_True by lia. injection Hc as <-. f_equal.
    unfold ztake. rewrite take_take. f_equal. lia.
  - destruct Hok as (b & Hb & Ho & Hl & Hin). rewrite usize_small by lia.
    split; [exists b; split; [done | lia] |].
    rewrite Hb in Hc |- *. cbn in Hc |- *. rewrite decide_True in Hc by lia. rewrite decide_True by lia. injection Hc as <-. f_equal.
    unfold ztake. rewrite take_take. f_equal. lia.
Qed.

(** ** Fresh slices *)

(** [s] is the only object that points to its block. *)
Definition sole (s : Slice) (L : list Slice) : Prop := forall l, points_to l s -> refcount l L = 0.

Lemma malloc_slice_ok h len L :
  heap_ok h L -> zlen L + 1 <= INT32_MAX -> 0 <= len <= SIZE_MAX - sizeof_SliceRefCount ->
  let '(l, h') := malloc_slice h len in
  let s := Refcounted l len 0 in
  heap_ok h' (s :: L) /\ frame h h' L /\ sole s L /\
  Slice_cells h' s = Some (replicate (Z.to_nat len) None).
Proof.
  intros [Hr Hs Hc] Hcnt Hlen. unfold malloc_slice, sizeof_SliceRefCount in *.
  rewrite usize_small by lia. replace (4 + len - 4) with len by lia.
  set (l := fresh (dom h)). set (b := Block 1 (replicate (Z.to_nat len) None)).
  assert (Hf : h !! l = None) by (apply not_elem_of_dom, is_fresh).
  assert (Hbl : zlen (blk_cells b) = len) by (unfold b, zlen; cbn; rewrite length_replicate; lia).
  assert (Hnp : forall s, s ∈ L -> ~ points_to l s).
  { intros s Hs' Hp. rewrite list.Forall_forall in Hs. specialize (Hs _ Hs').
    destruct s; cbn in *; [done |]. subst. destruct Hs as (b' & Hb' & _). congruence. }
  assert (Hrc : refcount l L = 0).
  { unfold refcount, zlen. destruct (filter (points_to l) L) as [| s F] eqn:E; [done |].
    assert (Hin : s ∈ filter (points_to l) L) by (rewrite E; constructor).
    apply list_elem_of_filter in Hin as [Hp Hin]. by apply Hnp in Hin. }
  assert (HF : frame h (<[l:=b]> h) L).
  { intros s l' Hs' Hp. unfold same_bytes. rewrite lookup_insert_ne; [done |].
    intros <-. by apply Hnp in Hp. }
  cbn. split; [split |].
  - intros l' b' Hb'. rewrite refcount_cons. destruct (decide (l = l')) as [<- | Hne].
    + rewrite lookup_insert_eq in Hb'. simplify_eq. by rewrite Hrc, decide_True.
    + rewrite lookup_insert_ne in Hb' by done. apply Hr in Hb'. rewrite decide_False by done. lia.
  - constructor; [| by eapply frame_ok]. exists b. rewrite lookup_insert_eq. split; [done |]. lia.
  - zlia.
  - split; [done |]. split; [by intros ? <- |].
    rewrite lookup_insert_eq. cbn [mbind option_bind]. rewrite decide_True by lia.
    f_equal. rewrite zdrop_0. apply ztake_all. unfold zlen. rewrite length_replicate. lia.
Qed.

Lemma MakeSliceByLength_ok h len L :
  heap_ok h L -> zlen L + 1 <= INT32_MAX -> 0 <= len <= SIZE_MAX - sizeof_SliceRefCount ->
  let '(s, h') := MakeSliceByLength h len in
  heap_ok h' (s :: L) /\ frame h h' L /\ sole s L /\ Slice_size s = len.
Proof.
  intros Hok Hcnt Hlen. unfold MakeSliceByLength.
  destruct (Z.leb_spec len SLICE_INLINED_SIZE) as [Hle | Hgt].
  - unfold SLICE_INLINED_SIZE in *. unfold u8. rewrite wrap_small by lia.
    split; [| split; [apply frame_refl |]; split; [by intros l [] | done]].
    destruct Hok as [Hr Hs Hc]. split.
    + intros l b Hb. rewrite refcount_cons. cbn. by apply Hr.
    + constructor; [| done]. split; [done | unfold SLICE_INLINED_SIZE; lia].
    + zlia.
  - pose proof (malloc_slice_ok h len L Hok Hcnt Hlen) as HM.
    destruct (malloc_slice h len) as [l h']. destruct HM as (? & ? & ? & _). done.
Qed.

(** Writing through the pointer of a slice nobody else holds. *)
Lemma Slice_write_ok h s off src c L :
  heap_ok h (s :: L) -> sole s L -> Slice_cells h s = Some c ->
  0 <= off -> off + zlen src <= Slice_size s ->
  exists s' h', Slice_write h s off src = Some (s', h') /\
    heap_ok h' (s' :: L) /\ frame h h' L /\ sole s' L /\ Slice_size s' = Slice_size s /\
    Slice_cells h' s' = Some (splice (Z.to_nat off) src c).
Proof.
  intros [Hr Hs Hc] Hsole Hcell Hoff Hin. apply list.Forall_cons in Hs as [Hs HL].
  destruct s as [len bytes | l len base]; cbn in *.
  - destruct Hs as [Hb Hl]. unfold SLICE_INLINED_SIZE in *.
    rewrite decide_True in Hcell by lia. simplify_eq.
    unfold write_cells. rewrite decide_True by (unfold zlen in *; lia). cbn.
    assert (Hsp : length (splice (Z.to_nat off) src bytes) = length bytes)
      by (apply length_splice; unfold zlen in *; lia).
    do 2 eexists. split; [done |].
    split; [| split; [apply frame_refl |]; split; [done |]; split; [done |]].
    + split; [done | | zlia]. constructor; [| done]. cbn. unfold zlen. rewrite Hsp. done.
    + cbn. unfold zlen in *. rewrite Hsp, decide_True by lia. f_equal. unfold ztake. apply take_splice; lia.
  - destruct Hs as (b & Hb & Ho & Hl & Hbd). rewrite Hb in Hcell. cbn in Hcell.
    rewrite decide_True in Hcell by lia. simplify_eq. unfold write_block. rewrite Hb. cbn.
    unfold write_cells. rewrite decide_True by (unfold zlen in *; lia). cbn.
    set (cells' := splice (Z.to_nat (base + off)) src (blk_cells b)).
    assert (Hsp : zlen cells' = zlen (blk_cells b))
      by (unfold cells', zlen in *; rewrite length_splice; lia).
    assert (HF : frame h (<[l:=Block (blk_refs b) cells']> h) L).
    { intros s' l' Hs' Hp. unfold same_bytes. rewrite lookup_insert_ne; [done |]. intros <-.
      pose proof (refcount_pos _ _ _ Hs' Hp). specialize (Hsole l eq_refl). lia. }
    do 2 eexists. split; [done |].
    split; [| split; [exact HF |]; split; [exact Hsole |]; split; [done |]].
    + split; [| | zlia].
      * intros l' b' Hb'. destruct (decide (l = l')) as [<- | Hne].
        -- rewrite lookup_insert_eq in Hb'. simplify_eq. cbn. by apply Hr.
        -- rewrite lookup_insert_ne in Hb' by done. by apply Hr.
      * constructor; [| by eapply frame_ok].
        eexists. rewrite lookup_insert_eq. split; [done |]. cbn. lia.
    + cbn. rewrite lookup_insert_eq. cbn. rewrite decide_True by lia. f_equal.
      unfold cells', ztake, zdrop, zlen in *.
      replace (Z.to_nat (base + off)) with (Z.to_nat base + Z.to_nat off)%nat by lia.
      rewrite drop_splice by lia. apply take_splice; [lia |]. rewrite length_drop. lia.
Qed.

Lemma splice_full {A} (src l : list A) : length src = length l -> splice 0 src l = src.
Proof. intros E. rewrite splice_0, drop_ge by lia. apply app_nil_r. Qed.

(** The constructor copies the bytes it is given. *)
Lemma Slice_new_ok h p L :
  heap_ok h L -> zlen L + 1 <= INT32_MAX -> zlen p <= SIZE_MAX - sizeof_SliceRefCount ->
  exists s h', Slice_new h (Some p) (zlen p) = Some (s, h') /\
    heap_ok h' (s :: L) /\ frame h h' L /\ Slice_cells h' s = Some (Some <$> p).
Proof.
  intros Hok Hcnt Hsz. unfold Slice_new. rewrite !(ztake_all (zlen p) p) by lia.
  assert (Hlen : zlen (Some <$> p) = zlen p) by (unfold zlen; by rewrite length_fmap).
  assert (Hinl : forall len bytes, slice_ok h (Inlined len bytes) -> heap_ok h (Inlined len bytes :: L)).
  { intros len bytes Hs. destruct Hok as [Hr HL Hc]. split; [| by constructor | zlia].
    intros l b Hb. rewrite refcount_cons, decide_False by auto. by apply Hr. }
  destruct (Z.eqb_spec (zlen p) 0) as [E0 | E0].
  { apply zlen_0 in E0 as ->. exists Slice_default, h. split; [done |].
    split; [by apply Hinl | split; [apply frame_refl | done]]. }
  destruct (Z.leb_spec (zlen p) SLICE_INLINED_SIZE) as [Hle | Hgt].
  - unfold SLICE_INLINED_SIZE, write_cells, u8, zlen in *.
    rewrite decide_True by (rewrite length_replicate; lia). rewrite wrap_small by lia.
    assert (Hl : length (splice 0 (Some <$> p) (replicate 23 None)) = 23%nat)
      by (rewrite length_splice; rewrite length_replicate; lia).
    do 2 eexists. split; [done |]. split; [| split; [apply frame_refl |]].
    + apply Hinl. cbn [slice_ok]. unfold zlen, SLICE_INLINED_SIZE. rewrite Hl. lia.
    + cbn [Slice_cells]. unfold zlen. rewrite Hl, decide_True by lia. f_equal.
      rewrite splice_0. unfold ztake. rewrite take_app_le, take_ge by lia. done.
  - pose proof (malloc_slice_ok h (zlen p) L Hok Hcnt ltac:(zlia)) as HM.
    destruct (malloc_slice h (zlen p)) as [l h1]. destruct HM as (Hok1 & F1 & Hsole & Hc1).
    destruct (Slice_write_ok _ _ 0 (Some <$> p) _ _ Hok1 Hsole Hc1) as (s' & h' & Hw & Hok' & F' & _ & _ & Hc');
      [lia | cbn; lia |].
    cbn in Hw. rewrite Z.add_0_l in Hw.
    destruct (write_block h1 l 0 (Some <$> p)) as [h2 |]; simplify_eq.
    do 2 eexists. split; [done |]. split; [done |]. split; [by eapply frame_trans |].
    rewrite Hc'. f_equal. apply splice_full. unfold zlen in *. rewrite length_replicate. lia.
Qed.

(** Concatenation consumes its two arguments and yields a slice with the bytes
    of the first followed by those of the second. *)
Definition plus_post (h : heap) (c1 c2 : list cell) (L : list Slice) (r : option (Slice * heap)) : Prop :=
  exists s h', r = Some (s, h') /\
    heap_ok h' (s :: L) /\ frame h h' L /\ Slice_cells h' s = Some (c1 ++ c2).

(** An empty argument is destroyed and the other one is returned. *)
Lemma plus_post_empty h s1 s2 c2 L :
  heap_ok h (s1 :: s2 :: L) -> Slice_cells h s2 = Some c2 ->
  exists h', Slice_destroy h s1 = Some h' /\
    heap_ok h' (s2 :: L) /\ frame h h' L /\ Slice_cells h' s2 = Some c2.
Proof.
  intros Hok Hc. destruct (Slice_destroy_ok h s1 (s2 :: L) Hok) as (h' & -> & Hok' & F').
  exists h'. split; [done |]. split; [done |]. split; [eapply frame_mono; [| exact F']; by right |].
  rewrite (frame_cells _ _ _ _ F'); [done | by left].
Qed.

(** Filling a fresh slice with two runs of bytes. *)
Lemma fill_two h c1 c2 K :
  heap_ok h K -> zlen K + 1 <= INT32_MAX -> zlen c1 + zlen c2 <= SIZE_MAX - sizeof_SliceRefCount ->
  let '(s, h1) := MakeSliceByLength h (zlen c1 + zlen c2) in
  exists s' h2 s'' h3,
    Slice_write h1 s 0 c1 = Some (s', h2) /\ Slice_write h2 s' (zlen c1) c2 = Some (s'', h3) /\
    heap_ok h3 (s'' :: K) /\ frame h h1 K /\ frame h1 h2 K /\ frame h2 h3 K /\
    Slice_cells h3 s'' = Some (c1 ++ c2).
Proof.
  intros Hok Hcnt Hsz.
  pose proof (MakeSliceByLength_ok h (zlen c1 + zlen c2) K Hok ltac:(zlia) ltac:(zlia)) as HM.
  destruct (MakeSliceByLength h _) as [s h1]. destruct HM as (Hok1 & F1 & Sole1 & Hsz1).
  destruct (slice_ok_cells h1 s) as (c & Hc & Hlc); [by destruct Hok1 as [_ [? _]%list.Forall_cons _] |].
  destruct (Slice_write_ok _ _ 0 c1 _ _ Hok1 Sole1 Hc ltac:(lia) ltac:(zlia))
    as (s' & h2 & Hw & Hok2 & F2 & Sole2 & Hsz2 & Hcw).
  destruct (Slice_write_ok _ _ (zlen c1) c2 _ _ Hok2 Sole2 Hcw ltac:(zlia) ltac:(zlia))
    as (s'' & h3 & Hw' & Hok3 & F3 & _ & _ & Hcw3).
  exists s', h2, s'', h3. repeat (split; [done |]). rewrite Hcw3. f_equal.
  unfold splice, zlen in *. rewrite app_nil_l, take_app_le, take_ge, drop_ge by
    (rewrite ?length_app, ?length_drop; lia). cbn. by rewrite app_nil_r.
Qed.

Lemma Slice_plus_ok h s1 s2 c1 c2 L :
  heap_ok h (s1 :: s2 :: L) -> zlen L + 3 <= INT32_MAX ->
  Slice_cells h s1 = Some c1 -> Slice_cells h s2 = Some c2 ->
  zlen c1 + zlen c2 <= SIZE_MAX - sizeof_SliceRefCount ->
  plus_post h c1 c2 L (Slice_plus h s1 s2).
Proof.
  intros Hok Hcnt Hc1 Hc2 Hsz.
  pose proof (ok_slices _ _ Hok) as [Hs1 [Hs2 _]%list.Forall_cons]%list.Forall_cons.
  assert (Hl1 : Slice_size s1 = zlen c1) by (apply slice_ok_cells in Hs1 as (? & ? & ?); congruence).
  assert (Hl2 : Slice_size s2 = zlen c2) by (apply slice_ok_cells in Hs2 as (? & ? & ?); congruence).
  unfold Slice_plus, Slice_empty. rewrite Hl1, Hl2.
  destruct (Z.eqb_spec (zlen c1) 0) as [-> %zlen_0 | E1].
  { destruct (plus_post_empty h s1 s2 c2 L Hok Hc2) as (h' & -> & ?). by exists s2, h'. }
  destruct (Z.eqb_spec (zlen c2) 0) as [-> %zlen_0 | E2].
  { destruct (plus_post_empty h s2 s1 c1 L) as (h' & -> & ? & ? & ?);
      [eapply heap_ok_perm; [apply Permutation_swap | done] | done |].
    exists s1, h'. by rewrite app_nil_r. }
  rewrite usize_small by (unfold sizeof_SliceRefCount in *; zlia).
  pose proof (fill_two h c1 c2 _ Hok ltac:(zlia) Hsz) as HM.
  destruct (MakeSliceByLength h _) as [s h1].
  destruct HM as (s' & h2 & s'' & h3 & Hw1 & Hw2 & Hok3 & F1 & F2 & F3 & Hc3).
  rewrite (frame_cells _ _ _ s1 F1), Hc1 by (by left). cbn. rewrite Hw1. cbn.
  rewrite (frame_cells _ _ _ s2 F2), (frame_cells _ _ _ s2 F1), Hc2 by (by right; left). cbn.
  rewrite Hw2. cbn.
  destruct (Slice_destroy_ok h3 s2 (s'' :: s1 :: L)) as (h4 & -> & Hok4 & F4); cbn.
  { eapply heap_ok_perm; [| exact Hok3]. symmetry. apply (Permutation_middle [s''; s1] L s2). }
  destruct (Slice_destroy_ok h4 s1 (s'' :: L)) as (h5 & -> & Hok5 & F5); cbn.
  { eapply heap_ok_perm; [| exact Hok4]. apply Permutation_swap. }
  exists s'', h5. split; [done |]. split; [done |]. split.
  - apply (frame_trans _ h3); [apply (frame_trans _ h1); [| apply (frame_trans _ h2)] |
                               apply (frame_trans _ h4)];
      eapply frame_mono; [| exact F1 | | exact F2 | | exact F3 | | exact F4 | | exact F5];
      intros t Ht; rewrite ?elem_of_cons; tauto.
  - by rewrite (frame_cells _ _ _ _ F5), (frame_cells _ _ _ _ F4), Hc3 by (by left).
Qed.

Lemma mapM_id_Some (l : list byte) : mapM (fun c : cell => c) (Some <$> l) = Some l.
Proof. induction l as [| b l IH]; [done |]. cbn. cbn in IH. by rewrite IH. Qed.

Lemma mapM_id_length (l : list cell) a : mapM (fun c : cell => c) l = Some a -> zlen a = zlen l.
Proof. intros E. apply length_mapM in E. unfold zlen. by rewrite E. Qed.

(** What is read from a slice has its size. *)
Lemma SliceToString_size h s a : slice_ok h s -> SliceToString h s = Some a -> zlen a = Slice_size s.
Proof.
  intros Hs E. destruct (slice_ok_cells h s Hs) as (c & Ec & El). unfold SliceToString in E. rewrite Ec in E. cbn in E.
  by rewrite (mapM_id_length _ _ E).
Qed.

Lemma Slice_compare_exact h s a b :
  slice_ok h s -> SliceToString h s = Some a -> Slice_compare h s b (zlen b) = Some (bool_decide (a = b)).
Proof.
  intros Hs Ha. pose proof (SliceToString_size _ _ _ Hs Ha) as El. unfold Slice_compare. rewrite <- El.
  destruct (Z.eqb_spec (zlen b) (zlen a)) as [E | E]; cbn [negb].
  - destruct (Z.eqb_spec (zlen b) 0) as [E0 | E0].
    + rewrite E0 in E. apply zlen_0 in E0 as ->. symmetry in E. by apply zlen_0 in E as ->.
    + unfold SliceToString in Ha. destruct (Slice_cells h s) as [c |]; [| done]. cbn in Ha |- *. rewrite Ha. cbn. by rewrite ztake_all by lia.
  - rewrite bool_decide_eq_false_2; [done |]. congruence.
Qed.

(** The operators compare the contents, however they are stored; a slice made of a string
    reads as that string. *)
Theorem slice_equality_exact h s t a b :
  slice_ok h s -> slice_ok h t -> SliceToString h s = Some a -> SliceToString h t = Some b ->
  Slice_eq h s t = Some (bool_decide (a = b)) /\ Slice_neq h s t = Some (bool_decide (a <> b)) /\
  Slice_eq_string h s b = Some (bool_decide (a = b)) /\ Slice_eq_cstr h s (Some b) = Some (bool_decide (a = b)) /\
  Slice_eq_cstr h s None = Some (bool_decide (a = [])).
Proof.
  intros Hs Ht Ha Hb. pose proof (SliceToString_size _ _ _ Hs Ha) as Es. pose proof (SliceToString_size _ _ _ Ht Hb) as Et.
  assert (HE : Slice_eq h s t = Some (bool_decide (a = b))).
  { unfold Slice_eq. rewrite <- Es, <- Et. destruct (Z.eqb_spec (zlen b) (zlen a)) as [E | E]; cbn [negb].
    - rewrite Hb. cbn. by apply Slice_compare_exact.
    - rewrite bool_decide_eq_false_2; [done |]. congruence. }
  split_and!; [done | unfold Slice_neq; rewrite HE; cbn; f_equal; by rewrite bool_decide_not | by apply Slice_compare_exact .. |].
  unfold Slice_eq_cstr, Slice_empty. rewrite <- Es. f_equal. destruct a; [done |]. rewrite zlen_cons. pose proof (zlen_nonneg a).
  rewrite bool_decide_eq_false_2 by done. lia.
Qed.

Lemma slice_string_roundtrip h p L :
  heap_ok h L -> zlen L + 1 <= INT32_MAX -> zlen p <= SIZE_MAX - sizeof_SliceRefCount ->
  exists s h', SliceFromString h p = Some (s, h') /\ SliceToString h' s = Some p.
Proof.
  intros Hok Hcnt Hsz. destruct (Slice_new_ok h p L Hok Hcnt Hsz) as (s & h' & E & _ & _ & Ec). exists s, h'. split; [exact E |].
  unfold SliceToString. rewrite Ec. cbn. apply mapM_id_Some.
Qed.

End Invariant.

(** ** Value semantics

    A program that handles slices is a sequence of operations on its live
    objects, which are numbered. *)

Inductive slice_op :=
| OpNew (p : list byte)
| OpCopy (i : nat)
| OpAssign (i j : nat)
| OpMoveAssign (i j : nat)
| OpPlusAssign (i j : nat)
| OpRemoveHead (i : nat) (n : Z)
| OpRemoveTail (i : nat) (n : Z)
| OpClear (i : nat)
| OpDestroy (i : nat).

Section Programs.
Context `{SizeT}.

(** The implementation: new objects are appended, [this] is replaced in place. *)
Definition slice_step (st : heap * list Slice) (op : slice_op) : option (heap * list Slice) :=
  let '(h, L) := st in
  match op with
  | OpNew p => '(s, h') ← Slice_new h (Some p) (zlen p); Some (h', s :: L)
  | OpCopy i => s ← L !! i; '(s', h') ← Slice_copy h s; Some (h', s' :: L)
  | OpAssign i j =>
      if decide (i = j) then Some (h, L)
      else this ← L !! i; oth ← L !! j;
           '(s', h') ← Slice_assign h this oth; Some (h', <[i := s']> L)
  | OpMoveAssign i j =>
      if decide (i = j) then Some (h, L)
      else this ← L !! i; oth ← L !! j;
           '(s', o', h') ← Slice_move_assign h this oth; Some (h', <[j := o']> (<[i := s']> L))
  | OpPlusAssign i j =>
      this ← L !! i; s ← L !! j;
      '(s', h') ← Slice_plus_assign h this s; Some (h', <[i := s']> L)
  | OpRemoveHead i n => s ← L !! i; Some (h, <[i := RemoveHead s n]> L)
  | OpRemoveTail i n => s ← L !! i; Some (h, <[i := RemoveTail s n]> L)
  | OpClear i => s ← L !! i; '(s', h') ← Slice_clear h s; Some (h', <[i := s']> L)
  | OpDestroy i => s ← L !! i; h' ← Slice_destroy h s; Some (h', delete i L)
  end.

(** The specification: every object is an independent byte string. *)
Definition value_step (vs : list (list cell)) (op : slice_op) : option (list (list cell)) :=
  match op with
  | OpNew p => Some ((Some <$> p) :: vs)
  | OpCopy i => v ← vs !! i; Some (v :: vs)
  | OpAssign i j => _ ← vs !! i; v ← vs !! j; Some (<[i := v]> vs)
  | OpMoveAssign i j =>
      _ ← vs !! i; v ← vs !! j;
      Some (if decide (i = j) then vs else <[j := []]> (<[i := v]> vs))
  | OpPlusAssign i j => v ← vs !! i; w ← vs !! j; Some (<[i := v ++ w]> vs)
  | OpRemoveHead i n => v ← vs !! i; Some (<[i := zdrop n v]> vs)
  | OpRemoveTail i n => v ← vs !! i; Some (<[i := ztake (zlen v - n) v]> vs)
  | OpClear i => _ ← vs !! i; Some (<[i := []]> vs)
  | OpDestroy i => _ ← vs !! i; Some (delete i vs)
  end.

(** What the machine can hold: fewer than 2^31 objects, no allocation beyond the
    address space, no negative [size_t] argument. *)
Definition op_fits (vs : list (list cell)) (op : slice_op) : Prop :=
  zlen vs + 3 <= INT32_MAX /\
  match op with
  | OpNew p => zlen p <= SIZE_MAX - sizeof_SliceRefCount
  | OpPlusAssign i j =>
      forall v w, vs !! i = Some v -> vs !! j = Some w ->
      zlen v + zlen w <= SIZE_MAX - sizeof_SliceRefCount
  | OpRemoveHead _ n | OpRemoveTail _ n => 0 <= n
  | _ => True
  end.

Definition implements (st : heap * list Slice) (vs : list (list cell)) : Prop :=
  let '(h, L) := st in
  heap_ok h L /\ Forall2 (fun s v => Slice_cells h s = Some v) L vs.

Lemma implements_lookup h L vs i v :
  implements (h, L) vs -> vs !! i = Some v -> exists s, L !! i = Some s /\ Slice_cells h s = Some v.
Proof. intros [_ HF] Hv. by apply (Forall2_lookup_r _ _ _ _ _ HF) in Hv. Qed.

Lemma Forall2_frame h h' (L : list Slice) vs :
  frame h h' L -> Forall2 (fun s v => Slice_cells h s = Some v) L vs ->
  Forall2 (fun s v => Slice_cells h' s = Some v) L vs.
Proof.
  intros F HF. apply Forall2_same_length_lookup_2; [by eapply Forall2_length |].
  intros i s v Hs Hv. rewrite (frame_cells _ _ _ _ F); [| by eapply list_elem_of_lookup_2].
  exact (Forall2_lookup_lr _ _ _ _ _ _ HF Hs Hv).
Qed.

(** Replacing object [i] by [s'], the rest framed. *)
Lemma implements_insert h h' L vs i s s' v' :
  L !! i = Some s -> implements (h, L) vs ->
  heap_ok h' (s' :: delete i L) -> frame h h' (delete i L) -> Slice_cells h' s' = Some v' ->
  implements (h', <[i := s']> L) (<[i := v']> vs).
Proof.
  intros Hi [_ HF] Hok F Hc. assert (i < length L)%nat by (by eapply lookup_lt_Some).
  pose proof (Forall2_length HF). split.
  - eapply heap_ok_perm; [| exact Hok]. rewrite delete_take_drop, insert_take_drop by done.
    apply Permutation_middle.
  - rewrite !insert_take_drop by lia. rewrite delete_take_drop in F.
    assert (Hsub : forall t, t ∈ take i L \/ t ∈ drop (S i) L -> t ∈ take i L ++ drop (S i) L)
      by (intros; by apply elem_of_app).
    apply Forall2_app; [| constructor; [done |]].
    + eapply Forall2_frame; [eapply frame_mono; [| exact F]; auto |]. by apply Forall2_take.
    + eapply Forall2_frame; [eapply frame_mono; [| exact F]; auto |]. by apply Forall2_drop.
Qed.

Lemma heap_ok_delete h L i s : L !! i = Some s -> heap_ok h L -> heap_ok h (s :: delete i L).
Proof. intros Hi. apply heap_ok_perm. by apply delete_Permutation. Qed.

Lemma zlen_delete {A} (L : list A) i s : L !! i = Some s -> zlen (delete i L) = zlen L - 1.
Proof. intros Hi. apply delete_Permutation, Permutation_length in Hi. unfold zlen. rewrite Hi. cbn. lia. Qed.

Lemma implements_zlen h L vs : implements (h, L) vs -> zlen L = zlen vs.
Proof. intros [_ HF]. unfold zlen. by rewrite (Forall2_length HF). Qed.

Lemma Slice_plus_assign_ok h this s v w L :
  heap_ok h (this :: L) -> s ∈ this :: L -> zlen L + 4 <= INT32_MAX ->
  Slice_cells h this = Some v -> Slice_cells h s = Some w ->
  zlen v + zlen w <= SIZE_MAX - sizeof_SliceRefCount ->
  plus_post h v w L (Slice_plus_assign h this s).
Proof.
  intros Hok Hin Hcnt Hv Hw Hsz. unfold Slice_plus_assign.
  destruct (Slice_copy_ok h this L Hok ltac:(lia)) as (h1 & -> & Hok1 & F1). cbn.
  assert (Hin1 : s ∈ this :: this :: L) by (apply elem_of_cons in Hin; rewrite !elem_of_cons; tauto).
  destruct (elem_of_Permutation (this :: this :: L) s) as [HP _]. destruct (HP Hin1) as [K HK].
  assert (HlK : zlen K = zlen L + 1) by (apply Permutation_length in HK; unfold zlen; cbn in *; lia).
  destruct (Slice_copy_ok h1 s K) as (h2 & -> & Hok2 & F2); [by eapply heap_ok_perm | lia |]. cbn.
  assert (Hok2' : heap_ok h2 (this :: s :: this :: L)).
  { eapply heap_ok_perm; [| exact Hok2]. by rewrite <- HK, Permutation_swap. }
  assert (F2' : frame h1 h2 (this :: L)).
  { eapply frame_mono; [| exact F2]. intros t Ht. rewrite <- HK. by right. }
  assert (F12 : frame h h2 (this :: L)) by (by eapply frame_trans).
  destruct (Slice_plus_ok h2 this s v w (this :: L)) as (tmp & h3 & -> & Hok3 & F3 & Hc3);
    rewrite ?(frame_cells _ _ _ _ F12) by (done || by left); try done; [zlia |]. cbn.
  rewrite Slice_move_assign_destroy.
  destruct (Slice_destroy_ok h3 this (tmp :: L)) as (h4 & -> & Hok4 & F4).
  { eapply heap_ok_perm; [apply Permutation_swap | done]. }
  exists tmp, h4. split; [done |]. split; [done |]. split.
  - eapply frame_trans; [eapply frame_mono; [| eapply frame_trans; [exact F12 | exact F3]]
                        | eapply frame_mono; [| exact F4]]; intros; by right.
  - rewrite (frame_cells _ _ _ _ F4); [done | by left].
Qed.

Lemma insert_cons_perm {A} (M : list A) j (y a : A) : M !! j = Some y -> y :: <[j := a]> M ≡ₚ a :: M.
Proof.
  intros Hj. rewrite (delete_Permutation M j y Hj) at 2.
  rewrite insert_take_drop by (by eapply lookup_lt_Some). rewrite delete_take_drop.
  rewrite <- Permutation_middle. apply Permutation_swap.
Qed.

Lemma swap_perm {A} (L : list A) i j a b :
  i <> j -> L !! i = Some a -> L !! j = Some b -> <[j := a]> (<[i := b]> L) ≡ₚ L.
Proof.
  intros Hne Hi Hj. apply (Permutation_cons_inv (a := b)).
  rewrite insert_cons_perm by (by rewrite list_lookup_insert_ne). by apply insert_cons_perm.
Qed.

Lemma implements_swap h L vs i j a b va vb :
  i <> j -> L !! i = Some a -> L !! j = Some b -> vs !! i = Some va -> vs !! j = Some vb ->
  implements (h, L) vs ->
  implements (h, <[j := a]> (<[i := b]> L)) (<[j := va]> (<[i := vb]> vs)).
Proof.
  intros Hne Ha Hb Hva Hvb [Hok HF].
  pose proof (Forall2_lookup_lr _ _ _ _ _ _ HF Ha Hva).
  pose proof (Forall2_lookup_lr _ _ _ _ _ _ HF Hb Hvb).
  split; [eapply heap_ok_perm; [symmetry; by apply swap_perm | done] |].
  by repeat apply Forall2_insert.
Qed.

Lemma implements_assign h L vs i j v :
  implements (h, L) vs -> zlen vs + 3 <= INT32_MAX -> is_Some (vs !! i) -> vs !! j = Some v ->
  exists st', slice_step (h, L) (OpAssign i j) = Some st' /\ implements st' (<[i := v]> vs).
Proof.
  intros HI Hc [u Hu] Hv. pose proof (implements_zlen _ _ _ HI) as Hlen. cbn.
  destruct (implements_lookup _ _ _ _ _ HI Hu) as (this & Hi & Hcu).
  destruct (implements_lookup _ _ _ _ _ HI Hv) as (oth & Hj & Hcv).
  case_decide as E; [subst; eexists; split; [done |]; by rewrite list_insert_id |].
  rewrite Hi, Hj. cbn.
  assert (Hoin : oth ∈ delete i L).
  { apply list_elem_of_lookup_2 in Hj as Hin. rewrite (delete_Permutation L i this Hi) in Hin.
    rewrite list_elem_of_lookup. destruct (Nat.lt_ge_cases j i).
    - exists j. by rewrite list_lookup_delete_lt.
    - exists (j - 1)%nat. rewrite list_lookup_delete_ge by lia. by replace (S (j - 1)) with j by lia. }
  destruct (elem_of_Permutation (delete i L) oth) as [HP _]. destruct (HP Hoin) as [K HK].
  pose proof (zlen_delete _ _ _ Hi). pose proof (Permutation_length HK) as HKl.
  destruct (Slice_assign_ok h this oth K) as (h' & -> & Hok' & F').
  { eapply heap_ok_perm; [| by apply (heap_ok_delete h L i), HI]. by rewrite HK. }
  { unfold zlen in *. cbn in *. lia. }
  eexists. split; [done |]. eapply implements_insert; [done | done | | |].
  - eapply heap_ok_perm; [| exact Hok']. by rewrite HK.
  - eapply frame_mono; [| exact F']. intros t. by rewrite HK.
  - rewrite (frame_cells _ _ _ _ F'); [done | by left].
Qed.

Lemma heap_ok_default h L :
  heap_ok h L -> zlen L + 1 <= INT32_MAX -> heap_ok h (Slice_default :: L).
Proof.
  intros [Hr Hs Hc] Hcnt. split; [| by constructor | zlia].
  intros l b Hb. rewrite refcount_cons, decide_False by auto. by apply Hr.
Qed.

(** [this = Slice()]: the object is emptied. *)
Lemma implements_clear h L vs i s :
  implements (h, L) vs -> zlen vs + 3 <= INT32_MAX -> L !! i = Some s ->
  exists h', Slice_destroy h s = Some h' /\ implements (h', <[i := Slice_default]> L) (<[i := []]> vs).
Proof.
  intros HI Hc Hi. pose proof (implements_zlen _ _ _ HI). pose proof (zlen_delete _ _ _ Hi).
  destruct (Slice_destroy_ok h s (delete i L)) as (h' & -> & Hok' & F');
    [by apply heap_ok_delete, HI |].
  exists h'. split; [done |]. eapply implements_insert; [done | done | | done | done].
  apply heap_ok_default; [done | lia].
Qed.

Lemma implements_move_assign h L vs i j v :
  implements (h, L) vs -> zlen vs + 3 <= INT32_MAX -> is_Some (vs !! i) -> vs !! j = Some v ->
  exists st', slice_step (h, L) (OpMoveAssign i j) = Some st' /\
    implements st' (if decide (i = j) then vs else <[j := []]> (<[i := v]> vs)).
Proof.
  intros HI Hc [u Hu] Hv. cbn.
  destruct (implements_lookup _ _ _ _ _ HI Hu) as (this & Hi & Hcu).
  destruct (implements_lookup _ _ _ _ _ HI Hv) as (oth & Hj & Hcv).
  case_decide as E; [by eexists |]. rewrite Hi, Hj. cbn. rewrite Slice_move_assign_destroy.
  destruct (implements_clear h L vs i this HI Hc Hi) as (h' & -> & HI'). cbn.
  eexists. split; [done |].
  rewrite <- (list_insert_insert_eq L i oth Slice_default), <- (list_insert_insert_eq vs i v []).
  apply lookup_lt_Some in Hi. apply lookup_lt_Some in Hu.
  apply implements_swap; rewrite ?list_lookup_insert_eq, ?list_lookup_insert_ne by done; done.
Qed.

Lemma implements_trim h L vs i s s' v' :
  implements (h, L) vs -> L !! i = Some s -> slice_ok h s' ->
  (forall l, points_to l s' <-> points_to l s) -> Slice_cells h s' = Some v' ->
  implements (h, <[i := s']> L) (<[i := v']> vs).
Proof.
  intros HI Hi Hok HP Hc. eapply implements_insert; [done | done | | apply frame_refl | done].
  eapply slice_trim_ok; [by apply heap_ok_delete, HI | done | done].
Qed.

Lemma implements_slice_ok h L vs i s : implements (h, L) vs -> L !! i = Some s -> slice_ok h s.
Proof. intros [[_ Hs _] _] Hi. rewrite list.Forall_forall in Hs. apply Hs. by eapply list_elem_of_lookup_2. Qed.

Lemma RemoveHead_points l s n : points_to l (RemoveHead s n) <-> points_to l s.
Proof. unfold RemoveHead. case_goal; [done |]. by destruct s. Qed.

Lemma RemoveTail_points l s n : points_to l (RemoveTail s n) <-> points_to l s.
Proof. unfold RemoveTail. case_goal; [done |]. by destruct s. Qed.

Lemma implements_copy h L vs i v :
  implements (h, L) vs -> zlen vs + 3 <= INT32_MAX -> vs !! i = Some v ->
  exists st', slice_step (h, L) (OpCopy i) = Some st' /\ implements st' (v :: vs).
Proof.
  intros HI Hc Hv. pose proof (implements_zlen _ _ _ HI). cbn.
  destruct (implements_lookup _ _ _ _ _ HI Hv) as (s & Hi & Hcs). rewrite Hi. cbn.
  pose proof (zlen_delete _ _ _ Hi). pose proof (delete_Permutation L i s Hi) as HP.
  destruct (Slice_copy_ok h s (delete i L)) as (h' & -> & Hok' & F');
    [by apply heap_ok_delete, HI | lia |].
  assert (F : frame h h' L) by (eapply frame_mono; [| exact F']; intros t; by rewrite <- HP).
  eexists. split; [done |]. split; [| constructor; [| by eapply Forall2_frame; [| apply HI]]].
  - eapply heap_ok_perm; [| exact Hok']. by rewrite <- HP.
  - rewrite (frame_cells _ _ _ _ F); [done | by eapply list_elem_of_lookup_2].
Qed.

Lemma implements_plus_assign h L vs i j v w :
  implements (h, L) vs -> zlen vs + 3 <= INT32_MAX -> vs !! i = Some v -> vs !! j = Some w ->
  zlen v + zlen w <= SIZE_MAX - sizeof_SliceRefCount ->
  exists st', slice_step (h, L) (OpPlusAssign i j) = Some st' /\ implements st' (<[i := v ++ w]> vs).
Proof.
  intros HI Hc Hv Hw Hsz. pose proof (implements_zlen _ _ _ HI). cbn.
  destruct (implements_lookup _ _ _ _ _ HI Hv) as (this & Hi & Hci).
  destruct (implements_lookup _ _ _ _ _ HI Hw) as (s & Hj & Hcj). rewrite Hi, Hj. cbn.
  pose proof (zlen_delete _ _ _ Hi).
  destruct (Slice_plus_assign_ok h this s v w (delete i L)) as (s' & h' & -> & Hok' & F' & Hc');
    [by apply heap_ok_delete, HI | | lia | done | done | done |].
  { rewrite <- (delete_Permutation L i this Hi). by eapply list_elem_of_lookup_2. }
  eexists. split; [done |]. by eapply implements_insert.
Qed.

(** One operation of the implementation follows the specification. *)
Lemma slice_step_refines h L vs vs' op :
  implements (h, L) vs -> op_fits vs op -> value_step vs op = Some vs' ->
  exists st', slice_step (h, L) op = Some st' /\ implements st' vs'.
Proof.
  intros HI [Hc Hfit] Hv. pose proof (implements_zlen _ _ _ HI) as Hlen.
  destruct op as [p | i | i j | i j | i j | i n | i n | i | i]; cbn [value_step slice_step op_fits] in *.
  - simplify_eq. destruct HI as [Hok HF].
    destruct (Slice_new_ok h p L Hok ltac:(lia) Hfit) as (s & h' & -> & Hok' & F' & Hc').
    eexists. split; [done |]. split; [done |]. constructor; [done |]. by eapply Forall2_frame.
  - destruct (vs !! i) as [v |] eqn:Ei; simplify_eq/=. by apply implements_copy.
  - destruct (vs !! i) eqn:Ei, (vs !! j) eqn:Ej; simplify_eq/=. by apply implements_assign.
  - destruct (vs !! i) eqn:Ei, (vs !! j) eqn:Ej; simplify_eq/=. by apply implements_move_assign.
  - destruct (vs !! i) as [v |] eqn:Ei, (vs !! j) as [w |] eqn:Ej; simplify_eq/=.
    apply implements_plus_assign; auto.
  - destruct (vs !! i) as [v |] eqn:Ei; simplify_eq/=.
    destruct (implements_lookup _ _ _ _ _ HI Ei) as (s & Hi & Hcs). rewrite Hi. cbn.
    destruct (RemoveHead_ok h s n) as [Hok' Hc']; [by eapply implements_slice_ok | done |].
    eexists. split; [done |]. eapply implements_trim; [done | done | done | intros; apply RemoveHead_points |].
    by rewrite Hc', Hcs.
  - destruct (vs !! i) as [v |] eqn:Ei; simplify_eq/=.
    destruct (implements_lookup _ _ _ _ _ HI Ei) as (s & Hi & Hcs). rewrite Hi. cbn.
    destruct (RemoveTail_ok h s n) as [Hok' Hc']; [by eapply implements_slice_ok | done |].
    eexists. split; [done |]. eapply implements_trim; [done | done | done | intros; apply RemoveTail_points |].
    by rewrite Hc', Hcs.
  - destruct (vs !! i) as [v |] eqn:Ei; simplify_eq/=.
    destruct (implements_lookup _ _ _ _ _ HI Ei) as (s & Hi & Hcs). rewrite Hi. cbn.
    unfold Slice_clear. rewrite Slice_move_assign_destroy.
    destruct (implements_clear h L vs i s HI Hc Hi) as (h' & -> & HI'). by eexists.
  - destruct (vs !! i) as [v |] eqn:Ei; simplify_eq/=.
    destruct (implements_lookup _ _ _ _ _ HI Ei) as (s & Hi & Hcs). rewrite Hi. cbn.
    destruct (Slice_destroy_ok h s (delete i L)) as (h' & -> & Hok' & F');
      [by apply heap_ok_delete, HI |].
    eexists. split; [done |]. split; [done |]. eapply Forall2_frame; [done |]. by apply Forall2_delete, HI.
Qed.

(** Running a program. *)
Fixpoint slice_run (st : heap * list Slice) (ops : list slice_op) : option (heap * list Slice) :=
  match ops with
  | [] => Some st
  | op :: ops' => st' ← slice_step st op; slice_run st' ops'
  end.

Fixpoint value_run (vs : list (list cell)) (ops : list slice_op) : option (list (list cell)) :=
  match ops with
  | [] => Some vs
  | op :: ops' => vs' ← value_step vs op; value_run vs' ops'
  end.

Fixpoint run_fits (vs : list (list cell)) (ops : list slice_op) : Prop :=
  match ops with
  | [] => True
  | op :: ops' => op_fits vs op /\ (forall vs', value_step vs op = Some vs' -> run_fits vs' ops')
  end.

Lemma slice_run_refines ops st vs vs' :
  implements st vs -> run_fits vs ops -> value_run vs ops = Some vs' ->
  exists st', slice_run st ops = Some st' /\ implements st' vs'.
Proof.
  revert st vs. induction ops as [| op ops IH]; intros [h L] vs HI Hfit Hrun.
  { cbn in Hrun. simplify_eq. by eexists. }
  cbn [slice_run value_run run_fits] in *.
  destruct Hfit as [Hf Hfit]. destruct (value_step vs op) as [vs1 |] eqn:E; [| done]. cbn in Hrun.
  destruct (slice_step_refines h L vs vs1 op HI Hf E) as (st1 & -> & HI1). cbn.
  eapply IH; [done | by apply Hfit | done].
Qed.

(** C26: Memory safety and value semantics of slices: whatever sequence of
    constructions, copies, assignments (also to itself), moves, concatenations,
    trims and destructions a program makes, no operation touches freed or foreign
    memory, every object reads as an independent byte string, and when all objects
    are gone every block has been freed. *)
Theorem slice_program_safe (ops : list slice_op) (vs : list (list cell)) :
  run_fits [] ops -> value_run [] ops = Some vs ->
  exists h L, slice_run (∅, []) ops = Some (h, L) /\
    Forall2 (fun s v => Slice_cells h s = Some v) L vs /\
    (vs = [] -> h = ∅).
Proof.
  intros Hfit Hrun.
  destruct (slice_run_refines ops (∅, []) [] vs) as ([h L] & Hr & Hok & HF); [| done | done |].
  - split; [| constructor]. split; [done | constructor | done].
  - exists h, L. split; [done |]. split; [done |]. intros ->. inversion HF; subst. by apply heap_ok_nil.
Qed.

End Programs.

(** A string is built, copied, the copy is trimmed and appended to the original, and
    both are destroyed. *)
Definition slice_demo : list slice_op :=
  [OpNew [x61; x62; x63]; OpCopy 0; OpRemoveHead 1 1; OpPlusAssign 0 1; OpDestroy 1].

Lemma slice_program_safe_witness :
  exists h L, slice_run (∅, []) slice_demo = Some (h, L) /\
    Forall2 (fun s v => Slice_cells h s = Some v) L [Some <$> [x61; x62; x63; x62; x63]].
Proof.
  destruct (slice_program_safe slice_demo [Some <$> [x61; x62; x63; x62; x63]]) as (h & L & H1 & H2 & _).
  - repeat (split; [split; [vm_compute; discriminate |] |
      cbn [value_step lookup list_lookup fmap option_fmap option_map mbind option_bind]; intros vs' [= <-]]).
    + vm_compute. discriminate.
    + exact I.
    + lia.
    + intros v w [= <-] [= <-]. vm_compute. discriminate.
    + exact I.
    + exact I.
  - reflexivity.
  - exists h, L. split; [exact H1 | exact H2].
Defined.
