(* ===== verification/SliceBuffer.v ===== *)
(** * SliceBuffer: a queue of slices read as one byte string

    [src/utils/slice_buffer.h], [src/utils/slice_buffer.cc], on the heap of
    [Slice.v]. [None] is undefined behaviour or a failed [CONNX_ASSERT]. The
    second half gives the specification on plain byte strings, [Chunks], and
    proves that every operation implements it. *)

From S2P Require Import Prelude Slice.

Record SliceBuffer := { length_ : Z; ds_ : list Slice }.

Section SizeT.
Context `{SizeT}.

Definition SliceBuffer_new : SliceBuffer := {| length_ := 0; ds_ := [] |}.

Definition SliceCount (b : SliceBuffer) : Z := zlen (ds_ b).
Definition GetBufferLength (b : SliceBuffer) : Z := length_ b.
Definition SliceBuffer_Empty (b : SliceBuffer) : bool := bool_decide (ds_ b = []).

(** The copy loop of [Merge] and [MergeFront]: [buf] is at offset [off] of [ret]. *)
Fixpoint merge_loop (h : heap) (ret : Slice) (off : Z) (ds : list Slice) : option (Slice * heap) :=
  match ds with
  | [] => Some (ret, h)
  | it :: ds' =>
      let blk_size := Slice_size it in
      src ← Slice_cells h it;
      '(ret', h') ← Slice_write h ret off src;
      merge_loop h' ret' (off + blk_size) ds'
  end.

Definition Merge (h : heap) (b : SliceBuffer) : option (Slice * heap) :=
  if SliceCount b =? 0 then Some (Slice_default, h)
  else if SliceCount b =? 1 then s ← ds_ b !! 0%nat; Slice_copy h s
  else
    let '(ret, h1) := MakeSliceByLength h (GetBufferLength b) in
    merge_loop h1 ret 0 (ds_ b).

Definition total_size (ds : list Slice) : Z := foldl (fun t s => usize (t + Slice_size s)) 0 ds.

Definition MergeFront (h : heap) (b : SliceBuffer) (count : Z) : option (Slice * heap) :=
  if (count =? 0) || SliceBuffer_Empty b then Some (Slice_default, h)
  else if count =? 1 then s ← ds_ b !! 0%nat; Slice_copy h s
  else
    let n := if count <? zlen (ds_ b) then count else zlen (ds_ b) in
    let front := ztake n (ds_ b) in
    let '(ret, h1) := MakeSliceByLength h (total_size front) in
    merge_loop h1 ret 0 front.

(** Both overloads of [AddSlice]: the rvalue one passes its named parameter to
    [emplace_back] and so copies it too. *)
Definition AddSlice (h : heap) (b : SliceBuffer) (s : Slice) : option (SliceBuffer * heap) :=
  if Slice_empty s then Some (b, h)
  else
    '(s', h') ← Slice_copy h s;
    Some ({| length_ := usize (length_ b + Slice_size s); ds_ := ds_ b ++ [s'] |}, h').

(** [MoveHeader], with its recursive call on the rest of the deque. *)
Fixpoint MoveHeader_ds (h : heap) (length_ : Z) (ds : list Slice) (len : Z)
    : option (bool * SliceBuffer * heap) :=
  if length_ <? len then Some (false, {| length_ := length_; ds_ := ds |}, h)
  else if len =? 0 then Some (true, {| length_ := length_; ds_ := ds |}, h)
  else
    match ds with
    | [] => None
    | it :: ds' =>
        let left := Slice_size it in
        if len <? left then
          Some (true, {| length_ := usize (length_ - len); ds_ := RemoveHead it len :: ds' |}, h)
        else if left =? len then
          h' ← Slice_destroy h it;
          Some (true, {| length_ := usize (length_ - len); ds_ := ds' |}, h')
        else
          h' ← Slice_destroy h it;
          MoveHeader_ds h' (usize (length_ - left)) ds' (usize (len - left))
    end.

Definition MoveHeader (h : heap) (b : SliceBuffer) (len : Z) : option (bool * SliceBuffer * heap) :=
  MoveHeader_ds h (length_ b) (ds_ b) len.

(** [CopyToBuffer]: the bytes written to the caller's buffer. *)
Fixpoint CopyToBuffer_loop (h : heap) (left : Z) (ds : list Slice) : option (list cell) :=
  match ds with
  | [] => Some []
  | it :: ds' =>
      if left =? 0 then Some []
      else
        let len := Z.min left (Slice_size it) in
        src ← Slice_cells h it;
        rest ← CopyToBuffer_loop h (usize (left - len)) ds';
        Some (ztake len src ++ rest)
  end.

Definition CopyToBuffer (h : heap) (b : SliceBuffer) (length : Z) : option (list cell) :=
  if length <=? GetBufferLength b then CopyToBuffer_loop h length (ds_ b) else None.

Definition GetHeader (h : heap) (b : SliceBuffer) (len : Z) : option (Slice * heap) :=
  if (len =? 0) || (GetBufferLength b <? len) then Some (Slice_default, h)
  else
    let '(s, h1) := MakeSliceByLength h len in
    bytes ← CopyToBuffer h1 b len;
    Slice_write h1 s 0 bytes.

(** Destroy the elements of the deque in order. *)
Fixpoint destroy_all (h : heap) (ds : list Slice) : option heap :=
  match ds with
  | [] => Some h
  | s :: ds' => h' ← Slice_destroy h s; destroy_all h' ds'
  end.

Definition ClearBuffer (h : heap) (b : SliceBuffer) : option (SliceBuffer * heap) :=
  h' ← destroy_all h (ds_ b); Some (SliceBuffer_new, h').

Definition PopFront (h : heap) (b : SliceBuffer) : option (SliceBuffer * heap) :=
  match ds_ b with
  | [] => None
  | s :: ds' =>
      h' ← Slice_destroy h s;
      Some ({| length_ := usize (length_ b - Slice_size s); ds_ := ds' |}, h')
  end.

Definition PopBack (h : heap) (b : SliceBuffer) : option (SliceBuffer * heap) :=
  match list.last (ds_ b) with
  | None => None
  | Some s =>
      h' ← Slice_destroy h s;
      Some ({| length_ := usize (length_ b - Slice_size s);
               ds_ := take (length (ds_ b) - 1) (ds_ b) |}, h')
  end.

Definition Front (b : SliceBuffer) : option Slice := list.head (ds_ b).
Definition Back (b : SliceBuffer) : option Slice := list.last (ds_ b).

(** [At]: [None] is the [std::out_of_range] exception. *)
Definition At (b : SliceBuffer) (n : Z) : option Slice :=
  if n <? zlen (ds_ b) then ds_ b !! Z.to_nat n else None.

End SizeT.

(** ** Specification: a queue of non-empty byte strings *)

Section Chunks.
Context {A : Type}.

Definition Chunks : Type := list (list A).

Definition chunks_add (c : Chunks) (v : list A) : Chunks :=
  match v with [] => c | _ => c ++ [v] end.

(** Drop the first [n] bytes. *)
Fixpoint chunks_drop (n : Z) (c : Chunks) : Chunks :=
  match c with
  | [] => []
  | v :: c' =>
      if n =? 0 then c
      else if n <? zlen v then zdrop n v :: c'
      else chunks_drop (n - zlen v) c'
  end.

Definition chunks_bytes (c : Chunks) : list A := concat c.
Definition chunks_ok (c : Chunks) : Prop := Forall (fun v => v <> []) c.

Lemma chunks_add_ok c v : chunks_ok c -> chunks_ok (chunks_add c v).
Proof.
  intros Hc. destruct v as [| x v]; [done |]. apply list.Forall_app. split; [done |]. by repeat constructor.
Qed.

Lemma chunks_add_bytes c v : chunks_bytes (chunks_add c v) = chunks_bytes c ++ v.
Proof.
  unfold chunks_bytes. destruct v as [| x v]; cbn [chunks_add]; [by rewrite app_nil_r |].
  rewrite concat_app. cbn. by rewrite app_nil_r.
Qed.

Lemma chunks_drop_ok n c : 0 <= n -> chunks_ok c -> chunks_ok (chunks_drop n c).
Proof.
  intros Hn Hc. revert n Hn. induction Hc as [| v c Hv Hc IH]; intros n Hn; cbn; [constructor |].
  destruct (Z.eqb_spec n 0); [by constructor |].
  destruct (Z.ltb_spec n (zlen v)); [| by apply IH; lia].
  constructor; [| done]. intros E. apply (f_equal zlen) in E. rewrite zlen_zdrop in E by lia.
  rewrite zlen_nil in E. lia.
Qed.

Lemma chunks_drop_bytes n c :
  0 <= n <= zlen (chunks_bytes c) -> chunks_bytes (chunks_drop n c) = zdrop n (chunks_bytes c).
Proof.
  unfold chunks_bytes. revert n. induction c as [| v c IH]; intros n Hn; cbn [chunks_drop concat] in *.
  - cbn in Hn. unfold zdrop. by rewrite drop_nil.
  - rewrite zlen_app in Hn. destruct (Z.eqb_spec n 0) as [-> |]; [done |].
    destruct (Z.ltb_spec n (zlen v)); cbn [concat].
    + by rewrite zdrop_app_le by lia.
    + rewrite IH by lia. unfold zdrop, zlen in *. rewrite drop_app_ge by lia. f_equal. lia.
Qed.

End Chunks.
Arguments Chunks : clear implicits.

(** ** The operations implement the specification *)

Section Refinement.
Context `{SizeT}.

(** The buffer holds the chunks [c]; [L] are the other slices of the program. *)
Record buf_rep (h : heap) (b : SliceBuffer) (L : list Slice) (c : Chunks cell) : Prop := {
  rep_heap : heap_ok h (ds_ b ++ L);
  rep_cells : Forall2 (fun s v => Slice_cells h s = Some v) (ds_ b) c;
  rep_chunks : chunks_ok c;
  rep_length : length_ b = zlen (chunks_bytes c);
  rep_fits : zlen (chunks_bytes c) <= SIZE_MAX
}.

Lemma cells_size h s v : slice_ok h s -> Slice_cells h s = Some v -> Slice_size s = zlen v.
Proof. intros Hs Hc. apply slice_ok_cells in Hs as (? & ? & ?). congruence. Qed.

Lemma splice_app {A} (pre src rest : list A) :
  splice (length pre) src (pre ++ rest) = pre ++ src ++ drop (length src) rest.
Proof.
  unfold splice. rewrite take_app_le, take_ge by lia. rewrite drop_app_ge by lia.
  do 3 f_equal. lia.
Qed.

Lemma heap_ok_slice h L s : heap_ok h L -> s ∈ L -> slice_ok h s.
Proof. intros [_ Hs _] Hin. rewrite list.Forall_forall in Hs. by apply Hs. Qed.

(** The copy loop fills the part of [ret] behind [pre] with the bytes of [ds]. *)
Lemma merge_loop_ok ds vs : forall h ret K pre rest,
  heap_ok h (ret :: K) -> sole ret K -> (forall s, s ∈ ds -> s ∈ K) ->
  Forall2 (fun s v => Slice_cells h s = Some v) ds vs ->
  Slice_cells h ret = Some (pre ++ rest) -> zlen rest = zlen (concat vs) ->
  exists s' h', merge_loop h ret (zlen pre) ds = Some (s', h') /\
    heap_ok h' (s' :: K) /\ frame h h' K /\ Slice_cells h' s' = Some (pre ++ concat vs).
Proof.
  revert vs. induction ds as [| s ds IH]; intros vs h ret K pre rest Hok Hsole Hsub HF Hret Hrest.
  { inversion HF; subst. cbn in Hrest. rewrite zlen_nil in Hrest. apply zlen_0 in Hrest as ->.
    exists ret, h. cbn. auto using frame_refl. }
  inversion HF as [| ? v ? vs' Hs HF' E1 E2]; subst. cbn [concat] in *. rewrite zlen_app in Hrest.
  assert (HsK : s ∈ K) by (apply Hsub; left).
  assert (Hsok : slice_ok h s) by (eapply heap_ok_slice; [done | by right]).
  pose proof (cells_size _ _ _ Hsok Hs) as Hsz.
  assert (Hrs : Slice_size ret = zlen (pre ++ rest)) by
    (eapply cells_size; [eapply heap_ok_slice; [done | left] | done]).
  cbn [merge_loop]. rewrite Hs. cbn.
  destruct (Slice_write_ok h ret (zlen pre) v (pre ++ rest) K)
    as (r1 & h1 & -> & Hok1 & F1 & Hsole1 & Hsz1 & Hc1); [done | done | done | zlia | zlia |]. cbn.
  unfold zlen in Hc1 at 1. rewrite Nat2Z.id, splice_app, app_assoc in Hc1.
  destruct (IH vs' h1 r1 K (pre ++ v) (drop (length v) rest)) as (s' & h' & Hm & Hok' & F' & Hc');
    [done | done | intros; apply Hsub; by right | | done | |].
  - eapply Forall2_frame; [| exact HF']. eapply frame_mono; [| exact F1]. intros; apply Hsub; by right.
  - unfold zlen in *. rewrite length_drop. lia.
  - exists s', h'. rewrite Hsz, <- zlen_app, Hm, <- app_assoc in *. split; [done |].
    split; [done |]. split; [by eapply frame_trans | done].
Qed.

(** A fresh slice filled by the copy loop. *)
Lemma make_and_merge_ok h ds vs K :
  heap_ok h K -> zlen K + 1 <= INT32_MAX -> (forall s, s ∈ ds -> s ∈ K) ->
  Forall2 (fun s v => Slice_cells h s = Some v) ds vs ->
  zlen (concat vs) <= SIZE_MAX - sizeof_SliceRefCount ->
  exists s' h', (let '(ret, h1) := MakeSliceByLength h (zlen (concat vs)) in merge_loop h1 ret 0 ds) = Some (s', h') /\
    heap_ok h' (s' :: K) /\ frame h h' K /\ Slice_cells h' s' = Some (concat vs).
Proof.
  intros Hok Hcnt Hsub HF Hfit.
  pose proof (MakeSliceByLength_ok h (zlen (concat vs)) K Hok Hcnt ltac:(zlia)) as HM.
  destruct (MakeSliceByLength h _) as [ret h1]. destruct HM as (Hok1 & F1 & Hsole & Hsz).
  assert (Hr : slice_ok h1 ret) by (eapply heap_ok_slice; [done | left]).
  destruct (slice_ok_cells _ _ Hr) as (c & Hc & Hlen).
  destruct (merge_loop_ok ds vs h1 ret K [] c) as (s' & h' & Hm & Hok' & F' & Hc');
    [done | done | done | | done | lia |].
  { eapply Forall2_frame; [| exact HF]. by eapply frame_mono. }
  exists s', h'. split; [done |]. split; [done |]. split; [by eapply frame_trans | done].
Qed.

Lemma rep_slice_sizes h b L c s v :
  buf_rep h b L c -> s ∈ ds_ b ++ L -> Slice_cells h s = Some v -> Slice_size s = zlen v.
Proof. intros HR Hin. apply cells_size. by eapply heap_ok_slice; [apply HR |]. Qed.

Lemma AddSlice_ok h b L c s v :
  buf_rep h b L c -> s ∈ ds_ b ++ L -> Slice_cells h s = Some v ->
  zlen (chunks_bytes c) + zlen v <= SIZE_MAX -> zlen (ds_ b ++ L) + 1 <= INT32_MAX ->
  exists b' h', AddSlice h b s = Some (b', h') /\
    buf_rep h' b' L (chunks_add c v) /\ frame h h' (ds_ b ++ L).
Proof.
  intros HR Hin Hv Hfit Hcnt. pose proof (rep_slice_sizes _ _ _ _ _ _ HR Hin Hv) as Hsz.
  unfold AddSlice, Slice_empty. rewrite Hsz. destruct v as [| x v]; [eexists _, _; by auto using frame_refl |].
  destruct (Z.eqb_spec (zlen (x :: v)) 0); [zlia |].
  destruct (list_elem_of_lookup_1 _ _ Hin) as [i Hi].
  pose proof (delete_Permutation _ _ _ Hi) as HP. pose proof (zlen_delete _ _ _ Hi) as Hz.
  destruct HR as [Hok HF Hck Hlen Hf].
  destruct (Slice_copy_ok h s (delete i (ds_ b ++ L))) as (h' & -> & Hok' & F');
    [by eapply heap_ok_perm | lia |]. cbn [mbind option_bind].
  assert (F : frame h h' (ds_ b ++ L)) by (eapply frame_mono; [| exact F']; intros t Ht; by rewrite <- HP).
  eexists _, _. split; [done |]. split; [| exact F].
  assert (Hc' : Slice_cells h' s = Some (x :: v)) by (by rewrite (frame_cells _ _ _ _ F)).
  split; cbn [ds_ length_].
  - eapply heap_ok_perm; [| exact Hok']. rewrite <- HP, <- app_assoc. cbn. apply Permutation_middle.
  - apply Forall2_app; [| by constructor]. eapply Forall2_frame; [| done].
    eapply frame_mono; [| exact F]. intros t Ht. apply elem_of_app. by left.
  - by apply (chunks_add_ok c (x :: v)).
  - rewrite chunks_add_bytes, zlen_app, Hlen. apply usize_small. zlia.
  - rewrite chunks_add_bytes, zlen_app. lia.
Qed.

(** The front slice is destroyed: the state behind it. *)
Lemma buf_rep_tail h len s ds L v c :
  buf_rep h {| length_ := len; ds_ := s :: ds |} L (v :: c) ->
  exists h', Slice_destroy h s = Some h' /\ frame h h' (ds ++ L) /\ Slice_size s = zlen v /\
    buf_rep h' {| length_ := usize (len - zlen v); ds_ := ds |} L c.
Proof.
  intros HR. assert (Hsz : Slice_size s = zlen v).
  { eapply rep_slice_sizes; [done | left |]. destruct HR as [_ HF _ _ _]. by inversion HF. }
  destruct HR as [Hok HF Hck Hlen Hf]. cbn in *. unfold chunks_bytes in *. cbn [concat] in *.
  rewrite zlen_app in *.
  destruct (Slice_destroy_ok h s (ds ++ L) Hok) as (h' & Hd & Hok' & F').
  exists h'. split; [done |]. split; [done |]. split; [done |]. split; cbn.
  - done.
  - inversion HF; subst. eapply Forall2_frame; [| done]. eapply frame_mono; [| exact F'].
    intros t Ht. apply elem_of_app. by left.
  - by inversion Hck.
  - rewrite Hlen. unfold chunks_bytes. replace (_ + _ - _) with (zlen (concat c)) by lia.
    apply usize_small. zlia.
  - unfold chunks_bytes. zlia.
Qed.

Lemma MoveHeader_ds_ok ds : forall h len L c n,
  buf_rep h {| length_ := len; ds_ := ds |} L c -> 0 <= n <= zlen (chunks_bytes c) ->
  exists b' h', MoveHeader_ds h len ds n = Some (true, b', h') /\
    buf_rep h' b' L (chunks_drop n c) /\ frame h h' L.
Proof.
  induction ds as [| s ds IH]; intros h len L c n HR Hn; pose proof (rep_length _ _ _ _ HR) as Hlen;
    pose proof (rep_fits _ _ _ _ HR) as Hfit; cbn in Hlen;
    pose proof (rep_cells _ _ _ _ HR) as HF; cbn in HF.
  { inversion HF; subst. cbn in *. rewrite zlen_nil in *. assert (n = 0) as -> by lia. cbn.
    eexists _, _. by auto using frame_refl. }
  inversion HF as [| ? v ? c' Hv HF' E1 E2]; subst c. cbn [MoveHeader_ds chunks_drop].
  destruct (Z.ltb_spec len n); [lia |].
  destruct (Z.eqb_spec n 0); [eexists _, _; by auto using frame_refl |].
  destruct (buf_rep_tail _ _ _ _ _ _ _ HR) as (h1 & Hd & F1 & Hsz & HR1). rewrite Hsz.
  assert (FL : frame h h1 L) by (eapply frame_mono; [| exact F1]; intros t Ht; apply elem_of_app; by right).
  assert (Hb : zlen (chunks_bytes (v :: c')) = zlen v + zlen (chunks_bytes c')) by
    (unfold chunks_bytes; cbn [concat]; apply zlen_app).
  destruct (Z.ltb_spec n (zlen v)).
  - eexists _, _. split; [done |]. split; [| apply frame_refl].
    assert (Hs : slice_ok h s) by (eapply heap_ok_slice; [apply HR | left]).
    destruct (RemoveHead_ok h s n Hs ltac:(lia)) as [Hs' Hc']. rewrite Hv in Hc'. cbn in Hc'.
    pose proof (chunks_drop_bytes n (v :: c') Hn) as Hdb.
    pose proof (chunks_drop_ok n (v :: c') ltac:(lia) (rep_chunks _ _ _ _ HR)) as Hdo.
    cbn [chunks_drop] in Hdb, Hdo. rewrite (proj2 (Z.eqb_neq n 0)), (proj2 (Z.ltb_lt n (zlen v))) in Hdb, Hdo by lia.
    split; cbn [ds_ length_]; [| by constructor | done | |].
    + eapply slice_trim_ok; [apply HR | done | intros; apply RemoveHead_points].
    + rewrite Hdb, zlen_zdrop, Hlen by lia. apply usize_small. lia.
    + rewrite Hdb, zlen_zdrop; lia.
  - rewrite Hd. cbn. destruct (Z.eqb_spec (zlen v) n) as [<- |].
    + eexists _, _. split; [done |]. rewrite Z.sub_diag. split; [| done].
      by replace (chunks_drop 0 c') with c' by (by destruct c').
    + rewrite (usize_small (n - zlen v)) by zlia.
      destruct (IH h1 (usize (len - zlen v)) L c' (n - zlen v) HR1 ltac:(zlia)) as (b' & h' & -> & HR' & F').
      eexists _, _. split; [done |]. split; [done |]. by eapply frame_trans.
Qed.

Lemma MoveHeader_ok h b L c n :
  buf_rep h b L c -> 0 <= n ->
  exists b' h', MoveHeader h b n = Some (n <=? zlen (chunks_bytes c), b', h') /\
    buf_rep h' b' L (if n <=? zlen (chunks_bytes c) then chunks_drop n c else c) /\ frame h h' L.
Proof.
  intros HR Hn. unfold MoveHeader. destruct b as [len ds]. destruct (Z.leb_spec n (zlen (chunks_bytes c))).
  - by apply MoveHeader_ds_ok.
  - exists {| length_ := len; ds_ := ds |}, h. pose proof (rep_length _ _ _ _ HR) as Hlen. cbn in *.
    split; [| by auto using frame_refl].
    destruct ds; cbn; by rewrite (proj2 (Z.ltb_lt len n)) by lia.
Qed.

Lemma buf_rep_frame h h' b L L' c :
  buf_rep h b L c -> frame h h' (ds_ b ++ L) -> heap_ok h' (ds_ b ++ L') -> buf_rep h' b L' c.
Proof.
  intros [Hok HF Hck Hlen Hf] F Hok'. split; [done | | done | done | done].
  eapply Forall2_frame; [| done]. eapply frame_mono; [| exact F]. intros t Ht. apply elem_of_app. by left.
Qed.

(** What an operation that returns a new slice achieves: the slice holds [v],
    everything else is as before. *)
Definition new_slice (h : heap) (b : SliceBuffer) (L : list Slice) (v : list cell)
    (r : option (Slice * heap)) : Prop :=
  exists s h', r = Some (s, h') /\ heap_ok h' (ds_ b ++ s :: L) /\
    frame h h' (ds_ b ++ L) /\ Slice_cells h' s = Some v.

Lemma new_slice_perm h b L v s h' :
  heap_ok h' (s :: ds_ b ++ L) -> frame h h' (ds_ b ++ L) -> Slice_cells h' s = Some v ->
  new_slice h b L v (Some (s, h')).
Proof.
  intros Hok F Hc. exists s, h'. split; [done |]. split; [| done].
  eapply heap_ok_perm; [| exact Hok]. apply Permutation_middle.
Qed.

Lemma new_slice_default h b L :
  heap_ok h (ds_ b ++ L) -> zlen (ds_ b ++ L) + 1 <= INT32_MAX ->
  new_slice h b L [] (Some (Slice_default, h)).
Proof. intros. apply new_slice_perm; [by apply heap_ok_default | apply frame_refl | done]. Qed.

Lemma new_slice_copy h b L c s v :
  buf_rep h b L c -> zlen (ds_ b ++ L) + 1 <= INT32_MAX ->
  ds_ b !! 0%nat = Some s -> c !! 0%nat = Some v -> new_slice h b L v (Slice_copy h s).
Proof.
  intros HR Hcnt Hs Hv. pose proof (Forall2_lookup_lr _ _ _ _ _ _ (rep_cells _ _ _ _ HR) Hs Hv) as Hc.
  destruct (ds_ b) as [| s0 ds] eqn:E; [done |]. simplify_eq/=. pose proof (rep_heap _ _ _ _ HR) as Hok.
  rewrite E in Hok. cbn in Hok.
  destruct (Slice_copy_ok h s (ds ++ L) Hok ltac:(zlia)) as (h' & -> & Hok' & F').
  apply new_slice_perm; rewrite ?E; [done | done |]. rewrite (frame_cells _ _ _ _ F'); [done | left].
Qed.

Lemma Merge_ok h b L c :
  buf_rep h b L c -> zlen (ds_ b ++ L) + 1 <= INT32_MAX ->
  zlen (chunks_bytes c) <= SIZE_MAX - sizeof_SliceRefCount ->
  new_slice h b L (chunks_bytes c) (Merge h b).
Proof.
  intros HR Hcnt Hfit. pose proof (rep_cells _ _ _ _ HR) as HF. pose proof (Forall2_length HF) as Hl.
  unfold Merge, SliceCount, GetBufferLength. destruct (Z.eqb_spec (zlen (ds_ b)) 0) as [E | E].
  { apply zlen_0 in E. rewrite E in Hl. destruct c; [| done]. apply new_slice_default; [apply HR | done]. }
  destruct (Z.eqb_spec (zlen (ds_ b)) 1) as [E1 | E1].
  { unfold zlen in E1. destruct (ds_ b) as [| s [|]] eqn:Eb, c as [| v [|]]; cbn in *; try lia.
    unfold chunks_bytes. cbn. rewrite app_nil_r.
    eapply new_slice_copy; [done | by rewrite Eb | by rewrite Eb | done]. }
  rewrite (rep_length _ _ _ _ HR). unfold chunks_bytes in *.
  destruct (make_and_merge_ok h (ds_ b) c (ds_ b ++ L)) as (s & h' & -> & Hok & F & Hc);
    [apply HR | done | intros; apply elem_of_app; by left | done | done |].
  by apply new_slice_perm.
Qed.

Lemma foldl_total ds vs : forall h L t,
  Forall (slice_ok h) (ds ++ L) -> Forall2 (fun s v => Slice_cells h s = Some v) ds vs ->
  0 <= t -> t + zlen (concat vs) <= SIZE_MAX ->
  foldl (fun t s => usize (t + Slice_size s)) t ds = t + zlen (concat vs).
Proof.
  revert vs. induction ds as [| s ds IH]; intros vs h L t Hs HF Ht Hfit; inversion HF; subst; cbn.
  { rewrite zlen_nil. lia. }
  cbn [concat app] in *. apply list.Forall_cons in Hs as [Hs HL]. rewrite zlen_app in *.
  rewrite (cells_size h s y) by done. rewrite usize_small by zlia.
  rewrite (IH l' h L) by (done || zlia). lia.
Qed.

Lemma concat_take_le {A} n (c : list (list A)) : zlen (concat (take n c)) <= zlen (concat c).
Proof. rewrite <- (take_drop n c) at 2. rewrite concat_app, zlen_app. zlia. Qed.

Lemma MergeFront_ok h b L c count :
  buf_rep h b L c -> zlen (ds_ b ++ L) + 1 <= INT32_MAX -> 0 <= count ->
  zlen (chunks_bytes c) <= SIZE_MAX - sizeof_SliceRefCount ->
  new_slice h b L (concat (ztake count c)) (MergeFront h b count).
Proof.
  intros HR Hcnt Hn Hfit. pose proof (rep_cells _ _ _ _ HR) as HF. pose proof (Forall2_length HF) as Hl.
  unfold MergeFront, SliceBuffer_Empty. destruct (Z.eqb_spec count 0) as [-> | Hn0].
  { apply new_slice_default; [apply HR | done]. }
  case_bool_decide as E; cbn [orb].
  { rewrite E in Hl. destruct c; [| done]. unfold ztake. rewrite take_nil.
    apply new_slice_default; [apply HR | done]. }
  destruct (Z.eqb_spec count 1) as [-> | Hn1].
  { destruct (ds_ b) as [| s ds] eqn:Eb; [done |]. destruct c as [| v c]; [done |].
    change (ztake 1 (v :: c)) with [v]. cbn. rewrite app_nil_r.
    eapply new_slice_copy; [done | by rewrite Eb | by rewrite Eb | done]. }
  assert (Ht : forall A (l : list A), zlen l = zlen (ds_ b) ->
    ztake (if count <? zlen (ds_ b) then count else zlen (ds_ b)) l = ztake count l).
  { intros A l El. destruct (Z.ltb_spec count (zlen (ds_ b))); [done |]. by rewrite !ztake_all by lia. }
  rewrite Ht by done. pose proof (concat_take_le (Z.to_nat count) c). unfold ztake, chunks_bytes in *.
  assert (HF' := Forall2_take _ _ _ (Z.to_nat count) HF).
  assert (Hsub : forall s, s ∈ take (Z.to_nat count) (ds_ b) -> s ∈ ds_ b ++ L).
  { intros s Hs. apply elem_of_app. left. by eapply elem_of_take in Hs as (i & ?%list_elem_of_lookup_2 & _). }
  assert (Hall : Forall (slice_ok h) (take (Z.to_nat count) (ds_ b) ++ [])).
  { rewrite app_nil_r. apply list.Forall_forall. intros s Hs. eapply heap_ok_slice; [apply HR | by apply Hsub]. }
  pose proof SIZE_MAX_ge_u32. unfold sizeof_SliceRefCount in *.
  unfold total_size. rewrite (foldl_total _ _ h [] 0 Hall HF') by lia. rewrite Z.add_0_l.
  destruct (make_and_merge_ok h (take (Z.to_nat count) (ds_ b)) (take (Z.to_nat count) c) (ds_ b ++ L))
    as (s & h' & -> & Hok & F & Hc); [apply HR | done | done | done | unfold sizeof_SliceRefCount; lia |].
  by apply new_slice_perm.
Qed.

Lemma CopyToBuffer_loop_ok ds vs : forall h n,
  Forall (slice_ok h) ds -> Forall2 (fun s v => Slice_cells h s = Some v) ds vs ->
  0 <= n <= SIZE_MAX -> CopyToBuffer_loop h n ds = Some (ztake n (concat vs)).
Proof.
  revert vs. induction ds as [| s ds IH]; intros vs h n Hs HF Hn; inversion HF; subst; cbn.
  { unfold ztake. by rewrite take_nil. }
  apply list.Forall_cons in Hs as [Hs Hds]. destruct (Z.eqb_spec n 0) as [-> |]; [done |].
  pose proof (cells_size h s y Hs ltac:(done)) as Hsz. rewrite Hsz.
  match goal with E : Slice_cells h s = Some y |- _ => rewrite E end. cbn.
  rewrite usize_small by zlia. rewrite (IH l') by (done || zlia). cbn. f_equal.
  unfold ztake, zlen in *. rewrite take_app. f_equal.
  - destruct (Z.min_spec n (Z.of_nat (length y))) as [[? ->] | [? ->]]; [done |].
    by rewrite !take_ge by lia.
  - f_equal. lia.
Qed.

Lemma CopyToBuffer_ok h b L c n :
  buf_rep h b L c -> 0 <= n <= zlen (chunks_bytes c) ->
  CopyToBuffer h b n = Some (ztake n (chunks_bytes c)).
Proof.
  intros HR Hn. unfold CopyToBuffer, GetBufferLength. rewrite (rep_length _ _ _ _ HR).
  rewrite (proj2 (Z.leb_le _ _)) by lia. pose proof (rep_fits _ _ _ _ HR).
  apply CopyToBuffer_loop_ok; [| apply HR | lia].
  pose proof (ok_slices _ _ (rep_heap _ _ _ _ HR)) as HA. by apply list.Forall_app in HA as [? _].
Qed.

Lemma GetHeader_ok h b L c n :
  buf_rep h b L c -> zlen (ds_ b ++ L) + 1 <= INT32_MAX -> 0 <= n ->
  zlen (chunks_bytes c) <= SIZE_MAX - sizeof_SliceRefCount ->
  new_slice h b L (if n <=? zlen (chunks_bytes c) then ztake n (chunks_bytes c) else []) (GetHeader h b n).
Proof.
  intros HR Hcnt Hn Hfit. unfold GetHeader, GetBufferLength. rewrite (rep_length _ _ _ _ HR).
  destruct (Z.eqb_spec n 0) as [-> |]; cbn [orb].
  { destruct (0 <=? _); apply new_slice_default; (apply HR || done). }
  destruct (Z.ltb_spec (zlen (chunks_bytes c)) n), (Z.leb_spec n (zlen (chunks_bytes c))); try lia.
  { apply new_slice_default; [apply HR | done]. }
  pose proof (MakeSliceByLength_ok h n (ds_ b ++ L) (rep_heap _ _ _ _ HR) Hcnt ltac:(lia)) as HM.
  destruct (MakeSliceByLength h n) as [s h1]. destruct HM as (Hok1 & F1 & Hsole & Hsz).
  assert (HR1 : buf_rep h1 b (s :: L) c).
  { eapply buf_rep_frame; [done | done |]. eapply heap_ok_perm; [| exact Hok1]. apply Permutation_middle. }
  rewrite (CopyToBuffer_ok _ _ _ _ n HR1) by lia. cbn.
  assert (Hs : slice_ok h1 s) by (eapply heap_ok_slice; [done | left]).
  destruct (slice_ok_cells _ _ Hs) as (d & Hd & Hdl).
  destruct (Slice_write_ok h1 s 0 (ztake n (chunks_bytes c)) d (ds_ b ++ L))
    as (s' & h' & -> & Hok' & F' & _ & _ & Hc'); [done | done | done | lia | rewrite zlen_ztake; lia |].
  apply new_slice_perm; [done | by eapply frame_trans |].
  rewrite Hc'. cbn. rewrite splice_full; [done |].
  assert (zlen (ztake n (chunks_bytes c)) = n) by (by apply zlen_ztake). unfold zlen in *. lia.
Qed.

Lemma destroy_all_ok ds : forall h L,
  heap_ok h (ds ++ L) -> exists h', destroy_all h ds = Some h' /\ heap_ok h' L /\ frame h h' L.
Proof.
  induction ds as [| s ds IH]; intros h L Hok; cbn.
  { eexists. by auto using frame_refl. }
  destruct (Slice_destroy_ok h s (ds ++ L) Hok) as (h1 & -> & Hok1 & F1). cbn.
  destruct (IH h1 L Hok1) as (h' & -> & Hok' & F'). eexists. split; [done |]. split; [done |].
  eapply frame_trans; [| done]. eapply frame_mono; [| exact F1]. intros t Ht. apply elem_of_app. by right.
Qed.

Lemma buf_rep_empty h L : heap_ok h L -> buf_rep h SliceBuffer_new L [].
Proof.
  intros Hok. pose proof SIZE_MAX_ge_u32. unfold UINT32_MAX in *.
  split; cbn; [done | by apply Forall2_nil | by apply Forall_nil_2 | done | rewrite zlen_nil; lia].
Qed.

Lemma ClearBuffer_ok h b L c :
  buf_rep h b L c ->
  exists h', ClearBuffer h b = Some (SliceBuffer_new, h') /\
    buf_rep h' SliceBuffer_new L [] /\ frame h h' L.
Proof.
  intros HR. unfold ClearBuffer. destruct (destroy_all_ok _ _ _ (rep_heap _ _ _ _ HR)) as (h' & -> & Hok & F).
  exists h'. split; [done |]. split; [by apply buf_rep_empty | done].
Qed.

Lemma PopFront_ok h b L v c :
  buf_rep h b L (v :: c) ->
  exists b' h', PopFront h b = Some (b', h') /\ buf_rep h' b' L c /\ frame h h' L.
Proof.
  intros HR. unfold PopFront. destruct b as [len [| s ds]]; cbn.
  { pose proof (rep_cells _ _ _ _ HR) as HF. inversion HF. }
  destruct (buf_rep_tail _ _ _ _ _ _ _ HR) as (h' & -> & F & Hsz & HR'). cbn. rewrite Hsz.
  eexists _, _. split; [done |]. split; [done |].
  eapply frame_mono; [| exact F]. intros t Ht. apply elem_of_app. by right.
Qed.

Lemma PopBack_ok h b L v c :
  buf_rep h b L (c ++ [v]) ->
  exists b' h', PopBack h b = Some (b', h') /\ buf_rep h' b' L c /\ frame h h' L.
Proof.
  intros HR. destruct b as [len ds]. destruct HR as [Hok HF Hck Hlen Hf]. cbn in *.
  apply Forall2_app_inv_r in HF as (ds' & k & HF' & Hv & ->).
  inversion Hv as [| s ? ? ? Hs Hnil]; subst. inversion Hnil; subst.
  unfold PopBack. cbn [ds_]. rewrite last_snoc.
  assert (HP : (ds' ++ [s]) ++ L ≡ₚ s :: ds' ++ L) by (rewrite <- app_assoc; symmetry; apply Permutation_middle).
  assert (Hsz : Slice_size s = zlen v).
  { eapply cells_size; [eapply heap_ok_slice; [exact Hok | rewrite HP; left] | done]. }
  destruct (Slice_destroy_ok h s (ds' ++ L)) as (h' & -> & Hok' & F'); [by eapply heap_ok_perm |]. cbn.
  rewrite length_app, Nat.add_sub, take_app_le, take_ge by (cbn; lia).
  assert (Hb : chunks_bytes (c ++ [v]) = chunks_bytes c ++ v).
  { unfold chunks_bytes. rewrite concat_app. cbn. by rewrite app_nil_r. }
  rewrite Hb, zlen_app in *. eexists _, _. split; [done |]. split.
  - split; cbn; [done | | | | zlia].
    + eapply Forall2_frame; [| done]. eapply frame_mono; [| exact F']. intros t Ht. apply elem_of_app. by left.
    + by apply list.Forall_app in Hck as [? _].
    + rewrite Hsz, Z.add_simpl_r. apply usize_small. zlia.
  - eapply frame_mono; [| exact F']. intros t Ht. apply elem_of_app. by right.
Qed.

End Refinement.

(** ** Programs over one buffer *)

Inductive buf_op :=
| BAdd (p : list byte)
| BMoveHeader (n : Z)
| BCopyToBuffer (n : Z)
| BGetHeader (n : Z)
| BMerge
| BMergeFront (n : Z)
| BClear
| BPopFront
| BPopBack.

Inductive buf_out := OutBool (b : bool) | OutBytes (v : list cell) | OutNone.

Section BufferPrograms.
Context `{SizeT}.

(** The caller reads the slice it was returned and drops it. *)
Definition read_and_drop (r : option (Slice * heap)) : option (list cell * heap) :=
  '(s, h) ← r;
  v ← Slice_cells h s;
  h' ← Slice_destroy h s;
  Some (v, h').

Definition buf_step (st : heap * SliceBuffer) (op : buf_op) : option (buf_out * (heap * SliceBuffer)) :=
  let '(h, b) := st in
  let read r := '(v, h') ← read_and_drop r; Some (OutBytes v, (h', b)) in
  match op with
  | BAdd p =>
      '(s, h1) ← Slice_new h (Some p) (zlen p);
      '(b', h2) ← AddSlice h1 b s;
      h3 ← Slice_destroy h2 s;
      Some (OutNone, (h3, b'))
  | BMoveHeader n => '(r, b', h') ← MoveHeader h b n; Some (OutBool r, (h', b'))
  | BCopyToBuffer n => v ← CopyToBuffer h b n; Some (OutBytes v, (h, b))
  | BGetHeader n => read (GetHeader h b n)
  | BMerge => read (Merge h b)
  | BMergeFront n => read (MergeFront h b n)
  | BClear => '(b', h') ← ClearBuffer h b; Some (OutNone, (h', b'))
  | BPopFront => '(b', h') ← PopFront h b; Some (OutNone, (h', b'))
  | BPopBack => '(b', h') ← PopBack h b; Some (OutNone, (h', b'))
  end.

(** The same program on chunks; [None] when the caller breaks a precondition or
    the buffer would outgrow the address space or the reference counter. *)
Definition chunks_fit (c : Chunks cell) : bool :=
  (zlen (chunks_bytes c) <=? SIZE_MAX - sizeof_SliceRefCount) && (zlen c + 3 <=? INT32_MAX).

Definition chunks_step (c : Chunks cell) (op : buf_op) : option (buf_out * Chunks cell) :=
  let total := zlen (chunks_bytes c) in
  match op with
  | BAdd p =>
      let c' := chunks_add c (Some <$> p) in
      if chunks_fit c' then Some (OutNone, c') else None
  | BMoveHeader n =>
      if n <? 0 then None
      else Some (OutBool (n <=? total), if n <=? total then chunks_drop n c else c)
  | BCopyToBuffer n =>
      if (n <? 0) || (total <? n) then None else Some (OutBytes (ztake n (chunks_bytes c)), c)
  | BGetHeader n =>
      if n <? 0 then None
      else Some (OutBytes (if n <=? total then ztake n (chunks_bytes c) else []), c)
  | BMerge => Some (OutBytes (chunks_bytes c), c)
  | BMergeFront n => if n <? 0 then None else Some (OutBytes (concat (ztake n c)), c)
  | BClear => Some (OutNone, [])
  | BPopFront => match c with [] => None | _ :: c' => Some (OutNone, c') end
  | BPopBack => match c with [] => None | _ => Some (OutNone, take (length c - 1) c) end
  end.

Lemma buf_rep_zlen h b L c : buf_rep h b L c -> zlen (ds_ b) = zlen c.
Proof. intros HR. unfold zlen. by rewrite (Forall2_length (rep_cells _ _ _ _ HR)). Qed.

Lemma read_and_drop_ok h b c v r :
  buf_rep h b [] c -> new_slice h b [] v r ->
  exists h', read_and_drop r = Some (v, h') /\ buf_rep h' b [] c.
Proof.
  intros HR (s & h1 & -> & Hok & F & Hc). unfold read_and_drop. cbn. rewrite Hc. cbn.
  assert (HP : ds_ b ++ [s] ≡ₚ s :: ds_ b ++ []) by (symmetry; apply Permutation_middle).
  destruct (Slice_destroy_ok h1 s (ds_ b ++ [])) as (h2 & -> & Hok2 & F2); [by eapply heap_ok_perm |].
  cbn. eexists. split; [done |]. eapply buf_rep_frame; [done | by eapply frame_trans | done].
Qed.

Lemma chunks_fit_spec c :
  chunks_fit c = true <->
  zlen (chunks_bytes c) <= SIZE_MAX - sizeof_SliceRefCount /\ zlen c + 3 <= INT32_MAX.
Proof. unfold chunks_fit. by rewrite andb_true_iff, !Z.leb_le. Qed.

Lemma chunks_fit_nil : chunks_fit [] = true.
Proof.
  apply chunks_fit_spec. pose proof SIZE_MAX_ge_u32. change (zlen (chunks_bytes (@nil (list cell)))) with 0.
  change (zlen (@nil (list cell))) with 0. unfold UINT32_MAX, sizeof_SliceRefCount, INT32_MAX in *. lia.
Qed.

Lemma zlen_chunks_add_le {A} (c : Chunks A) v : zlen c <= zlen (chunks_add c v).
Proof. destruct v; cbn; [lia | zlia]. Qed.

(** A temporary slice is built from [p], appended and destroyed. *)
Lemma buf_add_ok h b c p :
  buf_rep h b [] c -> chunks_fit (chunks_add c (Some <$> p)) = true ->
  exists st', buf_step (h, b) (BAdd p) = Some (OutNone, st') /\
    buf_rep st'.1 st'.2 [] (chunks_add c (Some <$> p)).
Proof.
  intros HR Hfit. apply chunks_fit_spec in Hfit as [Hb Hn]. rewrite chunks_add_bytes, zlen_app in Hb.
  pose proof (zlen_chunks_add_le c (Some <$> p)). pose proof (buf_rep_zlen _ _ _ _ HR) as Hz.
  assert (Hp : zlen (Some <$> p) = zlen p) by (unfold zlen; by rewrite length_fmap).
  unfold sizeof_SliceRefCount in *.
  destruct (Slice_new_ok h p (ds_ b ++ [])) as (s & h1 & Hnew & Hok1 & F1 & Hc1);
    [apply HR | zlia | unfold sizeof_SliceRefCount; zlia |].
  assert (HR1 : buf_rep h1 b [s] c).
  { eapply buf_rep_frame; [done | done |]. eapply heap_ok_perm; [| exact Hok1]. apply Permutation_middle. }
  destruct (AddSlice_ok h1 b [s] c s (Some <$> p)) as (b' & h2 & Hadd & HR2 & F2);
    [done | apply elem_of_app; right; left | done | zlia | zlia |].
  destruct (Slice_destroy_ok h2 s (ds_ b' ++ [])) as (h3 & Hd & Hok3 & F3).
  { eapply heap_ok_perm; [symmetry; apply Permutation_middle | apply HR2]. }
  eexists. cbn [buf_step]. rewrite Hnew. cbn. rewrite Hadd. cbn. rewrite Hd. cbn. split; [done |]. cbn.
  destruct HR2 as [_ HF Hck Hlen Hf]. split; [done | | done | done | done].
  eapply Forall2_frame; [| done]. by rewrite app_nil_r in F3.
Qed.

Lemma chunks_drop_zlen {A} n (c : Chunks A) : zlen (chunks_drop n c) <= zlen c.
Proof.
  revert n. induction c as [| v c IH]; intros n; cbn; [done |].
  destruct (n =? 0); [done |]. destruct (n <? zlen v); [zlia |]. specialize (IH (n - zlen v)). zlia.
Qed.

Lemma chunks_step_fit c op out c' :
  chunks_fit c = true -> chunks_step c op = Some (out, c') -> chunks_fit c' = true.
Proof.
  intros Hfit Hs. destruct op; cbn [chunks_step] in Hs; repeat case_match; simplify_eq; try done.
  - apply chunks_fit_spec in Hfit as [Hb Hn]. zbool. pose proof (chunks_drop_zlen n c).
    apply chunks_fit_spec. rewrite chunks_drop_bytes, zlen_zdrop by lia. lia.
  - apply chunks_fit_nil.
  - apply chunks_fit_spec in Hfit as [Hb Hn]. apply chunks_fit_spec.
    unfold chunks_bytes in *. cbn [concat] in *. zlia.
  - match goal with |- chunks_fit (take ?n ?k) = _ => set (m := n); set (d := k) in * end.
    apply chunks_fit_spec in Hfit as [Hb Hn]. apply chunks_fit_spec. unfold chunks_bytes in *.
    pose proof (concat_take_le m d). split; [lia |]. unfold zlen in *. rewrite length_take. lia.
Qed.

Lemma buf_step_refines h b c op out c' :
  buf_rep h b [] c -> chunks_fit c = true -> chunks_step c op = Some (out, c') ->
  exists st', buf_step (h, b) op = Some (out, st') /\ buf_rep st'.1 st'.2 [] c'.
Proof.
  intros HR Hfit Hs. pose proof (buf_rep_zlen _ _ _ _ HR) as Hz.
  pose proof (proj1 (chunks_fit_spec c) Hfit) as [Hb Hn].
  assert (Hcnt : zlen (ds_ b ++ []) + 1 <= INT32_MAX) by zlia.
  assert (Hread : forall v r, new_slice h b [] v r ->
    exists st', ('(v, h') ← read_and_drop r; Some (OutBytes v, (h', b))) = Some (OutBytes v, st') /\
                buf_rep st'.1 st'.2 [] c).
  { intros v r Hr. destruct (read_and_drop_ok _ _ _ _ _ HR Hr) as (h' & -> & HR'). by eexists. }
  destruct op as [p | n | n | n | | n | | |]; cbn [chunks_step buf_step] in *.
  - destruct (chunks_fit (chunks_add c _)) eqn:E; simplify_eq. by apply buf_add_ok.
  - destruct (Z.ltb_spec n 0); simplify_eq.
    destruct (MoveHeader_ok h b [] c n HR ltac:(lia)) as (b' & h' & -> & HR' & _). by eexists.
  - destruct (Z.ltb_spec n 0), (Z.ltb_spec (zlen (chunks_bytes c)) n); try done. injection Hs as <- <-.
    rewrite (CopyToBuffer_ok h b [] c n HR) by lia. by eexists.
  - destruct (Z.ltb_spec n 0); [done |]. injection Hs as <- <-. by apply Hread, GetHeader_ok.
  - injection Hs as <- <-. by apply Hread, Merge_ok.
  - destruct (Z.ltb_spec n 0); [done |]. injection Hs as <- <-. by apply Hread, MergeFront_ok.
  - simplify_eq. destruct (ClearBuffer_ok _ _ _ _ HR) as (h' & -> & HR' & _). by eexists.
  - destruct c as [| v c]; simplify_eq.
    destruct (PopFront_ok _ _ _ _ _ HR) as (b' & h' & -> & HR' & _). by eexists.
  - destruct c as [| v c] using rev_ind; [done |]. clear IHc.
    assert (c' = c /\ out = OutNone) as [-> ->].
    { rewrite length_app, Nat.add_sub, take_app_le, take_ge in Hs by (cbn; lia). by destruct c; simplify_eq/=. }
    destruct (PopBack_ok _ _ _ _ _ HR) as (b' & h' & -> & HR' & _). by eexists.
Qed.

Fixpoint run_outs {S} (step : S -> buf_op -> option (buf_out * S)) (st : S) (ops : list buf_op)
    : option (list buf_out * S) :=
  match ops with
  | [] => Some ([], st)
  | op :: ops' =>
      '(o, st') ← step st op;
      '(os, st'') ← run_outs step st' ops';
      Some (o :: os, st'')
  end.

Lemma buf_run_refines ops : forall h b c outs c',
  buf_rep h b [] c -> chunks_fit c = true -> run_outs chunks_step c ops = Some (outs, c') ->
  exists st', run_outs buf_step (h, b) ops = Some (outs, st') /\ buf_rep st'.1 st'.2 [] c'.
Proof.
  induction ops as [| op ops IH]; intros h b c outs c' HR Hfit Hrun; cbn [run_outs] in *.
  { simplify_eq. by eexists. }
  destruct (chunks_step c op) as [[o c1] |] eqn:E; [| done]. cbn in Hrun.
  destruct (run_outs chunks_step c1 ops) as [[os c2] |] eqn:E2; [| done]. injection Hrun as <- <-.
  destruct (buf_step_refines _ _ _ _ _ _ HR Hfit E) as ([h1 b1] & -> & HR1). cbn.
  destruct (IH h1 b1 c1 os c2 HR1 ltac:(by eapply chunks_step_fit) E2) as (st' & -> & HR'). by eexists.
Qed.

(** C5: A buffer is a queue of byte strings: every program of appends, header moves,
    copies, merges and pops runs without touching freed or foreign memory, returns
    what the same program returns on plain byte strings, and destroying the buffer
    afterwards frees every block. *)
Theorem slice_buffer_refines (ops : list buf_op) (outs : list buf_out) (c : Chunks cell) :
  run_outs chunks_step [] ops = Some (outs, c) ->
  exists h b h', run_outs buf_step (∅, SliceBuffer_new) ops = Some (outs, (h, b)) /\
    CopyToBuffer h b (GetBufferLength b) = Some (chunks_bytes c) /\
    destroy_all h (ds_ b) = Some h' /\ h' = ∅.
Proof.
  intros Hrun. destruct (buf_run_refines ops ∅ SliceBuffer_new [] outs c) as ([h b] & Hr & HR); [| | done |].
  - apply buf_rep_empty. split; [done | constructor | done].
  - apply chunks_fit_nil.
  - destruct (destroy_all_ok _ _ _ (rep_heap _ _ _ _ HR)) as (h' & Hd & Hok & _).
    cbn [fst snd] in *. exists h, b, h'. split; [done |]. split; [| by split; [| apply heap_ok_nil]].
    unfold GetBufferLength. rewrite (rep_length _ _ _ _ HR).
    erewrite CopyToBuffer_ok; [| done | split; [zlia | done]]. by rewrite ztake_all by done.
Qed.

End BufferPrograms.

Lemma slice_buffer_refines_witness :
  exists h b h', run_outs buf_step (∅, SliceBuffer_new) [BAdd [x61; x62]; BAdd [x63]; BMoveHeader 1; BMerge] =
      Some ([OutNone; OutNone; OutBool true; OutBytes [Some x62; Some x63]], (h, b)) /\
    destroy_all h (ds_ b) = Some h' /\ h' = ∅.
Proof.
  destruct (slice_buffer_refines [BAdd [x61; x62]; BAdd [x63]; BMoveHeader 1; BMerge]
    [OutNone; OutNone; OutBool true; OutBytes [Some x62; Some x63]] [[Some x62]; [Some x63]])
    as (h & b & h' & H1 & _ & H2 & H3); [vm_compute; reflexivity |].
  exists h, b, h'. split; [exact H1 | split; [exact H2 | exact H3]].
Defined.
