(* ===== verification/Mpscq.v ===== *)
(** * The multi-producer single-consumer queue

    [src/utils/mpscq.h], [src/utils/mpscq.cc]. Every atomic load, store or
    exchange of [push] and [PopAndCheckEnd] is one step, and the steps of any
    number of producers and of the one consumer interleave freely; [oldest_] is
    private to the consumer. The interleaving is sequentially consistent: the
    memory orders of the source are not modelled further.

    Nodes live in a memory that maps an allocated node to its [next] field. A
    producer allocates the node it pushes, and the memory of a node is released
    in the step in which [PopAndCheckEnd] returns it, the earliest moment the
    consumer can delete it. A step that touches a node outside the memory has no
    result: it is a use after free. *)

From S2P Require Import Prelude.

Abbreviation node := nat.
Abbreviation tid := nat.

(** [&stub_]. *)
Definition stub : node := 0%nat.

(** Where a thread is inside [push(node)]: before the store of [nullptr], before
    the exchange, before the store of [prev->next]. *)
Inductive push_pc :=
| PStore (n : node)
| PExchange (n : node)
| PLink (n prev : node).

(** Where the consumer is inside [PopAndCheckEnd]. *)
Inductive pop_pc :=
| CLoadNext                      (* obj = oldest_->next, also the entry *)
| CLoadSecond (tail : node)      (* obj = tail->next, behind the stub *)
| CLoadNewest (tail : node)      (* head = newest_ *)
| CStubStore (tail : node)       (* push(&stub_): three steps *)
| CStubExchange (tail : node)
| CStubLink (tail prev : node)
| CReload (tail : node).         (* obj = tail->next, after the push *)

(** What the callers observe, with the moment a push takes effect. *)
Inductive event :=
| EvPush (n : node)
| EvPushed (t : tid) (n : node) (first : bool)
| EvPop (n : node)
| EvEmpty
| EvRetry.

Record mpscq := Mpscq {
  mem : gmap node (option node);
  newest_ : node;
  oldest_ : node;
  prods : gmap tid push_pc;
  cons : pop_pc;
  log : list event
}.

Definition mpscq_init : mpscq :=
  {| mem := {[ stub := None ]}; newest_ := stub; oldest_ := stub;
     prods := ∅; cons := CLoadNext; log := [] |}.

(** ** Memory *)

Definition load_next (s : mpscq) (n : node) : option (option node) := mem s !! n.

Definition store_next (s : mpscq) (n : node) (v : option node) : option (gmap node (option node)) :=
  _ ← mem s !! n; Some (<[n := v]> (mem s)).

(** ** push *)

(** A thread allocates a node, whose [next] is not initialized, and calls [push]. *)
Definition push_begin (s : mpscq) (t : tid) (n : node) (garbage : option node) : mpscq :=
  {| mem := <[n := garbage]> (mem s); newest_ := newest_ s; oldest_ := oldest_ s;
     prods := <[t := PStore n]> (prods s); cons := cons s; log := log s |}.

Definition push_step (s : mpscq) (t : tid) (pc : push_pc) : option mpscq :=
  match pc with
  | PStore n =>
      m ← store_next s n None;
      Some {| mem := m; newest_ := newest_ s; oldest_ := oldest_ s;
              prods := <[t := PExchange n]> (prods s); cons := cons s; log := log s |}
  | PExchange n =>
      let prev := newest_ s in
      Some {| mem := mem s; newest_ := n; oldest_ := oldest_ s;
              prods := <[t := PLink n prev]> (prods s); cons := cons s; log := log s ++ [EvPush n] |}
  | PLink n prev =>
      m ← store_next s prev (Some n);
      Some {| mem := m; newest_ := newest_ s; oldest_ := oldest_ s;
              prods := delete t (prods s); cons := cons s;
              log := log s ++ [EvPushed t n (bool_decide (prev = stub))] |}
  end.

(** ** PopAndCheckEnd *)

(** The consumer moves on to [pc] without touching the queue. *)
Definition cons_goto (s : mpscq) (pc : pop_pc) : mpscq :=
  {| mem := mem s; newest_ := newest_ s; oldest_ := oldest_ s;
     prods := prods s; cons := pc; log := log s |}.

(** [return nullptr] with [*empty] set. *)
Definition cons_null (s : mpscq) (empty : bool) : mpscq :=
  {| mem := mem s; newest_ := newest_ s; oldest_ := oldest_ s; prods := prods s;
     cons := CLoadNext; log := log s ++ [if empty then EvEmpty else EvRetry] |}.

(** [oldest_ = obj; return tail]. *)
Definition cons_return (s : mpscq) (tail obj : node) : mpscq :=
  {| mem := delete tail (mem s); newest_ := newest_ s; oldest_ := obj; prods := prods s;
     cons := CLoadNext; log := log s ++ [EvPop tail] |}.

Definition pop_step (s : mpscq) : option mpscq :=
  match cons s with
  | CLoadNext =>
      let tail := oldest_ s in
      obj ← load_next s tail;
      if bool_decide (tail = stub) then
        match obj with
        | None => Some (cons_null s true)
        | Some o => Some {| mem := mem s; newest_ := newest_ s; oldest_ := o; prods := prods s;
                            cons := CLoadSecond o; log := log s |}
        end
      else
        match obj with
        | Some o => Some (cons_return s tail o)
        | None => Some (cons_goto s (CLoadNewest tail))
        end
  | CLoadSecond tail =>
      obj ← load_next s tail;
      match obj with
      | Some o => Some (cons_return s tail o)
      | None => Some (cons_goto s (CLoadNewest tail))
      end
  | CLoadNewest tail =>
      let head := newest_ s in
      if bool_decide (tail = head) then Some (cons_goto s (CStubStore tail))
      else Some (cons_null s false)
  | CStubStore tail =>
      m ← store_next s stub None;
      Some {| mem := m; newest_ := newest_ s; oldest_ := oldest_ s; prods := prods s;
              cons := CStubExchange tail; log := log s |}
  | CStubExchange tail =>
      let prev := newest_ s in
      Some {| mem := mem s; newest_ := stub; oldest_ := oldest_ s; prods := prods s;
              cons := CStubLink tail prev; log := log s |}
  | CStubLink tail prev =>
      m ← store_next s prev (Some stub);
      Some {| mem := m; newest_ := newest_ s; oldest_ := oldest_ s; prods := prods s;
              cons := CReload tail; log := log s |}
  | CReload tail =>
      obj ← load_next s tail;
      match obj with
      | Some o => Some (cons_return s tail o)
      | None => Some (cons_null s false)
      end
  end.

(** One step of any thread. *)
Inductive mpscq_step : mpscq -> mpscq -> Prop :=
| step_begin s t n g :
    prods s !! t = None -> mem s !! n = None -> mpscq_step s (push_begin s t n g)
| step_push s t pc s' :
    prods s !! t = Some pc -> push_step s t pc = Some s' -> mpscq_step s s'
| step_pop s s' : pop_step s = Some s' -> mpscq_step s s'.

Definition reachable (s : mpscq) : Prop := rtc mpscq_step mpscq_init s.

(** ** The specification: a FIFO of the nodes pushed so far *)

Definition pushed (l : list event) : list node :=
  omap (fun e => match e with EvPush n => Some n | _ => None end) l.
Definition popped (l : list event) : list node :=
  omap (fun e => match e with EvPop n => Some n | _ => None end) l.

Definition pc_node (pc : push_pc) : node :=
  match pc with PStore n | PExchange n | PLink n _ => n end.

Definition adjacent (c : list node) (a b : node) : Prop :=
  exists i, c !! i = Some a /\ c !! S i = Some b.

(** The thread that still has to store [a->next = b]. *)
Definition pending (s : mpscq) (a b : node) : Prop :=
  (exists t, prods s !! t = Some (PLink b a)) \/ (b = stub /\ exists tail, cons s = CStubLink tail a).

Definition link_ok (s : mpscq) (a b : node) : Prop :=
  mem s !! a = Some (Some b) \/ (mem s !! a = Some None /\ pending s a b).

(** What holds of each producer: its node is its own and not yet in the chain, or
    in the chain right behind the node it still has to link. *)
Definition prod_ok (s : mpscq) (c : list node) (pc : push_pc) : Prop :=
  match pc with
  | PStore n => (n ∉ c) /\ is_Some (mem s !! n)
  | PExchange n => (n ∉ c) /\ mem s !! n = Some None
  | PLink n prev => adjacent c prev n /\ mem s !! prev = Some None
  end /\ pc_node pc <> stub.

Definition cons_ok (s : mpscq) (c : list node) : Prop :=
  match cons s with
  | CLoadNext => True
  | CLoadSecond tail | CLoadNewest tail | CReload tail => tail = oldest_ s /\ tail <> stub
  | CStubStore tail => tail = oldest_ s /\ tail <> stub /\ (stub ∉ c)
  | CStubExchange tail => tail = oldest_ s /\ tail <> stub /\ (stub ∉ c) /\ mem s !! stub = Some None
  | CStubLink tail prev =>
      tail = oldest_ s /\ tail <> stub /\ adjacent c prev stub /\ mem s !! prev = Some None
  end.

(** The chain [c] runs from [oldest_] to [newest_]; it may have holes where a
    producer has not stored its link yet. *)
Record mpscq_inv (s : mpscq) (c : list node) : Prop := {
  inv_head : list.head c = Some (oldest_ s);
  inv_last : list.last c = Some (newest_ s);
  inv_nodup : NoDup c;
  inv_links i a b : c !! i = Some a -> c !! S i = Some b -> link_ok s a b;
  inv_newest : mem s !! newest_ s = Some None;
  inv_stub : is_Some (mem s !! stub);
  inv_prods t pc : prods s !! t = Some pc -> prod_ok s c pc;
  inv_own t1 t2 p1 p2 :
    prods s !! t1 = Some p1 -> prods s !! t2 = Some p2 -> pc_node p1 = pc_node p2 -> t1 = t2;
  inv_cons : cons_ok s c;
  inv_log : pushed (log s) = popped (log s) ++ filter (fun n => n <> stub) c
}.

(** ** Chains *)

Lemma adjacent_elem c a b : adjacent c a b -> (a ∈ c) /\ (b ∈ c).
Proof. intros (i & Ha & Hb). split; by eapply list_elem_of_lookup_2. Qed.

Lemma adjacent_snoc c a b n : adjacent c a b -> adjacent (c ++ [n]) a b.
Proof. intros (i & Ha & Hb). exists i. by rewrite !lookup_app_l by (by eapply lookup_lt_Some). Qed.

Lemma adjacent_last c a n : list.last c = Some a -> adjacent (c ++ [n]) a n.
Proof.
  rewrite last_lookup. intros Ha. exists (pred (length c)).
  assert (pred (length c) < length c)%nat by (by eapply lookup_lt_Some).
  rewrite lookup_app_l by done. split; [done |].
  rewrite lookup_app_r by lia. by replace (S _ - length c)%nat with 0%nat by lia.
Qed.

Lemma adjacent_inj_r c a b1 b2 : NoDup c -> adjacent c a b1 -> adjacent c a b2 -> b1 = b2.
Proof.
  intros Hn (i & Ha & Hb) (j & Ha' & Hb'). assert (i = j) as <- by (by eapply NoDup_lookup). congruence.
Qed.

Lemma adjacent_not_last c a b : NoDup c -> adjacent c a b -> list.last c <> Some a.
Proof.
  intros Hn (i & Ha & Hb). rewrite last_lookup. intros Hl.
  assert (i = pred (length c)) as -> by (by eapply NoDup_lookup).
  apply lookup_lt_Some in Hb. lia.
Qed.

(** The last link of an extended chain is the new one. *)
Lemma snoc_links (P : node -> node -> Prop) c n l :
  list.last c = Some l -> (forall i a b, c !! i = Some a -> c !! S i = Some b -> P a b) -> P l n ->
  forall i a b, (c ++ [n]) !! i = Some a -> (c ++ [n]) !! S i = Some b -> P a b.
Proof.
  rewrite last_lookup. intros Hl HP Hln i a b Ha Hb.
  apply lookup_app_Some in Hb as [Hb | [Hge Hb]].
  - rewrite lookup_app_l in Ha by (apply lookup_lt_Some in Hb; lia). by eapply HP.
  - apply list_lookup_singleton_Some in Hb as [Hi <-].
    rewrite lookup_app_l in Ha by (apply lookup_lt_Some in Hl; lia).
    replace i with (pred (length c)) in Ha by lia. congruence.
Qed.

Lemma head_last_singleton (c : list node) x : NoDup c -> list.head c = Some x -> list.last c = Some x -> c = [x].
Proof.
  intros Hn Hh Hl. destruct c as [| y c]; simplify_eq/=. destruct c as [| z c]; [done |].
  rewrite last_lookup in Hl. assert (0%nat = pred (length (x :: z :: c))) by (by eapply NoDup_lookup).
  cbn in *. lia.
Qed.

(** ** Consequences of the invariant *)

Lemma inv_chain_mem s c n : mpscq_inv s c -> n ∈ c -> is_Some (mem s !! n).
Proof.
  intros HI [i Hi]%list_elem_of_lookup_1. destruct (c !! S i) as [b |] eqn:E.
  - destruct (inv_links _ _ HI _ _ _ Hi E) as [-> | [-> _]]; by eexists.
  - pose proof (inv_last _ _ HI) as Hl. rewrite last_lookup in Hl. apply lookup_ge_None in E.
    assert (i = pred (length c)) as -> by (apply lookup_lt_Some in Hi; lia). simplify_eq.
    rewrite (inv_newest _ _ HI). by eexists.
Qed.

Lemma inv_newest_in s c : mpscq_inv s c -> newest_ s ∈ c.
Proof. intros HI. by eapply last_Some_elem_of, inv_last. Qed.

Lemma inv_oldest_in s c : mpscq_inv s c -> oldest_ s ∈ c.
Proof. intros HI. by eapply head_Some_elem_of, inv_head. Qed.

Lemma inv_prod_mem s c t pc : mpscq_inv s c -> prods s !! t = Some pc -> is_Some (mem s !! pc_node pc).
Proof.
  intros HI Hpc. pose proof (inv_prods _ _ HI _ _ Hpc) as [Hok _]. destruct pc as [n | n | n prev]; cbn.
  - by destruct Hok.
  - destruct Hok as [_ ->]. by eexists.
  - destruct Hok as [Hadj _]. eapply inv_chain_mem; [done |]. by apply adjacent_elem in Hadj as [_ ?].
Qed.

Lemma link_ok_mono s s' a b :
  mem s' !! a = mem s !! a -> (pending s a b -> pending s' a b) -> link_ok s a b -> link_ok s' a b.
Proof. unfold link_ok. intros -> Hp [? | [? ?]]; [by left | right; auto]. Qed.

Lemma pushed_app l k : pushed (l ++ k) = pushed l ++ pushed k.
Proof. apply omap_app. Qed.
Lemma popped_app l k : popped (l ++ k) = popped l ++ popped k.
Proof. apply omap_app. Qed.

(** ** Preservation: push *)

(** A thread writes the [next] field of its own node, which is outside the chain. *)
Lemma inv_prepare s c t n v pc :
  mpscq_inv s c -> n ∉ c -> n <> stub -> (forall m p, prods s !! t <> Some (PLink m p)) ->
  (forall t' p, t' <> t -> prods s !! t' = Some p -> n <> pc_node p) ->
  pc = PStore n \/ (pc = PExchange n /\ v = None) ->
  mpscq_inv {| mem := <[n := v]> (mem s); newest_ := newest_ s; oldest_ := oldest_ s;
               prods := <[t := pc]> (prods s); cons := cons s; log := log s |} c.
Proof.
  intros HI Hnc Hns Ht Hown Hpc.
  assert (Hkeep : forall a, n <> a -> <[n := v]> (mem s) !! a = mem s !! a) by (intros; by apply lookup_insert_ne).
  assert (Hc : forall a, a ∈ c -> n <> a) by (intros a Ha ->; done).
  assert (Hpcn : pc_node pc = n) by (by destruct Hpc as [-> | [-> _]]).
  split; cbn; try apply HI.
  - intros i a b Ha Hb. eapply link_ok_mono; [| | by eapply inv_links]; cbn.
    + apply Hkeep, Hc. by eapply list_elem_of_lookup_2.
    + intros [[t' Ht'] | Hp]; [left; exists t'; cbn | by right].
      rewrite lookup_insert_ne; [done | intros ->; by eapply Ht].
  - rewrite Hkeep; [apply HI |]. by apply Hc, inv_newest_in.
  - rewrite Hkeep; [apply HI | done].
  - intros t' p [[<- <-] | [? Hp]]%lookup_insert_Some.
    + split; [| by rewrite Hpcn]. destruct Hpc as [-> | [-> ->]]; cbn; rewrite lookup_insert_eq; by split.
    + destruct (inv_prods _ _ HI _ _ Hp) as [Hok Hnst]. split; [| done].
      assert (n <> pc_node p) by (by eapply Hown). destruct p as [m | m | m prev]; cbn in *.
      * by rewrite Hkeep.
      * by rewrite Hkeep.
      * rewrite Hkeep; [done |]. apply Hc. destruct Hok as [Hadj _]. by apply adjacent_elem in Hadj as [? _].
  - intros t1 t2 p1 p2 [[<- <-] | [? H1]]%lookup_insert_Some [[<- <-] | [? H2]]%lookup_insert_Some E.
    + done.
    + destruct (Hown t2 p2); [done | done | congruence].
    + destruct (Hown t1 p1); [done | done | congruence].
    + by eapply inv_own.
  - pose proof (inv_cons _ _ HI) as HC. unfold cons_ok in *. cbn in *. destruct (cons s); try done.
    + by rewrite Hkeep.
    + rewrite Hkeep; [done |]. apply Hc. destruct HC as (_ & _ & Hadj & _). by apply adjacent_elem in Hadj as [? _].
Qed.

Lemma queue_inv_begin s c t n g :
  mpscq_inv s c -> prods s !! t = None -> mem s !! n = None -> mpscq_inv (push_begin s t n g) c.
Proof.
  intros HI Ht Hn.
  assert (Hfresh : forall a, is_Some (mem s !! a) -> n <> a) by (intros a [? Ha] ->; congruence).
  apply inv_prepare; [done | | apply Hfresh, HI | congruence | | by left].
  - intros Hin. by apply (Hfresh n); [eapply inv_chain_mem |].
  - intros t' p _ Hp. by eapply Hfresh, inv_prod_mem.
Qed.

Lemma inv_store s c t n s' :
  mpscq_inv s c -> prods s !! t = Some (PStore n) -> push_step s t (PStore n) = Some s' -> mpscq_inv s' c.
Proof.
  intros HI Ht Hs. destruct (inv_prods _ _ HI _ _ Ht) as [[Hnc [v Hm]] Hnst]. cbn in Hnst.
  cbn in Hs. unfold store_next in Hs. rewrite Hm in Hs. injection Hs as <-.
  apply inv_prepare; [done | done | done | congruence | | by right].
  intros t' p Hne Hp E. by apply Hne, (inv_own _ _ HI t' t p (PStore n)).
Qed.

(** The exchange of [newest_] appends a node to the chain; the thread that made it
    owes the link. Shared by the producers and by [push(&stub_)]. *)
Lemma inv_exchange s c n prods' cons' log' :
  let s' := {| mem := mem s; newest_ := n; oldest_ := oldest_ s; prods := prods'; cons := cons'; log := log' |} in
  mpscq_inv s c -> n ∉ c -> mem s !! n = Some None ->
  (forall a b, pending s a b -> pending s' a b) -> pending s' (newest_ s) n ->
  (forall t pc, prods' !! t = Some pc -> prod_ok s (c ++ [n]) pc) ->
  (forall t1 t2 p1 p2, prods' !! t1 = Some p1 -> prods' !! t2 = Some p2 -> pc_node p1 = pc_node p2 -> t1 = t2) ->
  cons_ok s' (c ++ [n]) -> pushed log' = popped log' ++ filter (fun n => n <> stub) (c ++ [n]) ->
  mpscq_inv s' (c ++ [n]).
Proof.
  intros s' HI Hnc Hm Hpend Hnew Hprods Hown Hcons Hlog. split; cbn; try done.
  - pose proof (inv_head _ _ HI) as Hh. by destruct c.
  - apply last_snoc.
  - apply list.NoDup_app. split; [apply HI |]. split; [| apply NoDup_singleton].
    intros x Hx ->%list_elem_of_singleton. done.
  - eapply snoc_links; [apply HI | | right; split; [apply HI | done]].
    intros i a b Ha Hb. eapply link_ok_mono; [| apply Hpend | by eapply inv_links]. done.
  - apply HI.
Qed.

Lemma prod_ok_snoc s c n pc : pc_node pc <> n -> prod_ok s c pc -> prod_ok s (c ++ [n]) pc.
Proof.
  intros Hne [Hok Hnst]. split; [| done]. destruct pc as [m | m | m prev]; cbn in *;
    rewrite ?not_elem_of_app, ?list_elem_of_singleton; destruct Hok; auto using adjacent_snoc.
Qed.

Lemma inv_push_exchange s c t n s' :
  mpscq_inv s c -> prods s !! t = Some (PExchange n) -> push_step s t (PExchange n) = Some s' ->
  mpscq_inv s' (c ++ [n]).
Proof.
  intros HI Ht Hs. destruct (inv_prods _ _ HI _ _ Ht) as [[Hnc Hm] Hnst]. cbn in Hnst, Hs.
  injection Hs as <-. apply inv_exchange; [done | done | done | | | | | |].
  - intros a b [[t' Ht'] | Hp]; [left; exists t'; cbn | by right]. rewrite lookup_insert_ne; congruence.
  - left. exists t. apply lookup_insert_eq.
  - intros t' pc [[<- <-] | [? Hpc]]%lookup_insert_Some.
    + split; [| done]. split; [by apply adjacent_last, HI | apply HI].
    + apply prod_ok_snoc; [| by eapply inv_prods].
      intros E. by apply (inv_own _ _ HI t' t pc (PExchange n)) in E.
  - intros t1 t2 p1 p2 [[<- <-] | [? H1]]%lookup_insert_Some [[<- <-] | [? H2]]%lookup_insert_Some E; cbn in E.
    + done.
    + by apply (inv_own _ _ HI t t2 (PExchange n) p2).
    + by apply (inv_own _ _ HI t1 t p1 (PExchange n)).
    + by eapply inv_own.
  - pose proof (inv_cons _ _ HI) as HC. unfold cons_ok in *. cbn in *.
    destruct (cons s); rewrite ?not_elem_of_app, ?list_elem_of_singleton;
      intuition auto using adjacent_snoc.
  - rewrite pushed_app, popped_app, list.filter_app, (inv_log _ _ HI).
    rewrite filter_cons_True, filter_nil by done. cbn. by rewrite app_nil_r, app_assoc.
Qed.

(** Storing a link: the hole between [prev] and [n] closes. *)
Lemma inv_link s c prev n prods' cons' log' :
  let s' := {| mem := <[prev := Some n]> (mem s); newest_ := newest_ s; oldest_ := oldest_ s;
               prods := prods'; cons := cons'; log := log' |} in
  mpscq_inv s c -> adjacent c prev n ->
  (forall a b, a <> prev -> pending s a b -> pending s' a b) ->
  (forall t pc, prods' !! t = Some pc -> prods s !! t = Some pc) ->
  (forall t m, prods' !! t = Some (PLink m prev) -> False) ->
  cons_ok s' c -> pushed log' = pushed (log s) -> popped log' = popped (log s) ->
  mpscq_inv s' c.
Proof.
  intros s' HI Hadj Hpend Hsub Hno Hcons Hpu Hpo.
  assert (Hkeep : forall a, prev <> a -> <[prev := Some n]> (mem s) !! a = mem s !! a)
    by (intros; by apply lookup_insert_ne).
  pose proof (inv_nodup _ _ HI) as Hnd. pose proof (adjacent_elem _ _ _ Hadj) as [Hpc _].
  subst s'. split; cbn [mem newest_ oldest_ prods cons log]; try apply HI; try done.
  - intros i a b Ha Hb. destruct (decide (a = prev)) as [-> | Hne].
    + left. cbn. rewrite lookup_insert_eq. do 2 f_equal. eapply adjacent_inj_r; [done | done | by exists i].
    + eapply link_ok_mono; [| by apply Hpend | by eapply inv_links]. cbn. by apply Hkeep.
  - rewrite Hkeep; [apply HI |]. intros E. eapply adjacent_not_last; [done | done |]. rewrite E. apply HI.
  - destruct (decide (prev = stub)) as [<- |]; [rewrite lookup_insert_eq; by eexists | rewrite Hkeep; [apply HI | done]].
  - intros t pc Hpc'. destruct (inv_prods _ _ HI t pc (Hsub _ _ Hpc')) as [Hok Hnst]. split; [| done].
    destruct pc as [m | m | m p]; cbn in *.
    + rewrite Hkeep; [done | intros ->; by destruct Hok].
    + rewrite Hkeep; [done | intros ->; by destruct Hok].
    + rewrite Hkeep; [done | intros ->; by eapply Hno].
  - intros t1 t2 p1 p2 H1 H2. eapply inv_own; [done | by apply Hsub | by apply Hsub].
  - rewrite Hpu, Hpo. apply HI.
Qed.

Lemma inv_push_link s c t n prev s' :
  mpscq_inv s c -> prods s !! t = Some (PLink n prev) -> push_step s t (PLink n prev) = Some s' ->
  mpscq_inv s' c.
Proof.
  intros HI Ht Hs. destruct (inv_prods _ _ HI _ _ Ht) as [[Hadj Hm] Hnst]. cbn in Hnst, Hs.
  unfold store_next in Hs. rewrite Hm in Hs. injection Hs as <-. pose proof (inv_nodup _ _ HI) as Hnd.
  apply inv_link; [done | done | | | | | by rewrite pushed_app, app_nil_r | by rewrite popped_app, app_nil_r].
  - intros a b Hne [[t' Ht'] | Hp]; [left; exists t'; cbn | by right]. rewrite lookup_delete_ne; congruence.
  - by intros t' pc [_ ?]%lookup_delete_Some.
  - intros t' m [Hne Hp]%lookup_delete_Some. apply Hne.
    destruct (inv_prods _ _ HI _ _ Hp) as [[Hadj' _] _].
    eapply (inv_own _ _ HI); [done | done |]. cbn. by eapply adjacent_inj_r.
  - pose proof (inv_cons _ _ HI) as HC. unfold cons_ok in *. cbn in *. destruct (cons s) as [| | | | | tl p |]; try done.
    + rewrite lookup_insert_ne; [done |]. intros ->. apply adjacent_elem in Hadj. tauto.
    + rewrite lookup_insert_ne; [done |]. intros ->. destruct HC as (_ & _ & Hadj' & _).
      apply Hnst. by eapply adjacent_inj_r.
Qed.

(** ** Preservation: PopAndCheckEnd *)

(** The consumer changes nothing but its own position. *)
Lemma inv_goto s c pc log' :
  mpscq_inv s c -> (forall tl p, cons s <> CStubLink tl p) ->
  cons_ok (cons_goto s pc) c -> pushed log' = pushed (log s) -> popped log' = popped (log s) ->
  mpscq_inv {| mem := mem s; newest_ := newest_ s; oldest_ := oldest_ s; prods := prods s;
               cons := pc; log := log' |} c.
Proof.
  intros HI Hno Hok Hpu Hpo. split; cbn [mem newest_ oldest_ prods cons log]; try apply HI; try done.
  - intros i a b Ha Hb. eapply link_ok_mono; [| | by eapply inv_links]; [done |].
    intros [Hp | [_ [tl Hp]]]; [by left | by apply Hno in Hp].
  - rewrite Hpu, Hpo. apply HI.
Qed.

Lemma inv_null s c e : mpscq_inv s c -> (forall tl p, cons s <> CStubLink tl p) -> mpscq_inv (cons_null s e) c.
Proof.
  intros HI Hno. apply inv_goto; [done | done | done | |];
    rewrite ?pushed_app, ?popped_app; destruct e; by rewrite app_nil_r.
Qed.

(** The consumer moves over the first node of the chain, whose link is stored; the
    memory of that node may go away. *)
Lemma inv_advance s tail o rest m' pc' log' :
  mpscq_inv s (tail :: rest) -> mem s !! tail = Some (Some o) ->
  (forall a, a <> tail -> m' !! a = mem s !! a) -> is_Some (m' !! stub) ->
  (forall tl p, cons s <> CStubLink tl p) -> pc' = CLoadNext \/ (pc' = CLoadSecond o /\ o <> stub) ->
  pushed log' = popped log' ++ filter (fun n => n <> stub) rest ->
  mpscq_inv {| mem := m'; newest_ := newest_ s; oldest_ := o; prods := prods s; cons := pc'; log := log' |} rest.
Proof.
  intros HI Ho Hkeep Hst Hno Hpc Hlog. pose proof (inv_nodup _ _ HI) as [Hnin Hnd]%list.NoDup_cons.
  assert (Hr : forall a, a ∈ rest -> m' !! a = mem s !! a) by (intros a Ha; apply Hkeep; intros ->; done).
  assert (exists rest', rest = o :: rest') as [rest' Er].
  { destruct rest as [| b rest'].
    - pose proof (inv_last _ _ HI) as Hl. pose proof (inv_newest _ _ HI). cbn in Hl. simplify_eq.
    - destruct (inv_links _ _ HI 0%nat tail b eq_refl eq_refl) as [? | [? _]]; simplify_eq. by eexists. }
  assert (Hlast : list.last rest = Some (newest_ s)) by (rewrite <- (inv_last _ _ HI); by rewrite Er).
  split; cbn [mem newest_ oldest_ prods cons log]; try done.
  - by rewrite Er.
  - intros i a b Ha Hb. eapply link_ok_mono; [| | by eapply (inv_links _ _ HI (S i))]; cbn.
    + apply Hr. by eapply list_elem_of_lookup_2.
    + intros [Hp | [_ [tl Hp]]]; [by left | by apply Hno in Hp].
  - rewrite Hr; [apply HI |]. by eapply last_Some_elem_of.
  - intros t pc Hp. destruct (inv_prods _ _ HI _ _ Hp) as [Hok Hnst]. split; [| done].
    destruct pc as [m | m | m prev]; cbn in *; destruct Hok as [Hin Hm].
    + apply not_elem_of_cons in Hin as [? ?]. rewrite Hkeep by done. by split.
    + apply not_elem_of_cons in Hin as [? ?]. rewrite Hkeep by done. by split.
    + assert (prev <> tail) by (intros ->; congruence). rewrite Hkeep by done. split; [| done].
      destruct Hin as ([| i] & Ha & Hb); [by simplify_eq/= | by exists i].
  - apply HI.
  - unfold cons_ok. cbn. by destruct Hpc as [-> | [-> ?]].
Qed.

Lemma inv_return s c tail o :
  mpscq_inv s c -> tail = oldest_ s -> tail <> stub -> mem s !! tail = Some (Some o) ->
  (forall tl p, cons s <> CStubLink tl p) -> exists c', mpscq_inv (cons_return s tail o) c'.
Proof.
  intros HI -> Hst Ho Hno. pose proof (inv_head _ _ HI) as Hh. destruct c as [| x rest]; simplify_eq/=.
  exists rest. eapply inv_advance; [done | done | | | done | by left |].
  - intros a Ha. by apply lookup_delete_ne.
  - rewrite lookup_delete_ne by done. apply HI.
  - rewrite pushed_app, popped_app, (inv_log _ _ HI), filter_cons_True by done. cbn.
    by rewrite app_nil_r, <- app_assoc.
Qed.

Lemma inv_stub_exchange s c tail s' :
  mpscq_inv s c -> cons s = CStubExchange tail -> pop_step s = Some s' -> mpscq_inv s' (c ++ [stub]).
Proof.
  intros HI Hc Hs. unfold pop_step in Hs. rewrite Hc in Hs. injection Hs as <-.
  pose proof (inv_cons _ _ HI) as HC. unfold cons_ok in HC. rewrite Hc in HC. destruct HC as (Ht & Hts & Hnc & Hm).
  apply inv_exchange; [done | done | done | | | | | |].
  - intros a b [Hp | [_ [tl Hp]]]; [by left | congruence].
  - right. split; [done | by eexists].
  - intros t pc Hp. pose proof (inv_prods _ _ HI _ _ Hp) as Hok. apply prod_ok_snoc; [apply Hok | done].
  - apply HI.
  - split; [done |]. split; [done |]. split; [by apply adjacent_last, HI | apply HI].
  - rewrite list.filter_app, (inv_log _ _ HI), filter_cons_False, filter_nil by auto. by rewrite app_nil_r.
Qed.

Lemma inv_stub_link s c tail prev s' :
  mpscq_inv s c -> cons s = CStubLink tail prev -> pop_step s = Some s' -> mpscq_inv s' c.
Proof.
  intros HI Hc Hs. pose proof (inv_cons _ _ HI) as HC. unfold cons_ok in HC. rewrite Hc in HC.
  destruct HC as (Ht & Hts & Hadj & Hm). unfold pop_step, store_next in Hs. rewrite Hc, Hm in Hs. injection Hs as <-.
  apply inv_link; [done | done | | done | | done | done | done].
  - intros a b Hne [Hp | [_ [tl Hp]]]; [by left | congruence].
  - intros t m Hp. destruct (inv_prods _ _ HI _ _ Hp) as [[Hadj' _] Hns]. cbn in Hns.
    apply Hns. eapply adjacent_inj_r; [apply HI | done | done].
Qed.

Lemma inv_stub_store s c tail s' :
  mpscq_inv s c -> cons s = CStubStore tail -> pop_step s = Some s' -> mpscq_inv s' c.
Proof.
  intros HI Hc Hs. pose proof (inv_cons _ _ HI) as HC. unfold cons_ok in HC. rewrite Hc in HC.
  destruct HC as (Ht & Hts & Hnc). destruct (inv_stub _ _ HI) as [v Hv].
  unfold pop_step, store_next in Hs. rewrite Hc, Hv in Hs. injection Hs as <-.
  assert (Hkeep : forall a, stub <> a -> <[stub := None]> (mem s) !! a = mem s !! a) by (intros; by apply lookup_insert_ne).
  assert (Hin : forall a, a ∈ c -> stub <> a) by (intros a Ha <-; done).
  split; cbn [mem newest_ oldest_ prods cons log]; try apply HI.
  - intros i a b Ha Hb. eapply link_ok_mono; [| | by eapply inv_links].
    + cbn. apply Hkeep, Hin. by eapply list_elem_of_lookup_2.
    + intros [Hp | [_ [tl Hp]]]; [by left | congruence].
  - rewrite Hkeep; [apply HI |]. by apply Hin, inv_newest_in.
  - rewrite lookup_insert_eq. by eexists.
  - intros t pc Hp. destruct (inv_prods _ _ HI _ _ Hp) as [Hok Hns]. split; [| done].
    destruct pc as [m | m | m prev]; cbn in *; rewrite Hkeep; try done.
    apply Hin. destruct Hok as [Hadj _]. by apply adjacent_elem in Hadj as [? _].
  - unfold cons_ok. cbn. rewrite lookup_insert_eq. done.
Qed.

Lemma inv_pop s c s' : mpscq_inv s c -> pop_step s = Some s' -> exists c', mpscq_inv s' c'.
Proof.
  intros HI Hs. pose proof (inv_cons _ _ HI) as HC. pose proof Hs as Hs'. unfold pop_step, load_next in Hs'.
  unfold cons_ok in HC.
  destruct (cons s) as [| tail | tail | tail | tail | tail prev | tail] eqn:Ec.
  - destruct (mem s !! oldest_ s) as [obj |] eqn:Eo; [| done]. cbn in Hs'.
    case_bool_decide as Est; destruct obj as [o |]; simplify_eq.
    + pose proof (inv_head _ _ HI) as Hh. pose proof (inv_nodup _ _ HI) as Hnd.
      destruct c as [| x rest]; [done |]. cbn in Hh. injection Hh as ->.
      exists rest. eapply inv_advance; [done | done | done | apply HI | by rewrite Ec | |].
      * right. split; [done |]. destruct rest as [| b rest].
        -- pose proof (inv_last _ _ HI) as Hl. pose proof (inv_newest _ _ HI). cbn in Hl. congruence.
        -- destruct (inv_links _ _ HI 0%nat (oldest_ s) b eq_refl eq_refl) as [? | [? _]]; simplify_eq.
           intros ->. rewrite Est in Hnd. apply list.NoDup_cons in Hnd as [Hn _]. apply Hn. left.
      * rewrite (inv_log _ _ HI), filter_cons_False by (rewrite Est; auto). done.
    + exists c. apply inv_null; [done | by rewrite Ec].
    + by eapply inv_return; [| | | | rewrite Ec].
    + exists c. apply inv_goto; [done | by rewrite Ec | done | done | done].
  - destruct HC as [Ht Hts]. destruct (mem s !! tail) as [[o |] |] eqn:Eo; simplify_eq/=.
    + by eapply inv_return; [| | | | rewrite Ec].
    + exists c. apply inv_goto; [done | by rewrite Ec | done | done | done].
  - destruct HC as [Ht Hts]. case_bool_decide as En; simplify_eq.
    + exists c. apply inv_goto; [done | by rewrite Ec | | done | done].
      split; [done |]. split; [done |]. rewrite (head_last_singleton c (newest_ s)).
      * rewrite list_elem_of_singleton. congruence.
      * apply HI.
      * rewrite <- En. apply HI.
      * apply HI.
    + exists c. apply inv_null; [done | by rewrite Ec].
  - exists c. by eapply inv_stub_store.
  - exists (c ++ [stub]). by eapply inv_stub_exchange.
  - exists c. by eapply inv_stub_link.
  - destruct HC as [Ht Hts]. destruct (mem s !! tail) as [[o |] |] eqn:Eo; simplify_eq/=.
    + by eapply inv_return; [| | | | rewrite Ec].
    + exists c. apply inv_null; [done | by rewrite Ec].
Qed.

Lemma inv_step s c s' : mpscq_inv s c -> mpscq_step s s' -> exists c', mpscq_inv s' c'.
Proof.
  intros HI Hs. destruct Hs as [s t n g Ht Hn | s t pc s' Ht Hs | s s' Hs].
  - exists c. by apply queue_inv_begin.
  - destruct pc as [n | n | n prev].
    + exists c. by eapply inv_store.
    + exists (c ++ [n]). by eapply inv_push_exchange.
    + exists c. by eapply inv_push_link.
  - by eapply inv_pop.
Qed.

Lemma queue_inv_init : mpscq_inv mpscq_init [stub].
Proof.
  split; cbn; try done.
  - apply NoDup_singleton.
Qed.

Lemma reachable_inv s : reachable s -> exists c, mpscq_inv s c.
Proof.
  intros Hr. unfold reachable in Hr. remember mpscq_init as s0 eqn:E0.
  assert (HI : exists c, mpscq_inv s0 c) by (subst; eexists; apply queue_inv_init). clear E0.
  induction Hr as [s | s s1 s2 Hs _ IH]; [done |]. apply IH. destruct HI as [c HI]. by eapply inv_step.
Qed.

(** ** What the queue promises *)

(** One whole call of [PopAndCheckEnd] by a consumer that is not interrupted: steps
    until the call returns. *)
Fixpoint PopAndCheckEnd (fuel : nat) (s : mpscq) : option mpscq :=
  match fuel with
  | O => None
  | S fuel' =>
      s' ← pop_step s;
      match cons s' with
      | CLoadNext => Some s'
      | _ => PopAndCheckEnd fuel' s'
      end
  end.

(** C4: First in, first out, under every interleaving: the nodes the consumer has
    received are the first of the nodes pushed, in the order in which the producers
    exchanged [newest_]; none is lost, duplicated or reordered. *)
Theorem mpscq_fifo (s : mpscq) : reachable s -> popped (log s) `prefix_of` pushed (log s).
Proof. intros [c HI]%reachable_inv. eexists. by rewrite (inv_log _ _ HI). Qed.

(** No thread ever touches a node that the consumer has already received and may
    have deleted, however late the producer is with its last store. *)
Theorem mpscq_no_use_after_free (s : mpscq) :
  reachable s ->
  is_Some (pop_step s) /\ (forall t pc, prods s !! t = Some pc -> is_Some (push_step s t pc)).
Proof.
  intros [c HI]%reachable_inv. split.
  - assert (Ho : is_Some (mem s !! oldest_ s)) by (by eapply inv_chain_mem, inv_oldest_in).
    destruct (inv_stub _ _ HI) as [v Hv].
    pose proof (inv_cons _ _ HI) as HC. unfold cons_ok in HC. unfold pop_step, load_next, store_next.
    destruct (cons s) as [| tl | tl | tl | tl | tl p | tl]; destruct Ho as [obj Ho].
    + rewrite Ho. cbn. case_bool_decide; destruct obj; by eexists.
    + destruct HC as [-> _]. rewrite Ho. cbn. destruct obj; by eexists.
    + case_bool_decide; by eexists.
    + rewrite Hv. by eexists.
    + by eexists.
    + destruct HC as (_ & _ & _ & ->). by eexists.
    + destruct HC as [-> _]. rewrite Ho. cbn. destruct obj; by eexists.
  - intros t pc Ht. destruct (inv_prods _ _ HI _ _ Ht) as [Hok _].
    destruct pc as [n | n | n p]; cbn; unfold store_next.
    + destruct Hok as [_ [v ->]]. by eexists.
    + by eexists.
    + destruct Hok as [_ ->]. by eexists.
Qed.

(** [EvEmpty] is reported in one place only. *)
Lemma empty_step s s' :
  pop_step s = Some s' -> log s' = log s ++ [EvEmpty] ->
  cons s = CLoadNext /\ oldest_ s = stub /\ mem s !! stub = Some None.
Proof.
  intros Hs Hlog.
  assert (Hsame : log s = log s ++ [EvEmpty] -> False).
  { intros E. apply (f_equal length) in E. rewrite length_app in E. cbn in E. lia. }
  assert (Hdiff : forall e, log s ++ [e] = log s ++ [EvEmpty] -> e = EvEmpty).
  { intros e E. apply app_inv_head in E. congruence. }
  unfold pop_step, load_next, store_next in Hs.
  destruct (cons s) as [| tl | tl | tl | tl | tl p | tl].
  - destruct (mem s !! oldest_ s) as [[o |] |] eqn:Eo; cbn in Hs; try done;
      case_bool_decide as E; injection Hs as <-; cbn in Hlog;
      try by (apply Hsame in Hlog || apply Hdiff in Hlog).
    by rewrite E in Eo.
  - destruct (mem s !! tl) as [[o |] |]; try done; injection Hs as <-; cbn in Hlog;
      by (apply Hsame in Hlog || apply Hdiff in Hlog).
  - case_bool_decide; injection Hs as <-; cbn in Hlog;
      by (apply Hsame in Hlog || apply Hdiff in Hlog).
  - destruct (mem s !! stub); try done; injection Hs as <-; cbn in Hlog;
      by (apply Hsame in Hlog || apply Hdiff in Hlog).
  - injection Hs as <-; cbn in Hlog;
      by (apply Hsame in Hlog || apply Hdiff in Hlog).
  - destruct (mem s !! p); try done; injection Hs as <-; cbn in Hlog;
      by (apply Hsame in Hlog || apply Hdiff in Hlog).
  - destruct (mem s !! tl) as [[o |] |]; try done; injection Hs as <-; cbn in Hlog;
      by (apply Hsame in Hlog || apply Hdiff in Hlog).
Qed.

(** [*empty == true] can be trusted: everything pushed has been received, or a
    producer is between its exchange and its store with the stub as predecessor, and
    its [push] is going to return [true]. A consumer that goes to sleep on [empty] is
    woken by that producer. *)
Theorem mpscq_empty_sound (s s' : mpscq) :
  reachable s -> pop_step s = Some s' -> log s' = log s ++ [EvEmpty] ->
  popped (log s) = pushed (log s) \/
  exists t n, prods s !! t = Some (PLink n stub) /\
    exists s2, push_step s t (PLink n stub) = Some s2 /\ log s2 = log s ++ [EvPushed t n true].
Proof.
  intros [c HI]%reachable_inv Hs Hlog.
  destruct (empty_step _ _ Hs Hlog) as (Hc & Ho & Hm). pose proof (inv_head _ _ HI) as Hh. rewrite Ho in Hh.
  destruct c as [| x [| n c]]; simplify_eq/=.
  - left. by rewrite (inv_log _ _ HI), filter_cons_False, filter_nil, app_nil_r by auto.
  - right. destruct (inv_links _ _ HI 0%nat stub n eq_refl eq_refl) as [? | [_ [[t Ht] | [_ [tl Htl]]]]];
      [congruence | | congruence].
    exists t, n. split; [done |]. cbn. unfold store_next. rewrite Hm. by eexists.
Qed.

(** [push] returns [true] for the first element: when everything pushed has been received
    the next exchange finds the stub. *)
Lemma mpscq_first s : reachable s -> popped (log s) = pushed (log s) -> newest_ s = stub.
Proof.
  intros [c HI]%reachable_inv E. pose proof (inv_newest_in _ _ HI) as Hin.
  rewrite (inv_log _ _ HI) in E. symmetry in E. rewrite <- (app_nil_r (popped (log s))) in E at 2. apply app_inv_head in E.
  destruct (decide (newest_ s = stub)) as [? | Hne]; [done |].
  assert (Hf : newest_ s ∈ filter (fun n => n <> stub) c) by (by apply list_elem_of_filter). rewrite E in Hf. by apply not_elem_of_nil in Hf.
Qed.

(** The assertions of the destructor. *)
Definition mpscq_destroy (s : mpscq) : bool := bool_decide (newest_ s = stub) && bool_decide (oldest_ s = stub).

(** They hold exactly when every node that was pushed has been popped: a queue that is
    destroyed as the code means it to be, by its owner after it has taken everything, never
    fails them, and one that still has nodes always does. *)
Theorem mpscq_destroy_exact (s : mpscq) :
  reachable s -> mpscq_destroy s = true <-> popped (log s) = pushed (log s).
Proof.
  intros Hr. pose proof Hr as [c HI]%reachable_inv. unfold mpscq_destroy. rewrite andb_true_iff, !bool_decide_eq_true. split.
  - intros [E1 E2]. pose proof (inv_head _ _ HI) as Hh. pose proof (inv_last _ _ HI) as Hl. rewrite E1 in Hl. rewrite E2 in Hh.
    rewrite (inv_log _ _ HI), (head_last_singleton c stub (inv_nodup _ _ HI) Hh Hl). cbn. by rewrite app_nil_r.
  - intros E. split; [by apply mpscq_first |]. rewrite (inv_log _ _ HI) in E. symmetry in E.
    apply (f_equal length) in E. rewrite length_app in E.
    assert (Hf : filter (fun n => n <> stub) c = []) by (apply nil_length_inv; lia).
    destruct (decide (oldest_ s = stub)) as [| Hn]; [done | exfalso].
    assert (Hin : oldest_ s ∈ filter (fun n => n <> stub) c) by (apply list_elem_of_filter; split; [done | by apply inv_oldest_in]).
    rewrite Hf in Hin. by apply not_elem_of_nil in Hin.
Qed.

Lemma PopAndCheckEnd_step fuel s s' :
  pop_step s = Some s' -> cons s' <> CLoadNext -> PopAndCheckEnd (S fuel) s = PopAndCheckEnd fuel s'.
Proof. intros Hs Hc. cbn. rewrite Hs. cbn. by destruct (cons s'). Qed.

Lemma PopAndCheckEnd_done fuel s s' :
  pop_step s = Some s' -> cons s' = CLoadNext -> PopAndCheckEnd (S fuel) s = Some s'.
Proof. intros Hs Hc. cbn. rewrite Hs. cbn. by rewrite Hc. Qed.

(** The re-insertion of the stub when one node is left. *)
Lemma PopAndCheckEnd_reinit s n fuel :
  cons s = CLoadNewest n -> newest_ s = n -> n <> stub -> mem s !! n = Some None -> is_Some (mem s !! stub) ->
  exists s', PopAndCheckEnd (5 + fuel) s = Some s' /\ log s' = log s ++ [EvPop n].
Proof.
  intros Hc Hn Hne Hm [v Hv]. cbn [Nat.add].
  erewrite PopAndCheckEnd_step; [| unfold pop_step; by rewrite Hc, Hn, bool_decide_true by done | done].
  erewrite PopAndCheckEnd_step; [| unfold pop_step, store_next; cbn; by rewrite Hv | done].
  erewrite PopAndCheckEnd_step; [| unfold pop_step; cbn; done | done].
  erewrite PopAndCheckEnd_step;
    [| unfold pop_step, store_next; cbn; by rewrite Hn, lookup_insert_ne, Hm by auto | done].
  erewrite PopAndCheckEnd_done;
    [| unfold pop_step, load_next; cbn; by rewrite lookup_insert_eq | done].
  by eexists.
Qed.

Lemma quiet_links s c i a b :
  mpscq_inv s c -> prods s = ∅ -> cons s = CLoadNext -> c !! i = Some a -> c !! S i = Some b ->
  mem s !! a = Some (Some b).
Proof.
  intros HI Hp Hc Ha Hb.
  destruct (inv_links _ _ HI _ _ _ Ha Hb) as [? | [_ [[t Ht] | [_ [tl Htl]]]]]; [done | | congruence].
  by rewrite Hp in Ht.
Qed.

(** Behind the stub, or without it: the call hands out [tail]. *)
Lemma PopAndCheckEnd_tail s tail obj fuel :
  mem s !! tail = Some obj -> tail <> stub -> (obj = None -> newest_ s = tail) -> is_Some (mem s !! stub) ->
  cons s = CLoadSecond tail \/ (cons s = CLoadNext /\ oldest_ s = tail) ->
  exists s', PopAndCheckEnd (6 + fuel) s = Some s' /\ log s' = log s ++ [EvPop tail].
Proof.
  intros Hm Hne Hnew Hst Hc. cbn [Nat.add].
  assert (Hs : pop_step s = Some match obj with Some o => cons_return s tail o | None => cons_goto s (CLoadNewest tail) end).
  { unfold pop_step, load_next. destruct Hc as [-> | [-> ->]]; rewrite Hm; cbn; [| rewrite bool_decide_false by done];
      by destruct obj. }
  destruct obj as [o |].
  - erewrite PopAndCheckEnd_done; [| done | done]. by eexists.
  - erewrite PopAndCheckEnd_step; [| done | done].
    destruct (PopAndCheckEnd_reinit (cons_goto s (CLoadNewest tail)) tail fuel) as (s' & Hs' & Hlog); auto.
    by exists s'.
Qed.

(** With no push in flight, one call of at most seven steps returns the node that
    was pushed first among those still queued, and reports [empty] only when there is
    none: it never asks the caller to retry. *)
Theorem mpscq_quiet_pop (s : mpscq) (q : list node) :
  reachable s -> prods s = ∅ -> cons s = CLoadNext -> pushed (log s) = popped (log s) ++ q ->
  exists s', PopAndCheckEnd 7 s = Some s' /\
    log s' = log s ++ [match q with [] => EvEmpty | n :: _ => EvPop n end].
Proof.
  intros [c HI]%reachable_inv Hp Hc Hq. rewrite (inv_log _ _ HI) in Hq. apply app_inv_head in Hq as <-.
  pose proof (inv_head _ _ HI) as Hh. pose proof (inv_last _ _ HI) as Hl. pose proof (inv_nodup _ _ HI) as Hnd.
  pose proof (inv_newest _ _ HI) as Hnew. pose proof (inv_stub _ _ HI) as Hst.
  pose proof (fun i a b => quiet_links s c i a b HI Hp Hc) as Hlk.
  destruct c as [| x c]; [done |]. cbn in Hh. injection Hh as ->.
  destruct (decide (oldest_ s = stub)) as [E | E].
  - rewrite filter_cons_False by auto. destruct c as [| n c].
    { cbn in Hl. injection Hl as Hl. rewrite (PopAndCheckEnd_done _ _ (cons_null s true)); [by eexists | | done].
      unfold pop_step, load_next. rewrite Hc, Hl, Hnew, <- Hl. cbn. by rewrite bool_decide_true. }
    assert (Hn : n <> stub) by (intros ->; rewrite E in Hnd; apply list.NoDup_cons in Hnd as [Hn _]; apply Hn; left).
    rewrite filter_cons_True by done. erewrite PopAndCheckEnd_step;
      [| unfold pop_step, load_next; rewrite Hc, (Hlk 0%nat (oldest_ s) n) by done;
         by rewrite bool_decide_true | done].
    match goal with |- context [PopAndCheckEnd _ ?s1] => apply (PopAndCheckEnd_tail s1 n (list.head c) 0) end;
      cbn [cons mem newest_ oldest_ log]; auto.
    + destruct c as [| m c]; [cbn in *; congruence | by rewrite (Hlk 1%nat n m)].
    + destruct c; [cbn in *; congruence | done].
  - rewrite filter_cons_True by done. eapply (PopAndCheckEnd_tail s (oldest_ s) (list.head c) 1); auto.
    + destruct c as [| m c]; [cbn in *; congruence | by rewrite (Hlk 0%nat (oldest_ s) m)].
    + destruct c; [cbn in *; congruence | done].
Qed.

(** ** The theorems on concrete runs *)

(** A run from producers' steps: who starts a push of which node, and who goes on. *)
Inductive demo_act := DBegin (t : tid) (n : node) | DPush (t : tid) | DPopStep.

Definition demo_step (s : mpscq) (a : demo_act) : option mpscq :=
  match a with
  | DBegin t n => if bool_decide (prods s !! t = None /\ mem s !! n = None) then Some (push_begin s t n None) else None
  | DPush t => pc ← prods s !! t; push_step s t pc
  | DPopStep => pop_step s
  end.

Fixpoint demo_run (s : mpscq) (l : list demo_act) : option mpscq :=
  match l with
  | [] => Some s
  | a :: l' => s' ← demo_step s a; demo_run s' l'
  end.

Lemma demo_run_reachable l s : demo_run mpscq_init l = Some s -> reachable s.
Proof.
  unfold reachable. generalize mpscq_init. induction l as [| a l IH]; cbn; intros s0 E; [injection E as ->; reflexivity |].
  destruct (demo_step s0 a) as [s1 |] eqn:Ea; [| done]. eapply rtc_l; [| by apply IH].
  destruct a as [t n | t |]; cbn in Ea.
  - case_bool_decide as Hd; [| done]. injection Ea as <-. destruct Hd. by apply step_begin.
  - destruct (prods s0 !! t) as [pc |] eqn:Et; [| done]. by eapply step_push.
  - by apply step_pop.
Qed.

(** Node 1 is pushed; node 2 is exchanged into [newest_] but not linked. *)
Definition one_pushed : list demo_act := [DBegin 1 1; DPush 1; DPush 1; DPush 1].
Definition one_linking : list demo_act := [DBegin 1 1; DPush 1; DPush 1].
Definition one_popped : list demo_act := one_pushed ++ [DBegin 2 2; DPush 2; DPush 2] ++ replicate 3 DPopStep.
Definition demo (l : list demo_act) : mpscq := default mpscq_init (demo_run mpscq_init l).

Lemma one_pushed_reachable : reachable (demo one_pushed).
Proof. apply (demo_run_reachable one_pushed). vm_compute. reflexivity. Qed.
Lemma one_linking_reachable : reachable (demo one_linking).
Proof. apply (demo_run_reachable one_linking). vm_compute. reflexivity. Qed.
Lemma one_popped_reachable : reachable (demo one_popped).
Proof. apply (demo_run_reachable one_popped). vm_compute. reflexivity. Qed.

Lemma mpscq_fifo_witness : popped (log (demo one_popped)) `prefix_of` [1; 2]%nat.
Proof. exact (mpscq_fifo (demo one_popped) one_popped_reachable). Defined.

Lemma mpscq_no_use_after_free_witness : is_Some (pop_step (demo one_popped)).
Proof. exact (proj1 (mpscq_no_use_after_free (demo one_popped) one_popped_reachable)). Defined.

Lemma mpscq_empty_sound_witness :
  popped (log (demo one_linking)) = pushed (log (demo one_linking)) \/
  exists t n, prods (demo one_linking) !! t = Some (PLink n stub).
Proof.
  destruct (mpscq_empty_sound (demo one_linking) (demo (one_linking ++ [DPopStep])) one_linking_reachable)
    as [H | (t & n & H & _)]; [vm_compute; reflexivity | vm_compute; reflexivity | by left | right; by exists t, n].
Defined.

Lemma mpscq_quiet_pop_witness :
  exists s', PopAndCheckEnd 7 (demo one_pushed) = Some s' /\ log s' = log (demo one_pushed) ++ [EvPop 1%nat].
Proof.
  apply (mpscq_quiet_pop (demo one_pushed) [1%nat] one_pushed_reachable); vm_compute; reflexivity.
Defined.

Lemma mpscq_destroy_exact_witness : mpscq_destroy (demo one_pushed) = false /\ mpscq_destroy mpscq_init = true.
Proof.
  split.
  - apply not_true_is_false. rewrite (mpscq_destroy_exact (demo one_pushed) one_pushed_reachable). vm_compute. discriminate.
  - reflexivity.
Defined.
