(* ===== verification/Refcount.v ===== *)
(** * Reference counts

    [src/utils/atomic.h] and [src/utils/refcounted.h]: the operations of [Atomic], and threads
    that share an object through a reference count, each access of the count a step of its
    own. *)

From S2P Require Import Prelude.

(** ** Atomic *)

(** The operations on a cell: the result and the new value. The memory orders do not matter
    for a single cell. *)
Section Atomic.
Context {T : Type} `{EqDecision T}.

Definition Exchange (desired value_ : T) : T * T := (value_, desired).

(** [*expected] is part of the result. The weak version may fail although the values agree. *)
Definition CompareExchangeStrong (expected desired value_ : T) : bool * T * T :=
  if decide (value_ = expected) then (true, expected, desired) else (false, value_, value_).
Definition CompareExchangeWeak (spurious : bool) (expected desired value_ : T) : bool * T * T :=
  if spurious then (false, value_, value_) else CompareExchangeStrong expected desired value_.
End Atomic.

(** Of a 64-bit count, as a bit pattern. *)
Definition FetchAdd (arg value_ : Z) : Z * Z := (value_, u64 (value_ + arg)).
Definition FetchSub (arg value_ : Z) : Z * Z := (value_, u64 (value_ - arg)).

(** [IncrementIfNonzero] after its load and after each failed exchange: [inl] is its result. *)
Definition increment_test (count : Z) : bool + Z := if count =? 0 then inl false else inr count.
Definition increment_exchange (spurious : bool) (count value_ : Z) : (bool + Z) * Z :=
  let '(done, count, value_) := CompareExchangeWeak spurious count (u64 (count + 1)) value_ in
  (if done : bool then inl true else increment_test count, value_).

(** ** Threads *)

(** [AtDelete]: [Unref] took the last reference and is about to delete the object;
    [AtExchange]: inside the loop of [IncrementIfNonzero]. *)
Inductive pc := Out | AtDelete | AtExchange (count : Z).
#[export] Instance pc_eq_dec : EqDecision pc.
Proof. solve_decision. Defined.

Record thread := { owns : nat; at_pc : pc }.
Record shared := { refs_ : Z; deletes : nat; threads : list thread }.

Fixpoint total (ts : list thread) : nat := match ts with [] => 0 | t :: ts => owns t + total ts end.
Definition deleting (ts : list thread) : nat := length (filter (fun t => at_pc t = AtDelete) ts).

Inductive action := ARef | AUnref | ADelete | ATry | AExchange (spurious : bool) | AGive (j : nat).

(** Each reference is kept somewhere in memory, so there are fewer than 2^63. *)
Definition room (s : shared) : bool := Z.of_nat (total (threads s)) + 1 <? 2 ^ 63.

Definition goto (i : nat) (t : thread) (s : shared) : shared :=
  {| refs_ := refs_ s; deletes := deletes s; threads := <[i := t]> (threads s) |}.

(** The result of [IncrementIfNonzero] or the count to exchange. *)
Definition after_try (t : thread) (r : bool + Z) : thread :=
  match r with
  | inl true => {| owns := S (owns t); at_pc := Out |}
  | inl false => {| owns := owns t; at_pc := Out |}
  | inr count => {| owns := owns t; at_pc := AtExchange count |}
  end.

(** An action of thread [i]: [Ref] and [Unref] by a thread that has a reference,
    [IncrementIfNonzero] by any, and passing a reference on. *)
Definition act (i : nat) (a : action) (s : shared) : option shared :=
  t ← threads s !! i;
  match a, at_pc t with
  | ARef, Out =>
      match owns t with
      | O => None
      | S _ => if room s then
                 Some {| refs_ := (FetchAdd 1 (refs_ s)).2; deletes := deletes s;
                         threads := <[i := {| owns := S (owns t); at_pc := Out |}]> (threads s) |}
               else None
      end
  | AUnref, Out =>
      match owns t with
      | O => None
      | S n => let '(old, new) := FetchSub 1 (refs_ s) in
               Some {| refs_ := new; deletes := deletes s;
                       threads := <[i := {| owns := n; at_pc := if old =? 1 then AtDelete else Out |}]> (threads s) |}
      end
  | ADelete, AtDelete =>
      Some {| refs_ := refs_ s; deletes := S (deletes s); threads := <[i := {| owns := owns t; at_pc := Out |}]> (threads s) |}
  | ATry, Out => Some (goto i (after_try t (increment_test (refs_ s))) s)
  | AExchange spurious, AtExchange count =>
      if room s then
        let '(r, new) := increment_exchange spurious count (refs_ s) in
        Some {| refs_ := new; deletes := deletes s; threads := <[i := after_try t r]> (threads s) |}
      else None
  | AGive j, Out =>
      match owns t, threads s !! j with
      | S n, Some u =>
          if decide (i = j) then Some s
          else Some (goto j {| owns := S (owns u); at_pc := at_pc u |} (goto i {| owns := n; at_pc := Out |} s))
      | _, _ => None
      end
  | _, _ => None
  end.

(** A new object has one reference, which its first thread owns. *)
Definition shared_init (n : nat) : shared :=
  {| refs_ := 1; deletes := 0; threads := {| owns := 1; at_pc := Out |} :: replicate n {| owns := 0; at_pc := Out |} |}.

Definition refcount_reachable (n : nat) : shared -> Prop := rtc (fun s s' => exists i a, act i a s = Some s') (shared_init n).

(** ** Invariant *)

Lemma total_insert i t t' ts : ts !! i = Some t -> (total (<[i := t']> ts) + owns t = total ts + owns t')%nat.
Proof.
  revert i. induction ts as [| u ts IH]; intros [| i] E; [done | done | injection E as ->; cbn; lia |].
  specialize (IH i E). change (<[S i := t']> (u :: ts)) with (u :: <[i := t']> ts). cbn [total]. lia.
Qed.

Definition is_deleting (t : thread) : nat := if decide (at_pc t = AtDelete) then 1 else 0.

Lemma deleting_insert i t t' ts :
  ts !! i = Some t -> (deleting (<[i := t']> ts) + is_deleting t = deleting ts + is_deleting t')%nat.
Proof.
  unfold deleting, is_deleting. revert i. induction ts as [| u ts IH]; intros [| i] E; [done | done | |].
  - injection E as ->. change (<[O := t']> (t :: ts)) with (t' :: ts). rewrite !filter_cons. destruct (decide (at_pc t' = _)), (decide (at_pc t = _)); cbn; lia.
  - specialize (IH i E). change (<[S i := t']> (u :: ts)) with (u :: <[i := t']> ts). rewrite !filter_cons. destruct (decide (at_pc u = _)); cbn; lia.
Qed.

Record count_ok (s : shared) : Prop := {
  c_refs : refs_ s = Z.of_nat (total (threads s));
  c_small : refs_ s < 2 ^ 63;
  c_deletes : (deletes s + deleting (threads s) = if decide (total (threads s) = 0) then 1 else 0)%nat;
  c_exchange : forall i t count, threads s !! i = Some t -> at_pc t = AtExchange count -> count <> 0
}.

Lemma count_ok_init n : count_ok (shared_init n).
Proof.
  assert (Ht : total (replicate n {| owns := 0; at_pc := Out |}) = 0%nat) by (induction n; [done | exact IHn]).
  assert (Hd : deleting (replicate n {| owns := 0; at_pc := Out |}) = 0%nat) by (clear Ht; induction n; [done | exact IHn]).
  split; cbn [shared_init refs_ deletes threads].
  - cbn [total owns]. by rewrite Ht.
  - done.
  - cbn [total owns]. rewrite Ht. unfold deleting in *. by rewrite filter_cons, decide_False, Hd by done.
  - intros [| i] t count; cbn; [by intros [= <-] |]. intros Hl. apply lookup_replicate in Hl as [-> _]. done.
Qed.

(** A step of one thread: the totals move with what the thread does. *)
Lemma count_ok_step s i t t' refs del :
  count_ok s -> threads s !! i = Some t ->
  refs = refs_ s - Z.of_nat (owns t) + Z.of_nat (owns t') -> refs < 2 ^ 63 ->
  (del + is_deleting t' + (if decide (refs_ s = 0)%Z then 1 else 0) =
   deletes s + is_deleting t + (if decide (refs = 0)%Z then 1 else 0))%nat ->
  (forall count, at_pc t' = AtExchange count -> count <> 0) ->
  count_ok {| refs_ := refs; deletes := del; threads := <[i := t']> (threads s) |}.
Proof.
  intros [H1 H2 H3 H4] Et -> Hlt Hd Hx. pose proof (total_insert i t t' _ Et) as E1. pose proof (deleting_insert i t t' _ Et) as E2.
  split; cbn [refs_ deletes threads].
  - lia.
  - done.
  - rewrite H1 in Hd. repeat case_decide; lia.
  - intros j u count Ej. destruct (decide (i = j)) as [<- | Hij].
    + rewrite list_lookup_insert_eq in Ej by (by eapply lookup_lt_Some). injection Ej as <-. apply Hx.
    + rewrite list_lookup_insert_ne in Ej by done. by apply (H4 j).
Qed.

(** A reference changes hands. *)
Lemma give_ok s i j t u n :
  count_ok s -> threads s !! i = Some t -> threads s !! j = Some u -> i <> j -> at_pc t = Out -> owns t = S n ->
  count_ok (goto j {| owns := S (owns u); at_pc := at_pc u |} (goto i {| owns := n; at_pc := Out |} s)).
Proof.
  intros [H1 H2 H3 H4] Et Eu Hij Ep Eo. set (t' := {| owns := n; at_pc := Out |}). set (u' := {| owns := S (owns u); at_pc := at_pc u |}).
  assert (Eu' : <[i := t']> (threads s) !! j = Some u) by (by rewrite list_lookup_insert_ne).
  pose proof (total_insert i t t' _ Et) as T1. pose proof (total_insert j u u' _ Eu') as T2.
  pose proof (deleting_insert i t t' _ Et) as D1. pose proof (deleting_insert j u u' _ Eu') as D2.
  assert (Edu : is_deleting u' = is_deleting u) by done. assert (Edt : is_deleting t' = is_deleting t) by (unfold is_deleting; by rewrite Ep).
  cbn [owns t' u'] in T1, T2. assert (Et' : total (<[j := u']> (<[i := t']> (threads s))) = total (threads s)) by lia.
  split; cbn [refs_ deletes threads goto]; rewrite ?Et'; [done | done | lia |].
  intros k x count Ek. destruct (decide (j = k)) as [<- | Hjk].
  - rewrite list_lookup_insert_eq in Ek by (by eapply lookup_lt_Some). injection Ek as <-. by apply (H4 j u).
  - rewrite list_lookup_insert_ne in Ek by done. destruct (decide (i = k)) as [<- | Hik].
    + rewrite list_lookup_insert_eq in Ek by (by eapply lookup_lt_Some). by injection Ek as <-.
    + rewrite list_lookup_insert_ne in Ek by done. by apply (H4 k x).
Qed.

Lemma u64_count z : 0 <= z < 2 ^ 64 -> u64 z = z.
Proof. apply wrap_small. Qed.

(** [IncrementIfNonzero] counts one reference if it succeeds, and none otherwise. *)
Lemma increment_exchange_ok spurious count v :
  0 <= v < 2 ^ 63 -> count <> 0 ->
  match increment_exchange spurious count v with
  | (inl true, v') => v <> 0 /\ v' = v + 1
  | (inl false, v') => v' = v
  | (inr count', v') => v' = v /\ count' <> 0
  end.
Proof.
  intros Hv Hc. unfold increment_exchange, CompareExchangeWeak, CompareExchangeStrong, increment_test.
  destruct spurious; cbn; [by destruct (Z.eqb_spec v 0) |]. destruct (decide (v = count)) as [-> | Hn]; cbn; [| by destruct (Z.eqb_spec v 0)].
  rewrite u64_count by lia. done.
Qed.

Ltac deleting_tac := unfold is_deleting; cbn [at_pc]; repeat case_decide; subst; cbn in *; first [done | discriminate | congruence | lia].

Lemma act_ok i a s s' : count_ok s -> act i a s = Some s' -> count_ok s'.
Proof.
  intros HC E. pose proof HC as [H1 H2 H3 H4]. unfold act in E. destruct (threads s !! i) as [t |] eqn:Et; [| done]. cbn in E.
  assert (Hle : (owns t <= total (threads s))%nat) by (pose proof (total_insert i t {| owns := 0; at_pc := Out |} _ Et); cbn in *; lia).
  unfold room in E. destruct a as [| | | | spurious | j], (at_pc t) as [| | count] eqn:Ep; try done.
  - destruct (owns t) as [| n] eqn:Eo; [done |]. destruct (Z.ltb_spec (Z.of_nat (total (threads s)) + 1) (2 ^ 63)); [| done].
    injection E as <-. cbn. rewrite u64_count by lia. eapply count_ok_step; [done | exact Et | cbn; lia | lia | | done].
    deleting_tac.
  - destruct (owns t) as [| n] eqn:Eo; [done |]. cbn in E. injection E as <-. rewrite u64_count by lia.
    eapply count_ok_step; [done | exact Et | cbn; lia | lia | | by destruct (_ =? 1)].
    destruct (Z.eqb_spec (refs_ s) 1); deleting_tac.
  - injection E as <-. eapply count_ok_step; [done | exact Et | cbn; lia | lia | | done].
    deleting_tac.
  - injection E as <-. unfold goto. eapply count_ok_step; [done | exact Et | | lia | |]; unfold increment_test, after_try;
      destruct (Z.eqb_spec (refs_ s) 0); cbn [owns]; try lia; try deleting_tac; try done.
  - destruct (Z.ltb_spec (Z.of_nat (total (threads s)) + 1) (2 ^ 63)); [| done].
    pose proof (increment_exchange_ok spurious count (refs_ s) ltac:(lia) (H4 i t count Et Ep)) as Hx.
    destruct (increment_exchange spurious count (refs_ s)) as [[[|] | count'] v']; injection E as <-; cbn [after_try].
    + destruct Hx as [Hx ->]. eapply count_ok_step; [done | exact Et | cbn; lia | lia | | done].
      deleting_tac.
    + subst v'. eapply count_ok_step; [done | exact Et | cbn; lia | lia | | done]. deleting_tac.
    + destruct Hx as [-> Hx]. eapply count_ok_step; [done | exact Et | cbn; lia | lia | | by intros c [= <-]]. deleting_tac.
  - destruct (owns t) as [| n] eqn:Eo; [done |]. destruct (threads s !! j) as [u |] eqn:Eu; [| done].
    destruct (decide (i = j)) as [| Hij]; injection E as <-; [done |]. by apply (give_ok s i j t u n).
Qed.

Lemma refcount_reachable_ok n s : refcount_reachable n s -> count_ok s.
Proof.
  intros Hs. unfold refcount_reachable in Hs. pattern s. refine (rtc_ind_r _ _ _ _ _ Hs); [apply count_ok_init |].
  intros s1 s2 _ (i & a & E) IH. by eapply act_ok.
Qed.

(** Dead counts stay dead. *)
Lemma refs_zero_stable i a s s' : count_ok s -> refs_ s = 0 -> act i a s = Some s' -> refs_ s' = 0.
Proof.
  intros [H1 H2 _ H4] H0 E. unfold act in E. destruct (threads s !! i) as [t |] eqn:Et; [| done]. cbn in E.
  assert (Ho : owns t = 0%nat) by (pose proof (total_insert i t {| owns := 0; at_pc := Out |} _ Et); cbn in *; lia).
  rewrite Ho in E. destruct a as [| | | | spurious | j], (at_pc t) as [| | count] eqn:Ep; try done; try (by injection E as <-).
  destruct (room s); [| done]. pose proof (increment_exchange_ok spurious count (refs_ s) ltac:(lia) (H4 i t count Et Ep)) as Hx.
  destruct (increment_exchange spurious count (refs_ s)) as [[[|] | count'] v']; injection E as <-; cbn; destruct Hx; lia.
Qed.

(** ** Theorem *)

(** C28: A shared object is deleted once, after its last reference is gone, and never before, however
    threads interleave [Ref], [Unref], [IncrementIfNonzero] and passing references on: the count
    is the number of references that threads own; while a thread owns one, the object has not
    been deleted and nobody is about to delete it; when there are none, exactly one thread has
    deleted it or is about to; and a count that has dropped to zero stays there, so
    [IncrementIfNonzero] never revives an object. *)
Theorem refcount_exact (n : nat) (s : shared) :
  refcount_reachable n s ->
  refs_ s = Z.of_nat (total (threads s)) /\
  (forall i t, threads s !! i = Some t -> (0 < owns t)%nat -> deletes s = 0%nat /\ deleting (threads s) = 0%nat) /\
  (refs_ s = 0 -> (deletes s + deleting (threads s) = 1)%nat) /\
  (refs_ s = 0 -> forall i a s', act i a s = Some s' -> refs_ s' = 0).
Proof.
  intros Hs. pose proof (refcount_reachable_ok n s Hs) as HC. pose proof HC as [H1 _ H3 _]. split; [done |]. split; [| split].
  - intros i t Et Ho. pose proof (total_insert i t {| owns := 0; at_pc := Out |} _ Et) as E. cbn in E.
    rewrite decide_False in H3 by lia. lia.
  - intros H0. by rewrite decide_True in H3 by lia.
  - intros H0 i a s' E. by apply (refs_zero_stable i a s s' HC).
Qed.

(** Two threads; the second gets a reference by [IncrementIfNonzero], with one spurious failure,
    both release theirs. *)
Definition refcount_demo : list (nat * action) :=
  [(1%nat, ATry); (1%nat, AExchange true); (0%nat, ARef); (1%nat, AExchange false); (1%nat, AExchange false); (0%nat, AUnref);
   (0%nat, AUnref); (1%nat, AUnref); (0%nat, ATry); (1%nat, ADelete)].

Fixpoint refcount_run (l : list (nat * action)) (s : shared) : option shared :=
  match l with [] => Some s | (i, a) :: l => s' ← act i a s; refcount_run l s' end.

Lemma refcount_run_reachable n l s : refcount_run l (shared_init n) = Some s -> refcount_reachable n s.
Proof.
  unfold refcount_reachable. generalize (shared_init n). induction l as [| [i a] l IH]; intros s0 E; cbn in E; [by injection E as -> |].
  destruct (act i a s0) as [s1 |] eqn:Ea; [| done]. eapply rtc_l; [by exists i, a | by apply IH].
Qed.

Lemma refcount_exact_witness :
  exists s, refcount_run refcount_demo (shared_init 1) = Some s /\ refs_ s = 0 /\ (deletes s + deleting (threads s) = 1)%nat.
Proof.
  eexists. split; [vm_compute; reflexivity |]. split; [reflexivity |].
  apply (refcount_exact 1); [| reflexivity]. apply (refcount_run_reachable 1 refcount_demo). vm_compute. reflexivity.
Defined.
