(* ===== verification/ConnTable.v ===== *)
(** * Connection ids and the connection table

    [src/net/connection_id.h], [src/net/connection_table.h],
    [src/net/connection_table.cc]. A connection object is named by a number; a
    [std::weak_ptr] is the number it was made from, and [lock] succeeds while the
    object is still alive. The mutex makes every operation one step. *)

From S2P Require Import Prelude.

(** ** ConnectionId *)

Record ConnectionId := { slot : Z; generation : Z }.

Definition ConnectionId_default : ConnectionId := {| slot := 0; generation := 0 |}.

Definition valid (id : ConnectionId) : bool := negb (generation id =? 0).

Definition ToUint64 (id : ConnectionId) : Z :=
  Z.lor (u64 (Z.shiftl (generation id) 32)) (slot id).

Definition FromUint64 (value : Z) : ConnectionId :=
  {| slot := u32 (Z.land value 4294967295); generation := u32 (Z.shiftr value 32) |}.

#[export] Instance ConnectionId_eq_dec : EqDecision ConnectionId.
Proof. solve_decision. Defined.

#[export] Instance ConnectionId_countable : Countable ConnectionId.
Proof.
  apply (inj_countable' (fun id => (slot id, generation id)) (fun p => {| slot := p.1; generation := p.2 |})).
  by intros [].
Defined.

(** Both fields are [uint32_t]. *)
Definition id_ok (id : ConnectionId) : Prop :=
  0 <= slot id <= UINT32_MAX /\ 0 <= generation id <= UINT32_MAX.

Lemma ToUint64_value id : id_ok id -> ToUint64 id = generation id * 2 ^ 32 + slot id.
Proof.
  intros [Hs Hg]. unfold ToUint64, u64, UINT32_MAX in *. rewrite wrap_small.
  - apply lor_shiftl_add; lia.
  - rewrite Z.shiftl_mul_pow2 by lia. lia.
Qed.

Lemma FromUint64_value v :
  0 <= v < 2 ^ 64 -> FromUint64 v = {| slot := v mod 2 ^ 32; generation := v / 2 ^ 32 |}.
Proof.
  intros Hv. unfold FromUint64, u32. change 4294967295 with (Z.ones 32).
  rewrite Z.land_ones, Z.shiftr_div_pow2 by lia. f_equal; apply wrap_small.
  - apply Z.mod_pos_bound. lia.
  - split; [apply Z.div_pos | apply Z.div_lt_upper_bound]; lia.
Qed.

Lemma connection_id_tag id :
  id_ok id -> FromUint64 (ToUint64 id) = id /\ (valid id = true -> ToUint64 id <> 0).
Proof.
  intros Hok. rewrite (ToUint64_value id Hok). destruct Hok as [Hs Hg]. unfold UINT32_MAX in *.
  rewrite FromUint64_value by lia. unfold valid. destruct id as [s g]. cbn in *. split.
  - rewrite Z.add_comm, Z.mod_add, Z.div_add, Z.mod_small, Z.div_small by lia. by f_equal.
  - intros Hv. zbool. lia.
Qed.

(** The id is stored in the 64-bit user data of the poller and read back: the round
    trip is the identity, the packing is injective, and no valid id collides with 0,
    the tag of the wake-up descriptor. *)
Theorem connection_id_roundtrip (id id' : ConnectionId) :
  id_ok id -> id_ok id' ->
  FromUint64 (ToUint64 id) = id /\ (valid id = true -> ToUint64 id <> 0) /\
  (ToUint64 id = ToUint64 id' -> id = id').
Proof.
  intros Hok Hok'. pose proof (connection_id_tag id Hok) as [Hr Hv]. split; [done |]. split; [done |].
  intros E. rewrite <- Hr, E. by apply connection_id_tag.
Qed.

(** ** ConnectionTable *)

Abbreviation conn_ref := nat.

Record Entry := {
  e_generation : Z;
  e_active : bool;
  e_conn : option conn_ref
}.

Definition Entry_default : Entry := {| e_generation := 0; e_active := false; e_conn := None |}.

Record ConnectionTable := { entries_ : list Entry; free_slots_ : list Z }.

Definition ConnectionTable_new : ConnectionTable := {| entries_ := []; free_slots_ := [] |}.

(** [entry.generation++], skipping 0. *)
Definition next_generation (g : Z) : Z :=
  let g := u32 (g + 1) in
  if g =? 0 then u32 (g + 1) else g.

(** [None]: an index outside [entries_], undefined behaviour. *)
Definition Register (T : ConnectionTable) (conn : conn_ref) : option (ConnectionId * ConnectionTable) :=
  let '(slot, entries, free_slots) :=
    match list.last (free_slots_ T) with
    | Some slot => (slot, entries_ T, take (length (free_slots_ T) - 1) (free_slots_ T))
    | None => (u32 (zlen (entries_ T)), entries_ T ++ [Entry_default], free_slots_ T)
    end in
  entry ← entries !! Z.to_nat slot;
  let generation := next_generation (e_generation entry) in
  let entry := {| e_generation := generation; e_active := true; e_conn := Some conn |} in
  Some ({| slot := slot; generation := generation |},
        {| entries_ := <[Z.to_nat slot := entry]> entries; free_slots_ := free_slots |}).

(** [alive]: the objects that still have a strong reference. *)
Definition Acquire (T : ConnectionTable) (alive : conn_ref -> bool) (id : ConnectionId) : option conn_ref :=
  if negb (valid id) then None
  else if zlen (entries_ T) <=? slot id then None
  else
    entry ← entries_ T !! Z.to_nat (slot id);
    if negb (e_active entry) || negb (e_generation entry =? generation id) then None
    else
      match e_conn entry with
      | Some c => if alive c then Some c else None
      | None => None
      end.

Definition Unregister (T : ConnectionTable) (id : ConnectionId) : ConnectionTable :=
  if negb (valid id) then T
  else if zlen (entries_ T) <=? slot id then T
  else
    match entries_ T !! Z.to_nat (slot id) with
    | None => T
    | Some entry =>
        if negb (e_active entry) || negb (e_generation entry =? generation id) then T
        else
          {| entries_ := <[Z.to_nat (slot id) :=
                {| e_generation := e_generation entry; e_active := false; e_conn := None |}]> (entries_ T);
             free_slots_ := free_slots_ T ++ [slot id] |}
    end.

Definition Clear (T : ConnectionTable) : ConnectionTable := {| entries_ := []; free_slots_ := [] |}.

(** ** Invariant and abstraction *)

Record table_ok (T : ConnectionTable) : Prop := {
  tok_nodup : NoDup (free_slots_ T);
  tok_free s : s ∈ free_slots_ T <->
    0 <= s /\ exists e, entries_ T !! Z.to_nat s = Some e /\ e_active e = false;
  tok_gen i e : entries_ T !! i = Some e ->
    0 <= e_generation e <= UINT32_MAX /\ (e_active e = true -> e_generation e <> 0);
  tok_len : zlen (entries_ T) <= UINT32_MAX + 1
}.

(** The specification: the registered ids and their connections. *)
Abbreviation registry := (gmap ConnectionId conn_ref).

Definition table_rep (T : ConnectionTable) (m : registry) : Prop :=
  table_ok T /\
  forall id c, m !! id = Some c <->
    0 <= slot id /\
    entries_ T !! Z.to_nat (slot id) =
      Some {| e_generation := generation id; e_active := true; e_conn := Some c |}.

Lemma next_generation_spec g :
  0 <= g <= UINT32_MAX -> next_generation g = if g =? UINT32_MAX then 1 else g + 1.
Proof.
  intros Hg. unfold next_generation, UINT32_MAX, u32 in *.
  destruct (Z.eqb_spec g (2 ^ 32 - 1)) as [-> | Hne]; [done |].
  rewrite wrap_small by lia. destruct (Z.eqb_spec (g + 1) 0); lia.
Qed.

Lemma next_generation_range g : 0 <= g <= UINT32_MAX -> 1 <= next_generation g <= UINT32_MAX.
Proof. intros Hg. rewrite next_generation_spec by done. unfold UINT32_MAX in *. destruct (Z.eqb_spec g (2 ^ 32 - 1)); lia. Qed.

(** The slot [Register] takes: from the free list, or a new one at the end. *)
Lemma registry_slot T :
  table_ok T -> free_slots_ T <> [] \/ zlen (entries_ T) <= UINT32_MAX ->
  exists s entries free e,
    match list.last (free_slots_ T) with
    | Some slot => (slot, entries_ T, take (length (free_slots_ T) - 1) (free_slots_ T))
    | None => (u32 (zlen (entries_ T)), entries_ T ++ [Entry_default], free_slots_ T)
    end = (s, entries, free) /\
    entries !! Z.to_nat s = Some e /\ e_active e = false /\ (s ∉ free) /\ 0 <= s <= UINT32_MAX /\
    table_ok {| entries_ := entries; free_slots_ := s :: free |} /\
    (forall i, entries !! i = entries_ T !! i \/ (i = length (entries_ T) /\ entries !! i = Some Entry_default)).
Proof.
  intros [Hnd Hfree Hgen Hlen] Hroom. destruct (list.last (free_slots_ T)) as [s |] eqn:El.
  - apply last_Some in El as [free El]. rewrite El in *.
    rewrite length_app, Nat.add_sub, take_app_le, take_ge by (cbn; lia).
    assert (HP : free ++ [s] ≡ₚ s :: free) by (symmetry; apply Permutation_cons_append).
    assert (Hs : s ∈ free ++ [s]) by (rewrite HP; left).
    apply Hfree in Hs as (H0 & e & He & Ha). rewrite HP in Hnd.
    exists s, (entries_ T), free, e. split; [done |]. split; [done |]. split; [done |].
    split; [by apply list.NoDup_cons in Hnd as [? _] |].
    split; [apply lookup_lt_Some in He; unfold zlen in *; lia |]. split; [| by left].
    split; cbn; [done | | done | done]. intros s'. by rewrite <- HP.
  - apply last_None in El. rewrite El in *. destruct Hroom as [? | Hroom]; [done |].
    pose proof (zlen_nonneg (entries_ T)). unfold u32. rewrite wrap_small by (unfold UINT32_MAX in *; lia).
    assert (Hn : Z.to_nat (zlen (entries_ T)) = length (entries_ T)) by (unfold zlen; lia).
    exists (zlen (entries_ T)), (entries_ T ++ [Entry_default]), [], Entry_default.
    split; [done |]. split; [by rewrite Hn, lookup_app_r, Nat.sub_diag |]. split; [done |].
    split; [apply not_elem_of_nil |]. split; [lia |]. split.
    + split; cbn; [apply NoDup_singleton | | | zlia].
      * intros s. rewrite list_elem_of_singleton. split.
        -- intros ->. split; [lia |]. exists Entry_default. by rewrite Hn, lookup_app_r, Nat.sub_diag.
        -- intros (Hs & e & [He | [Hge He]]%lookup_app_Some & Ha).
           ++ exfalso. apply (not_elem_of_nil s), Hfree. eauto.
           ++ apply list_lookup_singleton_Some in He as [? ?]. unfold zlen. lia.
      * intros i e [He | [_ He]]%lookup_app_Some; [by eapply Hgen |].
        apply list_lookup_singleton_Some in He as [_ <-]. cbn. unfold UINT32_MAX. split; [lia | done].
    + intros i. destruct (decide (i < length (entries_ T))%nat); [left; by apply lookup_app_l |].
      destruct (decide (i = length (entries_ T))) as [-> |]; [right; by rewrite lookup_app_r, Nat.sub_diag |].
      left. rewrite lookup_ge_None_2 by (rewrite length_app; cbn; lia). by rewrite lookup_ge_None_2 by lia.
Qed.

Lemma Register_ok T m c :
  table_rep T m -> free_slots_ T <> [] \/ zlen (entries_ T) <= UINT32_MAX ->
  exists id T', Register T c = Some (id, T') /\ valid id = true /\ id_ok id /\
    m !! id = None /\ table_rep T' (<[id := c]> m).
Proof.
  intros [Hok Hm] Hroom.
  destruct (registry_slot T Hok Hroom) as (s & es & free & e & Heq & He & Ha & Hns & Hs & Hok' & Hes).
  unfold Register. rewrite Heq, He. cbn.
  destruct Hok' as [Hnd Hfree Hgen Hlen]. cbn in *. pose proof (Hgen _ _ He) as [Hg _].
  pose proof (next_generation_range _ Hg) as Hng. set (g := next_generation (e_generation e)) in *.
  assert (Hsl : (Z.to_nat s < length es)%nat) by (by eapply lookup_lt_Some).
  eexists _, _. split; [done |]. unfold valid. cbn [generation]. split; [by rewrite (proj2 (Z.eqb_neq g 0)) by lia |].
  split; [by split; cbn; lia |]. split.
  { destruct (m !! _) as [c' |] eqn:E; [| done]. apply Hm in E as [_ E]. cbn in E.
    destruct (Hes (Z.to_nat s)) as [E' | [Hi _]]; [| apply lookup_lt_Some in E; lia].
    rewrite He, E in E'. injection E' as E'. by rewrite E' in Ha. }
  split.
  - split; cbn.
    + by apply list.NoDup_cons in Hnd as [_ ?].
    + intros s'. destruct (decide (s' = s)) as [-> | Hne].
      * split; [intros Hin; by destruct Hns |]. intros (_ & e' & He' & Ha').
        rewrite list_lookup_insert_eq in He' by done. by simplify_eq.
      * specialize (Hfree s'). rewrite elem_of_cons in Hfree.
        assert (s' ∈ free <-> (s' = s \/ s' ∈ free)) as -> by tauto. rewrite Hfree.
        split; intros (H0 & e' & He' & Ha'); (split; [done |]); exists e'; (split; [| done]).
        -- rewrite list_lookup_insert_ne; [done | lia].
        -- rewrite list_lookup_insert_ne in He'; [done | lia].
    + intros i e' [[<- [<- _]] | [_ He']]%list_lookup_insert_Some; [| by eapply Hgen]. cbn. lia.
    + unfold zlen in *. by rewrite length_insert.
  - intros id c'. cbn. destruct (decide (slot id = s)) as [Hid | Hid].
    + rewrite Hid, list_lookup_insert_eq by done. destruct (decide (generation id = g)) as [Eg | Eg].
      * assert (id = {| slot := s; generation := g |}) as -> by (destruct id; cbn in *; congruence).
        rewrite lookup_insert_eq. cbn. split; [intros [= ->]; split; [lia | done] | by intros [_ [= ->]]].
      * rewrite lookup_insert_ne by (intros <-; done). rewrite Hm, Hid.
        split; [| intros [_ [= ?]]; congruence]. intros [_ E].
        destruct (Hes (Z.to_nat s)) as [E' | [Hi _]]; [| apply lookup_lt_Some in E; lia].
        rewrite He, E in E'. injection E' as E'. by rewrite E' in Ha.
    + rewrite lookup_insert_ne by (intros <-; done). rewrite Hm.
      split; intros [H0 E]; (split; [done |]).
      * rewrite list_lookup_insert_ne by lia. destruct (Hes (Z.to_nat (slot id))) as [-> | [Hi E']]; [done |].
        apply lookup_lt_Some in E. lia.
      * rewrite list_lookup_insert_ne in E by lia.
        destruct (Hes (Z.to_nat (slot id))) as [<- | [Hi E']]; [done |]. by rewrite E' in E.
Qed.

(** The guards of [Acquire] and [Unregister]: they pass exactly on registered ids. *)
Lemma registry_lookup T m id :
  table_rep T m -> 0 <= slot id ->
  match entries_ T !! Z.to_nat (slot id) with
  | Some e => if negb (e_active e) || negb (e_generation e =? generation id) then m !! id = None
              else forall c, m !! id = Some c <-> e_conn e = Some c
  | None => m !! id = None
  end.
Proof.
  intros [Hok Hm] H0. destruct (entries_ T !! _) as [e |] eqn:E.
  - destruct e as [g a oc]. cbn. destruct a; cbn.
    + destruct (Z.eqb_spec g (generation id)) as [-> | Hne]; cbn.
      * intros c. rewrite Hm, E. split; [by intros [_ [= ->]] | intros ->; done].
      * destruct (m !! id) as [c |] eqn:Em; [| done]. apply Hm in Em as [_ Em]. rewrite E in Em. by simplify_eq.
    + destruct (m !! id) as [c |] eqn:Em; [| done]. apply Hm in Em as [_ Em]. rewrite E in Em. by simplify_eq.
  - destruct (m !! id) as [c |] eqn:Em; [| done]. apply Hm in Em as [_ Em]. by rewrite E in Em.
Qed.

Lemma registry_invalid T m id : table_rep T m -> valid id = false -> m !! id = None.
Proof.
  intros [Hok Hm] Hv. destruct (m !! id) as [c |] eqn:E; [| done]. apply Hm in E as [_ E].
  apply (tok_gen _ Hok) in E as [_ Hg]. cbn in Hg. unfold valid in Hv. zbool. by destruct (Hg eq_refl).
Qed.

Lemma registry_out T m id : table_rep T m -> zlen (entries_ T) <= slot id -> m !! id = None.
Proof.
  intros HR Hl. pose proof (zlen_nonneg (entries_ T)). pose proof (registry_lookup T m id HR ltac:(lia)) as HL.
  rewrite lookup_ge_None_2 in HL; [done |]. unfold zlen in *. lia.
Qed.

Lemma Acquire_ok T m alive id :
  table_rep T m -> 0 <= slot id ->
  Acquire T alive id = match m !! id with Some c => if alive c then Some c else None | None => None end.
Proof.
  intros HR H0. unfold Acquire. destruct (valid id) eqn:Hv; cbn; [| by rewrite (registry_invalid T m)].
  destruct (Z.leb_spec (zlen (entries_ T)) (slot id)); [by rewrite (registry_out T m) |].
  pose proof (registry_lookup T m id HR H0) as HL.
  destruct (entries_ T !! _) as [e |]; cbn; [| by rewrite HL].
  destruct (_ || _); [by rewrite HL |]. destruct (e_conn e) as [c |].
  - by rewrite (proj2 (HL c) eq_refl).
  - destruct (m !! id) as [c |]; [| done]. by pose proof (proj1 (HL c) eq_refl).
Qed.

Lemma Unregister_ok T m id :
  table_rep T m -> 0 <= slot id -> table_rep (Unregister T id) (delete id m).
Proof.
  intros HR H0. assert (Hnone : m !! id = None -> table_rep T (delete id m)) by (intros; by rewrite delete_id).
  unfold Unregister. destruct (valid id) eqn:Hv; cbn; [| by apply Hnone, (registry_invalid T)].
  destruct (Z.leb_spec (zlen (entries_ T)) (slot id)); [by apply Hnone, (registry_out T) |].
  pose proof (registry_lookup T m id HR H0) as HL.
  destruct (entries_ T !! _) as [e |] eqn:E; [| by apply Hnone].
  destruct (negb (e_active e)) eqn:Ea; cbn in *; [by apply Hnone |].
  destruct (negb (e_generation e =? generation id)) eqn:Eg; cbn in *; [by apply Hnone |]. zbool.
  destruct HR as [[Hnd Hfree Hgen Hlen] Hm].
  assert (Hsl : (Z.to_nat (slot id) < length (entries_ T))%nat) by (by eapply lookup_lt_Some).
  split; [split; cbn |].
  - apply list.NoDup_app. split; [done |]. split; [| apply NoDup_singleton].
    intros s Hs ->%list_elem_of_singleton. apply Hfree in Hs as (_ & e' & He' & Ha'). congruence.
  - intros s. rewrite elem_of_app, list_elem_of_singleton. destruct (decide (s = slot id)) as [-> | Hne].
    + rewrite list_lookup_insert_eq by done. split; [intros _; split; [done |]; by eexists | by right].
    + rewrite (Hfree s). assert (Hx : 0 <= s -> Z.to_nat (slot id) <> Z.to_nat s) by lia. split.
      * intros [(Hs & e' & He' & Ha') | ?]; [| done]. split; [done |]. exists e'.
        by rewrite list_lookup_insert_ne by auto.
      * intros (Hs & e' & He' & Ha'). left. split; [done |]. exists e'.
        by rewrite list_lookup_insert_ne in He' by auto.
  - intros i e' [[<- [<- _]] | [_ He']]%list_lookup_insert_Some; [| by eapply Hgen].
    cbn. split; [by eapply Hgen | done].
  - unfold zlen in *. by rewrite length_insert.
  - intros id' c. cbn. destruct (decide (slot id' = slot id)) as [Es | Es].
    + rewrite Es, list_lookup_insert_eq by done. split; [| by intros [_ [=]]].
      intros [Hne Hid']%lookup_delete_Some. apply Hm in Hid' as [_ Hid']. rewrite Es, E in Hid'. simplify_eq.
      destruct Hne. destruct id, id'. cbn in *. congruence.
    + rewrite lookup_delete_ne by congruence. rewrite Hm.
      split; intros [Hs E']; (split; [done |]); rewrite list_lookup_insert_ne in * by lia; done.
Qed.

Lemma table_rep_empty : table_rep ConnectionTable_new ∅.
Proof.
  split; [split; cbn; try done |].
  - constructor.
  - intros s. split; [by intros ?%not_elem_of_nil | by intros (_ & e & ? & _)].
  - intros id c. rewrite lookup_empty. cbn. split; [done | by intros [_ ?]].
Qed.

(** ** Programs *)

Inductive table_op :=
| TRegister (c : conn_ref)
| TAcquire (alive : conn_ref -> bool) (id : ConnectionId)
| TUnregister (id : ConnectionId)
| TClear.

Inductive table_out := OutId (id : ConnectionId) | OutConn (c : option conn_ref) | OutUnit.

Definition table_step (T : ConnectionTable) (op : table_op) : option (table_out * ConnectionTable) :=
  match op with
  | TRegister c => '(id, T') ← Register T c; Some (OutId id, T')
  | TAcquire alive id => Some (OutConn (Acquire T alive id), T)
  | TUnregister id => Some (OutUnit, Unregister T id)
  | TClear => Some (OutUnit, Clear T)
  end.

Fixpoint table_run (T : ConnectionTable) (ops : list table_op) : option (list table_out * ConnectionTable) :=
  match ops with
  | [] => Some ([], T)
  | op :: ops' =>
      '(o, T1) ← table_step T op;
      '(os, T2) ← table_run T1 ops';
      Some (o :: os, T2)
  end.

(** What the specification allows an operation to return: [Register] may choose any
    valid id that is not registered. *)
Definition registry_step (m : registry) (op : table_op) (out : table_out) : option registry :=
  match op, out with
  | TRegister c, OutId id => if valid id && bool_decide (m !! id = None) then Some (<[id := c]> m) else None
  | TAcquire alive id, OutConn r =>
      if bool_decide (r = match m !! id with Some c => if alive c then Some c else None | None => None end)
      then Some m else None
  | TUnregister id, OutUnit => Some (delete id m)
  | TClear, OutUnit => Some ∅
  | _, _ => None
  end.

Fixpoint registry_run (m : registry) (ops : list table_op) (outs : list table_out) : option registry :=
  match ops, outs with
  | [], [] => Some m
  | op :: ops', o :: outs' => m' ← registry_step m op o; registry_run m' ops' outs'
  | _, _ => None
  end.

(** The ids a caller passes have [uint32_t] fields. *)
Definition op_id_ok (op : table_op) : Prop :=
  match op with TAcquire _ id | TUnregister id => id_ok id | _ => True end.

Lemma Unregister_zlen T id : zlen (entries_ (Unregister T id)) = zlen (entries_ T).
Proof. unfold Unregister. repeat case_match; try done. unfold zlen. cbn. by rewrite length_insert. Qed.

Lemma Register_zlen T c id T' : Register T c = Some (id, T') -> zlen (entries_ T') <= zlen (entries_ T) + 1.
Proof.
  unfold Register. intros Hr. destruct (list.last (free_slots_ T)); cbn in Hr.
  - destruct (entries_ T !! _); cbn in Hr; simplify_eq/=. unfold zlen. rewrite length_insert. lia.
  - destruct ((entries_ T ++ [Entry_default]) !! _); cbn in Hr; simplify_eq/=.
    unfold zlen. rewrite length_insert, length_app. cbn. lia.
Qed.

Lemma table_step_refines T m op :
  table_rep T m -> zlen (entries_ T) <= UINT32_MAX -> op_id_ok op ->
  exists o T' m', table_step T op = Some (o, T') /\ registry_step m op o = Some m' /\ table_rep T' m' /\
    zlen (entries_ T') <= zlen (entries_ T) + 1.
Proof.
  intros HR Hlen Hid. destruct op as [c | alive id | id |]; cbn.
  - destruct (Register_ok T m c HR) as (id & T' & Hr & Hv & _ & Hn & HR'); [by right |].
    rewrite Hr. cbn. eexists _, _, _. split; [done |]. cbn. rewrite Hv, bool_decide_true by done.
    split; [done |]. split; [done |]. by eapply Register_zlen.
  - eexists _, _, _. split; [done |]. cbn. rewrite bool_decide_true by (apply Acquire_ok; [done | apply Hid]).
    split; [done |]. split; [done | lia].
  - eexists _, _, _. split; [done |]. split; [done |]. rewrite Unregister_zlen.
    split; [apply Unregister_ok; [done | apply Hid] | lia].
  - eexists _, _, _. split; [done |]. split; [done |]. split; [apply table_rep_empty |].
    cbn. rewrite zlen_nil. zlia.
Qed.

Lemma table_run_refines ops : forall T m,
  table_rep T m -> Forall op_id_ok ops -> zlen (entries_ T) + zlen ops <= UINT32_MAX + 1 ->
  exists outs T' m', table_run T ops = Some (outs, T') /\ registry_run m ops outs = Some m' /\ table_rep T' m'.
Proof.
  induction ops as [| op ops IH]; intros T m HR Hids Hlen; cbn [table_run].
  { exists [], T, m. done. }
  apply list.Forall_cons in Hids as [Hid Hids]. rewrite zlen_cons in Hlen.
  destruct (table_step_refines T m op HR ltac:(zlia) Hid) as (o & T1 & m1 & -> & Hm1 & HR1 & Hl1). cbn.
  destruct (IH T1 m1 HR1 Hids ltac:(lia)) as (outs & T2 & m2 & -> & Hm2 & HR2). cbn.
  exists (o :: outs), T2, m2. split; [done |]. split; [| done]. cbn [registry_run]. by rewrite Hm1.
Qed.

(** C31: The table implements a registry: in every sequence of up to 2^32 calls
    [Register] returns a fresh valid id, [Acquire] returns the connection last
    registered under exactly that id while it is alive and nothing for an id that was
    unregistered or cleared, and no call indexes outside the table. *)
Theorem connection_table_refines (ops : list table_op) :
  Forall op_id_ok ops -> zlen ops <= UINT32_MAX + 1 ->
  exists outs T m, table_run ConnectionTable_new ops = Some (outs, T) /\ registry_run ∅ ops outs = Some m.
Proof.
  intros Hids Hlen. destruct (table_run_refines ops _ _ table_rep_empty Hids) as (outs & T & m & H1 & H2 & _).
  - cbn. rewrite zlen_nil. lia.
  - by exists outs, T, m.
Qed.

(** ** Ids are not reused *)

Definition registered_ids (outs : list table_out) : list ConnectionId :=
  omap (fun o => match o with OutId id => Some id | _ => None end) outs.

(** No generation is above [n], and the ids [L] issued so far are not above the
    current generation of their slot. *)
Definition gens_ok (T : ConnectionTable) (n : Z) (L : list ConnectionId) : Prop :=
  0 <= n <= UINT32_MAX /\
  (forall i e, entries_ T !! i = Some e -> 0 <= e_generation e <= n) /\
  (forall id, id ∈ L -> 0 <= slot id /\
     exists e, entries_ T !! Z.to_nat (slot id) = Some e /\ generation id <= e_generation e).

(** Entries only move forward. *)
Lemma gens_ok_mono T T' n n' L :
  gens_ok T n L -> 0 <= n' <= UINT32_MAX ->
  (forall i e, entries_ T' !! i = Some e -> 0 <= e_generation e <= n') ->
  (forall i e, entries_ T !! i = Some e -> exists e', entries_ T' !! i = Some e' /\ e_generation e <= e_generation e') ->
  gens_ok T' n' L.
Proof.
  intros (_ & _ & HL) Hn Hg Hmono. split; [done |]. split; [done |]. intros id Hid.
  destruct (HL id Hid) as (H0 & e & He & Hle). split; [done |].
  destruct (Hmono _ _ He) as (e' & He' & Hle'). exists e'. split; [done | lia].
Qed.

Lemma Register_gens T c id T' n L :
  (forall s, s ∈ free_slots_ T -> 0 <= s) -> zlen (entries_ T) <= UINT32_MAX ->
  gens_ok T n L -> n < UINT32_MAX -> Register T c = Some (id, T') ->
  (id ∉ L) /\ gens_ok T' (n + 1) (id :: L).
Proof.
  intros Hf Hlen HG Hn Hr. pose proof HG as (Hn0 & Hg & HL). unfold Register in Hr.
  assert (exists s es fs, 0 <= s /\
    match list.last (free_slots_ T) with
    | Some slot => (slot, entries_ T, take (length (free_slots_ T) - 1) (free_slots_ T))
    | None => (u32 (zlen (entries_ T)), entries_ T ++ [Entry_default], free_slots_ T)
    end = (s, es, fs) /\
    (es = entries_ T \/ es = entries_ T ++ [Entry_default])) as (s & es & fs & Hs & Heq & Hes).
  { destruct (list.last (free_slots_ T)) as [s |] eqn:El; eexists _, _, _; split; [| by auto | | by auto].
    - by apply Hf, last_Some_elem_of.
    - apply wrap_range. lia. }
  rewrite Heq in Hr. destruct (es !! Z.to_nat s) as [e |] eqn:He; [| done]. cbn in Hr.
  injection Hr as <- <-.
  assert (Hge : forall i e', es !! i = Some e' -> 0 <= e_generation e' <= n).
  { intros i e' He'. destruct Hes as [-> | ->]; [by eapply Hg |].
    apply lookup_app_Some in He' as [He' | [_ He']]; [by eapply Hg |].
    apply list_lookup_singleton_Some in He' as [_ <-]. cbn. lia. }
  assert (Hsub : forall i e', entries_ T !! i = Some e' -> es !! i = Some e').
  { intros i e' He'. destruct Hes as [-> | ->]; [done |]. by apply lookup_app_l_Some. }
  pose proof (Hge _ _ He) as Heb. rewrite next_generation_spec by lia.
  rewrite (proj2 (Z.eqb_neq (e_generation e) UINT32_MAX)) by lia.
  assert (Hsl : (Z.to_nat s < length es)%nat) by (by eapply lookup_lt_Some). split.
  - intros Hin. destruct (HL _ Hin) as (_ & e' & He'%Hsub & Hle). cbn in *. simplify_eq. lia.
  - assert (HG' : gens_ok {| entries_ := <[Z.to_nat s := {| e_generation := e_generation e + 1; e_active := true; e_conn := Some c |}]> es;
                             free_slots_ := fs |} (n + 1) L).
    { eapply gens_ok_mono; [done | lia | |]; cbn.
      - intros i e' [[<- [<- _]] | [_ He']]%list_lookup_insert_Some; cbn; [lia |]. specialize (Hge _ _ He'). lia.
      - intros i e' He'%Hsub. destruct (decide (i = Z.to_nat s)) as [-> |].
        + rewrite list_lookup_insert_eq by done. eexists. split; [done |]. cbn. simplify_eq. lia.
        + rewrite list_lookup_insert_ne by done. exists e'. by split. }
    destruct HG' as (H1 & H2 & H3). split; [done |]. split; [done |].
    intros id [-> | Hid]%elem_of_cons; [| by apply H3]. cbn. split; [done |].
    rewrite list_lookup_insert_eq by done. by eexists.
Qed.

Lemma Unregister_gens T id n L : gens_ok T n L -> gens_ok (Unregister T id) n L.
Proof.
  intros HG. unfold Unregister. repeat case_match; try done.
  pose proof HG as (Hn & Hg & _). eapply gens_ok_mono; [done | done | |]; cbn.
  - intros i e' [[<- [<- _]] | [_ He']]%list_lookup_insert_Some; cbn; by eapply Hg.
  - intros i e' He'. destruct (decide (i = Z.to_nat (slot id))) as [-> |].
    + rewrite list_lookup_insert_eq by (by eapply lookup_lt_Some). eexists. split; [done |]. cbn. by simplify_eq.
    + rewrite list_lookup_insert_ne by done. by exists e'.
Qed.

Definition not_clear (op : table_op) : bool := match op with TClear => false | _ => true end.

Lemma ids_unique_from ops : forall T m n L outs T',
  table_rep T m -> gens_ok T n L -> zlen (entries_ T) <= n -> n + zlen ops <= UINT32_MAX ->
  Forall op_id_ok ops -> forallb not_clear ops = true -> table_run T ops = Some (outs, T') ->
  NoDup (registered_ids outs) /\ (forall id, id ∈ registered_ids outs -> id ∉ L).
Proof.
  induction ops as [| op ops IH]; intros T m n L outs T' HR HG Hlen Hn Hids Hnc Hrun; cbn [table_run] in Hrun.
  { injection Hrun as <- <-. split; [constructor | by intros id ?%not_elem_of_nil]. }
  rewrite zlen_cons in Hn. pose proof (zlen_nonneg ops). cbn in Hnc. apply andb_true_iff in Hnc as [Hop Hnc].
  apply list.Forall_cons in Hids as [Hid Hids].
  destruct (table_step_refines T m op HR ltac:(lia) Hid) as (o & T1 & m1 & Hs & _ & HR1 & _).
  rewrite Hs in Hrun. cbn in Hrun. destruct (table_run T1 ops) as [[os T2] |] eqn:Hr; [| done].
  cbn in Hrun. injection Hrun as <- <-. destruct op as [c | alive id | id |]; cbn in Hs; [| | | done].
  - destruct (Register T c) as [[id T1'] |] eqn:Hreg; [| done]. cbn in Hs. injection Hs as <- ->.
    destruct (Register_gens T c id T1 n L) as [Hnew HG1]; [| lia | done | lia | done |].
    { intros s Hs. by apply (tok_free _ (proj1 HR)) in Hs as [? _]. }
    pose proof (Register_zlen _ _ _ _ Hreg).
    destruct (IH T1 m1 (n + 1) (id :: L) os T2) as [Hnd Hfr]; [done | done | lia | lia | done | done | done |].
    change (registered_ids (OutId id :: os)) with (id :: registered_ids os). split.
    + apply list.NoDup_cons. split; [| done]. intros Hin. apply (Hfr _ Hin). left.
    + intros id' [-> | Hin]%elem_of_cons; [done |]. intros HL. apply (Hfr _ Hin). by right.
  - injection Hs as <- <-. apply (IH T m1 n L os T2); auto; lia.
  - injection Hs as <- <-. apply (IH (Unregister T id) m1 n L os T2); auto using Unregister_gens;
      rewrite ?Unregister_zlen; lia.
Qed.

(** C32: A stale id never finds another connection: without [Clear], fewer than 2^32
    calls never return the same id twice, although slots are reused. *)
Theorem connection_ids_unique (ops : list table_op) (outs : list table_out) (T : ConnectionTable) :
  Forall op_id_ok ops -> forallb not_clear ops = true -> zlen ops <= UINT32_MAX ->
  table_run ConnectionTable_new ops = Some (outs, T) -> NoDup (registered_ids outs).
Proof.
  intros Hids Hnc Hlen Hrun.
  eapply (ids_unique_from ops _ ∅ 0 []); [apply table_rep_empty | | | | done | done | done]; cbn.
  - split; [unfold UINT32_MAX; lia |]. split; [done | by intros id ?%not_elem_of_nil].
  - rewrite zlen_nil. lia.
  - lia.
Qed.

(** [Clear] restarts the generations: an id issued before it finds the connection
    that registers first afterwards. *)
Example clear_reuses_ids :
  exists id T,
    table_run ConnectionTable_new [TRegister 1; TClear; TRegister 2; TAcquire (fun _ => true) id]%nat =
    Some ([OutId id; OutUnit; OutId id; OutConn (Some 2%nat)], T).
Proof. exists {| slot := 0; generation := 1 |}. eexists. reflexivity. Qed.

(** ** The theorems on concrete inputs *)

Lemma connection_id_roundtrip_witness :
  ToUint64 {| slot := 5; generation := 7 |} = 30064771077 /\
  FromUint64 30064771077 = {| slot := 5; generation := 7 |}.
Proof.
  split; [reflexivity |].
  apply (connection_id_roundtrip {| slot := 5; generation := 7 |} {| slot := 0; generation := 0 |});
    unfold id_ok, UINT32_MAX; cbn; lia.
Defined.

(** A slot is registered, released and registered again; the old id finds nothing. *)
Definition table_demo : list table_op :=
  [TRegister 1; TUnregister {| slot := 0; generation := 1 |}; TRegister 2;
   TAcquire (fun _ => true) {| slot := 0; generation := 1 |}]%nat.

Lemma table_demo_ok : Forall op_id_ok table_demo.
Proof. repeat constructor; cbn; unfold UINT32_MAX; lia. Qed.

Lemma connection_table_refines_witness :
  exists outs T m, table_run ConnectionTable_new table_demo = Some (outs, T) /\ registry_run ∅ table_demo outs = Some m.
Proof.
  apply (connection_table_refines table_demo table_demo_ok). vm_compute. discriminate.
Defined.

Lemma connection_ids_unique_witness :
  NoDup [{| slot := 0; generation := 1 |}; {| slot := 0; generation := 2 |}].
Proof.
  apply (connection_ids_unique table_demo
    [OutId {| slot := 0; generation := 1 |}; OutUnit; OutId {| slot := 0; generation := 2 |}; OutConn None]
    {| entries_ := [{| e_generation := 2; e_active := true; e_conn := Some 2%nat |}]; free_slots_ := [] |} table_demo_ok).
  - reflexivity.
  - vm_compute. discriminate.
  - reflexivity.
Defined.
