(* ===== verification/Timer.v ===== *)
(** * The timer queue

    [src/net/timer_queue.h], [src/net/timer_queue.cc]. [std::priority_queue] is the
    class [PriorityQueue]: which of several timers with the same deadline comes
    first is not specified, so the queue is known by its laws only. A binary heap,
    as the standard library has it, and a sorted list both satisfy them; the sorted
    list is given as an instance. *)

From Stdlib Require Import Sorting.Sorted.
From S2P Require Import Prelude ConnTable.

Inductive TimerKind := kConnectTimeout.

Record TimerEvent := { deadline_ms : Z; tid : ConnectionId; kind : TimerKind }.

(** [Compare]: the queue orders by it and [top] is a greatest element, a timer no
    other timer is earlier than. *)
Definition Compare (lhs rhs : TimerEvent) : bool := deadline_ms rhs <? deadline_ms lhs.

Class PriorityQueue (Q : Type) := {
  pq_elems : Q -> list TimerEvent;
  pq_new : Q;
  pq_push : TimerEvent -> Q -> Q;
  pq_top : Q -> option TimerEvent;
  pq_pop : Q -> Q;
  pq_new_elems : pq_elems pq_new = [];
  pq_push_elems e q : pq_elems (pq_push e q) ≡ₚ e :: pq_elems q;
  pq_top_none q : pq_top q = None -> pq_elems q = [];
  pq_top_some q e : pq_top q = Some e ->
    (e ∈ pq_elems q) /\ forall e', e' ∈ pq_elems q -> Compare e e' = false;
  pq_pop_elems q e : pq_top q = Some e -> pq_elems q ≡ₚ e :: pq_elems (pq_pop q)
}.

Section TimerQueue.
Context `{PQ : PriorityQueue Q}.

Definition pq_empty (q : Q) : bool := match pq_top q with None => true | Some _ => false end.

Definition Add (q : Q) (deadline_ms : Z) (id : ConnectionId) (kind : TimerKind) : Q :=
  if negb (valid id) then q
  else pq_push {| deadline_ms := deadline_ms; tid := id; kind := kind |} q.

(** [None]: the 64-bit difference overflows, undefined behaviour. *)
Definition NextTimeoutMs (q : Q) (now_ms max_timeout_ms : Z) : option Z :=
  match pq_top q with
  | None => Some max_timeout_ms
  | Some e =>
      let diff := deadline_ms e - now_ms in
      if (diff <? INT64_MIN) || (INT64_MAX <? diff) then None
      else if diff <=? 0 then Some 0
      else if max_timeout_ms <? diff then Some max_timeout_ms
      else Some diff
  end.

(** The loop of [PopExpired], at most [fuel] times; what is appended to [out]. *)
Fixpoint PopExpired_loop (fuel : nat) (q : Q) (now_ms : Z) : list TimerEvent * Q :=
  match fuel with
  | O => ([], q)
  | S fuel' =>
      match pq_top q with
      | Some e =>
          if deadline_ms e <=? now_ms then
            let '(out, q') := PopExpired_loop fuel' (pq_pop q) now_ms in (e :: out, q')
          else ([], q)
      | None => ([], q)
      end
  end.

(** Every round removes one timer, so the size of the queue is fuel enough. *)
Definition PopExpired (q : Q) (now_ms : Z) : list TimerEvent * Q :=
  PopExpired_loop (length (pq_elems q)) q now_ms.

Fixpoint TimerClear_loop (fuel : nat) (q : Q) : Q :=
  match fuel with
  | O => q
  | S fuel' => if pq_empty q then q else TimerClear_loop fuel' (pq_pop q)
  end.

Definition TimerClear (q : Q) : Q := TimerClear_loop (length (pq_elems q)) q.

(** ** Properties *)

Lemma pq_pop_length q e : pq_top q = Some e -> length (pq_elems q) = S (length (pq_elems (pq_pop q))).
Proof. intros Ht. by rewrite (pq_pop_elems q e Ht). Qed.

Definition expired (now : Z) (e : TimerEvent) : Prop := deadline_ms e <= now.
#[export] Instance expired_dec now e : Decision (expired now e).
Proof. unfold expired. apply _. Defined.

Lemma Compare_false e e' : Compare e e' = false <-> deadline_ms e <= deadline_ms e'.
Proof. unfold Compare. apply Z.ltb_ge. Qed.

Lemma filter_none {A} (P : A -> Prop) `{!forall x, Decision (P x)} (l : list A) :
  (forall x, x ∈ l -> ~ P x) -> filter P l = [].
Proof.
  intros Hn. induction l as [| x l IH]; [done |].
  rewrite filter_cons_False by (apply Hn; left). apply IH. intros y Hy. apply Hn. by right.
Qed.

Lemma filter_every {A} (P : A -> Prop) `{!forall x, Decision (P x)} (l : list A) :
  (forall x, x ∈ l -> P x) -> filter P l = l.
Proof.
  intros Hn. induction l as [| x l IH]; [done |].
  rewrite filter_cons_True by (apply Hn; left). f_equal. apply IH. intros y Hy. apply Hn. by right.
Qed.

Lemma PopExpired_loop_ok fuel : forall q now out q',
  (length (pq_elems q) <= fuel)%nat -> PopExpired_loop fuel q now = (out, q') ->
  out ≡ₚ filter (expired now) (pq_elems q) /\
  pq_elems q' ≡ₚ filter (fun e => ~ expired now e) (pq_elems q) /\
  Sorted (fun a b => deadline_ms a <= deadline_ms b) out.
Proof.
  induction fuel as [| fuel IH]; intros q now out q' Hf Hl; cbn in Hl.
  { simplify_eq. destruct (pq_elems q') eqn:E; [| cbn in Hf; lia]. done. }
  destruct (pq_top q) as [e |] eqn:Et.
  2: { simplify_eq. by rewrite (pq_top_none _ Et). }
  destruct (pq_top_some q e Et) as [_ Hmin]. pose proof (pq_pop_elems q e Et) as HP.
  destruct (Z.leb_spec (deadline_ms e) now) as [Hle | Hgt].
  - destruct (PopExpired_loop fuel (pq_pop q) now) as [out1 q1] eqn:E1. injection Hl as <- <-.
    pose proof (pq_pop_length q e Et).
    destruct (IH (pq_pop q) now out1 q1 ltac:(lia) E1) as (Ho & Hq & Hs). rewrite HP.
    rewrite filter_cons_True, filter_cons_False by (unfold expired; lia).
    split; [by rewrite Ho |]. split; [done |]. constructor; [done |].
    destruct out1 as [| e1 out1]; constructor.
    apply Compare_false, Hmin. rewrite HP. right.
    assert (Hin : e1 ∈ filter (expired now) (pq_elems (pq_pop q))) by (rewrite <- Ho; left).
    by apply list_elem_of_filter in Hin as [_ ?].
  - injection Hl as <- <-.
    assert (Hn : forall e', e' ∈ pq_elems q -> ~ expired now e').
    { intros e' He'. specialize (Hmin e' He'). apply Compare_false in Hmin. unfold expired. lia. }
    rewrite filter_none by done. by rewrite filter_every by done.
Qed.

Lemma PopExpired_ok q now :
  let '(out, q') := PopExpired q now in
  out ≡ₚ filter (expired now) (pq_elems q) /\
  pq_elems q' ≡ₚ filter (fun e => ~ expired now e) (pq_elems q) /\
  Sorted (fun a b => deadline_ms a <= deadline_ms b) out.
Proof.
  unfold PopExpired. destruct (PopExpired_loop _ q now) as [out q'] eqn:E.
  by eapply PopExpired_loop_ok.
Qed.

(** [PopExpired] hands out exactly the timers that are due, earliest first, and
    keeps exactly the others. *)
Theorem timer_pop_expired (q : Q) (now : Z) :
  let '(out, q') := PopExpired q now in
  out ≡ₚ filter (expired now) (pq_elems q) /\
  pq_elems q' ≡ₚ filter (fun e => ~ expired now e) (pq_elems q) /\
  Sorted (fun a b => deadline_ms a <= deadline_ms b) out.
Proof. apply PopExpired_ok. Qed.

(** The poller does not sleep past a deadline, and not needlessly short: its
    timeout is in range, no timer is due before it elapses, and when it is below the
    maximum a timer is due at the end of it. *)
Theorem timer_next_timeout (q : Q) (now max : Z) :
  0 <= max -> 0 <= now <= INT64_MAX -> (forall e, e ∈ pq_elems q -> 0 <= deadline_ms e <= INT64_MAX) ->
  exists r, NextTimeoutMs q now max = Some r /\ 0 <= r <= max /\
    (forall t, now <= t < now + r -> (PopExpired q t).1 = []) /\
    (r < max -> (PopExpired q (now + r)).1 <> []).
Proof.
  intros Hmax Hnow Hdl. unfold NextTimeoutMs, INT64_MAX, INT64_MIN in *.
  assert (HPE : forall t, (PopExpired q t).1 ≡ₚ filter (expired t) (pq_elems q)).
  { intros t. pose proof (PopExpired_ok q t) as HP. destruct (PopExpired q t). apply HP. }
  destruct (pq_top q) as [e |] eqn:Et.
  - destruct (pq_top_some q e Et) as [Hin Hmin]. specialize (Hdl e Hin).
    assert (Hnone : forall t, t < deadline_ms e -> (PopExpired q t).1 = []).
    { intros t Ht. pose proof (HPE t) as HP. rewrite (filter_none (expired t)) in HP; [by apply Permutation_nil_r |].
      intros e' He'. specialize (Hmin e' He'). apply Compare_false in Hmin. unfold expired. lia. }
    assert (Hsome : forall t, deadline_ms e <= t -> (PopExpired q t).1 <> []).
    { intros t Ht E. pose proof (HPE t) as HP. rewrite E in HP. symmetry in HP.
      apply Permutation_nil_r in HP.
      assert (He : e ∈ filter (expired t) (pq_elems q)) by (by apply list_elem_of_filter).
      rewrite HP in He. by apply not_elem_of_nil in He. }
    destruct (Z.ltb_spec (deadline_ms e - now) (- 2 ^ 63)); [lia |].
    destruct (Z.ltb_spec (2 ^ 63 - 1) (deadline_ms e - now)); [lia |]. cbn [orb].
    destruct (Z.leb_spec (deadline_ms e - now) 0).
    { exists 0. split; [done |]. split; [lia |]. split; [intros; lia | intros _; apply Hsome; lia]. }
    destruct (Z.ltb_spec max (deadline_ms e - now)).
    { exists max. split; [done |]. split; [lia |]. split; [intros; apply Hnone; lia | lia]. }
    exists (deadline_ms e - now). split; [done |]. split; [lia |].
    split; [intros; apply Hnone; lia | intros _; apply Hsome; lia].
  - exists max. split; [done |]. split; [lia |]. split; [| lia]. intros t _.
    pose proof (HPE t) as HP. rewrite (pq_top_none q Et) in HP. by apply Permutation_nil_r.
Qed.

Lemma TimerClear_loop_ok fuel : forall q,
  (length (pq_elems q) <= fuel)%nat -> pq_elems (TimerClear_loop fuel q) = [].
Proof.
  induction fuel as [| fuel IH]; intros q Hf; cbn.
  { destruct (pq_elems q); [done | cbn in Hf; lia]. }
  unfold pq_empty. destruct (pq_top q) as [e |] eqn:Et; [| by apply pq_top_none].
  apply IH. pose proof (pq_pop_length q e Et). lia.
Qed.

Lemma TimerClear_ok q : pq_elems (TimerClear q) = [].
Proof. by apply TimerClear_loop_ok. Qed.

Lemma Add_ok q d id k :
  pq_elems (Add q d id k) ≡ₚ
  if valid id then {| deadline_ms := d; tid := id; kind := k |} :: pq_elems q else pq_elems q.
Proof. unfold Add. destruct (valid id); cbn; [apply pq_push_elems | done]. Qed.

End TimerQueue.

(** ** A queue that satisfies the laws *)

Fixpoint insert_sorted (e : TimerEvent) (q : list TimerEvent) : list TimerEvent :=
  match q with
  | [] => [e]
  | x :: q' => if deadline_ms e <=? deadline_ms x then e :: q else x :: insert_sorted e q'
  end.

Definition by_deadline (a b : TimerEvent) : Prop := deadline_ms a <= deadline_ms b.

Record sorted_queue := { sq_list : list TimerEvent; sq_sorted : StronglySorted by_deadline sq_list }.

Lemma insert_sorted_perm e q : insert_sorted e q ≡ₚ e :: q.
Proof.
  induction q as [| x q IH]; cbn; [done |]. destruct (_ <=? _); [done |]. rewrite IH. apply Permutation_swap.
Qed.

Lemma insert_sorted_sorted e q : StronglySorted by_deadline q -> StronglySorted by_deadline (insert_sorted e q).
Proof.
  induction 1 as [| x q Hq IH Hx]; cbn; [repeat constructor |].
  destruct (Z.leb_spec (deadline_ms e) (deadline_ms x)) as [Hle | Hgt].
  - constructor; [by constructor |]. constructor; [done |].
    eapply list.Forall_impl; [exact Hx |]. unfold by_deadline. intros y Hy. lia.
  - constructor; [done |]. rewrite insert_sorted_perm. constructor; [unfold by_deadline; lia | done].
Qed.

Lemma sorted_tail (q : list TimerEvent) : StronglySorted by_deadline q -> StronglySorted by_deadline (tail q).
Proof. destruct 1; [constructor | done]. Qed.

#[local] Obligation Tactic := idtac.

#[export] Program Instance sorted_priority_queue : PriorityQueue sorted_queue := {
  pq_elems := sq_list;
  pq_new := {| sq_list := []; sq_sorted := SSorted_nil _ |};
  pq_push e q := {| sq_list := insert_sorted e (sq_list q); sq_sorted := insert_sorted_sorted e _ (sq_sorted q) |};
  pq_top q := list.head (sq_list q);
  pq_pop q := {| sq_list := tail (sq_list q); sq_sorted := sorted_tail _ (sq_sorted q) |}
}.
Next Obligation. done. Qed.
Next Obligation. intros e q. apply insert_sorted_perm. Qed.
Next Obligation. intros [[| x q] Hs]; done. Qed.
Next Obligation.
  intros [[| x q] Hs] e; cbn; intros [= <-]. split; [left |]. inversion Hs as [| ? ? Hq Hx]; subst.
  intros e' [-> | Hin]%elem_of_cons; apply Compare_false; [done |].
  rewrite list.Forall_forall in Hx. by apply Hx.
Qed.
Next Obligation. by intros [[| x q] Hs] e; cbn; intros [= <-]. Qed.

(** Two timers, of which one is due after 30 ms. *)
Definition timer_demo : sorted_queue :=
  Add (Add pq_new 1100 {| slot := 0; generation := 1 |} kConnectTimeout)
    1030 {| slot := 1; generation := 1 |} kConnectTimeout.

Lemma timer_next_timeout_witness :
  NextTimeoutMs timer_demo 1000 1000 = Some 30 /\ (forall t, 1000 <= t < 1030 -> (PopExpired timer_demo t).1 = []).
Proof.
  destruct (timer_next_timeout timer_demo 1000 1000) as (r & Hr & _ & Hnone & _).
  - lia.
  - unfold INT64_MAX. lia.
  - intros e He. vm_compute in He. unfold INT64_MAX.
    repeat (apply elem_of_cons in He as [-> | He]; [cbn; lia |]). by apply not_elem_of_nil in He.
  - assert (E : NextTimeoutMs timer_demo 1000 1000 = Some 30) by reflexivity. rewrite E in Hr. injection Hr as <-.
    split; [exact E | exact Hnone].
Defined.
