(* ===== verification/Poller.v ===== *)
(** * The epoll poller

    [src/net/poller.h] and [src/net/poller_linux.cc]. The results of the system
    calls are arguments of the definitions. The kernel's part of the state is
    explicit: the interest set of the epoll instance and the set of descriptors the
    poller has open. *)

Set Warnings "-clear-no-such-hyp".
From S2P Require Import Prelude ConnTable.

Definition InvalidSocketHandle : Z := -1.
Definition IsValidSocketHandle (fd : Z) : bool := 0 <=? fd.

(** [enum PollInterest], [PollEventType] and [PollOperation]. *)
Definition kPollReadable : Z := 1.
Definition kPollWritable : Z := 2.
Definition kPollEventReadable : Z := 1.
Definition kPollEventWritable : Z := 2.
Definition kPollEventError : Z := 4.
Inductive PollOperation := kPollOpReady | kPollOpConnect | kPollOpRecv | kPollOpSend.

Record PollEvent := {
  ev_id : ConnectionId;
  ev_events : Z;
  ev_error_code : Z;
  ev_operation : PollOperation;
  ev_bytes_transferred : Z;
  ev_data : option (list byte)
}.

(** An operation that was handed to a completion port, with its buffer. *)
Record WinIoRequest := { operation : PollOperation; req_id : ConnectionId; req_buffer : list byte }.

(** An event of a poller that reports readiness: the other members are those of the
    constructor of [PollEvent]. [ev_data] is the buffer of the request behind [data]. *)
Definition ready_event (id : ConnectionId) (events error_code : Z) : PollEvent :=
  {| ev_id := id; ev_events := events; ev_error_code := error_code; ev_operation := kPollOpReady;
     ev_bytes_transferred := 0; ev_data := None |}.

(** [x & m] as a condition. *)
Definition has (x m : Z) : bool := negb (Z.land x m =? 0).

(** Constants of <sys/epoll.h> and <errno.h>. *)
Definition EPOLLIN : Z := 1.
Definition EPOLLOUT : Z := 4.
Definition EPOLLERR : Z := 8.
Definition EPOLLHUP : Z := 16.
Definition EPOLLRDHUP : Z := 8192.
Definition EINTR : Z := 4.
Definition ECONNRESET : Z := 104.
Definition kMaxEvents : Z := 256.

Record epoll_event := { ee_events : Z; ee_u64 : Z }.

(** The poller and, in the kernel, the interest set and the open descriptors. *)
Record Poller := {
  poll_fd_ : Z;
  wake_fd_ : Z;
  interest : gmap Z epoll_event;
  open_fds : gset Z
}.

Definition Poller_new : Poller :=
  {| poll_fd_ := -1; wake_fd_ := -1; interest := ∅; open_fds := ∅ |}.

Definition ToEpollEvents (i : Z) : Z :=
  let events := EPOLLRDHUP in
  let events := if has i kPollReadable then Z.lor events EPOLLIN else events in
  if has i kPollWritable then Z.lor events EPOLLOUT else events.

(** The operations of [epoll_ctl] that take an event. *)
Inductive epoll_op := EPOLL_CTL_ADD | EPOLL_CTL_MOD.

(** The kernel refuses to add a descriptor it has (EEXIST) and to modify one it does not have
    (ENOENT). *)
Definition epoll_admits (op : epoll_op) (registered : bool) : bool :=
  match op with EPOLL_CTL_ADD => negb registered | EPOLL_CTL_MOD => registered end.

(** [epoll_ctl]: [rc] is its result if the operation suits the descriptor; the interest set
    changes when it is 0. *)
Definition epoll_ctl_set (op : epoll_op) (p : Poller) (fd : Z) (ev : epoll_event) (rc : Z) : bool * Poller :=
  if (rc =? 0) && epoll_admits op (bool_decide (is_Some (interest p !! fd)))
  then (true, {| poll_fd_ := poll_fd_ p; wake_fd_ := wake_fd_ p;
                 interest := <[fd := ev]> (interest p); open_fds := open_fds p |})
  else (false, p).

Definition Poller_Add (p : Poller) (fd : Z) (id : ConnectionId) (i rc : Z) : bool * Poller :=
  epoll_ctl_set EPOLL_CTL_ADD p fd {| ee_events := ToEpollEvents i; ee_u64 := ToUint64 id |} rc.

Definition Poller_Modify (p : Poller) (fd : Z) (id : ConnectionId) (i rc : Z) : bool * Poller :=
  epoll_ctl_set EPOLL_CTL_MOD p fd {| ee_events := ToEpollEvents i; ee_u64 := ToUint64 id |} rc.

Definition Poller_Remove (p : Poller) (fd : Z) : Poller :=
  if (fd <? 0) || (poll_fd_ p <? 0) then p
  else {| poll_fd_ := poll_fd_ p; wake_fd_ := wake_fd_ p;
          interest := delete fd (interest p); open_fds := open_fds p |}.

(** The kernel takes a descriptor out of the interest set when it is closed. *)
Definition epoll_closed (p : Poller) (fd : Z) : Poller :=
  {| poll_fd_ := poll_fd_ p; wake_fd_ := wake_fd_ p; interest := delete fd (interest p); open_fds := open_fds p |}.

(** ** Init and Shutdown *)

(** A descriptor returned by the kernel: open from then on. *)
Definition open_fd (p : Poller) (fd : Z) : Poller :=
  {| poll_fd_ := poll_fd_ p; wake_fd_ := wake_fd_ p; interest := interest p;
     open_fds := if 0 <=? fd then {[ fd ]} ∪ open_fds p else open_fds p |}.

Definition set_poll_fd (p : Poller) (fd : Z) : Poller :=
  {| poll_fd_ := fd; wake_fd_ := wake_fd_ p; interest := interest p; open_fds := open_fds p |}.
Definition set_wake_fd (p : Poller) (fd : Z) : Poller :=
  {| poll_fd_ := poll_fd_ p; wake_fd_ := fd; interest := interest p; open_fds := open_fds p |}.

Definition close_fd (p : Poller) (fd : Z) : Poller :=
  {| poll_fd_ := poll_fd_ p; wake_fd_ := wake_fd_ p; interest := interest p; open_fds := open_fds p ∖ {[ fd ]} |}.

(** [CloseFd(&poll_fd_)]; the interest set goes with the epoll instance. *)
Definition CloseFd_poll (p : Poller) : Poller :=
  if 0 <=? poll_fd_ p then
    {| poll_fd_ := -1; wake_fd_ := wake_fd_ p; interest := ∅; open_fds := open_fds p ∖ {[ poll_fd_ p ]} |}
  else p.

Definition CloseFd_wake (p : Poller) : Poller :=
  if 0 <=? wake_fd_ p then set_wake_fd (close_fd p (wake_fd_ p)) (-1) else p.

(** Results of the calls [Init] makes, in order. *)
Record init_results := {
  r_create1 : Z; r_create : Z; r_getfd : Z; r_setfd : Z; r_eventfd : Z; r_ctl : Z; r_errno : Z
}.

Definition SetCloseOnExec (r : init_results) : Z :=
  if r_getfd r <? 0 then -1 else r_setfd r.

(** The wake-up descriptor is created and registered with tag 0. *)
Definition Init_wake (p : Poller) (r : init_results) : option Z * Poller :=
  let p := set_wake_fd (open_fd p (r_eventfd r)) (r_eventfd r) in
  if wake_fd_ p <? 0 then (Some (r_errno r), CloseFd_poll p)
  else
    let '(ok, p) := epoll_ctl_set EPOLL_CTL_ADD p (wake_fd_ p) {| ee_events := EPOLLIN; ee_u64 := 0 |} (r_ctl r) in
    if ok then (None, p)
    else (Some (r_errno r), CloseFd_poll (CloseFd_wake p)).

(** [None] is [CONNX_ERROR_NONE]. *)
Definition Poller_Init (p : Poller) (r : init_results) : option Z * Poller :=
  if 0 <=? poll_fd_ p then (None, p)
  else
    let p := set_poll_fd (open_fd p (r_create1 r)) (r_create1 r) in
    if poll_fd_ p <? 0 then
      let p := set_poll_fd (open_fd p (r_create r)) (r_create r) in
      if poll_fd_ p <? 0 then (Some (r_errno r), p)
      else if negb (SetCloseOnExec r =? 0) then (Some (r_errno r), CloseFd_poll p)
      else Init_wake p r
    else Init_wake p r.

Definition Poller_Shutdown (p : Poller) : Poller := CloseFd_poll (CloseFd_wake p).

(** ** Wait *)

Definition ToPollEvent (ev : epoll_event) : PollEvent :=
  let flags := ee_events ev in
  let error := has flags EPOLLERR || (has flags EPOLLHUP && negb (has flags (Z.lor EPOLLIN EPOLLOUT))) in
  let events := if error then Z.lor 0 kPollEventError else 0 in
  let error_code := if error then ECONNRESET else 0 in
  let events := if has flags (Z.lor EPOLLIN EPOLLRDHUP) then Z.lor events kPollEventReadable else events in
  let events := if has flags EPOLLOUT then Z.lor events kPollEventWritable else events in
  ready_event (FromUint64 (ee_u64 ev)) events error_code.

Fixpoint Wait_loop (evs : list epoll_event) : list PollEvent :=
  match evs with
  | [] => []
  | ev :: evs' => if ee_u64 ev =? 0 then Wait_loop evs' else ToPollEvent ev :: Wait_loop evs'
  end.

(** [n], [errno] and [evs] are what [epoll_wait] returns; [events] starts empty. *)
Definition Poller_Wait (p : Poller) (n errno : Z) (evs : list epoll_event) : Z * list PollEvent :=
  if poll_fd_ p <? 0 then (0, [])
  else if n <? 0 then (if errno =? EINTR then 0 else -1, [])
  else let events := Wait_loop (ztake n evs) in (zlen events, events).

(** ** Properties *)

(** The descriptors the poller has open are exactly the two it remembers. *)
Definition poller_ok (p : Poller) : Prop :=
  open_fds p = (if 0 <=? poll_fd_ p then {[ poll_fd_ p ]} else ∅) ∪ (if 0 <=? wake_fd_ p then {[ wake_fd_ p ]} else ∅) /\
  -1 <= poll_fd_ p /\ -1 <= wake_fd_ p /\ (0 <= wake_fd_ p -> 0 <= poll_fd_ p /\ poll_fd_ p <> wake_fd_ p) /\
  (poll_fd_ p < 0 -> interest p = ∅).

(** What the kernel promises about a result: -1 or a descriptor not in use. *)
Definition fresh_fds (r : init_results) : Prop :=
  -1 <= r_create1 r /\ -1 <= r_create r /\ -1 <= r_eventfd r /\
  (0 <= r_eventfd r -> r_eventfd r <> r_create1 r /\ r_eventfd r <> r_create r).

Lemma Init_wake_ok p r :
  fresh_fds r -> open_fds p = {[ poll_fd_ p ]} -> 0 <= poll_fd_ p -> wake_fd_ p = -1 -> interest p = ∅ ->
  r_eventfd r <> poll_fd_ p ->
  let '(e, p') := Init_wake p r in
  poller_ok p' /\ (e = None <-> 0 <= poll_fd_ p') /\ (e = None -> 0 <= wake_fd_ p').
Proof.
  intros (_ & _ & He & _) Ho Hp Hw Hi Hne. unfold Init_wake, open_fd, set_wake_fd. cbn.
  destruct (Z.ltb_spec (r_eventfd r) 0) as [Hlt | Hge].
  - unfold CloseFd_poll, poller_ok. cbn. rewrite (proj2 (Z.leb_gt 0 (r_eventfd r))) by lia.
    rewrite (proj2 (Z.leb_le 0 (poll_fd_ p))) by lia. cbn. rewrite (proj2 (Z.leb_gt 0 (r_eventfd r))) by lia.
    split; [| split; [split; [done | lia] | done]]. rewrite Ho. split; [set_solver | repeat split; lia || done].
  - unfold epoll_ctl_set. cbn. rewrite (proj2 (Z.leb_le 0 (r_eventfd r))) by lia.
    rewrite Hi, lookup_empty. rewrite (bool_decide_false (is_Some None)) by (by intros []). cbn [epoll_admits negb]. rewrite andb_true_r.
    destruct (r_ctl r =? 0).
    + unfold poller_ok. cbn. rewrite (proj2 (Z.leb_le 0 (poll_fd_ p))), (proj2 (Z.leb_le 0 (r_eventfd r))) by lia.
      split; [| split; [split; [lia | done] | lia]]. rewrite Ho. split; [set_solver | repeat split; lia].
    + unfold CloseFd_poll, CloseFd_wake, set_wake_fd, close_fd, poller_ok. cbn.
      rewrite (proj2 (Z.leb_le 0 (r_eventfd r))) by lia. cbn. rewrite (proj2 (Z.leb_le 0 (poll_fd_ p))) by lia. cbn.
      split; [| split; [split; [done | lia] | done]]. rewrite Ho. split; [set_solver | repeat split; lia || done].
Qed.

(** A poller without descriptors is a new one. *)
Lemma poller_closed p : poller_ok p -> poll_fd_ p < 0 -> p = Poller_new.
Proof.
  destruct p as [pf wf i o]. intros (Ho & Hp & Hw & Hwp & Hi). cbn in *. intros Hlt.
  rewrite (Hi Hlt) in *. rewrite (proj2 (Z.leb_gt 0 pf)) in Ho by lia. rewrite (proj2 (Z.leb_gt 0 wf)) in Ho by lia.
  unfold Poller_new. f_equal; [lia | lia |]. rewrite Ho. apply union_empty_l_L.
Qed.

Lemma Poller_Shutdown_ok p : poller_ok p -> Poller_Shutdown p = Poller_new.
Proof.
  intros (Ho & Hp & Hw & Hwp & Hi). apply poller_closed; unfold poller_ok, Poller_Shutdown, CloseFd_poll, CloseFd_wake, set_wake_fd, close_fd;
    destruct (Z.leb_spec 0 (wake_fd_ p)); cbn; destruct (Z.leb_spec 0 (poll_fd_ p)); cbn; try lia;
    rewrite ?(proj2 (Z.leb_gt 0 (wake_fd_ p))), ?(proj2 (Z.leb_gt 0 (poll_fd_ p))) by lia;
    (split; [rewrite Ho; set_solver |]); repeat split; lia || auto.
Qed.

Lemma Poller_Init_ok p r :
  poller_ok p -> fresh_fds r ->
  let '(e, p') := Poller_Init p r in poller_ok p' /\ (e = None <-> 0 <= poll_fd_ p').
Proof.
  intros Hok Hr. unfold Poller_Init. destruct (Z.leb_spec 0 (poll_fd_ p)) as [Hp | Hp]; [done |].
  rewrite (poller_closed p) by (done || lia). pose proof Hr as (H1 & H2 & H3 & H4). unfold open_fd, set_poll_fd. cbn.
  destruct (Z.ltb_spec (r_create1 r) 0); [rewrite (proj2 (Z.leb_gt 0 (r_create1 r))) by lia |].
  - destruct (Z.ltb_spec (r_create r) 0).
    + rewrite (proj2 (Z.leb_gt 0 (r_create r))) by lia. unfold poller_ok. cbn.
      rewrite (proj2 (Z.leb_gt 0 (r_create r))) by lia.
      split; [| split; [done | lia]]. split; [set_solver |]. repeat split; lia || auto with lia.
    + rewrite (proj2 (Z.leb_le 0 (r_create r))) by lia. destruct (negb (SetCloseOnExec r =? 0)).
      * unfold CloseFd_poll, poller_ok. cbn. rewrite (proj2 (Z.leb_le 0 (r_create r))) by lia. cbn.
        split; [| split; [done | lia]]. split; [set_solver |]. repeat split; lia || done.
      * match goal with |- context [Init_wake ?q r] => pose proof (Init_wake_ok q r Hr) as HW end. cbn in HW.
        destruct (Init_wake _ r) as [e p']. destruct HW as (? & ? & _); [set_solver | lia | done | done | lia |]. auto.
  - rewrite (proj2 (Z.leb_le 0 (r_create1 r))) by lia.
    match goal with |- context [Init_wake ?q r] => pose proof (Init_wake_ok q r Hr) as HW end. cbn in HW.
    destruct (Init_wake _ r) as [e p']. destruct HW as (? & ? & _); [set_solver | lia | done | done | lia |]. auto.
Qed.

(** [Init] never leaks: whichever call fails, the descriptors opened before it are
    closed again and the poller is back in its initial state; on success both
    descriptors are open, and [Shutdown] closes everything. *)
Theorem poller_init_no_leak (p : Poller) (r : init_results) :
  poller_ok p -> fresh_fds r ->
  let '(e, p') := Poller_Init p r in
  poller_ok p' /\ (e = None <-> 0 <= poll_fd_ p') /\ (e <> None -> p' = Poller_new) /\ Poller_Shutdown p' = Poller_new.
Proof.
  intros Hok Hr. pose proof (Poller_Init_ok _ _ Hok Hr) as HI. destruct (Poller_Init p r) as [e p'].
  destruct HI as [Hok' He]. split_and!; [done .. | | by apply Poller_Shutdown_ok].
  intros Hne. apply poller_closed; [done |]. destruct (Z_lt_le_dec (poll_fd_ p') 0); [done |]. by destruct Hne; apply He.
Qed.

(** What [Wait] reports for one event of the kernel. *)
Definition wait_spec (ev : epoll_event) : option ConnectionId :=
  if ee_u64 ev =? 0 then None else Some (FromUint64 (ee_u64 ev)).

Lemma Wait_loop_ids evs : ev_id <$> Wait_loop evs = omap wait_spec evs.
Proof.
  induction evs as [| ev evs IH]; [done |]. cbn. unfold wait_spec at 1. destruct (ee_u64 ev =? 0); [done |].
  cbn. by rewrite IH.
Qed.

(** [Wait] drops the wake-up events and no other: a socket registered under [id]
    is reported under [id], in the kernel's order, and never under an invalid id. *)
Lemma poller_wait_ids (p : Poller) (n errno : Z) (evs : list epoll_event) (ids : list (option ConnectionId)) :
  0 <= poll_fd_ p -> n = zlen evs ->
  Forall2 (fun ev oid => match oid with
                         | None => ee_u64 ev = 0
                         | Some id => id_ok id /\ valid id = true /\ ee_u64 ev = ToUint64 id
                         end) evs ids ->
  ev_id <$> (Poller_Wait p n errno evs).2 = omap (fun oid => oid) ids.
Proof.
  intros Hp -> HF. unfold Poller_Wait. rewrite (proj2 (Z.ltb_ge (poll_fd_ p) 0)) by lia.
  pose proof (zlen_nonneg evs). rewrite (proj2 (Z.ltb_ge (zlen evs) 0)) by lia. cbn [snd].
  rewrite ztake_all by lia. rewrite Wait_loop_ids. clear Hp H.
  induction HF as [| ev oid evs ids Hev HF IH]; [done |]. cbn. unfold wait_spec at 1. destruct oid as [id |].
  - destruct Hev as (Hid & Hv & Htag). rewrite Htag.
    destruct (connection_id_tag id Hid) as [Hrt Hnz]. rewrite (proj2 (Z.eqb_neq _ 0)) by auto.
    rewrite Hrt. by rewrite IH.
  - rewrite Hev. cbn. apply IH.
Qed.

(** The readiness bits: an error is reported for [EPOLLERR], and for [EPOLLHUP] only
    when the socket is neither readable nor writable; a half-closed peer counts as
    readable. *)
Lemma ToPollEvent_bits ev :
  has (ev_events (ToPollEvent ev)) kPollEventReadable = has (ee_events ev) (Z.lor EPOLLIN EPOLLRDHUP) /\
  has (ev_events (ToPollEvent ev)) kPollEventWritable = has (ee_events ev) EPOLLOUT /\
  has (ev_events (ToPollEvent ev)) kPollEventError =
    (has (ee_events ev) EPOLLERR || (has (ee_events ev) EPOLLHUP && negb (has (ee_events ev) (Z.lor EPOLLIN EPOLLOUT)))).
Proof.
  unfold ToPollEvent. cbn [ev_events]. destruct (_ || _), (has (ee_events ev) (Z.lor EPOLLIN EPOLLRDHUP)),
    (has (ee_events ev) EPOLLOUT); done.
Qed.

(** ** The theorems on concrete inputs *)

(** [epoll_create1] is not available and [eventfd] fails. *)
Definition init_demo : init_results :=
  {| r_create1 := -1; r_create := 7; r_getfd := 0; r_setfd := 0; r_eventfd := -1; r_ctl := 0; r_errno := 24 |}.

Lemma poller_init_no_leak_witness :
  open_fds (Poller_Init Poller_new init_demo).2 = ∅ /\ poller_ok (Poller_Init Poller_new init_demo).2.
Proof.
  pose proof (poller_init_no_leak Poller_new init_demo) as H.
  destruct (Poller_Init Poller_new init_demo) as [e p] eqn:E. vm_compute in E. injection E as <- <-.
  split; [reflexivity |]. apply H.
  - unfold poller_ok. cbn. repeat split; set_solver || lia || done.
  - unfold fresh_fds. cbn. lia.
Defined.
