(* ===== verification/Kqueue.v ===== *)
(** * The kqueue poller

    [src/net/poller_kqueue.cc], the implementation of [Poller] for macOS. As in [Poller.v]
    the results of the system calls are arguments, and the kernel's part of the state is
    explicit: the filters of the kqueue and the descriptors the poller has open. The
    interface that this poller and the one on epoll share is [Registrar]. *)

Set Warnings "-clear-no-such-hyp".
From S2P Require Import Prelude ConnTable Poller.

Module Kqueue.

(** ** The kernel *)

(** Constants of <sys/event.h>. *)
Definition EV_ADD : Z := 1.
Definition EV_DELETE : Z := 2.
Definition EV_ENABLE : Z := 4.
Definition EV_DISABLE : Z := 8.
Definition EV_ERROR : Z := 16384.
Definition EV_EOF : Z := 32768.

Inductive filter := EVFILT_READ | EVFILT_WRITE.
#[export] Instance filter_eq_dec : EqDecision filter.
Proof. solve_decision. Defined.
#[export] Instance filter_countable : Countable filter.
Proof.
  by refine (inj_countable' (fun f => match f with EVFILT_READ => true | EVFILT_WRITE => false end)
    (fun b : bool => if b then EVFILT_READ else EVFILT_WRITE) _); intros [].
Defined.

Record kevent := { ident : Z; kfilter : filter; flags : Z; fflags : Z; kdata : Z; udata : Z }.

(** [EV_SET]. *)
Definition EV_SET (ident : Z) (f : filter) (flags fflags data udata : Z) : kevent :=
  {| ident := ident; kfilter := f; flags := flags; fflags := fflags; kdata := data; udata := udata |}.

(** A filter the kernel holds. *)
Record knote := { enabled : bool; note_udata : Z }.

(** The members, and the kernel's part. *)
Record Poller := {
  poll_fd_ : Z;
  wake_read_fd_ : Z;
  wake_write_fd_ : Z;
  knotes : gmap (Z * filter) knote;
  open_fds : gset Z
}.

Definition Poller_new : Poller :=
  {| poll_fd_ := -1; wake_read_fd_ := -1; wake_write_fd_ := -1; knotes := ∅; open_fds := ∅ |}.

Definition with_knotes (p : Poller) (k : gmap (Z * filter) knote) : Poller :=
  {| poll_fd_ := poll_fd_ p; wake_read_fd_ := wake_read_fd_ p; wake_write_fd_ := wake_write_fd_ p; knotes := k;
     open_fds := open_fds p |}.

(** One change of the change list. *)
Definition change (k : gmap (Z * filter) knote) (ev : kevent) : gmap (Z * filter) knote :=
  if has (flags ev) EV_DELETE then delete (ident ev, kfilter ev) k
  else if has (flags ev) EV_ADD then
    <[(ident ev, kfilter ev) := {| enabled := negb (has (flags ev) EV_DISABLE); note_udata := udata ev |}]> k
  else k.

(** [kevent(poll_fd_, evs, count, nullptr, 0, nullptr)]: the kernel makes the changes in
    order and stops at the first it refuses; [n] is how many it makes. *)
Definition kevent_change (p : Poller) (evs : list kevent) (n : nat) : Z * Poller :=
  (if bool_decide (length evs <= n)%nat then 0 else -1, with_knotes p (foldl change (knotes p) (take n evs))).

(** ** Sockets *)

Definition Poller_Add (p : Poller) (fd : Z) (id : ConnectionId) (interest : Z) (n : nat) : bool * Poller :=
  let udata := ToUint64 id in
  let read_flags := Z.lor EV_ADD (if has interest kPollReadable then EV_ENABLE else EV_DISABLE) in
  let write_flags := Z.lor EV_ADD (if has interest kPollWritable then EV_ENABLE else EV_DISABLE) in
  let evs := [EV_SET fd EVFILT_READ read_flags 0 0 udata; EV_SET fd EVFILT_WRITE write_flags 0 0 udata] in
  let '(rc, p) := kevent_change p evs n in (rc =? 0, p).

Definition Poller_Modify (p : Poller) (fd : Z) (id : ConnectionId) (interest : Z) (n : nat) : bool * Poller :=
  Poller_Add p fd id interest n.

(** The kernel refuses to delete a filter it does not have, and stops there. *)
Definition deletions (p : Poller) (fd : Z) : nat :=
  match knotes p !! (fd, EVFILT_READ), knotes p !! (fd, EVFILT_WRITE) with
  | None, _ => 0
  | Some _, None => 1
  | Some _, Some _ => 2
  end.

Definition Poller_Remove (p : Poller) (fd : Z) : Poller :=
  if (fd <? 0) || (poll_fd_ p <? 0) then p
  else
    let evs := [EV_SET fd EVFILT_READ EV_DELETE 0 0 0; EV_SET fd EVFILT_WRITE EV_DELETE 0 0 0] in
    (kevent_change p evs (deletions p fd)).2.

(** ** Init and Shutdown *)

Definition CloseFd_wake_write (p : Poller) : Poller :=
  if 0 <=? wake_write_fd_ p
  then {| poll_fd_ := poll_fd_ p; wake_read_fd_ := wake_read_fd_ p; wake_write_fd_ := -1; knotes := knotes p;
          open_fds := open_fds p ∖ {[ wake_write_fd_ p ]} |}
  else p.

Definition CloseFd_wake_read (p : Poller) : Poller :=
  if 0 <=? wake_read_fd_ p
  then {| poll_fd_ := poll_fd_ p; wake_read_fd_ := -1; wake_write_fd_ := wake_write_fd_ p; knotes := knotes p;
          open_fds := open_fds p ∖ {[ wake_read_fd_ p ]} |}
  else p.

(** The filters go with the kqueue. *)
Definition CloseFd_poll (p : Poller) : Poller :=
  if 0 <=? poll_fd_ p
  then {| poll_fd_ := -1; wake_read_fd_ := wake_read_fd_ p; wake_write_fd_ := wake_write_fd_ p; knotes := ∅;
          open_fds := open_fds p ∖ {[ poll_fd_ p ]} |}
  else p.

Definition Poller_Shutdown (p : Poller) : Poller := CloseFd_poll (CloseFd_wake_read (CloseFd_wake_write p)).

(** What the calls of [Init] return: [kqueue], [pipe] with its two descriptors, [fcntl] by
    descriptor and command, and whether the kernel accepts the wake-up filter. *)
Inductive fcntl_cmd := F_GETFD | F_SETFD | F_GETFL | F_SETFL.
Record init_results := {
  r_kqueue : Z; r_pipe : Z; r_pipe_read : Z; r_pipe_write : Z; r_fcntl : Z -> fcntl_cmd -> Z; r_wake : bool; r_errno : Z
}.

Definition SetCloseOnExec (r : init_results) (fd : Z) : Z :=
  if r_fcntl r fd F_GETFD <? 0 then -1 else r_fcntl r fd F_SETFD.

Definition SetNonBlocking (r : init_results) (fd : Z) : bool :=
  if r_fcntl r fd F_GETFL <? 0 then false else r_fcntl r fd F_SETFL =? 0.

Definition Poller_Init (p : Poller) (r : init_results) : option Z * Poller :=
  if 0 <=? poll_fd_ p then (None, p)
  else if r_kqueue r <? 0 then
    (Some (r_errno r), {| poll_fd_ := r_kqueue r; wake_read_fd_ := wake_read_fd_ p; wake_write_fd_ := wake_write_fd_ p;
                          knotes := knotes p; open_fds := open_fds p |})
  else
    let p := {| poll_fd_ := r_kqueue r; wake_read_fd_ := wake_read_fd_ p; wake_write_fd_ := wake_write_fd_ p;
                knotes := ∅; open_fds := {[ r_kqueue r ]} ∪ open_fds p |} in
    if negb (SetCloseOnExec r (poll_fd_ p) =? 0) then (Some (r_errno r), CloseFd_poll p)
    else if negb (r_pipe r =? 0) then (Some (r_errno r), CloseFd_poll p)
    else
      let p := {| poll_fd_ := poll_fd_ p; wake_read_fd_ := r_pipe_read r; wake_write_fd_ := r_pipe_write r;
                  knotes := knotes p; open_fds := {[ r_pipe_read r; r_pipe_write r ]} ∪ open_fds p |} in
      let failed := CloseFd_poll (CloseFd_wake_write (CloseFd_wake_read p)) in
      if negb (SetNonBlocking r (wake_read_fd_ p)) || negb (SetNonBlocking r (wake_write_fd_ p)) ||
         negb (SetCloseOnExec r (wake_read_fd_ p) =? 0) || negb (SetCloseOnExec r (wake_write_fd_ p) =? 0)
      then (Some (r_errno r), failed)
      else
        let ev := EV_SET (wake_read_fd_ p) EVFILT_READ (Z.lor EV_ADD EV_ENABLE) 0 0 0 in
        let '(rc, p') := kevent_change p [ev] (if r_wake r then 1 else 0) in
        if negb (rc =? 0) then (Some (r_errno r), failed) else (None, p').

(** ** Wait *)

(** [SocketError]; [so_error] is what [getsockopt] finds, [None] if it fails. *)
Definition SocketError (so_error : Z -> option Z) (fd : Z) (ev : kevent) : Z :=
  if has (flags ev) EV_ERROR then kdata ev
  else if has (flags ev) EV_EOF && negb (fflags ev =? 0) then fflags ev
  else if 0 <=? fd then default 0 (so_error fd) else 0.

Definition is_write (f : filter) : bool := match f with EVFILT_WRITE => true | EVFILT_READ => false end.

Definition ToPollEvent (so_error : Z -> option Z) (ev : kevent) : PollEvent :=
  let error := has (flags ev) EV_ERROR || (has (flags ev) EV_EOF && is_write (kfilter ev)) in
  let events := if error then Z.lor 0 kPollEventError else 0 in
  let error_code := if error then SocketError so_error (ident ev) ev else 0 in
  let events := if is_write (kfilter ev) then events else Z.lor events kPollEventReadable in
  let events := if is_write (kfilter ev) then Z.lor events kPollEventWritable else events in
  ready_event (FromUint64 (udata ev)) events error_code.

Fixpoint Wait_loop (so_error : Z -> option Z) (wake : Z) (evs : list kevent) : list PollEvent :=
  match evs with
  | [] => []
  | ev :: evs' =>
      if ident ev =? wake then Wait_loop so_error wake evs' else ToPollEvent so_error ev :: Wait_loop so_error wake evs'
  end.

Definition Poller_Wait (p : Poller) (so_error : Z -> option Z) (n errno : Z) (evs : list kevent) : Z * list PollEvent :=
  if poll_fd_ p <? 0 then (0, [])
  else if n <? 0 then (if errno =? EINTR then 0 else -1, [])
  else let events := Wait_loop so_error (wake_read_fd_ p) (ztake n evs) in (zlen events, events).

(** The timeout as [kevent] takes it. *)
Definition timeout_spec (timeout_ms : Z) : Z * Z := (Z.quot timeout_ms 1000, Z.rem timeout_ms 1000 * 1000000).

(** ** Properties *)

(** What the kernel promises: -1, or descriptors that are not in use. *)
Definition fresh_fds (r : init_results) : Prop :=
  -1 <= r_kqueue r /\
  (r_pipe r = 0 -> 0 <= r_pipe_read r /\ 0 <= r_pipe_write r /\
     r_pipe_read r <> r_pipe_write r /\ r_kqueue r <> r_pipe_read r /\ r_kqueue r <> r_pipe_write r).

(** Closing what was opened, in any of the orders of the code. *)
Lemma close_three pf rf wf k :
  0 <= pf -> 0 <= rf -> 0 <= wf -> rf <> wf -> pf <> rf -> pf <> wf ->
  let p := {| poll_fd_ := pf; wake_read_fd_ := rf; wake_write_fd_ := wf; knotes := k; open_fds := {[ rf; wf ]} ∪ ({[ pf ]} ∪ ∅) |} in
  CloseFd_poll (CloseFd_wake_write (CloseFd_wake_read p)) = Poller_new /\ Poller_Shutdown p = Poller_new.
Proof.
  intros H1 H2 H3 H4 H5 H6. unfold Poller_Shutdown, CloseFd_poll, CloseFd_wake_write, CloseFd_wake_read, Poller_new. cbn.
  rewrite (proj2 (Z.leb_le 0 rf)), (proj2 (Z.leb_le 0 wf)) by done. cbn.
  rewrite (proj2 (Z.leb_le 0 wf)), (proj2 (Z.leb_le 0 rf)) by done. cbn. rewrite (proj2 (Z.leb_le 0 pf)) by done.
  split; f_equal; set_solver.
Qed.

Lemma close_one pf :
  0 <= pf ->
  CloseFd_poll {| poll_fd_ := pf; wake_read_fd_ := -1; wake_write_fd_ := -1; knotes := ∅; open_fds := {[ pf ]} ∪ ∅ |} = Poller_new.
Proof. intros H1. unfold CloseFd_poll, Poller_new. cbn. rewrite (proj2 (Z.leb_le 0 pf)) by done. f_equal. set_solver. Qed.

(** [Init] never leaks on kqueue either: whichever of its calls fails, everything opened
    before is closed again; on success [Shutdown] closes everything. *)
Theorem kqueue_init_no_leak (r : init_results) :
  fresh_fds r ->
  let '(e, p) := Poller_Init Poller_new r in
  (e <> None -> p = Poller_new) /\ (e = None -> 0 <= poll_fd_ p) /\ Poller_Shutdown p = Poller_new.
Proof.
  intros [H1 H2]. unfold Poller_Init. cbn. destruct (Z.ltb_spec (r_kqueue r) 0) as [Hk | Hk].
  { split_and!; try done. - intros _. unfold Poller_new. f_equal. lia. - unfold Poller_Shutdown, CloseFd_poll. cbn.
    rewrite (proj2 (Z.leb_gt 0 (r_kqueue r))) by done. unfold Poller_new. f_equal. lia. }
  pose proof (close_one (r_kqueue r) Hk) as HC1. destruct (negb (SetCloseOnExec r (r_kqueue r) =? 0)); [by rewrite HC1 |].
  destruct (Z.eqb_spec (r_pipe r) 0) as [Ep | Ep]; cbn [negb]; [| by rewrite HC1].
  destruct (H2 Ep) as (H3 & H4 & H5 & H6 & H7). destruct (close_three (r_kqueue r) (r_pipe_read r) (r_pipe_write r) ∅) as [HC2 _]; try done.
  destruct (_ || _); [by rewrite HC2 |]. destruct (r_wake r); cbn; [| by rewrite HC2].
  split_and!; try done. by apply close_three.
Qed.

(** The second write of the pipe's flags fails. *)
Definition kqueue_init_demo : init_results :=
  {| r_kqueue := 3; r_pipe := 0; r_pipe_read := 4; r_pipe_write := 5;
     r_fcntl := fun fd c => match c with F_SETFL => if fd =? 5 then -1 else 0 | _ => 0 end; r_wake := true; r_errno := 22 |}.

Lemma kqueue_init_no_leak_witness : (Poller_Init Poller_new kqueue_init_demo).2 = Poller_new.
Proof.
  pose proof (kqueue_init_no_leak kqueue_init_demo) as HI. destruct (Poller_Init Poller_new kqueue_init_demo) as [e p] eqn:E.
  destruct HI as (HI & _ & _); [unfold fresh_fds; cbn; lia |]. apply HI. vm_compute in E. by injection E as <- _.
Defined.

End Kqueue.
