(* ===== verification/Registrar.v ===== *)
(** * What the pollers promise

    The part of [src/net/poller.h] that does not depend on the platform, as an interface:
    sockets are registered under a connection id with an interest, and their readiness is
    reported under that id. [poller_linux.cc] and [poller_kqueue.cc] both implement it;
    programs over the interface are verified once. *)

From S2P Require Import Prelude ConnTable Poller Kqueue.

(** ** Sockets and reports *)

(** What the kernel finds at a socket that has no error and is not hung up: there is data to
    read, there is room to write, the peer has shut down its side. *)
Record sock := { can_read : bool; can_write : bool; peer_closed : bool }.

(** [Wait] reports the socket in state [σ], registered under [id] for [i], by the events
    [evs]: all of them are for [id] and none is an error; together they say readable and
    writable as the interest asks for. With [hup] the end of the peer's side is
    reported as readable even without interest in reading. *)
Definition reports (hup : bool) (id : ConnectionId) (i : Z) (σ : sock) (evs : list PollEvent) : Prop :=
  Forall (fun ev => ev_id ev = id /\ ev_events ev <> 0 /\ has (ev_events ev) kPollEventError = false /\ ev_error_code ev = 0) evs /\
  existsb (fun ev => has (ev_events ev) kPollEventReadable) evs =
    (has i kPollReadable && (can_read σ || peer_closed σ)) || (hup && peer_closed σ) /\
  existsb (fun ev => has (ev_events ev) kPollEventWritable) evs = has i kPollWritable && can_write σ.

(** A call for [fd] concerns no other socket. *)
Definition only_about {P} (ok : P -> Prop) (free registered : P -> Z -> Prop) (report : P -> Z -> sock -> list PollEvent)
    (p p' : P) (fd : Z) : Prop :=
  ok p' /\ (forall g, free p' g <-> free p g) /\
  forall g, g <> fd -> (registered p' g <-> registered p g) /\ forall σ, report p' g σ = report p g σ.

(** A poller [P] whose kernel answers [K]; [r_grants k]: the kernel has no reason of its own to
    refuse. [r_report p fd σ] is what [Wait] says of [fd]. *)
Class Registrar (P K : Type) := {
  r_ok : P -> Prop;
  r_free : P -> Z -> Prop;
  r_registered : P -> Z -> Prop;
  r_grants : K -> Prop;
  r_hup : bool;
  r_set : bool -> P -> Z -> ConnectionId -> Z -> K -> bool * P;
  r_remove : P -> Z -> P;
  r_closed : P -> Z -> P;
  r_report : P -> Z -> sock -> list PollEvent;
  r_quiet p fd σ : r_ok p -> ~ r_registered p fd -> r_report p fd σ = [];
  r_set_ok (modify : bool) p fd id i k :
    r_ok p -> r_free p fd -> id_ok id -> valid id = true -> 0 <= i < 4 ->
    let '(ok, p') := r_set modify p fd id i k in
    only_about r_ok r_free r_registered r_report p p' fd /\
    (ok = true -> r_registered p' fd /\ forall σ, reports r_hup id i σ (r_report p' fd σ)) /\
    (ok = false -> forall σ ev, ev ∈ r_report p' fd σ -> ev_id ev = id \/ exists ev', ev' ∈ r_report p fd σ /\ ev_id ev' = ev_id ev) /\
    (r_grants k -> (modify = true <-> r_registered p fd) -> ok = true);
  r_remove_ok p fd :
    r_ok p -> r_free p fd ->
    only_about r_ok r_free r_registered r_report p (r_remove p fd) fd /\ ~ r_registered (r_remove p fd) fd;
  r_closed_ok p fd :
    r_ok p -> r_free p fd ->
    only_about r_ok r_free r_registered r_report p (r_closed p fd) fd /\ ~ r_registered (r_closed p fd) fd;
}.

(** ** epoll *)

(** What epoll finds at a socket: the end of the peer's side is [EPOLLRDHUP], and
    [EPOLLIN] as well. *)
Definition epoll_flags (σ : sock) : Z :=
  Z.lor (if can_read σ || peer_closed σ then EPOLLIN else 0)
    (Z.lor (if can_write σ then EPOLLOUT else 0) (if peer_closed σ then EPOLLRDHUP else 0)).

(** [Wait] when [epoll_wait] finds [fd] in state [σ] and nothing else: the event has the flags
    that were asked for; without any there is none. *)
Definition epoll_report (p : Poller) (fd : Z) (σ : sock) : list PollEvent :=
  match interest p !! fd with
  | Some ev =>
      let flags := Z.land (epoll_flags σ) (ee_events ev) in
      if flags =? 0 then [] else (Poller_Wait p 1 0 [{| ee_events := flags; ee_u64 := ee_u64 ev |}]).2
  | None => []
  end.

Lemma epoll_report_set p fd id i σ :
  0 <= poll_fd_ p -> id_ok id -> valid id = true -> 0 <= i < 4 ->
  interest p !! fd = Some {| ee_events := ToEpollEvents i; ee_u64 := ToUint64 id |} ->
  reports true id i σ (epoll_report p fd σ).
Proof.
  intros Hp Hid Hv Hi E. unfold epoll_report. rewrite E. cbn [ee_events ee_u64]. unfold Poller_Wait.
  rewrite (proj2 (Z.ltb_ge (poll_fd_ p) 0)) by lia. cbn [snd Z.ltb Z.compare]. rewrite ztake_all by done. cbn [Wait_loop ee_u64].
  destruct (connection_id_tag id Hid) as [Hrt Hnz]. rewrite (proj2 (Z.eqb_neq (ToUint64 id) 0)) by auto. unfold ToPollEvent. cbn [ee_u64].
  rewrite Hrt. assert (i = 0 \/ i = 1 \/ i = 2 \/ i = 3) as [-> | [-> | [-> | ->]]] by lia; destruct σ as [[] [] []];
    (split; [repeat constructor; done | done]).
Qed.

Definition epoll_has (p : Poller) (fd : Z) : Prop := is_Some (interest p !! fd).

(** Changing the entry of [fd] concerns no other socket. *)
Lemma epoll_local p fd m :
  0 <= poll_fd_ p -> (forall g, g <> fd -> m !! g = interest p !! g) ->
  let p' := {| poll_fd_ := poll_fd_ p; wake_fd_ := wake_fd_ p; interest := m; open_fds := open_fds p |} in
  only_about (fun p => 0 <= poll_fd_ p) (fun p fd => 0 <= fd /\ fd <> wake_fd_ p) epoll_has epoll_report p p' fd.
Proof.
  intros Hp Hm p'. split_and!; [done | done |]. intros g Hg. unfold epoll_has, epoll_report, p', Poller_Wait. cbn. by rewrite Hm.
Qed.

#[export] Program Instance epoll_registrar : Registrar Poller Z := {
  r_ok (p : Poller) := 0 <= poll_fd_ p;
  r_free (p : Poller) fd := 0 <= fd /\ fd <> wake_fd_ p;
  r_registered := epoll_has;
  r_grants rc := rc = 0;
  r_hup := true;
  r_set modify := if modify : bool then Poller_Modify else Poller_Add;
  r_remove := Poller_Remove;
  r_closed := epoll_closed;
  r_report := epoll_report;
}.
Next Obligation.
  intros p fd σ _ Hn. unfold epoll_report. destruct (interest p !! fd) eqn:E; [| done]. destruct Hn. by eexists.
Qed.
Next Obligation.
  intros modify p fd id i rc Hp [Hfd Hw] Hid Hv Hi. cbn beta in Hp. set (op := if modify then EPOLL_CTL_MOD else EPOLL_CTL_ADD).
  assert (E : (if modify then Poller_Modify else Poller_Add) p fd id i rc =
    epoll_ctl_set op p fd {| ee_events := ToEpollEvents i; ee_u64 := ToUint64 id |} rc) by by destruct modify.
  rewrite E. unfold epoll_ctl_set. destruct ((rc =? 0) && _) eqn:Eg.
  - split_and!; [| split | done | done].
    + apply (epoll_local p fd); [done |]. intros g Hg. by rewrite lookup_insert_ne.
    + eexists. cbn. by rewrite lookup_insert_eq.
    + intros σ. apply epoll_report_set; try done. cbn. by rewrite lookup_insert_eq.
  - split_and!; [by destruct p; apply epoll_local | done | by right; eexists |]. intros -> Hreg. exfalso. cbn in Eg.
    destruct modify; cbn in Eg; case_bool_decide as Hr; try done; destruct Hreg as [H1 H2];
      [by destruct Hr; apply H1 | by specialize (H2 Hr)].
Qed.
Next Obligation.
  intros p fd Hp [Hfd Hw]. cbn beta in Hp. unfold Poller_Remove. rewrite (proj2 (Z.ltb_ge fd 0)), (proj2 (Z.ltb_ge (poll_fd_ p) 0)) by lia. cbn [orb].
  split; [apply epoll_local; [done |]; intros g Hg; by rewrite lookup_delete_ne |]. unfold epoll_has. cbn. rewrite lookup_delete_eq. by intros [].
Qed.
Next Obligation.
  intros p fd Hp [Hfd Hw]. cbn beta in Hp. split; [apply epoll_local; [done |]; intros g Hg; by rewrite lookup_delete_ne |].
  unfold epoll_has. cbn. rewrite lookup_delete_eq. by intros [].
Qed.

(** ** kqueue *)

Definition kqueue_closed (p : Kqueue.Poller) (fd : Z) : Kqueue.Poller :=
  Kqueue.with_knotes p (delete (fd, Kqueue.EVFILT_WRITE) (delete (fd, Kqueue.EVFILT_READ) (Kqueue.knotes p))).

(** What [kevent] reports of a socket for one filter, if it is there and enabled: the one
    for reading fires when there is data or the peer's end, which is flagged. *)
Definition kqueue_fires (p : Kqueue.Poller) (fd : Z) (f : Kqueue.filter) (σ : sock) : list Kqueue.kevent :=
  match Kqueue.knotes p !! (fd, f) with
  | Some n =>
      let fires := match f with Kqueue.EVFILT_READ => can_read σ || peer_closed σ | Kqueue.EVFILT_WRITE => can_write σ end in
      let flags := match f with Kqueue.EVFILT_READ => if peer_closed σ then Kqueue.EV_EOF else 0 | Kqueue.EVFILT_WRITE => 0 end in
      if Kqueue.enabled n && fires then [Kqueue.EV_SET fd f flags 0 0 (Kqueue.note_udata n)] else []
  | None => []
  end.

(** [Wait] when [kevent] finds [fd] in state [σ] and nothing else. *)
Definition kqueue_report (p : Kqueue.Poller) (fd : Z) (σ : sock) : list PollEvent :=
  let evs := kqueue_fires p fd Kqueue.EVFILT_READ σ ++ kqueue_fires p fd Kqueue.EVFILT_WRITE σ in
  (Kqueue.Poller_Wait p (fun _ => None) (zlen evs) 0 evs).2.

(** The filter for writing never stands alone: [Remove] deletes the one for reading first
    and would stop there. *)
Definition kqueue_ok (p : Kqueue.Poller) : Prop :=
  0 <= Kqueue.poll_fd_ p /\
  forall fd, Kqueue.knotes p !! (fd, Kqueue.EVFILT_READ) = None -> Kqueue.knotes p !! (fd, Kqueue.EVFILT_WRITE) = None.

Definition kqueue_free (p : Kqueue.Poller) (fd : Z) : Prop := 0 <= fd /\ fd <> Kqueue.wake_read_fd_ p.

Definition kqueue_has (p : Kqueue.Poller) (fd : Z) : Prop := is_Some (Kqueue.knotes p !! (fd, Kqueue.EVFILT_READ)).

Lemma change_set k fd f (b : bool) u :
  Kqueue.change k (Kqueue.EV_SET fd f (Z.lor Kqueue.EV_ADD (if b then Kqueue.EV_ENABLE else Kqueue.EV_DISABLE)) 0 0 u) =
  <[(fd, f) := {| Kqueue.enabled := b; Kqueue.note_udata := u |}]> k.
Proof. by destruct b. Qed.

Lemma change_delete k fd f : Kqueue.change k (Kqueue.EV_SET fd f Kqueue.EV_DELETE 0 0 0) = delete (fd, f) k.
Proof. done. Qed.

(** The report, event by event. *)
Lemma kqueue_report_eq p fd σ :
  0 <= Kqueue.poll_fd_ p -> kqueue_free p fd ->
  kqueue_report p fd σ =
    Kqueue.ToPollEvent (fun _ => None) <$> (kqueue_fires p fd Kqueue.EVFILT_READ σ ++ kqueue_fires p fd Kqueue.EVFILT_WRITE σ).
Proof.
  intros Hp [_ Hw]. unfold kqueue_report, Kqueue.Poller_Wait. rewrite (proj2 (Z.ltb_ge (Kqueue.poll_fd_ p) 0)) by lia.
  set (evs := _ ++ _). pose proof (zlen_nonneg evs). rewrite (proj2 (Z.ltb_ge (zlen evs) 0)) by lia. cbn [snd]. rewrite ztake_all by lia.
  assert (HF : Forall (fun ev => Kqueue.ident ev = fd) evs).
  { subst evs. apply list.Forall_app. split; unfold kqueue_fires; repeat case_match; repeat constructor. }
  clearbody evs. clear -HF Hw. induction HF as [| ev evs Hev HF IH]; [done |]. cbn. rewrite Hev, (proj2 (Z.eqb_neq fd _)) by done. by rewrite IH.
Qed.

(** Changing the filters of [fd] concerns no other socket. *)
Lemma kqueue_local p fd k :
  kqueue_ok p -> (forall g f, g <> fd -> k !! (g, f) = Kqueue.knotes p !! (g, f)) ->
  (k !! (fd, Kqueue.EVFILT_READ) = None -> k !! (fd, Kqueue.EVFILT_WRITE) = None) ->
  only_about kqueue_ok kqueue_free kqueue_has kqueue_report p (Kqueue.with_knotes p k) fd.
Proof.
  intros [Hp HI] Hk Hfd. split_and!; [split; [done |] | done |].
  - intros g. destruct (decide (g = fd)) as [-> | Hg]; [done |]. cbn. rewrite !Hk by done. apply HI.
  - intros g Hg. unfold kqueue_has, kqueue_report, kqueue_fires, Kqueue.Poller_Wait. cbn. by rewrite !Hk.
Qed.

Lemma pair_ne {A B} (a a' : A) (b b' : B) : a <> a' -> (a, b) <> (a', b').
Proof. congruence. Qed.

(** Both filters as [Add] sets them. *)
Lemma kqueue_report_set p fd id i σ :
  0 <= Kqueue.poll_fd_ p -> kqueue_free p fd -> id_ok id -> 0 <= i < 4 ->
  Kqueue.knotes p !! (fd, Kqueue.EVFILT_READ) = Some {| Kqueue.enabled := has i kPollReadable; Kqueue.note_udata := ToUint64 id |} ->
  Kqueue.knotes p !! (fd, Kqueue.EVFILT_WRITE) = Some {| Kqueue.enabled := has i kPollWritable; Kqueue.note_udata := ToUint64 id |} ->
  reports false id i σ (kqueue_report p fd σ).
Proof.
  intros Hp Hw Hid Hi E1 E2. rewrite kqueue_report_eq by done. unfold kqueue_fires. rewrite E1, E2. cbn [Kqueue.enabled Kqueue.note_udata].
  unfold reports. destruct σ as [r w c]. cbn [can_read can_write peer_closed andb]. rewrite orb_false_r.
  destruct (has i kPollReadable), (has i kPollWritable), r, w, c; cbn -[FromUint64 ToUint64];
    rewrite ?list.Forall_cons, ?list.Forall_nil; split_and!; done || apply (proj1 (connection_id_tag id Hid)).
Qed.

(** A report has the ids of the filters. *)
Lemma kqueue_report_ids p fd σ ev :
  0 <= Kqueue.poll_fd_ p -> kqueue_free p fd -> ev ∈ kqueue_report p fd σ ->
  exists f kev, kev ∈ kqueue_fires p fd f σ /\ ev = Kqueue.ToPollEvent (fun _ => None) kev.
Proof.
  intros Hp Hw Hev. rewrite kqueue_report_eq in Hev by done. apply list_elem_of_fmap in Hev as (kev & -> & [Hk | Hk]%elem_of_app); eauto.
Qed.

Lemma kqueue_fires_report p fd f σ kev :
  0 <= Kqueue.poll_fd_ p -> kqueue_free p fd -> kev ∈ kqueue_fires p fd f σ -> Kqueue.ToPollEvent (fun _ => None) kev ∈ kqueue_report p fd σ.
Proof.
  intros Hp Hw Hk. rewrite kqueue_report_eq by done. apply list_elem_of_fmap_2. apply elem_of_app. destruct f; auto.
Qed.

#[export] Program Instance kqueue_registrar : Registrar Kqueue.Poller nat := {
  r_ok := kqueue_ok;
  r_free := kqueue_free;
  r_registered := kqueue_has;
  r_grants n := (2 <= n)%nat;
  r_hup := false;
  r_set modify := if modify : bool then Kqueue.Poller_Modify else Kqueue.Poller_Add;
  r_remove := Kqueue.Poller_Remove;
  r_closed := kqueue_closed;
  r_report := kqueue_report;
}.
Next Obligation.
  intros p fd σ [_ HI] Hn. unfold kqueue_report, kqueue_fires. specialize (HI fd). unfold kqueue_has in Hn.
  destruct (Kqueue.knotes p !! (fd, Kqueue.EVFILT_READ)); [by destruct Hn |]. rewrite HI by done. unfold Kqueue.Poller_Wait. by destruct (_ <? 0).
Qed.
Next Obligation.
  intros modify p fd id i n HP Hw Hid Hv Hi. pose proof HP as [Hp HI].
  assert (E : (if modify then Kqueue.Poller_Modify else Kqueue.Poller_Add) = Kqueue.Poller_Add) by by destruct modify. rewrite E. clear E.
  unfold Kqueue.Poller_Add, Kqueue.kevent_change. cbn zeta.
  assert (Hn : n = 0%nat \/ n = 1%nat \/ (2 <= n)%nat) by lia. destruct Hn as [-> | [-> | Hn]]; cbn [take foldl length].
  - rewrite bool_decide_false by lia. split_and!; [apply kqueue_local; [done | done | apply HI] | done | | lia].
    intros _ σ ev Hev. right. eexists. split; [exact Hev | done].
  - rewrite bool_decide_false by lia. rewrite change_set. set (k := <[_ := _]> _).
    assert (HL : only_about kqueue_ok kqueue_free kqueue_has kqueue_report p (Kqueue.with_knotes p k) fd).
    { apply kqueue_local; [done | | by subst k; rewrite lookup_insert_eq]. intros g f Hg. subst k. by rewrite lookup_insert_ne by (by apply pair_ne). }
    split_and!; [exact HL | done | | lia]. intros _ σ ev Hev. apply kqueue_report_ids in Hev as ([] & kev & Hk & ->); [| | done | done].
    + left. unfold kqueue_fires in Hk. cbn in Hk. subst k. rewrite lookup_insert_eq in Hk. case_match; [| by apply not_elem_of_nil in Hk].
      apply list_elem_of_singleton in Hk as ->. apply (proj1 (connection_id_tag id Hid)).
    + right. exists (Kqueue.ToPollEvent (fun _ => None) kev). split; [| done]. apply (kqueue_fires_report p fd Kqueue.EVFILT_WRITE); [done | done |].
      unfold kqueue_fires in *. cbn in Hk. subst k. by rewrite lookup_insert_ne in Hk.
  - rewrite bool_decide_true by lia. rewrite firstn_all2 by (cbn; lia). cbn [foldl]. rewrite !change_set. set (k := <[_ := _]> _).
    split_and!; [| | done | done].
    + apply kqueue_local; [done | | by subst k; rewrite lookup_insert_ne, lookup_insert_eq].
      intros g f Hg. subst k. by rewrite !lookup_insert_ne by (by apply pair_ne).
    + intros _. split; [eexists; subst k; cbn; by rewrite lookup_insert_ne, lookup_insert_eq |].
      intros σ. apply kqueue_report_set; try done; subst k; cbn; by simplify_map_eq.
Qed.
Next Obligation.
  intros p fd HP [Hfd Hw]. pose proof HP as [Hp HI]. unfold Kqueue.Poller_Remove. rewrite (proj2 (Z.ltb_ge fd 0)), (proj2 (Z.ltb_ge (Kqueue.poll_fd_ p) 0)) by lia.
  cbn [orb]. unfold Kqueue.kevent_change. cbn [snd]. set (k := foldl _ _ _).
  assert (Hk : (forall f, k !! (fd, f) = None) /\ forall g f, g <> fd -> k !! (g, f) = Kqueue.knotes p !! (g, f)).
  { subst k. unfold Kqueue.deletions. specialize (HI fd).
    destruct (Kqueue.knotes p !! (fd, Kqueue.EVFILT_READ)) as [a |] eqn:E1; destruct (Kqueue.knotes p !! (fd, Kqueue.EVFILT_WRITE)) as [b |] eqn:E2;
      cbn [take foldl]; rewrite ?change_delete; try (by specialize (HI eq_refl));
      (split; [intros []; simplify_map_eq; done | intros g f Hg; rewrite ?lookup_delete_ne by (by apply pair_ne); done]). }
  destruct Hk as [Hk1 Hk2]. split; [apply kqueue_local; [done | done | by rewrite !Hk1] |]. unfold kqueue_has. cbn. rewrite Hk1. by intros [].
Qed.
Next Obligation.
  intros p fd HP Hw. split.
  - apply kqueue_local; [done | |].
    + intros g f Hg. by rewrite !lookup_delete_ne by (by apply pair_ne).
    + intros _. by rewrite lookup_delete_eq.
  - unfold kqueue_has. cbn. rewrite lookup_delete_ne, lookup_delete_eq by done. by intros [].
Qed.

(** ** Programs over the interface *)

Section Programs.
Context {P K : Type} `{RP : Registrar P K}.

(** What happens to the poller: the calls of the connections, with the kernel's answer, and
    sockets that are closed. *)
Inductive reg_op :=
| RegSet (modify : bool) (fd : Z) (id : ConnectionId) (interest : Z) (answer : K)
| RegRemove (fd : Z)
| RegClosed (fd : Z).

Definition reg_fd (op : reg_op) : Z := match op with RegSet _ fd _ _ _ | RegRemove fd | RegClosed fd => fd end.

Definition reg_op_ok (p : P) (op : reg_op) : Prop :=
  r_free p (reg_fd op) /\
  match op with RegSet _ _ id i _ => id_ok id /\ valid id = true /\ 0 <= i < 4 | _ => True end.

(** The specification: what is known of every socket. It is registered; or the last call for it
    failed, and these are the ids it was given since it was last removed; or it is
    unknown to the poller. *)
Inductive registration := Registered (id : ConnectionId) (interest : Z) | Refused (ids : list ConnectionId).

Definition ids_of (reg : option registration) : list ConnectionId :=
  match reg with Some (Registered id _) => [id] | Some (Refused ids) => ids | None => [] end.

Definition reg_step (st : P * gmap Z registration) (op : reg_op) : P * gmap Z registration :=
  let '(p, m) := st in
  match op with
  | RegSet modify fd id i k =>
      let '(ok, p') := r_set modify p fd id i k in
      (p', <[fd := if ok : bool then Registered id i else Refused (id :: ids_of (m !! fd))]> m)
  | RegRemove fd => (r_remove p fd, delete fd m)
  | RegClosed fd => (r_closed p fd, delete fd m)
  end.

(** What is reported of a socket, as the specification has it. *)
Definition reg_says (p : P) (fd : Z) (reg : option registration) : Prop :=
  match reg with
  | Some (Registered id i) => r_registered p fd /\ forall σ, reports r_hup id i σ (r_report p fd σ)
  | Some (Refused ids) => forall σ ev, ev ∈ r_report p fd σ -> ev_id ev ∈ ids
  | None => ~ r_registered p fd
  end.

Definition reg_agrees (p : P) (m : gmap Z registration) : Prop := forall fd, r_free p fd -> reg_says p fd (m !! fd).

Lemma reg_says_ids p fd reg σ ev : r_ok p -> reg_says p fd reg -> ev ∈ r_report p fd σ -> ev_id ev ∈ ids_of reg.
Proof.
  intros Hp HS Hev. destruct reg as [[id i | ids] |]; cbn in *; [| by eapply HS |].
  - destruct HS as [_ HS]. destruct (HS σ) as [HF _]. rewrite list.Forall_forall in HF. destruct (HF _ Hev) as [<- _]. by left.
  - rewrite r_quiet in Hev by done. by apply not_elem_of_nil in Hev.
Qed.

Lemma reg_says_other p p' fd g reg :
  only_about r_ok r_free r_registered r_report p p' fd -> g <> fd -> reg_says p g reg -> reg_says p' g reg.
Proof.
  intros (_ & _ & HO) Hg HS. destruct (HO g Hg) as [Hr Hs]. destruct reg as [[id i | ids] |]; cbn in *.
  - destruct HS as [HS1 HS2]. split; [by apply Hr |]. intros σ. rewrite Hs. apply HS2.
  - intros σ ev. rewrite Hs. apply HS.
  - by rewrite Hr.
Qed.

Lemma reg_gone p p' fd m :
  reg_agrees p m -> only_about r_ok r_free r_registered r_report p p' fd -> ~ r_registered p' fd -> reg_agrees p' (delete fd m).
Proof.
  intros HA HO Hn g Hg. destruct (decide (g = fd)) as [-> | Hne]; [by rewrite lookup_delete_eq |].
  rewrite lookup_delete_ne by done. eapply reg_says_other; [exact HO | done |]. apply HA. by apply HO.
Qed.

Lemma reg_step_ok p m op :
  r_ok p -> reg_op_ok p op -> reg_agrees p m ->
  let '(p', m') := reg_step (p, m) op in
  r_ok p' /\ (forall g, r_free p' g <-> r_free p g) /\ reg_agrees p' m'.
Proof.
  intros Hp [Hf Hop] HA. destruct op as [modify fd id i k | fd | fd]; cbn in *.
  - destruct Hop as (Hid & Hv & Hi). pose proof (r_set_ok modify p fd id i k Hp Hf Hid Hv Hi) as HS.
    destruct (r_set modify p fd id i k) as [ok p']. destruct HS as (H1 & H2 & H3 & _). split; [apply H1 |]. split; [apply H1 |].
    intros g Hg. destruct (decide (g = fd)) as [-> | Hne].
    + rewrite lookup_insert_eq. destruct ok; [by apply H2 |]. cbn. intros σ ev Hev.
      destruct (H3 eq_refl σ ev Hev) as [<- | (ev' & He & <-)]; [by left |]. right. eapply reg_says_ids; [done | by apply HA | exact He].
    + rewrite lookup_insert_ne by done. eapply reg_says_other; [exact H1 | done |]. apply HA. by apply H1.
  - destruct (r_remove_ok p fd Hp Hf) as [H1 H2]. split; [apply H1 |]. split; [apply H1 |]. by eapply reg_gone.
  - destruct (r_closed_ok p fd Hp Hf) as [H1 H2]. split; [apply H1 |]. split; [apply H1 |]. by eapply reg_gone.
Qed.

(** C27: What [Wait] reports of a socket that has no error and is not hung up, after any sequence of [Add], [Modify],
    [Remove] and closed sockets, on every poller that implements the interface (epoll and
    kqueue do). If the last call for the socket succeeded, it is reported exactly as that
    call asked: under its connection, readable and writable when it is and this is in the
    interest; in addition epoll, where [EPOLLRDHUP] is always asked for, reports the end
    of the peer's side as readable whatever the interest. If the last call was refused, a
    report is still under a connection the socket was given since it was last removed
    (kqueue may have made half of the changes). A socket that is not registered, or was
    removed or closed, is not reported. [Add] of an unregistered socket and [Modify] of a
    registered one succeed if the kernel has no reason of its own to refuse. *)
Theorem poller_reports (p : P) (ops : list reg_op) :
  r_ok p -> (forall fd, r_free p fd -> ~ r_registered p fd) -> Forall (reg_op_ok p) ops ->
  let '(p', m) := foldl reg_step (p, ∅) ops in
  forall fd, r_free p fd ->
    match m !! fd with
    | Some (Registered id i) => forall σ, reports r_hup id i σ (r_report p' fd σ)
    | Some (Refused ids) => forall σ ev, ev ∈ r_report p' fd σ -> ev_id ev ∈ ids
    | None => forall σ, r_report p' fd σ = []
    end /\
    (forall modify id i k, id_ok id -> valid id = true -> 0 <= i < 4 -> r_grants k ->
       match m !! fd with Some (Registered _ _) => modify = true | Some (Refused _) => False | None => modify = false end ->
       (r_set modify p' fd id i k).1 = true).
Proof.
  intros Hp H0 Hops. assert (HE : let '(p', m) := foldl reg_step (p, ∅) ops in
    r_ok p' /\ (forall g, r_free p' g <-> r_free p g) /\ reg_agrees p' m).
  { induction ops as [| op ops IH] using rev_ind; [split_and!; [done | done |]; intros fd Hfd; by apply H0 |].
    apply list.Forall_app in Hops as [Hops [Hop _]%list.Forall_cons]. specialize (IH Hops). rewrite foldl_app. cbn [foldl].
    destruct (foldl reg_step (p, ∅) ops) as [p1 m1]. destruct IH as (H1 & H2 & H3).
    pose proof (reg_step_ok p1 m1 op H1) as HS. destruct (reg_step (p1, m1) op) as [p2 m2].
    destruct HS as (H4 & H5 & H6); [| done | split_and!; [done | intros g; by rewrite H5 | done]].
    destruct Hop as [Hf Hop]. split; [by apply H2 | done]. }
  destruct (foldl reg_step (p, ∅) ops) as [p' m]. destruct HE as (Hp' & Hfree & HA). intros fd Hfd%Hfree. specialize (HA fd Hfd). split.
  - destruct (m !! fd) as [[id i | ids] |]; cbn in HA; [apply HA | apply HA | intros σ; by apply r_quiet].
  - intros modify id i k Hid Hv Hi Hk Hm. pose proof (r_set_ok modify p' fd id i k Hp' Hfd Hid Hv Hi) as HS.
    destruct (r_set modify p' fd id i k) as [ok p'']. destruct HS as (_ & _ & _ & HS). apply HS; [done |].
    destruct (m !! fd) as [[id' i' | ids] |]; cbn in HA; [by subst modify; split; [intros _; apply HA |] | done | by subst modify; split].
Qed.

End Programs.
#[global] Arguments reg_op K : clear implicits.

(** ** Examples *)

Definition kqueue_demo : Kqueue.Poller :=
  {| Kqueue.poll_fd_ := 3; Kqueue.wake_read_fd_ := 4; Kqueue.wake_write_fd_ := 5;
     Kqueue.knotes := {[ (4, Kqueue.EVFILT_READ) := {| Kqueue.enabled := true; Kqueue.note_udata := 0 |} ]};
     Kqueue.open_fds := {[3; 4; 5]} |}.
Definition id7 : ConnectionId := {| slot := 7; generation := 1 |}.

(** Registered for both, then for writing only; another registration fails half way. *)
Definition reg_demo : list (reg_op nat) :=
  [RegSet false 9 id7 3 2%nat; RegSet false 10 id7 1 1%nat; RegSet true 9 id7 2 2%nat; RegRemove 10].

(** The peer has shut down its side, and there is room to write. *)
Definition half_closed : sock := {| can_read := false; can_write := true; peer_closed := true |}.

Lemma poller_reports_witness :
  let p' := (foldl reg_step (kqueue_demo, ∅) reg_demo).1 in
  reports false id7 2 half_closed (r_report p' 9 half_closed) /\ r_report p' 10 half_closed = [].
Proof.
  assert (Hok : r_ok kqueue_demo).
  { split; [done |]. intros fd. cbn. intros _. by rewrite lookup_singleton_ne. }
  assert (H0 : forall fd, r_free kqueue_demo fd -> ~ r_registered kqueue_demo fd).
  { intros fd [_ Hw] [n Hn]. cbn in Hn, Hw. apply lookup_singleton_Some in Hn as [[= <-] _]. done. }
  assert (Hops : Forall (reg_op_ok kqueue_demo) reg_demo).
  { unfold reg_demo. repeat apply List.Forall_cons; try apply List.Forall_nil; unfold reg_op_ok, id_ok, UINT32_MAX; cbn; (repeat split); lia || done. }
  pose proof (poller_reports kqueue_demo reg_demo Hok H0 Hops) as HR.
  destruct (foldl reg_step (kqueue_demo, ∅) reg_demo) as [p' m] eqn:E.
  assert (Em : (foldl reg_step (kqueue_demo, ∅) reg_demo).2 = m) by by rewrite E.
  split.
  - destruct (HR 9) as [H9 _]; [split; cbn; lia |]. rewrite <- Em in H9. exact (H9 half_closed).
  - destruct (HR 10) as [H10 _]; [split; cbn; lia |]. rewrite <- Em in H10. exact (H10 half_closed).
Defined.
