(* ===== verification/PollLoop.v ===== *)
(** * The poll thread and those who wake it

    [GlobalRuntime::PollLoop] and [Stop] of [src/net/runtime.cc], [Poller::Wake] and the loop
    that empties the wake-up descriptor in [Poller::Wait] of [src/net/poller_linux.cc] and
    [src/net/poller_kqueue.cc], and the one other caller of [Wake], [ConnectResolved] of
    [src/net/client_connection.cc], which adds a timer first.

    What a round delivers is in [Runtime.poll_round]; here the threads run interleaved, and the
    question is whether the poll thread sleeps when it should not. The mutex of the timer
    queue makes each of its operations one step. *)

From S2P Require Import Prelude ConnTable Timer.

(** ** Wake-up descriptors *)

(** What [Wake] and [Wait] need of the descriptor: it is readable after a [Wake], and the
    read loop leaves it empty. *)
Class WakeFd (W : Type) := {
  w_ok : W -> Prop;
  w_ready : W -> bool;
  w_wake : W -> W;
  w_drain : W -> W;
  w_wake_ok w : w_ok w -> w_ok (w_wake w) /\ w_ready (w_wake w) = true;
  w_drain_ok w : w_ok w -> w_ok (w_drain w) /\ w_ready (w_drain w) = false;
}.

(** The eventfd of Linux: a counter. A non-blocking write fails when it would reach
    2^64 - 1; a read takes all of it and fails when it is 0. *)
Record eventfd := { counter : Z }.

Definition eventfd_write (w : eventfd) : eventfd :=
  {| counter := if counter w + 1 <? 2 ^ 64 - 1 then counter w + 1 else counter w |}.

Definition eventfd_read (w : eventfd) : option (Z * eventfd) :=
  if counter w =? 0 then None else Some (8, {| counter := 0 |}).

(** [while (read(...) > 0)]. *)
Fixpoint eventfd_drain_loop (fuel : nat) (w : eventfd) : eventfd :=
  match fuel with
  | O => w
  | S fuel' => match eventfd_read w with Some (_, w') => eventfd_drain_loop fuel' w' | None => w end
  end.

(** One read that succeeds and one that fails. *)
Definition eventfd_drain (w : eventfd) : eventfd := eventfd_drain_loop 2 w.

#[export] Program Instance eventfd_wake : WakeFd eventfd := {
  w_ok w := 0 <= counter w < 2 ^ 64 - 1;
  w_ready w := 0 <? counter w;
  w_wake := eventfd_write;
  w_drain := eventfd_drain;
}.
Next Obligation. intros w Hw. cbn in *. unfold eventfd_write. cbn. destruct (Z.ltb_spec (counter w + 1) (2 ^ 64 - 1)); split; zbool; lia. Qed.
Next Obligation.
  intros w Hw. cbn in *. unfold eventfd_drain. cbn. unfold eventfd_read. destruct (Z.eqb_spec (counter w) 0) as [E | E]; cbn; [rewrite E |]; done.
Qed.

(** The pipe of macOS: bytes, at most [capacity]. *)
Record pipe := { pending : Z; capacity : Z }.

Definition pipe_write (w : pipe) : pipe :=
  {| pending := if pending w <? capacity w then pending w + 1 else pending w; capacity := capacity w |}.

(** [read] into [char buf[64]]. *)
Definition pipe_read (w : pipe) : option (Z * pipe) :=
  let n := Z.min 64 (pending w) in
  if n <=? 0 then None else Some (n, {| pending := pending w - n; capacity := capacity w |}).

Fixpoint pipe_drain_loop (fuel : nat) (w : pipe) : pipe :=
  match fuel with
  | O => w
  | S fuel' => match pipe_read w with Some (_, w') => pipe_drain_loop fuel' w' | None => w end
  end.

(** Every read takes at least one byte. *)
Definition pipe_drain (w : pipe) : pipe := pipe_drain_loop (S (Z.to_nat (pending w))) w.

Definition pipe_ok (w : pipe) : Prop := 0 <= pending w <= capacity w /\ 1 <= capacity w.

Lemma pipe_drain_loop_ok fuel w :
  pipe_ok w -> (Z.to_nat (pending w) < fuel)%nat -> pipe_ok (pipe_drain_loop fuel w) /\ pending (pipe_drain_loop fuel w) = 0.
Proof.
  revert w. induction fuel as [| fuel IH]; intros w Hw Hf; [lia |]. cbn. unfold pipe_read.
  destruct (Z.leb_spec (Z.min 64 (pending w)) 0); unfold pipe_ok in *; [split; lia |]. apply IH; cbn; lia.
Qed.

#[export] Program Instance pipe_wake : WakeFd pipe := {
  w_ok := pipe_ok;
  w_ready w := 0 <? pending w;
  w_wake := pipe_write;
  w_drain := pipe_drain;
}.
Next Obligation. intros w Hw. unfold pipe_ok, pipe_write in *. cbn. destruct (Z.ltb_spec (pending w) (capacity w)); split; zbool; lia. Qed.
Next Obligation. intros w Hw. destruct (pipe_drain_loop_ok (S (Z.to_nat (pending w))) w Hw) as [H1 H2]; [lia |]. split; [done |]. unfold pipe_drain. rewrite H2. done. Qed.

(** ** The threads *)

Section PollLoop.
Context `{PQ : PriorityQueue Q} `{WF : WakeFd W}.

Definition kMaxPollTimeoutMs : Z := 1000.

(** The poll thread. [LWait now call r]: in [Wait] since [call], for [r] milliseconds, which
    it worked out for the time [now]. [GetCurrentMillisec] is the wall clock, the kernel
    measures the timeout by its own. *)
Inductive pc := LCheck | LNow | LTimeout (now : Z) | LWait (now call r : Z) | LDrain | LPop | LDone.

Inductive stop_pc := SExchange | SWake | SJoin | SStopped.

(** [clock] is the wall clock, which can be set, [mono] the kernel's. [unannounced]:
    timers whose thread is between [timers().Add] and [Wake]. *)
Record sys := {
  wake_fd : W; timers_ : Q; running_ : bool; clock : Z; mono : Z; poll_thread : pc; stopper : stop_pc;
  unannounced : list TimerEvent
}.

Definition sys_init (w : W) (now : Z) : sys :=
  {| wake_fd := w; timers_ := pq_new; running_ := true; clock := now; mono := 0; poll_thread := LCheck; stopper := SExchange;
     unannounced := [] |}.

Definition move (s : sys) (p : pc) : sys :=
  {| wake_fd := wake_fd s; timers_ := timers_ s; running_ := running_ s; clock := clock s; mono := mono s; poll_thread := p;
     stopper := stopper s; unannounced := unannounced s |}.

(** One step of [PollLoop]. [ready]: a socket is ready or a signal came; [left_out]: so many
    sockets are ready that the wake-up event has to wait for the next call. *)
Definition poll_step (ready left_out : bool) (s : sys) : option sys :=
  match poll_thread s with
  | LCheck => Some (move s (if running_ s then LNow else LDone))
  | LNow => Some (move s (LTimeout (clock s)))
  | LTimeout now =>
      match NextTimeoutMs (timers_ s) now kMaxPollTimeoutMs with
      | Some r => Some (move s (LWait now (mono s) r))
      | None => None
      end
  | LWait _ call r =>
      if w_ready (wake_fd s) && negb (ready && left_out) then Some (move s LDrain)
      else if ready || (call + r <=? mono s) then Some (move s LPop)
      else None
  | LDrain =>
      Some {| wake_fd := w_drain (wake_fd s); timers_ := timers_ s; running_ := running_ s; clock := clock s; mono := mono s;
              poll_thread := LPop; stopper := stopper s; unannounced := unannounced s |}
  | LPop =>
      let '(_, q) := PopExpired (timers_ s) (clock s) in
      Some {| wake_fd := wake_fd s; timers_ := q; running_ := running_ s; clock := clock s; mono := mono s;
              poll_thread := LCheck; stopper := stopper s; unannounced := unannounced s |}
  | LDone => None
  end.

(** [GlobalRuntime::Stop] up to the join. *)
Definition stop_step (s : sys) : option sys :=
  let next w r st := Some {| wake_fd := w; timers_ := timers_ s; running_ := r; clock := clock s; mono := mono s;
                             poll_thread := poll_thread s; stopper := st; unannounced := unannounced s |} in
  match stopper s with
  | SExchange => next (wake_fd s) false SWake
  | SWake => next (w_wake (wake_fd s)) (running_ s) SJoin
  | SJoin => match poll_thread s with LDone => next (wake_fd s) (running_ s) SStopped | _ => None end
  | SStopped => None
  end.

(** [ConnectResolved] of a connection with a connect timeout: it arms the timer [e] ... *)
Definition arm_timer (e : TimerEvent) (s : sys) : sys :=
  {| wake_fd := wake_fd s; timers_ := Add (timers_ s) (deadline_ms e) (tid e) (kind e); running_ := running_ s;
     clock := clock s; mono := mono s; poll_thread := poll_thread s; stopper := stopper s; unannounced := unannounced s ++ [e] |}.

(** ... and then calls [Wake]. *)
Definition wake_armed (i : nat) (s : sys) : sys :=
  {| wake_fd := w_wake (wake_fd s); timers_ := timers_ s; running_ := running_ s; clock := clock s; mono := mono s;
     poll_thread := poll_thread s; stopper := stopper s; unannounced := delete i (unannounced s) |}.

(** Time passes, or the wall clock is set. *)
Definition tick (ms now : Z) (s : sys) : sys :=
  {| wake_fd := wake_fd s; timers_ := timers_ s; running_ := running_ s; clock := now; mono := mono s + ms;
     poll_thread := poll_thread s; stopper := stopper s; unannounced := unannounced s |}.

Inductive action := APoll (ready left_out : bool) | AStop | AAdd (e : TimerEvent) | AWake (i : nat) | ATick (ms now : Z).

Definition act (a : action) (s : sys) : option sys :=
  match a with
  | APoll ready left_out => poll_step ready left_out s
  | AStop => stop_step s
  | AAdd e => if bool_decide (0 <= deadline_ms e <= INT64_MAX) && valid (tid e) then Some (arm_timer e s) else None
  | AWake i => match unannounced s !! i with Some _ => Some (wake_armed i s) | None => None end
  | ATick ms now => if (0 <=? ms) && bool_decide (0 <= now <= INT64_MAX) then Some (tick ms now s) else None
  end.

Inductive reachable : sys -> Prop :=
| reach_init w now : w_ok w -> 0 <= now <= INT64_MAX -> reachable (sys_init w now)
| reach_step a s s' : reachable s -> act a s = Some s' -> reachable s'.

(** ** Invariant *)

(** The timeout [r], worked out at [now], is not too long for the timer [e]. *)
Definition in_time (now r : Z) (e : TimerEvent) : Prop := r <= Z.max 0 (deadline_ms e - now).

Record loop_ok (s : sys) : Prop := {
  ok_fd : w_ok (wake_fd s);
  ok_clock : 0 <= clock s <= INT64_MAX;
  ok_deadlines : forall e, e ∈ pq_elems (timers_ s) -> 0 <= deadline_ms e <= INT64_MAX;
  ok_pc : match poll_thread s with
          | LTimeout now => 0 <= now <= INT64_MAX
          | LWait now call r =>
              call <= mono s /\ 0 <= r <= kMaxPollTimeoutMs /\
              (w_ready (wake_fd s) = false -> forall e, e ∈ pq_elems (timers_ s) -> e ∈ unannounced s \/ in_time now r e)
          | _ => True
          end;
  ok_stop : match stopper s with
            | SExchange => running_ s = true /\ poll_thread s <> LDone
            | SWake => running_ s = false
            | SJoin | SStopped =>
                running_ s = false /\
                match poll_thread s with LNow | LTimeout _ | LWait _ _ _ => w_ready (wake_fd s) = true | _ => True end
            end;
}.

Lemma NextTimeoutMs_in_time q now r :
  NextTimeoutMs q now kMaxPollTimeoutMs = Some r ->
  0 <= r <= kMaxPollTimeoutMs /\ forall e, e ∈ pq_elems q -> in_time now r e.
Proof.
  unfold NextTimeoutMs, in_time, kMaxPollTimeoutMs. destruct (pq_top q) as [top |] eqn:Et.
  - destruct (pq_top_some q top Et) as [_ Hmin]. intros Hr.
    assert (Hle : forall e, e ∈ pq_elems q -> deadline_ms top <= deadline_ms e).
    { intros e He. specialize (Hmin e He). unfold Compare in Hmin. zbool. lia. }
    repeat case_match; zbool; try done; injection Hr as <-; (split; [lia |]); intros e He; specialize (Hle e He); lia.
  - intros [= <-]. rewrite (pq_top_none q Et). split; [lia |]. intros e He. by apply not_elem_of_nil in He.
Qed.

Lemma NextTimeoutMs_defined q now :
  0 <= now <= INT64_MAX -> (forall e, e ∈ pq_elems q -> 0 <= deadline_ms e <= INT64_MAX) ->
  exists r, NextTimeoutMs q now kMaxPollTimeoutMs = Some r.
Proof.
  intros Hn Hd. unfold NextTimeoutMs. destruct (pq_top q) as [top |] eqn:Et; [| eauto].
  destruct (pq_top_some q top Et) as [Hin _]. specialize (Hd top Hin). unfold INT64_MAX, INT64_MIN in *.
  repeat case_match; zbool; eauto; lia.
Qed.

Lemma poll_step_ok ready left_out s s' : loop_ok s -> poll_step ready left_out s = Some s' -> loop_ok s'.
Proof.
  intros [Hf Hc Hd Hp Hs]. unfold poll_step. destruct (poll_thread s) as [| | now | now call r | | |] eqn:Ep; intros E; try done.
  - injection E as <-. split; cbn; try done; [by destruct (running_ s) |].
    destruct (stopper s); destruct (running_ s); naive_solver.
  - injection E as <-. split; cbn; try done; destruct (stopper s); naive_solver.
  - destruct (NextTimeoutMs _ _ _) as [r |] eqn:Er; [| done]. injection E as <-.
    destruct (NextTimeoutMs_in_time _ _ _ Er) as [Hr Ht]. split; cbn; try done; [| destruct (stopper s); naive_solver].
    split_and!; try lia; try apply Hr. intros _ e He. right. by apply Ht.
  - assert (Hn : forall p, (p = LDrain \/ p = LPop) -> loop_ok (move s p)).
    { intros p Hpp. split; cbn; try done; [by destruct Hpp as [-> | ->] |]. destruct (stopper s); destruct Hpp as [-> | ->]; naive_solver. }
    destruct (_ && _); [injection E as <-; apply Hn; auto |]. destruct (_ || _); [| done]. injection E as <-. apply Hn. auto.
  - injection E as <-. destruct (w_drain_ok _ Hf) as [Hf' _]. split; cbn; try done. destruct (stopper s); naive_solver.
  - pose proof (PopExpired_ok (timers_ s) (clock s)) as HP. destruct (PopExpired (timers_ s) (clock s)) as [due q]. destruct HP as (_ & HP & _).
    injection E as <-. split; cbn; try done; [| destruct (stopper s); naive_solver].
    intros e He. apply Hd. rewrite HP in He. by apply list_elem_of_filter in He as [_ He].
Qed.

(** Steps that leave the poll thread where it is and the descriptor no emptier. *)
Lemma loop_ok_other s w q c mo un :
  loop_ok s -> w_ok w -> (w_ready (wake_fd s) = true -> w_ready w = true) -> 0 <= c <= INT64_MAX -> mono s <= mo ->
  (forall e, e ∈ pq_elems q -> 0 <= deadline_ms e <= INT64_MAX) ->
  (w_ready w = false -> forall e, e ∈ pq_elems q -> e ∈ un \/ (e ∈ pq_elems (timers_ s) /\ (e ∈ unannounced s -> e ∈ un))) ->
  loop_ok {| wake_fd := w; timers_ := q; running_ := running_ s; clock := c; mono := mo; poll_thread := poll_thread s;
             stopper := stopper s; unannounced := un |}.
Proof.
  intros [Hf Hc Hd Hp Hs] Hw Hr Hcl Hmo Hdl He. split; cbn; try done; try lia.
  - destruct (poll_thread s) as [| | now | now call r | | |]; try done. destruct Hp as (H1 & H2 & H3). split_and!; try lia.
    intros Hn e Hin. assert (Hn' : w_ready (wake_fd s) = false) by (destruct (w_ready (wake_fd s)); [by rewrite Hr in Hn | done]).
    destruct (He Hn e Hin) as [? | [Hin' Hu]]; [by left |]. destruct (H3 Hn' e Hin'); [left; auto | by right].
  - destruct (stopper s); try done; (split; [apply Hs |]); destruct (poll_thread s); try done; apply Hr, Hs.
Qed.

Lemma stop_step_ok s s' : loop_ok s -> stop_step s = Some s' -> loop_ok s'.
Proof.
  intros HL E. pose proof HL as [Hf Hc Hd Hp Hs]. unfold stop_step in E. destruct (stopper s) eqn:Es; try done.
  - injection E as <-. by split; cbn.
  - injection E as <-. destruct (w_wake_ok _ Hf) as [H1 H2]. split; cbn; try done.
    + destruct (poll_thread s); try done. split_and!; try apply Hp. by rewrite H2.
    + split; [done |]. by destruct (poll_thread s).
  - destruct (poll_thread s) eqn:Ep; try done. injection E as <-. by split; cbn; rewrite ?Ep.
Qed.

Lemma loop_reachable_ok s : reachable s -> loop_ok s.
Proof.
  induction 1 as [w now Hw Hn | a s s' _ HL E].
  - split; cbn; try done. intros e He. rewrite pq_new_elems in He. by apply not_elem_of_nil in He.
  - pose proof HL as [Hf Hc Hd Hp Hs]. destruct a as [ready left_out | | e | i | ms now]; cbn in E.
    + by eapply poll_step_ok.
    + by eapply stop_step_ok.
    + destruct (bool_decide_reflect (0 <= deadline_ms e <= INT64_MAX)) as [He |]; [| done]. destruct (valid (tid e)) eqn:Ev; [| done].
      injection E as <-. unfold arm_timer, Add. rewrite Ev. cbn [negb]. replace {| deadline_ms := _; tid := _; kind := _ |} with e by (by destruct e).
      assert (Hin : forall x, x ∈ pq_elems (pq_push e (timers_ s)) -> x = e \/ x ∈ pq_elems (timers_ s)).
      { intros x Hx. rewrite pq_push_elems in Hx. by apply elem_of_cons in Hx. }
      apply (loop_ok_other s); try done; try lia.
      * intros x [-> | Hx]%Hin; [done | by apply Hd].
      * intros _ x [-> | Hx]%Hin; [left; set_solver | right]. split; [done | set_solver].
    + destruct (unannounced s !! i) as [e |] eqn:Ei; [| done]. injection E as <-. destruct (w_wake_ok _ Hf) as [H1 H2].
      apply (loop_ok_other s); try done; try lia. by rewrite H2.
    + destruct (Z.leb_spec 0 ms), (bool_decide_reflect (0 <= now <= INT64_MAX)); try done. injection E as <-.
      apply (loop_ok_other s); try done; try lia. intros _ x Hx. right. by split.
Qed.

(** ** Theorems *)

(** C21: The poll thread sleeps in time for every timer: while it sleeps and nobody has woken it,
    its timeout is not longer than what was left for the earliest timer at its last look at
    the clock, and never longer than a second. Only a timer whose thread is just about to call
    [Wake] can be earlier. *)
Theorem poll_thread_on_time (s : sys) (now call r : Z) (e : TimerEvent) :
  reachable s -> poll_thread s = LWait now call r -> w_ready (wake_fd s) = false -> e ∈ pq_elems (timers_ s) ->
  call <= mono s /\ 0 <= r <= 1000 /\ (e ∈ unannounced s \/ r <= Z.max 0 (deadline_ms e - now)).
Proof.
  intros Hs Ep Hr He. destruct (loop_reachable_ok s Hs) as [_ _ _ Hp _]. rewrite Ep in Hp. destruct Hp as (H1 & H2 & H3).
  split_and!; [done | apply H2 .. | by apply H3].
Qed.

(** How far the poll thread is from its end once it has been told to stop. *)
Definition steps_left (p : pc) : Z :=
  match p with LNow => 6 | LTimeout _ => 5 | LWait _ _ _ => 4 | LDrain => 3 | LPop => 2 | LCheck => 1 | LDone => 0 end.

Lemma steps_left_bound p : 0 <= steps_left p <= 6.
Proof. by destruct p. Qed.

(** Only the poll thread moves the poll thread. *)
Lemma other_pc a s s' : act a s = Some s' -> (if a is APoll _ _ then False else True) -> poll_thread s' = poll_thread s.
Proof. intros E Ha. destruct a; cbn in E; unfold stop_step in E; repeat case_match; by simplify_eq. Qed.

(** C20: [Stop] returns: once it waits for the poll thread, that thread is never blocked, and each
    of its steps brings it closer to its end, of which it is at most six steps away; no other
    thread takes it further away. When it is there, [Stop] goes on. *)
Theorem poll_thread_stops (s : sys) :
  reachable s -> stopper s = SJoin ->
  (forall ready left_out, poll_thread s <> LDone -> exists s', poll_step ready left_out s = Some s') /\
  (forall a s', act a s = Some s' ->
     0 <= steps_left (poll_thread s') <= 6 /\
     steps_left (poll_thread s') <= steps_left (poll_thread s) - (if a is APoll _ _ then 1 else 0)) /\
  (poll_thread s = LDone -> exists s', stop_step s = Some s' /\ stopper s' = SStopped).
Proof.
  intros Hs Es. destruct (loop_reachable_ok s Hs) as [Hf Hc Hd Hp Hst]. rewrite Es in Hst. destruct Hst as [Hr Hw]. split_and!.
  - intros ready left_out Hn. unfold poll_step. destruct (poll_thread s) as [| | now | now call r | | |]; try done; try (by eexists).
    + destruct (NextTimeoutMs_defined (timers_ s) now) as [r Er]; [lia | done |]. rewrite Er. by eexists.
    + rewrite Hw. destruct ready, left_out; by eexists.
    + destruct (PopExpired _ _). by eexists.
  - intros a s' E. split; [apply steps_left_bound |]. destruct a as [ready left_out | | e | i | ms now]; try (by rewrite (other_pc _ _ _ E I); lia).
    cbn in E. unfold poll_step in E. rewrite Hr in E. destruct (poll_thread s); try done; repeat case_match; simplify_eq; cbn; lia.
  - intros Ep. unfold stop_step. rewrite Es, Ep. by eexists.
Qed.

End PollLoop.

(** ** Examples *)

Definition ev_demo (d : Z) : TimerEvent := {| deadline_ms := d; tid := {| slot := 0; generation := 1 |}; kind := kConnectTimeout |}.

Fixpoint run (l : list action) (s : sys (Q := sorted_queue) (W := eventfd)) : option sys :=
  match l with [] => Some s | a :: l => match act a s with Some s' => run l s' | None => None end end.

Lemma loop_run_reachable l s s' : reachable s -> run l s = Some s' -> reachable s'.
Proof.
  revert s. induction l as [| a l IH]; cbn; intros s Hs E; [by injection E as <- |].
  destruct (act a s) as [s1 |] eqn:Ea; [| done]. apply (IH s1); [by eapply reach_step | done].
Qed.

Definition idle : sys (Q := sorted_queue) (W := eventfd) := sys_init {| counter := 0 |} 1000.

Lemma idle_reachable : reachable idle.
Proof. apply reach_init; cbn; unfold INT64_MAX; lia. Qed.

(** The poll thread has a timer at 1500, looks at the clock at 1000 and sleeps. *)
Definition asleep : list action :=
  [AAdd (ev_demo 1500); AWake 0; APoll false false; APoll false false; APoll false false; APoll false false; APoll false false; APoll false false;
   APoll false false; APoll false false; ATick 1 1001; APoll false false].

Definition state_after (l : list action) : sys := default idle (run l idle).

Lemma state_after_reachable l : reachable (state_after l).
Proof.
  unfold state_after. destruct (run l idle) as [s |] eqn:E; cbn; [exact (loop_run_reachable _ _ _ idle_reachable E) | exact idle_reachable].
Qed.

Lemma poll_thread_on_time_witness :
  ev_demo 1500 ∈ unannounced (state_after asleep) \/ 500 <= Z.max 0 (1500 - 1000).
Proof.
  apply (poll_thread_on_time (state_after asleep) 1000 1 500 (ev_demo 1500) (state_after_reachable _)); [reflexivity .. |].
  vm_compute. left.
Defined.

(** [Stop] waits while the poll thread sleeps. *)
Lemma poll_thread_stops_witness : exists s', poll_step false false (state_after (asleep ++ [AStop; AStop])) = Some s'.
Proof.
  apply (poll_thread_stops _ (state_after_reachable _)); [reflexivity |]. vm_compute. discriminate.
Defined.
