(* ===== verification/Iocp.v ===== *)
(** * Requests on a completion port

    [src/net/poller_win32.cc]: on Windows a socket operation is a request that the kernel
    holds until it completes, and whose memory must stay where it is until then. The poller
    tracks every request; [Wait] takes completions off the port and hands the requests over
    with the events.

    Workers start operations while the poll thread takes completions: the three parts of a
    start (track, call, untrack if the call fails) are separate steps, each critical section
    of [mtx] is one step, and the kernel completes operations at any time. *)

From S2P Require Import Prelude ConnTable Poller.

Abbreviation addr := nat.

(** A packet of the completion port: a completed operation with its result, or the one that
    [Wake] posts. *)
Inductive packet := PWake | PDone (overlapped : addr) (ok : bool) (bytes error : Z).

(** The state behind [state_] ([open]: it is not null, [connectex]: the function of that name
    is known), the allocated requests ([requests] are the pointers the poller tracks), and the
    kernel's: operations it holds and packets of the port. [calling]: tracked requests whose
    thread has not called the kernel yet. [orphans]: requests of a poller that was shut down, and
    [abandoned] those of them whose operation the kernel has not ended.
    The lists are history: requests that were started, whose call failed, that were handed
    over. *)
Record port := Port {
  open : bool;
  connectex : bool;
  requests : gset addr;
  memory : gmap addr WinIoRequest;
  calling : gset addr;
  held : gset addr;
  packets : list packet;
  orphans : gset addr;
  abandoned : gset addr;
  started : list WinIoRequest;
  failed : list WinIoRequest;
  handed : list WinIoRequest
}.

#[export] Instance eta_port : Eta port := fun s =>
  Port (open s) (connectex s) (requests s) (memory s) (calling s) (held s) (packets s) (orphans s) (abandoned s) (started s) (failed s) (handed s).
#[export] Instance set_open : Setter open := ltac:(solve_setter).
#[export] Instance set_connectex : Setter connectex := ltac:(solve_setter).
#[export] Instance set_requests : Setter requests := ltac:(solve_setter).
#[export] Instance set_memory : Setter memory := ltac:(solve_setter).
#[export] Instance set_calling : Setter calling := ltac:(solve_setter).
#[export] Instance set_held : Setter held := ltac:(solve_setter).
#[export] Instance set_packets : Setter packets := ltac:(solve_setter).
#[export] Instance set_orphans : Setter orphans := ltac:(solve_setter).
#[export] Instance set_abandoned : Setter abandoned := ltac:(solve_setter).
#[export] Instance set_started : Setter started := ltac:(solve_setter).
#[export] Instance set_failed : Setter failed := ltac:(solve_setter).
#[export] Instance set_handed : Setter handed := ltac:(solve_setter).

Definition port_new : port :=
  {| open := false; connectex := false; requests := ∅; memory := ∅; calling := ∅; held := ∅; packets := []; orphans := ∅; abandoned := ∅;
     started := []; failed := []; handed := [] |}.

Definition kMaxCompletions : Z := 256.

(** ** Init, Shutdown, Wake *)

(** [created]: [CreateIoCompletionPort] succeeds. *)
Definition Init (created : bool) (s : port) : bool * port :=
  if open s then (true, s) else if created then (true, s <| open := true |> <| connectex := false |>) else (false, s).

(** The port is closed, with the packets on it, and the state is deleted; the requests it
    tracked are not, and the operations of sockets that are still open go on. *)
Definition Shutdown (s : port) : port :=
  if open s then
    s <| open := false |> <| orphans := orphans s ∪ requests s |> <| abandoned := abandoned s ∪ held s |>
      <| requests := ∅ |> <| held := ∅ |> <| packets := [] |>
  else s.

Definition Wake (s : port) : port := if open s then s <| packets := packets s ++ [PWake] |> else s.

(** ** Starting an operation *)

(** [LoadConnectEx]; [found]: [WSAIoctl] finds the function. *)
Definition LoadConnectEx (found : bool) (s : port) : bool * port :=
  if connectex s then (true, s) else if found then (true, s <| connectex := true |>) else (false, s).

(** [new WinIoRequest] and [TrackRequest]. *)
Definition TrackRequest (req : WinIoRequest) (s : port) : addr * port :=
  let l := fresh (dom (memory s)) in
  (l, s <| memory := <[l := req]> (memory s) |> <| requests := {[ l ]} ∪ requests s |>
        <| calling := {[ l ]} ∪ calling s |> <| started := started s ++ [req] |>).

(** [StartConnect], [StartRecv] and [StartSend] up to the call of the kernel: the request, or
    [None] if there is no poller or no valid socket. *)
Definition StartConnect (id : ConnectionId) (valid_fd found : bool) (s : port) : option addr * port :=
  if negb (open s) || negb valid_fd then (None, s)
  else
    let '(loaded, s) := LoadConnectEx found s in
    if loaded then
      let '(l, s) := TrackRequest {| operation := kPollOpConnect; req_id := id; req_buffer := [] |} s in (Some l, s)
    else (None, s).

(** What [MakeSliceByLength] leaves in the buffer is unspecified; the kernel writes over it. *)
Definition recv_request (id : ConnectionId) (len : Z) : WinIoRequest :=
  {| operation := kPollOpRecv; req_id := id; req_buffer := replicate (Z.to_nat len) x00 |}.
Definition send_request (id : ConnectionId) (data : list byte) : WinIoRequest :=
  {| operation := kPollOpSend; req_id := id; req_buffer := data |}.

Definition StartRecv (id : ConnectionId) (valid_fd : bool) (len : Z) (s : port) : option addr * port :=
  if negb (open s) || negb valid_fd then (None, s)
  else let '(l, s) := TrackRequest (recv_request id len) s in (Some l, s).

Definition StartSend (id : ConnectionId) (valid_fd : bool) (data : list byte) (s : port) : option addr * port :=
  if negb (open s) || negb valid_fd then (None, s)
  else let '(l, s) := TrackRequest (send_request id data) s in (Some l, s).

(** Sockets: [Add] associates one with the port, [ok] if the kernel agrees; [Modify] has
    nothing to do; [Remove] asks the kernel to cancel what it holds, which then completes with
    an error. *)
Definition Add (valid_fd ok : bool) (s : port) : bool := open s && valid_fd && ok.
Definition Modify (s : port) : bool := open s.

(** [RemoveRequest]. *)
Definition RemoveRequest (l : addr) (s : port) : option WinIoRequest * port :=
  (if bool_decide (l ∈ requests s) then memory s !! l else None, s <| requests := requests s ∖ {[ l ]} |>).

(** [UntrackRequest] does the same to the map; the request it finds belongs to a shared pointer
    from then on. *)
Definition UntrackRequest (l : addr) (s : port) : option WinIoRequest * port := RemoveRequest l s.

(** The call: accepted, whether it completes at once or later, or refused; then the request
    is removed and deleted. *)
Definition Call (l : addr) (accepted : bool) (s : port) : port :=
  let s := s <| calling := calling s ∖ {[ l ]} |> in
  if accepted then s <| held := {[ l ]} ∪ held s |>
  else
    let '(req, s) := RemoveRequest l s in
    match req with
    | Some req => s <| memory := delete l (memory s) |> <| failed := failed s ++ [req] |>
    | None => s
    end.

(** The kernel completes an operation: a receive has written to the buffer. *)
Definition write_buffer (written : list byte) (req : WinIoRequest) : WinIoRequest :=
  {| operation := operation req; req_id := req_id req; req_buffer := written ++ zdrop (zlen written) (req_buffer req) |}.

(** What the kernel can report: a receive as many bytes as it wrote, a send a part of the
    buffer. *)
Definition result_ok (req : WinIoRequest) (ok : bool) (written : list byte) (bytes : Z) : bool :=
  if ok then
    match operation req with
    | kPollOpRecv => (bytes =? zlen written) && (zlen written <=? zlen (req_buffer req))
    | kPollOpSend => bool_decide (written = []) && (0 <=? bytes) && (bytes <=? zlen (req_buffer req))
    | _ => bool_decide (written = []) && (bytes =? 0)
    end
  else bool_decide (written = []).

Definition complete (l : addr) (ok : bool) (written : list byte) (bytes error : Z) (s : port) : port :=
  s <| memory := alter (write_buffer written) l (memory s) |> <| held := held s ∖ {[ l ]} |>
    <| packets := packets s ++ [PDone l ok bytes error] |>.

(** An operation of a port that was closed ends: the kernel has written to the buffer, and
    there is nowhere to report to. *)
Definition complete_abandoned (l : addr) (written : list byte) (s : port) : port :=
  s <| memory := alter (write_buffer written) l (memory s) |> <| abandoned := abandoned s ∖ {[ l ]} |>.

(** ** Wait *)

Definition to_event (req : WinIoRequest) (ok : bool) (bytes error : Z) : PollEvent :=
  {| ev_id := req_id req;
     ev_events := if ok then match operation req with
                             | kPollOpConnect | kPollOpSend => kPollEventWritable
                             | kPollOpRecv => kPollEventReadable
                             | kPollOpReady => 0
                             end
                  else kPollEventError;
     ev_error_code := if ok then 0 else error;
     ev_operation := operation req;
     ev_bytes_transferred := bytes;
     ev_data := Some (req_buffer req) |}.

(** [PollOne]: [None] is [false]. The request is owned by the event from then on. *)
Definition PollOne (s : port) : option PollEvent * port :=
  match packets s with
  | [] => (None, s)
  | PWake :: ps => (None, s <| packets := ps |>)
  | PDone l ok bytes error :: ps =>
      let '(req, s) := UntrackRequest l (s <| packets := ps |>) in
      match req with
      | None => (None, s)
      | Some req => (Some (to_event req ok bytes error), s <| memory := delete l (memory s) |> <| handed := handed s ++ [req] |>)
      end
  end.

(** The loop of [Wait] after the first event; one more event per round. *)
Fixpoint Wait_loop (fuel : nat) (events : list PollEvent) (s : port) : list PollEvent * port :=
  match fuel with
  | O => (events, s)
  | S fuel' =>
      if zlen events <? kMaxCompletions then
        match PollOne s with
        | (Some ev, s') => Wait_loop fuel' (events ++ [ev]) s'
        | (None, s') => (events, s')
        end
      else (events, s)
  end.

Definition Wait (s : port) : Z * list PollEvent * port :=
  if negb (open s) then (0, [], s)
  else
    match PollOne s with
    | (None, s') => (0, [], s')
    | (Some ev, s') => let '(events, s'') := Wait_loop (Z.to_nat kMaxCompletions) [ev] s' in (zlen events, events, s'')
    end.

(** ** Runs *)

Inductive action :=
| AInit (created : bool)
| AShutdown
| AWake
| AConnect (id : ConnectionId) (valid_fd found : bool)
| ARecv (id : ConnectionId) (valid_fd : bool) (len : Z)
| ASend (id : ConnectionId) (valid_fd : bool) (data : list byte)
| ACall (l : addr) (accepted : bool)
| AComplete (l : addr) (ok : bool) (written : list byte) (bytes error : Z)
| AAbandoned (l : addr) (ok : bool) (written : list byte) (bytes : Z)
| AWait.

(** [Runtime::Stop] joins the poll thread and stops the workers before it shuts the poller
    down, so no call is under way then. *)
Definition act (a : action) (s : port) : option port :=
  match a with
  | AInit created => Some (Init created s).2
  | AShutdown => if bool_decide (calling s = ∅) then Some (Shutdown s) else None
  | AWake => Some (Wake s)
  | AConnect id valid_fd found => Some (StartConnect id valid_fd found s).2
  | ARecv id valid_fd len => Some (StartRecv id valid_fd len s).2
  | ASend id valid_fd data => Some (StartSend id valid_fd data s).2
  | ACall l accepted => if bool_decide (l ∈ calling s) then Some (Call l accepted s) else None
  | AComplete l ok written bytes error =>
      match memory s !! l with
      | Some req =>
          if bool_decide (l ∈ held s) && result_ok req ok written bytes then Some (complete l ok written bytes error s)
          else None
      | None => None
      end
  | AAbandoned l ok written bytes =>
      match memory s !! l with
      | Some req =>
          if bool_decide (l ∈ abandoned s) && result_ok req ok written bytes then Some (complete_abandoned l written s) else None
      | None => None
      end
  | AWait => Some (Wait s).2
  end.

Definition reachable : port -> Prop := rtc (fun s s' => exists a, act a s = Some s') port_new.

(** ** Invariant *)

Definition completed (ps : list packet) : list addr := omap (fun p => match p with PDone l _ _ _ => Some l | PWake => None end) ps.

(** What stays the same of a request while it is in memory. *)
Definition key (req : WinIoRequest) : PollOperation * ConnectionId * Z := (operation req, req_id req, zlen (req_buffer req)).

Record port_ok (s : port) : Prop := {
  ok_memory : dom (memory s) = requests s ∪ orphans s;
  ok_orphans : requests s ## orphans s;
  ok_tracked : requests s = calling s ∪ held s ∪ list_to_set (completed (packets s));
  ok_calling : calling s ## held s /\ calling s ## list_to_set (completed (packets s));
  ok_held : held s ## list_to_set (completed (packets s));
  ok_once : NoDup (completed (packets s));
  ok_closed : open s = false -> calling s = ∅ /\ held s = ∅ /\ completed (packets s) = [];
  ok_abandoned : abandoned s ⊆ orphans s;
  ok_history : key <$> started s ≡ₚ key <$> failed s ++ handed s ++ (map_to_list (memory s)).*2
}.

Lemma completed_snoc ps l ok b e : completed (ps ++ [PDone l ok b e]) = completed ps ++ [l].
Proof. unfold completed. by rewrite omap_app. Qed.

Lemma completed_wake ps : completed (ps ++ [PWake]) = completed ps.
Proof. unfold completed. rewrite omap_app. cbn. by rewrite app_nil_r. Qed.

Lemma port_ok_new : port_ok port_new.
Proof. split; cbn; try done; try set_solver. constructor. Qed.

Lemma TrackRequest_ok req s : port_ok s -> open s = true -> port_ok (TrackRequest req s).2.
Proof.
  intros [Hm Ho Ht [Hc1 Hc2] Hh Hn Hcl Hab Hi] Eo. unfold TrackRequest. cbn [snd]. set (l := fresh _).
  assert (Hl : l ∉ dom (memory s)) by apply is_fresh. rewrite Hm in Hl. split; cbn -[dom]; rewrite ?dom_insert_L; try done.
  - rewrite Hm. set_solver.
  - clear -Ho Hl. set_solver.
  - rewrite Ht. clear. set_solver.
  - rewrite Ht in Hl. clear -Hl Hc1 Hc2. set_solver.
  - rewrite Eo. done.
  - assert (Hl' : memory s !! l = None) by (apply not_elem_of_dom; by rewrite Hm).
    rewrite map_to_list_insert by done. rewrite fmap_app, Hi. cbn. rewrite !fmap_app. cbn. solve_Permutation.
Qed.

Lemma LoadConnectEx_ok found s : port_ok s -> port_ok (LoadConnectEx found s).2 /\ open (LoadConnectEx found s).2 = open s.
Proof.
  intros HP. unfold LoadConnectEx. destruct (connectex s); [done |]. destruct found; [| done]. cbn. split; [| done].
  destruct HP. by split.
Qed.

Lemma StartConnect_ok id v found s : port_ok s -> port_ok (StartConnect id v found s).2.
Proof.
  intros HP. unfold StartConnect. destruct (open s) eqn:Eo, v; try done. cbn [negb orb].
  destruct (LoadConnectEx_ok found s HP) as [HP' Eo']. destruct (LoadConnectEx found s) as [[] s']; [| done]. cbn in HP', Eo'.
  rewrite Eo in Eo'. by apply (TrackRequest_ok _ s').
Qed.

(** A tracked request leaves the memory, to [failed] or [handed]. *)
Lemma drop_memory s l :
  port_ok s -> l ∈ requests s ->
  exists req, memory s !! l = Some req /\ RemoveRequest l s = (Some req, s <| requests := requests s ∖ {[ l ]} |>) /\
    (map_to_list (memory s)).*2 ≡ₚ req :: (map_to_list (delete l (memory s))).*2 /\
    dom (delete l (memory s)) = requests s ∖ {[ l ]} ∪ orphans s /\ requests s ∖ {[ l ]} ## orphans s.
Proof.
  intros [Hm Ho _ _ _ _ _ _ _] Hl. assert (Hd : l ∈ dom (memory s)) by (rewrite Hm; set_solver).
  apply elem_of_dom in Hd as [req E]. exists req. unfold RemoveRequest. rewrite bool_decide_true, E by done. split_and!; try done.
  - rewrite <- (map_to_list_delete _ _ _ E). done.
  - rewrite dom_delete_L, Hm. clear -Ho Hl. set_solver.
  - clear -Ho. set_solver.
Qed.

Lemma Call_ok l accepted s : port_ok s -> l ∈ calling s -> port_ok (Call l accepted s).
Proof.
  intros HP Hl. pose proof HP as [Hm Ho Ht [Hc1 Hc2] Hh Hn Hcl Hab Hi]. unfold Call. cbn.
  assert (Hop : open s = false -> False) by (intros E; destruct (Hcl E) as (E1 & _); rewrite E1 in Hl; set_solver).
  destruct accepted.
  - split; cbn; try done; try (clear -Hc1 Hc2 Hh Hl; set_solver).
    rewrite Ht. clear -Hl. set_unfold. intros x. destruct (decide (x = l)); naive_solver.
  - destruct (drop_memory s l HP) as (req & Er & Erm & H1 & H2 & H3); [rewrite Ht; set_solver |].
    unfold RemoveRequest in Erm. injection Erm as Erm. cbn in Erm. rewrite Erm. split; cbn; try done.
    + rewrite Ht. clear -Hl Hc1 Hc2. set_solver.
    + clear -Hc1 Hc2. set_solver.
    + rewrite Hi, !fmap_app, H1. cbn. solve_Permutation.
Qed.

(** Writing to its buffer does not change what a request is. *)
Lemma key_write written req : zlen written <= zlen (req_buffer req) -> key (write_buffer written req) = key req.
Proof. intros Hw. unfold key, write_buffer. cbn. rewrite zlen_app, zlen_zdrop by (split; [apply zlen_nonneg | lia]). f_equal. lia. Qed.

Lemma result_ok_fits req ok written bytes : result_ok req ok written bytes = true -> zlen written <= zlen (req_buffer req).
Proof.
  pose proof (zlen_nonneg (req_buffer req)). assert (H0 : written = [] -> zlen written <= zlen (req_buffer req)) by (intros ->; by rewrite zlen_nil).
  unfold result_ok. destruct ok; [| by intros E%bool_decide_eq_true; auto].
  destruct (operation req); rewrite ?andb_true_iff, ?bool_decide_eq_true; [naive_solver | naive_solver | | naive_solver]. intros [_ E]. lia.
Qed.

Lemma keys_write (mem : gmap addr WinIoRequest) l req written :
  mem !! l = Some req -> zlen written <= zlen (req_buffer req) ->
  key <$> (map_to_list mem).*2 ≡ₚ key <$> (map_to_list (alter (write_buffer written) l mem)).*2.
Proof.
  intros Er Hw. rewrite <- (map_to_list_delete _ _ _ Er).
  assert (El : alter (write_buffer written) l mem !! l = Some (write_buffer written req)) by (by rewrite lookup_alter_eq, Er).
  rewrite <- (map_to_list_delete _ _ _ El). cbn. rewrite key_write by done. f_equiv. by rewrite delete_alter_eq.
Qed.

Lemma complete_ok l req ok written b e s :
  port_ok s -> l ∈ held s -> memory s !! l = Some req -> zlen written <= zlen (req_buffer req) ->
  port_ok (complete l ok written b e s).
Proof.
  intros [Hm Ho Ht [Hc1 Hc2] Hh Hn Hcl Hab Hi] Hl Er Hw. split; cbn -[dom]; rewrite ?dom_alter_L, ?completed_snoc; try done.
  - rewrite Ht. clear -Hl. set_unfold. intros x. destruct (decide (x = l)); naive_solver.
  - clear -Hc1 Hc2 Hl. set_solver.
  - clear -Hh. set_solver.
  - apply list.NoDup_app. split_and!; [done | | by repeat constructor; set_solver].
    intros x Hx ->%list_elem_of_singleton. apply (Hh l Hl). by apply elem_of_list_to_set.
  - intros E. destruct (Hcl E) as (_ & E1 & _). rewrite E1 in Hl. set_solver.
  - rewrite Hi, !fmap_app. do 2 f_equiv.
    by eapply keys_write.
Qed.

Lemma complete_abandoned_ok l req written s :
  port_ok s -> l ∈ abandoned s -> memory s !! l = Some req -> zlen written <= zlen (req_buffer req) ->
  port_ok (complete_abandoned l written s).
Proof.
  intros [Hm Ho Ht Hc Hh Hn Hcl Hab Hi] Hl Er Hw. split; cbn -[dom]; rewrite ?dom_alter_L; try done.
  - clear -Hab. set_solver.
  - rewrite Hi, !fmap_app. do 2 f_equiv. by eapply keys_write.
Qed.

(** A completion that is taken off the port always finds its request. *)
Lemma PollOne_done s l ok b e ps :
  port_ok s -> packets s = PDone l ok b e :: ps ->
  exists req, memory s !! l = Some req /\
    PollOne s = (Some (to_event req ok b e),
                 s <| packets := ps |> <| requests := requests s ∖ {[ l ]} |> <| memory := delete l (memory s) |>
                   <| handed := handed s ++ [req] |>).
Proof.
  intros HP E. destruct (drop_memory s l HP) as (req & Er & Erm & _); [rewrite (ok_tracked s HP), E; cbn; set_solver |].
  exists req. split; [done |]. unfold RemoveRequest in Erm. injection Erm as Erm. unfold PollOne. rewrite E. cbn. by rewrite Erm.
Qed.

Lemma PollOne_ok s : port_ok s -> port_ok (PollOne s).2.
Proof.
  intros HP. destruct (packets s) as [| [| l ok b e] ps] eqn:E; [unfold PollOne; by rewrite E | |].
  - unfold PollOne. rewrite E. cbn. destruct HP as [Hm Ho Ht Hc Hh Hn Hcl Hab Hi]. rewrite E in *. by split.
  - destruct (PollOne_done s l ok b e ps HP E) as (req & Er & ->). cbn.
    destruct (drop_memory s l HP) as (req' & Er' & _ & H1 & H2 & H3); [rewrite (ok_tracked s HP), E; cbn; set_solver |].
    assert (req' = req) as -> by congruence. destruct HP as [Hm Ho Ht [Hc1 Hc2] Hh Hn Hcl Hab Hi]. rewrite E in *. cbn in *.
    apply list.NoDup_cons in Hn as [Hn1 Hn2]. split; cbn; try done.
    + rewrite Ht. assert (Hn1' : l ∉ (list_to_set (completed ps) : gset addr)) by (by rewrite elem_of_list_to_set).
      clear -Hc2 Hh Hn1'. set_solver.
    + clear -Hc1 Hc2. set_solver.
    + clear -Hh. set_solver.
    + intros Eo. by destruct (Hcl Eo) as (_ & _ & ?).
    + rewrite Hi, !fmap_app, H1. cbn. solve_Permutation.
Qed.

Lemma Wait_loop_ok fuel events s : port_ok s -> port_ok (Wait_loop fuel events s).2.
Proof.
  revert events s. induction fuel as [| fuel IH]; intros events s HP; [done |]. cbn. destruct (_ <? _); [| done].
  pose proof (PollOne_ok s HP) as HP'. destruct (PollOne s) as [[ev |] s']; [by apply IH | done].
Qed.

Lemma port_reachable_ok s : reachable s -> port_ok s.
Proof.
  intros Hs. unfold reachable in Hs. pattern s. refine (rtc_ind_r _ _ _ _ _ Hs); [apply port_ok_new |].
  clear s Hs. intros s s' _ [a E] HP. destruct a as [created | | | id v found | id v len | id v data | l acc | l ok w b e | l ok w b |]; cbn in E.
  - injection E as <-. unfold Init. destruct (open s) eqn:Eo; [done |]. destruct created; [| done]. cbn.
    destruct HP as [Hm Ho Ht Hc Hh Hn Hcl Hab Hi]. by split.
  - destruct (bool_decide_reflect (calling s = ∅)) as [Ec |]; [| done]. injection E as <-. unfold Shutdown. destruct (open s); [| done].
    destruct HP as [Hm Ho Ht Hc Hh Hn Hcl Hab Hi]. split; cbn; try done; try (clear -Hm Ec; set_solver).
    + constructor.
    + rewrite Ht. clear -Hab. set_solver.
  - injection E as <-. unfold Wake. destruct (open s); [| done]. destruct HP as [Hm Ho Ht Hc Hh Hn Hcl Hab Hi].
    split; cbn; rewrite ?completed_wake; done.
  - injection E as <-. by apply StartConnect_ok.
  - injection E as <-. unfold StartRecv. destruct (open s) eqn:Eo, v; try done. by apply TrackRequest_ok.
  - injection E as <-. unfold StartSend. destruct (open s) eqn:Eo, v; try done. by apply TrackRequest_ok.
  - destruct (bool_decide_reflect (l ∈ calling s)); [| done]. injection E as <-. by apply Call_ok.
  - destruct (memory s !! l) as [req |] eqn:Er; [| done]. destruct (bool_decide_reflect (l ∈ held s)); [| done]. cbn in E.
    destruct (result_ok req ok w b) eqn:Ew; [| done]. injection E as <-.
    apply (complete_ok l req); try done. by eapply result_ok_fits.
  - destruct (memory s !! l) as [req |] eqn:Er; [| done]. destruct (bool_decide_reflect (l ∈ abandoned s)); [| done]. cbn in E.
    destruct (result_ok req ok w b) eqn:Ew; [| done]. injection E as <-. apply (complete_abandoned_ok l req); try done.
    by eapply result_ok_fits.
  - injection E as <-. unfold Wait. destruct (open s); [| done]. cbn. pose proof (PollOne_ok s HP) as HP'.
    destruct (PollOne s) as [[ev |] s']; [| done]. pose proof (Wait_loop_ok (Z.to_nat kMaxCompletions) [ev] s' HP') as HW.
    by destruct (Wait_loop _ _ _).
Qed.

(** ** Theorems *)

(** Requests live as long as they must and no longer. At every moment every operation the
    kernel holds has its request in memory, also after the port was closed, and so have the
    completions on the port and the
    threads that are about to call the kernel; nothing else is in memory but the requests that
    were pending when a poller was shut down, which are never freed. Every request that was
    started is accounted for exactly once: its call failed, it was handed over with an event,
    or it is still in memory; its operation, its connection and the length of its buffer are
    those it was started with. *)
Theorem iocp_request_lifetime (s : port) :
  reachable s ->
  dom (memory s) = calling s ∪ held s ∪ list_to_set (completed (packets s)) ∪ orphans s /\
  NoDup (completed (packets s)) /\ held s ## list_to_set (completed (packets s)) /\ abandoned s ⊆ orphans s /\
  key <$> started s ≡ₚ key <$> failed s ++ handed s ++ (map_to_list (memory s)).*2.
Proof.
  intros Hs. destruct (port_reachable_ok s Hs) as [Hm _ Ht _ Hh Hn _ Hab Hi]. split_and!; try done. by rewrite Hm, Ht.
Qed.

(** A completion is delivered as what it is: the event carries the id and the operation the
    request was started with, the bytes, the buffer as the kernel left it, and either the readiness of the operation or the
    error. *)
Theorem iocp_completion_delivered (s : port) (l : addr) (ok : bool) (bytes error : Z) (ps : list packet) :
  reachable s -> packets s = PDone l ok bytes error :: ps ->
  exists req, memory s !! l = Some req /\ (PollOne s).1 = Some (to_event req ok bytes error) /\
    handed (PollOne s).2 = handed s ++ [req] /\ memory (PollOne s).2 !! l = None /\ packets (PollOne s).2 = ps.
Proof.
  intros Hs E. pose proof (port_reachable_ok s Hs) as HP. destruct (PollOne_done s l ok bytes error ps HP E) as (req & Er & ->).
  exists req. cbn. split_and!; try done. by rewrite lookup_delete_eq.
Qed.

(** ** Examples *)

Definition id5 : ConnectionId := {| slot := 5; generation := 1 |}.

(** A receive is started and accepted, a send is refused, the receive completes. *)
Definition port_demo : list action :=
  [AInit true; ARecv id5 true 4; ASend id5 true [x41; x42]; ACall 0 true; ACall 1 false;
   AComplete 0 true [x43; x44; x45] 3 0].

Definition run (l : list action) (s : port) : port := foldl (fun s a => default s (act a s)) s l.

Lemma port_run_reachable l s : reachable s -> reachable (run l s).
Proof.
  revert s. induction l as [| a l IH]; intros s Hs; [done |]. cbn. apply IH. destruct (act a s) as [s' |] eqn:E; [| done].
  eapply rtc_r; [exact Hs |]. by exists a.
Qed.

Lemma iocp_request_lifetime_witness :
  key <$> started (run port_demo port_new) ≡ₚ
  key <$> failed (run port_demo port_new) ++ handed (run port_demo port_new) ++ (map_to_list (memory (run port_demo port_new))).*2.
Proof. apply (iocp_request_lifetime (run port_demo port_new)), port_run_reachable, rtc_refl. Defined.

Lemma iocp_completion_delivered_witness :
  exists req, memory (run port_demo port_new) !! 0%nat = Some req /\
    (PollOne (run port_demo port_new)).1 = Some (to_event req true 3 0).
Proof.
  destruct (iocp_completion_delivered (run port_demo port_new) 0 true 3 0 []) as (req & H1 & H2 & _).
  - apply port_run_reachable, rtc_refl.
  - by vm_compute.
  - by exists req.
Defined.
