(* ===== verification/IocpSpec.v ===== *)
(** * The completion port refines a pool of requests

    What a connection relies on when it starts transfers on Windows ([WinConnection.v] and
    [WinInv.v] keep nothing else of the poller): there is a pool of requests, a request enters
    it when the kernel accepts it, and leaves it, once, as an event that reports what the
    kernel did with exactly that request. The port of [src/net/poller_win32.cc], with its
    memory, its map of requests and its queue of completions, refines the pool. *)

From S2P Require Import Prelude Codec ConnTable Poller Iocp.

(** ** The pool *)

Inductive label := LStart (req : WinIoRequest) | LEvent (ev : PollEvent) | LStop.

Inductive pool_step (pool : list WinIoRequest) : label -> list WinIoRequest -> Prop :=
| pool_start req pool' : pool' ≡ₚ req :: pool -> pool_step pool (LStart req) pool'
| pool_event req pool' ok written bytes error :
    pool ≡ₚ req :: pool' -> result_ok req ok written bytes = true ->
    pool_step pool (LEvent (to_event (write_buffer written req) ok bytes error)) pool'
| pool_stop : pool_step pool LStop [].

Inductive pool_run : list WinIoRequest -> list label -> list WinIoRequest -> Prop :=
| pool_nil pool : pool_run pool [] pool
| pool_cons pool1 pool2 pool3 e es : pool_step pool1 e pool2 -> pool_run pool2 es pool3 -> pool_run pool1 (e :: es) pool3.

Lemma pool_run_app p1 p2 p3 es es' : pool_run p1 es p2 -> pool_run p2 es' p3 -> pool_run p1 (es ++ es') p3.
Proof. induction 1; [done |]. intros ?. cbn. econstructor; eauto. Qed.

Lemma pool_run_one p1 p2 e : pool_step p1 e p2 -> pool_run p1 [e] p2.
Proof. intros ?. econstructor; [done | constructor]. Qed.

(** ** What an action of the port shows *)

Definition labels (a : action) (s : port) : list label :=
  match a with
  | ACall l true => match memory s !! l with Some req => [LStart req] | None => [] end
  | AShutdown => if open s then [LStop] else []
  | AWait => LEvent <$> (Wait s).1.2
  | _ => []
  end.

Fixpoint port_run (acts : list action) (s : port) : option (list label * port) :=
  match acts with
  | [] => Some ([], s)
  | a :: acts' => s' ← act a s; '(es, s'') ← port_run acts' s'; Some (labels a s ++ es, s'')
  end.

(** ** Simulation *)

(** The requests the kernel accepted and whose event has not been taken. *)
Definition accepted (s : port) : gset addr := held s ∪ list_to_set (completed (packets s)).

(** [orig]: these requests, as they were accepted. *)
Definition simulates (s : port) (pool : list WinIoRequest) : Prop :=
  exists orig : gmap addr WinIoRequest,
    dom orig = accepted s /\ pool ≡ₚ (map_to_list orig).*2 /\
    (forall l, l ∈ held s -> memory s !! l = orig !! l) /\
    (forall l ok b e, PDone l ok b e ∈ packets s ->
       exists req written, orig !! l = Some req /\ memory s !! l = Some (write_buffer written req) /\ result_ok req ok written b = true).

Lemma done_completed l ok b e ps : PDone l ok b e ∈ ps -> l ∈ completed ps.
Proof. intros Hp. unfold completed. apply list_elem_of_omap. eexists. split; [exact Hp | done]. Qed.

Lemma simulates_frame s s' pool :
  simulates s pool -> held s' = held s -> completed (packets s') = completed (packets s) ->
  (forall l ok b e, PDone l ok b e ∈ packets s' -> PDone l ok b e ∈ packets s) ->
  (forall l, l ∈ accepted s -> memory s' !! l = memory s !! l) -> simulates s' pool.
Proof.
  intros (orig & Hd & Hp & Hh & Hc) Eh Ec Ep Em. exists orig. unfold accepted in *. rewrite Eh, Ec. split_and!; try done.
  - intros l Hl. rewrite Em by set_solver. by apply Hh.
  - intros l ok b e Hl. apply Ep in Hl. destruct (Hc l ok b e Hl) as (req & w & H1 & H2 & H3). exists req, w. split_and!; try done.
    rewrite Em; [done |]. apply elem_of_union_r, elem_of_list_to_set. by eapply done_completed.
Qed.

Lemma accepted_memory s l : port_ok s -> l ∈ accepted s -> l ∈ dom (memory s).
Proof. intros HP Hl. rewrite (ok_memory s HP), (ok_tracked s HP). unfold accepted in Hl. set_solver. Qed.

Lemma TrackRequest_sim req s pool : port_ok s -> simulates s pool -> simulates (TrackRequest req s).2 pool.
Proof.
  intros HP HS. unfold TrackRequest. cbn [snd]. set (l := fresh _). assert (Hl : l ∉ dom (memory s)) by apply is_fresh.
  apply (simulates_frame s); try done. intros l' Hl'. cbn. apply lookup_insert_ne. intros ->.
  by apply Hl, accepted_memory.
Qed.

Lemma Call_sim l (acc : bool) s pool req :
  port_ok s -> simulates s pool -> l ∈ calling s -> memory s !! l = Some req ->
  exists pool', pool_run pool (if acc then [LStart req] else []) pool' /\ simulates (Call l acc s) pool'.
Proof.
  intros HP HS Hl Er. destruct (ok_calling s HP) as [Hc1 Hc2]. assert (Hna : l ∉ accepted s) by (unfold accepted; set_solver).
  unfold Call. destruct acc; cbn.
  - destruct HS as (orig & Hd & Hp & Hh & Hc). assert (Hno : orig !! l = None) by (apply not_elem_of_dom; by rewrite Hd).
    exists (req :: pool). split; [apply pool_run_one; by constructor |]. exists (<[l := req]> orig). split_and!.
    + rewrite dom_insert_L, Hd. unfold accepted. cbn. set_solver.
    + by rewrite map_to_list_insert, Hp.
    + cbn. intros l' [->%elem_of_singleton | Hl']%elem_of_union; [by rewrite lookup_insert_eq |].
      rewrite lookup_insert_ne; [by apply Hh |]. intros ->. set_solver.
    + cbn. intros l' ok b e Hl'. rewrite lookup_insert_ne; [by eapply Hc |]. intros ->. apply Hna, elem_of_union_r, elem_of_list_to_set.
      by eapply done_completed.
  - exists pool. split; [constructor |]. rewrite Er. destruct (bool_decide _); cbn; apply (simulates_frame s); try done.
    intros l' Hl'. cbn. apply lookup_delete_ne. by intros ->.
Qed.

Lemma complete_sim l req ok written b e s pool :
  port_ok s -> simulates s pool -> l ∈ held s -> memory s !! l = Some req -> result_ok req ok written b = true ->
  simulates (complete l ok written b e s) pool.
Proof.
  intros HP (orig & Hd & Hp & Hh & Hc) Hl Er Hr. exists orig. unfold accepted in *. cbn. rewrite completed_snoc. split_and!; try done.
  - rewrite Hd. clear -Hl. set_unfold. intros x. destruct (decide (x = l)); naive_solver.
  - intros l' Hl'. rewrite lookup_alter_ne by set_solver. apply Hh. set_solver.
  - intros l' ok' b' e' [Hl' | [= -> -> -> ->]%list_elem_of_singleton]%elem_of_app.
    + rewrite lookup_alter_ne; [by eapply Hc |]. intros <-. apply (ok_held s HP l Hl), elem_of_list_to_set. by eapply done_completed.
    + exists req, written. rewrite <- Hh, lookup_alter_eq, Er by done. done.
Qed.

Lemma PollOne_sim s pool :
  port_ok s -> simulates s pool ->
  exists pool', pool_run pool (match (PollOne s).1 with Some ev => [LEvent ev] | None => [] end) pool' /\ simulates (PollOne s).2 pool'.
Proof.
  intros HP HS. destruct (packets s) as [| [| l ok b e] ps] eqn:E.
  - unfold PollOne. rewrite E. exists pool. split; [constructor | done].
  - unfold PollOne. rewrite E. exists pool. split; [constructor |]. apply (simulates_frame s); cbn; rewrite ?E; try done. set_solver.
  - destruct (PollOne_done s l ok b e ps HP E) as (req & Er & ->). cbn [fst snd].
    destruct HS as (orig & Hd & Hp & Hh & Hc). destruct (Hc l ok b e) as (req0 & w & Eo & Em & Hr); [rewrite E; left |].
    assert (req = write_buffer w req0) as -> by congruence. exists (map_to_list (delete l orig)).*2. split.
    { apply pool_run_one. constructor; [| done]. rewrite Hp. by rewrite <- (map_to_list_delete _ _ _ Eo). }
    pose proof (ok_once s HP) as Hn. pose proof (ok_held s HP) as Hx. unfold accepted in *. rewrite E in *. cbn in Hn, Hd, Hx.
    apply list.NoDup_cons in Hn as [Hn _].
    assert (Hne : forall l' ok' b' e', PDone l' ok' b' e' ∈ ps -> l' <> l) by (intros l' ok' b' e' Hl' ->; by eapply Hn, done_completed).
    exists (delete l orig). unfold accepted. cbn. split_and!; [| done | |].
    + rewrite dom_delete_L, Hd. assert (Hn' : l ∉ (list_to_set (completed ps) : gset addr)) by (by rewrite elem_of_list_to_set).
      clear -Hn' Hx. set_solver.
    + intros l' Hl'. assert (l' <> l) by (intros ->; clear -Hx Hl'; set_solver). rewrite !lookup_delete_ne by done. by apply Hh.
    + intros l' ok' b' e' Hl'. pose proof (Hne _ _ _ _ Hl') as Hl. rewrite !lookup_delete_ne by done. eapply Hc. by right.
Qed.

Lemma Wait_loop_sim fuel : forall events s pool,
  port_ok s -> simulates s pool ->
  exists new pool', (Wait_loop fuel events s).1 = events ++ new /\ pool_run pool (LEvent <$> new) pool' /\
    simulates (Wait_loop fuel events s).2 pool'.
Proof.
  induction fuel as [| fuel IH]; intros events s pool HP HS; cbn [Wait_loop].
  { exists [], pool. rewrite app_nil_r. split_and!; [done | constructor | done]. }
  destruct (_ <? _); [| exists [], pool; rewrite app_nil_r; split_and!; [done | constructor | done]].
  pose proof (PollOne_ok s HP) as HP'. destruct (PollOne_sim s pool HP HS) as (pool1 & Hr & HS1).
  destruct (PollOne s) as [[ev |] s']; cbn [fst snd] in *.
  - destruct (IH (events ++ [ev]) s' pool1 HP' HS1) as (new & pool' & E1 & Hr' & HS'). exists (ev :: new), pool'.
    rewrite E1, <- app_assoc. split_and!; [done | | done]. by apply (pool_run_app _ _ _ _ _ Hr Hr').
  - exists [], pool1. rewrite app_nil_r. done.
Qed.

Lemma Wait_sim s pool :
  port_ok s -> simulates s pool -> exists pool', pool_run pool (LEvent <$> (Wait s).1.2) pool' /\ simulates (Wait s).2 pool'.
Proof.
  intros HP HS. unfold Wait. destruct (open s); cbn [negb]; [| exists pool; split; [constructor | done]].
  pose proof (PollOne_ok s HP) as HP'. destruct (PollOne_sim s pool HP HS) as (pool1 & Hr & HS1).
  destruct (PollOne s) as [[ev |] s']; cbn [fst snd] in *; [| by exists pool1].
  destruct (Wait_loop_sim (Z.to_nat kMaxCompletions) [ev] s' pool1 HP' HS1) as (new & pool' & E1 & Hr' & HS').
  destruct (Wait_loop _ _ _) as [events s'']. cbn [fst snd] in *. subst events. exists pool'. split; [| done].
  by apply (pool_run_app _ _ _ _ _ Hr Hr').
Qed.

Lemma Shutdown_sim s pool :
  port_ok s -> simulates s pool -> exists pool', pool_run pool (if open s then [LStop] else []) pool' /\ simulates (Shutdown s) pool'.
Proof.
  intros HP HS. unfold Shutdown. destruct (open s); [| exists pool; split; [constructor | done]].
  exists []. split; [apply pool_run_one; constructor |]. exists ∅. unfold accepted. cbn. split_and!; try done.
  - intros l ok b e ?%not_elem_of_nil. done.
Qed.

Lemma act_sim a s s' pool :
  port_ok s -> simulates s pool -> act a s = Some s' -> exists pool', pool_run pool (labels a s) pool' /\ simulates s' pool'.
Proof.
  intros HP HS E. destruct a as [created | | | id v found | id v len | id v data | l acc | l ok w b e | l ok w b |]; cbn in E.
  - injection E as <-. exists pool. split; [constructor |]. unfold Init. destruct (open s); [done |]. destruct created; [| done].
    by apply (simulates_frame s).
  - destruct (bool_decide _); [| done]. injection E as <-. by apply Shutdown_sim.
  - injection E as <-. exists pool. split; [constructor |]. unfold Wake. destruct (open s); [| done].
    apply (simulates_frame s); cbn; rewrite ?completed_wake; try done.
    intros l ok b e [? | [=]%list_elem_of_singleton]%elem_of_app. done.
  - injection E as <-. exists pool. split; [constructor |]. unfold StartConnect. destruct (open s) eqn:Eo, v; try done. cbn [negb orb].
    destruct (LoadConnectEx_ok found s HP) as [HP' _].
    assert (HS' : simulates (LoadConnectEx found s).2 pool) by (unfold LoadConnectEx; destruct (connectex s), found; try done; by apply (simulates_frame s)).
    destruct (LoadConnectEx found s) as [[] s1]; [by apply (TrackRequest_sim _ s1) | done].
  - injection E as <-. exists pool. split; [constructor |]. unfold StartRecv. destruct (open s), v; try done. by apply (TrackRequest_sim _ s).
  - injection E as <-. exists pool. split; [constructor |]. unfold StartSend. destruct (open s), v; try done. by apply (TrackRequest_sim _ s).
  - destruct (bool_decide_reflect (l ∈ calling s)) as [Hl |]; [| done]. injection E as <-.
    assert (Hd : l ∈ dom (memory s)) by (rewrite (ok_memory s HP), (ok_tracked s HP); set_solver).
    apply elem_of_dom in Hd as [req Er]. destruct (Call_sim l acc s pool req HP HS Hl Er) as (pool' & Hr & HS'). exists pool'.
    unfold labels. rewrite Er. by destruct acc.
  - destruct (memory s !! l) as [req |] eqn:Er; [| done]. destruct (bool_decide_reflect (l ∈ held s)); [| done]. cbn in E.
    destruct (result_ok req ok w b) eqn:Ew; [| done]. injection E as <-. exists pool. split; [constructor |].
    by apply (complete_sim l req).
  - destruct (memory s !! l) as [req |] eqn:Er; [| done]. destruct (bool_decide_reflect (l ∈ abandoned s)) as [Hl |]; [| done]. cbn in E.
    destruct (result_ok req ok w b); [| done]. injection E as <-. exists pool. split; [constructor |].
    apply (simulates_frame s); try done. intros l' Hl'. cbn. apply lookup_alter_ne. intros <-.
    pose proof (ok_orphans s HP) as Ho. pose proof (ok_abandoned s HP) as Ha. pose proof (ok_tracked s HP) as Ht. unfold accepted in Hl'. set_solver.
  - injection E as <-. by apply Wait_sim.
Qed.

(** Simulation along a run. *)
Lemma port_run_sim acts : forall es s s0 pool0,
  reachable s0 -> simulates s0 pool0 -> port_run acts s0 = Some (es, s) ->
  exists pool, pool_run pool0 es pool /\ simulates s pool /\ reachable s.
Proof.
  induction acts as [| a acts IH]; intros es s s0 pool0 Hs0 HS E; cbn in E.
  { injection E as <- <-. exists pool0. split_and!; [constructor | done | done]. }
  destruct (act a s0) as [s1 |] eqn:Ea; [| done]. cbn in E. destruct (port_run acts s1) as [[es1 s2] |] eqn:Er; [| done]. cbn in E.
  injection E as <- <-. destruct (act_sim a s0 s1 pool0 (port_reachable_ok s0 Hs0) HS Ea) as (pool1 & H1 & HS1).
  destruct (IH es1 s2 s1 pool1) as (pool & H2 & HS2 & Hr2); [eapply rtc_r; [done | by exists a] | done | done |].
  exists pool. split_and!; [by eapply pool_run_app | done | done].
Qed.

Lemma simulates_new : simulates port_new [].
Proof. exists ∅. unfold accepted. cbn. split_and!; try done; try (intros; set_solver); by rewrite ?dom_empty_L, ?map_to_list_empty. Qed.

(** C29: The completion port refines the pool of requests that the connection counts on.
    Whatever threads start, the kernel accepts, refuses or completes, and however the poll
    thread waits, the requests that were accepted and the events that [Wait] returned are, in
    this order, a run of the pool: each event reports the outcome of one request that was
    accepted before and not reported yet, unchanged but for what the kernel wrote into its
    buffer; nothing is reported twice, and after the run the pool holds exactly the requests
    that the kernel still has for the port or whose completion still waits on it. *)
Theorem iocp_refines_pool (acts : list action) (es : list label) (s : port) :
  port_run acts port_new = Some (es, s) ->
  exists pool, pool_run [] es pool /\ simulates s pool /\ length pool = size (accepted s).
Proof.
  intros E. destruct (port_run_sim acts es s port_new [] (rtc_refl _ _) simulates_new E) as (pool & Hr & HS & _).
  exists pool. split_and!; try done. destruct HS as (orig & <- & -> & _). by rewrite size_dom, length_fmap, length_map_to_list.
Qed.

(** ** Example *)

(** A receive and a send are accepted, both complete, the poll thread takes one event after the
    other. *)
Definition pool_demo : list action :=
  [AInit true; ARecv id5 true 4; ASend id5 true [x41; x42]; ACall 0 true; ACall 1 true; AComplete 1 true [] 2 0;
   AComplete 0 true [x43; x44; x45] 3 0; AWake; AWait].

Lemma iocp_refines_pool_witness :
  exists pool, length pool = 0%nat /\
    pool_run [] [LStart (recv_request id5 4); LStart (send_request id5 [x41; x42]);
                 LEvent (to_event (send_request id5 [x41; x42]) true 2 0);
                 LEvent (to_event (write_buffer [x43; x44; x45] (recv_request id5 4)) true 3 0)] pool.
Proof.
  destruct (port_run pool_demo port_new) as [[es s] |] eqn:E; [| exfalso; revert E; vm_compute; discriminate].
  destruct (iocp_refines_pool pool_demo es s E) as (pool & Hr & _ & Hl). exists pool.
  assert (Ha : option_map (fun x => size (accepted x.2)) (port_run pool_demo port_new) = Some 0%nat) by (vm_compute; reflexivity).
  rewrite E in Ha. injection Ha as Ha.
  assert (Ee : option_map fst (port_run pool_demo port_new) = Some es) by (by rewrite E).
  vm_compute in Ee. injection Ee as <-. split; [congruence | exact Hr].
Defined.
