(* ===== verification/Address.v ===== *)
(** * Names and socket addresses

    [src/net/resolve_address.h], [src/net/resolve_address.cc] and the IPv4/IPv6 part
    of [src/net/socket_util.cc]. Strings are lists of bytes; [getaddrinfo] and
    [inet_pton] of the C library are parameters, and [malloc] succeeds. Multi-byte
    fields in host order are little-endian. *)

From S2P Require Import Prelude Codec.

Abbreviation str := (list byte).
Definition lit (s : string) : str := String.list_byte_of_string s.

(** ** std::string *)

(** [find(c, from)]: [None] is [npos]. *)
Definition find (l : str) (c : byte) (from : Z) : option Z :=
  if from <=? zlen l then (fun i => from + i) <$> memchr (zdrop from l) c else None.

(** [substr(pos, n)]; the callers have [pos <= size]. *)
Definition substr (l : str) (pos n : Z) : str := ztake n (zdrop pos l).

(** [name[i]]: the terminating NUL is readable. *)
Definition char_at (l : str) (i : Z) : byte := default x00 (l !! Z.to_nat i).

(** ** The number format [%d] *)

Definition digit (d : Z) : byte := byte_of (48 + d).

Fixpoint digits (fuel : nat) (n : Z) (acc : str) : str :=
  match fuel with
  | O => acc
  | S fuel' => if n <? 10 then digit n :: acc else digits fuel' (n / 10) (digit (n mod 10) :: acc)
  end.

(** An [int] has at most ten digits. *)
Definition format_d (n : Z) : str :=
  if n <? 0 then x2d :: digits 10 (- n) [] else digits 10 n [].

(** ** Host and port *)

Definition colon : byte := x3a.
Definition lbracket : byte := x5b.
Definition rbracket : byte := x5d.

Definition connx_join_host_port (host : str) (port : Z) : str :=
  if negb (bool_decide (char_at host 0 = lbracket)) && bool_decide (is_Some (memchr host colon))
  then [lbracket] ++ host ++ [rbracket; colon] ++ format_d port
  else host ++ [colon] ++ format_d port.

(** The result and the strings [host] and [port] point to, empty before the call. *)
Definition connx_split_host_port (name : str) : bool * str * str :=
  if bool_decide (char_at name 0 = lbracket) then
    match find name rbracket 1 with
    | None => (false, [], [])
    | Some rb =>
        let with_port (port : str) :=
          let host := substr name 1 (rb - 1) in
          match find host colon 0 with
          | None => (false, [], port)
          | Some _ => (true, host, port)
          end in
        if rb =? zlen name - 1 then with_port []
        else if bool_decide (char_at name (rb + 1) = colon) then
          with_port (substr name (rb + 2) (zlen name - rb - 2))
        else (false, [], [])
    end
  else
    match find name colon 0 with
    | Some c =>
        match find name colon (c + 1) with
        | None => (true, substr name 0 c, substr name (c + 1) (zlen name - c - 1))
        | Some _ => (true, name, [])
        end
    | None => (true, name, [])
    end.

(** ** Socket addresses *)

Record connx_resolved_address := { ra_addr : list byte; ra_len : Z }.

Definition AF_INET : Z := 2.
Definition AF_INET6 : Z := 10.
Definition sizeof_sockaddr_in : Z := 16.
Definition sizeof_sockaddr_in6 : Z := 28.

(** [sa_family]: the first two bytes; the port is the next two in network order. *)
Definition sa_family (a : connx_resolved_address) : Z := le_value (ztake 2 (ra_addr a)).
Definition sin_port (a : connx_resolved_address) : Z := be_value (ztake 2 (zdrop 2 (ra_addr a))).

Definition write_addr (a : connx_resolved_address) (off : nat) (bytes : list byte) : connx_resolved_address :=
  {| ra_addr := splice off bytes (ra_addr a); ra_len := ra_len a |}.

Definition connx_sockaddr_set_port (a : connx_resolved_address) (port : Z) : Z * connx_resolved_address :=
  if negb ((0 <=? port) && (port <? 65536)) then (0, a)
  else if (sa_family a =? AF_INET) || (sa_family a =? AF_INET6)
       then (1, write_addr a 2 (be_bytes 2 (u16 port)))
       else (0, a).

Definition connx_sockaddr_get_port (a : connx_resolved_address) : Z :=
  if (sa_family a =? AF_INET) || (sa_family a =? AF_INET6) then sin_port a else 0.

Definition zero_address : connx_resolved_address := {| ra_addr := replicate 128 x00; ra_len := 0 |}.

(** [inet_pton(af, addr, ...)]: the address in network order, or [None]. *)
Definition connx_string_to_sockaddr (inet_pton : Z -> str -> option (list byte)) (addr : str) (port : Z)
    : option connx_resolved_address :=
  let out := zero_address in
  match inet_pton AF_INET6 addr with
  | Some ip6 =>
      let out := write_addr out 8 ip6 in
      let out := write_addr out 0 (le_bytes 2 AF_INET6) in
      let out := {| ra_addr := ra_addr out; ra_len := sizeof_sockaddr_in6 |} in
      Some (snd (connx_sockaddr_set_port out port))
  | None =>
      match inet_pton AF_INET addr with
      | Some ip4 =>
          let out := write_addr out 4 ip4 in
          let out := write_addr out 0 (le_bytes 2 AF_INET) in
          let out := {| ra_addr := ra_addr out; ra_len := sizeof_sockaddr_in |} in
          Some (snd (connx_sockaddr_set_port out port))
      | None => None
      end
  end.

Definition connx_sockaddr_make_wildcard4 (port : Z) : option connx_resolved_address :=
  if (0 <=? port) && (port <? 65536) then
    let out := write_addr zero_address 0 (le_bytes 2 AF_INET) in
    let out := write_addr out 2 (be_bytes 2 (u16 port)) in
    Some {| ra_addr := ra_addr out; ra_len := sizeof_sockaddr_in |}
  else None.

(** ** The blocking resolver *)

Inductive resolve_error :=
| UnparseableHostPort (name : str)
| NoPortInName (name : str)
| GetaddrinfoError (code : Z).

(** A node of the list [getaddrinfo] returns: [ai_addr] with its length. *)
Definition addrinfo : Type := list byte.

(** [memcpy] of an address into [addr[128]]. *)
Definition copy_address (ai : addrinfo) : option connx_resolved_address :=
  if zlen ai <=? 128 then Some {| ra_addr := ai ++ replicate (128 - length ai) x00; ra_len := zlen ai |}
  else None.

Section Resolve.
(** [getaddrinfo(host, port)]: the return code and, when it is 0, the result list. *)
Context (getaddrinfo : str -> str -> Z * list addrinfo).

(** The retry with the port number of a well-known service. *)
Definition getaddrinfo_retry (host port : str) : Z * list addrinfo :=
  let '(s, result) := getaddrinfo host port in
  if negb (s =? 0) then
    if bool_decide (port = lit "http") then getaddrinfo host (lit "80")
    else if bool_decide (port = lit "https") then getaddrinfo host (lit "443")
    else (s, result)
  else (s, result).

(** [inl] is the error; the outer [None] is a write past [addr[128]]. *)
Definition connx_blocking_resolve_address (name : str) (default_port : option str)
    : option (resolve_error + list connx_resolved_address) :=
  let '(_, host, port) := connx_split_host_port name in
  if bool_decide (host = []) then Some (inl (UnparseableHostPort name))
  else
    match (if bool_decide (port = []) then default_port else Some port) with
    | None => Some (inl (NoPortInName name))
    | Some port =>
        let '(s, result) := getaddrinfo_retry host port in
        if negb (s =? 0) then Some (inl (GetaddrinfoError s))
        else addrs ← mapM copy_address result; Some (inr addrs)
    end.

End Resolve.

(** ** Properties *)

Lemma digit_val d : 0 <= d < 10 -> byte_val (digit d) = 48 + d.
Proof. intros Hd. unfold digit. rewrite byte_val_of. unfold u8. apply wrap_small. lia. Qed.

Lemma digit_not_colon d : 0 <= d < 10 -> digit d <> colon.
Proof. intros Hd E. apply (f_equal byte_val) in E. rewrite digit_val in E by done. cbn in E. lia. Qed.

Lemma digits_not_colon fuel : forall n acc,
  0 <= n -> colon ∉ acc -> colon ∉ digits fuel n acc.
Proof.
  induction fuel as [| fuel IH]; intros n acc Hn Hacc; cbn; [done |].
  destruct (Z.ltb_spec n 10).
  - apply not_elem_of_cons. split; [| done]. intros E. by apply (digit_not_colon n).
  - apply IH; [apply Z.div_pos; lia |]. apply not_elem_of_cons. split; [| done].
    intros E. apply (digit_not_colon (n mod 10)); [apply Z.mod_pos_bound; lia | done].
Qed.

Lemma format_d_not_colon n : colon ∉ format_d n.
Proof.
  unfold format_d. destruct (Z.ltb_spec n 0).
  - apply not_elem_of_cons. split; [done |]. apply digits_not_colon; [lia | apply not_elem_of_nil].
  - apply digits_not_colon; [lia | apply not_elem_of_nil].
Qed.

Lemma memchr_app_skip l k c : c ∉ l -> memchr (l ++ k) c = (fun i => zlen l + i) <$> memchr k c.
Proof.
  induction l as [| b l IH]; intros Hn; cbn.
  - destruct (memchr k c); cbn; [| done]. by rewrite zlen_nil.
  - apply not_elem_of_cons in Hn as [Hb Hl]. rewrite decide_False by auto. rewrite IH by done.
    destruct (memchr k c); cbn; [| done]. f_equal. rewrite zlen_cons. lia.
Qed.

Lemma memchr_not_in l c : c ∉ l -> memchr l c = None.
Proof. by apply memchr_None. Qed.

Lemma find_0 l c : find l c 0 = memchr l c.
Proof.
  unfold find. rewrite (proj2 (Z.leb_le 0 _)) by apply zlen_nonneg. rewrite zdrop_0.
  by destruct (memchr l c).
Qed.

(** The single colon of [h:p]. *)
Lemma split_plain h p :
  colon ∉ h -> colon ∉ p -> char_at (h ++ colon :: p) 0 <> lbracket ->
  connx_split_host_port (h ++ colon :: p) = (true, h, p).
Proof.
  intros Hh Hp Hc. unfold connx_split_host_port. rewrite bool_decide_false by done.
  rewrite find_0, memchr_app_skip by done. cbn. rewrite decide_True by done. cbn. rewrite Z.add_0_r.
  unfold find, substr. rewrite (proj2 (Z.leb_le _ _)) by zlia.
  rewrite zdrop_0, ztake_app_le, ztake_all by lia.
  assert (Hd : zdrop (zlen h + 1) (h ++ colon :: p) = p).
  { unfold zdrop, zlen. rewrite drop_app_ge by lia. by replace (Z.to_nat _ - length h)%nat with 1%nat by lia. }
  rewrite Hd, memchr_not_in by done. cbn. rewrite ztake_all by zlia. done.
Qed.

(** The bracketed form [[h]:p]. *)
Lemma split_bracketed h p :
  colon ∈ h -> rbracket ∉ h ->
  connx_split_host_port (lbracket :: h ++ rbracket :: colon :: p) = (true, h, p).
Proof.
  intros Hh Hr. unfold connx_split_host_port. rewrite bool_decide_true by done.
  set (name := lbracket :: h ++ rbracket :: colon :: p).
  assert (Hlen : zlen name = zlen h + zlen p + 3) by (unfold name; zlia).
  assert (Hf : find name rbracket 1 = Some (zlen h + 1)).
  { unfold find. rewrite (proj2 (Z.leb_le 1 _)) by zlia. change (zdrop 1 name) with (h ++ rbracket :: colon :: p).
    rewrite memchr_app_skip by done. cbn. rewrite decide_True by done. cbn. f_equal. lia. }
  rewrite Hf. rewrite (proj2 (Z.eqb_neq (zlen h + 1) (zlen name - 1))) by zlia.
  assert (Hlk : char_at name (zlen h + 1 + 1) = colon).
  { unfold char_at, name, zlen. replace (Z.to_nat _) with (S (S (length h))) by lia.
    rewrite lookup_cons_ne_0 by done. cbn [pred]. rewrite lookup_app_r by lia.
    by replace (S (length h) - length h)%nat with 1%nat by lia. }
  rewrite bool_decide_true by done.
  assert (Hh' : substr name 1 (zlen h + 1 - 1) = h).
  { unfold substr. change (zdrop 1 name) with (h ++ rbracket :: colon :: p).
    rewrite Z.add_simpl_r, ztake_app_le, ztake_all by lia. done. }
  assert (Hp' : substr name (zlen h + 1 + 2) (zlen name - (zlen h + 1) - 2) = p).
  { unfold substr. replace (zdrop (zlen h + 1 + 2) name) with p; [by rewrite ztake_all by zlia |].
    unfold zdrop, name, zlen. replace (Z.to_nat _) with (S (length h + 2)) by lia. cbn.
    rewrite drop_app_ge by lia. by replace (length h + 2 - length h)%nat with 2%nat by lia. }
  rewrite Hh', Hp', find_0. destruct (memchr h colon) eqn:E; [done |]. by apply memchr_None in E.
Qed.

(** C34: Splitting undoes joining: for a host name or IPv4 address, and for an IPv6
    literal, which [connx_join_host_port] puts in brackets. *)
Theorem host_port_roundtrip (host : str) (port : Z) :
  char_at host 0 <> lbracket -> (colon ∈ host -> rbracket ∉ host) ->
  connx_split_host_port (connx_join_host_port host port) = (true, host, format_d port).
Proof.
  intros Hb Hr. unfold connx_join_host_port. rewrite bool_decide_false by done. cbn [negb andb].
  pose proof (format_d_not_colon port) as Hp. destruct (memchr host colon) as [i |] eqn:E.
  - rewrite bool_decide_true by (by eexists). cbn [app].
    assert (Hc : colon ∈ host) by (apply memchr_Some in E as (_ & E & _); by eapply list_elem_of_lookup_2).
    apply split_bracketed; auto.
  - rewrite bool_decide_false by (by intros [? ?]). apply memchr_None in E.
    apply (split_plain host (format_d port)); [done | done |]. by destruct host.
Qed.

(** A bracketed IPv6 literal is split as well. *)
Lemma host_port_bracketed host port :
  colon ∈ host -> rbracket ∉ host ->
  connx_split_host_port (connx_join_host_port ([lbracket] ++ host ++ [rbracket]) port) = (true, host, format_d port).
Proof.
  intros Hc Hr. unfold connx_join_host_port. rewrite (bool_decide_true (char_at _ 0 = lbracket)) by done. cbn [negb andb].
  rewrite <- !app_assoc. by apply (split_bracketed host (format_d port)).
Qed.

(** A refused name leaves [host] empty. *)
Lemma split_false_empty name host port : connx_split_host_port name = (false, host, port) -> host = [].
Proof. unfold connx_split_host_port. intros E. repeat case_match; by simplify_eq. Qed.

Section ResolveProperties.
Context (getaddrinfo : str -> str -> Z * list addrinfo).
(** A socket address fits [sockaddr_storage]. *)
Hypothesis getaddrinfo_fits :
  forall host port, Forall (fun ai => zlen ai <= 128) (snd (getaddrinfo host port)).

Lemma mapM_copy_address l :
  Forall (fun ai : addrinfo => zlen ai <= 128) l ->
  exists addrs, mapM copy_address l = Some addrs /\ length addrs = length l.
Proof.
  intros HF. assert (is_Some (mapM copy_address l)) as [addrs Ha].
  { apply mapM_is_Some_2. eapply list.Forall_impl; [exact HF |]. intros ai Hai. cbn in *.
    unfold copy_address. rewrite (proj2 (Z.leb_le _ _)) by done. by eexists. }
  exists addrs. split; [done |]. symmetry. by eapply length_mapM.
Qed.

Lemma getaddrinfo_retry_fits host port :
  Forall (fun ai => zlen ai <= 128) (snd (getaddrinfo_retry getaddrinfo host port)).
Proof.
  unfold getaddrinfo_retry. pose proof (getaddrinfo_fits host port) as HF.
  destruct (getaddrinfo host port) as [s result]. repeat case_match; try done; apply getaddrinfo_fits.
Qed.

(** Which of the two queries of the retry decides. *)
Lemma getaddrinfo_retry_query host p :
  exists q, getaddrinfo_retry getaddrinfo host p = getaddrinfo host q /\
    (fst (getaddrinfo host p) = 0 -> q = p) /\
    (fst (getaddrinfo host p) <> 0 ->
       (p, q) ∈ [(lit "http", lit "80"); (lit "https", lit "443")] \/ (p ∉ [lit "http"; lit "https"]) /\ q = p).
Proof.
  unfold getaddrinfo_retry. destruct (getaddrinfo host p) as [s result] eqn:E. cbn [fst].
  destruct (Z.eqb_spec s 0) as [-> | Hs]; cbn [negb]; [by exists p |].
  case_bool_decide as H80; [exists (lit "80"); subst p; split; [done |]; split; [done |]; intros _; left; by left |].
  case_bool_decide as H443.
  - exists (lit "443"). subst p. split; [done |]. split; [done |]. intros _. left. right. by left.
  - exists p. split; [done |]. split; [done |]. intros _. right. split; [| done].
    by intros [? | [? | ?%not_elem_of_nil]%elem_of_cons]%elem_of_cons.
Qed.

(** Every node is copied, with its length and its bytes. *)
Lemma mapM_copy_exact l :
  Forall (fun ai : addrinfo => zlen ai <= 128) l ->
  exists addrs, mapM copy_address l = Some addrs /\
    Forall2 (fun a ai => ra_len a = zlen ai /\ ztake (ra_len a) (ra_addr a) = ai) addrs l.
Proof.
  intros HF. destruct (mapM_copy_address l HF) as (addrs & Hm & _). exists addrs. split; [done |].
  apply mapM_Some in Hm. apply Forall2_flip. eapply list.Forall2_impl; [exact Hm |]. intros ai a Ha. unfold copy_address in Ha.
  destruct (zlen ai <=? 128); [| done]. injection Ha as <-. cbn. split; [done |]. by rewrite ztake_app_le, ztake_all by lia.
Qed.

(** C33: What the resolver returns, in every case (memory allocation aside). It ignores the
    result of [connx_split_host_port]; that is sound, since a refused name has an empty host.
    An empty host is reported as unparseable; a name without a port, when there is no default
    port, as such. Otherwise the system is asked for the host with the port of the name or the
    default port [p], and, when that fails and [p] is a well-known service, once more with its
    number. If the query that decides fails, the resolver returns its error code; if
    it succeeds, the resolver succeeds, with all addresses the system returned, in order, each
    with its length and bytes; nothing is written outside [addr]. *)
Theorem resolve_address_spec (name : str) (default_port : option str) :
  let r := connx_blocking_resolve_address getaddrinfo name default_port in
  let '(ok, host, port) := connx_split_host_port name in
  let with_port := if decide (port = []) then default_port else Some port in
  (ok = false -> host = []) /\
  (host = [] -> r = Some (inl (UnparseableHostPort name))) /\
  (host <> [] -> with_port = None -> r = Some (inl (NoPortInName name))) /\
  (forall p, host <> [] -> with_port = Some p ->
     exists q,
       (fst (getaddrinfo host p) = 0 -> q = p) /\
       (fst (getaddrinfo host p) <> 0 ->
          (p, q) ∈ [(lit "http", lit "80"); (lit "https", lit "443")] \/ (p ∉ [lit "http"; lit "https"]) /\ q = p) /\
       match getaddrinfo host q with
       | (0, result) =>
           exists addrs, r = Some (inr addrs) /\
             Forall2 (fun a ai => ra_len a = zlen ai /\ ztake (ra_len a) (ra_addr a) = ai) addrs result
       | (code, _) => r = Some (inl (GetaddrinfoError code))
       end).
Proof.
  destruct (connx_split_host_port name) as [[ok host] port] eqn:E.
  unfold connx_blocking_resolve_address. rewrite E.
  assert (Ed : (if bool_decide (port = []) then default_port else Some port) = (if decide (port = []) then default_port else Some port))
    by (case_bool_decide; by case_decide).
  rewrite Ed. set (with_port := if decide (port = []) then _ else _).
  split_and!.
  - intros ->. by apply split_false_empty in E.
  - intros ->. by rewrite bool_decide_true.
  - intros Hh ->. by rewrite bool_decide_false.
  - intros p Hh ->. rewrite bool_decide_false by done. destruct (getaddrinfo_retry_query host p) as (q & Eq & Hq1 & Hq2).
    exists q. split; [done |]. split; [done |]. rewrite Eq. pose proof (getaddrinfo_fits host q) as HF.
    destruct (getaddrinfo host q) as [s result]. cbn in HF. destruct s as [| s | s]; cbn; [| done | done].
    destruct (mapM_copy_exact result HF) as (addrs & Hm & HA). exists addrs. by rewrite Hm.
Qed.

End ResolveProperties.

(** ** Ports *)

Lemma be_bytes_length n v : zlen (be_bytes n v) = Z.of_nat n.
Proof. unfold zlen, be_bytes. rewrite length_rev, length_le_bytes. done. Qed.

(** Storing a port and reading it back, in network byte order, leaves the address
    family and the address as they were. *)
Theorem sockaddr_port_roundtrip (a a' : connx_resolved_address) (port : Z) :
  zlen (ra_addr a) = 128 -> connx_sockaddr_set_port a port = (1, a') ->
  connx_sockaddr_get_port a' = port /\ sa_family a' = sa_family a /\ ra_len a' = ra_len a /\
  zdrop 4 (ra_addr a') = zdrop 4 (ra_addr a).
Proof.
  intros Hlen Hs. unfold connx_sockaddr_set_port in Hs.
  destruct (Z.leb_spec 0 port), (Z.ltb_spec port 65536); cbn [negb andb] in Hs; try done.
  destruct ((sa_family a =? AF_INET) || (sa_family a =? AF_INET6)) eqn:Ef; [| done]. injection Hs as <-.
  unfold u16. rewrite wrap_small by lia.
  pose proof (be_bytes_length 2 port) as Hb. remember (be_bytes 2 port) as bs eqn:Ebs.
  assert (Hfam : ztake 2 (ra_addr (write_addr a 2 bs)) = ztake 2 (ra_addr a)).
  { cbn. unfold splice, ztake, zlen in *. rewrite take_app_le, take_take by (rewrite length_take; lia). done. }
  assert (Hport : ztake 2 (zdrop 2 (ra_addr (write_addr a 2 bs))) = bs).
  { cbn. unfold splice, ztake, zdrop, zlen in *. rewrite drop_app_ge by (rewrite length_take; lia).
    rewrite length_take. replace (Z.to_nat 2 - _)%nat with 0%nat by lia. rewrite drop_0.
    rewrite take_app_le, take_ge by lia. done. }
  assert (Hf' : sa_family (write_addr a 2 bs) = sa_family a) by (unfold sa_family; by rewrite Hfam).
  split; [| split; [done | split; [done |]]].
  - unfold connx_sockaddr_get_port. rewrite Hf', Ef. unfold sin_port. rewrite Hport, Ebs. apply be_value_bytes. cbn. lia.
  - cbn. unfold splice, zdrop, zlen in *. rewrite drop_app_ge by (rewrite length_take; lia).
    rewrite length_take. rewrite drop_app_ge by lia. rewrite drop_drop. f_equal. lia.
Qed.

(** ** The theorems on concrete inputs *)

Lemma host_port_roundtrip_witness :
  connx_split_host_port (connx_join_host_port [x3a; x3a; x31] 80) = (true, [x3a; x3a; x31], [x38; x30]).
Proof.
  apply (host_port_roundtrip [x3a; x3a; x31] 80).
  - vm_compute. discriminate.
  - intros _ Hin. vm_compute in Hin. repeat (apply elem_of_cons in Hin as [Hin | Hin]; [discriminate Hin |]).
    by apply not_elem_of_nil in Hin.
Defined.

(** A resolver that knows one IPv4 address, and port numbers but no service names. *)
Definition getaddrinfo_demo (host port : str) : Z * list addrinfo :=
  if bool_decide (port = lit "80") then (0, [replicate 16 x01]) else (-8, []).

(** "h:http" is resolved by the retry; "h:ftp" is not. *)
Lemma resolve_address_spec_witness :
  (exists a, connx_blocking_resolve_address getaddrinfo_demo (lit "h:http") None = Some (inr [a]) /\ ra_len a = 16) /\
  connx_blocking_resolve_address getaddrinfo_demo (lit "h:ftp") None = Some (inl (GetaddrinfoError (-8))).
Proof.
  assert (Hfit : forall host port, Forall (fun ai : addrinfo => zlen ai <= 128) (snd (getaddrinfo_demo host port))).
  { intros host port. unfold getaddrinfo_demo. case_bool_decide; repeat constructor. vm_compute. discriminate. }
  split.
  - destruct (resolve_address_spec getaddrinfo_demo Hfit (lit "h:http") None) as (_ & _ & _ & Hp).
    destruct (Hp (lit "http")) as (q & _ & Hq & Hm); [vm_compute; discriminate | vm_compute; reflexivity |].
    destruct Hq as [Hq | [Hq _]]; [vm_compute; discriminate | | by destruct Hq; left].
    apply elem_of_cons in Hq as [Hq | [Hq | Hq%not_elem_of_nil]%elem_of_cons]; [| discriminate Hq | done].
    injection Hq as ->. destruct Hm as (addrs & Hr & HA). inversion HA as [| a ai l1 l2 [Ha _] HN]. subst. inversion HN. subst.
    exists a. split; [exact Hr | exact Ha].
  - destruct (resolve_address_spec getaddrinfo_demo Hfit (lit "h:ftp") None) as (_ & _ & _ & Hp).
    destruct (Hp (lit "ftp")) as (q & _ & Hq & Hm); [vm_compute; discriminate | vm_compute; reflexivity |].
    destruct Hq as [Hq | [_ ->]]; [vm_compute; discriminate | |exact Hm].
    apply elem_of_cons in Hq as [Hq | [Hq | Hq%not_elem_of_nil]%elem_of_cons]; [discriminate Hq | discriminate Hq | done].
Defined.

Lemma sockaddr_port_roundtrip_witness :
  connx_sockaddr_get_port
    (connx_sockaddr_set_port {| ra_addr := [x02; x00] ++ replicate 126 x00; ra_len := 16 |} 8080).2 = 8080.
Proof.
  apply (sockaddr_port_roundtrip {| ra_addr := [x02; x00] ++ replicate 126 x00; ra_len := 16 |}); reflexivity.
Defined.
