(* ===== verification/Resolver.v ===== *)
(** * The memory of the resolver

    [connx_blocking_resolve_address] and [connx_resolved_addresses_destroy] of
    [src/net/resolve_address.cc] with the blocks they allocate, copy and free, and the part of
    [ClientConnection::Connect] that uses them. [Address.v] has the addresses they compute;
    here each [malloc] may fail, and a use of a block that is not there, or a write outside
    one, is [None]. *)

From S2P Require Import Prelude Codec Address.

Abbreviation loc := nat.

(** A list of [getaddrinfo], a [connx_resolved_addresses] and its array, with what was written. *)
Inductive blk :=
| BInfo (ais : list addrinfo)
| BAddresses (naddrs : Z) (addrs : option loc)
| BArray (cells : list (option connx_resolved_address)).

Abbreviation heap := (gmap loc blk).
Definition M (A : Type) : Type := heap -> option (A * heap).
#[export] Instance M_ret : MRet M := fun A a h => Some (a, h).
#[export] Instance M_bind : MBind M := fun A B k m h => '(a, h) ← m h; k a h.

Definition alloc (b : blk) : M loc := fun h => let l := fresh (dom h) in Some (l, <[l := b]> h).
Definition load (l : loc) : M blk := fun h => b ← h !! l; Some (b, h).
Definition store (l : loc) (b : blk) : M unit := fun h => _ ← h !! l; Some (tt, <[l := b]> h).
Definition free (l : loc) : M unit := fun h => _ ← h !! l; Some (tt, delete l h).
Definition free_opt (l : option loc) : M unit := match l with Some l => free l | None => mret tt end.
Definition undefined {A} : M A := fun _ => None.

(** [malloc]: NULL if it fails. *)
Definition malloc (ok : bool) (b : blk) : M (option loc) := if ok then l ← alloc b; mret (Some l) else mret None.

(** ** The code *)

Inductive error := Failed (e : resolve_error) | MallocFailed.

Section Resolver.
(** [getaddrinfo]: the return code and, when it is 0, the result. *)
Context (getaddrinfo : str -> str -> Z * list addrinfo).

(** It allocates the list it returns, and none when it fails. *)
Definition call_getaddrinfo (host port : str) : M (Z * option loc) :=
  match getaddrinfo host port with
  | (0, ais) => l ← alloc (BInfo ais); mret (0, Some l)
  | (s, _) => mret (s, None)
  end.

Definition call_retry (host port : str) : M (Z * option loc) :=
  '(s, result) ← call_getaddrinfo host port;
  if negb (s =? 0) then
    if bool_decide (port = lit "http") then call_getaddrinfo host (lit "80")
    else if bool_decide (port = lit "https") then call_getaddrinfo host (lit "443")
    else mret (s, result)
  else mret (s, result).

(** The first loop over the list. *)
Fixpoint count_loop (resp : list addrinfo) (naddrs : Z) : Z :=
  match resp with [] => naddrs | _ :: resp' => count_loop resp' (naddrs + 1) end.

(** The second: [addrs[i]] is copied, with its length. *)
Fixpoint copy_loop (resp : list addrinfo) (i : Z) (arr : loc) : M unit :=
  match resp with
  | [] => mret tt
  | ai :: resp' =>
      b ← load arr;
      match b, copy_address ai with
      | BArray cells, Some a =>
          if (0 <=? i) && (i <? zlen cells) then store arr (BArray (<[Z.to_nat i := Some a]> cells));; copy_loop resp' (i + 1) arr
          else undefined
      | _, _ => undefined
      end
  end.

(** The success path up to [done], which sets [*addresses]; [m1] and [m2]: the allocations succeed. *)
Definition fill_addresses (m1 m2 : bool) (result : option loc) : M (option error * option loc) :=
  addresses ← malloc m1 (BAddresses 0 None);
  match addresses with
  | None => mret (Some MallocFailed, None)
  | Some l =>
      ais ← match result with
            | None => mret []
            | Some r => b ← load r; match b with BInfo ais => mret ais | _ => undefined end
            end;
      let naddrs := count_loop ais 0 in
      store l (BAddresses naddrs None);;
      arr ← malloc m2 (BArray (replicate (Z.to_nat naddrs) None));
      match arr with
      | None => free l;; mret (Some MallocFailed, None)
      | Some arr =>
          store l (BAddresses naddrs (Some arr));;
          copy_loop ais 0 arr;;
          mret (None, Some l)
      end
  end.

Definition blocking_resolve (m1 m2 : bool) (name : str) (default_port : option str) : M (option error * option loc) :=
  let '(_, host, port) := connx_split_host_port name in
  if bool_decide (host = []) then mret (Some (Failed (UnparseableHostPort name)), None)
  else
    match (if bool_decide (port = []) then default_port else Some port) with
    | None => mret (Some (Failed (NoPortInName name)), None)
    | Some port =>
        '(s, result) ← call_retry host port;
        r ← (if negb (s =? 0) then mret (Some (Failed (GetaddrinfoError s)), None) else fill_addresses m1 m2 result);
        free_opt result;;
        mret r
    end.

Definition connx_resolved_addresses_destroy (addrs : option loc) : M unit :=
  match addrs with
  | None => mret tt
  | Some l =>
      b ← load l;
      match b with BAddresses _ arr => free_opt arr;; free l | _ => undefined end
  end.

(** [ClientConnection::Connect] between its checks and what it posts: the address to connect
    to, or [None] when resolving failed. *)
Definition connect_address (m1 m2 : bool) (name : str) : M (option connx_resolved_address) :=
  '(err, addrs) ← blocking_resolve m1 m2 name None;
  match err, addrs with
  | None, Some l =>
      b ← load l;
      match b with
      | BAddresses naddrs arr =>
          if naddrs =? 0 then connx_resolved_addresses_destroy (Some l);; mret None
          else
            match arr with
            | Some arr =>
                c ← load arr;
                match c with
                | BArray (Some addr :: _) => connx_resolved_addresses_destroy (Some l);; mret (Some addr)
                | _ => undefined
                end
            | None => undefined
            end
      | _ => undefined
      end
  | _, _ => connx_resolved_addresses_destroy addrs;; mret None
  end.

(** ** Proof rules *)

Definition wp {A} (m : M A) (Φ : A -> heap -> Prop) (h : heap) : Prop := match m h with Some (a, h') => Φ a h' | None => False end.

Lemma rwp_bind {A B} (m : M A) (k : A -> M B) Φ h : wp m (fun a h' => wp (k a) Φ h') h -> wp (m ≫= k) Φ h.
Proof. unfold wp, mbind, M_bind. destruct (m h) as [[a h'] |]; cbn; done. Qed.

Lemma rwp_mono {A} (m : M A) (Φ Ψ : A -> heap -> Prop) h : wp m Φ h -> (forall a h', Φ a h' -> Ψ a h') -> wp m Ψ h.
Proof. unfold wp. destruct (m h) as [[a h'] |]; auto. Qed.

Lemma rwp_alloc b (Φ : loc -> heap -> Prop) h : (forall l, h !! l = None -> Φ l (<[l := b]> h)) -> wp (alloc b) Φ h.
Proof. intros HΦ. apply HΦ. apply not_elem_of_dom, is_fresh. Qed.

Lemma rwp_load l b (Φ : blk -> heap -> Prop) h : h !! l = Some b -> Φ b h -> wp (load l) Φ h.
Proof. intros Hl HΦ. unfold wp, load. by rewrite Hl. Qed.

Lemma rwp_store l b b' (Φ : unit -> heap -> Prop) h : h !! l = Some b -> Φ tt (<[l := b']> h) -> wp (store l b') Φ h.
Proof. intros Hl HΦ. unfold wp, store. by rewrite Hl. Qed.

Lemma rwp_free l b (Φ : unit -> heap -> Prop) h : h !! l = Some b -> Φ tt (delete l h) -> wp (free l) Φ h.
Proof. intros Hl HΦ. unfold wp, free. by rewrite Hl. Qed.

Lemma count_loop_eq resp n : count_loop resp n = n + zlen resp.
Proof. revert n. induction resp as [| ai resp IH]; intros n; cbn; [rewrite zlen_nil; lia |]. rewrite IH, zlen_cons. lia. Qed.

(** The copies fill the array from [length done] on. *)
Lemma rwp_copy_loop resp : forall done addrs arr (Φ : unit -> heap -> Prop) h,
  mapM copy_address resp = Some addrs ->
  h !! arr = Some (BArray ((Some <$> done) ++ replicate (length resp) None)) ->
  Φ tt (<[arr := BArray (Some <$> (done ++ addrs))]> h) ->
  wp (copy_loop resp (zlen done) arr) Φ h.
Proof.
  induction resp as [| ai resp IH]; intros done addrs arr Φ h Hm Ha HΦ; cbn [copy_loop].
  - injection Hm as <-. cbn in Ha. rewrite app_nil_r in Ha, HΦ. pose proof (insert_id h arr _ Ha) as E. rewrite E in HΦ. exact HΦ.
  - cbn [mapM] in Hm. destruct (copy_address ai) as [a |] eqn:Ec; [| done]. cbn in Hm.
    destruct (mapM copy_address resp) as [addrs' |] eqn:Em; [| done]. injection Hm as <-.
    apply rwp_bind. eapply rwp_load; [exact Ha |]. cbn iota beta.
    assert (Hlt : (0 <=? zlen done) && (zlen done <? zlen ((Some <$> done) ++ replicate (length (ai :: resp)) None)) = true).
    { apply andb_true_iff. rewrite Z.leb_le, Z.ltb_lt. unfold zlen. rewrite length_app, length_fmap, length_replicate. cbn [length]. lia. }
    rewrite Hlt. apply rwp_bind. eapply rwp_store; [exact Ha |].
    assert (Ei : <[Z.to_nat (zlen done) := Some a]> ((Some <$> done) ++ replicate (length (ai :: resp)) None)
      = (Some <$> (done ++ [a])) ++ replicate (length resp) None).
    { unfold zlen. rewrite Nat2Z.id, insert_app_r_alt by (rewrite length_fmap; lia). rewrite length_fmap, Nat.sub_diag, fmap_app, <- app_assoc. done. }
    rewrite Ei. replace (zlen done + 1) with (zlen (done ++ [a])) by (rewrite zlen_app; unfold zlen; cbn; lia).
    eapply (IH (done ++ [a]) addrs'); [done | by rewrite lookup_insert_eq |]. rewrite insert_insert_eq, <- app_assoc. exact HΦ.
Qed.

(** ** What is left *)

(** The answer of [Address.v] when nothing runs out of memory. *)
Definition first_address (name : str) : option connx_resolved_address :=
  match connx_blocking_resolve_address getaddrinfo name None with Some (inr (a :: _)) => Some a | _ => None end.

Hypothesis getaddrinfo_fits : forall host port, Forall (fun ai => zlen ai <= 128) (snd (getaddrinfo host port)).

Lemma rwp_getaddrinfo host port (Φ : Z * option loc -> heap -> Prop) h :
  (forall s ais, getaddrinfo host port = (s, ais) -> s <> 0 -> Φ (s, None) h) ->
  (forall ais l, getaddrinfo host port = (0, ais) -> h !! l = None -> Φ (0, Some l) (<[l := BInfo ais]> h)) ->
  wp (call_getaddrinfo host port) Φ h.
Proof.
  intros Hbad Hok. unfold call_getaddrinfo. destruct (getaddrinfo host port) as [s ais] eqn:E.
  destruct s as [| s | s]; [| by eapply (Hbad _ _ eq_refl) | by eapply (Hbad _ _ eq_refl)].
  apply rwp_bind. apply rwp_alloc. intros l Hl. by apply (Hok ais l).
Qed.

Lemma rwp_retry host port (Φ : Z * option loc -> heap -> Prop) h :
  (forall s ais, getaddrinfo_retry getaddrinfo host port = (s, ais) -> s <> 0 -> Φ (s, None) h) ->
  (forall ais l, getaddrinfo_retry getaddrinfo host port = (0, ais) -> h !! l = None -> Φ (0, Some l) (<[l := BInfo ais]> h)) ->
  wp (call_retry host port) Φ h.
Proof.
  unfold getaddrinfo_retry. intros Hbad Hok. apply rwp_bind. apply rwp_getaddrinfo.
  - intros s ais E Hs. rewrite E in Hbad, Hok. apply Z.eqb_neq in Hs as Hs'. cbn iota beta. rewrite Hs' in Hbad, Hok |- *. cbn [negb] in *.
    case_bool_decide; [by apply rwp_getaddrinfo |]. case_bool_decide; [by apply rwp_getaddrinfo |]. by apply (Hbad s ais).
  - intros ais l E Hl. rewrite E in Hok. by apply (Hok ais l).
Qed.

(** The two blocks of a filled result. *)
Definition filled (h : heap) (l arr : loc) (addrs : list connx_resolved_address) : heap :=
  <[arr := BArray (Some <$> addrs)]> (<[l := BAddresses (zlen addrs) (Some arr)]> h).

Lemma rwp_fill m1 m2 r ais addrs (Φ : option error * option loc -> heap -> Prop) h :
  h !! r = Some (BInfo ais) -> mapM copy_address ais = Some addrs ->
  (m1 && m2 = false -> Φ (Some MallocFailed, None) h) ->
  (forall l arr, m1 && m2 = true -> h !! l = None -> h !! arr = None -> l <> arr -> Φ (None, Some l) (filled h l arr addrs)) ->
  wp (fill_addresses m1 m2 (Some r)) Φ h.
Proof.
  intros Hr Hm Hbad Hok. unfold fill_addresses, malloc. apply rwp_bind. destruct m1; [| by apply Hbad].
  apply rwp_bind. apply rwp_alloc. intros l Hl. assert (Hrl : r <> l) by (intros ->; by rewrite Hr in Hl).
  unfold wp at 1. cbn [mret M_ret]. apply rwp_bind, rwp_bind. eapply rwp_load; [rewrite lookup_insert_ne by congruence; exact Hr |].
  unfold wp at 1. cbn [mret M_ret]. cbv zeta. rewrite count_loop_eq, Z.add_0_l.
  assert (El : length ais = length addrs) by (by apply (length_mapM copy_address ais addrs)).
  assert (Ez : zlen ais = zlen addrs) by (unfold zlen; lia).
  apply rwp_bind. eapply rwp_store; [apply lookup_insert_eq |]. rewrite insert_insert_eq. apply rwp_bind. destruct m2.
  - apply rwp_bind. apply rwp_alloc. intros arr Ha. apply lookup_insert_None in Ha as [Ha Hla].
    unfold wp at 1. cbn [mret M_ret]. apply rwp_bind.
    eapply rwp_store; [by rewrite lookup_insert_ne, lookup_insert_eq |]. apply rwp_bind.
    eapply (rwp_copy_loop ais [] addrs); [done | |].
    + rewrite lookup_insert_ne, lookup_insert_eq by done. unfold zlen. by rewrite Nat2Z.id.
    + unfold wp. cbn [mret M_ret app]. rewrite (insert_insert_ne _ l arr) by done. rewrite !insert_insert_eq.
      rewrite Ez. by apply Hok.
  - unfold wp at 1. cbn [mret M_ret]. apply rwp_bind. eapply rwp_free; [apply lookup_insert_eq |].
    unfold wp. cbn [mret M_ret]. rewrite delete_insert_id by done. by apply Hbad.
Qed.

Lemma rwp_destroy l arr addrs (Φ : unit -> heap -> Prop) h :
  h !! l = None -> h !! arr = None -> l <> arr -> Φ tt h -> wp (connx_resolved_addresses_destroy (Some l)) Φ (filled h l arr addrs).
Proof.
  intros Hl Ha Hne HΦ. unfold connx_resolved_addresses_destroy, filled. apply rwp_bind.
  eapply rwp_load; [by rewrite lookup_insert_ne, lookup_insert_eq |]. apply rwp_bind. eapply rwp_free; [apply lookup_insert_eq |].
  rewrite delete_insert_id by (by rewrite lookup_insert_ne). eapply rwp_free; [apply lookup_insert_eq |]. by rewrite delete_insert_id.
Qed.

Lemma retry_copies host port s ais :
  getaddrinfo_retry getaddrinfo host port = (s, ais) -> exists addrs, mapM copy_address ais = Some addrs.
Proof.
  intros E. pose proof (getaddrinfo_retry_fits getaddrinfo getaddrinfo_fits host port) as HF. rewrite E in HF. cbn in HF.
  destruct (mapM_copy_address ais HF) as (addrs & Hm & _). by exists addrs.
Qed.

Lemma rwp_resolve m1 m2 name default_port (Φ : option error * option loc -> heap -> Prop) h :
  (forall e, connx_blocking_resolve_address getaddrinfo name default_port = Some (inl e) -> Φ (Some (Failed e), None) h) ->
  (forall addrs, connx_blocking_resolve_address getaddrinfo name default_port = Some (inr addrs) -> m1 && m2 = false ->
     Φ (Some MallocFailed, None) h) ->
  (forall addrs l arr, connx_blocking_resolve_address getaddrinfo name default_port = Some (inr addrs) -> m1 && m2 = true ->
     h !! l = None -> h !! arr = None -> l <> arr -> Φ (None, Some l) (filled h l arr addrs)) ->
  wp (blocking_resolve m1 m2 name default_port) Φ h.
Proof.
  unfold blocking_resolve, connx_blocking_resolve_address. destruct (connx_split_host_port name) as [[ok host] port].
  intros Hbad Hmem Hok. destruct (bool_decide (host = [])); [by apply Hbad |].
  destruct (if bool_decide (port = []) then default_port else Some port) as [prt |]; [| by apply Hbad].
  apply rwp_bind. apply rwp_retry.
  - intros s ais E Hs. rewrite E in Hbad. apply Z.eqb_neq in Hs. rewrite Hs in *. by apply Hbad.
  - intros ais r E Hr. rewrite E in Hmem, Hok. destruct (retry_copies _ _ _ _ E) as [addrs Hm]. rewrite Hm in Hmem, Hok. cbn in Hmem, Hok.
    apply rwp_bind. cbn [Z.eqb negb]. eapply (rwp_fill m1 m2 r ais addrs); [apply lookup_insert_eq | done | |].
    + intros Em. apply rwp_bind. eapply rwp_free; [apply lookup_insert_eq |]. rewrite delete_insert_id by done. by eapply Hmem.
    + intros l arr Em Hl Ha Hne. apply lookup_insert_None in Hl as [Hl Hlr]. apply lookup_insert_None in Ha as [Ha Har].
      apply rwp_bind. unfold filled. eapply rwp_free; [by rewrite !lookup_insert_ne, lookup_insert_eq by done |].
      rewrite !delete_insert_ne by done. rewrite delete_insert_id by done. by apply Hok.
Qed.

(** The resolver keeps its memory in order, whichever of its allocations fail: [Connect] gets
    the first address that [Address.v] computes, or none when resolving or an allocation
    failed; the list of [getaddrinfo], the result and its array are each freed exactly once, nothing is read or written
    outside them, and the heap is as it was before. *)
Theorem resolver_clean (m1 m2 : bool) (name : str) (h : heap) :
  connect_address m1 m2 name h = Some (if m1 && m2 then first_address name else None, h).
Proof.
  enough (HW : wp (connect_address m1 m2 name) (fun r h' => r = (if m1 && m2 then first_address name else None) /\ h' = h) h).
  { unfold wp in HW. destruct (connect_address m1 m2 name h) as [[r h'] |]; [| done]. by destruct HW as [-> ->]. }
  unfold first_address. apply rwp_bind. apply rwp_resolve.
  - intros e ->. by destruct (m1 && m2).
  - intros addrs -> ->. done.
  - intros addrs l arr -> -> Hl Ha Hne. cbn iota beta. apply rwp_bind.
    eapply rwp_load; [unfold filled; by rewrite lookup_insert_ne, lookup_insert_eq |]. destruct addrs as [| a addrs].
    + apply rwp_bind. by apply rwp_destroy.
    + assert (Hz : (zlen (a :: addrs) =? 0) = false) by (apply Z.eqb_neq; rewrite zlen_cons; pose proof (zlen_nonneg addrs); lia). rewrite Hz.
      apply rwp_bind. eapply rwp_load; [unfold filled; apply lookup_insert_eq |]. cbn. apply rwp_bind. by apply rwp_destroy.
Qed.

End Resolver.

Lemma resolver_clean_witness :
  connect_address getaddrinfo_demo true true [x68; x3a; x38; x30] ∅ =
    Some (Some {| ra_addr := replicate 16 x01 ++ replicate 112 x00; ra_len := 16 |}, ∅) /\
  connect_address getaddrinfo_demo true false [x68; x3a; x38; x30] ∅ = Some (None, ∅).
Proof.
  assert (Hfit : forall host port, Forall (fun ai : addrinfo => zlen ai <= 128) (snd (getaddrinfo_demo host port))).
  { intros host port. unfold getaddrinfo_demo. case_bool_decide; repeat constructor. vm_compute. discriminate. }
  split.
  - rewrite (resolver_clean getaddrinfo_demo Hfit true true). vm_compute. reflexivity.
  - exact (resolver_clean getaddrinfo_demo Hfit true false [x68; x3a; x38; x30] ∅).
Defined.
