(* ===== verification/Text.v ===== *)
(** * Formatted text and error objects

    [src/utils/string.cc] and [src/utils/status.{h,cc}]: formatting into a buffer of the right
    size, on POSIX and on Windows, and the [Status] objects that carry errors.

    What a [printf] format makes of its arguments is an argument here: [None] when the C
    library reports an error, and a text without NUL otherwise. [vsnprintf] itself is modelled:
    it writes at most [size] bytes, the last of them NUL, and returns the length of the whole
    text. *)

From S2P Require Import Prelude Codec Address.

Section Text.
Context `{SizeT}.

Definition INT_MAX : Z := 2 ^ 31 - 1.

(** ** The C library *)

(** [vsnprintf(buf, size, ...)] with [size > 0]: the result and the bytes it writes. *)
Definition vsnprintf (text : option str) (size : Z) : Z * list byte :=
  match text with
  | Some t => if INT_MAX <? zlen t then (-1, []) else (zlen t, ztake (size - 1) t ++ [x00])
  | None => (-1, [])
  end.

(** [_vscprintf]: the length only. *)
Definition vscprintf (text : option str) : Z := (vsnprintf text 1).1.

(** [vsnprintf_s(buf, size, _TRUNCATE, ...)]: -1 when the text does not fit. *)
Definition vsnprintf_s (text : option str) (size : Z) : Z * list byte :=
  let '(ret, written) := vsnprintf text size in (if size - 1 <? ret then -1 else ret, written).

(** [memcpy] of [n] bytes; [None] when they are not all there. *)
Definition memcpy (src : list byte) (n : Z) : option (list byte) := if n <=? zlen src then Some (ztake n src) else None.

(** ** src/utils/string.cc *)

(** [connx_strdup(src, size)] of the memory [src]; [None]: it aborts, or reads past [src]. *)
Definition connx_strdup_n (src : list byte) (size : Z) : option (list byte) :=
  if size =? SIZE_MAX then None
  else dst ← memcpy src size; Some (dst ++ [x00]).

(** [connx_strdup(src)] of the string [s], which is followed by its NUL. *)
Definition connx_strdup (s : str) : option (list byte) := connx_strdup_n (s ++ [x00]) (zlen s).

(** The result and what [*strp] points to, if anything; [None]: it reads bytes that were not
    written. [malloc]: the allocation succeeds. *)
Definition connx_format (text : option str) (malloc : bool) : option (Z * option (list byte)) :=
  let '(ret, buf) := vsnprintf text 128 in
  if ret <? 0 then Some (-1, None)
  else
    let strp_buflen := usize (ret + 1) in
    if negb malloc then Some (-1, None)
    else if strp_buflen <=? 128 then strp ← memcpy buf strp_buflen; Some (ret, Some strp)
    else
      let '(ret, strp) := vsnprintf text strp_buflen in
      if usize ret =? usize (strp_buflen - 1) then Some (ret, Some strp) else Some (-1, None).

(** The same on Windows. *)
Definition connx_format_win32 (text : option str) (malloc : bool) : option (Z * option (list byte)) :=
  let ret := vscprintf text in
  if ret <? 0 then Some (-1, None)
  else
    let strp_buflen := usize (ret + 1) in
    if negb malloc then Some (-1, None)
    else
      let '(ret, strp) := vsnprintf_s text strp_buflen in
      if usize ret =? usize (strp_buflen - 1) then Some (ret, Some strp) else Some (-1, None).

(** [std::string(message, n)] from the result of [connx_format], as its callers have it;
    [None] if there is no message. *)
Definition format_string (text : option str) (malloc : bool) : option str :=
  match connx_format text malloc with
  | Some (n, Some message) => Some (if 0 <? n then ztake n message else [])
  | _ => None
  end.

(** [FormatErrorMessage]; [desc] is what [strerror_r] leaves in the buffer. *)
Definition FormatErrorMessage (err : Z) (desc : str) (malloc : bool) : str :=
  default [] (format_string (Some (lit "code: " ++ format_d err ++ lit " (" ++ desc ++ lit ")")) malloc).

(** [win32_error_message]; [found] is the text of [FormatMessageA], [None] if it has none. The loop
    drops the line end of the text. *)
Definition is_newline (b : byte) : bool := bool_decide (b = x0d) || bool_decide (b = x0a).

Fixpoint trim_newlines (error_text : list byte) (bytes : nat) : nat :=
  match bytes with
  | O => O
  | S n => match error_text !! n with
           | Some b => if is_newline b then trim_newlines error_text n else bytes
           | None => bytes
           end
  end.

Definition win32_error_message (found : option str) : option (list byte) :=
  match found with
  | None | Some [] => connx_strdup (lit "Unable to retrieve error string")
  | Some error_text => connx_strdup_n (error_text ++ [x00]) (Z.of_nat (trim_newlines error_text (length error_text)))
  end.

(** What a C string in a buffer is. *)
Fixpoint c_str (buf : list byte) : str :=
  match buf with
  | [] => []
  | b :: buf' => if bool_decide (b = x00) then [] else b :: c_str buf'
  end.

(** The buffer that the text of an error is read from: [strerror_r] is what the function of the
    C library leaves in a buffer. *)
Definition error_buffer : list byte := replicate 512 x00.
Definition posix_error_message (strerror_r : Z -> list byte -> list byte) (err : Z) : option (list byte) :=
  connx_strdup (c_str (strerror_r err error_buffer)).
Definition FormatErrorMessage_posix (strerror_r : Z -> list byte -> list byte) (err : Z) (malloc : bool) : str :=
  FormatErrorMessage err (c_str (strerror_r err error_buffer)) malloc.

(** ** Status *)

Record Status := { err_code_ : Z; desc_ : str }.

Definition Status_default : Status := {| err_code_ := 0; desc_ := [] |}.
Definition Status_msg (msg : str) : Status := {| err_code_ := -1; desc_ := msg |}.
Definition Status_new (err_code : Z) (err_msg : str) : Status := {| err_code_ := err_code; desc_ := err_msg |}.

(** Copying; moving, which leaves the other object without an error. A moved-from
    [std::string] is taken to be empty. *)
Definition Status_copy (oth : Status) : Status := {| err_code_ := err_code_ oth; desc_ := desc_ oth |}.
Definition Status_assign (self oth : Status) (same : bool) : Status := if same then self else Status_copy oth.
Definition Status_move (other : Status) : Status * Status :=
  ({| err_code_ := err_code_ other; desc_ := desc_ other |}, {| err_code_ := 0; desc_ := [] |}).
Definition Status_move_assign (self other : Status) (same : bool) : Status * Status :=
  if same then (self, self) else Status_move other.

Definition Status_ErrorCode (s : Status) : Z := err_code_ s.

Definition Status_ToString (s : Status) (malloc : bool) : str :=
  if err_code_ s =? 0 then lit "No error"
  else
    let text := if bool_decide (desc_ s = []) then lit "code <" ++ format_d (err_code_ s) ++ lit ">."
                else lit "code <" ++ format_d (err_code_ s) ++ lit ">, " ++ desc_ s ++ lit "." in
    default [] (format_string (Some text) malloc).

(** [MakeStatusFromPosixError]; [None] is a null pointer. *)
Definition MakeStatusFromPosixError (err : Z) (api desc : str) (malloc : bool) : option Status :=
  str ← format_string (Some (lit "'" ++ api ++ lit "'-[" ++ desc ++ lit "]")) malloc;
  Some (Status_new err str).

(** The same on Windows, with the text of [win32_error_message], and [connx_getaddrinfo_error], with that
    of [gai_strerror]. *)
Definition MakeStatusFromWin32Error (err : Z) (api desc : str) (malloc : bool) : option Status :=
  str ← format_string (Some (lit "'" ++ api ++ lit "'-[" ++ desc ++ lit "]")) malloc;
  Some (Status_new err str).
Definition connx_getaddrinfo_error (err : Z) (desc : str) (malloc : bool) : option Status :=
  str ← format_string (Some (lit "'getaddrinfo'-[" ++ desc ++ lit "]")) malloc;
  Some (Status_new err str).

Definition MakeStatusFromFormat (text : option str) (malloc : bool) : option Status :=
  str ← format_string text malloc; Some (Status_msg str).

(** ** Properties *)

Lemma usize_int z : 0 <= z <= INT_MAX + 1 -> usize z = z.
Proof. intros Hz. unfold INT_MAX in Hz. apply usize_small. unfold SIZE_MAX. destruct size_bits_ok as [-> | ->]; lia. Qed.

Lemma memcpy_all l n : n = zlen l -> memcpy l n = Some l.
Proof. intros ->. unfold memcpy. rewrite Z.leb_refl. by rewrite ztake_all. Qed.

(** What [connx_format] is meant to do. *)
Definition format_spec (text : option str) (malloc : bool) : Z * option (list byte) :=
  match text with
  | Some t => if malloc && (zlen t <=? INT_MAX) then (zlen t, Some (t ++ [x00])) else (-1, None)
  | None => (-1, None)
  end.

Lemma connx_format_ok (text : option str) (malloc : bool) :
  connx_format text malloc = Some (format_spec text malloc) /\ connx_format_win32 text malloc = connx_format text malloc.
Proof.
  unfold connx_format_win32, vscprintf, connx_format, format_spec, vsnprintf_s, vsnprintf. destruct text as [t |]; [| done].
  pose proof (zlen_nonneg t) as H0. destruct (Z.ltb_spec INT_MAX (zlen t)) as [Hlt | Hle]; cbn [fst].
  { rewrite (proj2 (Z.leb_gt (zlen t) INT_MAX)) by lia. by rewrite andb_false_r. }
  rewrite (proj2 (Z.leb_le (zlen t) INT_MAX)), andb_true_r by lia. rewrite (proj2 (Z.ltb_ge (zlen t) 0)) by lia.
  destruct malloc; [| done]. cbn [negb]. rewrite (usize_int (zlen t + 1)) by lia.
  replace (zlen t + 1 - 1) with (zlen t) by lia. rewrite (ztake_all (zlen t) t) by lia. rewrite Z.ltb_irrefl, Z.eqb_refl.
  destruct (Z.leb_spec (zlen t + 1) 128); [| done].
  rewrite ztake_all by lia. rewrite memcpy_all; [done |]. zlia.
Qed.

Lemma format_string_exact t : zlen t <= INT_MAX -> format_string (Some t) true = Some t.
Proof.
  intros Ht. unfold format_string. rewrite (proj1 (connx_format_ok (Some t) true)). cbn. rewrite (proj2 (Z.leb_le _ _)) by done.
  pose proof (zlen_nonneg t). destruct (Z.ltb_spec 0 (zlen t)).
  - unfold ztake. f_equal. rewrite take_app_le by (unfold zlen in *; lia). rewrite firstn_all2; [done | unfold zlen; lia].
  - destruct t; [done |]. zlia.
Qed.

(** C38: [connx_format] is exact for texts of every length, around the 128 bytes of its buffer as
    well as far beyond: it returns the length and a copy of the whole text with its NUL, never
    reads a byte that was not written, and returns -1 and no text when formatting or the
    allocation fails. The Windows version does the same, and a [std::string] made from the
    result is the text. *)
Theorem connx_format_exact (text : option str) (malloc : bool) :
  connx_format text malloc = Some (format_spec text malloc) /\ connx_format_win32 text malloc = connx_format text malloc /\
  (forall t, text = Some t -> malloc = true -> zlen t <= INT_MAX -> format_string text malloc = Some t).
Proof.
  destruct (connx_format_ok text malloc) as [H1 H2]. split_and!; [done | done |]. intros t -> -> Ht. by apply format_string_exact.
Qed.

Lemma trim_newlines_spec t : forall n, (n <= length t)%nat ->
  let k := trim_newlines t n in
  (k <= n)%nat /\ Forall (fun b => is_newline b = true) (drop k (take n t)) /\
  (forall b, list.last (take k t) = Some b -> is_newline b = false).
Proof.
  induction n as [| n IH]; intros Hn; cbn [trim_newlines]; [split_and!; [done | constructor | by rewrite take_0] |].
  destruct (t !! n) as [b |] eqn:Eb; [| apply lookup_ge_None in Eb; lia].
  rewrite (take_S_r _ _ _ Eb). destruct (is_newline b) eqn:En.
  - destruct (IH ltac:(lia)) as (H1 & H2 & H3). split_and!; [lia | | done].
    rewrite drop_app_le by (rewrite length_take; lia). apply list.Forall_app. split; [done | by constructor].
  - split_and!; [done | | ].
    + rewrite drop_ge; [constructor | rewrite length_app, length_take; cbn; lia].
    + rewrite (take_S_r _ _ _ Eb), last_snoc. by intros b' [= <-].
Qed.

(** The text of a Windows error is the system's text without its line end, and nothing else is
    lost. *)
Theorem win32_error_message_exact (t : str) :
  t <> [] -> zlen t < SIZE_MAX ->
  exists message newlines, t = message ++ newlines /\ win32_error_message (Some t) = Some (message ++ [x00]) /\
    Forall (fun b => is_newline b = true) newlines /\ (forall b, list.last message = Some b -> is_newline b = false).
Proof.
  intros Hne Hlen. destruct (trim_newlines_spec t (length t) ltac:(done)) as (H1 & H2 & H3). set (k := trim_newlines t (length t)) in *.
  exists (take k t), (drop k t). rewrite firstn_all in H2. split_and!; [by rewrite take_drop | | done | done].
  destruct t as [| b t]; [done |]. unfold win32_error_message. fold k. clearbody k. unfold connx_strdup_n, memcpy.
  unfold zlen in Hlen. rewrite (proj2 (Z.eqb_neq _ _)) by lia. rewrite (proj2 (Z.leb_le _ _)) by (unfold zlen; rewrite length_app; lia).
  cbn [mbind option_bind]. do 2 f_equal. unfold ztake. rewrite Nat2Z.id. by apply take_app_le.
Qed.

Lemma c_str_zeros t n : x00 ∉ t -> c_str (t ++ replicate n x00) = t.
Proof.
  induction t as [| b t IH]; intros Hn; [by destruct n |]. apply not_elem_of_cons in Hn as [Hb Hn]. cbn.
  rewrite bool_decide_false by (by intros ->). by rewrite IH.
Qed.

(** The text of an error depends on which [strerror_r] the program is linked with. The
    one of POSIX writes the text into the buffer, and [FormatErrorMessage] shows it. The one of
    GNU returns the text of a known error and leaves the buffer alone; its result is
    ignored, and [FormatErrorMessage] shows an empty text. *)
Theorem error_text_lost (strerror_r : Z -> list byte -> list byte) (err : Z) (t : str) :
  x00 ∉ t -> zlen (format_d err) + zlen t <= INT_MAX - 9 ->
  (strerror_r err error_buffer = t ++ replicate (512 - length t) x00 ->
   FormatErrorMessage_posix strerror_r err true = lit "code: " ++ format_d err ++ lit " (" ++ t ++ lit ")") /\
  (strerror_r err error_buffer = error_buffer ->
   FormatErrorMessage_posix strerror_r err true = lit "code: " ++ format_d err ++ lit " ()").
Proof.
  intros Hnul Hlen. unfold FormatErrorMessage_posix, FormatErrorMessage. pose proof (zlen_nonneg t).
  split; intros ->.
  - rewrite c_str_zeros by done. rewrite format_string_exact; [done |]. rewrite !zlen_app.
    change (zlen (lit "code: ")) with 6. change (zlen (lit " (")) with 2. change (zlen (lit ")")) with 1. lia.
  - change (c_str error_buffer) with (@nil byte). rewrite format_string_exact; [done |]. rewrite !zlen_app.
    change (zlen (lit "code: ")) with 6. change (zlen (lit " (")) with 2. change (zlen (lit ")")) with 1. rewrite zlen_nil. lia.
Qed.

(** Errors of the system keep their code, name the call and show the system's text; the error object
    is missing, and the caller sees success, when the text cannot be allocated. *)
Theorem system_errors_exact (err : Z) (api desc : str) :
  zlen api + zlen desc <= INT_MAX - 20 ->
  let text := lit "'" ++ api ++ lit "'-[" ++ desc ++ lit "]" in
  MakeStatusFromPosixError err api desc true = Some {| err_code_ := err; desc_ := text |} /\
  MakeStatusFromWin32Error err api desc true = Some {| err_code_ := err; desc_ := text |} /\
  connx_getaddrinfo_error err desc true = Some {| err_code_ := err; desc_ := lit "'getaddrinfo'-[" ++ desc ++ lit "]" |} /\
  MakeStatusFromPosixError err api desc false = None /\ MakeStatusFromWin32Error err api desc false = None /\
  connx_getaddrinfo_error err desc false = None.
Proof.
  intros Hlen. cbn zeta. pose proof (zlen_nonneg api).
  assert (H1 : zlen (lit "'" ++ api ++ lit "'-[" ++ desc ++ lit "]") <= INT_MAX).
  { rewrite !zlen_app. change (zlen (lit "'")) with 1. change (zlen (lit "'-[")) with 3. change (zlen (lit "]")) with 1. lia. }
  assert (H2 : zlen (lit "'getaddrinfo'-[" ++ desc ++ lit "]") <= INT_MAX).
  { rewrite !zlen_app. change (zlen (lit "'getaddrinfo'-[")) with 15. change (zlen (lit "]")) with 1. lia. }
  assert (Hno : forall t, format_string (Some t) false = None).
  { intros t. unfold format_string. by rewrite (proj1 (connx_format_ok (Some t) false)). }
  unfold MakeStatusFromPosixError, MakeStatusFromWin32Error, connx_getaddrinfo_error. rewrite !Hno, !format_string_exact by done. done.
Qed.

(** A duplicate is the string with its NUL. *)
Lemma connx_strdup_exact (t : str) : zlen t < SIZE_MAX -> connx_strdup t = Some (t ++ [x00]).
Proof.
  intros Ht. unfold connx_strdup, connx_strdup_n. rewrite (proj2 (Z.eqb_neq _ _)) by lia. unfold memcpy. rewrite zlen_app.
  rewrite (proj2 (Z.leb_le _ _)) by (rewrite zlen_cons, zlen_nil; lia). cbn. unfold ztake, zlen. by rewrite Nat2Z.id, take_app_length.
Qed.

End Text.

(** The texts of error 2: of the function of POSIX, and of that of GNU. *)
Lemma error_text_lost_witness :
  FormatErrorMessage_posix (fun _ _ => lit "ENOENT" ++ replicate 506 x00) 2 true = lit "code: 2 (ENOENT)" /\
  FormatErrorMessage_posix (fun _ buf => buf) 2 true = lit "code: 2 ()".
Proof.
  split.
  - apply (error_text_lost (fun _ _ => lit "ENOENT" ++ replicate 506 x00) 2 (lit "ENOENT")); [by apply (bool_decide_unpack _) | done | done].
  - apply (error_text_lost (fun _ buf => buf) 2 []); [apply not_elem_of_nil | done | done].
Defined.

Lemma win32_error_message_exact_witness :
  exists message newlines, lit "No." ++ [x0d; x0a] = message ++ newlines /\
    win32_error_message (Some (lit "No." ++ [x0d; x0a])) = Some (message ++ [x00]).
Proof.
  destruct (win32_error_message_exact (lit "No." ++ [x0d; x0a])) as (m & n & H1 & H2 & _); [done | by vm_compute |]. by exists m, n.
Defined.

Lemma system_errors_exact_witness :
  MakeStatusFromPosixError 2 (lit "open") (lit "ENOENT") true = Some {| err_code_ := 2; desc_ := lit "'open'-[ENOENT]" |}.
Proof. apply (system_errors_exact 2 (lit "open") (lit "ENOENT")). done. Defined.
