(* ===== verification/Log.v ===== *)
(** * Logging

    [src/bridge/log.cc]: the level filter, the formatting of a message, and the callback with
    its user data, which one thread can replace while others log. *)

From S2P Require Import Prelude Codec Address Text.

Definition CONNX_LOG_LEVEL_TRACE : Z := 0.
Definition CONNX_LOG_LEVEL_DEBUG : Z := 1.
Definition CONNX_LOG_LEVEL_ERROR : Z := 4.

(** A callback, by its name; [connx_log_default] writes to stderr. *)
Inductive log_fn := connx_log_default | UserFn (f : nat).

Record log_state := { g_seq : Z; g_log_function : option log_fn; g_user_data : Z; g_min_level : Z }.

Definition log_init : log_state :=
  {| g_seq := 0; g_log_function := Some connx_log_default; g_user_data := 0; g_min_level := CONNX_LOG_LEVEL_DEBUG |}.

Definition connx_log_set_min_level (level : Z) (g : log_state) : log_state :=
  let level := if level <? CONNX_LOG_LEVEL_TRACE then CONNX_LOG_LEVEL_TRACE
               else if CONNX_LOG_LEVEL_ERROR <? level then CONNX_LOG_LEVEL_ERROR else level in
  {| g_seq := g_seq g; g_log_function := g_log_function g; g_user_data := g_user_data g; g_min_level := level |}.

Definition connx_log_get_min_level (g : log_state) : Z := g_min_level g.

Definition connx_log_set_callback (callback : option log_fn) (user_data : Z) (g : log_state) : log_state :=
  {| g_seq := g_seq g + 2; g_log_function := callback; g_user_data := user_data; g_min_level := g_min_level g |}.

Section Log.
Context `{SizeT}.

(** The message a call of [connx_log] makes, [None] if it returns before; [text] is what the
    format makes of its arguments. *)
Definition log_message (level : Z) (text : option str) (malloc : bool) (g : log_state) : option (list byte) :=
  if (level <? CONNX_LOG_LEVEL_TRACE) || (CONNX_LOG_LEVEL_ERROR <? level) then None
  else if level <? g_min_level g then None
  else
    let '(ret, buf) := vsnprintf text 128 in
    if ret <? 0 then None
    else
      let buff_len := usize (ret + 1) in
      if negb malloc then None
      else if buff_len <=? 128 then memcpy buf buff_len
      else Some (vsnprintf text buff_len).2.

(** [connx_log] without anyone replacing the callback: the call it makes. *)
Definition connx_log (level : Z) (text : option str) (malloc : bool) (g : log_state) : option (log_fn * list byte * Z) :=
  message ← log_message level text malloc g;
  fn ← g_log_function g;
  Some (fn, message, g_user_data g).

(** [CONNX_LOG_TRACE] and so on: the macro asks for the level first. *)
Definition CONNX_LOG (level : Z) (text : option str) (malloc : bool) (g : log_state) : option (log_fn * list byte * Z) :=
  if connx_log_get_min_level g <=? level then connx_log level text malloc g else None.

(** ** The default callback *)

Definition g_desc : list str := lit <$> ["Trace"; "Debug"; "Info"; "Warn"; "Error"]%string.

(** [g_desc[level]]; [None]: it reads outside the array. *)
Definition desc_of (level : Z) : option str := if level <? 0 then None else g_desc !! Z.to_nat level.

(** The time in [time_buffer]: [localtime] and [strftime] can fail. *)
Definition time_text (localtime : bool) (strftime : option str) : str :=
  if negb localtime then lit "error:localtime"
  else match strftime with Some t => t | None => lit "error:strftime" end.

(** [%03d] of a number below 1000 and [%lu]. *)
Definition format_03d (n : Z) : str := let d := format_d n in replicate (3 - length d) x30 ++ d.
Definition format_lu (n : Z) : str := digits 20 n [].

(** [connx_log_default]: the line it writes; [None]: it reads outside [g_desc], or the line could
    not be allocated. *)
Definition connx_log_default_line (level line threadid : Z) (message : str) (time : str) (tv_nsec : Z) (malloc : bool)
    : option str :=
  desc ← desc_of level;
  let millis := Z.quot tv_nsec 1000000 in
  text ← format_string (Some (time ++ lit "." ++ format_03d millis ++ lit " " ++ format_lu threadid ++ lit " " ++
                              format_d line ++ lit " " ++ desc ++ lit " " ++ message)) malloc;
  Some (text ++ [x0a]).

Lemma log_message_exact level t g :
  zlen t <= INT_MAX ->
  log_message level (Some t) true g =
    if (CONNX_LOG_LEVEL_TRACE <=? level) && (level <=? CONNX_LOG_LEVEL_ERROR) && (g_min_level g <=? level)
    then Some (t ++ [x00]) else None.
Proof.
  intros Ht. unfold log_message. rewrite !Z.leb_antisym. destruct (level <? _); [done |]. destruct (_ <? level); [done |].
  destruct (level <? g_min_level g); [done |]. cbn [negb andb orb]. unfold vsnprintf. pose proof (zlen_nonneg t) as H0.
  rewrite (proj2 (Z.ltb_ge INT_MAX (zlen t))) by done. rewrite (proj2 (Z.ltb_ge (zlen t) 0)) by done. rewrite (usize_int (zlen t + 1)) by lia.
  cbn [snd]. replace (zlen t + 1 - 1) with (zlen t) by lia. rewrite (ztake_all (zlen t) t) by lia.
  destruct (Z.leb_spec (zlen t + 1) 128); [| done]. rewrite ztake_all by lia. apply memcpy_all. zlia.
Qed.

(** Programs that configure the log. *)
Inductive log_op := LSetLevel (level : Z) | LSetCallback (callback : option log_fn) (user_data : Z).
Definition log_step (g : log_state) (op : log_op) : log_state :=
  match op with LSetLevel l => connx_log_set_min_level l g | LSetCallback f u => connx_log_set_callback f u g end.

(** Whatever the log was configured with, its minimum level stays between trace and error, so
    errors always pass; a message at a valid level reaches the callback that was set last, with
    the user data set with it, whole and NUL-terminated, exactly if its level is not below the
    minimum and the callback is not NULL. Through the macros the level is tested twice with
    the same result. *)
Theorem log_delivers (ops : list log_op) (level : Z) (t : str) :
  zlen t <= INT_MAX ->
  let g := foldl log_step log_init ops in
  CONNX_LOG_LEVEL_TRACE <= g_min_level g <= CONNX_LOG_LEVEL_ERROR /\
  connx_log level (Some t) true g =
    (if (CONNX_LOG_LEVEL_TRACE <=? level) && (level <=? CONNX_LOG_LEVEL_ERROR) && (g_min_level g <=? level)
     then fn ← g_log_function g; Some (fn, t ++ [x00], g_user_data g) else None) /\
  CONNX_LOG level (Some t) true g = connx_log level (Some t) true g.
Proof.
  intros Ht g. split; [| split].
  - subst g. induction ops as [| op ops IH] using rev_ind; [done |]. rewrite foldl_app. cbn. destruct op; [| done]. cbn.
    unfold CONNX_LOG_LEVEL_TRACE, CONNX_LOG_LEVEL_ERROR. destruct (Z.ltb_spec level0 0), (Z.ltb_spec 4 level0); lia.
  - unfold connx_log. rewrite (log_message_exact level t g Ht). by destruct (_ && _).
  - unfold CONNX_LOG, connx_log_get_min_level. destruct (Z.leb_spec (g_min_level g) level); [done |]. unfold connx_log.
    rewrite (log_message_exact level t g Ht), (proj2 (Z.leb_gt (g_min_level g) level)) by done. by rewrite andb_false_r.
Qed.

Lemma desc_of_level level :
  CONNX_LOG_LEVEL_TRACE <= level <= CONNX_LOG_LEVEL_ERROR -> exists desc, desc_of level = Some desc /\ zlen desc <= 5.
Proof.
  unfold CONNX_LOG_LEVEL_TRACE, CONNX_LOG_LEVEL_ERROR. intros Hl.
  assert (level = 0 \/ level = 1 \/ level = 2 \/ level = 3 \/ level = 4) as [-> | [-> | [-> | [-> | ->]]]] by lia; by eexists.
Qed.

(** Every message that [connx_log] passes to the default callback is written: the level that was
    tested is inside the table of names, and the line holds the time, the
    milliseconds, the thread, the source line, the name of the level and the
    message. *)
Theorem log_default_in_range (g : log_state) (level line threadid tv_nsec user_data : Z) (t message time : str) :
  zlen t <= INT_MAX - 2 ^ 10 -> zlen time < 64 -> zlen (format_lu threadid) <= 20 -> zlen (format_d line) <= 11 ->
  zlen (format_03d (Z.quot tv_nsec 1000000)) = 3 ->
  connx_log level (Some t) true g = Some (connx_log_default, message, user_data) ->
  exists desc, g_desc !! Z.to_nat level = Some desc /\
    connx_log_default_line level line threadid t time tv_nsec true =
      Some (time ++ lit "." ++ format_03d (Z.quot tv_nsec 1000000) ++ lit " " ++ format_lu threadid ++ lit " " ++
            format_d line ++ lit " " ++ desc ++ lit " " ++ t ++ [x0a]).
Proof.
  intros Ht Htime Hthread Hline Hms E. unfold connx_log in E. rewrite log_message_exact in E by lia.
  destruct ((CONNX_LOG_LEVEL_TRACE <=? level) && (level <=? CONNX_LOG_LEVEL_ERROR)) eqn:El; [| done].
  apply andb_true_iff in El as [E1%Z.leb_le E2%Z.leb_le]. destruct (desc_of_level level (conj E1 E2)) as (desc & Ed & Hz).
  exists desc. split.
  - unfold desc_of in Ed. unfold CONNX_LOG_LEVEL_TRACE in E1. by rewrite (proj2 (Z.ltb_ge level 0)) in Ed by lia.
  - unfold connx_log_default_line. rewrite Ed. cbn [mbind option_bind]. rewrite format_string_exact.
    + cbn [mbind option_bind]. by rewrite <- !app_assoc.
    + rewrite !zlen_app, Hms. change (zlen (lit ".")) with 1. change (zlen (lit " ")) with 1. lia.
Qed.

End Log.

(** ** Replacing the callback while others log *)

(** The stores of [connx_log_set_callback] and the loads of [connx_log] are separate. *)
Inductive writer_pc := WSeq1 | WFn (s : Z) | WData (s : Z) | WSeq2 (s : Z) | WDone.
Inductive reader_pc := RData | RFn (data : Z) | RCalled (fn : option log_fn) (data : Z).

Record log_race := { shared : log_state; writer : writer_pc; reader : reader_pc }.

Section Race.
Context (callback : option log_fn) (user_data : Z).

Definition writer_step (g : log_state) (p : writer_pc) : option (log_state * writer_pc) :=
  let set seq fn data := {| g_seq := seq; g_log_function := fn; g_user_data := data; g_min_level := g_min_level g |} in
  match p with
  | WSeq1 => let s := g_seq g in Some (set (s + 1) (g_log_function g) (g_user_data g), WFn s)
  | WFn s => Some (set (g_seq g) callback (g_user_data g), WData s)
  | WData s => Some (set (g_seq g) (g_log_function g) user_data, WSeq2 s)
  | WSeq2 s => Some (set (s + 2) (g_log_function g) (g_user_data g), WDone)
  | WDone => None
  end.

(** The reader never looks at [g_seq]. *)
Definition reader_step (g : log_state) (p : reader_pc) : option reader_pc :=
  match p with
  | RData => Some (RFn (g_user_data g))
  | RFn data => Some (RCalled (g_log_function g) data)
  | RCalled _ _ => None
  end.

Definition race_step (write : bool) (r : log_race) : option log_race :=
  if write then
    '(g, w) ← writer_step (shared r) (writer r); Some {| shared := g; writer := w; reader := reader r |}
  else
    p ← reader_step (shared r) (reader r); Some {| shared := shared r; writer := writer r; reader := p |}.

Fixpoint race_run (sched : list bool) (r : log_race) : option log_race :=
  match sched with [] => Some r | b :: sched => r' ← race_step b r; race_run sched r' end.

End Race.

(** The writer alone does what [connx_log_set_callback] says. *)
Lemma writer_alone callback user_data g :
  race_run callback user_data [true; true; true; true] {| shared := g; writer := WSeq1; reader := RData |} =
  Some {| shared := connx_log_set_callback callback user_data g; writer := WDone; reader := RData |}.
Proof. done. Qed.

(** A message logged while the callback is being replaced can reach the new callback with
    the user data of the old one: [g_seq], which marks a replacement under way, is never
    read. *)
Theorem log_callback_torn (g : log_state) (callback : option log_fn) (user_data : Z) :
  exists sched r, race_run callback user_data sched {| shared := g; writer := WSeq1; reader := RData |} = Some r /\
    reader r = RCalled callback (g_user_data g) /\ g_log_function (shared r) = callback /\ g_user_data (shared r) = user_data.
Proof. exists [false; true; true; true; true; false]. by eexists. Qed.

Definition text_demo : str := lit "hello".

Lemma log_delivers_witness :
  connx_log 3 (Some text_demo) true (foldl log_step log_init [LSetLevel 2; LSetCallback (Some (UserFn 1)) 7]) =
  Some (UserFn 1, text_demo ++ [x00], 7).
Proof.
  destruct (log_delivers [LSetLevel 2; LSetCallback (Some (UserFn 1)) 7] 3 text_demo) as (_ & E & _); [by vm_compute |].
  exact E.
Defined.

Lemma log_default_in_range_witness :
  connx_log_default_line 3 42 7 text_demo (lit "2026-01-01 00:00:00") 5000000 true =
  Some (lit "2026-01-01 00:00:00.005 7 42 Warn hello" ++ [x0a]).
Proof.
  destruct (log_default_in_range log_init 3 42 7 5000000 0 text_demo (text_demo ++ [x00]) (lit "2026-01-01 00:00:00"))
    as (desc & Ed & ->); try (by vm_compute). injection Ed as <-. reflexivity.
Defined.
