(* ===== verification/Clock.v ===== *)
(** * Clocks and timed waits

    [src/utils/time.cc] and the timed wait of [src/utils/sync.cc]: the arithmetic that turns
    what the system's clocks say into milliseconds and deadlines. *)

From S2P Require Import Prelude.

Record connx_timespec := { tv_sec : Z; tv_nsec : Z }.

(** A time in nanoseconds. *)
Definition nanos (t : connx_timespec) : Z := tv_sec t * 10 ^ 9 + tv_nsec t.
Definition normalized (t : connx_timespec) : Prop := 0 <= tv_nsec t < 10 ^ 9.

(** The wall clock on Windows: [FILETIME] counts 100 ns since 1601, in two halves of 32 bits. *)
Definition connx_now_filetime (high low : Z) : connx_timespec :=
  let t := Z.lor (Z.shiftl high 32) low in
  let t := t - 116444736000000000 in
  {| tv_sec := Z.quot t 10000000; tv_nsec := Z.rem t 10000000 * 100 |}.

(** [clock_gettime] elsewhere: the two fields are copied. *)
Definition connx_now_posix (sec nsec : Z) : connx_timespec := {| tv_sec := sec; tv_nsec := nsec |}.

(** [GetCurrentMillisec], of the wall clock. *)
Definition GetCurrentMillisec (ts : connx_timespec) : Z := tv_sec ts * 1000 + Z.quot (tv_nsec ts) 1000000.

(** The absolute time [ConnxCondVarWait] gives to [pthread_cond_timedwait]. *)
Definition condvar_abstime (now_sec now_usec timeout_ms : Z) : connx_timespec :=
  let tv_sec := now_sec + Z.quot timeout_ms 1000 in
  let tv_usec := now_usec + Z.rem timeout_ms 1000 * 1000 in
  let sec := Z.quot tv_usec 1000000 in
  let '(tv_sec, tv_usec) := if 0 <? sec then (tv_sec + sec, tv_usec - sec * 1000000) else (tv_sec, tv_usec) in
  {| tv_sec := tv_sec; tv_nsec := tv_usec * 1000 |}.

Definition ETIMEDOUT : Z := 110.

(** [ConnxCondVarWait]: the deadline it waits for, if any, and its result for the error
    [pthread_cond_wait] or [pthread_cond_timedwait] returns. *)
Definition ConnxCondVarWait (now_sec now_usec timeout_ms error : Z) : option connx_timespec * Z :=
  (if timeout_ms <? 0 then None else Some (condvar_abstime now_sec now_usec timeout_ms), if error =? ETIMEDOUT then 1 else 0).

(** The same on Windows: the milliseconds that [SleepConditionVariableCS] is told to wait, and the
    result. [slept]: it returned nonzero; [error] is [GetLastError]. *)
Definition INFINITE : Z := 2 ^ 32 - 1.
Definition ERROR_TIMEOUT : Z := 1460.
Definition ConnxCondVarWait_win32 (timeout_ms : Z) (slept : bool) (error : Z) : Z * Z :=
  if timeout_ms <? 0 then (INFINITE, 0)
  else (u32 timeout_ms, if negb slept && (error =? ERROR_TIMEOUT) then 1 else 0).

(** ** Properties *)

(** On Windows the wait is the one that was asked for up to the width of a [DWORD]. Beyond it
    is not: [2^32 - 1] ms waits for ever, [2^32] ms not at all. *)
Theorem condvar_dword (timeout_ms : Z) (slept : bool) (error : Z) :
  (ConnxCondVarWait_win32 timeout_ms slept error).1 =
    (if timeout_ms <? 0 then INFINITE else timeout_ms mod 2 ^ 32) /\
  (0 <= timeout_ms < INFINITE -> (ConnxCondVarWait_win32 timeout_ms slept error).1 = timeout_ms) /\
  (ConnxCondVarWait_win32 INFINITE slept error).1 = INFINITE /\ (ConnxCondVarWait_win32 (2 ^ 32) slept error).1 = 0.
Proof.
  unfold ConnxCondVarWait_win32. split_and!; try done; [by destruct (_ <? _) |]. unfold INFINITE. intros Ht.
  rewrite (proj2 (Z.ltb_ge timeout_ms 0)) by lia. cbn [fst]. apply wrap_small. lia.
Qed.

(** A timed wait ends exactly [timeout_ms] after it began, and its deadline is one that
    [pthread_cond_timedwait] accepts, with less than a second of nanoseconds; a negative
    timeout waits without one. *)
Theorem condvar_deadline (now_sec now_usec timeout_ms error : Z) :
  0 <= now_usec < 10 ^ 6 ->
  match (ConnxCondVarWait now_sec now_usec timeout_ms error).1 with
  | Some t => 0 <= timeout_ms /\ normalized t /\ nanos t = now_sec * 10 ^ 9 + now_usec * 1000 + timeout_ms * 10 ^ 6
  | None => timeout_ms < 0
  end.
Proof.
  intros Hu. unfold ConnxCondVarWait, condvar_abstime, nanos, normalized. cbn [fst]. destruct (Z.ltb_spec timeout_ms 0) as [? | Ht]; [done |].
  pose proof (Z.quot_rem' timeout_ms 1000) as Hq. pose proof (Z.rem_bound_pos timeout_ms 1000 ltac:(lia) ltac:(lia)) as Hr.
  rewrite (Z.quot_div_nonneg (now_usec + _)) by lia.
  pose proof (Z.div_mod (now_usec + Z.rem timeout_ms 1000 * 1000) 1000000 ltac:(lia)) as Hd.
  pose proof (Z.mod_pos_bound (now_usec + Z.rem timeout_ms 1000 * 1000) 1000000 ltac:(lia)) as Hm.
  set (sec := (now_usec + Z.rem timeout_ms 1000 * 1000) / 1000000) in *. destruct (Z.ltb_spec 0 sec); cbn; lia.
Qed.

(** The wall clock of Windows after 1970: a proper time, the same number of 100 ns, and
    milliseconds that lose less than one. *)
Theorem filetime_exact (high low : Z) :
  0 <= high < 2 ^ 31 -> 0 <= low < 2 ^ 32 -> 116444736000000000 <= high * 2 ^ 32 + low ->
  let ts := connx_now_filetime high low in
  normalized ts /\ nanos ts = (high * 2 ^ 32 + low - 116444736000000000) * 100 /\
  0 <= nanos ts - GetCurrentMillisec ts * 10 ^ 6 < 10 ^ 6.
Proof.
  intros Hh Hl Ht. unfold connx_now_filetime, nanos, normalized, GetCurrentMillisec. cbn zeta. cbn [tv_sec tv_nsec].
  rewrite lor_shiftl_add by lia. set (t := high * 2 ^ 32 + low - 116444736000000000).
  assert (Hpos : 0 <= t) by (subst t; lia). rewrite (Z.quot_div_nonneg t), (Z.rem_mod_nonneg t) by lia.
  pose proof (Z.div_mod t 10000000 ltac:(lia)) as Hd. pose proof (Z.mod_pos_bound t 10000000 ltac:(lia)) as Hm.
  rewrite Z.quot_div_nonneg by lia.
  pose proof (Z.div_mod (t mod 10000000 * 100) 1000000 ltac:(lia)) as Hd'. pose proof (Z.mod_pos_bound (t mod 10000000 * 100) 1000000 ltac:(lia)) as Hm'.
  split; lia.
Qed.

Lemma condvar_deadline_witness :
  let t := condvar_abstime 10 999999 1500 in normalized t /\ nanos t = 10 * 10 ^ 9 + 999999 * 1000 + 1500 * 10 ^ 6.
Proof. exact (proj2 (condvar_deadline 10 999999 1500 0 ltac:(lia))). Defined.

Lemma filetime_exact_witness : normalized (connx_now_filetime 30000000 5).
Proof. apply (filetime_exact 30000000 5); lia. Defined.
