(* ===== verification/Connection.v ===== *)
(** * A client connection

    [src/net/client_connection.h], [src/net/client_connection.cc] and the POSIX half
    [src/net/client_connection_posix.cc].

    All work on a connection is done by the tasks of its queue, one at a time, on one
    worker; other threads only append tasks, claim the [kIdle] state in [Connect] and
    read [connected_]. Here a task is one step. The queue is a list, which is what
    [Mpscq.v] proves of it; the buffers are lists of byte chunks, which is what
    [SliceBuffer.v] proves of them. The connection table, the timer queue and the
    poller are those of their own files.

    The environment is explicit: [os] holds the results of the coming system calls,
    [script] what the handler does in its coming callbacks, [trace] (newest first)
    what happened. All three may be anything. *)

From S2P Require Import Prelude Codec SliceBuffer ConnTable Timer Poller Address.

(** ** Data *)

Inductive State := kIdle | kConnecting | kConnected | kClosing.

Module CloseReason.
Inductive t := kUser | kConnectFailed | kConnectTimeout | kRemoteClosed | kError | kRelease.
#[global] Instance t_eq_dec : EqDecision t.
Proof. solve_decision. Defined.
End CloseReason.

Inductive ParseStatus := kDone | kYielded | kClosed.

#[export] Instance State_eq_dec : EqDecision State.
Proof. solve_decision. Defined.

(** What [connx_blocking_resolve_address] leaves: the error text and the addresses. *)
Record resolve_result := { rr_err : option string; rr_addrs : option (list connx_resolved_address) }.

Record TcpOptions := {
  tcp_nodelay : Z;
  tcp_quickack : Z;
  send_buffer_size : Z;
  recv_buffer_size : Z;
  linger_sec : Z;
  connect_timeout_ms : Z
}.

(** The closures that are posted to the task queue. *)
Inductive task :=
| TConnectResolved (addr : connx_resolved_address)
| TStartClose (reason : CloseReason.t) (desc : string)
| TSend (msg : list byte)
| TPollEvent (ev : PollEvent)
| TTimerEvent (ev : TimerEvent)
| TParse.

(** The calls of [ClientHandler]. *)
Inductive callback :=
| OnConnected
| OnConnectFailed (reason : string)
| OnMessage (frame : list byte)
| OnClosed.

(** What a handler can do to its own connection inside a callback. *)
Inductive api_call :=
| ApiConnect (r : resolve_result)
| ApiDisconnect
| ApiSend (data : list byte)
| ApiRelease.

(** The result of one system call: a number with [errno], or received bytes. *)
Inductive sysret := RInt (rc errno : Z) | RData (bytes : list byte).

(** [EvQueued]: a message enters the send buffer; [EvReset]: the buffers of the
    session are dropped. The last three are those of the Windows half: a request is
    handed to the kernel; the kernel received bytes into a request, or sent bytes of
    one, for the connection [id]. *)
Inductive event :=
| EvSocket (fd : Z)
| EvClose (fd : Z)
| EvRecv (bytes : list byte)
| EvQueued (bytes : list byte)
| EvSent (bytes : list byte)
| EvReset
| EvCallback (cb : callback)
| EvStart (req : WinIoRequest)
| EvArrived (id : ConnectionId) (bytes : list byte)
| EvTaken (id : ConnectionId) (bytes : list byte).

Definition EAGAIN : Z := 11.
Definition EINPROGRESS : Z := 115.
Definition kDrainTaskBudget : Z := 64.
Definition kParseMessageBudget : nat := 64.
Definition kMaxReadBytesPerEvent : Z := 1024 * 1024.
Definition kMaxWriteBytesPerEvent : Z := 1024 * 1024.
Definition recv_cache_size : Z := 65536.

Section Connection.
Context `{SizeT} `{PQ : PriorityQueue Q}.

(** The members of [ClientConnection], then the runtime it uses and the environment.
    [recv_pending_], [send_pending_] and [win_requests], the requests the kernel or its
    completion port holds, are used on Windows only.
    [resolving] counts the calls of [Connect] that are inside the blocking resolver,
    [fault] records undefined behaviour. *)
Record conn := Conn {
  state_ : State;
  id_ : ConnectionId;
  fd_ : Z;
  poll_interest_ : Z;
  connect_deadline_ms_ : Z;
  connected_ : bool;
  bytes_sent_ : Z;
  bytes_received_ : Z;
  pending_bytes_ : Z;
  task_queue_ : list task;
  accepting_tasks_ : bool;
  owner_closing_ : bool;
  drain_yield_requested_ : bool;
  parse_continuation_pending_ : bool;
  deferred_close_pending_ : bool;
  deferred_close_reason_ : CloseReason.t;
  deferred_close_desc_ : string;
  recv_buffer_ : Chunks byte;
  send_buffer_ : Chunks byte;
  recv_pending_ : bool;
  send_pending_ : bool;
  table : ConnectionTable;
  timers : Q;
  poller : Poller;
  win_requests : list WinIoRequest;
  resolving : nat;
  os : list sysret;
  script : list (list api_call);
  fault : bool;
  trace : list event
}.

#[export] Instance eta_conn : Eta conn := fun s => Conn
  (state_ s) (id_ s) (fd_ s) (poll_interest_ s) (connect_deadline_ms_ s) (connected_ s) (bytes_sent_ s)
  (bytes_received_ s) (pending_bytes_ s) (task_queue_ s) (accepting_tasks_ s) (owner_closing_ s)
  (drain_yield_requested_ s) (parse_continuation_pending_ s) (deferred_close_pending_ s)
  (deferred_close_reason_ s) (deferred_close_desc_ s) (recv_buffer_ s) (send_buffer_ s) (recv_pending_ s) (send_pending_ s)
  (table s) (timers s) (poller s) (win_requests s) (resolving s) (os s) (script s) (fault s) (trace s).
#[export] Instance set_state_ : Setter state_ := ltac:(solve_setter).
#[export] Instance set_id_ : Setter id_ := ltac:(solve_setter).
#[export] Instance set_fd_ : Setter fd_ := ltac:(solve_setter).
#[export] Instance set_poll_interest_ : Setter poll_interest_ := ltac:(solve_setter).
#[export] Instance set_connect_deadline_ms_ : Setter connect_deadline_ms_ := ltac:(solve_setter).
#[export] Instance set_connected_ : Setter connected_ := ltac:(solve_setter).
#[export] Instance set_bytes_sent_ : Setter bytes_sent_ := ltac:(solve_setter).
#[export] Instance set_bytes_received_ : Setter bytes_received_ := ltac:(solve_setter).
#[export] Instance set_pending_bytes_ : Setter pending_bytes_ := ltac:(solve_setter).
#[export] Instance set_task_queue_ : Setter task_queue_ := ltac:(solve_setter).
#[export] Instance set_accepting_tasks_ : Setter accepting_tasks_ := ltac:(solve_setter).
#[export] Instance set_owner_closing_ : Setter owner_closing_ := ltac:(solve_setter).
#[export] Instance set_drain_yield_requested_ : Setter drain_yield_requested_ := ltac:(solve_setter).
#[export] Instance set_parse_continuation_pending_ : Setter parse_continuation_pending_ := ltac:(solve_setter).
#[export] Instance set_deferred_close_pending_ : Setter deferred_close_pending_ := ltac:(solve_setter).
#[export] Instance set_deferred_close_reason_ : Setter deferred_close_reason_ := ltac:(solve_setter).
#[export] Instance set_deferred_close_desc_ : Setter deferred_close_desc_ := ltac:(solve_setter).
#[export] Instance set_recv_buffer_ : Setter recv_buffer_ := ltac:(solve_setter).
#[export] Instance set_send_buffer_ : Setter send_buffer_ := ltac:(solve_setter).
#[export] Instance set_recv_pending_ : Setter recv_pending_ := ltac:(solve_setter).
#[export] Instance set_send_pending_ : Setter send_pending_ := ltac:(solve_setter).
#[export] Instance set_win_requests : Setter win_requests := ltac:(solve_setter).
#[export] Instance set_table : Setter table := ltac:(solve_setter).
#[export] Instance set_timers : Setter timers := ltac:(solve_setter).
#[export] Instance set_poller : Setter poller := ltac:(solve_setter).
#[export] Instance set_resolving : Setter resolving := ltac:(solve_setter).
#[export] Instance set_os : Setter os := ltac:(solve_setter).
#[export] Instance set_script : Setter script := ltac:(solve_setter).
#[export] Instance set_fault : Setter fault := ltac:(solve_setter).
#[export] Instance set_trace : Setter trace := ltac:(solve_setter).

(** ** The state monad *)

Definition M (A : Type) : Type := conn -> A * conn.
#[export] Instance M_ret : MRet M := fun A a s => (a, s).
#[export] Instance M_bind : MBind M := fun A B k m s => let '(a, s') := m s in k a s'.

Definition get : M conn := fun s => (s, s).
Definition modify (f : conn -> conn) : M unit := fun s => (tt, f s).
Definition when (b : bool) (m : M unit) : M unit := if b then m else mret tt.
Definition emit (e : event) : M unit := modify (fun s => s <| trace := e :: trace s |>).

(** The next system call result; a call whose result is not given would block. *)
Definition sys_next : M sysret := fun s =>
  match os s with
  | [] => (RInt (-1) EAGAIN, s)
  | r :: os' => (r, s <| os := os' |>)
  end.

(** A call that returns a number. *)
Definition sys_call : M (Z * Z) :=
  r ← sys_next;
  mret match r with RInt rc errno => (rc, errno) | RData bytes => (zlen bytes, 0) end.
(** [recv]: the bytes, the end of the stream, or [errno]. *)
Inductive recv_result := RecvData (bytes : list byte) | RecvEof | RecvError (errno : Z).

Definition sys_recv : M recv_result :=
  r ← sys_next;
  match r with
  | RData [] => mret RecvEof
  | RData bytes => let bytes := ztake recv_cache_size bytes in emit (EvRecv bytes);; mret (RecvData bytes)
  | RInt rc errno => mret (if rc <? 0 then RecvError errno else RecvEof)
  end.

(** [send] of [data]: the kernel takes a part of it, or reports [errno]. *)
Definition sys_send (data : list byte) : M (Z * Z) :=
  '(rc, errno) ← sys_call;
  if rc <? 0 then mret (-1, errno)
  else let n := Z.min rc (zlen data) in emit (EvSent (ztake n data));; mret (n, 0).

(** Parameters of the connection: the handler and the codec may be absent. *)
Context (has_handler : bool) (codec : option decode_fn) (tcp : TcpOptions) (local_address : option str).
(** This object's name in the connection table. *)
Context (self : conn_ref).
(** [strerror] and [inet_pton] of the C library. *)
Context (FormatErrorMessage : Z -> string) (inet_pton : Z -> str -> option (list byte)).

(** ** Tasks and the API *)

Definition Post (t : task) : M unit :=
  s ← get;
  when (accepting_tasks_ s) (modify (fun s => s <| task_queue_ := task_queue_ s ++ [t] |>)).

(** [Connect], up to the blocking resolver. *)
Definition Connect_begin : M bool :=
  s ← get;
  if decide (state_ s = kIdle) then
    modify (fun s => s <| state_ := kConnecting |> <| connected_ := false |>);;
    mret true
  else mret false.

(** [Connect], behind it. *)
Definition Connect_end (r : resolve_result) : M bool :=
  match r with
  | {| rr_err := None; rr_addrs := Some (addr :: _) |} => Post (TConnectResolved addr);; mret true
  | _ =>
      let desc := match rr_err r with Some e => e | None => "resolve failed"%string end in
      Post (TStartClose CloseReason.kConnectFailed desc);; mret false
  end.

(** [hosts == nullptr] is [None]. *)
Definition Connect (hosts : option resolve_result) : M bool :=
  match hosts with
  | None => mret false
  | Some r => ok ← Connect_begin; if ok : bool then Connect_end r else mret false
  end.

Definition Disconnect : M unit := Post (TStartClose CloseReason.kUser "").

Definition IsConnected : M bool := s ← get; mret (connected_ s).
Definition IsConnecting : M bool := s ← get; mret (bool_decide (state_ s = kConnecting)).

Definition SendBuffer (data : option (list byte)) : M bool :=
  match data with
  | None | Some [] => mret false
  | Some msg =>
      c ← IsConnected;
      if negb c then mret false else Post (TSend msg);; mret true
  end.

Record Metrics := { m_connected : bool; m_bytes_sent : Z; m_bytes_received : Z; m_pending_bytes : Z }.

Definition GetMetrics : M Metrics :=
  s ← get;
  mret {| m_connected := connected_ s; m_bytes_sent := bytes_sent_ s;
          m_bytes_received := bytes_received_ s; m_pending_bytes := pending_bytes_ s |}.

Definition PostPollEvent (ev : PollEvent) : M unit := Post (TPollEvent ev).
Definition PostTimerEvent (ev : TimerEvent) : M unit := Post (TTimerEvent ev).

(** ** Closing *)

Definition PlatformCloseSocket : M unit :=
  s ← get;
  when (IsValidSocketHandle (fd_ s)) (
    emit (EvClose (fd_ s));;
    modify (fun s => s <| fd_ := InvalidSocketHandle |>)).

(** On POSIX it does nothing, and the flags do not exist. *)
Definition PlatformResetIoState : M unit :=
  modify (fun s => s <| recv_pending_ := false |> <| send_pending_ := false |>).

Definition ResetAfterClose : M unit :=
  emit EvReset;;
  modify (fun s =>
    s <| poll_interest_ := 0 |> <| recv_buffer_ := [] |> <| send_buffer_ := [] |> <| pending_bytes_ := 0 |>
      <| drain_yield_requested_ := false |> <| parse_continuation_pending_ := false |>
      <| deferred_close_pending_ := false |> <| deferred_close_desc_ := ""%string |>);;
  PlatformResetIoState.

(** [cb] is how the handler is called. *)
Definition FinishClose_with (cb : callback -> M unit) (notify : bool) (reason : CloseReason.t) (desc : string) : M unit :=
  s ← get;
  when (valid (id_ s)) (
    modify (fun s => s <| poller := Poller_Remove (poller s) (fd_ s) |>
                       <| table := Unregister (table s) (id_ s) |>
                       <| id_ := ConnectionId_default |>));;
  PlatformCloseSocket;;
  ResetAfterClose;;
  modify (fun s => s <| state_ := kIdle |>);;
  if negb notify || negb has_handler then mret tt
  else match reason with
       | CloseReason.kConnectFailed | CloseReason.kConnectTimeout => cb (OnConnectFailed desc)
       | _ => cb OnClosed
       end.

Definition StartClose_with (cb : callback -> M unit) (reason : CloseReason.t) (desc : string) : M unit :=
  s ← get;
  if decide (state_ s = kIdle \/ state_ s = kClosing) then mret tt
  else
    let notify := match reason with CloseReason.kUser | CloseReason.kRelease => false | _ => true end in
    modify (fun s => s <| state_ := kClosing |> <| connected_ := false |> <| connect_deadline_ms_ := 0 |>);;
    FinishClose_with cb notify reason desc.

(** [DrainTaskQueue]: the tasks are deleted, not run. *)
Definition DrainTaskQueue : M unit := modify (fun s => s <| task_queue_ := [] |>).

(** [CloseFromOwner] called by the handler itself, inside [Drain]. The reason
    [kRelease] notifies nobody. *)
Definition CloseFromOwner_draining : M unit :=
  modify (fun s => s <| owner_closing_ := true |> <| accepting_tasks_ := false |>);;
  DrainTaskQueue;;
  StartClose_with (fun _ => mret tt) CloseReason.kRelease "".

(** [CloseFromOwner] called by another thread: the close is left to [Drain]. *)
Definition CloseFromOwner_other : M unit :=
  modify (fun s => s <| owner_closing_ := true |> <| accepting_tasks_ := false |>).

(** ** Callbacks *)

Definition run_api (call : api_call) : M unit :=
  match call with
  | ApiConnect r => _ ← Connect (Some r); mret tt
  | ApiDisconnect => Disconnect
  | ApiSend data => _ ← SendBuffer (Some data); mret tt
  | ApiRelease => CloseFromOwner_draining
  end.

Fixpoint run_apis (calls : list api_call) : M unit :=
  match calls with
  | [] => mret tt
  | call :: calls' => run_api call;; run_apis calls'
  end.

Definition next_script : M (list api_call) := fun s =>
  match script s with
  | [] => ([], s)
  | calls :: script' => (calls, s <| script := script' |>)
  end.

Definition run_callback (cb : callback) : M unit :=
  emit (EvCallback cb);;
  calls ← next_script;
  run_apis calls.

Definition FinishClose : bool -> CloseReason.t -> string -> M unit := FinishClose_with run_callback.
Definition StartClose : CloseReason.t -> string -> M unit := StartClose_with run_callback.

(** ** Input *)

Definition ScheduleParseContinuation : M unit :=
  s ← get;
  when (negb (parse_continuation_pending_ s)) (
    modify (fun s => s <| parse_continuation_pending_ := true |>);;
    Post TParse).

Definition DeferCloseUntilInputDrained (reason : CloseReason.t) (desc : string) : M unit :=
  modify (fun s => s <| deferred_close_pending_ := true |> <| deferred_close_reason_ := reason |>
                     <| deferred_close_desc_ := desc |>).

Definition FinishDeferredClose : M unit :=
  s ← get;
  when (deferred_close_pending_ s) (
    modify (fun s => s <| deferred_close_pending_ := false |> <| deferred_close_desc_ := ""%string |>);;
    StartClose (deferred_close_reason_ s) (deferred_close_desc_ s)).

(** [SliceBuffer::MoveHeader] on chunks. *)
Definition recv_MoveHeader (n : Z) : M bool :=
  s ← get;
  if zlen (chunks_bytes (recv_buffer_ s)) <? n then mret false
  else modify (fun s => s <| recv_buffer_ := chunks_drop n (recv_buffer_ s) |>);; mret true.

(** The message loop of [ParseInput]: [data] is [merged] from [offset] on. It ends
    with the offset and how many messages are left of the budget, or with [None] when
    the connection was closed. *)
Fixpoint parse_loop (budget : nat) (decode : decode_fn) (data : list byte) (offset : Z) : M (option (Z * nat)) :=
  match budget with
  | O => mret (Some (offset, O))
  | S budget' =>
      if zlen data =? 0 then mret (Some (offset, budget))
      else
        let '(result, consumed) := decode data in
        match result with
        | DecodeResult.kNeedMoreData => mret (Some (offset, budget))
        | DecodeResult.kError =>
            StartClose CloseReason.kError "protocol decode error";; mret None
        | DecodeResult.kSuccess =>
            if (consumed =? 0) || (zlen data <? consumed) then
              StartClose CloseReason.kError "protocol decode error";; mret None
            else
              run_callback (OnMessage (ztake consumed data));;
              c ← IsConnected;
              if negb c then mret None
              else parse_loop budget' decode (zdrop consumed data) (offset + consumed)
        end
  end.

(** The common end of [ParseInput]. *)
Definition parse_finish : M ParseStatus :=
  FinishDeferredClose;;
  c ← IsConnected;
  mret (if c : bool then kDone else kClosed).

Definition ParseInput : M ParseStatus :=
  modify (fun s => s <| parse_continuation_pending_ := false |>);;
  match codec with
  | None => parse_finish
  | Some decode =>
      if negb has_handler then parse_finish
      else
        s ← get;
        let merged := chunks_bytes (recv_buffer_ s) in
        if zlen merged =? 0 then parse_finish
        else
          r ← parse_loop kParseMessageBudget decode merged 0;
          match r with
          | None => mret kClosed
          | Some (offset, budget) =>
              moved ← (if 0 <? offset then recv_MoveHeader offset else mret true);
              if negb moved then
                StartClose CloseReason.kError "protocol buffer state error";; mret kClosed
              else
                s ← get;
                if bool_decide (budget = O) && (0 <? zlen (chunks_bytes (recv_buffer_ s))) && connected_ s then
                  ScheduleParseContinuation;;
                  modify (fun s => s <| drain_yield_requested_ := true |>);;
                  mret kYielded
                else parse_finish
          end
  end.

(** ** Output *)

(** [start_send] is [PlatformStartSend] of the platform: [inr] is the error text. *)
Definition UpdateWriteInterest_with (start_send : M (unit + string)) : M unit :=
  s ← get;
  if negb (valid (id_ s)) || negb (IsValidSocketHandle (fd_ s)) then mret tt
  else
    r ← start_send;
    match r with
    | inl _ => mret tt
    | inr error => StartClose CloseReason.kError error
    end.

Definition PlatformStartSend : M (unit + string) :=
  s ← get;
  let interest := if bool_decide (send_buffer_ s = []) then kPollReadable else Z.lor kPollReadable kPollWritable in
  if interest =? poll_interest_ s then mret (inl tt)
  else
    '(rc, errno) ← sys_call;
    let '(ok, p) := Poller_Modify (poller s) (fd_ s) (id_ s) interest rc in
    modify (fun s => s <| poller := p |>);;
    if negb ok then mret (inr (FormatErrorMessage errno))
    else modify (fun s => s <| poll_interest_ := interest |>);; mret (inl tt).

Definition UpdateWriteInterest : M unit := UpdateWriteInterest_with PlatformStartSend.

(** The loop of [PlatformHandleWritable]. A round that does not end the loop uses up
    one system call result, so their number is fuel enough. *)
Fixpoint writable_loop (fuel : nat) (bytes_this_event : Z) : M unit :=
  if negb (bytes_this_event <? kMaxWriteBytesPerEvent) then UpdateWriteInterest
  else
    s ← get;
    match send_buffer_ s with
    | [] => UpdateWriteInterest
    | front :: _ =>
        match fuel with
        | O => mret tt
        | S fuel' =>
            '(n, errno) ← sys_send front;
            if n <? 0 then
              if errno =? EINTR then writable_loop fuel' bytes_this_event
              else if errno =? EAGAIN then UpdateWriteInterest
              else StartClose CloseReason.kError (FormatErrorMessage errno)
            else if n =? 0 then UpdateWriteInterest
            else
              modify (fun s => s <| bytes_sent_ := u64 (bytes_sent_ s + n) |>
                                 <| pending_bytes_ := usize (pending_bytes_ s - n) |>
                                 <| send_buffer_ := chunks_drop n (send_buffer_ s) |>);;
              writable_loop fuel' (bytes_this_event + n)
        end
    end.

Definition PlatformHandleWritable : M unit :=
  s ← get; writable_loop (S (length (os s))) 0.

(** ** Reading *)

(** The receive loop: whether and how the connection is to be closed afterwards. *)
Fixpoint readable_loop (fuel : nat) (bytes_this_event : Z) : M (option (CloseReason.t * string)) :=
  if negb (bytes_this_event <? kMaxReadBytesPerEvent) then mret None
  else
    match fuel with
    | O => mret None
    | S fuel' =>
        r ← sys_recv;
        match r with
        | RecvEof => mret (Some (CloseReason.kRemoteClosed, ""%string))
        | RecvError errno =>
            if errno =? EINTR then readable_loop fuel' bytes_this_event
            else if errno =? EAGAIN then mret None
            else mret (Some (CloseReason.kError, FormatErrorMessage errno))
        | RecvData bytes =>
            modify (fun s => s <| bytes_received_ := u64 (bytes_received_ s + zlen bytes) |>
                               <| recv_buffer_ := chunks_add (recv_buffer_ s) bytes |>);;
            readable_loop fuel' (bytes_this_event + zlen bytes)
        end
    end.

Definition close_after_read (should_close : option (CloseReason.t * string)) : M unit :=
  match should_close with
  | None => mret tt
  | Some (reason, desc) => StartClose reason desc
  end.

Definition PlatformHandleReadable : M unit :=
  s ← get;
  should_close ← readable_loop (S (length (os s))) 0;
  s ← get;
  if 0 <? zlen (chunks_bytes (recv_buffer_ s)) then
    parse_status ← ParseInput;
    match parse_status, should_close with
    | kClosed, _ => mret tt
    | kYielded, Some (reason, desc) => DeferCloseUntilInputDrained reason desc
    | _, _ => close_after_read should_close
    end
  else close_after_read should_close.

(** ** Connecting *)

(** [setsockopt]/[fcntl] calls whose failure ends the attempt: [Some errno]. *)
Definition must_succeed (ok : Z -> bool) : M (option Z) :=
  '(rc, errno) ← sys_call; mret (if ok rc then None else Some errno).

(** A call that is made under a condition and whose result is ignored. *)
Definition ignore_call (b : bool) : M unit := when b (_ ← sys_call; mret tt).

(** [ApplyTcpOptions] as it is compiled on Linux, like the poller this connection uses:
    [TCP_QUICKACK] is defined there and [SO_NOSIGPIPE], an option of macOS, is not. *)
Definition ApplyTcpOptions : M (option string) :=
  let fails e := mret (Some (FormatErrorMessage e)) in
  (* SetNonBlocking, SetCloseOnExec *)
  e ← must_succeed (fun rc => 0 <=? rc);
  if e is Some e then fails e else
  e ← must_succeed (fun rc => rc =? 0);
  if e is Some e then fails e else
  e ← must_succeed (fun rc => 0 <=? rc);
  if e is Some e then fails e else
  e ← must_succeed (fun rc => rc =? 0);
  if e is Some e then fails e else
  e ← (if negb (tcp_nodelay tcp =? 0) then must_succeed (fun rc => rc =? 0) else mret None);
  if e is Some e then fails e else
  ignore_call (negb (tcp_quickack tcp =? 0));;
  ignore_call (0 <? send_buffer_size tcp);;
  ignore_call (0 <? recv_buffer_size tcp);;
  ignore_call (0 <=? linger_sec tcp);;
  mret None.

(** [PlatformOpenSocket]: the descriptor or the error text. A descriptor the kernel has just
    given out is in no interest set: what it stood for before has been closed. *)
Definition PlatformOpenSocket (addr : connx_resolved_address) : M (Z + string) :=
  '(fd, errno) ← sys_call;
  if negb (IsValidSocketHandle fd) then mret (inr (FormatErrorMessage errno))
  else
    emit (EvSocket fd);;
    modify (fun s => s <| poller := epoll_closed (poller s) fd |>);;
    e ← ApplyTcpOptions;
    if e is Some error then emit (EvClose fd);; mret (inr error) else
    match local_address with
    | None => mret (inl fd)
    | Some local =>
        match connx_string_to_sockaddr inet_pton local 0 with
        | None => emit (EvClose fd);; mret (inr "invalid local address"%string)
        | Some _ =>
            e ← must_succeed (fun rc => rc =? 0);
            if e is Some e then emit (EvClose fd);; mret (inr (FormatErrorMessage e))
            else mret (inl fd)
        end
    end.

(** [poller().Add(fd_, id_, interest)] with [poll_interest_] set first. *)
Definition poller_add (i : Z) : M (option string) :=
  modify (fun s => s <| poll_interest_ := i |>);;
  '(rc, errno) ← sys_call;
  s ← get;
  let '(ok, p) := Poller_Add (poller s) (fd_ s) (id_ s) i rc in
  modify (fun s => s <| poller := p |>);;
  mret (if ok : bool then None else Some (FormatErrorMessage errno)).

(** [connect], repeated while it is interrupted. *)
Fixpoint connect_loop (fuel : nat) : M (Z * Z) :=
  '(rc, errno) ← sys_call;
  match fuel with
  | O => mret (rc, errno)
  | S fuel' => if (rc <? 0) && (errno =? EINTR) then connect_loop fuel' else mret (rc, errno)
  end.

Inductive connect_rc := ConnectDone | ConnectInProgress | ConnectError (error : string).

Definition PlatformConnect (addr : connx_resolved_address) : M connect_rc :=
  s ← get;
  '(rc, errno) ← connect_loop (length (os s));
  if rc =? 0 then
    e ← poller_add kPollReadable;
    mret (match e with Some error => ConnectError error | None => ConnectDone end)
  else if negb (errno =? EINPROGRESS) && negb (errno =? EAGAIN) then
    mret (ConnectError (FormatErrorMessage errno))
  else
    e ← poller_add (Z.lor kPollReadable kPollWritable);
    mret (match e with Some error => ConnectError error | None => ConnectInProgress end).

(** [PlatformFinishConnect]: [getsockopt(SO_ERROR)]; a successful call yields the
    socket's error code in place of [errno]. *)
Definition PlatformFinishConnect : M (option string) :=
  '(rc, code) ← sys_call;
  if negb (rc =? 0) then mret (Some (FormatErrorMessage code))
  else if negb (code =? 0) then mret (Some (FormatErrorMessage code))
  else mret None.

Definition PlatformAfterConnected : M (option string) :=
  modify (fun s => s <| poll_interest_ := kPollReadable |>);;
  '(rc, errno) ← sys_call;
  s ← get;
  let '(ok, p) := Poller_Modify (poller s) (fd_ s) (id_ s) kPollReadable rc in
  modify (fun s => s <| poller := p |>);;
  mret (if ok : bool then None else Some (FormatErrorMessage errno)).

(** [after_connected] is [PlatformAfterConnected] of the platform. *)
Definition HandleConnected_with (after_connected : M (option string)) : M unit :=
  s ← get;
  if negb (bool_decide (state_ s = kConnecting)) then mret tt
  else
    modify (fun s => s <| connect_deadline_ms_ := 0 |>);;
    e ← after_connected;
    match e with
    | Some error => StartClose CloseReason.kConnectFailed error
    | None =>
        s ← get;
        if negb (bool_decide (state_ s = kConnecting)) then mret tt
        else
          modify (fun s => s <| state_ := kConnected |> <| connected_ := true |>);;
          when has_handler (run_callback OnConnected)
    end.

Definition HandleConnected : M unit := HandleConnected_with PlatformAfterConnected.

(** ** Both platforms *)

(** The methods that [client_connection_posix.cc] and [client_connection_win32.cc] define. *)
Record Platform := {
  open_socket : connx_resolved_address -> M (Z + string);
  start_connect : connx_resolved_address -> M connect_rc;
  finish_connect : M (option string);
  after_connected : M (option string);
  handle_readable : M unit;
  handle_writable : M unit;
  start_send : M (unit + string);
  connect_completion : PollEvent -> M unit;
  recv_completion : PollEvent -> M unit;
  send_completion : PollEvent -> M unit
}.

Definition posix : Platform :=
  {| open_socket := PlatformOpenSocket; start_connect := PlatformConnect; finish_connect := PlatformFinishConnect;
     after_connected := PlatformAfterConnected; handle_readable := PlatformHandleReadable;
     handle_writable := PlatformHandleWritable; start_send := PlatformStartSend;
     connect_completion := fun _ => mret tt; recv_completion := fun _ => mret tt;
     send_completion := fun _ => mret tt |}.

(** [connections().Register(shared_from_this())]. *)
Definition register_self : M unit :=
  s ← get;
  match Register (table s) self with
  | Some (id, T) => modify (fun s => s <| id_ := id |> <| table := T |>)
  | None => modify (fun s => s <| fault := true |>)
  end.

Definition ConnectResolved_on (P : Platform) (addr : connx_resolved_address) : M unit :=
  r ← open_socket P addr;
  match r with
  | inr error => StartClose CloseReason.kConnectFailed error
  | inl new_fd =>
      modify (fun s => s <| fd_ := new_fd |>);;
      register_self;;
      when (0 <? connect_timeout_ms tcp) (
        '(now, _) ← sys_call;
        modify (fun s => s <| connect_deadline_ms_ := now + connect_timeout_ms tcp |>);;
        modify (fun s => s <| timers := Add (timers s) (connect_deadline_ms_ s) (id_ s) kConnectTimeout |>));;
      rc ← start_connect P addr;
      match rc with
      | ConnectError error => StartClose CloseReason.kConnectFailed error
      | ConnectDone => HandleConnected_with (after_connected P)
      | ConnectInProgress => mret tt
      end
  end.

(** ** Events *)

Definition HandlePollEvent_on (P : Platform) (ev : PollEvent) : M unit :=
  s ← get;
  if negb (bool_decide (ev_id ev = id_ s)) then mret tt
  else
    match ev_operation ev with
    | kPollOpConnect => connect_completion P ev
    | kPollOpRecv => recv_completion P ev
    | kPollOpSend => send_completion P ev
    | kPollOpReady =>
        if decide (state_ s = kIdle \/ state_ s = kClosing) then mret tt
        else if has (ev_events ev) kPollEventError then
          failed ← (connecting ← IsConnecting;
                    if connecting : bool then finish_connect P else mret None);
          match failed with
          | Some error =>
              let error := if bool_decide (error = ""%string) then FormatErrorMessage (ev_error_code ev) else error in
              StartClose CloseReason.kConnectFailed error
          | None =>
              c ← IsConnected;
              StartClose (if c : bool then CloseReason.kError else CloseReason.kConnectFailed)
                (FormatErrorMessage (ev_error_code ev))
          end
        else
          connecting ← IsConnecting;
          go_on ← (if connecting && has (ev_events ev) (Z.lor kPollEventReadable kPollEventWritable) then
                     e ← finish_connect P;
                     match e with
                     | Some error => StartClose CloseReason.kConnectFailed error;; mret false
                     | None => HandleConnected_with (after_connected P);; IsConnected
                     end
                   else mret true);
          if negb go_on then mret tt
          else
            go_on ← (if has (ev_events ev) kPollEventReadable then handle_readable P;; IsConnected
                     else mret true);
            if negb go_on then mret tt
            else when (has (ev_events ev) kPollEventWritable) (handle_writable P)
    end.

Definition HandleTimerEvent (ev : TimerEvent) : M unit :=
  s ← get;
  if negb (bool_decide (tid ev = id_ s)) then mret tt
  else
    let expired := bool_decide (state_ s = kConnecting) && (connect_deadline_ms_ s =? deadline_ms ev) in
    when expired (StartClose CloseReason.kConnectTimeout "connect timeout").

(** ** Running tasks *)

Definition run_task_on (P : Platform) (t : task) : M unit :=
  match t with
  | TConnectResolved addr => ConnectResolved_on P addr
  | TStartClose reason desc => StartClose reason desc
  | TSend msg =>
      c ← IsConnected;
      when c (
        emit (EvQueued msg);;
        modify (fun s => s <| pending_bytes_ := usize (pending_bytes_ s + zlen msg) |>
                           <| send_buffer_ := chunks_add (send_buffer_ s) msg |>);;
        UpdateWriteInterest_with (start_send P))
  | TPollEvent ev => HandlePollEvent_on P ev
  | TTimerEvent ev => HandleTimerEvent ev
  | TParse => c ← IsConnected; when c (_ ← ParseInput; mret tt)
  end.

(** What one round of the loop of [Drain] does. *)
Inductive drained := RanTask | QueueEmpty | OwnerClosed.

Definition drain_round_on (P : Platform) : M drained :=
  s ← get;
  if owner_closing_ s then
    DrainTaskQueue;;
    StartClose CloseReason.kRelease "";;
    mret OwnerClosed
  else
    match task_queue_ s with
    | [] => mret QueueEmpty
    | t :: q =>
        modify (fun s => s <| task_queue_ := q |>);;
        run_task_on P t;;
        mret RanTask
    end.

(** [Drain]: the result tells whether it rescheduled itself. *)
Fixpoint Drain_loop (P : Platform) (fuel : nat) (tasks_processed : Z) : M bool :=
  match fuel with
  | O => mret true
  | S fuel' =>
      r ← drain_round_on P;
      match r with
      | RanTask =>
          s ← get;
          if drain_yield_requested_ s || (kDrainTaskBudget <=? tasks_processed + 1) then
            modify (fun s => s <| drain_yield_requested_ := false |>);;
            if owner_closing_ s then Drain_loop P fuel' (tasks_processed + 1)
            else mret true
          else Drain_loop P fuel' (tasks_processed + 1)
      | QueueEmpty | OwnerClosed => mret false
      end
  end.

(** After 64 tasks at most one more round follows. *)
Definition Drain (P : Platform) : M bool :=
  modify (fun s => s <| drain_yield_requested_ := false |>);;
  Drain_loop P 66 0.

(** ** POSIX *)

Definition ConnectResolved (addr : connx_resolved_address) : M unit := ConnectResolved_on posix addr.
Definition HandlePollEvent (ev : PollEvent) : M unit := HandlePollEvent_on posix ev.
Definition run_task (t : task) : M unit := run_task_on posix t.
Definition drain_round : M drained := drain_round_on posix.

End Connection.
