(* ===== verification/ConnInv.v ===== *)
(** * The connection: specification and invariant

    What the trace of a connection says about the current session, the rules of the
    callbacks, the steps of a connection among its clients, and the invariant that
    ties the members of [Connection.conn] to the trace. *)

From S2P Require Import Prelude Codec SliceBuffer ConnTable Timer Poller Address Connection.

(** ** The trace *)

(** The current session, as far as it has come: bytes received, frames delivered,
    messages queued and bytes handed to the kernel since the buffers were last
    dropped. *)
Record session := { rx : list byte; msgs : list (list byte); queued : list byte; sent : list byte }.

Definition new_session : session := {| rx := []; msgs := []; queued := []; sent := [] |}.

Fixpoint session_of (tr : list event) : session :=
  match tr with
  | [] => new_session
  | e :: tr' =>
      let s := session_of tr' in
      match e with
      | EvRecv bytes => {| rx := rx s ++ bytes; msgs := msgs s; queued := queued s; sent := sent s |}
      | EvCallback (OnMessage m) => {| rx := rx s; msgs := msgs s ++ [m]; queued := queued s; sent := sent s |}
      | EvQueued bytes => {| rx := rx s; msgs := msgs s; queued := queued s ++ bytes; sent := sent s |}
      | EvSent bytes => {| rx := rx s; msgs := msgs s; queued := queued s; sent := sent s ++ bytes |}
      | EvReset => new_session
      | _ => s
      end
  end.

(** The protocol of the callbacks. [Ended b]: a session or an attempt is over and the
    handler has not been told yet; [b] if it had been told that it was connected. *)
Inductive phase := Down | Up | Ended (was_up : bool).

Definition phase_step (p : phase) (e : event) : option phase :=
  match e with
  | EvReset => Some (Ended (match p with Up => true | _ => false end))
  | EvCallback OnConnected => match p with Up => None | _ => Some Up end
  | EvCallback (OnMessage _) => match p with Up => Some Up | _ => None end
  | EvCallback OnClosed => match p with Ended true => Some Down | _ => None end
  | EvCallback (OnConnectFailed _) => match p with Ended false => Some Down | _ => None end
  | _ => Some p
  end.

Fixpoint phase_of (tr : list event) : option phase :=
  match tr with
  | [] => Some Down
  | e :: tr' => p ← phase_of tr'; phase_step p e
  end.

(** The sockets opened and not yet closed; [None] when one was closed that was not
    open. *)
Fixpoint sockets_of (tr : list event) : option (list Z) :=
  match tr with
  | [] => Some []
  | EvSocket fd :: tr' => fds ← sockets_of tr'; Some (fd :: fds)
  | EvClose fd :: tr' => fds ← sockets_of tr'; if decide (fd ∈ fds) then Some (list_difference fds [fd]) else None
  | _ :: tr' => sockets_of tr'
  end.

(** [ms] are frames that [decode] cut off the front of [data], [rest] what remains. *)
Inductive parsed (decode : decode_fn) : list byte -> list (list byte) -> list byte -> Prop :=
| parsed_nil data : parsed decode data [] data
| parsed_cons data n ms rest :
    decode data = (DecodeResult.kSuccess, n) -> 0 < n <= zlen data ->
    parsed decode (zdrop n data) ms rest ->
    parsed decode data (ztake n data :: ms) rest.

Lemma parsed_concat decode data ms rest : parsed decode data ms rest -> data = concat ms ++ rest.
Proof.
  induction 1 as [| data n ms rest Hd Hn Hp IH]; [done |]. cbn. rewrite <- app_assoc, <- IH.
  by rewrite ztake_zdrop.
Qed.

Lemma parsed_snoc decode data ms rest n :
  parsed decode data ms rest -> decode rest = (DecodeResult.kSuccess, n) -> 0 < n <= zlen rest ->
  parsed decode data (ms ++ [ztake n rest]) (zdrop n rest).
Proof.
  intros Hp Hd Hn. induction Hp as [data | data m ms rest Hdm Hm Hp IH]; cbn.
  - econstructor; [done | done | constructor].
  - econstructor; [done | done | by apply IH].
Qed.

Lemma parsed_app decode `{!StreamCodec decode} data ms rest more :
  parsed decode data ms rest -> parsed decode (data ++ more) ms (rest ++ more).
Proof.
  induction 1 as [| data n ms rest Hd Hn Hp IH]; [constructor |].
  rewrite <- (ztake_app_le n data more) by lia. econstructor; [by apply codec_success_app | zlia |].
  by rewrite zdrop_app_le by lia.
Qed.

(** What has been delivered is what the reference framing of the whole stream
    begins with. *)
Lemma parsed_frames decode `{!StreamCodec decode} data ms rest :
  parsed decode data ms rest ->
  frames decode data = (ms ++ (frames decode rest).1.1, (frames decode rest).1.2, (frames decode rest).2).
Proof.
  induction 1 as [data | data n ms rest Hd Hn Hp IH]; [by destruct (frames decode data) as [[? ?] ?] |].
  rewrite frames_unfold by done. destruct data as [| b data]; [zlia |]. rewrite Hd.
  by rewrite IH.
Qed.

(** ** Steps *)

Section Steps.
Context `{SizeT} `{PQ : PriorityQueue Q}.
Context (codec : option decode_fn) (tcp : TcpOptions) (local_address : option str) (self : conn_ref) (win : bool).
Context (FormatErrorMessage : Z -> string) (inet_pton : Z -> str -> option (list byte)).

#[local] Abbreviation conn := (@Connection.conn Q).
(** The connections of this file have a handler. *)
#[local] Abbreviation Run m := (m true codec tcp local_address self FormatErrorMessage inet_pton).

Definition conn_init (T : ConnectionTable) (q : Q) (p : Poller) : conn :=
  {| state_ := kIdle; id_ := ConnectionId_default; fd_ := InvalidSocketHandle; poll_interest_ := 0;
     connect_deadline_ms_ := 0; connected_ := false; bytes_sent_ := 0; bytes_received_ := 0;
     pending_bytes_ := 0; task_queue_ := []; accepting_tasks_ := true; owner_closing_ := false;
     drain_yield_requested_ := false; parse_continuation_pending_ := false;
     deferred_close_pending_ := false; deferred_close_reason_ := CloseReason.kRemoteClosed;
     deferred_close_desc_ := ""; recv_buffer_ := []; send_buffer_ := [];
     recv_pending_ := false; send_pending_ := false; table := T; timers := q; poller := p; win_requests := [];
     resolving := 0; os := []; script := []; fault := false; trace := [] |}.

(** A task that ends a connection attempt which is still being resolved. *)
Definition is_attempt (t : task) : bool :=
  match t with
  | TConnectResolved _ | TStartClose CloseReason.kConnectFailed _ => true
  | _ => false
  end.

(** Attempts whose outcome has not reached the connection yet. *)
Definition attempts (s : conn) : Z := Z.of_nat (resolving s) + zlen (filter is_attempt (task_queue_ s)).

(** [Disconnect] takes effect while an attempt is still being resolved. *)
Definition overtakes (s : conn) : Prop :=
  match task_queue_ s with
  | TStartClose CloseReason.kUser _ :: _ => owner_closing_ s = false /\ 0 < attempts s
  | _ => False
  end.

(** One step of what surrounds a connection on every platform: an API call of any thread,
    a timer, a change other connections make to the table, or a choice of the
    environment. *)
Inductive client_step (s : conn) : conn -> Prop :=
| step_connect_begin s' : Connect_begin s = (true, s') -> client_step s (s' <| resolving := S (resolving s') |>)
| step_connect_end n r b s' :
    resolving s = S n -> Connect_end r (s <| resolving := n |>) = (b, s') -> client_step s s'
| step_disconnect : client_step s (Disconnect s).2
| step_send data : client_step s (SendBuffer data s).2
| step_release : client_step s (CloseFromOwner_other s).2
| step_timer_event ev : valid (tid ev) = true -> client_step s (PostTimerEvent ev s).2
| step_table T' :
    (forall m, table_rep (table s) m ->
       exists m', table_rep T' m' /\ forall id, m !! id = Some self -> m' !! id = Some self) ->
    free_slots_ T' <> [] \/ zlen (entries_ T') <= UINT32_MAX ->
    client_step s (s <| table := T' |>)
| step_env os' script' : client_step s (s <| os := os' |> <| script := script' |>).

(** One step of a connection on POSIX: one of those, an event of the poll thread, or a
    task. With [d = true] no [Disconnect] overtakes an attempt. *)
Inductive conn_step (d : bool) (s : conn) : conn -> Prop :=
| step_client s' : client_step s s' -> conn_step d s s'
| step_poll_event ev : valid (ev_id ev) = true -> conn_step d s (PostPollEvent ev s).2
| step_run : (d = true -> ~ overtakes s) -> conn_step d s (Run drain_round s).2.

(** The connection starts with the table, the timers and the poller of a running
    library. *)
Definition conn_reachable (d : bool) (T : ConnectionTable) (q : Q) (p : Poller) : conn -> Prop :=
  rtc (conn_step d) (conn_init T q p).

(** ** The invariant *)

Definition fd_ok (s : conn) : bool := IsValidSocketHandle (fd_ s).

(** The interest that matches the send buffer. *)
Definition interest_for (buf : Chunks byte) : Z :=
  if bool_decide (buf = []) then kPollReadable else Z.lor kPollReadable kPollWritable.

Definition task_ok (t : task) : Prop :=
  match t with
  | TStartClose r _ => r = CloseReason.kUser \/ r = CloseReason.kConnectFailed
  | TPollEvent ev => valid (ev_id ev) = true
  | TTimerEvent ev => valid (tid ev) = true
  | _ => True
  end.

(** The part that holds in every run. [input] are the received bytes that have not
    been delivered; between tasks it is the receive buffer. *)
Record inv_data (s : conn) (input : list byte) : Prop := {
  i_connected : connected_ s = bool_decide (state_ s = kConnected);
  i_state : state_ s <> kClosing;
  i_input : match codec with
            | Some decode => parsed decode (rx (session_of (trace s))) (msgs (session_of (trace s))) input
            | None => rx (session_of (trace s)) = input /\ msgs (session_of (trace s)) = []
            end;
  i_output : queued (session_of (trace s)) = sent (session_of (trace s)) ++ chunks_bytes (send_buffer_ s);
  i_pending : pending_bytes_ s = usize (zlen (chunks_bytes (send_buffer_ s)));
  i_quiet : connected_ s = false -> recv_buffer_ s = [] /\ send_buffer_ s = [];
  i_chunks : chunks_ok (send_buffer_ s);
  i_tasks : Forall task_ok (task_queue_ s);
  i_owner : accepting_tasks_ s = negb (owner_closing_ s);
  i_deferred : deferred_close_pending_ s = true ->
    deferred_close_reason_ s = CloseReason.kRemoteClosed \/ deferred_close_reason_ s = CloseReason.kError
}.

(** The registration in the connection table: this connection is found under its
    id, or there is room to register it. *)
Definition room (T : ConnectionTable) : Prop := free_slots_ T <> [] \/ zlen (entries_ T) <= UINT32_MAX.

Definition registered (T : ConnectionTable) (id : ConnectionId) : Prop :=
  exists m, table_rep T m /\
    if valid id then id_ok id /\ m !! id = Some self else room T.

(** The part that needs the discipline. First what also holds while an attempt is
    being carried out: callbacks, sockets, registration. *)
Record inv_base (s : conn) : Prop := {
  i_phase : exists p, phase_of (trace s) = Some p /\ (p = Up <-> connected_ s = true);
  i_sockets : sockets_of (trace s) = Some (if fd_ok s then [fd_ s] else []);
  i_id : valid (id_ s) = fd_ok s;
  i_table : registered (table s) (id_ s);
  i_fault : fault s = false
}.

(** The states of an attempt, and the poller; [win]: on Windows there is no interest to
    keep. *)
Record inv_core (s : conn) : Prop := {
  i_base : inv_base s;
  i_idle : state_ s = kIdle -> fd_ok s = false;
  i_up : connected_ s = true -> fd_ok s = true /\
         (win = false -> interest (poller s) !! fd_ s =
           Some {| ee_events := ToEpollEvents (poll_interest_ s); ee_u64 := ToUint64 (id_ s) |});
  i_attempts : accepting_tasks_ s = true ->
    attempts s = if bool_decide (state_ s = kConnecting) && negb (fd_ok s) then 1 else 0
}.

(** Between tasks the poller watches for writability exactly while there is
    something to send. *)
Definition inv_disc (s : conn) : Prop :=
  inv_core s /\ (win = false -> connected_ s = true -> poll_interest_ s = interest_for (send_buffer_ s)).

Definition inv_at (d : bool) (s : conn) (input : list byte) : Prop :=
  inv_data s input /\ (d = true -> inv_disc s).

Definition inv (d : bool) (s : conn) : Prop := inv_at d s (chunks_bytes (recv_buffer_ s)).

End Steps.
