(* ===== verification/ConnProofs.v ===== *)
(** * The connection: proofs

    Every operation of [Connection.v] preserves the invariant of [ConnInv.v]; the
    theorems at the end read it off the reachable states. *)

From S2P Require Import Prelude Codec SliceBuffer ConnTable Timer Poller Address Connection ConnInv.

(** ** Weakest preconditions *)

Section Wp.
Context {Q : Type}.
#[local] Abbreviation conn := (@Connection.conn Q).

Definition wp {A} (m : M A) (P : A -> conn -> Prop) (s : conn) : Prop := P (m s).1 (m s).2.

Lemma wp_bind {A B} (m : M A) (k : A -> M B) P s :
  wp (m ≫= k) P s <-> wp m (fun a s' => wp (k a) P s') s.
Proof. unfold wp, mbind, M_bind. by destruct (m s). Qed.

Lemma wp_mono {A} (m : M A) (P P' : A -> conn -> Prop) s :
  (forall a s', P a s' -> P' a s') -> wp m P s -> wp m P' s.
Proof. unfold wp. auto. Qed.

Lemma wp_ret {A} (a : A) (P : A -> conn -> Prop) s : wp (mret a) P s <-> P a s.
Proof. done. Qed.

Lemma wp_get (P : conn -> conn -> Prop) s : wp get P s <-> P s s.
Proof. done. Qed.

Lemma wp_modify f (P : unit -> conn -> Prop) s : wp (modify f) P s <-> P tt (f s).
Proof. done. Qed.

Lemma wp_emit e (P : unit -> conn -> Prop) s : wp (emit e) P s <-> P tt (s <| trace := e :: trace s |>).
Proof. done. Qed.

Lemma wp_when b m (P : unit -> conn -> Prop) s : wp (when b m) P s <-> if b then wp m P s else P tt s.
Proof. by destruct b. Qed.

End Wp.

Create Rewrite HintDb wp.
#[export] Hint Rewrite @wp_bind @wp_ret @wp_get @wp_modify @wp_emit @wp_when : wp.

(** Push [wp] through binds and primitive operations. *)
Ltac wp_simpl := autorewrite with wp; cbv beta.

(** ** System calls *)

Section Os.
Context {Q : Type}.
#[local] Abbreviation conn := (@Connection.conn Q).

(** A system call uses up one result, whatever it is. *)
Lemma sys_next_state (s : conn) :
  exists r, sys_next s = (r, s <| os := tail (os s) |>) /\ (os s = [] -> r = RInt (-1) EAGAIN).
Proof.
  unfold sys_next. destruct (os s) as [| r o] eqn:E; [exists (RInt (-1) EAGAIN) | by exists r].
  split; [| done]. destruct s. cbn in *. by subst.
Qed.

Lemma wp_sys_call (P : Z * Z -> conn -> Prop) s :
  (forall rc errno, (os s = [] -> rc = -1 /\ errno = EAGAIN) -> P (rc, errno) (s <| os := tail (os s) |>)) ->
  wp sys_call P s.
Proof.
  intros HP. unfold sys_call. wp_simpl. unfold wp. destruct (sys_next_state s) as (r & -> & Hr). cbn [fst snd].
  destruct r; apply HP; intros E; specialize (Hr E); by simplify_eq.
Qed.

(** Operations that only use up system call results. *)
Definition os_only {A} (m : @M Q A) : Prop :=
  forall s : conn, wp m (fun _ s' => exists o, s' = s <| os := o |>) s.

Lemma os_only_ret {A} (a : A) : os_only (mret a).
Proof. intros s. exists (os s). by destruct s. Qed.

Lemma os_only_bind {A B} (m : @M Q A) (k : A -> M B) : os_only m -> (forall a, os_only (k a)) -> os_only (m ≫= k).
Proof.
  intros Hm Hk s. rewrite wp_bind. eapply wp_mono; [| apply Hm]. intros a s1 [o ->].
  eapply wp_mono; [| apply Hk]. intros b s2 [o' ->]. by exists o'.
Qed.

Lemma os_only_call : os_only sys_call.
Proof. intros s. apply wp_sys_call. intros rc errno _. by eexists. Qed.

Lemma os_only_must ok : os_only (must_succeed ok).
Proof. apply os_only_bind; [apply os_only_call |]. intros [rc errno]. apply os_only_ret. Qed.

Lemma os_only_ignore b : os_only (ignore_call b).
Proof.
  destruct b; [| apply os_only_ret]. apply os_only_bind; [apply os_only_call |]. intros _. apply os_only_ret.
Qed.

End Os.

(** Decompose an operation into its system calls. *)
Ltac os_only_tac :=
  repeat match goal with
  | |- os_only (_ ≫= _) => apply os_only_bind
  | |- os_only (mret _) => apply os_only_ret
  | |- os_only sys_call => apply os_only_call
  | |- os_only (must_succeed _) => apply os_only_must
  | |- os_only (ignore_call _) => apply os_only_ignore
  | |- forall _, _ => intros ?
  | |- os_only (match ?e with _ => _ end) => destruct e
  end.

Section Proofs.
Context `{SizeT} `{PQ : PriorityQueue Q}.
Context (codec : option decode_fn).
(** The codec, if there is one, delimits frames of a stream. *)
Hypothesis codec_ok : forall decode, codec = Some decode -> StreamCodec decode.
Context (self : conn_ref) (win : bool).

#[local] Abbreviation conn := (@Connection.conn Q).
#[local] Abbreviation inv_data := (@inv_data _ Q codec).
#[local] Abbreviation inv_at := (@inv_at _ Q codec self win).
#[local] Abbreviation inv := (@inv _ Q codec self win).
#[local] Abbreviation inv_base := (@inv_base Q self).
#[local] Abbreviation inv_core := (@inv_core Q self win).
#[local] Abbreviation inv_disc := (@inv_disc Q self win).

(** ** Closing *)

(** The state in which [FinishClose] calls the handler. *)
Definition closed (s : conn) : conn :=
  let s := s <| state_ := kClosing |> <| connected_ := false |> <| connect_deadline_ms_ := 0 |> in
  let s := if valid (id_ s) then
             s <| poller := Poller_Remove (poller s) (fd_ s) |> <| table := Unregister (table s) (id_ s) |>
               <| id_ := ConnectionId_default |>
           else s in
  let s := (PlatformCloseSocket s).2 in
  let s := (ResetAfterClose s).2 in
  s <| state_ := kIdle |>.

(** The callback that reports a close. *)
Definition notification (reason : CloseReason.t) (desc : string) : option callback :=
  match reason with
  | CloseReason.kUser | CloseReason.kRelease => None
  | CloseReason.kConnectFailed | CloseReason.kConnectTimeout => Some (OnConnectFailed desc)
  | CloseReason.kRemoteClosed | CloseReason.kError => Some OnClosed
  end.

Lemma StartClose_with_eq cb reason desc s :
  StartClose_with true cb reason desc s =
  if decide (state_ s = kIdle \/ state_ s = kClosing) then (tt, s)
  else match notification reason desc with
       | Some c => cb c (closed s)
       | None => (tt, closed s)
       end.
Proof.
  unfold StartClose_with, FinishClose_with, closed, PlatformCloseSocket, ResetAfterClose, PlatformResetIoState, emit, when, get, modify,
    mret, M_ret, mbind, M_bind.
  destruct (decide _); [done |]. cbn.
  destruct (valid _), (IsValidSocketHandle _); cbn; by destruct reason.
Qed.

Lemma sockets_close fd tr fd' : sockets_of tr = Some [fd] -> fd' = fd -> sockets_of (EvClose fd' :: tr) = Some [].
Proof.
  intros E ->. cbn [sockets_of]. rewrite E. cbn [mbind option_bind list_difference].
  assert (Hin : fd ∈ [fd]) by (by apply list_elem_of_singleton).
  destruct (decide (fd ∈ [fd])); [| done]. by destruct (decide_rel _ fd [fd]).
Qed.

(** How [closed] differs from the state before. *)
Lemma closed_trace s :
  trace (closed s) = EvReset :: (if fd_ok s then EvClose (fd_ s) :: trace s else trace s).
Proof.
  unfold closed, PlatformCloseSocket, ResetAfterClose, PlatformResetIoState, emit, when, get, modify,
    mret, M_ret, mbind, M_bind, fd_ok.
  destruct (valid _); cbn; by destruct (IsValidSocketHandle _).
Qed.

Lemma closed_fields s :
  state_ (closed s) = kIdle /\ connected_ (closed s) = false /\ recv_buffer_ (closed s) = [] /\
  send_buffer_ (closed s) = [] /\ pending_bytes_ (closed s) = 0 /\ fd_ok (closed s) = false /\
  task_queue_ (closed s) = task_queue_ s /\ accepting_tasks_ (closed s) = accepting_tasks_ s /\
  owner_closing_ (closed s) = owner_closing_ s /\ resolving (closed s) = resolving s /\
  id_ (closed s) = (if valid (id_ s) then ConnectionId_default else id_ s) /\
  os (closed s) = os s /\ script (closed s) = script s /\ deferred_close_pending_ (closed s) = false /\
  table (closed s) = (if valid (id_ s) then Unregister (table s) (id_ s) else table s) /\ fault (closed s) = fault s.
Proof.
  unfold closed, PlatformCloseSocket, ResetAfterClose, PlatformResetIoState, emit, when, get, modify,
    mret, M_ret, mbind, M_bind, fd_ok.
  destruct (valid _); cbn; destruct (IsValidSocketHandle (fd_ s)) eqn:E; cbn; rewrite ?E; done.
Qed.

Lemma closed_pending s : parse_continuation_pending_ (closed s) = false.
Proof.
  unfold closed, PlatformCloseSocket, ResetAfterClose, PlatformResetIoState, emit, when, get, modify, mret, M_ret, mbind, M_bind.
  destruct (valid _); cbn; by destruct (IsValidSocketHandle (fd_ s)).
Qed.

#[local] Opaque closed.

Lemma inv_data_input s input (HI : inv_data s input) :
  forall s', session_of (trace s') = session_of (trace s) -> connected_ s' = connected_ s -> state_ s' = state_ s ->
  recv_buffer_ s' = recv_buffer_ s -> send_buffer_ s' = send_buffer_ s -> pending_bytes_ s' = pending_bytes_ s ->
  deferred_close_pending_ s' = deferred_close_pending_ s -> deferred_close_reason_ s' = deferred_close_reason_ s ->
  Forall task_ok (task_queue_ s') -> accepting_tasks_ s' = negb (owner_closing_ s') ->
  inv_data s' input.
Proof.
  intros s' Et Ec Es Er Esb Ep Edp Edr Hq Ho. destruct HI.
  split; rewrite ?Et, ?Ec, ?Es, ?Er, ?Esb, ?Ep, ?Edp, ?Edr; done.
Qed.

(** Unregistering frees the slot. *)
Lemma registered_closed T id :
  registered self T id ->
  registered self (if valid id then Unregister T id else T) (if valid id then ConnectionId_default else id).
Proof.
  intros (m & HR & Hid). destruct (valid id) eqn:Ev; [| exists m; by rewrite Ev].
  destruct Hid as [Hok Hm]. exists (delete id m). split; [apply Unregister_ok; [done | apply Hok] |]. cbn. left.
  unfold Unregister. rewrite Ev. cbn [negb].
  apply HR in Hm as [H0 He]. rewrite He. cbn. rewrite Z.eqb_refl. cbn.
  rewrite (proj2 (Z.leb_gt _ _)); [cbn; intros E; by apply app_nil in E as [_ ?] |].
  apply lookup_lt_Some in He. unfold zlen. lia.
Qed.

(** What a close needs of the members it does not reset. *)
Definition closable (s : conn) : Prop :=
  state_ s <> kClosing /\ Forall task_ok (task_queue_ s) /\ accepting_tasks_ s = negb (owner_closing_ s).

Lemma inv_data_closable s input : inv_data s input -> closable s.
Proof. intros []. by split_and!. Qed.

(** A close that is allowed leaves a consistent, idle connection. *)
Lemma closed_ok d s :
  closable s -> (d = true -> inv_base s) -> (d = true -> accepting_tasks_ s = true -> attempts s = 0) ->
  inv d (closed s) /\ (d = true -> phase_of (trace (closed s)) = Some (Ended (connected_ s))).
Proof.
  clear codec_ok. intros (_ & HD1 & HD2) HC Hatt. pose proof (closed_fields s) as (E1 & E2 & E3 & E4 & E5 & E6 & E7 & E8 & E9 & E10 & E11 & _ & _ & E12 & E13 & E14).
  pose proof (closed_trace s) as Et. split.
  - split.
    + split; rewrite ?E1, ?E2, ?E3, ?E4, ?E5, ?E7, ?E8, ?E9, ?E12, ?Et; try done.
      * cbn. destruct codec; [constructor | done].
      * by constructor.
    + intros Hd. specialize (HC Hd). destruct (i_phase _ _ HC) as (p & Hp & Hup).
      split; [split; [split | ..] |]; rewrite ?E1, ?E2, ?E6, ?E8, ?E13, ?E14; try done.
      * exists (Ended (match p with Up => true | _ => false end)). rewrite Et. cbn.
        split; [| done]. destruct (fd_ok s); cbn; rewrite Hp; done.
      * rewrite Et. cbn [sockets_of]. pose proof (i_sockets _ _ HC) as Hs. destruct (fd_ok s); [| done].
        by eapply sockets_close.
      * rewrite E11. destruct (valid (id_ s)) eqn:Ev; [done |]. by rewrite Ev.
      * rewrite E11. by apply registered_closed, HC.
      * apply HC.
      * cbn. unfold attempts. rewrite E7, E10. by apply Hatt.
  - intros Hd. destruct (i_phase _ _ (HC Hd)) as (p & Hp & Hup). rewrite Et. cbn.
    assert (Hb : (match p with Up => true | _ => false end) = connected_ s).
    { destruct Hup as [H1 H2]. destruct p, (connected_ s); try done; discriminate (H2 eq_refl) || discriminate (H1 eq_refl). }
    destruct (fd_ok s); cbn; rewrite Hp; cbn; by rewrite Hb.
Qed.

(** The discipline part depends on these members only. *)
Lemma inv_disc_ext (s s' : conn) :
  inv_disc s -> trace s' = trace s -> connected_ s' = connected_ s -> state_ s' = state_ s ->
  fd_ s' = fd_ s -> id_ s' = id_ s -> send_buffer_ s' = send_buffer_ s ->
  poll_interest_ s' = poll_interest_ s -> poller s' = poller s ->
  table s' = table s -> fault s' = fault s ->
  (accepting_tasks_ s' = true -> accepting_tasks_ s = true /\ attempts s' = attempts s) -> inv_disc s'.
Proof.
  intros [[[H1 H2 H3 HT HF] H4 H5 H6] H7] Et Ec Es Ef Ei Esb Epi Ep Eta Efa Ha.
  split; [split; [split | ..] |]; unfold fd_ok in *;
    rewrite ?Et, ?Ec, ?Es, ?Ef, ?Ei, ?Esb, ?Epi, ?Ep, ?Eta, ?Efa; try done.
  intros Hacc. destruct (Ha Hacc) as [? ->]. by apply H6.
Qed.

Definition keeps (s s' : conn) : Prop :=
  connected_ s' = connected_ s /\ recv_buffer_ s' = recv_buffer_ s /\ send_buffer_ s' = send_buffer_ s /\
  os s' = os s /\ (state_ s <> kIdle -> state_ s' = state_ s).

Lemma keeps_refl s : keeps s s.
Proof. done. Qed.

Lemma keeps_trans s1 s2 s3 : keeps s1 s2 -> keeps s2 s3 -> keeps s1 s3.
Proof.
  intros (A1 & A2 & A3 & A4 & A5) (B1 & B2 & B3 & B4 & B5). split_and!; try congruence.
  intros Hs. rewrite B5; rewrite A5; auto.
Qed.

(** Changing the task queue. *)
Lemma inv_queue d s input q :
  inv_at d s input -> Forall task_ok q ->
  (d = true -> accepting_tasks_ s = true -> zlen (filter is_attempt q) = zlen (filter is_attempt (task_queue_ s))) ->
  inv_at d (s <| task_queue_ := q |>) input.
Proof.
  intros [HD HC] Hq Ha. split.
  - eapply inv_data_input; [exact HD | done .. | exact (i_owner _ _ _ HD)].
  - intros Hd. eapply inv_disc_ext; [by apply HC | done .. |]. cbn. intros Hacc.
    split; [done |]. unfold attempts. cbn. by rewrite Ha.
Qed.

Lemma filter_attempt_snoc q t :
  filter is_attempt (q ++ [t]) = filter is_attempt q ++ (if is_attempt t then [t] else []).
Proof.
  rewrite list.filter_app. f_equal. rewrite filter_cons, filter_nil.
  destruct (is_attempt t); [by rewrite decide_True by exact I | by rewrite decide_False by auto].
Qed.

(** Posting a task that is not the outcome of an attempt. *)
Lemma Post_ok d s input t :
  inv_at d s input -> task_ok t -> is_attempt t = false ->
  wp (Post t) (fun _ s' => inv_at d s' input /\ keeps s s') s.
Proof.
  intros HI Ht Hna. unfold Post. wp_simpl. destruct (accepting_tasks_ s) eqn:Ea; wp_simpl; [| done]. split; [| done].
  apply inv_queue; [done | |].
  - apply list.Forall_app. split; [apply HI | by constructor].
  - intros _ _. by rewrite filter_attempt_snoc, Hna, app_nil_r.
Qed.

(** ** API calls of a callback *)

(** After a callback, or an operation that may call back: the session goes on with
    the same undelivered input, or it is over. *)
Definition went_on (d : bool) (s : conn) (input : list byte) (s' : conn) : Prop :=
  (keeps s s' /\ inv_at d s' input) \/ (connected_ s' = false /\ inv d s').

Lemma went_on_trans d s1 s2 s3 input :
  went_on d s1 input s2 -> (connected_ s2 = false -> inv d s2 -> connected_ s3 = false /\ inv d s3) ->
  (keeps s1 s2 -> inv_at d s2 input -> went_on d s2 input s3) -> went_on d s1 input s3.
Proof.
  intros [[Hk HI] | [Hc HI]] Hover Hon; [| right; auto].
  destruct (Hon Hk HI) as [[Hk' HI'] | ?]; [left; eauto using keeps_trans | by right].
Qed.

Lemma inv_closed_input d s : inv d s -> connected_ s = false -> inv_at d s [].
Proof. intros HI Hc. unfold ConnInv.inv in HI. by rewrite (proj1 (i_quiet _ _ _ (proj1 HI) Hc)) in HI. Qed.

Lemma inv_at_closed d s : inv_at d s [] -> connected_ s = false -> inv d s.
Proof. intros HI Hc. unfold ConnInv.inv. by rewrite (proj1 (i_quiet _ _ _ (proj1 HI) Hc)). Qed.

(** The caller of [Connect] that finds [kIdle] has the attempt. *)
Lemma inv_begin d s input q n :
  inv_at d s input -> state_ s = kIdle -> Forall task_ok q ->
  (d = true -> accepting_tasks_ s = true -> Z.of_nat n + zlen (filter is_attempt q) = attempts s + 1) ->
  inv_at d (s <| state_ := kConnecting |> <| connected_ := false |> <| task_queue_ := q |> <| resolving := n |>) input.
Proof.
  intros HI Es Hq Ha. assert (Hc : connected_ s = false) by (rewrite (i_connected _ _ _ (proj1 HI)), Es; done).
  destruct HI as [HD HC]. split.
  - destruct HD. split; cbn; try done. by rewrite Hc in *.
  - intros Hd. specialize (HC Hd). destruct HC as [[[H1 H2 H3 HT HF] H4 H5 H6] H7]. rewrite Hc in *.
    split; [split; [split | ..] |]; cbn; try done. intros Hacc. specialize (Ha Hd Hacc).
    specialize (H6 Hacc). rewrite (bool_decide_false (state_ s = kConnecting)) in H6 by congruence.
    unfold attempts in *. cbn in *. rewrite bool_decide_true by done.
    unfold fd_ok in *. cbn. rewrite (H4 Es). cbn. lia.
Qed.

(** What both outcomes of [Connect_end] have in common. *)
Lemma Connect_end_Post r (P : bool -> conn -> Prop) s :
  (forall t b, is_attempt t = true -> task_ok t -> wp (Post t;; mret b) P s) -> wp (Connect_end r) P s.
Proof.
  intros HP. unfold Connect_end. destruct r as [[e |] [[| addr addrs] |]]; apply HP; cbn; auto.
Qed.

(** [Connect] from inside a callback. *)
Lemma Connect_ok d s input r :
  inv_at d s input -> wp (Connect (Some r)) (fun _ s' => inv_at d s' input /\ keeps s s') s.
Proof.
  intros HI. unfold Connect, Connect_begin. wp_simpl. destruct (decide (state_ s = kIdle)) as [Es | Es]; wp_simpl; [| done].
  set (s1 := s <| state_ := kConnecting |> <| connected_ := false |>).
  assert (Hc : connected_ s = false) by (rewrite (i_connected _ _ _ (proj1 HI)), Es; done).
  assert (Hk : forall q, keeps s (s1 <| task_queue_ := q |>)) by (intros q; split_and!; cbn; auto; by intros ?).
  apply Connect_end_Post. intros t b Hat Ht. unfold Post. wp_simpl. destruct (accepting_tasks_ s1) eqn:Ea; wp_simpl.
  - split; [| apply Hk]. apply (inv_begin d s input (task_queue_ s ++ [t]) (resolving s)); [done | done | |].
    + apply list.Forall_app. split; [apply HI | by constructor].
    + intros _ _. rewrite filter_attempt_snoc, Hat. unfold attempts. zlia.
  - split; [| apply (Hk (task_queue_ s))]. cbn in Ea.
    apply (inv_begin d s input (task_queue_ s) (resolving s)); [done | done | apply HI | congruence].
Qed.

(** [CloseFromOwner] from inside a callback. *)
Lemma CloseFromOwner_draining_ok d s input :
  inv_at d s input -> wp (CloseFromOwner_draining true) (fun _ s' => went_on d s input s') s.
Proof.
  intros HI. unfold CloseFromOwner_draining, DrainTaskQueue. wp_simpl.
  set (s1 := s <| owner_closing_ := true |> <| accepting_tasks_ := false |> <| task_queue_ := [] |>).
  assert (H1 : inv_at d s1 input).
  { destruct HI as [HD HC]. split.
    - by eapply inv_data_input.
    - intros Hd. by eapply inv_disc_ext; [apply HC | ..]. }
  unfold wp. rewrite StartClose_with_eq. destruct (decide _) as [Hs | Hs]; cbn.
  - by left.
  - right. destruct (closed_fields s1) as (_ & Ec & _). split; [done |].
    by destruct (closed_ok d s1 (inv_data_closable _ _ (proj1 H1)) (fun Hd => i_base _ _ _ (proj1 (proj2 H1 Hd)))).
Qed.

Lemma run_api_ok d s input call :
  inv_at d s input -> wp (run_api true call) (fun _ s' => went_on d s input s') s.
Proof.
  intros HI. destruct call as [r | | data |]; cbn [run_api].
  - wp_simpl. eapply wp_mono; [| by apply Connect_ok]. intros b s' [? ?]. by left.
  - eapply wp_mono; [| apply Post_ok; [exact HI | by left | done]]. intros b s' [? ?]. by left.
  - unfold SendBuffer, IsConnected. destruct data as [| x data]; wp_simpl; [by left |].
    destruct (connected_ s); cbn [negb]; wp_simpl; [| by left].
    eapply wp_mono; [| by apply Post_ok]. intros b s' [? ?]. by left.
  - by apply CloseFromOwner_draining_ok.
Qed.

Lemma run_apis_ok d calls : forall s input,
  inv_at d s input -> wp (run_apis true calls) (fun _ s' => went_on d s input s') s.
Proof.
  induction calls as [| call calls IH]; intros s input HI; cbn [run_apis]; wp_simpl; [by left |].
  eapply wp_mono; [| by apply run_api_ok]. intros _ s2 [[Hk HI2] | [Hc HI2]].
  - eapply wp_mono; [| by apply IH]. intros _ s3 [[Hk3 HI3] | ?]; [left; eauto using keeps_trans | by right].
  - eapply wp_mono; [| apply (IH s2 []); by apply inv_closed_input].
    intros _ s3 [[Hk3 HI3] | ?]; right; [| done]. assert (connected_ s3 = false) by (destruct Hk3; congruence).
    split; [done | by apply inv_at_closed].
Qed.

(** A callback is called in a state that is consistent once the call is on the trace. *)
Lemma run_callback_ok d s input cb :
  inv_at d (s <| trace := EvCallback cb :: trace s |>) input ->
  wp (run_callback true cb) (fun _ s' => went_on d s input s') s.
Proof.
  intros HI. unfold run_callback. wp_simpl.
  set (s1 := s <| trace := EvCallback cb :: trace s |>) in *.
  unfold wp at 1, next_script. destruct (script s1) as [| calls script']; cbn [fst snd].
  - by left.
  - set (s2 := s1 <| script := script' |>).
    assert (H2 : inv_at d s2 input) by (destruct HI as [HD HC]; split; [by eapply inv_data_input; try apply HD |];
      intros Hd; by eapply inv_disc_ext; [apply HC | ..]).
    eapply wp_mono; [| by apply run_apis_ok]. intros _ s' [[Hk HI'] | ?]; [by left | by right].
Qed.

(** A callback other than [OnMessage] that the protocol allows. *)
Lemma inv_callback d s input c :
  inv_at d s input -> (forall m, c <> OnMessage m) ->
  (d = true -> exists p, phase_of (EvCallback c :: trace s) = Some p /\ (p = Up <-> connected_ s = true)) ->
  inv_at d (s <| trace := EvCallback c :: trace s |>) input.
Proof.
  intros [HD HC] Hnm Hp. split.
  - eapply inv_data_input; [exact HD | | done .. | exact (i_tasks _ _ _ HD) | exact (i_owner _ _ _ HD)].
    cbn. destruct c as [| r | m |]; try done. by destruct (Hnm m).
  - intros Hd. destruct (HC Hd) as [[[] ? ? ?] ?]. split; [split; [split | ..] |]; cbn; try done. by apply Hp.
Qed.

(** The kind of a close must fit: a lost connection is reported by [OnClosed], a
    failed attempt by [OnConnectFailed]. *)
Definition reason_fits (reason : CloseReason.t) (connected : bool) : Prop :=
  match reason with
  | CloseReason.kConnectFailed | CloseReason.kConnectTimeout => connected = false
  | CloseReason.kRemoteClosed | CloseReason.kError => connected = true
  | _ => True
  end.

Lemma StartClose_closable d s reason desc :
  closable s -> (d = true -> inv_base s) ->
  (d = true -> state_ s <> kIdle -> reason_fits reason (connected_ s) /\ (accepting_tasks_ s = true -> attempts s = 0)) ->
  wp (StartClose true reason desc)
    (fun _ s' => (state_ s = kIdle /\ s' = s) \/ (connected_ s' = false /\ inv d s')) s.
Proof.
  intros HD HC Hpre. unfold wp, StartClose. rewrite StartClose_with_eq.
  destruct (decide _) as [[Hs | Hs] | Hs]; cbn; [by left | by destruct HD |].
  right. assert (Hni : state_ s <> kIdle) by auto.
  destruct (closed_ok d s HD HC) as [Hcl Hph]; [intros Hd; by apply Hpre |].
  pose proof (closed_fields s) as (_ & Ec & _).
  assert (Hcb : forall c, (forall m, c <> OnMessage m) -> (d = true -> exists p, p <> Up /\ phase_step (Ended (connected_ s)) (EvCallback c) = Some p) ->
    connected_ (run_callback true c (closed s)).2 = false /\ inv d (run_callback true c (closed s)).2).
  { intros c Hnm Hstep. assert (HI' : inv_at d ((closed s) <| trace := EvCallback c :: trace (closed s) |>) []).
    { apply inv_callback; [by apply inv_closed_input | done |]. intros Hd. destruct (Hstep Hd) as (p & Hp & Hst).
      exists p. cbn [phase_of]. rewrite (Hph Hd), Ec. by split. }
    destruct (run_callback_ok d (closed s) [] c HI') as [[Hk HI2] | [? ?]]; [| done].
    assert (connected_ (run_callback true c (closed s)).2 = false) by (destruct Hk; congruence).
    split; [done | by apply inv_at_closed]. }
  destruct reason; cbn [notification]; try done; apply Hcb; try done;
    intros Hd; destruct (Hpre Hd Hni) as [Hf _]; cbn in Hf; rewrite Hf; by exists Down.
Qed.

Lemma StartClose_ok d s input reason desc :
  inv_data s input -> (d = true -> inv_base s) ->
  (d = true -> state_ s <> kIdle -> reason_fits reason (connected_ s) /\ (accepting_tasks_ s = true -> attempts s = 0)) ->
  wp (StartClose true reason desc)
    (fun _ s' => (state_ s = kIdle /\ s' = s) \/ (connected_ s' = false /\ inv d s')) s.
Proof. intros HD. by eapply StartClose_closable, inv_data_closable. Qed.

(** Members the invariant does not look at. *)
Lemma inv_ext d s s' input :
  inv_at d s input -> trace s' = trace s -> connected_ s' = connected_ s -> state_ s' = state_ s ->
  recv_buffer_ s' = recv_buffer_ s -> send_buffer_ s' = send_buffer_ s -> pending_bytes_ s' = pending_bytes_ s ->
  deferred_close_pending_ s' = deferred_close_pending_ s -> deferred_close_reason_ s' = deferred_close_reason_ s ->
  task_queue_ s' = task_queue_ s -> owner_closing_ s' = owner_closing_ s -> accepting_tasks_ s' = accepting_tasks_ s ->
  fd_ s' = fd_ s -> id_ s' = id_ s -> poll_interest_ s' = poll_interest_ s -> poller s' = poller s ->
  resolving s' = resolving s -> table s' = table s -> fault s' = fault s -> inv_at d s' input.
Proof.
  intros [HD HC] Et Ec Es Er Esb Ep Edp Edr Eq Eo Ea Ef Ei Epi Epo Ere Eta Efa. split.
  - eapply inv_data_input; [exact HD | by rewrite Et | done .. | |]; rewrite ?Eq, ?Eo, ?Ea; apply HD.
  - intros Hd. eapply inv_disc_ext; [by apply HC | done .. |]. unfold attempts. by rewrite Eq, Ere, Ea.
Qed.

(** ** Closing a connected session *)

Lemma inv_attempts_connected d s input :
  inv_data s input -> (d = true -> inv_core s) -> connected_ s = true -> d = true -> accepting_tasks_ s = true ->
  attempts s = 0.
Proof.
  intros HD HC Hc Hd Ha. rewrite (i_attempts _ _ _ (HC Hd) Ha). rewrite (i_connected _ _ _ HD) in Hc.
  apply bool_decide_eq_true in Hc. by rewrite Hc.
Qed.

Lemma StartClose_core d s input reason desc :
  inv_data s input -> (d = true -> inv_core s) -> connected_ s = true -> reason_fits reason true ->
  wp (StartClose true reason desc) (fun _ s' => connected_ s' = false /\ inv d s') s.
Proof.
  intros HD HC Hc Hr. eapply wp_mono; [| apply (StartClose_ok d s input); [done | intros Hd; by apply HC |]].
  - intros _ s' [[Hs ->] | ?]; [| done]. rewrite (i_connected _ _ _ HD), Hs in Hc. done.
  - intros Hd _. rewrite Hc. split; [done |]. by eapply inv_attempts_connected.
Qed.

Lemma StartClose_connected d s input reason desc :
  inv_at d s input -> connected_ s = true -> reason_fits reason true ->
  wp (StartClose true reason desc) (fun _ s' => connected_ s' = false /\ inv d s') s.
Proof. intros [HD HC]. apply (StartClose_core d s input); [done | intros Hd; by apply HC]. Qed.

(** What [ParseInput] and its ends report. *)
Definition parse_post (d : bool) (r : ParseStatus) (s' : conn) : Prop :=
  inv d s' /\ (r = kClosed <-> connected_ s' = false).

Lemma parse_finish_ok d s :
  inv d s -> connected_ s = true -> wp (parse_finish true) (parse_post d) s.
Proof.
  intros HI Hc. unfold parse_finish, FinishDeferredClose, IsConnected. wp_simpl.
  destruct (deferred_close_pending_ s) eqn:Ed; wp_simpl.
  - pose proof (i_deferred _ _ _ (proj1 HI) Ed) as Hr.
    set (s1 := s <| deferred_close_pending_ := false |> <| deferred_close_desc_ := ""%string |>).
    assert (H1 : inv_at d s1 (chunks_bytes (recv_buffer_ s))).
    { destruct HI as [HD HC]. split.
      - destruct HD. by split.
      - intros Hd. by eapply inv_disc_ext; [apply HC | ..]. }
    eapply wp_mono; [| apply (StartClose_connected d s1 _ _ _ H1 Hc)].
    + intros _ s' [Hc' HI']. wp_simpl. split; [done |]. by rewrite Hc'.
    + by destruct Hr as [-> | ->].
  - split; [done |]. by rewrite Hc.
Qed.

(** ** Input *)

(** Delivering a frame. *)
Lemma inv_message d s decode data n :
  inv_at d s data -> connected_ s = true -> codec = Some decode ->
  decode data = (DecodeResult.kSuccess, n) -> 0 < n <= zlen data ->
  inv_at d (s <| trace := EvCallback (OnMessage (ztake n data)) :: trace s |>) (zdrop n data).
Proof.
  intros [HD HC] Hc Hcod Hdec Hn. split.
  - destruct HD. split; cbn; try done. rewrite Hcod in *. by apply parsed_snoc.
  - intros Hd. destruct (HC Hd) as [[[(p & Hp & Hup) ? ? ? ?] ? ? ?] ?].
    split; [split; [split | ..] |]; cbn; try done. exists Up. rewrite Hp. cbn. split; [| done]. by rewrite (proj2 Hup Hc).
Qed.

Lemma parse_loop_ok d decode budget : forall s data offset buf,
  codec = Some decode -> inv_at d s data -> connected_ s = true -> recv_buffer_ s = buf ->
  0 <= offset <= zlen (chunks_bytes buf) -> data = zdrop offset (chunks_bytes buf) ->
  wp (parse_loop true budget decode data offset)
    (fun r s' => match r with
     | None => connected_ s' = false /\ inv d s'
     | Some (off', b') =>
         connected_ s' = true /\ recv_buffer_ s' = buf /\ 0 <= off' <= zlen (chunks_bytes buf) /\
         inv_at d s' (zdrop off' (chunks_bytes buf)) /\
         (b' = O \/ (frames decode (zdrop off' (chunks_bytes buf))).1.1 = [])
     end) s.
Proof.
  induction budget as [| budget IH]; intros s data offset buf Hcod HI Hc Hbuf Hoff Hdata; cbn [parse_loop].
  { wp_simpl. rewrite <- Hdata. auto 10. }
  pose proof (codec_ok decode Hcod) as HSC.
  destruct (Z.eqb_spec (zlen data) 0) as [Hz | Hz].
  { wp_simpl. rewrite <- Hdata. apply zlen_0 in Hz. rewrite Hz, frames_nil. rewrite Hz in HI. auto 10. }
  assert (Hne : exists x l, data = x :: l) by (destruct data; [done | eauto]).
  destruct (decode data) as [result consumed] eqn:Hdec. destruct result.
  - pose proof (codec_bounds _ _ Hdec) as Hn.
    destruct (Z.eqb_spec consumed 0), (Z.ltb_spec (zlen data) consumed); try lia. cbn [orb].
    wp_simpl. unfold IsConnected.
    eapply wp_mono; [| apply (run_callback_ok d s (zdrop consumed data)); by eapply inv_message].
    intros [] s1 Hs1. wp_simpl. destruct (connected_ s1) eqn:Hc1; cbn [negb]; wp_simpl.
    + destruct Hs1 as [[Hk HI1] | [? _]]; [| congruence]. destruct Hk as (_ & Hr1 & _).
      assert (Hlen : zlen data = zlen (chunks_bytes buf) - offset) by (rewrite Hdata; by apply zlen_zdrop).
      apply IH; [done | done | done | congruence | lia |].
      rewrite Hdata, zdrop_zdrop by lia. done.
    + split; [done |]. destruct Hs1 as [[Hk HI1] | [_ ?]]; [| done].
      exfalso. destruct Hk as [Hk _]. congruence.
  - wp_simpl. rewrite <- Hdata. split; [done |]. split; [done |]. split; [done |]. split; [done |]. right.
    rewrite frames_unfold by done. destruct Hne as (x & l & ->). by rewrite Hdec.
  - wp_simpl. eapply wp_mono; [| by eapply StartClose_connected]. intros [] s' Hs'. by wp_simpl.
Qed.

Lemma ParseInput_ok_codec d s c :
  c = codec -> inv d s -> connected_ s = true -> wp (ParseInput true c) (parse_post d) s.
Proof.
  intros Hcod HI Hc. unfold ParseInput. wp_simpl.
  set (s1 := s <| parse_continuation_pending_ := false |>).
  assert (H1 : inv d s1) by (by eapply inv_ext).
  destruct c as [decode |]; [| by apply parse_finish_ok]. cbn [negb]. wp_simpl.
  destruct (Z.eqb_spec (zlen (chunks_bytes (recv_buffer_ s1))) 0) as [Hz | Hz]; [by apply parse_finish_ok |].
  wp_simpl. eapply wp_mono; [| eapply (parse_loop_ok d decode); [done | exact H1 | done | done | | done]].
  2: { split; [lia | apply zlen_nonneg]. }
  intros [[off b] |] s2; cbn beta iota; wp_simpl; [| intros [? ?]; by split].
  intros (Hc2 & Hr2 & Hoff & HI2 & _). set (buf := recv_buffer_ s1) in *.
  set (mv := if 0 <? off then recv_MoveHeader off else mret true).
  assert (Hmv : wp mv (fun r s3 => r = true /\ connected_ s3 = true /\ inv d s3) s2).
  { unfold mv. destruct (Z.ltb_spec 0 off).
    - unfold recv_MoveHeader. wp_simpl. rewrite Hr2, (proj2 (Z.ltb_ge _ off)) by lia. wp_simpl.
      split; [done |]. split; [done |].
      unfold ConnInv.inv. cbn [recv_buffer_]. destruct HI2 as [HD HC]. split.
      + cbn. rewrite Hr2, chunks_drop_bytes by lia. destruct HD. split; try done. intros Hq. cbn in Hq. congruence.
      + intros Hd. by eapply inv_disc_ext; [apply HC | ..].
    - wp_simpl. split; [done |]. split; [done |]. assert (off = 0) as -> by lia.
      unfold ConnInv.inv. by rewrite Hr2. }
  eapply wp_mono; [| exact Hmv]. intros moved s3 (-> & Hc3 & HI3). cbn [negb]. wp_simpl.
  destruct (_ && connected_ s3) eqn:E; [| by apply parse_finish_ok].
  unfold ScheduleParseContinuation. wp_simpl.
  destruct (negb (parse_continuation_pending_ s3)); wp_simpl.
  - eapply wp_mono; [| apply (Post_ok d _ (chunks_bytes (recv_buffer_ s3))); [by eapply inv_ext | done | done]].
    intros _ s4 [HI4 (Hk1 & Hk2 & _)]. wp_simpl. split; [| cbn in *; rewrite Hk1, Hc3; done].
    unfold ConnInv.inv. cbn in Hk2 |- *. rewrite Hk2. by eapply inv_ext.
  - split; [by eapply inv_ext | cbn; by rewrite Hc3].
Qed.

Lemma ParseInput_ok d s :
  inv d s -> connected_ s = true -> wp (ParseInput true codec) (parse_post d) s.
Proof. by apply ParseInput_ok_codec. Qed.

(** ** Output *)

Lemma fd_ok_valid d s input :
  inv_at d s input -> d = true -> connected_ s = true -> valid (id_ s) = true /\ fd_ok s = true.
Proof.
  intros [_ HC] Hd Hc. destruct (HC Hd) as [HK _]. destruct (i_up _ _ _ HK Hc) as [Hf _].
  by rewrite (i_id _ _ (i_base _ _ _ HK)), Hf.
Qed.

(** A successful registration change. *)
Lemma inv_core_modify (s : conn) i o :
  inv_core s -> fd_ok s = true ->
  let ev := {| ee_events := ToEpollEvents i; ee_u64 := ToUint64 (id_ s) |} in
  inv_core (s <| os := o |>
    <| poller := {| poll_fd_ := poll_fd_ (poller s); wake_fd_ := wake_fd_ (poller s);
                    interest := <[fd_ s := ev]> (interest (poller s)); open_fds := open_fds (poller s) |} |>
    <| poll_interest_ := i |>).
Proof.
  intros [[H1 H2 H3 HT HF] H4 H5 H6] Hf ev. split; [split | ..]; cbn; try done.
  intros _. split; [done | intros _; apply lookup_insert_eq].
Qed.

(** [UpdateWriteInterest] brings the interest in line with the send buffer, or ends
    the session. *)
Lemma UpdateWriteInterest_ok d s F :
  inv_data s (chunks_bytes (recv_buffer_ s)) -> (d = true -> inv_core s) -> connected_ s = true ->
  wp (UpdateWriteInterest true F) (fun _ s' => inv d s') s.
Proof.
  intros HD HC Hc. unfold UpdateWriteInterest, UpdateWriteInterest_with. wp_simpl.
  destruct (negb (valid (id_ s)) || negb (IsValidSocketHandle (fd_ s))) eqn:Ev.
  { wp_simpl. split; [done |]. intros Hd. exfalso. specialize (HC Hd).
    destruct (i_up _ _ _ HC Hc) as [Hf _]. rewrite (i_id _ _ (i_base _ _ _ HC)), Hf in Ev. unfold fd_ok in Hf. by rewrite Hf in Ev. }
  unfold PlatformStartSend. wp_simpl. fold (interest_for (send_buffer_ s)).
  destruct (Z.eqb_spec (interest_for (send_buffer_ s)) (poll_interest_ s)) as [Ei | Ei].
  { wp_simpl. split; [done |]. intros Hd. split; [by apply HC | done]. }
  wp_simpl. apply wp_sys_call. intros rc errno _. wp_simpl.
  unfold Poller_Modify, epoll_ctl_set. destruct ((rc =? 0) && _); wp_simpl; cbn [negb]; wp_simpl.
  - split; [by eapply inv_data_input; try apply HD |]. intros Hd. specialize (HC Hd). split; [| done].
    apply inv_core_modify; [done | by apply (i_up _ _ _ HC Hc)].
  - eapply wp_mono; [| eapply (StartClose_core d _ (chunks_bytes (recv_buffer_ s)))]; cbn; [by intros u s' [_ ?] | | | done | done].
    + by eapply inv_data_input; try apply HD.
    + intros Hd. destruct (HC Hd) as [[] ? ? ?]. by split; [split | ..].
Qed.

Lemma usize_usize_sub a b : usize (usize a - b) = usize (a - b).
Proof. unfold usize, wrap. apply Zminus_mod_idemp_l. Qed.

Lemma usize_usize_add a b : usize (usize a + b) = usize (a + b).
Proof. unfold usize, wrap. apply Zplus_mod_idemp_l. Qed.

(** The kernel takes [n] bytes off the front of the send buffer. *)
Lemma inv_sent s input n o :
  inv_data s input -> connected_ s = true -> 0 <= n <= zlen (chunks_bytes (send_buffer_ s)) ->
  inv_data (s <| os := o |> <| trace := EvSent (ztake n (chunks_bytes (send_buffer_ s))) :: trace s |>
              <| bytes_sent_ := u64 (bytes_sent_ s + n) |>
              <| pending_bytes_ := usize (pending_bytes_ s - n) |>
              <| send_buffer_ := chunks_drop n (send_buffer_ s) |>) input.
Proof.
  intros [D1 D2 D3 D4 D5 D6 D7 D8 D9] Hc Hn. split; cbn -[chunks_bytes chunks_drop]; try done.
  - by rewrite D4, chunks_drop_bytes, <- app_assoc, ztake_zdrop by lia.
  - by rewrite D5, usize_usize_sub, chunks_drop_bytes, zlen_zdrop by lia.
  - congruence.
  - apply chunks_drop_ok; [lia | done].
Qed.

Lemma inv_sent_nothing s input o :
  inv_data s input -> inv_data (s <| os := o |> <| trace := EvSent [] :: trace s |>) input.
Proof. intros HD. destruct HD as [D1 D2 D3 D4]. split; cbn; try done. by rewrite app_nil_r. Qed.

(** The core depends on these members only. *)
Lemma inv_core_ext (s s' : conn) :
  inv_core s -> phase_of (trace s') = phase_of (trace s) -> sockets_of (trace s') = sockets_of (trace s) ->
  connected_ s' = connected_ s -> state_ s' = state_ s -> fd_ s' = fd_ s -> id_ s' = id_ s ->
  poll_interest_ s' = poll_interest_ s -> poller s' = poller s ->
  table s' = table s -> fault s' = fault s ->
  (accepting_tasks_ s' = true -> accepting_tasks_ s = true /\ attempts s' = attempts s) -> inv_core s'.
Proof.
  intros [[H1 H2 H3 HT HF] H4 H5 H6] Et Ek Ec Es Ef Ei Epi Ep Eta Efa Ha.
  split; [split | ..]; unfold fd_ok in *; rewrite ?Et, ?Ek, ?Ec, ?Es, ?Ef, ?Ei, ?Epi, ?Ep, ?Eta, ?Efa; try done.
  intros Hacc. destruct (Ha Hacc) as [? ->]. by apply H6.
Qed.

Lemma phase_emit tr e : (forall p, phase_step p e = Some p) -> phase_of (e :: tr) = phase_of tr.
Proof. intros He. cbn. destruct (phase_of tr); cbn; auto. Qed.

(** As [inv_ext], after an event that is not one of the session, the callbacks or the
    sockets. *)
Lemma inv_ext_io d s s' input e :
  inv_at d s input -> (forall p, phase_step p e = Some p) ->
  session_of (trace s') = session_of (trace s) -> sockets_of (trace s') = sockets_of (trace s) ->
  trace s' = e :: trace s -> connected_ s' = connected_ s -> state_ s' = state_ s ->
  recv_buffer_ s' = recv_buffer_ s -> send_buffer_ s' = send_buffer_ s -> pending_bytes_ s' = pending_bytes_ s ->
  deferred_close_pending_ s' = deferred_close_pending_ s -> deferred_close_reason_ s' = deferred_close_reason_ s ->
  task_queue_ s' = task_queue_ s -> owner_closing_ s' = owner_closing_ s -> accepting_tasks_ s' = accepting_tasks_ s ->
  fd_ s' = fd_ s -> id_ s' = id_ s -> poll_interest_ s' = poll_interest_ s -> poller s' = poller s ->
  resolving s' = resolving s -> table s' = table s -> fault s' = fault s -> inv_at d s' input.
Proof.
  intros [HD HC] Hp Es Ek Et Ec Est Er Esb Ep Edp Edr Eq Eo Ea Ef Ei Epi Epo Ere Eta Efa. split.
  - eapply inv_data_input; [exact HD | done .. | |]; rewrite ?Eq, ?Eo, ?Ea; apply HD.
  - intros Hd. destruct (HC Hd) as [HK Hi]. split; [| by rewrite Ec, Epi, Esb].
    eapply inv_core_ext; [exact HK | rewrite Et; by apply phase_emit | done .. |]. unfold attempts. by rewrite Eq, Ere, Ea.
Qed.

Lemma writable_loop_ok d F fuel : forall bytes s,
  inv_data s (chunks_bytes (recv_buffer_ s)) -> (d = true -> inv_core s) -> connected_ s = true ->
  (length (os s) < fuel)%nat ->
  wp (writable_loop true F fuel bytes) (fun _ s' => inv d s') s.
Proof.
  induction fuel as [| fuel IH]; intros bytes s HD HC Hc Hf; [lia |]. cbn [writable_loop].
  destruct (negb _); [by apply UpdateWriteInterest_ok |]. wp_simpl.
  destruct (send_buffer_ s) as [| front rest] eqn:Es; [by apply UpdateWriteInterest_ok |].
  unfold sys_send. wp_simpl. apply wp_sys_call. intros rc errno Hos. wp_simpl.
  set (s1 := s <| os := tail (os s) |>).
  assert (HD1 : inv_data s1 (chunks_bytes (recv_buffer_ s))) by (by eapply inv_data_input; try apply HD).
  assert (HC1 : d = true -> inv_core s1) by (intros Hd; by eapply inv_core_ext; [apply HC | ..]).
  assert (Hlen : os s <> [] -> (length (os s1) < fuel)%nat) by (cbn; destruct (os s); [done | cbn in *; lia]).
  destruct (Z.ltb_spec rc 0) as [Hrc | Hrc]; wp_simpl; cbn [Z.ltb Z.compare].
  - destruct (Z.eqb_spec errno EINTR) as [He | He].
    + apply IH; try done. apply Hlen. intros E. destruct (Hos E). unfold EINTR, EAGAIN in *. lia.
    + destruct (errno =? EAGAIN); [by apply UpdateWriteInterest_ok |].
      eapply wp_mono; [| by eapply (StartClose_core d s1)]. by intros u s' [_ ?].
  - assert (Hne : os s <> []) by (intros E; destruct (Hos E); lia).
    set (n := Z.min rc (zlen front)). pose proof (zlen_nonneg front).
    rewrite (proj2 (Z.ltb_ge n 0)) by lia.
    destruct (Z.eqb_spec n 0) as [Hn | Hn].
    + apply UpdateWriteInterest_ok; [| | done].
      * cbn. rewrite Hn. by apply inv_sent_nothing.
      * intros Hd. eapply inv_core_ext; [by apply HC | | done ..]. by apply phase_emit.
    + wp_simpl. apply IH; cbn; try done; [| | by apply Hlen].
      * assert (Hb : chunks_bytes (send_buffer_ s) = front ++ chunks_bytes rest) by (by rewrite Es).
        rewrite <- (ztake_app_le n front (chunks_bytes rest)), <- Hb by lia. apply inv_sent; [done | done | rewrite Hb; zlia].
      * intros Hd. eapply inv_core_ext; [by apply HC | | done ..]. by apply phase_emit.
Qed.

Lemma PlatformHandleWritable_ok d s F :
  inv d s -> connected_ s = true -> wp (PlatformHandleWritable true F) (fun _ s' => inv d s') s.
Proof.
  intros [HD HC] Hc. unfold PlatformHandleWritable. wp_simpl.
  apply writable_loop_ok; [done | intros Hd; by apply HC | done | lia].
Qed.

(** ** Reading *)

(** Received bytes are appended to the receive buffer. *)
Lemma inv_received d s bytes o :
  inv d s -> connected_ s = true ->
  inv d (s <| os := o |> <| trace := EvRecv bytes :: trace s |>
           <| bytes_received_ := u64 (bytes_received_ s + zlen bytes) |>
           <| recv_buffer_ := chunks_add (recv_buffer_ s) bytes |>).
Proof.
  intros [HD HC] Hc. unfold ConnInv.inv. cbn -[chunks_bytes chunks_add]. split.
  - rewrite chunks_add_bytes. destruct HD as [D1 D2 D3 D4 D5 D6 D7 D8 D9]. split; cbn -[chunks_bytes]; try done.
    + pose proof codec_ok as Hco. destruct codec as [decode |]; [| by destruct D3 as [-> ->]].
      apply parsed_app; [by apply Hco | done].
    + congruence.
  - intros Hd. destruct (HC Hd) as [HK Hi]. split; [| done].
    eapply inv_core_ext; [exact HK | | done ..]. by apply phase_emit.
Qed.

(** The loop stays in the session; a close it asks for is one of a lost connection. *)
Lemma readable_loop_ok d F fuel : forall bytes s,
  inv d s -> connected_ s = true ->
  wp (readable_loop F fuel bytes)
    (fun r s' => inv d s' /\ connected_ s' = true /\
       forall reason desc, r = Some (reason, desc) ->
         reason = CloseReason.kRemoteClosed \/ reason = CloseReason.kError) s.
Proof.
  induction fuel as [| fuel IH]; intros bytes s HI Hc; cbn [readable_loop]; destruct (negb _);
    [wp_simpl; by auto | wp_simpl; by auto | wp_simpl; by auto |].
  unfold sys_recv. wp_simpl. unfold wp at 1. destruct (sys_next_state s) as (r & -> & _). cbn [fst snd].
  set (s1 := s <| os := tail (os s) |>).
  assert (HI1 : inv d s1) by (by eapply inv_ext).
  destruct r as [rc errno | [| x data]]; wp_simpl.
  - destruct (rc <? 0); wp_simpl.
    + destruct (errno =? EINTR); [by apply IH |]. destruct (errno =? EAGAIN); wp_simpl; [by auto |].
      split; [done |]. split; [done |]. intros ? ? [= <- <-]. by right.
    + split; [done |]. split; [done |]. intros ? ? [= <- <-]. by left.
  - split; [done |]. split; [done |]. intros ? ? [= <- <-]. by left.
  - apply IH; [by apply (inv_received d s) | done].
Qed.

Lemma PlatformHandleReadable_ok d s F :
  inv d s -> connected_ s = true -> wp (PlatformHandleReadable true codec F) (fun _ s' => inv d s') s.
Proof.
  intros HI Hc. unfold PlatformHandleReadable. wp_simpl.
  eapply wp_mono; [| by apply readable_loop_ok]. intros r s1 (HI1 & Hc1 & Hr). wp_simpl.
  assert (Hclose : forall s2, inv d s2 -> connected_ s2 = true ->
    wp (close_after_read true r) (fun _ s' => inv d s') s2).
  { intros s2 HI2 Hc2. destruct r as [[reason desc] |]; cbn [close_after_read]; [| by wp_simpl].
    eapply wp_mono; [| eapply (StartClose_connected d s2); [exact HI2 | done |]].
    - by intros u s' [_ ?].
    - by destruct (Hr _ _ eq_refl) as [-> | ->]. }
  destruct (0 <? _); [| by apply Hclose]. wp_simpl.
  eapply wp_mono; [| by apply ParseInput_ok]. intros status s2 [HI2 Hst].
  destruct status; [apply Hclose; [done |] | | by wp_simpl].
  - destruct (connected_ s2); [done |]. by discriminate (proj2 Hst eq_refl).
  - assert (Hc2 : connected_ s2 = true) by (destruct (connected_ s2); [done |]; by discriminate (proj2 Hst eq_refl)).
    destruct r as [[reason desc] |]; [| by apply Hclose].
    unfold DeferCloseUntilInputDrained. wp_simpl. destruct HI2 as [HD HC]. split.
    + destruct HD. split; cbn; try done. intros _. by eapply Hr.
    + intros Hd. by eapply inv_disc_ext; [apply HC | ..].
Qed.

(** ** Connecting *)

Lemma os_only_options F tcp : @os_only Q _ (ApplyTcpOptions tcp F).
Proof. unfold ApplyTcpOptions. cbv zeta. os_only_tac. Qed.

Lemma os_only_connect fuel : @os_only Q _ (connect_loop fuel).
Proof.
  induction fuel as [| fuel IH]; cbn [connect_loop]; os_only_tac. apply IH.
Qed.

Lemma os_only_finish F : @os_only Q _ (PlatformFinishConnect F).
Proof. unfold PlatformFinishConnect. os_only_tac. Qed.

(** The state and the trace after an attempt to open a socket. *)
Lemma PlatformOpenSocket_ok tcp local F inet addr (s : conn) :
  wp (PlatformOpenSocket tcp local F inet addr)
    (fun r s' => exists o tr p, s' = s <| os := o |> <| trace := tr |> <| poller := p |> /\
       match r with
       | inl fd => IsValidSocketHandle fd = true /\ tr = EvSocket fd :: trace s
       | inr _ => tr = trace s \/ exists fd, tr = EvClose fd :: EvSocket fd :: trace s
       end) s.
Proof.
  unfold PlatformOpenSocket. wp_simpl. apply wp_sys_call. intros fd errno _.
  destruct (IsValidSocketHandle fd) eqn:Ev; cbn [negb]; wp_simpl.
  2: { exists (tail (os s)), (trace s), (poller s). split; [by destruct s | by left]. }
  eapply wp_mono; [| apply os_only_options]. intros e s1 [o ->].
  destruct e as [e |]; wp_simpl; [eexists _, _, _; split; [by destruct s | right; by eexists] |].
  destruct local as [local |]; wp_simpl; [| eexists _, _, _; split; [by destruct s | done]].
  destruct (connx_string_to_sockaddr inet local 0); wp_simpl; [| eexists _, _, _; split; [by destruct s | right; by eexists]].
  eapply wp_mono; [| apply os_only_must]. intros e s2 [o' ->].
  destruct e as [e |]; wp_simpl; eexists _, _, _; (split; [by destruct s |]); [right; by eexists | done].
Qed.

(** While connecting the data part does not depend on the members a connection
    attempt changes. *)
Lemma inv_data_attempt s s' input :
  inv_data s input -> session_of (trace s') = session_of (trace s) ->
  connected_ s' = connected_ s -> state_ s' = state_ s -> recv_buffer_ s' = recv_buffer_ s ->
  send_buffer_ s' = send_buffer_ s -> pending_bytes_ s' = pending_bytes_ s ->
  deferred_close_pending_ s' = deferred_close_pending_ s -> deferred_close_reason_ s' = deferred_close_reason_ s ->
  task_queue_ s' = task_queue_ s -> owner_closing_ s' = owner_closing_ s -> accepting_tasks_ s' = accepting_tasks_ s ->
  inv_data s' input.
Proof.
  intros HD Et Ec Es Er Esb Ep Edp Edr Eq Eo Ea.
  eapply inv_data_input; [exact HD | done .. | |]; rewrite ?Eq, ?Eo, ?Ea; apply HD.
Qed.

(** A step of an attempt under way: the socket is open and registered, and the
    poller may change. *)
Lemma inv_connecting d s s' :
  inv d s -> (d = true -> state_ s = kConnecting) -> trace s' = trace s -> connected_ s' = connected_ s ->
  state_ s' = state_ s -> recv_buffer_ s' = recv_buffer_ s -> send_buffer_ s' = send_buffer_ s ->
  pending_bytes_ s' = pending_bytes_ s -> deferred_close_pending_ s' = deferred_close_pending_ s ->
  deferred_close_reason_ s' = deferred_close_reason_ s -> task_queue_ s' = task_queue_ s ->
  owner_closing_ s' = owner_closing_ s -> accepting_tasks_ s' = accepting_tasks_ s ->
  fd_ s' = fd_ s -> id_ s' = id_ s -> resolving s' = resolving s -> table s' = table s -> fault s' = fault s ->
  inv d s'.
Proof.
  intros [HD HC] Hst Et Ec Es Er Esb Ep Edp Edr Eq Eo Ea Ef Ei Ere Eta Efa.
  unfold ConnInv.inv. rewrite Er. split; [eapply inv_data_attempt; try done; by rewrite Et |].
  intros Hd. assert (Hc : connected_ s = false) by (by rewrite (i_connected _ _ _ HD), (Hst Hd)).
  destruct (HC Hd) as [[[H1 H2 H3 HT HF] H4 H5 H6] H7].
  split; [split; [split | ..] |]; unfold fd_ok, attempts in *;
    rewrite ?Et, ?Ec, ?Es, ?Ef, ?Ei, ?Eq, ?Ere, ?Eta, ?Efa, ?Ea; try done; congruence.
Qed.

Lemma inv_attempts_fd d s : inv d s -> d = true -> fd_ok s = true -> accepting_tasks_ s = true -> attempts s = 0.
Proof.
  intros [_ HC] Hd Hf Ha. destruct (HC Hd) as [HK _]. rewrite (i_attempts _ _ _ HK Ha), Hf. cbn. by rewrite andb_false_r.
Qed.

(** An attempt that fails after its socket was opened. *)
Lemma StartClose_attempt d s reason desc :
  inv d s -> (d = true -> state_ s <> kIdle -> state_ s = kConnecting /\ fd_ok s = true) ->
  reason_fits reason false ->
  wp (StartClose true reason desc) (fun _ s' => inv d s') s.
Proof.
  intros HI Hst Hr. eapply wp_mono; [| eapply (StartClose_ok d s); [apply HI | |]].
  - intros u s' [[_ ->] | [_ ?]]; done.
  - intros Hd. destruct (proj2 HI Hd) as [[] ?]. done.
  - intros Hd Hni. destruct (Hst Hd Hni) as [Hs Hf]. split; [| by eapply inv_attempts_fd].
    rewrite (i_connected _ _ _ (proj1 HI)), Hs. done.
Qed.

Lemma connected_connecting d s input : inv_at d s input -> state_ s = kConnecting -> connected_ s = false.
Proof. intros [HD _] Hs. by rewrite (i_connected _ _ _ HD), Hs. Qed.

(** The moment the connection is up. *)
Lemma inv_connected d s :
  inv d s -> state_ s = kConnecting ->
  (d = true -> fd_ok s = true /\ (win = false -> poll_interest_ s = kPollReadable /\
     interest (poller s) !! fd_ s = Some {| ee_events := ToEpollEvents (poll_interest_ s); ee_u64 := ToUint64 (id_ s) |})) ->
  inv d (s <| state_ := kConnected |> <| connected_ := true |> <| trace := EvCallback OnConnected :: trace s |>).
Proof.
  intros HI Hst Hd'. pose proof (connected_connecting _ _ _ HI Hst) as Hc. destruct HI as [HD HC].
  destruct (i_quiet _ _ _ HD Hc) as [Hrb Hsb]. split.
  - destruct HD. split; cbn; try done.
  - intros Hd. destruct (HC Hd) as [[[(p & Hp & Hup) H2 H3 HT HF] H4 H5 H6] H7].
    destruct (Hd' Hd) as (Hf & Hreg). split; [split; [split | ..] |]; cbn; try done.
    + exists Up. rewrite Hp. cbn. split; [| done]. destruct p; try done. by rewrite (proj1 Hup eq_refl) in Hc.
    + intros _. split; [done |]. intros Hw. by destruct (Hreg Hw).
    + intros Ha. rewrite bool_decide_false by done. cbn. specialize (H6 Ha). unfold attempts in *. cbn.
      rewrite H6, Hf. by rewrite andb_false_r.
    + intros Hw _. destruct (Hreg Hw) as [Hpi _]. by rewrite Hsb, Hpi.
Qed.

Lemma HandleConnected_ok d s F :
  inv d s -> (d = true -> state_ s = kConnecting -> fd_ok s = true) ->
  wp (HandleConnected true F) (fun _ s' => inv d s') s.
Proof.
  intros HI Hf. unfold HandleConnected, HandleConnected_with. wp_simpl. case_bool_decide as Hst; cbn [negb]; wp_simpl; [| done].
  unfold PlatformAfterConnected. wp_simpl. apply wp_sys_call. intros rc errno _. wp_simpl.
  unfold Poller_Modify, epoll_ctl_set. destruct ((rc =? 0) && _); wp_simpl.
  - cbn [state_]. rewrite bool_decide_true by done. cbn [negb]. wp_simpl.
    match goal with |- wp _ _ (?t <| state_ := _ |> <| connected_ := _ |>) => set (s1 := t) end.
    assert (HI1 : inv d s1) by (by eapply inv_connecting).
    eapply wp_mono; [| eapply (run_callback_ok d)].
    2: { apply (inv_connected d s1); [done | done |]. intros Hd. split; [by apply Hf |]. intros _. split; [done |].
         apply lookup_insert_eq. }
    intros u s' [[(_ & Hr & _) HI'] | [_ ?]]; [| done]. unfold ConnInv.inv. by rewrite Hr.
  - apply StartClose_attempt; [by eapply inv_connecting | | done].
    intros Hd _. split; [done | by apply Hf].
Qed.

Lemma poller_add_ok d s i F :
  inv d s -> (d = true -> state_ s = kConnecting) ->
  wp (poller_add F i) (fun _ s' => inv d s' /\ state_ s' = state_ s /\ fd_ok s' = fd_ok s) s.
Proof.
  intros HI Hst. unfold poller_add. wp_simpl. apply wp_sys_call. intros rc errno _. wp_simpl.
  unfold Poller_Add, epoll_ctl_set. destruct ((rc =? 0) && _); wp_simpl; (split; [by eapply inv_connecting | done]).
Qed.

Lemma PlatformConnect_ok d s F addr :
  inv d s -> (d = true -> state_ s = kConnecting) ->
  wp (PlatformConnect F addr) (fun _ s' => inv d s' /\ state_ s' = state_ s /\ fd_ok s' = fd_ok s) s.
Proof.
  intros HI Hst. unfold PlatformConnect. wp_simpl. eapply wp_mono; [| apply os_only_connect].
  intros [rc errno] s1 [o ->]. assert (H1 : inv d (s <| os := o |>)) by (by eapply inv_ext).
  destruct (rc =? 0); [| destruct (_ && _)]; wp_simpl.
  - eapply wp_mono; [| by apply poller_add_ok]. intros e s2 Hs2. by wp_simpl.
  - done.
  - eapply wp_mono; [| by apply poller_add_ok]. intros e s2 Hs2. by wp_simpl.
Qed.

(** ** What a platform promises *)

(** The two halves of a connection are used through these methods; what is proved of the
    common code is proved against their contracts. *)
Class PlatformOk (P : @Platform Q) : Prop := {
  open_socket_ok addr (s : conn) :
    wp (open_socket P addr)
      (fun r s' => exists o tr p, s' = s <| os := o |> <| trace := tr |> <| poller := p |> /\
         match r with
         | inl fd => IsValidSocketHandle fd = true /\ tr = EvSocket fd :: trace s
         | inr _ => tr = trace s \/ exists fd, tr = EvClose fd :: EvSocket fd :: trace s
         end) s;
  start_connect_ok d addr s :
    inv d s -> (d = true -> state_ s = kConnecting) ->
    wp (start_connect P addr) (fun _ s' => inv d s' /\ state_ s' = state_ s /\ fd_ok s' = fd_ok s) s;
  finish_connect_ok : os_only (finish_connect P);
  after_connected_ok d s :
    inv d s -> (d = true -> state_ s = kConnecting -> fd_ok s = true) ->
    wp (HandleConnected_with true (after_connected P)) (fun _ s' => inv d s') s;
  handle_readable_ok d s : inv d s -> connected_ s = true -> wp (handle_readable P) (fun _ s' => inv d s') s;
  handle_writable_ok d s : inv d s -> connected_ s = true -> wp (handle_writable P) (fun _ s' => inv d s') s;
  start_send_ok d s :
    inv_data s (chunks_bytes (recv_buffer_ s)) -> (d = true -> inv_core s) -> connected_ s = true ->
    wp (UpdateWriteInterest_with true (start_send P)) (fun _ s' => inv d s') s;
  (* on Windows one connect request is started for a socket *)
  connect_completion_ok d s ev :
    inv d s -> (d = true -> fd_ok s = true /\ (win = true -> connected_ s = false)) ->
    wp (connect_completion P ev) (fun _ s' => inv d s') s;
  recv_completion_ok d s ev : inv d s -> wp (recv_completion P ev) (fun _ s' => inv d s') s;
  send_completion_ok d s ev : inv d s -> wp (send_completion P ev) (fun _ s' => inv d s') s
}.

#[export] Instance posix_ok tcp local F inet : PlatformOk (posix true codec tcp local F inet).
Proof.
  split; cbn [open_socket start_connect finish_connect after_connected handle_readable handle_writable start_send
    connect_completion recv_completion send_completion posix]; intros; try done.
  - apply PlatformOpenSocket_ok.
  - by apply PlatformConnect_ok.
  - apply os_only_finish.
  - by apply HandleConnected_ok.
  - by apply PlatformHandleReadable_ok.
  - by apply PlatformHandleWritable_ok.
  - by apply UpdateWriteInterest_ok.
Qed.

Section Common.
Context (P : @Platform Q) `{!PlatformOk P}.

(** The outcome of an attempt reaches a connection that waits for it. *)
Definition attempt_ready (s : conn) : Prop :=
  inv_base s /\ state_ s = kConnecting /\ fd_ok s = false /\ (accepting_tasks_ s = true -> attempts s = 0).

Lemma register_self_ok d s new_fd o po :
  inv_data s (chunks_bytes (recv_buffer_ s)) -> (d = true -> attempt_ready s) -> IsValidSocketHandle new_fd = true ->
  wp (register_self self)
    (fun _ s' => inv d s' /\ state_ s' = state_ s /\ (d = true -> fd_ok s' = true))
    (s <| os := o |> <| trace := EvSocket new_fd :: trace s |> <| poller := po |> <| fd_ := new_fd |>).
Proof.
  intros HD HA Hfd. unfold register_self. wp_simpl. cbn [table].
  assert (HD' : forall s', recv_buffer_ s' = recv_buffer_ s -> session_of (trace s') = session_of (trace s) ->
    connected_ s' = connected_ s -> state_ s' = state_ s -> send_buffer_ s' = send_buffer_ s ->
    pending_bytes_ s' = pending_bytes_ s -> deferred_close_pending_ s' = deferred_close_pending_ s ->
    deferred_close_reason_ s' = deferred_close_reason_ s -> task_queue_ s' = task_queue_ s ->
    owner_closing_ s' = owner_closing_ s -> accepting_tasks_ s' = accepting_tasks_ s ->
    inv_data s' (chunks_bytes (recv_buffer_ s'))).
  { intros s' Er. rewrite Er. intros. by eapply inv_data_attempt. }
  change (table _) with (table s).
  destruct d.
  - destruct (HA eq_refl) as ([(p & Hp & Hup) H2 H3 (m & HR & Hm) HF] & Hst & Hf & Hatt).
    rewrite H3, Hf in Hm.
    destruct (Register_ok (table s) m self HR Hm) as (id & T' & -> & Hv & Hid & _ & HR'). wp_simpl.
    split; [| done]. split; [by apply HD' |]. intros _.
    assert (Hc : connected_ s = false) by (by rewrite (i_connected _ _ _ HD), Hst).
    split; [split; [split | ..] |]; cbn; try congruence.
    + exists p. rewrite Hp. done.
    + rewrite H2, Hf. unfold fd_ok. cbn. by rewrite Hfd.
    + unfold fd_ok. cbn. by rewrite Hfd.
    + exists (<[id := self]> m). rewrite Hv. split; [done |]. split; [done | apply lookup_insert_eq].
    + intros Ha. unfold attempts, fd_ok in *. cbn. rewrite Hfd, andb_false_r. by apply Hatt.
  - destruct (Register (table s) self) as [[id T'] |]; wp_simpl; (split; [split; [by apply HD' | done] | done]).
Qed.

Lemma ConnectResolved_ok d s tcp addr :
  inv_data s (chunks_bytes (recv_buffer_ s)) -> (d = true -> attempt_ready s) ->
  wp (ConnectResolved_on true tcp self P addr) (fun _ s' => inv d s') s.
Proof.
  intros HD HA. unfold ConnectResolved_on. wp_simpl. eapply wp_mono; [| apply open_socket_ok].
  intros r s1 (o & tr & po & -> & Hr). destruct r as [new_fd | error]; wp_simpl.
  - destruct Hr as [Hfd ->]. eapply wp_mono; [| by apply register_self_ok].
    intros u s2 (HI2 & Hst2 & Hf2). wp_simpl.
    assert (Hst2' : d = true -> state_ s2 = kConnecting) by (intros Hd; rewrite Hst2; by apply HA).
    assert (Hgo : forall s3, inv d s3 -> state_ s3 = state_ s2 -> fd_ok s3 = fd_ok s2 ->
      wp (start_connect P addr) (fun rc => wp match rc with
            | ConnectError error => StartClose true CloseReason.kConnectFailed error
            | ConnectDone => HandleConnected_with true (after_connected P)
            | ConnectInProgress => mret tt
            end (fun _ s' => inv d s')) s3).
    { intros s3 HI3 Hst3 Hf3. eapply wp_mono; [| apply (start_connect_ok d addr s3 HI3)].
      - intros rc s4 (HI4 & Hst4 & Hf4). destruct rc as [| | error]; [| by wp_simpl |].
        + apply after_connected_ok; [done |]. intros Hd _. rewrite Hf4, Hf3. by apply Hf2.
        + apply StartClose_attempt; [done | | done]. intros Hd _. rewrite Hst4, Hst3, Hf4, Hf3. auto.
      - intros Hd. rewrite Hst3. by apply Hst2'. }
    destruct (0 <? connect_timeout_ms tcp); wp_simpl.
    + apply wp_sys_call. intros now errno _. wp_simpl. apply Hgo; [by eapply inv_ext | done | done].
    + by apply Hgo.
  - assert (HD1 : inv_data (s <| os := o |> <| trace := tr |> <| poller := po |>) (chunks_bytes (recv_buffer_ s))).
    { eapply inv_data_attempt; try done. destruct Hr as [-> | [fd ->]]; done. }
    eapply wp_mono; [| eapply (StartClose_ok d); [exact HD1 | |]].
    + intros u s' [[Hs ->] | [_ ?]]; [| done]. split; [done |]. intros Hd. exfalso.
      destruct (HA Hd) as (_ & Hst & _). cbn in Hs. congruence.
    + intros Hd. destruct (HA Hd) as ([(p & Hp & Hup) H2 H3 HT HF] & Hst & Hf & _). rewrite Hf in H2.
      split; cbn; try done; destruct Hr as [-> | [fd ->]]; try done.
      * exists p. done.
      * exists p. cbn. rewrite Hp. done.
      * unfold fd_ok in *. cbn. by rewrite H2, Hf.
      * unfold fd_ok in *. cbn [fd_]. change (fd_ _) with (fd_ s). rewrite Hf.
        eapply sockets_close; [| done]. cbn. by rewrite H2.
    + intros Hd _. destruct (HA Hd) as (_ & Hst & _ & Hatt). split; [| done]. cbn.
      by rewrite (i_connected _ _ _ HD), Hst.
Qed.

(** ** Events *)

Lemma has_lor x a b : has x (Z.lor a b) = has x a || has x b.
Proof.
  unfold has. rewrite Z.land_lor_distr_r. destruct (Z.eqb_spec (Z.land x a) 0) as [E | E].
  - by rewrite E, Z.lor_0_l.
  - cbn. destruct (Z.eqb_spec (Z.lor (Z.land x a) (Z.land x b)) 0) as [E' | E']; [| done].
    apply Z.lor_eq_0_iff in E'. tauto.
Qed.

(** A connect request completes before the connection is up. *)
Definition connect_in_time (d : bool) (s : conn) (ev : PollEvent) : Prop :=
  d = true -> win = true -> ev_id ev = id_ s -> ev_operation ev = kPollOpConnect -> connected_ s = false.

Lemma HandlePollEvent_ok d s F ev :
  inv d s -> valid (ev_id ev) = true -> connect_in_time d s ev ->
  wp (HandlePollEvent_on true F P ev) (fun _ s' => inv d s') s.
Proof.
  intros HI Hv Hct. unfold HandlePollEvent_on, IsConnected, IsConnecting. wp_simpl.
  case_bool_decide as Hid; cbn [negb]; wp_simpl; [| done].
  assert (Hf : d = true -> fd_ok s = true).
  { intros Hd. destruct (proj2 HI Hd) as [[HB _ _ _] _]. by rewrite <- (i_id _ _ HB), <- Hid. }
  destruct (ev_operation ev) eqn:Hop; wp_simpl;
    [| apply connect_completion_ok; auto | by apply recv_completion_ok | by apply send_completion_ok].
  destruct (decide (state_ s = kIdle \/ state_ s = kClosing)) as [? | Hs]; wp_simpl; [done |].
  assert (Hst : connected_ s = true \/ state_ s = kConnecting).
  { rewrite (i_connected _ _ _ (proj1 HI)). destruct (state_ s); auto; by destruct Hs; auto. }
  assert (Hos : forall o, inv d (s <| os := o |>)) by (intros o; by eapply inv_ext).
  assert (Hfail : forall o desc, state_ s = kConnecting ->
    wp (StartClose true CloseReason.kConnectFailed desc) (fun _ s' => inv d s') (s <| os := o |>)).
  { intros o desc Hc. apply StartClose_attempt; [done | auto | done]. }
  assert (Hrw : forall s1, inv d s1 -> connected_ s1 = true ->
    wp (if has (ev_events ev) kPollEventReadable then handle_readable P;; (s ← get; mret (connected_ s))
        else mret true)
      (fun go_on => wp (if negb go_on then mret tt else when (has (ev_events ev) kPollEventWritable) (handle_writable P))
         (fun _ s' => inv d s')) s1).
  { intros s1 HI1 Hc1. destruct (has (ev_events ev) kPollEventReadable); wp_simpl.
    - eapply wp_mono; [| by apply handle_readable_ok]. intros u s2 HI2. wp_simpl.
      destruct (connected_ s2) eqn:Hc2; cbn [negb]; wp_simpl; [| done].
      destruct (has _ _); [by apply handle_writable_ok | done].
    - cbn [negb]. wp_simpl. destruct (has _ _); [by apply handle_writable_ok | done]. }
  destruct (has (ev_events ev) kPollEventError); wp_simpl.
  - case_bool_decide as Hc; wp_simpl.
    + eapply wp_mono; [| apply finish_connect_ok]. intros e s1 [o ->]. destruct e as [e |]; wp_simpl; [by apply Hfail |].
      change (connected_ _) with (connected_ s). rewrite (connected_connecting _ _ _ HI Hc). by apply Hfail.
    + destruct Hst as [Hc1 | ?]; [| done]. rewrite Hc1.
      eapply wp_mono; [| by eapply (StartClose_connected d s)]. by intros u s' [_ ?].
  - case_bool_decide as Hc; cbn [andb]; wp_simpl.
    + destruct (has (ev_events ev) (Z.lor kPollEventReadable kPollEventWritable)) eqn:Eb; wp_simpl; cbn [negb]; wp_simpl.
      * eapply wp_mono; [| apply finish_connect_ok]. intros e s1 [o ->]. destruct e as [e |]; wp_simpl.
        -- eapply wp_mono; [| by apply Hfail]. intros u s' HI'. wp_simpl. done.
        -- eapply wp_mono; [| apply (after_connected_ok d (s <| os := o |>)); auto]. intros u s2 HI2. wp_simpl.
           destruct (connected_ s2) eqn:Hc2; cbn [negb]; wp_simpl; [| done]. by apply Hrw.
      * rewrite has_lor in Eb. apply orb_false_iff in Eb as [-> ->]. by wp_simpl.
    + destruct Hst as [Hc1 | ?]; [| done]. cbn [negb]. wp_simpl. by apply Hrw.
Qed.

Lemma HandleTimerEvent_ok d s ev :
  inv d s -> valid (tid ev) = true -> wp (HandleTimerEvent true ev) (fun _ s' => inv d s') s.
Proof.
  intros HI Hv. unfold HandleTimerEvent. wp_simpl. case_bool_decide as Hid; cbn [negb]; wp_simpl; [| done].
  destruct (bool_decide (state_ s = kConnecting)) eqn:Hc; cbn [andb]; wp_simpl; [| done].
  destruct (_ =? _); wp_simpl; [| done]. apply bool_decide_eq_true in Hc.
  apply StartClose_attempt; [done | | done]. intros Hd _. split; [done |].
  destruct (proj2 HI Hd) as [[HB _ _ _] _]. by rewrite <- (i_id _ _ HB), <- Hid.
Qed.

(** ** Tasks *)

(** A message enters the send buffer. *)
Lemma inv_queued s input msg :
  inv_data s input -> connected_ s = true ->
  inv_data (s <| trace := EvQueued msg :: trace s |>
              <| pending_bytes_ := usize (pending_bytes_ s + zlen msg) |>
              <| send_buffer_ := chunks_add (send_buffer_ s) msg |>) input.
Proof.
  intros [D1 D2 D3 D4 D5 D6 D7 D8 D9] Hc. split; cbn -[chunks_bytes chunks_add]; try done.
  - by rewrite D4, chunks_add_bytes, app_assoc.
  - by rewrite D5, usize_usize_add, chunks_add_bytes, zlen_app.
  - congruence.
  - by apply chunks_add_ok.
Qed.

Lemma filter_attempt_cons t q :
  zlen (filter is_attempt (t :: q)) = (if is_attempt t then 1 else 0) + zlen (filter is_attempt q).
Proof.
  rewrite filter_cons. destruct (is_attempt t); [rewrite decide_True by exact I; zlia | rewrite decide_False by auto; lia].
Qed.

(** The outcome of an attempt that was not overtaken finds the connection waiting. *)
Lemma attempt_is_ready d s t q :
  inv d s -> task_queue_ s = t :: q -> is_attempt t = true -> owner_closing_ s = false ->
  d = true -> attempt_ready (s <| task_queue_ := q |>).
Proof.
  intros [HD HC] Hq Ht Ho Hd. destruct (HC Hd) as [[[H1 H2 H3 HT HF] H4 H5 H6] H7].
  assert (Ha : accepting_tasks_ s = true) by (by rewrite (i_owner _ _ _ HD), Ho).
  specialize (H6 Ha). unfold attempts in H6. rewrite Hq, filter_attempt_cons, Ht in H6.
  destruct (bool_decide (state_ s = kConnecting)) eqn:Hst, (fd_ok s) eqn:Hf; cbn [andb negb] in H6;
    pose proof (zlen_nonneg (filter is_attempt q)); try lia.
  apply bool_decide_eq_true in Hst. split.
  { split; cbn; try done; unfold fd_ok in *; cbn; rewrite Hf; done. }
  split; [done |]. split; [done |].
  intros _. unfold attempts. cbn. lia.
Qed.

Lemma run_task_ok d s tcp F t q :
  inv d s -> task_queue_ s = t :: q -> owner_closing_ s = false -> (d = true -> ~ overtakes s) ->
  (forall ev, t = TPollEvent ev -> connect_in_time d s ev) ->
  wp (run_task_on true codec tcp self F P t) (fun _ s' => inv d s') (s <| task_queue_ := q |>).
Proof.
  intros HI Hq Ho Hdisc Hct. set (s1 := s <| task_queue_ := q |>).
  pose proof (i_tasks _ _ _ (proj1 HI)) as HT. rewrite Hq in HT. apply list.Forall_cons in HT as [Ht HT].
  assert (HD1 : inv_data s1 (chunks_bytes (recv_buffer_ s))).
  { eapply inv_data_input; [exact (proj1 HI) | done .. | apply HI]. }
  assert (HI1 : is_attempt t = false -> inv d s1).
  { intros Hna. apply inv_queue; [done | done |]. intros _ _. by rewrite Hq, filter_attempt_cons, Hna. }
  destruct t as [addr | reason desc | msg | ev | ev |]; cbn [run_task_on].
  - apply ConnectResolved_ok; [done |]. by eapply attempt_is_ready.
  - destruct (is_attempt (TStartClose reason desc)) eqn:Hat.
    + eapply wp_mono; [| eapply (StartClose_ok d s1); [exact HD1 | |]].
      * intros u s' [[Hs ->] | [_ ?]]; [| done]. split; [done |]. intros Hd. exfalso.
        destruct (attempt_is_ready d s _ q HI Hq Hat Ho Hd) as (_ & Hst & _). fold s1 in Hst. congruence.
      * intros Hd. by destruct (attempt_is_ready d s _ q HI Hq Hat Ho Hd).
      * intros Hd _. destruct (attempt_is_ready d s _ q HI Hq Hat Ho Hd) as (_ & Hst & _ & Hatt). split; [| done].
        destruct reason; try done. fold s1 in Hst. change (connected_ s1 = false). by rewrite (i_connected _ _ _ HD1), Hst.
    + destruct Ht as [-> | ->]; [| done]. specialize (HI1 Hat).
      eapply wp_mono; [| eapply (StartClose_ok d s1); [exact HD1 | |]].
      * intros u s' [[_ ->] | [_ ?]]; done.
      * intros Hd. destruct (proj2 HI1 Hd) as [[] _]. done.
      * intros Hd _. split; [done |]. intros _. specialize (Hdisc Hd). unfold overtakes in Hdisc. rewrite Hq in Hdisc.
        unfold attempts in *. rewrite Hq, filter_attempt_cons, Hat in Hdisc. cbn.
        pose proof (zlen_nonneg (filter is_attempt q)). destruct (Z.eq_dec (Z.of_nat (resolving s) + zlen (filter is_attempt q)) 0); [done |].
        exfalso. apply Hdisc. split; [done | lia].
  - unfold IsConnected. wp_simpl. destruct (connected_ s1) eqn:Hc; wp_simpl; [| by apply HI1].
    apply start_send_ok; [| | done].
    + by apply (inv_queued s1).
    + intros Hd. destruct (proj2 (HI1 eq_refl) Hd) as [HK _]. eapply inv_core_ext; [exact HK | | done ..]. by apply phase_emit.
  - apply HandlePollEvent_ok; [by apply HI1 | done | by apply Hct].
  - apply HandleTimerEvent_ok; [by apply HI1 | done].
  - unfold IsConnected. wp_simpl. destruct (connected_ s1) eqn:Hc; wp_simpl; [| by apply HI1].
    eapply wp_mono; [| apply ParseInput_ok; [by apply HI1 | done]]. intros r s' [? _]. by wp_simpl.
Qed.

Lemma drain_round_ok d s tcp F :
  inv d s -> (d = true -> ~ overtakes s) ->
  (forall ev q, task_queue_ s = TPollEvent ev :: q -> owner_closing_ s = false -> connect_in_time d s ev) ->
  wp (drain_round_on true codec tcp self F P) (fun _ s' => inv d s') s.
Proof.
  intros HI Hdisc Hct. unfold drain_round_on, DrainTaskQueue. wp_simpl. destruct (owner_closing_ s) eqn:Ho; wp_simpl.
  - assert (Ha : accepting_tasks_ s = false) by (by rewrite (i_owner _ _ _ (proj1 HI)), Ho).
    assert (HI1 : inv d (s <| task_queue_ := [] |>)) by (apply inv_queue; [done | done | congruence]).
    eapply wp_mono; [| eapply (StartClose_ok d); [apply HI1 | |]].
    + intros u s' [[_ ->] | [_ ?]]; wp_simpl; done.
    + intros Hd. destruct (proj2 HI1 Hd) as [[] _]. done.
    + intros _ _. split; [done |]. cbn. congruence.
  - destruct (task_queue_ s) as [| t q] eqn:Hq; wp_simpl; [done |].
    eapply wp_mono; [| eapply run_task_ok; try done; intros ev ->; by eapply Hct]. intros u s' ?. by wp_simpl.
Qed.

End Common.

(** ** Steps *)

(** The end of [Connect] on another thread: the outcome takes the place of the call. *)
Lemma Connect_end_ok d s r n :
  inv d s -> resolving s = S n -> wp (Connect_end r) (fun _ s' => inv d s') (s <| resolving := n |>).
Proof.
  intros HI Hn. apply Connect_end_Post. intros t b Hat Ht. unfold Post. wp_simpl.
  destruct HI as [HD HC]. destruct (accepting_tasks_ _) eqn:Ea; wp_simpl; cbn in Ea; split.
  - eapply inv_data_input; [exact HD | done .. | | exact (i_owner _ _ _ HD)].
    apply list.Forall_app. split; [apply HD | by constructor].
  - intros Hd. eapply inv_disc_ext; [by apply HC | done .. |]. intros _. split; [done |].
    unfold attempts. cbn. rewrite filter_attempt_snoc, Hat, Hn. zlia.
  - eapply inv_data_input; [exact HD | done .. | exact (i_tasks _ _ _ HD) | exact (i_owner _ _ _ HD)].
  - intros Hd. eapply inv_disc_ext; [by apply HC | done .. |]. cbn. congruence.
Qed.

(** The other users of the connection table. *)
Lemma inv_table_step d s T' :
  inv d s ->
  (forall m, table_rep (table s) m ->
     exists m', table_rep T' m' /\ forall id, m !! id = Some self -> m' !! id = Some self) ->
  room T' -> inv d (s <| table := T' |>).
Proof.
  intros [HD HC] HT Hr. split.
  - eapply inv_data_input; [exact HD | done .. | exact (i_tasks _ _ _ HD) | exact (i_owner _ _ _ HD)].
  - intros Hd. destruct (HC Hd) as [[[H1 H2 H3 (m & HR & Hid) HF] H4 H5 H6] H7].
    split; [split; [split | ..] |]; cbn; try done. destruct (HT m HR) as (m' & HR' & Hm'). exists m'. split; [done |].
    destruct (valid (id_ s)); [| done]. destruct Hid. auto.
Qed.

Lemma inv_init d T (q : Q) p m : table_rep T m -> room T -> inv d (conn_init T q p).
Proof.
  intros HR Hr. split.
  - split; cbn; try done.
    + destruct codec; [constructor | done].
    + by apply list.Forall_nil.
  - intros _. split; [split; [split | ..] |]; cbn; try done.
    + by exists Down.
    + by exists m.
Qed.

Lemma inv_Post d s t : inv d s -> task_ok t -> is_attempt t = false -> inv d (Post t s).2.
Proof.
  intros HI Ht Hna. destruct (Post_ok d s _ t HI Ht Hna) as [HI' (_ & Er & _)].
  unfold ConnInv.inv. by rewrite Er.
Qed.

Lemma client_step_ok d s s' : client_step self s s' -> inv d s -> inv d s'.
Proof.
  intros Hstep HI. destruct Hstep as [s' Hb | n r b s' Hn He | | data | | ev Hv | T' HT Hr | os' script'].
  - revert Hb. unfold Connect_begin, mbind, M_bind, get, modify, mret, M_ret. cbn.
    destruct (decide (state_ s = kIdle)) as [Es |]; intros [= <-].
    apply (inv_begin d s _ (task_queue_ s) (S (resolving s))); [done | done | apply HI |].
    intros _ _. unfold attempts. lia.
  - pose proof (Connect_end_ok d s r n HI Hn) as Hw. unfold wp in Hw. by rewrite He in Hw.
  - apply inv_Post; [done | by left | done].
  - destruct data as [[| x data] |]; [done | | done]. unfold SendBuffer, IsConnected, mbind, M_bind, get, mret, M_ret.
    destruct (connected_ s); [| done]. cbn [negb]. destruct (Post _ s) as [u s'] eqn:E. cbn.
    change s' with (u, s').2. rewrite <- E. by apply inv_Post.
  - destruct HI as [HD HC]. split.
    + by eapply inv_data_input; [exact HD | try done .. | exact (i_tasks _ _ _ HD) |].
    + intros Hd. by eapply inv_disc_ext; [apply HC | ..].
  - by apply inv_Post.
  - by apply inv_table_step.
  - by apply (inv_ext d s).
Qed.

Lemma conn_step_ok tcp local F inet d s s' :
  win = false -> conn_step codec tcp local self F inet d s s' -> inv d s -> inv d s'.
Proof.
  intros Hw [s1 Hstep | ev Hv | Hd] HI; [by eapply client_step_ok | by apply inv_Post |].
  refine (drain_round_ok (posix true codec tcp local F inet) d s tcp F HI Hd _). intros ev q _ _ _ Hw'. congruence.
Qed.

(** Every reachable state satisfies the invariant. *)
Lemma conn_reachable_inv tcp local F inet d T (q : Q) p m s :
  win = false -> table_rep T m -> room T -> conn_reachable codec tcp local self F inet d T q p s -> inv d s.
Proof.
  intros Hw HR Hr Hs. assert (HI : inv d (conn_init T q p)) by (by eapply inv_init).
  unfold conn_reachable in Hs. induction Hs as [| s1 s2 s3 H12 _ IH]; [done |].
  apply IH. by eapply conn_step_ok.
Qed.

End Proofs.
