(* ===== verification/ConnTheorems.v ===== *)
(** * The connection: theorems

    What every reachable state of a connection satisfies, read off the invariant of
    [ConnInv.v], and runs of the model on concrete inputs. *)

From S2P Require Import Prelude Codec SliceBuffer ConnTable Timer Poller Address Connection ConnInv ConnProofs.

(** ** Concrete runs *)

(** The choices of a run, for evaluation: who makes the next step. *)
Inductive act :=
| ABegin
| AEnd (r : resolve_result)
| ADisconnect
| ASend (data : option (list byte))
| ARelease
| APoll (ev : PollEvent)
| ATimer (ev : TimerEvent)
| ARun
| AEnv (os : list sysret) (script : list (list api_call)).

Section Exec.
Context `{SizeT} `{PQ : PriorityQueue Q}.
Context (codec : option decode_fn) (tcp : TcpOptions) (local_address : option str) (self : conn_ref).
Context (FormatErrorMessage : Z -> string) (inet_pton : Z -> str -> option (list byte)).

#[local] Abbreviation conn := (@Connection.conn Q).

#[export] Instance overtakes_dec (s : conn) : Decision (overtakes s).
Proof. unfold overtakes. destruct (task_queue_ s) as [| [] ?]; try apply _. destruct reason; apply _. Defined.

Definition exec_client (a : act) (s : conn) : option conn :=
  match a with
  | ABegin =>
      match Connect_begin s with
      | (true, s') => Some (s' <| resolving := S (resolving s') |>)
      | _ => None
      end
  | AEnd r =>
      match resolving s with
      | O => None
      | S n => Some (Connect_end r (s <| resolving := n |>)).2
      end
  | ADisconnect => Some (Disconnect s).2
  | ASend data => Some (SendBuffer data s).2
  | ARelease => Some (CloseFromOwner_other s).2
  | ATimer ev => if valid (tid ev) then Some (PostTimerEvent ev s).2 else None
  | AEnv os' script' => Some (s <| os := os' |> <| script := script' |>)
  | APoll _ | ARun => None
  end.

Definition exec (d : bool) (a : act) (s : conn) : option conn :=
  match a with
  | APoll ev => if valid (ev_id ev) then Some (PostPollEvent ev s).2 else None
  | ARun =>
      if d && bool_decide (overtakes s) then None
      else Some (drain_round true codec tcp local_address self FormatErrorMessage inet_pton s).2
  | _ => exec_client a s
  end.

Fixpoint exec_all (d : bool) (acts : list act) (s : conn) : option conn :=
  match acts with
  | [] => Some s
  | a :: acts' => s' ← exec d a s; exec_all d acts' s'
  end.

Lemma exec_client_sound a s s' : exec_client a s = Some s' -> client_step self s s'.
Proof.
  destruct a as [| r | | data | | ev | ev | | os' script']; cbn; intros E; try discriminate E.
  - destruct (Connect_begin s) as [[] s1] eqn:Eb; [| done]. injection E as <-. by constructor.
  - destruct (resolving s) as [| n] eqn:En; [done |]. injection E as <-.
    destruct (Connect_end r _) as [b s1] eqn:Eb. by eapply step_connect_end.
  - injection E as <-. constructor.
  - injection E as <-. constructor.
  - injection E as <-. constructor.
  - destruct (valid (tid ev)) eqn:Ev; [| done]. injection E as <-. by constructor.
  - injection E as <-. constructor.
Qed.

Lemma exec_sound d a s s' :
  exec d a s = Some s' -> conn_step codec tcp local_address self FormatErrorMessage inet_pton d s s'.
Proof.
  intros E. destruct a; cbn [exec] in E; try (apply step_client; by eapply exec_client_sound).
  - destruct (valid (ev_id ev)) eqn:Ev; [| done]. injection E as <-. by apply step_poll_event.
  - destruct (d && bool_decide (overtakes s)) eqn:Eo; [done |]. injection E as <-. apply step_run.
    intros -> Ho. by rewrite bool_decide_true in Eo.
Qed.

Lemma exec_all_reachable d acts T (q : Q) p s :
  exec_all d acts (conn_init T q p) = Some s ->
  conn_reachable codec tcp local_address self FormatErrorMessage inet_pton d T q p s.
Proof.
  unfold conn_reachable. generalize (conn_init T q p). induction acts as [| a acts IH]; cbn; intros s0 E.
  - injection E as ->. reflexivity.
  - destruct (exec d a s0) as [s1 |] eqn:Ea; [| done]. eapply rtc_l; [by eapply exec_sound | by apply IH].
Qed.

End Exec.

(** A session: connect, receive two frames in three pieces, queue a reply of which the
    kernel takes a part. *)
Module Demo.

Definition newline : byte := Byte.x0a.
Definition codec : option decode_fn := Some (DelimiterCodec_Decode newline).
Definition tcp : TcpOptions :=
  {| tcp_nodelay := 1; tcp_quickack := 0; send_buffer_size := 0; recv_buffer_size := 0;
     linger_sec := -1; connect_timeout_ms := 5000 |}.
Definition addr : connx_resolved_address := {| ra_addr := replicate 16 Byte.x00; ra_len := 16 |}.
Definition resolved : resolve_result := {| rr_err := None; rr_addrs := Some [addr] |}.
Definition strerror (_ : Z) : string := "error".
Definition inet_pton (_ : Z) (_ : str) : option (list byte) := None.
Definition q : sorted_queue := pq_new.
Definition p : Poller := {| poll_fd_ := 3; wake_fd_ := 4; interest := ∅; open_fds := {[3; 4]} |}.
Definition id : ConnectionId := {| slot := 0; generation := 1 |}.
Definition ready (events : Z) : act :=
  APoll (ready_event id events 0).
Definition ok : sysret := RInt 0 0.
Definition init : @conn sorted_queue := conn_init ConnectionTable_new q p.

Definition run (d : bool) (acts : list act) : option conn :=
  exec_all codec tcp None 0 strerror inet_pton d acts init.

(** [socket] gives [fd], the options are set, [connect] is in progress. *)
Definition open_calls (fd : Z) : list sysret :=
  [RInt fd 0; ok; ok; ok; ok; ok; RInt 1000 0; RInt (-1) EINPROGRESS; ok].

Definition acts : list act :=
  [ABegin; AEnd resolved; AEnv (open_calls 7) []; ARun;
   ready kPollEventWritable; AEnv [ok; ok] []; ARun;
   ready kPollEventReadable;
   AEnv [RData (Byte.x61 :: Byte.x62 :: newline :: [Byte.x63]); RData [Byte.x64; newline]; RData [Byte.x65]] []; ARun;
   ASend (Some [Byte.x68; Byte.x65; Byte.x79]); AEnv [ok] []; ARun;
   ready kPollEventWritable; AEnv [RInt 2 0] []; ARun].

Definition s : conn := default init (run true acts).

Lemma reachable : conn_reachable codec tcp None 0 strerror inet_pton true ConnectionTable_new q p s.
Proof. apply (exec_all_reachable _ _ _ _ _ _ _ acts). vm_compute. reflexivity. Qed.

Lemma s_recv : chunks_bytes (recv_buffer_ s) = [Byte.x65].
Proof. vm_compute. reflexivity. Qed.

Lemma s_msgs : msgs (session_of (trace s)) = [[Byte.x61; Byte.x62; newline]; [Byte.x63; Byte.x64; newline]].
Proof. vm_compute. reflexivity. Qed.

Lemma s_send : send_buffer_ s = [[Byte.x79]].
Proof. vm_compute. reflexivity. Qed.

Lemma s_state : state_ s = kConnected.
Proof. vm_compute. reflexivity. Qed.

Lemma s_connected : connected_ s = true.
Proof. vm_compute. reflexivity. Qed.

Lemma s_fd : fd_ s = 7.
Proof. vm_compute. reflexivity. Qed.

Lemma s_id : id_ s = id.
Proof. vm_compute. reflexivity. Qed.

Lemma room_new : room ConnectionTable_new.
Proof. right. cbn. unfold UINT32_MAX. rewrite zlen_nil. lia. Qed.

Lemma codec_ok decode : codec = Some decode -> StreamCodec decode.
Proof. intros [= <-]. apply _. Qed.

End Demo.

(** ** What holds of every reachable state *)

Section Theorems.
Context `{SizeT} `{PQ : PriorityQueue Q}.
Context (codec : option decode_fn) (tcp : TcpOptions) (local_address : option str) (self : conn_ref).
Context (FormatErrorMessage : Z -> string) (inet_pton : Z -> str -> option (list byte)).
(** The table the connection starts with. *)
Context (T : ConnectionTable) (q : Q) (p : Poller) (m : gmap ConnectionId conn_ref).
Hypothesis codec_ok : forall decode, codec = Some decode -> StreamCodec decode.
Hypothesis table_ok : table_rep T m.
Hypothesis table_room : room T.

#[local] Abbreviation Reachable d s :=
  (conn_reachable codec tcp local_address self FormatErrorMessage inet_pton d T q p s).

Lemma Reachable_inv d s : Reachable d s -> ConnInv.inv codec self false d s.
Proof. by apply (conn_reachable_inv codec codec_ok self false _ _ _ _ _ _ _ _ m). Qed.

(** C1: No byte is lost, duplicated or reordered on the way in. In every reachable
    state, whatever the kernel, the handler and other threads do, the bytes received
    in the current session are the frames delivered through [OnMessage], in order,
    followed by the receive buffer; and the delivered frames are a prefix of the
    reference framing of the whole received stream, however it was split up. *)
Theorem connection_input_exact (d : bool) (decode : decode_fn) (s : conn) :
  codec = Some decode -> Reachable d s ->
  let σ := session_of (trace s) in
  rx σ = concat (msgs σ) ++ chunks_bytes (recv_buffer_ s) /\
  msgs σ `prefix_of` (frames decode (rx σ)).1.1.
Proof.
  intros Hc Hs. pose proof (i_input _ _ _ (proj1 (Reachable_inv _ _ Hs))) as Hp. rewrite Hc in Hp. cbn.
  split; [by eapply parsed_concat |]. pose proof (codec_ok _ Hc). rewrite (parsed_frames _ _ _ _ Hp).
  by eexists.
Qed.

(** C6: No byte is lost, duplicated or reordered on the way out. The messages that
    entered the send buffer in the current session, in order, are the bytes handed to
    the kernel followed by the send buffer; [pending_bytes_] is the length of the
    latter, as a [size_t]. *)
Theorem connection_output_exact (d : bool) (s : conn) :
  Reachable d s ->
  let σ := session_of (trace s) in
  queued σ = sent σ ++ chunks_bytes (send_buffer_ s) /\
  pending_bytes_ s = usize (zlen (chunks_bytes (send_buffer_ s))).
Proof. intros Hs. destruct (proj1 (Reachable_inv _ _ Hs)). by split. Qed.

(** Between tasks the flag other threads read agrees with the state: [connected_]
    is set in [kConnected] only, [kClosing] is never visible, and a connection that
    is not connected holds no data of an old session. *)
Theorem connection_state_consistent (d : bool) (s : conn) :
  Reachable d s ->
  (connected_ s = true <-> state_ s = kConnected) /\ state_ s <> kClosing /\
  (connected_ s = false -> recv_buffer_ s = [] /\ send_buffer_ s = [] /\ pending_bytes_ s = 0).
Proof.
  intros Hs. destruct (proj1 (Reachable_inv _ _ Hs)) as [Hc Hn _ _ Hp Hq _ _ _ _]. split; [| split; [done |]].
  - rewrite Hc. apply bool_decide_eq_true.
  - intros Hf. destruct (Hq Hf) as [Hr Hb]. by rewrite Hp, Hb.
Qed.

(** C7: The callbacks follow their protocol, if no [Disconnect] overtakes an attempt
    that is being resolved: [OnConnected] only when the last session is over,
    [OnMessage] only in a session, [OnClosed] at most once for each session that was
    announced and [OnConnectFailed] at most once for each attempt that was not, both
    after the resources were released; and the handler has been told of a session
    exactly while [connected_] is set. *)
Theorem connection_callback_protocol (s : conn) :
  Reachable true s ->
  exists ph, phase_of (trace s) = Some ph /\ (ph = Up <-> connected_ s = true).
Proof. intros Hs. destruct (proj2 (Reachable_inv _ _ Hs) eq_refl) as [[[Hp _ _ _ _] _ _ _] _]. done. Qed.

(** C8: Sockets are neither leaked nor closed twice, under the same condition: the
    socket in [fd_] is the only one that is open, none is open in [kIdle], and the
    connection is found in the connection table under [id_] exactly while it has a
    socket. *)
Theorem connection_resources (s : conn) :
  Reachable true s ->
  sockets_of (trace s) = Some (if IsValidSocketHandle (fd_ s) then [fd_ s] else []) /\
  (state_ s = kIdle -> IsValidSocketHandle (fd_ s) = false) /\
  Acquire (table s) (fun _ => true) (id_ s) = (if IsValidSocketHandle (fd_ s) then Some self else None) /\
  fault s = false.
Proof.
  intros Hs. destruct (proj2 (Reachable_inv _ _ Hs) eq_refl) as [[[_ H2 H3 (m' & HR & Hid) HF] H4 _ _] _].
  split; [done |]. split; [done |]. split; [| done]. unfold fd_ok in *. rewrite <- H3.
  destruct (valid (id_ s)) eqn:Ev.
  - destruct Hid as [Hok Hm]. rewrite (Acquire_ok _ _ _ _ HR) by apply Hok. by rewrite Hm.
  - unfold Acquire. by rewrite Ev.
Qed.

(** Queued data is never stranded, under the same condition: while the connection
    is up its socket is registered with the poller, tagged with its id, readable, and
    writable exactly while there is something to send. *)
Theorem connection_poll_interest (s : conn) :
  Reachable true s -> connected_ s = true ->
  interest (poller s) !! fd_ s =
    Some {| ee_events := ToEpollEvents (interest_for (send_buffer_ s)); ee_u64 := ToUint64 (id_ s) |}.
Proof.
  intros Hs Hc. destruct (proj2 (Reachable_inv _ _ Hs) eq_refl) as [[_ _ H5 _] H6].
  destruct (H5 Hc) as [_ ->]; [| done]. by rewrite (H6 eq_refl Hc).
Qed.

End Theorems.

(** Each theorem at the session of [Demo]. *)
Lemma connection_input_exact_witness :
  rx (session_of (trace Demo.s)) = [Byte.x61; Byte.x62; Demo.newline; Byte.x63; Byte.x64; Demo.newline; Byte.x65] /\
  [[Byte.x61; Byte.x62; Demo.newline]; [Byte.x63; Byte.x64; Demo.newline]] `prefix_of`
    (frames (DelimiterCodec_Decode Demo.newline) (rx (session_of (trace Demo.s)))).1.1.
Proof.
  destruct (connection_input_exact Demo.codec Demo.tcp None 0 Demo.strerror Demo.inet_pton ConnectionTable_new
    Demo.q Demo.p ∅ Demo.codec_ok table_rep_empty Demo.room_new true _ Demo.s eq_refl Demo.reachable) as [H1 H2].
  rewrite Demo.s_msgs, Demo.s_recv in H1. rewrite Demo.s_msgs in H2. split; [exact H1 | exact H2].
Defined.

Lemma connection_output_exact_witness :
  queued (session_of (trace Demo.s)) = sent (session_of (trace Demo.s)) ++ [Byte.x79] /\ pending_bytes_ Demo.s = 1.
Proof.
  pose proof (connection_output_exact Demo.codec Demo.tcp None 0 Demo.strerror Demo.inet_pton ConnectionTable_new
    Demo.q Demo.p ∅ Demo.codec_ok table_rep_empty Demo.room_new true Demo.s Demo.reachable) as H.
  rewrite Demo.s_send in H. exact H.
Defined.

Lemma connection_state_consistent_witness : connected_ Demo.s = true /\ state_ Demo.s <> kClosing.
Proof.
  destruct (connection_state_consistent Demo.codec Demo.tcp None 0 Demo.strerror Demo.inet_pton ConnectionTable_new
    Demo.q Demo.p ∅ Demo.codec_ok table_rep_empty Demo.room_new true Demo.s Demo.reachable) as [[_ Hc] [Hn _]].
  split; [apply Hc; exact Demo.s_state | exact Hn].
Defined.

Lemma connection_callback_protocol_witness : phase_of (trace Demo.s) = Some Up.
Proof.
  destruct (connection_callback_protocol Demo.codec Demo.tcp None 0 Demo.strerror Demo.inet_pton ConnectionTable_new
    Demo.q Demo.p ∅ Demo.codec_ok table_rep_empty Demo.room_new Demo.s Demo.reachable) as (ph & Hp & _ & Hup).
  rewrite Hp, (Hup Demo.s_connected). reflexivity.
Defined.

Lemma connection_resources_witness :
  sockets_of (trace Demo.s) = Some [7] /\ Acquire (table Demo.s) (fun _ => true) Demo.id = Some 0%nat.
Proof.
  destruct (connection_resources Demo.codec Demo.tcp None 0 Demo.strerror Demo.inet_pton ConnectionTable_new
    Demo.q Demo.p ∅ Demo.codec_ok table_rep_empty Demo.room_new Demo.s Demo.reachable) as (H1 & _ & H2 & _).
  rewrite Demo.s_fd in H1. rewrite Demo.s_fd, Demo.s_id in H2. split; [exact H1 | exact H2].
Defined.

Lemma connection_poll_interest_witness :
  interest (poller Demo.s) !! 7 =
    Some {| ee_events := ToEpollEvents (Z.lor kPollReadable kPollWritable); ee_u64 := ToUint64 Demo.id |}.
Proof.
  pose proof (connection_poll_interest Demo.codec Demo.tcp None 0 Demo.strerror Demo.inet_pton ConnectionTable_new
    Demo.q Demo.p ∅ Demo.codec_ok table_rep_empty Demo.room_new Demo.s Demo.reachable Demo.s_connected) as H.
  rewrite Demo.s_fd, Demo.s_send, Demo.s_id in H. exact H.
Defined.

(** C40: The condition of the last three is needed. [ConnectResolved] does not look at
    [state_]: when a [Disconnect] made while [Connect] is still resolving runs first, a
    socket is opened for a connection that is idle, the next [Connect] overwrites
    [fd_], and after the next [Disconnect], with the connection idle, nothing queued
    and no [Connect] under way, the first socket is still open, still registered with
    the poller and in the connection table, with no reference to it left. *)
Theorem disconnect_while_resolving_leaks :
  exists s, conn_reachable Demo.codec Demo.tcp None 0 Demo.strerror Demo.inet_pton false
              ConnectionTable_new Demo.q Demo.p s /\
    state_ s = kIdle /\ fd_ s = InvalidSocketHandle /\ id_ s = ConnectionId_default /\
    task_queue_ s = [] /\ resolving s = 0%nat /\
    sockets_of (trace s) = Some [7] /\ is_Some (interest (poller s) !! 7) /\
    Acquire (table s) (fun _ => true) Demo.id = Some 0%nat.
Proof.
  set (acts := [ABegin; ADisconnect; ARun; AEnd Demo.resolved; AEnv (Demo.open_calls 7) []; ARun;
                ABegin; AEnd Demo.resolved; AEnv (Demo.open_calls 8) []; ARun; ADisconnect; ARun]).
  exists (default Demo.init (Demo.run false acts)). split.
  - apply (exec_all_reachable _ _ _ _ _ _ _ acts). vm_compute. reflexivity.
  - split_and!; try (vm_compute; reflexivity). vm_compute. eauto.
Qed.
