(* ===== verification/ConnProgress.v ===== *)
(** * The connection: progress of the input

    Received frames are not left lying in the receive buffer: between tasks either a
    parse task is queued, or every complete frame has been delivered and no close waits
    for the input to be drained. *)

From S2P Require Import Prelude Codec SliceBuffer ConnTable Timer Poller Address Connection ConnInv ConnProofs ConnTheorems.

Section Progress.
Context `{SizeT} `{PQ : PriorityQueue Q}.
Context (decode : decode_fn) `{!StreamCodec decode}.

#[local] Abbreviation conn := (@Connection.conn Q).

(** [connected_] and [state_] agree. *)
Definition sync (s : conn) : Prop :=
  connected_ s = bool_decide (state_ s = kConnected) /\ state_ s <> kClosing.

(** Nothing is left of a session. *)
Definition clean (s : conn) : Prop :=
  connected_ s = false /\ parse_continuation_pending_ s = false /\ deferred_close_pending_ s = false /\
  recv_buffer_ s = [].

(** The input side is not touched; tasks are only added, unless the owner closes. *)
Definition same_input (s s' : conn) : Prop :=
  connected_ s' = connected_ s /\ parse_continuation_pending_ s' = parse_continuation_pending_ s /\
  deferred_close_pending_ s' = deferred_close_pending_ s /\ recv_buffer_ s' = recv_buffer_ s /\
  (accepting_tasks_ s' = true -> accepting_tasks_ s = true /\ (TParse ∈ task_queue_ s -> TParse ∈ task_queue_ s')).

Definition calm (s s' : conn) : Prop := sync s' /\ (same_input s s' \/ clean s').

Definition no_frame (buf : list byte) : Prop := buf = [] \/ (decode buf).1 = DecodeResult.kNeedMoreData.

Definition prog (s : conn) : Prop :=
  sync s /\ (connected_ s = false -> clean s) /\
  (connected_ s = true -> accepting_tasks_ s = true ->
   if parse_continuation_pending_ s then TParse ∈ task_queue_ s
   else deferred_close_pending_ s = false /\ no_frame (chunks_bytes (recv_buffer_ s))).

Definition Calm {A} (m : @M Q A) : Prop := forall s, sync s -> wp m (fun _ s' => calm s s') s.
Definition Prog {A} (m : @M Q A) : Prop := forall s, prog s -> wp m (fun _ s' => prog s') s.

Lemma same_refl s : same_input s s.
Proof. by split_and!. Qed.

Lemma calm_trans s1 s2 s3 : calm s1 s2 -> calm s2 s3 -> calm s1 s3.
Proof.
  intros [_ H12] [Hs H23]. split; [done |]. destruct H23 as [(A1 & A2 & A3 & A4 & A5) | ?]; [| by right].
  destruct H12 as [(B1 & B2 & B3 & B4 & B5) | (B1 & B2 & B3 & B4)]; [left | right; split_and!; congruence].
  split_and!; try congruence. intros Ha. destruct (A5 Ha) as [Ha2 HT2]. destruct (B5 Ha2). auto.
Qed.

Lemma clean_prog s : sync s -> clean s -> prog s.
Proof. intros Hs Hc. split; [done |]. split; [done |]. destruct Hc. congruence. Qed.

Lemma calm_prog s s' : prog s -> calm s s' -> prog s'.
Proof.
  intros (_ & Hcl & Hp) [Hs [(A1 & A2 & A3 & A4 & A5) | Hc]]; [| by apply clean_prog].
  split; [done |]. rewrite A1. split; [intros Hc; destruct (Hcl Hc) as (? & ? & ? & ?); split_and!; congruence |].
  intros Hc Ha. destruct (A5 Ha) as [Ha' HT]. specialize (Hp Hc Ha'). rewrite A2, A3, A4.
  destruct (parse_continuation_pending_ s); auto.
Qed.

Lemma Calm_Prog {A} (m : M A) : Calm m -> Prog m.
Proof. intros Hm s Hs. eapply wp_mono; [| apply Hm, Hs]. intros a s'. by apply calm_prog. Qed.

Lemma Calm_bind {A B} (m : M A) (k : A -> M B) : Calm m -> (forall a, Calm (k a)) -> Calm (m ≫= k).
Proof.
  intros Hm Hk s Hs. apply wp_bind. eapply wp_mono; [| by apply Hm]. intros a s' Hc.
  eapply wp_mono; [| apply Hk, Hc]. intros b s''. by apply calm_trans.
Qed.

Lemma Prog_bind {A B} (m : M A) (k : A -> M B) : Prog m -> (forall a, Prog (k a)) -> Prog (m ≫= k).
Proof.
  intros Hm Hk s Hs. apply wp_bind. eapply wp_mono; [| by apply Hm]. intros a s' Hc. by apply Hk.
Qed.

Lemma Calm_ret {A} (a : A) : Calm (mret a).
Proof. intros s Hs. split; [done |]. left. apply same_refl. Qed.

Lemma Calm_get : Calm get.
Proof. intros s Hs. split; [done |]. left. apply same_refl. Qed.

Lemma Calm_modify f : (forall s, state_ (f s) = state_ s /\ same_input s (f s)) -> Calm (modify f).
Proof.
  intros Hf s [Hs1 Hs2]. destruct (Hf s) as [Es Hsame]. split; [| by left].
  destruct Hsame as [Ec _]. split; cbn; by rewrite ?Ec, Es.
Qed.

Lemma Calm_when b m : Calm m -> Calm (when b m).
Proof. destruct b; [done | intros _; apply Calm_ret]. Qed.

Lemma Calm_sys_next : Calm sys_next.
Proof.
  intros s Hs. unfold wp, sys_next. destruct (os s); (split; [done |]); left; [apply same_refl | by split_and!].
Qed.

Lemma Calm_next_script : Calm next_script.
Proof.
  intros s Hs. unfold wp, next_script. destruct (script s); (split; [done |]); left; [apply same_refl | by split_and!].
Qed.

Lemma Calm_Post t : Calm (Post t).
Proof.
  intros s Hs. unfold Post. wp_simpl. destruct (accepting_tasks_ s); wp_simpl; (split; [done |]); left.
  - split_and!; try done. intros Ha. split; [done |]. cbn. intros HT. apply elem_of_app. by left.
  - apply same_refl.
Qed.

(** [Connect] starts from [kIdle], where nothing is connected. *)
Lemma Calm_Connect_begin : Calm Connect_begin.
Proof.
  intros s Hs. unfold Connect_begin. wp_simpl. destruct (decide (state_ s = kIdle)) as [Es |]; wp_simpl.
  - destruct Hs as [Hc _]. rewrite Es in Hc. split; [done |]. left. by split_and!.
  - split; [done |]. left. apply same_refl.
Qed.

Lemma Calm_Connect_end r : Calm (Connect_end r).
Proof.
  unfold Connect_end. destruct r as [[e |] [[| a l] |]];
    (apply Calm_bind; [apply Calm_Post | intros _; apply Calm_ret]).
Qed.

Lemma Calm_Connect hosts : Calm (Connect hosts).
Proof.
  destruct hosts as [r |]; [| apply Calm_ret]. apply Calm_bind; [apply Calm_Connect_begin |].
  intros [|]; [apply Calm_Connect_end | apply Calm_ret].
Qed.
End Progress.

Create HintDb calm.
#[export] Hint Resolve Calm_ret Calm_get Calm_sys_next Calm_next_script Calm_Post Calm_Connect : calm.

(** Operations built from calm ones are calm; the hints are about the ones that have
    a lemma of their own. *)
Ltac calm := repeat first
  [ solve [trivial with calm]
  | match goal with
    | |- forall _, _ => intros ?
    | |- Calm (when _ _) => apply Calm_when
    | |- Calm (_ ≫= _) => apply Calm_bind
    | |- Calm (modify _) => apply Calm_modify; intros ?; by split_and!
    | |- Calm (emit _) => apply Calm_modify; intros ?; by split_and!
    | |- Calm (match ?x with _ => _ end) => destruct x
    end ].

Section Close.
Context `{SizeT} `{PQ : PriorityQueue Q}.
#[local] Abbreviation conn := (@Connection.conn Q).

Lemma closed_clean (s : conn) : sync (closed s) /\ clean (closed s).
Proof.
  pose proof (closed_fields s) as (E1 & E2 & E3 & _ & _ & _ & _ & _ & _ & _ & _ & _ & _ & E4 & _).
  unfold sync, clean. rewrite E1, E2, E3, E4. split; [done |]. split_and!; done || apply closed_pending.
Qed.

Lemma StartClose_with_calm cb reason desc :
  (forall c, Calm (cb c)) -> @Calm Q _ (StartClose_with true cb reason desc).
Proof.
  intros Hcb s Hs. unfold wp. rewrite StartClose_with_eq. destruct (decide _); [by apply Calm_ret |].
  destruct (closed_clean s) as [Hs' Hc]. destruct (notification reason desc) as [c |]; [| by split; [| right]].
  eapply calm_trans; [split; [exact Hs' | by right] | by apply Hcb].
Qed.

Lemma Calm_CloseFromOwner : @Calm Q _ (CloseFromOwner_draining true).
Proof.
  unfold CloseFromOwner_draining, DrainTaskQueue. intros s Hs. wp_simpl.
  eapply wp_mono; [| apply StartClose_with_calm; [intros c; apply Calm_ret | done]].
  intros u s'. apply calm_trans. split; [done |]. left. by split_and!.
Qed.

Lemma Calm_run_apis calls : @Calm Q _ (run_apis true calls).
Proof.
  induction calls as [| c calls IH]; [apply Calm_ret |]. apply Calm_bind; [| done].
  destruct c; cbn [run_api]; [calm | apply Calm_Post | unfold SendBuffer, IsConnected; calm | apply Calm_CloseFromOwner].
Qed.

#[local] Hint Resolve Calm_run_apis : calm.

Lemma Calm_run_callback c : @Calm Q _ (run_callback true c).
Proof. unfold run_callback. calm. Qed.

Lemma Calm_StartClose reason desc : @Calm Q _ (StartClose true reason desc).
Proof. apply StartClose_with_calm, Calm_run_callback. Qed.

(** A session that is closed is over. *)
Lemma StartClose_clean reason desc (s : conn) :
  sync s -> connected_ s = true -> wp (StartClose true reason desc) (fun _ s' => sync s' /\ clean s') s.
Proof.
  intros [Hs1 Hs2] Hc. unfold wp, StartClose. rewrite StartClose_with_eq.
  rewrite Hs1 in Hc. apply bool_decide_eq_true in Hc. destruct (decide _) as [[|] |]; [congruence .. |].
  destruct (closed_clean s) as [Hs' Hcl]. destruct (notification reason desc) as [c |]; [| done].
  destruct (Calm_run_callback c _ Hs') as [Hs'' [(A1 & A2 & A3 & A4 & _) | ?]]; [| done].
  split; [done |]. destruct Hcl as (? & ? & ? & ?). split_and!; congruence.
Qed.
End Close.

#[export] Hint Resolve Calm_run_callback Calm_StartClose : calm.

(** ** Parsing and reading *)

Section Input.
Context `{SizeT} `{PQ : PriorityQueue Q}.
Context (decode : decode_fn) `{!StreamCodec decode}.
Context (FormatErrorMessage : Z -> string).
#[local] Abbreviation conn := (@Connection.conn Q).
#[local] Abbreviation F := FormatErrorMessage.

(** The budget is used up, or no complete frame is left. *)
Lemma parse_loop_progress budget : forall (s : conn) data offset,
  sync s -> connected_ s = true ->
  wp (parse_loop true budget decode data offset)
    (fun r s' => match r with
     | None => sync s' /\ clean s'
     | Some (off', b') =>
         sync s' /\ same_input s s' /\ offset <= off' <= offset + zlen data /\
         (b' = O \/ no_frame decode (zdrop (off' - offset) data))
     end) s.
Proof.
  induction budget as [| budget IH]; intros s data offset Hs Hc; cbn [parse_loop].
  { pose proof (zlen_nonneg data). wp_simpl. split; [done |]. split; [apply same_refl |]. split; [lia | by left]. }
  pose proof (zlen_nonneg data). destruct (Z.eqb_spec (zlen data) 0) as [Hz | Hz].
  { wp_simpl. split; [done |]. split; [apply same_refl |]. split; [lia |]. right. left. apply zlen_0 in Hz. subst. by rewrite Z.sub_diag. }
  destruct (decode data) as [result consumed] eqn:Hdec. destruct result.
  - pose proof (codec_bounds _ _ Hdec) as Hn.
    destruct (Z.eqb_spec consumed 0), (Z.ltb_spec (zlen data) consumed); try lia. cbn [orb].
    wp_simpl. unfold IsConnected. eapply wp_mono; [| by apply Calm_run_callback].
    intros u s1 [Hs1 Hin]. wp_simpl. destruct (connected_ s1) eqn:Hc1; cbn [negb]; wp_simpl.
    + destruct Hin as [Hsame | [? _]]; [| congruence].
      eapply wp_mono; [| by apply IH]. intros [[off' b'] |] s2; [| done]. rewrite zlen_zdrop by lia.
      intros (Hs2 & Hsame2 & Ho & Hb). split; [done |].
      split; [| split; [lia |]].
      * destruct (calm_trans s s1 s2) as [_ [? | (? & _)]]; [split; [done | by left] | split; [done | by left] | done |].
        destruct Hsame2 as [Hc2 _]. congruence.
      * rewrite zdrop_zdrop in Hb by lia. by replace (off' - offset) with (consumed + (off' - (offset + consumed))) by lia.
    + split; [done |]. destruct Hin as [[Hc' _] | ?]; [congruence | done].
  - wp_simpl. split; [done |]. split; [apply same_refl |]. split; [lia |]. right. right.
    rewrite Z.sub_diag. change (zdrop 0 data) with data. by rewrite Hdec.
  - wp_simpl. eapply wp_mono; [| by apply StartClose_clean]. by intros u s1 ?.
Qed.

Lemma parse_finish_progress (s : conn) :
  sync s -> connected_ s = true -> parse_continuation_pending_ s = false ->
  no_frame decode (chunks_bytes (recv_buffer_ s)) ->
  wp (parse_finish true) (fun r s' => prog decode s' /\ r <> kYielded) s.
Proof.
  intros Hs Hc Hp Hn. unfold parse_finish, FinishDeferredClose, IsConnected. wp_simpl.
  destruct (deferred_close_pending_ s) eqn:Hd; wp_simpl.
  - eapply wp_mono; [| by apply StartClose_clean]. intros u s1 [Hs1 Hc1]. wp_simpl.
    split; [by apply clean_prog | by destruct (connected_ s1)].
  - split; [| by rewrite Hc]. split; [done |]. split; [congruence |]. by rewrite Hp.
Qed.
Definition parse_progress (r : ParseStatus) (s' : conn) : Prop :=
  prog decode s' /\ (r = kYielded -> connected_ s' = true /\ parse_continuation_pending_ s' = true).

(** Removing what was parsed. *)
Lemma move_progress off (s : conn) :
  sync s -> 0 <= off <= zlen (chunks_bytes (recv_buffer_ s)) ->
  wp (if 0 <? off then recv_MoveHeader off else mret true)
    (fun r s' => r = true /\ sync s' /\ connected_ s' = connected_ s /\
       parse_continuation_pending_ s' = parse_continuation_pending_ s /\
       chunks_bytes (recv_buffer_ s') = zdrop off (chunks_bytes (recv_buffer_ s))) s.
Proof.
  intros Hs Ho. destruct (Z.ltb_spec 0 off).
  - unfold recv_MoveHeader. wp_simpl. destruct (Z.ltb_spec (zlen (chunks_bytes (recv_buffer_ s))) off); [lia |].
    wp_simpl. split_and!; try done. cbn. by rewrite chunks_drop_bytes.
  - wp_simpl. assert (off = 0) as -> by lia. by split_and!.
Qed.

Lemma ParseInput_progress (s : conn) :
  sync s -> connected_ s = true -> wp (ParseInput true (Some decode)) parse_progress s.
Proof.
  intros Hs Hc. unfold ParseInput. wp_simpl. set (s1 := s <| parse_continuation_pending_ := false |>). cbn [negb]. wp_simpl.
  assert (Hfin : forall s3 : conn, sync s3 -> connected_ s3 = true -> parse_continuation_pending_ s3 = false ->
    no_frame decode (chunks_bytes (recv_buffer_ s3)) -> wp (parse_finish true) parse_progress s3).
  { intros s3 ? ? ? ?. eapply wp_mono; [| by apply parse_finish_progress]. intros r s4 [? ?]. by split. }
  destruct (Z.eqb_spec (zlen (chunks_bytes (recv_buffer_ s1))) 0) as [Hz | Hz].
  { apply Hfin; try done. left. by apply zlen_0. }
  wp_simpl. eapply wp_mono; [| by apply parse_loop_progress].
  intros [[off b] |] s2; cbn beta iota; wp_simpl; [| intros [? ?]; by split; [apply clean_prog |]].
  intros (Hs2 & (A1 & A2 & _ & A4 & _) & Ho & Hb). rewrite Z.sub_0_r in Hb.
  eapply wp_mono; [| apply move_progress; [done | rewrite A4; lia]].
  intros moved s3 (-> & Hs3 & B1 & B2 & B3). cbn [negb]. wp_simpl.
  change (connected_ s1) with (connected_ s) in A1. change (parse_continuation_pending_ s1) with false in A2.
  assert (Hc3 : connected_ s3 = true) by congruence. assert (Hp3 : parse_continuation_pending_ s3 = false) by congruence.
  rewrite A4 in B3. destruct (_ && connected_ s3) eqn:E.
  - unfold ScheduleParseContinuation, Post. wp_simpl. rewrite Hp3. cbn [negb]. wp_simpl.
    destruct (accepting_tasks_ _) eqn:Ea; wp_simpl; (split; [| done]); (split; [done |]); (split; [cbn; congruence |]);
      cbn in *; intros _ ?; [| congruence]. apply elem_of_app. right. by apply list_elem_of_singleton.
  - apply Hfin; [done .. |]. rewrite Hc3, andb_true_r in E. rewrite B3 in *.
    destruct Hb as [-> | Hb]; [| done]. left.
    rewrite bool_decide_true in E by done. rewrite andb_true_l in E. apply zlen_0. apply Z.ltb_ge in E. pose proof (zlen_nonneg (zdrop off (chunks_bytes (recv_buffer_ s1)))). lia.
Qed.

(** The receive loop adds to the receive buffer, and nothing else that matters here. *)
Lemma readable_loop_progress fuel : forall bytes (s : conn), sync s ->
  wp (readable_loop F fuel bytes)
    (fun _ s' => sync s' /\ connected_ s' = connected_ s /\ task_queue_ s' = task_queue_ s /\
       accepting_tasks_ s' = accepting_tasks_ s /\ parse_continuation_pending_ s' = parse_continuation_pending_ s /\
       deferred_close_pending_ s' = deferred_close_pending_ s) s.
Proof.
  induction fuel as [| fuel IH]; intros bytes s Hs; cbn [readable_loop]; (destruct (negb _); wp_simpl; [done |]); [done |].
  unfold sys_recv. wp_simpl. destruct (sys_next_state s) as (r & E & _). unfold wp at 1. rewrite E. cbn [fst snd].
  destruct r as [rc errno | [| b l]]; wp_simpl; [| done |].
  - destruct (rc <? 0); wp_simpl; [| done]. destruct (errno =? EINTR); [eapply wp_mono; [| by apply IH]; by intros |].
    by destruct (errno =? EAGAIN); wp_simpl.
  - eapply wp_mono; [| by apply IH]. by intros.
Qed.

Lemma PlatformHandleReadable_progress (s : conn) :
  prog decode s -> connected_ s = true -> wp (PlatformHandleReadable true (Some decode) F) (fun _ s' => prog decode s') s.
Proof.
  intros (Hs & _ & Hp) Hc. unfold PlatformHandleReadable. wp_simpl.
  eapply wp_mono; [| by apply readable_loop_progress]. intros should s1 (Hs1 & A1 & A2 & A3 & A4 & A5). wp_simpl.
  assert (Hclose : @Prog Q decode _ (close_after_read true should)).
  { apply Calm_Prog. destruct should as [[r desc] |]; [apply Calm_StartClose | apply Calm_ret]. }
  destruct (Z.ltb_spec 0 (zlen (chunks_bytes (recv_buffer_ s1)))) as [Hlt | Hle]; wp_simpl.
  - eapply wp_mono; [| apply ParseInput_progress; [done | congruence]]. intros r s2 [Hs2 Hy].
    destruct r; [by apply Hclose | | by wp_simpl]. destruct should as [[reason desc] |]; [| by apply Hclose].
    destruct (Hy eq_refl) as [Hc2 Hp2]. destruct Hs2 as (Hs2 & _ & H2).
    unfold DeferCloseUntilInputDrained. wp_simpl. split; [done |]. split; [cbn; congruence |].
    cbn. intros _ Ha. specialize (H2 Hc2 Ha). by rewrite Hp2 in *.
  - apply Hclose. split; [done |]. split; [congruence |]. rewrite A1, A2, A3, A4, A5. intros _ Ha. specialize (Hp Hc Ha).
    destruct (parse_continuation_pending_ s); [done |]. split; [by apply Hp |]. left. apply zlen_0.
    pose proof (zlen_nonneg (chunks_bytes (recv_buffer_ s1))). lia.
Qed.
End Input.

(** ** Operations that do not touch the input *)

Section Rest.
Context `{SizeT} `{PQ : PriorityQueue Q}.
Context (FormatErrorMessage : Z -> string).
#[local] Abbreviation conn := (@Connection.conn Q).
#[local] Abbreviation F := FormatErrorMessage.

Lemma Calm_sys_call : @Calm Q _ sys_call.
Proof. unfold sys_call. calm. Qed.
#[local] Hint Resolve Calm_sys_call : calm.

Lemma Calm_PlatformStartSend : @Calm Q _ (PlatformStartSend F).
Proof. unfold PlatformStartSend. calm. Qed.
#[local] Hint Resolve Calm_PlatformStartSend : calm.

Lemma Calm_UpdateWriteInterest : @Calm Q _ (UpdateWriteInterest true F).
Proof. unfold UpdateWriteInterest, UpdateWriteInterest_with. calm. Qed.
#[local] Hint Resolve Calm_UpdateWriteInterest : calm.

Lemma Calm_writable_loop fuel : forall bytes, @Calm Q _ (writable_loop true F fuel bytes).
Proof. induction fuel as [| fuel IH]; intros bytes; cbn [writable_loop]; unfold sys_send; calm. Qed.
#[local] Hint Resolve Calm_writable_loop : calm.

Lemma Calm_PlatformHandleWritable : @Calm Q _ (PlatformHandleWritable true F).
Proof. unfold PlatformHandleWritable. calm. Qed.

Lemma Calm_ApplyTcpOptions tcp : @Calm Q _ (ApplyTcpOptions tcp F).
Proof. unfold ApplyTcpOptions, ignore_call, must_succeed. calm. Qed.
#[local] Hint Resolve Calm_ApplyTcpOptions : calm.

Lemma Calm_PlatformOpenSocket tcp local inet addr : @Calm Q _ (PlatformOpenSocket tcp local F inet addr).
Proof. unfold PlatformOpenSocket, must_succeed. calm. Qed.

Lemma Calm_connect_loop fuel : @Calm Q _ (connect_loop fuel).
Proof. induction fuel as [| fuel IH]; cbn [connect_loop]; calm. Qed.
#[local] Hint Resolve Calm_connect_loop : calm.

Lemma Calm_PlatformConnect addr : @Calm Q _ (PlatformConnect F addr).
Proof. unfold PlatformConnect, poller_add. calm. Qed.

Lemma Calm_PlatformFinishConnect : @Calm Q _ (PlatformFinishConnect F).
Proof. unfold PlatformFinishConnect. calm. Qed.

Lemma Calm_PlatformAfterConnected : @Calm Q _ (PlatformAfterConnected F).
Proof. unfold PlatformAfterConnected. calm. Qed.
End Rest.

#[export] Hint Resolve Calm_sys_call Calm_UpdateWriteInterest Calm_PlatformHandleWritable Calm_PlatformOpenSocket
  Calm_PlatformConnect Calm_PlatformFinishConnect Calm_PlatformAfterConnected : calm.

(** ** Events, tasks and steps *)

Section Steps.
Context `{SizeT} `{PQ : PriorityQueue Q}.
Context (decode : decode_fn) `{!StreamCodec decode}.
Context (tcp : TcpOptions) (local_address : option str) (self : conn_ref).
Context (FormatErrorMessage : Z -> string) (inet_pton : Z -> str -> option (list byte)).
#[local] Abbreviation conn := (@Connection.conn Q).
#[local] Abbreviation F := FormatErrorMessage.
#[local] Abbreviation prog := (@prog Q decode).
#[local] Abbreviation Prog := (@Prog Q decode _).

Lemma Prog_wp {A} (m : @M Q A) s : Prog m -> prog s -> wp m (fun _ s' => prog s') s.
Proof. intros Hm. apply Hm. Qed.

(** A session starts with empty buffers. *)
Lemma Prog_HandleConnected m : Calm m -> Prog (HandleConnected_with true m).
Proof.
  intros Hm s Hp. unfold HandleConnected_with. wp_simpl. destruct (negb _); wp_simpl; [done |].
  eapply wp_mono; [| apply Hm, Hp]. intros e s1 Hc.
  assert (Hp1 : prog s1) by (eapply calm_prog; [| exact Hc]; exact Hp).
  destruct e as [error |]; [apply Prog_wp; [apply Calm_Prog; calm | done] |]. wp_simpl.
  destruct (bool_decide _) eqn:Hst; cbn [negb]; wp_simpl; [| done]. apply bool_decide_eq_true in Hst.
  destruct Hp1 as ([Hs _] & Hcl & _). rewrite Hst in Hs. destruct (Hcl Hs) as (_ & E1 & E2 & E3).
  apply Prog_wp; [apply Calm_Prog; calm |]. split; [done |]. split; [done |]. cbn. intros _ _.
  rewrite E1, E2, E3. split; [done | by left].
Qed.

(** What the progress of the input needs of a platform: only its readable handler and its
    completions touch the input. *)
Class PlatformCalm (P : @Platform Q) : Prop := {
  open_socket_calm addr : Calm (open_socket P addr);
  start_connect_calm addr : Calm (start_connect P addr);
  finish_connect_calm : Calm (finish_connect P);
  after_connected_calm : Calm (after_connected P);
  handle_readable_prog s : prog s -> connected_ s = true -> wp (handle_readable P) (fun _ s' => prog s') s;
  handle_writable_calm : Calm (handle_writable P);
  start_send_calm : Calm (start_send P);
  connect_completion_prog ev : Prog (connect_completion P ev);
  recv_completion_prog ev : Prog (recv_completion P ev);
  send_completion_prog ev : Prog (send_completion P ev)
}.

#[export] Instance posix_calm : PlatformCalm (posix true (Some decode) tcp local_address F inet_pton).
Proof.
  split; cbn [open_socket start_connect finish_connect after_connected handle_readable handle_writable start_send
    connect_completion recv_completion send_completion posix]; intros; try (apply Calm_Prog; apply Calm_ret); try solve [calm].
  - by apply PlatformHandleReadable_progress.
  - apply Calm_PlatformStartSend.
Qed.

Section Common.
Context (P : @Platform Q) `{!PlatformCalm P}.
#[local] Hint Extern 0 (Calm _) =>
  first [apply open_socket_calm | apply start_connect_calm | apply finish_connect_calm | apply after_connected_calm
        | apply handle_writable_calm | apply start_send_calm] : calm.

Lemma Prog_ConnectResolved addr : Prog (ConnectResolved_on true tcp self P addr).
Proof.
  unfold ConnectResolved_on. apply Prog_bind; [apply Calm_Prog; calm |]. intros [fd | error]; [| apply Calm_Prog; calm].
  apply Prog_bind; [apply Calm_Prog; calm |]. intros _.
  apply Prog_bind; [apply Calm_Prog; unfold register_self; calm |]. intros _.
  apply Prog_bind; [apply Calm_Prog; calm |]. intros _.
  apply Prog_bind; [apply Calm_Prog; calm |].
  intros [| | error]; [apply Prog_HandleConnected; calm | apply Calm_Prog; calm ..].
Qed.

Lemma Prog_HandlePollEvent ev : Prog (HandlePollEvent_on true F P ev).
Proof.
  intros s Hp. unfold HandlePollEvent_on. wp_simpl. destruct (negb _); wp_simpl; [done |].
  destruct (ev_operation ev); wp_simpl;
    [| by apply connect_completion_prog | by apply recv_completion_prog | by apply send_completion_prog].
  destruct (decide _) as [| Hst]; wp_simpl; [done |].
  destruct (has (ev_events ev) kPollEventError).
  { apply Prog_wp; [| done]. apply Calm_Prog. unfold IsConnecting, IsConnected. calm. }
  unfold IsConnecting, IsConnected. wp_simpl.
  assert (Hgo : wp (if bool_decide (state_ s = kConnecting) &&
                       has (ev_events ev) (Z.lor kPollEventReadable kPollEventWritable)
                    then e ← finish_connect P;
                         match e with
                         | Some error => StartClose true CloseReason.kConnectFailed error;; mret false
                         | None => HandleConnected_with true (after_connected P);; s ← get; mret (connected_ s)
                         end
                    else mret true)
    (fun go s' => prog s' /\ (go = true -> connected_ s' = true \/
       has (ev_events ev) kPollEventReadable = false /\ has (ev_events ev) kPollEventWritable = false)) s).
  { rewrite has_lor. destruct (bool_decide (state_ s = kConnecting)) eqn:Hc; cbn [andb].
    - destruct (_ || _) eqn:Hrw; [| wp_simpl; split; [done |]; intros _; right; by apply orb_false_iff in Hrw].
      wp_simpl. eapply wp_mono; [| apply (Prog_wp (finish_connect P)); [apply Calm_Prog; calm | done]].
      intros [error |] s1 Hp1; wp_simpl.
      + eapply wp_mono; [| apply Prog_wp; [apply Calm_Prog; calm | exact Hp1]]. intros u s2 Hp2. by wp_simpl.
      + eapply wp_mono; [| apply Prog_HandleConnected; [calm | exact Hp1]]. intros u s2 Hp2. wp_simpl. split; [done |]. by left.
    - wp_simpl. split; [done |]. intros _. left. destruct Hp as ([Hs _] & _). rewrite Hs.
      apply bool_decide_eq_false in Hc. destruct (state_ s); try done; exfalso; apply Hst; auto. }
  eapply wp_mono; [| exact Hgo]. intros go s1 [Hp1 Hgo1]. destruct go; cbn [negb]; wp_simpl; [| done].
  specialize (Hgo1 eq_refl). destruct (has (ev_events ev) kPollEventReadable) eqn:HR; wp_simpl.
  - destruct Hgo1 as [Hc1 | [? _]]; [| done].
    eapply wp_mono; [| by apply handle_readable_prog]. intros u s2 Hp2. wp_simpl.
    destruct (connected_ s2); cbn [negb]; wp_simpl; [| done]. destruct (has (ev_events ev) kPollEventWritable); [| by wp_simpl].
    apply Prog_wp; [apply Calm_Prog; calm | done].
  - destruct (has (ev_events ev) kPollEventWritable); [| by wp_simpl]. apply Prog_wp; [apply Calm_Prog; calm | done].
Qed.
(** Taking a task out of the queue leaves the promise to a parse task. *)
Lemma prog_pop t q (s : conn) :
  prog s -> task_queue_ s = t :: q -> t <> TParse -> prog (s <| task_queue_ := q |>).
Proof.
  intros Hp Hq Ht. eapply calm_prog; [exact Hp |]. split; [apply Hp |]. left. split_and!; try done.
  intros Ha. split; [done |]. cbn. rewrite Hq. intros [<- |]%elem_of_cons; [by destruct Ht | done].
Qed.

Lemma Prog_run_task t q (s : conn) :
  prog s -> task_queue_ s = t :: q ->
  wp (run_task_on true (Some decode) tcp self F P t) (fun _ s' => prog s') (s <| task_queue_ := q |>).
Proof.
  intros Hp Hq. destruct t as [addr | reason desc | msg | ev | ev |]; cbn [run_task_on]; unfold IsConnected, UpdateWriteInterest_with.
  - apply Prog_ConnectResolved. by eapply prog_pop.
  - apply Prog_wp; [apply Calm_Prog; calm | by eapply prog_pop].
  - apply Prog_wp; [apply Calm_Prog; calm | by eapply prog_pop].
  - apply Prog_HandlePollEvent. by eapply prog_pop.
  - apply Prog_wp; [apply Calm_Prog; unfold HandleTimerEvent; calm | by eapply prog_pop].
  - destruct Hp as (Hs & Hcl & _). wp_simpl. change (connected_ _) with (connected_ s) at 1.
    destruct (connected_ s) eqn:Hc; wp_simpl; [| apply clean_prog; [done | by apply Hcl]].
    eapply wp_mono; [| by apply ParseInput_progress]. intros r s' [? _]. by wp_simpl.
Qed.

Lemma Prog_drain_round (s : conn) :
  prog s -> accepting_tasks_ s = negb (owner_closing_ s) ->
  wp (drain_round_on true (Some decode) tcp self F P) (fun _ s' => prog s') s.
Proof.
  intros Hp Ho. unfold drain_round_on, DrainTaskQueue. wp_simpl. destruct (owner_closing_ s) eqn:Eo; wp_simpl.
  - eapply wp_mono; [| apply (Prog_wp (StartClose true CloseReason.kRelease "")); [apply Calm_Prog; calm |]].
    + intros u s' ?. by wp_simpl.
    + eapply calm_prog; [exact Hp |]. split; [apply Hp |]. left. split_and!; try done. cbn. by rewrite Ho.
  - destruct (task_queue_ s) as [| t q] eqn:Hq; wp_simpl; [done |].
    eapply wp_mono; [| by eapply Prog_run_task]. intros u s' ?. by wp_simpl.
Qed.

End Common.

Lemma prog_same (s s' : conn) : prog s -> state_ s' = state_ s -> same_input s s' -> prog s'.
Proof.
  intros Hp Es Hsame. eapply calm_prog; [exact Hp |]. split; [| by left]. destruct Hp as [[H1 H2] _].
  destruct Hsame as [Ec _]. split; by rewrite ?Ec, Es.
Qed.

Lemma prog_client_step (s s' : conn) : client_step self s s' -> prog s -> prog s'.
Proof.
  intros Hstep Hp.
  destruct Hstep as [s' Hb | n r b s' Hn He | | data | | ev Hv | T' HT Hr | os' script'].
  - pose proof (Calm_Prog decode _ Calm_Connect_begin s Hp) as Hw. unfold wp in Hw. rewrite Hb in Hw.
    by apply (prog_same _ _ Hw); [| split_and!].
  - assert (Hp' : prog (s <| resolving := n |>)) by (apply (prog_same _ _ Hp); [done | by split_and!]).
    pose proof (Calm_Prog decode _ (Calm_Connect_end r) _ Hp') as Hw. unfold wp in Hw. by rewrite He in Hw.
  - exact (Calm_Prog decode _ (Calm_Post _) s Hp).
  - apply (Prog_wp (SendBuffer data) s); [| done]. apply Calm_Prog. unfold SendBuffer, IsConnected. calm.
  - by apply (prog_same _ _ Hp); [| split_and!].
  - exact (Calm_Prog decode _ (Calm_Post _) s Hp).
  - by apply (prog_same _ _ Hp); [| split_and!].
  - by apply (prog_same _ _ Hp); [| split_and!].
Qed.

Lemma prog_step d (s s' : conn) :
  conn_step (Some decode) tcp local_address self F inet_pton d s s' ->
  accepting_tasks_ s = negb (owner_closing_ s) -> prog s -> prog s'.
Proof.
  intros [s1 Hstep | ev Hv | Hd] Ho Hp; [by eapply prog_client_step | exact (Calm_Prog decode _ (Calm_Post _) s Hp) |].
  exact (Prog_drain_round (posix true (Some decode) tcp local_address F inet_pton) s Hp Ho).
Qed.

Lemma frames_no_frame buf : no_frame decode buf -> frames decode buf = ([], buf, false).
Proof.
  intros [-> | Hn]; [apply frames_nil |]. rewrite frames_unfold by done. destruct buf as [| b buf]; [done |].
  destruct (decode (b :: buf)) as [[] n]; done.
Qed.

Context (T : ConnectionTable) (q : Q) (p : Poller) (m : gmap ConnectionId conn_ref).
Hypothesis table_ok : table_rep T m.
Hypothesis table_room : room T.

Lemma prog_reachable d s :
  conn_reachable (Some decode) tcp local_address self F inet_pton d T q p s -> prog s.
Proof.
  intros Hs. unfold conn_reachable in Hs.
  assert (Hcod : forall dec, Some decode = Some dec -> StreamCodec dec) by (by intros ? [= <-]).
  pattern s. refine (rtc_ind_r _ _ _ _ _ Hs); clear s Hs.
  - split; [done |]. split; [done |]. done.
  - intros s1 s2 H1 H12 IH. eapply prog_step; [exact H12 | | done].
    by destruct (conn_reachable_inv (Some decode) Hcod self false tcp local_address F inet_pton d T q p m s1 eq_refl table_ok table_room H1) as [[] _].
Qed.

(** C9: Received frames are never left lying. In every reachable state of a session
    whose owner has not released it, either a parse task is queued, or every complete
    frame received so far has been delivered ([recv_buffer_] is exactly what the
    reference framing leaves over) and no close is waiting for the input to drain. *)
Theorem connection_input_progress (d : bool) (s : conn) :
  conn_reachable (Some decode) tcp local_address self F inet_pton d T q p s ->
  connected_ s = true -> accepting_tasks_ s = true ->
  TParse ∈ task_queue_ s \/
  deferred_close_pending_ s = false /\
  frames decode (rx (session_of (trace s))) = (msgs (session_of (trace s)), chunks_bytes (recv_buffer_ s), false).
Proof.
  intros Hs Hc Ha. destruct (prog_reachable d s Hs) as (_ & _ & Hp). specialize (Hp Hc Ha).
  assert (Hcod : forall dec, Some decode = Some dec -> StreamCodec dec) by (by intros ? [= <-]).
  destruct (parse_continuation_pending_ s); [by left | right]. destruct Hp as [Hd Hn]. split; [done |].
  destruct (conn_reachable_inv (Some decode) Hcod self false tcp local_address F inet_pton d T q p m s eq_refl table_ok table_room Hs) as [HD _].
  rewrite (parsed_frames _ _ _ _ (i_input _ _ _ HD)), (frames_no_frame _ Hn). by rewrite app_nil_r.
Qed.
End Steps.

Lemma connection_input_progress_witness :
  frames (DelimiterCodec_Decode Demo.newline) (rx (session_of (trace Demo.s))) =
    ([[Byte.x61; Byte.x62; Demo.newline]; [Byte.x63; Byte.x64; Demo.newline]], [Byte.x65], false).
Proof.
  assert (Ha : accepting_tasks_ Demo.s = true) by (vm_compute; reflexivity).
  assert (Hq : task_queue_ Demo.s = []) by (vm_compute; reflexivity).
  destruct (connection_input_progress (DelimiterCodec_Decode Demo.newline) Demo.tcp None 0 Demo.strerror Demo.inet_pton
    ConnectionTable_new Demo.q Demo.p ∅ table_rep_empty Demo.room_new true Demo.s Demo.reachable Demo.s_connected Ha)
    as [Hin | [_ H]].
  - rewrite Hq in Hin. by apply not_elem_of_nil in Hin.
  - rewrite Demo.s_msgs, Demo.s_recv in H. exact H.
Defined.
