(* ===== verification/WinConnection.v ===== *)
(** * A client connection on Windows

    [src/net/client_connection_win32.cc]: the methods of [ClientConnection] that differ
    from the POSIX half. Nothing waits for readiness: a receive and a send are requests
    that are handed to the kernel and come back, completed, as events of the poll thread.
    The rest of the connection is [Connection.v], run over [windows] in place of [posix].

    The poller is seen from the connection: [win_requests] are the requests that the
    kernel or its completion port holds (that each of them is handed over at most once,
    and with the buffer the kernel left, is what [Iocp.v] proves), and the results of the
    calls come from [os]. Closing cancels what the kernel holds; a cancelled request
    completes like any other, with an error, at any later time. [poller] and
    [poll_interest_] belong to the other platforms and are not used. A [SOCKET] is unsigned and
    [INVALID_SOCKET] its largest value; here it is -1, so that [IsValidSocketHandle] reads the same
    on all platforms. *)

From S2P Require Import Prelude Codec SliceBuffer ConnTable Timer Poller Iocp Address Connection.

Definition WSA_IO_PENDING : Z := 997.

Section WinConnection.
Context `{SizeT} `{PQ : PriorityQueue Q}.
Context (has_handler : bool) (codec : option decode_fn) (tcp : TcpOptions) (local_address : option str).
Context (self : conn_ref).
Context (FormatErrorMessage : Z -> string) (inet_pton : Z -> str -> option (list byte)).
#[local] Abbreviation M := (@Connection.M Q).
#[local] Abbreviation StartClose := (Connection.StartClose has_handler).

(** ** Connecting *)

Definition SetNonBlocking : M (option Z) := must_succeed (fun rc => rc =? 0).

Definition ApplyTcpOptions : M (option string) :=
  e ← SetNonBlocking;
  if e is Some e then mret (Some (FormatErrorMessage e)) else
  e ← (if negb (tcp_nodelay tcp =? 0) then must_succeed (fun rc => rc =? 0) else mret None);
  if e is Some e then mret (Some (FormatErrorMessage e)) else
  ignore_call (0 <? send_buffer_size tcp);;
  ignore_call (0 <? recv_buffer_size tcp);;
  ignore_call (0 <=? linger_sec tcp);;
  mret None.

(** The port, [htons(0)], is already there. *)
Definition MakeWildcardAddress (family : Z) : connx_resolved_address :=
  if family =? AF_INET6 then
    {| ra_addr := ra_addr (write_addr zero_address 0 (le_bytes 2 AF_INET6)); ra_len := sizeof_sockaddr_in6 |}
  else
    {| ra_addr := ra_addr (write_addr zero_address 0 (le_bytes 2 AF_INET)); ra_len := sizeof_sockaddr_in |}.

(** The address the socket is bound to. *)
Definition local_addr (addr : connx_resolved_address) : option connx_resolved_address :=
  match local_address with
  | Some local => connx_string_to_sockaddr inet_pton local 0
  | None => Some (MakeWildcardAddress (sa_family addr))
  end.

Definition PlatformOpenSocket (addr : connx_resolved_address) : M (Z + string) :=
  '(fd, err) ← sys_call;
  if negb (IsValidSocketHandle fd) then mret (inr (FormatErrorMessage err))
  else
    emit (EvSocket fd);;
    e ← ApplyTcpOptions;
    if e is Some error then emit (EvClose fd);; mret (inr error) else
    match local_addr addr with
    | None => emit (EvClose fd);; mret (inr "invalid local address"%string)
    | Some _ =>
        e ← must_succeed (fun rc => rc =? 0);
        if e is Some e then emit (EvClose fd);; mret (inr (FormatErrorMessage e))
        else mret (inl fd)
    end.

(** ** The poller *)

(** [state != nullptr && IsValidSocketHandle(fd)]; whether the poller is initialized is
    a choice of [os]. *)
Definition poller_usable : M (bool * Z) :=
  '(up, err) ← sys_call;
  s ← get;
  mret (negb (up =? 0) && IsValidSocketHandle (fd_ s), err).

(** [Poller::Add]: the error of [GetLastError] if it fails. *)
Definition poller_Add : M (option Z) :=
  '(usable, err) ← poller_usable;
  if negb usable then mret (Some err)
  else '(h, err) ← sys_call; mret (if h =? 0 then Some err else None).

(** The call of the kernel; [ok] tells from its result whether it succeeded. *)
Definition submit (ok : Z -> bool) (req : WinIoRequest) : M (option string) :=
  '(rc, err) ← sys_call;
  if ok rc || (err =? WSA_IO_PENDING) then
    emit (EvStart req);;
    modify (fun s => s <| win_requests := win_requests s ++ [req] |>);;
    mret None
  else mret (Some (FormatErrorMessage err)).

(** [Poller::StartConnect]; the first call is that of [LoadConnectEx], which succeeds
    without one when the function is known. *)
Definition poller_StartConnect (id : ConnectionId) : M (option string) :=
  '(usable, _) ← poller_usable;
  if negb usable then mret (Some "poller is not initialized"%string)
  else
    e ← must_succeed (fun rc => rc =? 0);
    if e is Some e then mret (Some (FormatErrorMessage e))
    else submit (fun ok => negb (ok =? 0)) {| operation := kPollOpConnect; req_id := id; req_buffer := [] |}.

Definition poller_StartRecv (id : ConnectionId) (len : Z) : M (option string) :=
  '(usable, _) ← poller_usable;
  if negb usable then mret (Some "poller is not initialized"%string)
  else submit (fun rc => rc =? 0) (recv_request id len).

Definition poller_StartSend (id : ConnectionId) (data : list byte) : M (option string) :=
  '(usable, _) ← poller_usable;
  if negb usable then mret (Some "poller is not initialized"%string)
  else submit (fun rc => rc =? 0) (send_request id data).

(** ** The platform's methods *)

Definition PlatformConnect (addr : connx_resolved_address) : M connect_rc :=
  e ← poller_Add;
  if e is Some err then mret (ConnectError (FormatErrorMessage err)) else
  s ← get;
  e ← poller_StartConnect (id_ s);
  mret (match e with Some error => ConnectError error | None => ConnectInProgress end).

Definition PlatformFinishConnect : M (option string) := mret None.

Definition PlatformStartRecv : M (option string) :=
  s ← get;
  if recv_pending_ s || negb (valid (id_ s)) || negb (IsValidSocketHandle (fd_ s)) then mret None
  else
    modify (fun s => s <| recv_pending_ := true |>);;
    e ← poller_StartRecv (id_ s) recv_cache_size;
    match e with
    | Some error => modify (fun s => s <| recv_pending_ := false |>);; mret (Some error)
    | None => mret None
    end.

Definition PlatformAfterConnected : M (option string) :=
  e ← must_succeed (fun rc => rc =? 0);
  if e is Some e then mret (Some (FormatErrorMessage e)) else PlatformStartRecv.

Definition PlatformStartSend : M (unit + string) :=
  s ← get;
  match send_buffer_ s with
  | [] => mret (inl tt)
  | front :: _ =>
      if send_pending_ s || negb (valid (id_ s)) || negb (IsValidSocketHandle (fd_ s)) then mret (inl tt)
      else
        modify (fun s => s <| send_pending_ := true |>);;
        e ← poller_StartSend (id_ s) front;
        match e with
        | Some error => modify (fun s => s <| send_pending_ := false |>);; mret (inr error)
        | None => mret (inl tt)
        end
  end.

Definition HandleConnected : M unit := HandleConnected_with has_handler PlatformAfterConnected.

(** ** Completions *)

Definition HandleConnectCompletion (ev : PollEvent) : M unit :=
  if has (ev_events ev) kPollEventError then
    StartClose CloseReason.kConnectFailed (FormatErrorMessage (ev_error_code ev))
  else HandleConnected.

(** The end of the stream: what was received is parsed first. *)
Definition HandleRecvEof : M unit :=
  s ← get;
  if 0 <? zlen (chunks_bytes (recv_buffer_ s)) then
    DeferCloseUntilInputDrained CloseReason.kRemoteClosed "";;
    s ← get;
    when (negb (parse_continuation_pending_ s)) (_ ← ParseInput has_handler codec; mret tt)
  else StartClose CloseReason.kRemoteClosed "".

(** [EvRecv] is what the connection takes to have been received; what the kernel received is
    [EvArrived]. *)
Definition HandleRecvCompletion (ev : PollEvent) : M unit :=
  modify (fun s => s <| recv_pending_ := false |>);;
  c ← IsConnected;
  if negb c then mret tt
  else if has (ev_events ev) kPollEventError then
    StartClose CloseReason.kError (FormatErrorMessage (ev_error_code ev))
  else if ev_bytes_transferred ev =? 0 then HandleRecvEof
  else
    match ev_data ev with
    | None => StartClose CloseReason.kError "invalid recv completion"
    | Some buffer =>
        if zlen buffer <? ev_bytes_transferred ev then StartClose CloseReason.kError "invalid recv completion"
        else
          let bytes := ztake (ev_bytes_transferred ev) buffer in
          emit (EvRecv bytes);;
          modify (fun s => s <| bytes_received_ := u64 (bytes_received_ s + ev_bytes_transferred ev) |>
                             <| recv_buffer_ := chunks_add (recv_buffer_ s) bytes |>);;
          status ← ParseInput has_handler codec;
          match status with
          | kClosed => mret tt
          | _ =>
              e ← PlatformStartRecv;
              match e with
              | Some error => StartClose CloseReason.kError error
              | None => mret tt
              end
          end
    end.

(** [send_buffer_.MoveHeader(n)]. [EvSent] is what the connection takes to have been sent, when it
    handles the completion; what the kernel sent is [EvTaken], when the request completes. *)
Definition send_MoveHeader (n : Z) : M bool :=
  s ← get;
  if zlen (chunks_bytes (send_buffer_ s)) <? n then mret false
  else
    emit (EvSent (ztake n (chunks_bytes (send_buffer_ s))));;
    modify (fun s => s <| send_buffer_ := chunks_drop n (send_buffer_ s) |>);;
    mret true.

Definition HandleSendCompletion (ev : PollEvent) : M unit :=
  modify (fun s => s <| send_pending_ := false |>);;
  c ← IsConnected;
  if negb c then mret tt
  else if has (ev_events ev) kPollEventError then
    StartClose CloseReason.kError (FormatErrorMessage (ev_error_code ev))
  else
    moved ← (if 0 <? ev_bytes_transferred ev then
               modify (fun s => s <| bytes_sent_ := u64 (bytes_sent_ s + ev_bytes_transferred ev) |>
                                  <| pending_bytes_ := usize (pending_bytes_ s - ev_bytes_transferred ev) |>);;
               send_MoveHeader (ev_bytes_transferred ev)
             else mret true);
    if negb moved then StartClose CloseReason.kError "invalid send completion"
    else
      r ← PlatformStartSend;
      match r with
      | inr error => StartClose CloseReason.kError error
      | inl _ => mret tt
      end.

Definition windows : Platform :=
  {| open_socket := PlatformOpenSocket; start_connect := PlatformConnect; finish_connect := PlatformFinishConnect;
     after_connected := PlatformAfterConnected; handle_readable := mret tt; handle_writable := mret tt;
     start_send := PlatformStartSend; connect_completion := HandleConnectCompletion;
     recv_completion := HandleRecvCompletion; send_completion := HandleSendCompletion |}.

Definition drain_round : M drained := drain_round_on has_handler codec tcp self FormatErrorMessage windows.

End WinConnection.
