(* ===== verification/WinProofs.v ===== *)
(** * The connection on Windows: the contract of its methods

    [WinConnection.windows] keeps the promises that [ConnProofs.v] and [ConnProgress.v]
    make use of, so what they prove of the common code holds on Windows too. *)

From S2P Require Import Prelude Codec SliceBuffer ConnTable Timer Poller Iocp Address Connection WinConnection ConnInv ConnProofs ConnTheorems ConnProgress.

(** ** What the methods do *)

Section Methods.
Context `{SizeT} `{PQ : PriorityQueue Q}.
Context (tcp : TcpOptions) (local_address : option str).
Context (FormatErrorMessage : Z -> string) (inet_pton : Z -> str -> option (list byte)).
#[local] Abbreviation conn := (@Connection.conn Q).
#[local] Abbreviation F := FormatErrorMessage.

(** A request was handed to the kernel. *)
Definition started (req : WinIoRequest) (o : list sysret) (s : conn) : conn :=
  s <| os := o |> <| trace := EvStart req :: trace s |> <| win_requests := win_requests s ++ [req] |>.

(** [m] hands [req] to the kernel, or fails and changes nothing. *)
Definition starts (req : WinIoRequest) (m : @M Q (option string)) : Prop :=
  forall s : conn, wp m (fun e s' => exists o,
    s' = match e with Some _ => s <| os := o |> | None => started req o s end) s.

Lemma starts_submit ok req : starts req (submit F ok req).
Proof.
  intros s. unfold submit. wp_simpl. apply wp_sys_call. intros rc err _. destruct (_ || _); wp_simpl; by eexists.
Qed.

Lemma starts_bind {A} req (m : @M Q A) k : os_only m -> (forall a, starts req (k a)) -> starts req (m ≫= k).
Proof.
  intros Hm Hk s. wp_simpl. eapply wp_mono; [| apply Hm]. intros a s1 [o ->].
  eapply wp_mono; [| apply Hk]. intros e s2 [o' ->]. exists o'. by destruct e.
Qed.

Lemma starts_error req e : starts req (mret (Some e)).
Proof. intros s. exists (os s). by destruct s. Qed.

Lemma os_only_get : os_only (@get Q).
Proof. intros s. exists (os s). by destruct s. Qed.

Lemma os_only_usable : os_only (@poller_usable Q).
Proof. apply os_only_bind; [apply os_only_call |]. intros [up err]. apply os_only_bind; [apply os_only_get |]. intros s. apply os_only_ret. Qed.

Lemma starts_poller req (k : @M Q (option string)) :
  starts req k ->
  starts req ('(usable, _) ← poller_usable; if negb usable then mret (Some "poller is not initialized"%string) else k).
Proof.
  intros Hk. apply starts_bind; [apply os_only_usable |]. intros [usable err]. destruct (negb usable); [apply starts_error | done].
Qed.

Lemma starts_StartConnect id :
  starts {| operation := kPollOpConnect; req_id := id; req_buffer := [] |} (poller_StartConnect F id).
Proof.
  apply starts_poller, starts_bind; [apply os_only_must |]. intros [e |]; [apply starts_error | apply starts_submit].
Qed.

Lemma starts_StartRecv id len : starts (recv_request id len) (poller_StartRecv F id len).
Proof. apply starts_poller, starts_submit. Qed.

Lemma starts_StartSend id data : starts (send_request id data) (poller_StartSend F id data).
Proof. apply starts_poller, starts_submit. Qed.

Lemma os_only_Add : os_only (@poller_Add Q).
Proof.
  apply os_only_bind; [apply os_only_usable |]. intros [usable err]. destruct (negb usable); [apply os_only_ret |].
  apply os_only_bind; [apply os_only_call |]. intros [h err']. apply os_only_ret.
Qed.

(** A receive can be started. *)
Definition can_recv (s : conn) : bool := negb (recv_pending_ s) && valid (id_ s) && fd_ok s.
Definition can_send (s : conn) : bool := negb (send_pending_ s) && valid (id_ s) && fd_ok s.

Lemma PlatformStartRecv_spec (s : conn) :
  wp (PlatformStartRecv F) (fun e s' => exists o,
    s' = match e with
         | Some _ => s <| os := o |>
         | None => if can_recv s then started (recv_request (id_ s) recv_cache_size) o s <| recv_pending_ := true |> else s
         end) s.
Proof.
  unfold PlatformStartRecv, can_recv, fd_ok. wp_simpl.
  destruct (recv_pending_ s) eqn:Er; [by exists (os s) |]. destruct (valid (id_ s)); [| by exists (os s)].
  destruct (IsValidSocketHandle (fd_ s)); [| by exists (os s)]. cbn [negb orb andb]. wp_simpl.
  eapply wp_mono; [| apply starts_StartRecv]. intros [e |] s1 [o ->]; wp_simpl; exists o; [| done].
  destruct s. cbn in *. by subst.
Qed.

Lemma PlatformStartSend_spec (s : conn) :
  wp (PlatformStartSend F) (fun r s' => exists o,
    s' = match r, send_buffer_ s with
         | inl _, front :: _ =>
             if can_send s then started (send_request (id_ s) front) o s <| send_pending_ := true |> else s
         | inl _, [] => s
         | inr _, _ => s <| os := o |>
         end) s.
Proof.
  unfold PlatformStartSend, can_send, fd_ok. wp_simpl. destruct (send_buffer_ s) as [| front rest]; [by exists (os s) |].
  destruct (send_pending_ s) eqn:Er; [by exists (os s) |]. destruct (valid (id_ s)); [| by exists (os s)].
  destruct (IsValidSocketHandle (fd_ s)); [| by exists (os s)]. cbn [negb orb andb]. wp_simpl.
  eapply wp_mono; [| apply starts_StartSend]. intros [e |] s1 [o ->]; wp_simpl; exists o; [| done].
  destruct s. cbn in *. by subst.
Qed.

Lemma PlatformConnect_spec addr (s : conn) :
  wp (PlatformConnect F addr) (fun rc s' => exists o,
    match rc with
    | ConnectDone => False
    | ConnectInProgress => s' = started {| operation := kPollOpConnect; req_id := id_ s; req_buffer := [] |} o s
    | ConnectError _ => s' = s <| os := o |>
    end) s.
Proof.
  unfold PlatformConnect. wp_simpl. eapply wp_mono; [| apply os_only_Add]. intros [err |] s1 [o ->]; wp_simpl; [by exists o |].
  eapply wp_mono; [| apply starts_StartConnect]. intros [e |] s2 [o' ->]; wp_simpl; by exists o'.
Qed.

Lemma PlatformAfterConnected_spec (s : conn) :
  wp (PlatformAfterConnected F) (fun e s' => exists o,
    s' = match e with
         | Some _ => s <| os := o |>
         | None => if can_recv s then started (recv_request (id_ s) recv_cache_size) o s <| recv_pending_ := true |>
                   else s <| os := o |>
         end) s.
Proof.
  unfold PlatformAfterConnected. wp_simpl. eapply wp_mono; [| apply os_only_must].
  intros [err |] s1 [o ->]; wp_simpl; [by exists o |]. eapply wp_mono; [| apply PlatformStartRecv_spec].
  intros [e |] s2 [o' ->]; [by exists o' |]. change (can_recv (s <| os := o |>)) with (can_recv s).
  destruct (can_recv s); [by exists o' | by exists o].
Qed.

Lemma os_only_win_options : os_only (@WinConnection.ApplyTcpOptions Q tcp F).
Proof. unfold WinConnection.ApplyTcpOptions, SetNonBlocking. os_only_tac. Qed.

Lemma WinOpenSocket_state addr (s : conn) :
  wp (WinConnection.PlatformOpenSocket tcp local_address F inet_pton addr)
    (fun r s' => exists o tr, s' = s <| os := o |> <| trace := tr |> /\
       match r with
       | inl fd => IsValidSocketHandle fd = true /\ tr = EvSocket fd :: trace s
       | inr _ => tr = trace s \/ exists fd, tr = EvClose fd :: EvSocket fd :: trace s
       end) s.
Proof.
  unfold WinConnection.PlatformOpenSocket. wp_simpl. apply wp_sys_call. intros fd errno _.
  destruct (IsValidSocketHandle fd) eqn:Ev; cbn [negb]; wp_simpl.
  2: { exists (tail (os s)), (trace s). split; [by destruct s | by left]. }
  eapply wp_mono; [| apply os_only_win_options]. intros e s1 [o ->].
  destruct e as [e |]; wp_simpl; [eexists _, _; split; [by destruct s | right; by eexists] |].
  destruct (local_addr local_address inet_pton addr); wp_simpl; [| eexists _, _; split; [by destruct s | right; by eexists]].
  eapply wp_mono; [| apply os_only_must]. intros e s2 [o' ->].
  destruct e as [e |]; wp_simpl; eexists _, _; (split; [by destruct s |]); [right; by eexists | done].
Qed.

Lemma WinOpenSocket_spec addr (s : conn) :
  wp (WinConnection.PlatformOpenSocket tcp local_address F inet_pton addr)
    (fun r s' => exists o tr p, s' = s <| os := o |> <| trace := tr |> <| poller := p |> /\
       match r with
       | inl fd => IsValidSocketHandle fd = true /\ tr = EvSocket fd :: trace s
       | inr _ => tr = trace s \/ exists fd, tr = EvClose fd :: EvSocket fd :: trace s
       end) s.
Proof.
  eapply wp_mono; [| apply WinOpenSocket_state]. intros r s' (o & tr & -> & Hr). exists o, tr, (poller s). split; [by destruct s | done].
Qed.

End Methods.

(** ** The invariant *)

Section Contract.
Context `{SizeT} `{PQ : PriorityQueue Q}.
Context (codec : option decode_fn).
Hypothesis codec_ok : forall decode, codec = Some decode -> StreamCodec decode.
Context (tcp : TcpOptions) (local_address : option str) (self : conn_ref).
Context (FormatErrorMessage : Z -> string) (inet_pton : Z -> str -> option (list byte)).
#[local] Abbreviation conn := (@Connection.conn Q).
#[local] Abbreviation F := FormatErrorMessage.
#[local] Abbreviation inv_at := (@ConnInv.inv_at _ Q codec self true).
#[local] Abbreviation inv := (@ConnInv.inv _ Q codec self true).

Lemma inv_started d s input req o rp sp :
  inv_at d s input -> inv_at d (started req o s <| recv_pending_ := rp |> <| send_pending_ := sp |>) input.
Proof. intros HI. by eapply (inv_ext_io codec self true d s _ input (EvStart req)). Qed.

Lemma inv_os d s input o : inv_at d s input -> inv_at d (s <| os := o |>) input.
Proof. intros HI. by eapply (inv_ext codec self true d s). Qed.

Lemma WinConnect_ok d addr s :
  inv d s -> wp (WinConnection.PlatformConnect F addr) (fun _ s' => inv d s' /\ state_ s' = state_ s /\ fd_ok s' = fd_ok s) s.
Proof.
  intros HI. eapply wp_mono; [| apply PlatformConnect_spec]. intros [| | e] s' [o Hs']; [done | |]; subst s'; (split; [| done]).
  - by apply (inv_started d s _ _ o (recv_pending_ s) (send_pending_ s)).
  - by apply inv_os.
Qed.

(** After a successful or superfluous start of a receive. *)
Lemma inv_recv_started d s input o :
  inv_at d s input ->
  inv_at d (if can_recv s then started (recv_request (id_ s) recv_cache_size) o s <| recv_pending_ := true |>
            else s <| os := o |>) input.
Proof.
  intros HI. destruct (can_recv s); [| by apply inv_os]. by apply (inv_started d s _ _ o true (send_pending_ s)).
Qed.

Lemma WinHandleConnected_ok d s :
  inv d s -> (d = true -> state_ s = kConnecting -> fd_ok s = true) ->
  wp (HandleConnected_with true (WinConnection.PlatformAfterConnected F)) (fun _ s' => inv d s') s.
Proof.
  intros HI Hf. unfold HandleConnected_with. wp_simpl. case_bool_decide as Hst; cbn [negb]; wp_simpl; [| done].
  set (s0 := s <| connect_deadline_ms_ := 0 |>). assert (HI0 : inv d s0) by (by eapply (inv_ext codec self true d s)).
  eapply wp_mono; [| apply PlatformAfterConnected_spec]. intros [e |] s1 [o Hs1].
  - subst s1. eapply (StartClose_attempt codec self true d); [by apply inv_os | | done]. intros Hd _. split; [done | by apply Hf].
  - assert (HI1 : inv_at d s1 (chunks_bytes (recv_buffer_ s0))) by (subst s1; by apply inv_recv_started).
    assert (E : state_ s1 = kConnecting /\ fd_ok s1 = fd_ok s /\ recv_buffer_ s1 = recv_buffer_ s0) by (subst s1; by destruct (can_recv s0)).
    clear Hs1. destruct E as (Est & Ef & Er). wp_simpl. rewrite bool_decide_true by done. cbn [negb]. wp_simpl.
    rewrite <- Er in HI1.
    eapply wp_mono; [| eapply (run_callback_ok codec self true d)].
    2: { apply (inv_connected codec self true d s1 HI1 Est). intros Hd. rewrite Ef. split; [by apply Hf | done]. }
    intros u s' [[(_ & Hr & _) HI'] | [_ ?]]; [| done]. unfold ConnInv.inv. rewrite Hr. exact HI'.
Qed.

Lemma inv_send_started d s input (r : unit + string) o :
  inv_at d s input ->
  inv_at d match r, send_buffer_ s with
           | inl _, front :: _ => if can_send s then started (send_request (id_ s) front) o s <| send_pending_ := true |> else s
           | inl _, [] => s
           | inr _, _ => s <| os := o |>
           end input.
Proof.
  intros HI. destruct r, (send_buffer_ s); [done | | by apply inv_os ..]. destruct (can_send s); [| done].
  by apply (inv_started d s _ _ o (recv_pending_ s) true).
Qed.

(** [PlatformStartSend] and the close if it fails. *)
Lemma WinStartSend_ok d s :
  inv d s -> connected_ s = true ->
  wp (r ← WinConnection.PlatformStartSend F;
      match r with inl _ => mret tt | inr error => StartClose true CloseReason.kError error end) (fun _ s' => inv d s') s.
Proof.
  intros HI Hc. wp_simpl. eapply wp_mono; [| apply PlatformStartSend_spec]. intros r s1 [o Hs1].
  pose proof (inv_send_started d s _ r o HI) as HI1. rewrite <- Hs1 in HI1.
  assert (E : connected_ s1 = true /\ recv_buffer_ s1 = recv_buffer_ s).
  { subst s1. destruct r, (send_buffer_ s); [done | | done ..]. by destruct (can_send s). }
  destruct E as [Hc1 Er]. destruct r as [[] | e]; wp_simpl; [unfold ConnInv.inv; rewrite Er; exact HI1 |].
  eapply wp_mono; [| by eapply (StartClose_connected codec self true d s1)]. by intros u s' [_ ?].
Qed.

Lemma WinUpdateWriteInterest_ok d s :
  inv_data codec s (chunks_bytes (recv_buffer_ s)) -> (d = true -> inv_core self true s) -> connected_ s = true ->
  wp (UpdateWriteInterest_with true (WinConnection.PlatformStartSend F)) (fun _ s' => inv d s') s.
Proof.
  intros HD HC Hc. assert (HI : inv d s) by (split; [done | intros Hd; split; [by apply HC | done]]).
  unfold UpdateWriteInterest_with. wp_simpl. destruct (_ || _); [by wp_simpl |].
  pose proof (WinStartSend_ok d s HI Hc) as Hw. wp_simpl. by rewrite wp_bind in Hw.
Qed.

(** A close of a connection that is up. *)
Lemma StartClose_up d s reason desc :
  inv d s -> connected_ s = true -> reason_fits reason true ->
  wp (StartClose true reason desc) (fun _ s' => inv d s') s.
Proof. intros HI Hc Hr. eapply wp_mono; [| by eapply (StartClose_connected codec self true d s)]. by intros u s' [_ ?]. Qed.

Lemma HandleConnectCompletion_ok d s ev :
  inv d s -> (d = true -> fd_ok s = true /\ connected_ s = false) ->
  wp (HandleConnectCompletion true F ev) (fun _ s' => inv d s') s.
Proof.
  intros HI Hf. unfold HandleConnectCompletion, WinConnection.HandleConnected. destruct (has _ _).
  - apply (StartClose_attempt codec self true d s); [done | | done]. intros Hd Hni. destruct (Hf Hd) as [? Hc]. split; [| done].
    destruct HI as [[Hcs Hcl] _]. rewrite Hcs in Hc. apply bool_decide_eq_false in Hc. by destruct (state_ s).
  - apply WinHandleConnected_ok; [done |]. intros Hd _. by apply Hf.
Qed.

Lemma HandleRecvEof_ok d s :
  inv d s -> connected_ s = true -> wp (HandleRecvEof true codec) (fun _ s' => inv d s') s.
Proof.
  intros HI Hc. unfold HandleRecvEof. wp_simpl. destruct (0 <? _); [| by apply StartClose_up].
  unfold DeferCloseUntilInputDrained. wp_simpl.
  match goal with |- if _ then wp _ _ ?x else _ => set (s1 := x) end.
  assert (HI1 : inv d s1).
  { destruct HI as [HD HC]. split; [destruct HD; split; cbn; try done; intros _; by left |].
    intros Hd. by eapply (inv_disc_ext self true s); [apply HC | ..]. }
  destruct (negb _); [| done]. wp_simpl.
  eapply wp_mono; [| by apply (ParseInput_ok codec codec_ok self true d s1)]. intros r s' [? _]. by wp_simpl.
Qed.

(** What a completed receive brings enters the receive buffer; what a completed send
    took leaves the send buffer. *)
Lemma inv_recv_completed d s n buffer :
  inv d s -> connected_ s = true ->
  inv d (s <| trace := EvRecv (ztake n buffer) :: trace s |> <| bytes_received_ := u64 (bytes_received_ s + n) |>
           <| recv_buffer_ := chunks_add (recv_buffer_ s) (ztake n buffer) |>).
Proof.
  intros HI Hc. eapply (inv_ext codec self true d); [apply (inv_received codec codec_ok self true d s (ztake n buffer) (os s) HI Hc) | done ..].
Qed.

Lemma inv_send_completed d s n :
  inv d s -> connected_ s = true -> 0 <= n <= zlen (chunks_bytes (send_buffer_ s)) ->
  inv d (s <| bytes_sent_ := u64 (bytes_sent_ s + n) |> <| pending_bytes_ := usize (pending_bytes_ s - n) |>
           <| trace := EvSent (ztake n (chunks_bytes (send_buffer_ s))) :: trace s |>
           <| send_buffer_ := chunks_drop n (send_buffer_ s) |>).
Proof.
  intros [HD HC] Hc Hn. split.
  - apply (inv_sent codec s _ n (os s) HD Hc). lia.
  - intros Hd. destruct (HC Hd) as [HK _]. split; [| done].
    eapply (inv_core_ext self true s); [exact HK | by apply phase_emit | done ..].
Qed.

Lemma HandleRecvCompletion_ok d s ev :
  inv d s -> wp (HandleRecvCompletion true codec F ev) (fun _ s' => inv d s') s.
Proof.
  intros HI. unfold HandleRecvCompletion, IsConnected. wp_simpl. set (s1 := s <| recv_pending_ := false |>).
  assert (HI1 : inv d s1) by (by eapply (inv_ext codec self true d s)).
  destruct (connected_ s1) eqn:Hc; cbn [negb]; wp_simpl; [| done].
  destruct (has _ _); [by apply StartClose_up |]. destruct (_ =? 0); [by apply HandleRecvEof_ok |].
  destruct (ev_data ev) as [buffer |]; [| by apply StartClose_up].
  destruct (Z.ltb_spec (zlen buffer) (ev_bytes_transferred ev)) as [? | Hle]; [by apply StartClose_up |].
  wp_simpl. match goal with |- wp _ _ ?x => set (s2 := x) end.
  assert (HI2 : inv d s2) by (by apply (inv_recv_completed d s1)).
  eapply wp_mono; [| by apply (ParseInput_ok codec codec_ok self true d s2)]. intros r s3 [HI3 Hr].
  assert (Hgo : r <> kClosed -> wp (e ← WinConnection.PlatformStartRecv F;
    match e with Some error => StartClose true CloseReason.kError error | None => mret tt end) (fun _ s' => inv d s') s3).
  { intros Hne. assert (Hc3 : connected_ s3 = true) by (destruct (connected_ s3); [done | by destruct (Hne (proj2 Hr eq_refl))]).
    wp_simpl. eapply wp_mono; [| apply PlatformStartRecv_spec]. intros [e |] s4 [o ->]; wp_simpl.
    - apply StartClose_up; [by apply inv_os | done | done].
    - destruct (can_recv s3); [| done]. by apply (inv_started d s3 _ _ o true (send_pending_ s3)). }
  destruct r; [by apply Hgo | by apply Hgo | by wp_simpl].
Qed.

Lemma HandleSendCompletion_ok d s ev :
  inv d s -> wp (HandleSendCompletion true F ev) (fun _ s' => inv d s') s.
Proof.
  intros HI. unfold HandleSendCompletion, IsConnected. wp_simpl. set (s1 := s <| send_pending_ := false |>).
  assert (HI1 : inv d s1) by (by eapply (inv_ext codec self true d s)).
  destruct (connected_ s1) eqn:Hc; cbn [negb]; wp_simpl; [| done].
  destruct (has _ _); [by apply StartClose_up |]. set (n := ev_bytes_transferred ev).
  destruct (Z.ltb_spec 0 n) as [Hn | Hn]; wp_simpl; cbn [negb].
  - unfold send_MoveHeader. wp_simpl. change (send_buffer_ (_ <| pending_bytes_ := _ |>)) with (send_buffer_ s1).
    destruct (Z.ltb_spec (zlen (chunks_bytes (send_buffer_ s1))) n) as [Hlt | Hle];
      wp_simpl; cbn [negb].
    + eapply wp_mono; [| eapply (StartClose_closable codec self true d)].
      * intros u s' [[Hs ->] | [_ ?]]; [| done]. destruct HI1 as [[Hcs _] _]. rewrite Hc in Hcs. cbn in Hs.
        symmetry in Hcs. apply bool_decide_eq_true in Hcs. change (state_ s1) with (state_ s) in Hcs. congruence.
      * exact (inv_data_closable codec s1 _ (proj1 HI1)).
      * intros Hd. destruct (proj2 HI1 Hd) as [[[] _ _ _] _]. by split.
      * intros Hd _. split; [exact Hc |]. apply (inv_attempts_connected codec self true d s1 _ (proj1 HI1)); [| done | done].
        intros _. by apply HI1.
    + match goal with |- wp _ _ ?x => set (s2 := x) end.
      assert (HI2 : inv d s2) by (apply (inv_send_completed d s1); [done | done | lia]).
      pose proof (WinStartSend_ok d s2 HI2 Hc) as Hw. rewrite wp_bind in Hw. wp_simpl. exact Hw.
  - pose proof (WinStartSend_ok d s1 HI1 Hc) as Hw. rewrite wp_bind in Hw. wp_simpl. exact Hw.
Qed.

#[export] Instance windows_ok : @PlatformOk _ Q codec self true (windows true codec tcp local_address F inet_pton).
Proof.
  split; cbn [open_socket start_connect finish_connect after_connected handle_readable handle_writable start_send
    connect_completion recv_completion send_completion windows]; intros; try done.
  - apply WinOpenSocket_spec.
  - by apply WinConnect_ok.
  - apply os_only_ret.
  - by apply WinHandleConnected_ok.
  - by apply WinUpdateWriteInterest_ok.
  - apply HandleConnectCompletion_ok; [done |]. intros Hd. destruct (H1 Hd) as [? Hc]. auto.
  - by apply HandleRecvCompletion_ok.
  - by apply HandleSendCompletion_ok.
Qed.

End Contract.

(** ** Progress of the input *)

Section Calm.
Context `{SizeT} `{PQ : PriorityQueue Q}.
Context (decode : decode_fn) `{!StreamCodec decode}.
Context (tcp : TcpOptions) (local_address : option str).
Context (FormatErrorMessage : Z -> string) (inet_pton : Z -> str -> option (list byte)).
#[local] Abbreviation conn := (@Connection.conn Q).
#[local] Abbreviation F := FormatErrorMessage.

Lemma Calm_poller_usable : @Calm Q _ poller_usable.
Proof. unfold poller_usable. calm. Qed.
#[local] Hint Resolve Calm_poller_usable : calm.

Lemma Calm_submit ok req : @Calm Q _ (submit F ok req).
Proof. unfold submit. calm. Qed.
#[local] Hint Resolve Calm_submit : calm.

Lemma Calm_WinStartRecv : @Calm Q _ (WinConnection.PlatformStartRecv F).
Proof. unfold WinConnection.PlatformStartRecv, poller_StartRecv. calm. Qed.
#[local] Hint Resolve Calm_WinStartRecv : calm.

Lemma Calm_WinStartSend : @Calm Q _ (WinConnection.PlatformStartSend F).
Proof. unfold WinConnection.PlatformStartSend, poller_StartSend. calm. Qed.
#[local] Hint Resolve Calm_WinStartSend : calm.

Lemma Calm_WinAfterConnected : @Calm Q _ (WinConnection.PlatformAfterConnected F).
Proof. unfold WinConnection.PlatformAfterConnected, must_succeed. calm. Qed.
#[local] Hint Resolve Calm_WinAfterConnected : calm.

Lemma Calm_WinApplyTcpOptions : @Calm Q _ (WinConnection.ApplyTcpOptions tcp F).
Proof. unfold WinConnection.ApplyTcpOptions, SetNonBlocking, ignore_call, must_succeed. calm. Qed.
#[local] Hint Resolve Calm_WinApplyTcpOptions : calm.

Lemma HandleRecvEof_prog (s : conn) :
  prog decode s -> connected_ s = true -> wp (HandleRecvEof true (Some decode)) (fun _ s' => prog decode s') s.
Proof.
  intros Hp Hc. unfold HandleRecvEof. wp_simpl. destruct (0 <? _); [| apply (Calm_Prog decode); [calm | done]].
  unfold DeferCloseUntilInputDrained. wp_simpl. destruct Hp as (Hs & _ & Hp).
  change (parse_continuation_pending_ (_ <| deferred_close_desc_ := _ |>)) with (parse_continuation_pending_ s).
  destruct (parse_continuation_pending_ s) eqn:Ep; cbn [negb]; wp_simpl.
  - split; [done |]. split; [cbn; congruence |]. cbn. rewrite Ep. exact Hp.
  - eapply wp_mono; [| by apply ParseInput_progress]. intros r s' [? _]. by wp_simpl.
Qed.

Lemma HandleRecvCompletion_prog ev : @Prog Q decode _ (HandleRecvCompletion true (Some decode) F ev).
Proof.
  intros s Hp. unfold HandleRecvCompletion, IsConnected. wp_simpl. set (s1 := s <| recv_pending_ := false |>).
  assert (Hp1 : prog decode s1) by (by apply (prog_same decode s)).
  destruct (connected_ s1) eqn:Hc; cbn [negb]; wp_simpl; [| done].
  destruct (has _ _); [apply (Calm_Prog decode); [calm | done] |]. destruct (_ =? 0); [by apply HandleRecvEof_prog |].
  destruct (ev_data ev) as [buffer |]; [| apply (Calm_Prog decode); [calm | done]].
  destruct (zlen buffer <? ev_bytes_transferred ev); [apply (Calm_Prog decode); [calm | done] |]. wp_simpl.
  eapply wp_mono; [| apply ParseInput_progress; [done | apply Hp1 | done]]. intros r s2 [Hp2 _].
  assert (Hgo : wp (e ← WinConnection.PlatformStartRecv F;
    match e with Some error => StartClose true CloseReason.kError error | None => mret tt end) (fun _ s' => prog decode s') s2).
  { apply (Calm_Prog decode); [calm | done]. }
  by destruct r.
Qed.

Lemma Calm_HandleSendCompletion ev : @Calm Q _ (HandleSendCompletion true F ev).
Proof. unfold HandleSendCompletion, send_MoveHeader, IsConnected. calm. Qed.

#[export] Instance windows_calm : @PlatformCalm Q decode (windows true (Some decode) tcp local_address F inet_pton).
Proof.
  split; cbn [open_socket start_connect finish_connect after_connected handle_readable handle_writable start_send
    connect_completion recv_completion send_completion windows]; intros; try solve [calm]; try done.
  - unfold WinConnection.PlatformOpenSocket, must_succeed. calm.
  - unfold WinConnection.PlatformConnect, poller_Add, poller_StartConnect, must_succeed. calm.
  - apply Calm_ret.
  - unfold HandleConnectCompletion. destruct (has _ _); [apply Calm_Prog; calm |].
    apply Prog_HandleConnected. calm.
  - apply HandleRecvCompletion_prog.
  - apply Calm_Prog, Calm_HandleSendCompletion.
Qed.

End Calm.
