(* ===== verification/WinInv.v ===== *)
(** * The connection on Windows: requests in flight

    What the kernel did with the requests of a connection, as the trace records it, the
    steps of a connection on Windows, and the invariant that ties the flags
    [recv_pending_] and [send_pending_] to the requests: while the connection is up one
    receive is under way, and one send if there is anything to send, and what the
    kernel received or sent is what the session has received or sent, up to a
    completion that still waits in the task queue. *)

From S2P Require Import Prelude Codec SliceBuffer ConnTable Timer Poller Iocp Address Connection WinConnection ConnInv ConnProofs ConnTheorems ConnProgress WinProofs.

(** ** The kernel's side of the trace *)

#[export] Instance PollOperation_eq_dec : EqDecision PollOperation.
Proof. solve_decision. Defined.

(** What the kernel received for [id], and what it sent. *)
Fixpoint arrived (id : ConnectionId) (tr : list event) : list byte :=
  match tr with
  | [] => []
  | EvArrived id' bytes :: tr' => arrived id tr' ++ (if decide (id' = id) then bytes else [])
  | _ :: tr' => arrived id tr'
  end.

Fixpoint taken (id : ConnectionId) (tr : list event) : list byte :=
  match tr with
  | [] => []
  | EvTaken id' bytes :: tr' => taken id tr' ++ (if decide (id' = id) then bytes else [])
  | _ :: tr' => taken id tr'
  end.

(** The connections requests were started for. *)
Fixpoint started_ids (tr : list event) : list ConnectionId :=
  match tr with
  | [] => []
  | EvStart req :: tr' => req_id req :: started_ids tr'
  | _ :: tr' => started_ids tr'
  end.

(** The completions that wait in the task queue. *)
Definition completions (q : list task) : list PollEvent :=
  omap (fun t => match t with TPollEvent ev => Some ev | _ => None end) q.

(** Requests that the kernel or the port holds, and completions that wait, for [id]. *)
Definition requests_of (id : ConnectionId) (op : PollOperation) (l : list WinIoRequest) : list WinIoRequest :=
  filter (fun req => req_id req = id /\ operation req = op) l.
Definition events_of (id : ConnectionId) (op : PollOperation) (q : list task) : list PollEvent :=
  filter (fun ev => ev_id ev = id /\ ev_operation ev = op) (completions q).

Definition failed_event (ev : PollEvent) : bool := has (ev_events ev) kPollEventError.

(** The bytes a completed receive brings. *)
Definition payload (ev : PollEvent) : list byte :=
  if failed_event ev then [] else ztake (ev_bytes_transferred ev) (default [] (ev_data ev)).

(** ** Steps *)

Section Steps.
Context `{SizeT} `{PQ : PriorityQueue Q}.
Context (codec : option decode_fn) (tcp : TcpOptions) (local_address : option str) (self : conn_ref).
Context (FormatErrorMessage : Z -> string) (inet_pton : Z -> str -> option (list byte)).
#[local] Abbreviation conn := (@Connection.conn Q).

(** The poll thread takes a completion off the port and posts it to the connection
    that has the id, if there is one. *)
Definition deliver (ev : PollEvent) : @M Q unit :=
  s ← get;
  when (bool_decide (Acquire (table s) (fun _ => true) (ev_id ev) = Some self)) (PostPollEvent ev).

(** A request completes. *)
Definition complete_request (req : WinIoRequest) (ok : bool) (written : list byte) (bytes error : Z) : @M Q unit :=
  (if ok then match operation req with
              | kPollOpRecv => emit (EvArrived (req_id req) written)
              | kPollOpSend => emit (EvTaken (req_id req) (ztake bytes (req_buffer req)))
              | _ => mret tt
              end
   else mret tt);;
  deliver (to_event (write_buffer written req) ok bytes error).

(** The connection table does not give an id out again; [ConnTable.v] proves it for the
    first 2^32 registrations of a slot. *)
Definition id_fresh (s : conn) : Prop :=
  match task_queue_ s, Register (table s) self with
  | TConnectResolved _ :: _, Some (id, _) => id ∉ started_ids (trace s)
  | _, _ => True
  end.

(** The next task is not a [Disconnect] that overtakes an attempt which is still being
    resolved, and does not register the connection under an id it has had before. *)
Definition in_order (s : conn) : Prop := ~ overtakes s /\ id_fresh s.

(** One step of a connection on Windows: of what surrounds it, a request that completes, or a
    task. With [d = false] these are all runs of the code; with [d = true] those in which
    every task is in order. *)
Inductive win_step (d : bool) (s : conn) : conn -> Prop :=
| win_client s' : client_step self s s' -> win_step d s s'
| win_complete l1 req l2 ok written bytes error :
    win_requests s = l1 ++ req :: l2 -> result_ok req ok written bytes = true ->
    win_step d s (complete_request req ok written bytes error (s <| win_requests := l1 ++ l2 |>)).2
| win_run :
    (d = true -> in_order s) ->
    win_step d s (WinConnection.drain_round true codec tcp local_address self FormatErrorMessage inet_pton s).2.

Definition win_reachable (d : bool) (T : ConnectionTable) (q : Q) (p : Poller) : conn -> Prop :=
  rtc (win_step d) (conn_init T q p).

End Steps.

(** ** The invariant *)

Section Io.
Context {Q : Type}.
#[local] Abbreviation conn := (@Connection.conn Q).
#[local] Abbreviation σ s := (session_of (trace s)).

Definition recv_ok (s : conn) : Prop :=
  let a := arrived (id_ s) (trace s) in
  match requests_of (id_ s) kPollOpRecv (win_requests s), events_of (id_ s) kPollOpRecv (task_queue_ s) with
  | [], [] => recv_pending_ s = false /\ a = rx (σ s)
  | [_], [] => recv_pending_ s = true /\ connected_ s = true /\ a = rx (σ s)
  | [], [ev] => recv_pending_ s = true /\ connected_ s = true /\ a = rx (σ s) ++ payload ev /\
      (failed_event ev = true \/ exists buf, ev_data ev = Some buf /\ 0 <= ev_bytes_transferred ev <= zlen buf)
  | _, _ => False
  end.

Definition send_ok (s : conn) : Prop :=
  let a := taken (id_ s) (trace s) in
  let buf := chunks_bytes (send_buffer_ s) in
  match requests_of (id_ s) kPollOpSend (win_requests s), events_of (id_ s) kPollOpSend (task_queue_ s) with
  | [], [] => send_pending_ s = false /\ a = sent (σ s)
  | [req], [] => send_pending_ s = true /\ connected_ s = true /\ a = sent (σ s) /\ req_buffer req `prefix_of` buf
  | [], [ev] => send_pending_ s = true /\ connected_ s = true /\
      if failed_event ev then a = sent (σ s)
      else 0 <= ev_bytes_transferred ev <= zlen buf /\ a = sent (σ s) ++ ztake (ev_bytes_transferred ev) buf
  | _, _ => False
  end.

Definition connect_ok (s : conn) : Prop :=
  match requests_of (id_ s) kPollOpConnect (win_requests s), events_of (id_ s) kPollOpConnect (task_queue_ s) with
  | [], [] => True
  | [_], [] | [], [_] => state_ s = kConnecting
  | _, _ => False
  end.

(** Every request and every completion is one that was started. *)
Record io_base (s : conn) : Prop := {
  io_requests : forall req, req ∈ win_requests s -> req_id req ∈ started_ids (trace s) /\ operation req <> kPollOpReady;
  io_events : forall ev, ev ∈ completions (task_queue_ s) -> ev_id ev ∈ started_ids (trace s) /\ ev_operation ev <> kPollOpReady;
  io_valid : forall id, id ∈ started_ids (trace s) -> valid id = true;
  io_kernel : forall id, id ∉ started_ids (trace s) -> arrived id (trace s) = [] /\ taken id (trace s) = []
}.

(** What the next session finds. *)
Definition io_down (s : conn) : Prop :=
  (connected_ s = false -> rx (σ s) = [] /\ sent (σ s) = []) /\
  (valid (id_ s) = false -> recv_pending_ s = false /\ send_pending_ s = false).

Record io_ok (s : conn) : Prop := {
  io_started : io_base s;
  io_quiet : io_down s;
  io_recv : valid (id_ s) = true -> recv_ok s;
  io_send : valid (id_ s) = true -> send_ok s;
  io_connect : valid (id_ s) = true -> connect_ok s;
  io_armed : connected_ s = true -> recv_pending_ s = true \/ deferred_close_pending_ s = true;
  io_sending : connected_ s = true -> send_buffer_ s <> [] -> send_pending_ s = true
}.

(** A connection that its owner has released drops its tasks. *)
Definition io (s : conn) : Prop := owner_closing_ s = false -> io_ok s.

End Io.
