(* ===== verification/WinIo.v ===== *)
(** * The connection on Windows: the requests are accounted for

    Every step of [WinInv.win_step] preserves [WinInv.io]. The common code never touches
    requests or completions ([Still]); the methods of the platform are treated one by
    one. *)

From S2P Require Import Prelude Codec SliceBuffer ConnTable Timer Poller Iocp Address Connection WinConnection ConnInv ConnProofs ConnTheorems ConnProgress WinProofs WinInv.

(** ** Code that does not touch requests *)

Section Still.
Context {Q : Type}.
#[local] Abbreviation conn := (@Connection.conn Q).
#[local] Abbreviation σ s := (session_of (trace s)).

Definition same_io (s s' : conn) : Prop :=
  win_requests s' = win_requests s /\ completions (task_queue_ s') = completions (task_queue_ s) /\
  started_ids (trace s') = started_ids (trace s) /\
  (forall id, arrived id (trace s') = arrived id (trace s)) /\ (forall id, taken id (trace s') = taken id (trace s)).

Definition same_session (s s' : conn) : Prop :=
  id_ s' = id_ s /\ recv_pending_ s' = recv_pending_ s /\ send_pending_ s' = send_pending_ s /\
  send_buffer_ s' = send_buffer_ s /\ connected_ s' = connected_ s /\
  deferred_close_pending_ s' = deferred_close_pending_ s /\ rx (σ s') = rx (σ s) /\ sent (σ s') = sent (σ s) /\
  (state_ s <> kIdle -> state_ s' = state_ s).

Definition ended (s : conn) : Prop :=
  valid (id_ s) = false /\ recv_pending_ s = false /\ send_pending_ s = false /\ connected_ s = false /\
  rx (σ s) = [] /\ sent (σ s) = [].

Definition still (s s' : conn) : Prop :=
  sync s' /\ (owner_closing_ s = true -> owner_closing_ s' = true) /\
  (owner_closing_ s' = true \/ same_io s s' /\ (same_session s s' \/ ended s')).

Definition Still {A} (m : @M Q A) : Prop := forall s, sync s -> wp m (fun _ s' => still s s') s.

#[export] Instance same_io_refl : Reflexive same_io.
Proof. intros s. by split_and!. Qed.

#[export] Instance same_io_trans : Transitive same_io.
Proof.
  intros s1 s2 s3 (A1 & A2 & A3 & A4 & A5) (B1 & B2 & B3 & B4 & B5).
  split_and!; intros; rewrite ?B1, ?B2, ?B3, ?B4, ?B5; done.
Qed.

#[export] Instance same_session_refl : Reflexive same_session.
Proof. intros s. by split_and!. Qed.

#[export] Instance still_trans : Transitive still.
Proof.
  intros s1 s2 s3 (_ & Ho & H12) (Hs & Ho' & H23). split; [done |]. split; [auto |].
  destruct H12 as [? | [Hio H12]]; [left; auto |]. destruct H23 as [? | [Hio' H23]]; [by left |]. right. split; [by etrans |].
  destruct H23 as [(B1 & B2 & B3 & B4 & B5 & B6 & B7 & B8 & B9) | ?]; [| by right].
  destruct H12 as [(A1 & A2 & A3 & A4 & A5 & A6 & A7 & A8 & A9) | (A1 & A2 & A3 & A4 & A5 & A6)]; [left | right].
  - split_and!; try congruence. intros Hs1. rewrite B9; rewrite A9; auto.
  - split_and!; congruence.
Qed.

Lemma still_same s s' :
  sync s -> state_ s' = state_ s -> owner_closing_ s' = owner_closing_ s -> same_io s s' -> same_session s s' -> still s s'.
Proof.
  intros [Hs1 Hs2] Es Eo Hio Hse. pose proof Hse as (_ & _ & _ & _ & Ec & _). split; [split; by rewrite ?Ec, Es |].
  split; [by rewrite Eo |]. right. split; [done | by left].
Qed.

Lemma still_refl s : sync s -> still s s.
Proof. intros Hs. apply still_same; reflexivity || done. Qed.

Lemma Still_ret {A} (a : A) : Still (mret a).
Proof. intros s Hs. by apply still_refl. Qed.

Lemma Still_get : Still get.
Proof. intros s Hs. by apply still_refl. Qed.

Lemma Still_bind {A B} (m : @M Q A) (k : A -> M B) : Still m -> (forall a, Still (k a)) -> Still (m ≫= k).
Proof.
  intros Hm Hk s Hs. apply wp_bind. eapply wp_mono; [| by apply Hm]. intros a s' Hs'.
  eapply wp_mono; [| apply Hk, Hs']. intros b s'' Hs''. exact (still_trans _ _ _ Hs' Hs'').
Qed.

Lemma Still_when b (m : @M Q unit) : Still m -> Still (when b m).
Proof. destruct b; [done | intros _; apply Still_ret]. Qed.

Lemma Still_modify f :
  (forall s, state_ (f s) = state_ s /\ owner_closing_ (f s) = owner_closing_ s /\ same_io s (f s) /\ same_session s (f s)) ->
  Still (modify f).
Proof. intros Hf s Hs. destruct (Hf s) as (? & ? & ? & ?). by apply still_same. Qed.

Lemma completions_snoc q t : (forall ev, t <> TPollEvent ev) -> completions (q ++ [t]) = completions q.
Proof. intros Ht. unfold completions. rewrite omap_app. cbn. destruct t; rewrite ?app_nil_r; try done. by destruct (Ht ev). Qed.

Lemma Still_Post t : (forall ev, t <> TPollEvent ev) -> Still (Post t).
Proof.
  intros Ht s Hs. unfold Post. wp_simpl. destruct (accepting_tasks_ s); wp_simpl; [| by apply still_refl].
  apply still_same; try done. split_and!; try done. cbn. by apply completions_snoc.
Qed.

Lemma Still_sys_next : Still sys_next.
Proof. intros s Hs. unfold wp, sys_next. destruct (os s); [by apply still_refl |]. apply still_same; solve [done | by split_and!]. Qed.

Lemma Still_next_script : Still next_script.
Proof. intros s Hs. unfold wp, next_script. destruct (script s); [by apply still_refl |]. apply still_same; solve [done | by split_and!]. Qed.

Lemma Still_Connect_begin : Still Connect_begin.
Proof.
  intros s Hs. unfold Connect_begin. wp_simpl. destruct (decide (state_ s = kIdle)) as [Es |]; wp_simpl; [| by apply still_refl].
  destruct Hs as [Hc _]. rewrite Es in Hc. split; [done |]. split; [done |]. right. split; [by split_and! | left; by split_and!].
Qed.

Lemma Still_Connect hosts : Still (Connect hosts).
Proof.
  destruct hosts as [r |]; [| apply Still_ret]. apply Still_bind; [apply Still_Connect_begin |].
  intros [|]; [| apply Still_ret]. unfold Connect_end.
  destruct r as [[e |] [[| a l] |]]; (apply Still_bind; [by apply Still_Post | intros _; apply Still_ret]).
Qed.

(** ** Closing *)

Lemma closed_io (s : conn) : same_io s (closed s) /\ ended (closed s) /\ owner_closing_ (closed s) = owner_closing_ s /\ sync (closed s).
Proof.
  pose proof (closed_fields s) as (E1 & E2 & _ & _ & _ & _ & E7 & _ & E9 & _ & E11 & _). pose proof (closed_trace s) as Et.
  assert (Ew : win_requests (closed s) = win_requests s /\ recv_pending_ (closed s) = false /\ send_pending_ (closed s) = false).
  { unfold closed, PlatformCloseSocket, ResetAfterClose, PlatformResetIoState, emit, when, get, modify, mret, M_ret, mbind, M_bind.
    destruct (valid _); cbn; by destruct (IsValidSocketHandle (fd_ s)). }
  destruct Ew as (Ew & Er & Es). split; [| split; [| split; [done |]]].
  - split_and!; rewrite ?Et, ?E7; try done; try intros id; cbn; by destruct (fd_ok s).
  - split_and!; rewrite ?Et; try done. rewrite E11. destruct (valid (id_ s)) eqn:Ev; [done |]. by rewrite Ev.
  - split; rewrite ?E1, ?E2; done.
Qed.

Lemma closed_still (s : conn) : still s (closed s).
Proof.
  destruct (closed_io s) as (Hio & He & Eo & Hs). split; [done |]. split; [by rewrite Eo |]. right. split; [done | by right].
Qed.

Lemma StartClose_with_still cb reason desc :
  (forall c, Still (cb c)) -> Still (StartClose_with true cb reason desc).
Proof.
  intros Hcb s Hs. unfold wp. rewrite StartClose_with_eq. destruct (decide _); [by apply still_refl |].
  pose proof (closed_still s) as Hc. destruct (notification reason desc) as [c |]; [| done].
  etrans; [exact Hc |]. apply Hcb, Hc.
Qed.

Lemma Still_CloseFromOwner : Still (CloseFromOwner_draining true).
Proof.
  unfold CloseFromOwner_draining, DrainTaskQueue. intros s Hs. wp_simpl.
  eapply wp_mono; [| apply StartClose_with_still; [intros c; apply Still_ret | done]].
  intros u s'. apply still_trans. split; [done |]. split; [done |]. by left.
Qed.

Lemma Still_run_apis calls : Still (run_apis true calls).
Proof.
  induction calls as [| c calls IH]; [apply Still_ret |]. apply Still_bind; [| done].
  destruct c as [r | | data |]; cbn [run_api].
  - apply Still_bind; [apply Still_Connect | intros _; apply Still_ret].
  - by apply Still_Post.
  - unfold SendBuffer, IsConnected. apply Still_bind; [| intros _; apply Still_ret]. destruct data as [| x data]; [apply Still_ret |].
    apply Still_bind; [apply Still_bind; [apply Still_get | intros s; apply Still_ret] |]. intros c.
    destruct (negb c); [apply Still_ret |]. apply Still_bind; [by apply Still_Post | intros _; apply Still_ret].
  - apply Still_CloseFromOwner.
Qed.

Lemma Still_run_callback c : Still (run_callback true c).
Proof.
  unfold run_callback, emit. apply Still_bind; [| intros _; apply Still_bind; [apply Still_next_script | apply Still_run_apis]].
  apply Still_modify. intros s. split_and!; try done; destruct c; done.
Qed.

Lemma Still_StartClose reason desc : Still (StartClose true reason desc).
Proof. apply StartClose_with_still. apply Still_run_callback. Qed.

(** A close of a connection that is not idle ends it. *)
Definition over (s s' : conn) : Prop :=
  owner_closing_ s' = true \/ same_io s s' /\ ended s'.

Lemma StartClose_over reason desc s :
  sync s -> state_ s <> kIdle -> wp (StartClose true reason desc) (fun _ s' => over s s') s.
Proof.
  intros [Hs1 Hs2] Hni. unfold wp, StartClose. rewrite StartClose_with_eq. destruct (decide _) as [[|] |]; [done .. |].
  destruct (closed_io s) as (Hio & He & Eo & Hs). destruct (notification reason desc) as [c |]; [| by right].
  destruct (Still_run_callback c (closed s) Hs) as (_ & _ & [? | [Hio' Hs']]); [by left |]. right.
  split; [by etrans |]. destruct Hs' as [(A1 & A2 & A3 & A4 & A5 & A6 & A7 & A8 & A9) | ?]; [| done].
  destruct He as (? & ? & ? & ? & ? & ?). split_and!; congruence.
Qed.

End Still.

Create HintDb still.
#[export] Hint Resolve Still_ret Still_get Still_sys_next Still_next_script Still_Connect Still_run_callback Still_StartClose : still.

Ltac still := repeat first
  [ solve [trivial with still]
  | match goal with
    | |- forall _, _ => intros ?
    | |- Still (when _ _) => apply Still_when
    | |- Still (_ ≫= _) => apply Still_bind
    | |- Still (modify _) => apply Still_modify; intros ?; by split_and!
    | |- Still (emit _) => apply Still_modify; intros ?; by split_and!
    | |- Still (Post _) => by apply Still_Post
    | |- Still (match ?x with _ => _ end) => destruct x
    end ].

(** ** Parsing *)

Section Parse.
Context {Q : Type}.
#[local] Abbreviation conn := (@Connection.conn Q).

Lemma wp_and {A} (m : @M Q A) (P P' : A -> conn -> Prop) s : wp m P s -> wp m P' s -> wp m (fun a s' => P a s' /\ P' a s') s.
Proof. by unfold wp. Qed.

Lemma parse_loop_still budget : forall decode data offset (s : conn),
  sync s -> connected_ s = true ->
  wp (parse_loop true budget decode data offset) (fun r s' => still s s' /\ (is_Some r -> connected_ s' = true)) s.
Proof.
  induction budget as [| budget IH]; intros decode data offset s Hs Hc; cbn [parse_loop].
  { wp_simpl. split; [by apply still_refl | done]. }
  destruct (zlen data =? 0); [wp_simpl; split; [by apply still_refl | done] |].
  assert (Hcl : wp (StartClose true CloseReason.kError "protocol decode error";; mret (@None (Z * nat)))
    (fun r s' => still s s' /\ (is_Some r -> connected_ s' = true)) s).
  { wp_simpl. eapply wp_mono; [| by apply Still_StartClose]. intros u s1 Hs1. wp_simpl. split; [done |]. by intros [? ?]. }
  destruct (decode data) as [result consumed]. destruct result; [| wp_simpl; split; [by apply still_refl | done] | done].
  destruct (_ || _); [done |]. wp_simpl. eapply wp_mono; [| by apply Still_run_callback]. intros u s1 Hs1. unfold IsConnected. wp_simpl.
  destruct (connected_ s1) eqn:Hc1; cbn [negb]; wp_simpl; [| split; [done | by intros [? ?]]].
  eapply wp_mono; [| apply IH; [apply Hs1 | done]]. intros r s2 [Hs2 Hr]. split; [exact (still_trans _ _ _ Hs1 Hs2) | done].
Qed.

Lemma connected_not_idle (s : conn) : sync s -> connected_ s = true -> state_ s <> kIdle.
Proof. intros [Hs _] Hc Ei. rewrite Hs, Ei in Hc. done. Qed.

Lemma parse_finish_still (s : conn) : sync s -> connected_ s = true -> wp (parse_finish true) (fun _ s' => still s s') s.
Proof.
  intros Hs Hc. unfold parse_finish, FinishDeferredClose, IsConnected. wp_simpl.
  destruct (deferred_close_pending_ s); wp_simpl; [| by apply still_refl].
  match goal with |- wp _ _ ?x => set (s1 := x) end. assert (Hs1 : sync s1) by exact Hs.
  eapply wp_mono; [| apply wp_and; [by apply (Still_StartClose (deferred_close_reason_ s) (deferred_close_desc_ s) s1) | apply StartClose_over]];
    [| done | by apply (connected_not_idle s)].
  intros u s2 [(H1 & H2 & _) H3]. wp_simpl. split; [done |]. split; [exact H2 |]. destruct H3 as [? | [Hio He]]; [by left |].
  right. split; [exact Hio | by right].
Qed.

Lemma ParseInput_still codec (s : conn) :
  sync s -> connected_ s = true -> wp (ParseInput true codec) (fun _ s' => still s s') s.
Proof.
  intros Hs Hc. unfold ParseInput. wp_simpl. set (s1 := s <| parse_continuation_pending_ := false |>).
  assert (H1 : still s s1) by (apply still_same; solve [done | by split_and!]).
  assert (Hfin : forall s2, still s s2 -> connected_ s2 = true -> wp (parse_finish true) (fun _ s' => still s s') s2).
  { intros s2 H2 Hc2. eapply wp_mono; [| apply parse_finish_still; [apply H2 | done]]. intros r s3 H3. exact (still_trans _ _ _ H2 H3). }
  destruct codec as [decode |]; [| by apply Hfin]. cbn [negb]. wp_simpl. destruct (_ =? 0); [by apply Hfin |]. wp_simpl.
  eapply wp_mono; [| by apply (parse_loop_still _ _ _ _ s1)]. intros r s2 [H2 Hr].
  assert (H2' : still s s2) by exact (still_trans _ _ _ H1 H2). destruct r as [[off b] |]; wp_simpl; [| done].
  assert (Hmv : Still (Q := Q) (if 0 <? off then recv_MoveHeader off else mret true)) by (unfold recv_MoveHeader; still).
  assert (Hcm : wp (if 0 <? off then recv_MoveHeader off else mret true) (fun _ s3 => connected_ s3 = connected_ s2) s2).
  { destruct (0 <? off); [| done]. unfold recv_MoveHeader. wp_simpl. by destruct (_ <? _). }
  eapply wp_mono; [| apply wp_and; [apply Hmv, H2' | exact Hcm]]. intros moved s3 [H3 Hc3].
  assert (H3' : still s s3) by exact (still_trans _ _ _ H2' H3). assert (Hc3' : connected_ s3 = true) by (rewrite Hc3; apply Hr; by eexists).
  destruct moved; cbn [negb]; wp_simpl.
  - destruct (_ && connected_ s3); [| by apply Hfin].
    assert (Hst : Still (Q := Q) (ScheduleParseContinuation;; modify (fun s => s <| drain_yield_requested_ := true |>);; mret kYielded))
      by (unfold ScheduleParseContinuation; still).
    eapply wp_mono; [| apply Hst, H3']. intros u s4 H4. exact (still_trans _ _ _ H3' H4).
  - eapply wp_mono; [| apply Still_StartClose, H3']. intros u s4 H4. wp_simpl. exact (still_trans _ _ _ H3' H4).
Qed.

End Parse.

(** ** Parts of the invariant *)

Section Parts.
Context {Q : Type}.
#[local] Abbreviation conn := (@Connection.conn Q).
#[local] Abbreviation σ s := (session_of (trace s)).

Lemma io_base_same (s s' : conn) : io_base s -> same_io s s' -> io_base s'.
Proof.
  intros [H1 H2 H3 H4] (A1 & A2 & A3 & A4 & A5). split; rewrite ?A1, ?A2, ?A3; try done. intros id Hid. rewrite A4, A5. auto.
Qed.

Lemma recv_ok_ext (s s' : conn) :
  recv_ok s -> id_ s' = id_ s ->
  requests_of (id_ s) kPollOpRecv (win_requests s') = requests_of (id_ s) kPollOpRecv (win_requests s) ->
  events_of (id_ s) kPollOpRecv (task_queue_ s') = events_of (id_ s) kPollOpRecv (task_queue_ s) ->
  recv_pending_ s' = recv_pending_ s -> (connected_ s = true -> connected_ s' = true) ->
  arrived (id_ s) (trace s') = arrived (id_ s) (trace s) -> rx (σ s') = rx (σ s) -> recv_ok s'.
Proof.
  intros HR Ei Er Ee Ep Ec Ea Ex. unfold recv_ok in *. rewrite Ei, Er, Ee, Ep, Ea, Ex.
  destruct (requests_of _ _ _) as [| ? [| ? ?]], (events_of _ _ _) as [| ? [| ? ?]]; naive_solver.
Qed.

Lemma send_ok_ext (s s' : conn) more :
  send_ok s -> id_ s' = id_ s ->
  requests_of (id_ s) kPollOpSend (win_requests s') = requests_of (id_ s) kPollOpSend (win_requests s) ->
  events_of (id_ s) kPollOpSend (task_queue_ s') = events_of (id_ s) kPollOpSend (task_queue_ s) ->
  send_pending_ s' = send_pending_ s -> (connected_ s = true -> connected_ s' = true) ->
  taken (id_ s) (trace s') = taken (id_ s) (trace s) -> sent (σ s') = sent (σ s) ->
  chunks_bytes (send_buffer_ s') = chunks_bytes (send_buffer_ s) ++ more -> send_ok s'.
Proof.
  intros HR Ei Er Ee Ep Ec Ea Ex Eb. unfold send_ok in *. rewrite Ei, Er, Ee, Ep, Ea, Ex, Eb.
  destruct (requests_of _ _ _) as [| req [| ? ?]], (events_of _ _ _) as [| ev [| ? ?]]; try done.
  - destruct HR as (? & ? & HR). split; [done |]. split; [auto |]. destruct (failed_event ev); [done |].
    destruct HR as [Hn ->]. split; [zlia |]. by rewrite ztake_app_le by lia.
  - destruct HR as (? & ? & ? & HR). split_and!; auto. by apply prefix_app_r.
Qed.

Lemma connect_ok_ext (s s' : conn) :
  connect_ok s -> id_ s' = id_ s ->
  requests_of (id_ s) kPollOpConnect (win_requests s') = requests_of (id_ s) kPollOpConnect (win_requests s) ->
  events_of (id_ s) kPollOpConnect (task_queue_ s') = events_of (id_ s) kPollOpConnect (task_queue_ s) ->
  (state_ s = kConnecting -> state_ s' = kConnecting) -> connect_ok s'.
Proof.
  intros HR Ei Er Ee Es. unfold connect_ok in *. rewrite Ei, Er, Ee.
  destruct (requests_of _ _ _) as [| ? [| ? ?]], (events_of _ _ _) as [| ? [| ? ?]]; naive_solver.
Qed.

(** A session that is over. *)
Lemma ended_io (s : conn) : io_base s -> ended s -> io_ok s.
Proof.
  intros HB (E1 & E2 & E3 & E4 & E5 & E6). split; try congruence. by split.
Qed.

Lemma over_io (s s' : conn) : io_base s -> over s s' -> io s'.
Proof.
  intros HB [Ho | [Hio He]] Ho'; [congruence |]. apply ended_io; [by eapply io_base_same | done].
Qed.

Lemma same_io_ok (s s' : conn) :
  io_ok s -> same_io s s' -> same_session s s' -> (valid (id_ s) = true -> state_ s <> kIdle) -> io_ok s'.
Proof.
  intros [H1 [H2a H2b] H3 H4 H5 H6 H7] Hio (B1 & B2 & B3 & B4 & B5 & B6 & B7 & B8 & B9) Hni.
  pose proof Hio as (A1 & A2 & A3 & A4 & A5). split.
  - by eapply io_base_same.
  - split; by rewrite ?B1, ?B2, ?B3, ?B5, ?B7, ?B8.
  - rewrite B1. intros Hv. apply (recv_ok_ext s); unfold events_of; rewrite ?A1, ?A2, ?B5; auto.
  - rewrite B1. intros Hv. apply (send_ok_ext s _ []); unfold events_of; rewrite ?A1, ?A2, ?B4, ?B5, ?app_nil_r; auto.
  - rewrite B1. intros Hv. apply (connect_ok_ext s); unfold events_of; rewrite ?A1, ?A2; auto. intros E. rewrite B9; [done | auto].
  - by rewrite B5, B2, B6.
  - by rewrite B5, B4, B3.
Qed.

Lemma still_io (s s' : conn) : io s -> still s s' -> (valid (id_ s) = true -> state_ s <> kIdle) -> io s'.
Proof.
  intros HI (_ & Ho & Hs) Hni Ho'. destruct Hs as [? | [Hio Hs]]; [congruence |].
  assert (Hof : owner_closing_ s = false) by (destruct (owner_closing_ s); [by rewrite Ho in Ho' | done]). specialize (HI Hof).
  destruct Hs as [Hs | He]; [by eapply same_io_ok |]. apply ended_io; [| done]. eapply io_base_same; [apply HI | done].
Qed.

(** ** Starting a request *)

Lemma requests_snoc id op l req :
  requests_of id op (l ++ [req]) = requests_of id op l ++ (if decide (req_id req = id /\ operation req = op) then [req] else []).
Proof. unfold requests_of. by rewrite list.filter_app. Qed.

Lemma started_base (s0 s : conn) req o rp sp :
  io_base s0 -> same_io s0 s -> valid (req_id req) = true -> operation req <> kPollOpReady ->
  io_base (started req o s <| recv_pending_ := rp |> <| send_pending_ := sp |>).
Proof.
  intros HB Hio Hv Hop. destruct (io_base_same _ _ HB Hio) as [H1 H2 H3 H4]. split; cbn.
  - intros r [Hr | ->%list_elem_of_singleton]%elem_of_app; [| split; [by apply elem_of_cons; left | done]].
    destruct (H1 r Hr). split; [by apply elem_of_cons; right | done].
  - intros ev Hev. destruct (H2 ev Hev). split; [by apply elem_of_cons; right | done].
  - intros id [-> | Hid]%elem_of_cons; auto.
  - intros id [_ Hid]%not_elem_of_cons. auto.
Qed.

(** ** Completions *)

Lemma events_cons id op t q :
  events_of id op (t :: q) =
  match t with
  | TPollEvent ev => if decide (ev_id ev = id /\ ev_operation ev = op) then ev :: events_of id op q else events_of id op q
  | _ => events_of id op q
  end.
Proof. by destruct t. Qed.

Lemma completions_pop (s : conn) t q : io_base s -> task_queue_ s = t :: q -> io_base (s <| task_queue_ := q |>).
Proof.
  intros [H1 H2 H3 H4] Eq. split; try done. cbn. intros ev Hev. apply H2. rewrite Eq. cbn.
  destruct t; try done. apply elem_of_cons. by right.
Qed.

(** Another operation, or another connection's. *)
Lemma events_other (s : conn) ev q op :
  task_queue_ s = TPollEvent ev :: q -> ev_id ev <> id_ s \/ ev_operation ev <> op ->
  events_of (id_ s) op q = events_of (id_ s) op (task_queue_ s).
Proof. intros Eq Hne. rewrite Eq, events_cons, decide_False; [done |]. intros [? ?]. by destruct Hne. Qed.

Lemma pop_other (s : conn) ev q :
  io_ok s -> task_queue_ s = TPollEvent ev :: q -> ev_id ev <> id_ s -> io_ok (s <| task_queue_ := q |>).
Proof.
  intros [H1 H2 H3 H4 H5 H6 H7] Eq Hne. split; try done.
  - by eapply completions_pop.
  - intros Hv. apply (recv_ok_ext s); auto. apply (events_other s ev); auto.
  - intros Hv. apply (send_ok_ext s _ []); cbn; rewrite ?app_nil_r; auto. apply (events_other s ev); auto.
  - intros Hv. apply (connect_ok_ext s); auto. apply (events_other s ev); auto.
Qed.

End Parts.

(** ** The methods *)

Section Handlers.
Context `{SizeT} `{PQ : PriorityQueue Q}.
Context (codec : option decode_fn).
Hypothesis codec_ok : forall decode, codec = Some decode -> StreamCodec decode.
Context (tcp : TcpOptions) (local_address : option str) (self : conn_ref).
Context (FormatErrorMessage : Z -> string) (inet_pton : Z -> str -> option (list byte)).
#[local] Abbreviation conn := (@Connection.conn Q).
#[local] Abbreviation F := FormatErrorMessage.
#[local] Abbreviation inv := (@ConnInv.inv _ Q codec self true true).
#[local] Abbreviation σ s := (session_of (trace s)).

(** The state without the promise to receive, and without anything to send. *)
#[local] Abbreviation disarmed s := (s <| deferred_close_pending_ := true |>).
#[local] Abbreviation unsent s := (s <| send_buffer_ := [] |>).

Lemma inv_facts s :
  inv s -> sync s /\ valid (id_ s) = fd_ok s /\ (valid (id_ s) = true -> state_ s <> kIdle) /\
    (connected_ s = true -> valid (id_ s) = true /\ fd_ok s = true).
Proof.
  intros [HD HC]. destruct (HC eq_refl) as [[HB Hi Hu _] _]. pose proof (i_id _ _ HB) as Ei.
  split; [split; apply HD |]. split; [done |]. split.
  - intros Hv Es. rewrite Ei, (Hi Es) in Hv. done.
  - intros Hc. destruct (Hu Hc) as [Hf _]. by rewrite Ei, Hf.
Qed.

Lemma rearm (s : conn) : io_ok (disarmed s) -> (connected_ s = true -> recv_pending_ s = true \/ deferred_close_pending_ s = true) -> io_ok s.
Proof. intros [H1 H2 H3 H4 H5 _ H7] Ha. split; try done. by destruct H1. Qed.

Lemma disarm (s : conn) : io_ok s -> io_ok (disarmed s).
Proof. intros [H1 H2 H3 H4 H5 _ H7]. split; try done; [by destruct H1 | by right]. Qed.

Lemma still_disarmed (s s' : conn) :
  io_ok (disarmed s) -> still s s' -> owner_closing_ s' = false -> (valid (id_ s) = true -> state_ s <> kIdle) ->
  io_ok (disarmed s') /\ (connected_ s' = true -> same_session s s').
Proof.
  intros HI (_ & Ho & Hs) Ho' Hni. destruct Hs as [? | [Hio Hs]]; [congruence |]. destruct Hs as [Hs | He].
  - split; [| done]. apply (same_io_ok (disarmed s)); try done. destruct Hs as (? & ? & ? & ? & ? & ? & ? & ? & ?). by split_and!.
  - split; [| destruct He as (_ & _ & _ & Hc & _); congruence]. apply ended_io; [| exact He].
    eapply io_base_same; [apply (io_started _ HI) | exact Hio].
Qed.

(** No receive is under way. *)
Lemma recv_idle (s : conn) : recv_ok s -> recv_pending_ s = false ->
  requests_of (id_ s) kPollOpRecv (win_requests s) = [] /\ events_of (id_ s) kPollOpRecv (task_queue_ s) = [] /\
  arrived (id_ s) (trace s) = rx (σ s).
Proof.
  intros HR Hp. unfold recv_ok in HR. destruct (requests_of _ _ _) as [| ? [| ? ?]], (events_of _ _ _) as [| ? [| ? ?]];
    try done; destruct HR as [HR ?]; [done | congruence ..].
Qed.

Lemma send_idle (s : conn) : send_ok s -> send_pending_ s = false ->
  requests_of (id_ s) kPollOpSend (win_requests s) = [] /\ events_of (id_ s) kPollOpSend (task_queue_ s) = [] /\
  taken (id_ s) (trace s) = sent (σ s).
Proof.
  intros HR Hp. unfold send_ok in HR. destruct (requests_of _ _ _) as [| ? [| ? ?]], (events_of _ _ _) as [| ? [| ? ?]];
    try done; destruct HR as [HR ?]; [done | congruence ..].
Qed.

(** A receive is started while none is under way. *)
Lemma start_recv_io (s : conn) o len :
  io_ok (disarmed s) -> valid (id_ s) = true -> connected_ s = true -> recv_pending_ s = false ->
  io_ok (started (recv_request (id_ s) len) o s <| recv_pending_ := true |>).
Proof.
  intros [H1 H2 H3 H4 H5 _ H7] Hv Hc Hp. pose proof (recv_idle _ (H3 Hv) Hp) as (Er & Ee & Ea). split.
  - apply (started_base (disarmed s) s _ o true (send_pending_ s)); [done | by split_and! | done | done].
  - destruct H2 as [H2 _]. split; [done |]. cbn. congruence.
  - intros _. unfold recv_ok. cbn -[requests_of events_of]. cbn -[requests_of events_of] in Er, Ee.
    rewrite requests_snoc, decide_True, Er, Ee by done. by cbn.
  - intros _. apply (send_ok_ext (disarmed s) _ []); try done; cbn -[requests_of]; [auto | | by rewrite app_nil_r].
    rewrite requests_snoc, decide_False, app_nil_r; [done |]. by intros [_ ?].
  - intros _. apply (connect_ok_ext (disarmed s)); try done; cbn -[requests_of]; [auto |].
    rewrite requests_snoc, decide_False, app_nil_r; [done |]. by intros [_ ?].
  - by left.
  - done.
Qed.

Lemma start_send_io (s : conn) o front rest :
  io_ok (unsent s) -> valid (id_ s) = true -> connected_ s = true -> send_pending_ s = false -> send_buffer_ s = front :: rest ->
  io_ok (started (send_request (id_ s) front) o s <| send_pending_ := true |>).
Proof.
  intros [H1 H2 H3 H4 H5 H6 _] Hv Hc Hp Eb. pose proof (send_idle _ (H4 Hv) Hp) as (Er & Ee & Ea). split.
  - apply (started_base (unsent s) s _ o (recv_pending_ s) true); [done | by split_and! | done | done].
  - destruct H2 as [H2 _]. split; [done |]. cbn. congruence.
  - intros _. apply (recv_ok_ext (unsent s)); try done; cbn -[requests_of]; auto.
    rewrite requests_snoc, decide_False, app_nil_r; [done |]. by intros [_ ?].
  - intros _. unfold send_ok. cbn -[requests_of events_of]. cbn -[requests_of events_of] in Er, Ee.
    rewrite requests_snoc, decide_True, Er, Ee by done. cbn -[chunks_bytes]. split_and!; try done. rewrite Eb. cbn. by apply prefix_app_r.
  - intros _. apply (connect_ok_ext (unsent s)); try done; cbn -[requests_of]; [auto |].
    rewrite requests_snoc, decide_False, app_nil_r; [done |]. by intros [_ ?].
  - done.
  - done.
Qed.

(** ** Completions that are taken out of the queue *)

(** The rest of the invariant after the completion of a receive was taken out. *)
Lemma pop_recv (s : conn) ev q :
  io_ok s -> task_queue_ s = TPollEvent ev :: q -> ev_id ev = id_ s -> ev_operation ev = kPollOpRecv -> valid (id_ s) = true ->
  let s' := s <| task_queue_ := q |> <| recv_pending_ := false |> in
  io_base s' /\ connected_ s = true /\
  (failed_event ev = true \/ exists buf, ev_data ev = Some buf /\ 0 <= ev_bytes_transferred ev <= zlen buf) /\
  forall tr, rx (session_of tr) = rx (σ s) ++ payload ev -> sent (session_of tr) = sent (σ s) -> same_io s' (s' <| trace := tr |>) ->
    io_ok (disarmed (s' <| trace := tr |>)).
Proof.
  intros [H1 H2 H3 H4 H5 _ H7] Eq Eid Eop Hv. specialize (H3 Hv). unfold recv_ok in H3.
  rewrite Eq, events_cons, decide_True in H3 by done.
  destruct (requests_of _ _ _) as [| ? [| ? ?]] eqn:Er; [| done ..].
  destruct (events_of (id_ s) kPollOpRecv q) as [| ? ?] eqn:Ee; [| done]. destruct H3 as (Hp & Hc & Ha & Hb).
  assert (HB : io_base (s <| task_queue_ := q |> <| recv_pending_ := false |>)).
  { eapply io_base_same; [by eapply (completions_pop s) | by split_and!]. }
  split; [done |]. split; [done |]. split; [done |]. intros tr Ex Es Hio. pose proof Hio as (_ & _ & _ & A4 & A5). split.
  - eapply io_base_same; [exact HB |]. destruct Hio as (? & ? & ? & ? & ?). by split_and!.
  - split; cbn; [congruence |]. destruct H2 as [_ H2]. intros Hv'. congruence.
  - intros _. unfold recv_ok. cbn -[requests_of events_of]. rewrite Er, Ee. split; [done |]. rewrite Ex. cbn in A4. by rewrite A4.
  - intros _. apply (send_ok_ext s _ []); try done; first [by apply H4 | by apply (events_other s ev); [| right; congruence] | apply A5 | by rewrite app_nil_r].
  - intros _. apply (connect_ok_ext s); try done; first [by apply H5 | by apply (events_other s ev); [| right; congruence]].
  - by right.
  - done.
Qed.

Lemma pop_send (s : conn) ev q :
  io_ok s -> task_queue_ s = TPollEvent ev :: q -> ev_id ev = id_ s -> ev_operation ev = kPollOpSend -> valid (id_ s) = true ->
  let s' := s <| task_queue_ := q |> <| send_pending_ := false |> in
  io_base s' /\ connected_ s = true /\
  (failed_event ev = true \/ failed_event ev = false /\ 0 <= ev_bytes_transferred ev <= zlen (chunks_bytes (send_buffer_ s)) /\
     forall tr, rx (session_of tr) = rx (σ s) ->
       sent (session_of tr) = sent (σ s) ++ ztake (ev_bytes_transferred ev) (chunks_bytes (send_buffer_ s)) ->
       same_io s' (s' <| trace := tr |>) -> io_ok (unsent (s' <| trace := tr |>))).
Proof.
  intros [H1 H2 H3 H4 H5 H6 _] Eq Eid Eop Hv. specialize (H4 Hv). unfold send_ok in H4.
  rewrite Eq, events_cons, decide_True in H4 by done.
  destruct (requests_of _ _ _) as [| ? [| ? ?]] eqn:Er; [| done ..].
  destruct (events_of (id_ s) kPollOpSend q) as [| ? ?] eqn:Ee; [| done]. destruct H4 as (Hp & Hc & Ha).
  assert (HB : io_base (s <| task_queue_ := q |> <| send_pending_ := false |>)).
  { eapply io_base_same; [by eapply (completions_pop s) | by split_and!]. }
  split; [done |]. split; [done |]. destruct (failed_event ev); [by left | right]. split; [done |]. destruct Ha as [Hn Ha]. split; [done |].
  intros tr Ex Es Hio. pose proof Hio as (_ & _ & _ & A4 & A5). split.
  - eapply io_base_same; [exact HB |]. destruct Hio as (? & ? & ? & ? & ?). by split_and!.
  - split; cbn; [congruence |]. destruct H2 as [_ H2]. intros Hv'. congruence.
  - intros _. apply (recv_ok_ext s); try done; first [by apply H3 | by apply (events_other s ev); [| right; congruence] | apply A4].
  - intros _. unfold send_ok. cbn -[requests_of events_of]. rewrite Er, Ee. split; [done |]. rewrite Es. cbn in A5. by rewrite A5.
  - intros _. apply (connect_ok_ext s); try done; first [by apply H5 | by apply (events_other s ev); [| right; congruence]].
  - done.
  - done.
Qed.

Lemma pop_connect (s : conn) ev q :
  io_ok s -> task_queue_ s = TPollEvent ev :: q -> ev_id ev = id_ s -> ev_operation ev = kPollOpConnect -> valid (id_ s) = true ->
  let s' := s <| task_queue_ := q |> in
  io_ok s' /\ state_ s = kConnecting /\ connect_ok (s' <| state_ := kConnected |>).
Proof.
  intros [H1 H2 H3 H4 H5 H6 H7] Eq Eid Eop Hv. specialize (H5 Hv). unfold connect_ok in H5.
  rewrite Eq, events_cons, decide_True in H5 by done.
  destruct (requests_of _ _ _) as [| ? [| ? ?]] eqn:Er; [| done ..].
  destruct (events_of (id_ s) kPollOpConnect q) as [| ? ?] eqn:Ee; [| done]. split; [| split; [done |]].
  - split; try done.
    + by eapply completions_pop.
    + intros _. apply (recv_ok_ext s); try done; first [by apply H3 | by apply (events_other s ev); [| right; congruence]].
    + intros _. apply (send_ok_ext s _ []); try done; first [by apply H4 | by apply (events_other s ev); [| right; congruence] | by rewrite app_nil_r].
    + intros _. unfold connect_ok. cbn -[requests_of events_of]. by rewrite Er, Ee.
  - unfold connect_ok. cbn -[requests_of events_of]. by rewrite Er, Ee.
Qed.

(** ** The handlers of completions *)

Lemma close_io (s : conn) reason desc :
  sync s -> state_ s <> kIdle -> io_base s -> wp (StartClose true reason desc) (fun _ s' => io s') s.
Proof. intros Hs Hni HB. eapply wp_mono; [| by apply StartClose_over]. intros u s'. by apply over_io. Qed.

(** A released connection stays released. *)
Lemma close_released (s : conn) reason desc :
  sync s -> owner_closing_ s = true -> wp (StartClose true reason desc) (fun _ s' => io s') s.
Proof.
  intros Hs Ho. eapply wp_mono; [| by apply Still_StartClose]. intros u s' (_ & Ho' & _) Hf. by rewrite Ho' in Hf.
Qed.

(** The next receive is started, or the connection is closed. *)
Lemma restart_recv_io (s : conn) :
  sync s -> connected_ s = true -> valid (id_ s) = true -> fd_ok s = true ->
  (owner_closing_ s = false -> io_ok (disarmed s) /\ recv_pending_ s = false) ->
  wp (e ← WinConnection.PlatformStartRecv F;
      match e with Some error => StartClose true CloseReason.kError error | None => mret tt end) (fun _ s' => io s') s.
Proof.
  intros Hs Hc Hv Hf HI. wp_simpl. eapply wp_mono; [| apply PlatformStartRecv_spec]. intros [e |] s1 [o ->].
  - destruct (owner_closing_ s) eqn:Ho; [by apply close_released |].
    apply close_io; [done | by apply (connected_not_idle s) |]. destruct (HI eq_refl) as [HO _].
    eapply io_base_same; [apply (io_started _ HO) | by split_and!].
  - wp_simpl. destruct (owner_closing_ s) eqn:Ho; [intros Ho'; destruct (can_recv s); cbn in Ho'; congruence |].
    destruct (HI eq_refl) as [HO Hp]. unfold can_recv. rewrite Hp, Hv, Hf. intros _. by apply start_recv_io.
Qed.

Lemma HandleRecvEof_io (s : conn) :
  io_ok (disarmed s) -> sync s -> connected_ s = true -> (valid (id_ s) = true -> state_ s <> kIdle) ->
  wp (HandleRecvEof true codec) (fun _ s' => io s') s.
Proof.
  intros HI Hs Hc Hni. unfold HandleRecvEof. wp_simpl. destruct (0 <? _).
  - unfold DeferCloseUntilInputDrained. wp_simpl. match goal with |- if _ then wp _ _ ?x else _ => set (s1 := x) end.
    assert (HI1 : io_ok s1) by (apply (same_io_ok (disarmed s)); solve [done | by split_and!]).
    destruct (negb _); [| by intros _]. wp_simpl. eapply wp_mono; [| by apply (ParseInput_still codec s1)].
    intros r s2 H2. wp_simpl. apply (still_io s1); [by intros _ | done | done].
  - apply close_io; [done | by apply connected_not_idle |]. eapply io_base_same; [apply (io_started _ HI) | by split_and!].
Qed.

Lemma HandleRecvCompletion_io (s : conn) ev q :
  io_ok s -> task_queue_ s = TPollEvent ev :: q -> ev_id ev = id_ s -> ev_operation ev = kPollOpRecv -> valid (id_ s) = true ->
  inv (s <| task_queue_ := q |>) ->
  wp (HandleRecvCompletion true codec F ev) (fun _ s' => io s') (s <| task_queue_ := q |>).
Proof.
  intros HO Eq Eid Eop Hv HI. destruct (pop_recv s ev q HO Eq Eid Eop Hv) as (HB & Hc & Hbuf & Hk).
  unfold HandleRecvCompletion, IsConnected. wp_simpl. set (s1 := s <| task_queue_ := q |>) in *.
  set (s2 := s1 <| recv_pending_ := false |>). destruct (inv_facts s1 HI) as (Hs1 & _ & Hni & Hup).
  assert (HI2 : inv s2) by (by eapply (inv_ext codec self true true s1)).
  assert (Hs2 : sync s2) by exact Hs1. assert (Hc2 : connected_ s2 = true) by exact Hc. rewrite Hc2. cbn [negb].
  assert (Hni2 : state_ s2 <> kIdle) by (by apply connected_not_idle).
  fold (failed_event ev). destruct (failed_event ev) eqn:Ef; [by apply close_io |].
  destruct Hbuf as [? | (buf & Eb & Hn)]; [done |]. unfold payload in Hk. rewrite Ef, Eb in Hk. cbn [default] in Hk.
  destruct (Z.eqb_spec (ev_bytes_transferred ev) 0) as [E0 | E0].
  { apply HandleRecvEof_io; try done. apply (Hk (trace s)); [by rewrite E0, app_nil_r | done | reflexivity]. }
  rewrite Eb. destruct (Z.ltb_spec (zlen buf) (ev_bytes_transferred ev)); [lia |]. wp_simpl.
  match goal with |- wp _ _ ?x => set (s3 := x) end.
  assert (HI3 : inv s3) by (by apply (inv_recv_completed codec codec_ok self true s2)).
  assert (HO3 : io_ok (disarmed s3)).
  { eapply same_io_ok; [apply (Hk (EvRecv (ztake (ev_bytes_transferred ev) buf) :: trace s)); [done | done | by split_and!] | | | done];
      by split_and!. }
  eapply wp_mono; [| apply wp_and; [by apply (ParseInput_still codec s3) | by apply (ParseInput_ok codec codec_ok self true true s3)]].
  intros r s4 [H4 [HI4 Hr]]. destruct (inv_facts s4 HI4) as (Hs4 & _ & Hni4 & Hup4).
  assert (Hgo : connected_ s4 = true -> wp (e ← WinConnection.PlatformStartRecv F;
    match e with Some error => StartClose true CloseReason.kError error | None => mret tt end) (fun _ s' => io s') s4).
  { intros Hc4. destruct (Hup4 Hc4). apply restart_recv_io; try done. intros Ho4.
    destruct (still_disarmed s3 s4 HO3 H4 Ho4) as [HO4 Hse]; [by intros _ |]. split; [done |].
    destruct (Hse Hc4) as (_ & -> & _). done. }
  assert (Hcl : r = kClosed -> io s4).
  { intros Er Ho4. destruct (still_disarmed s3 s4 HO3 H4 Ho4) as [HO4 _]; [by intros _ |]. apply rearm; [done |].
    rewrite (proj1 Hr Er). done. }
  assert (Hc4 : r <> kClosed -> connected_ s4 = true) by (intros Hne; destruct (connected_ s4); [done | by destruct (Hne (proj2 Hr eq_refl))]).
  destruct r; [by apply Hgo, Hc4 | by apply Hgo, Hc4 | wp_simpl; by apply Hcl].
Qed.

(** The next send is started if there is anything to send. *)
Lemma restart_send_io (s : conn) :
  sync s -> connected_ s = true -> valid (id_ s) = true -> fd_ok s = true -> io_ok (unsent s) -> send_pending_ s = false ->
  wp (r ← WinConnection.PlatformStartSend F;
      match r with inl _ => mret tt | inr error => StartClose true CloseReason.kError error end) (fun _ s' => io s') s.
Proof.
  intros Hs Hc Hv Hf HO Hp. wp_simpl. eapply wp_mono; [| apply PlatformStartSend_spec]. intros [[] | e] s1 [o ->]; wp_simpl.
  - intros _. destruct (send_buffer_ s) as [| front rest] eqn:Eb.
    + apply (same_io_ok (unsent s)); [done | by split_and! | by split_and! |]. intros _. by apply connected_not_idle.
    + unfold can_send. rewrite Hp, Hv, Hf. by eapply start_send_io.
  - apply close_io; [done | by apply (connected_not_idle s) |]. eapply io_base_same; [apply (io_started _ HO) | by split_and!].
Qed.

Lemma HandleSendCompletion_io (s : conn) ev q :
  io_ok s -> task_queue_ s = TPollEvent ev :: q -> ev_id ev = id_ s -> ev_operation ev = kPollOpSend -> valid (id_ s) = true ->
  inv (s <| task_queue_ := q |>) ->
  wp (HandleSendCompletion true F ev) (fun _ s' => io s') (s <| task_queue_ := q |>).
Proof.
  intros HO Eq Eid Eop Hv HI. destruct (pop_send s ev q HO Eq Eid Eop Hv) as (HB & Hc & Hk).
  unfold HandleSendCompletion, IsConnected. wp_simpl. set (s1 := s <| task_queue_ := q |>) in *.
  set (s2 := s1 <| send_pending_ := false |>). destruct (inv_facts s1 HI) as (Hs1 & _ & Hni & Hup). destruct (Hup Hc) as [_ Hf].
  assert (Hs2 : sync s2) by exact Hs1. assert (Hc2 : connected_ s2 = true) by exact Hc. rewrite Hc2. cbn [negb].
  fold (failed_event ev). destruct Hk as [Ef | (Ef & Hn & Hk)]; rewrite Ef; [by apply close_io; [| apply connected_not_idle |] |].
  set (n := ev_bytes_transferred ev) in *. wp_simpl. destruct (Z.ltb_spec 0 n) as [Hn0 | Hn0]; wp_simpl; cbn [negb].
  - unfold send_MoveHeader. wp_simpl. change (send_buffer_ (_ <| pending_bytes_ := _ |>)) with (send_buffer_ s).
    destruct (Z.ltb_spec (zlen (chunks_bytes (send_buffer_ s))) n); [lia |]. wp_simpl. cbn [negb].
    match goal with |- wp _ _ ?x => set (s3 := x) end.
    assert (Hw : io_ok (unsent s3)).
    { eapply same_io_ok; [apply (Hk (EvSent (ztake n (chunks_bytes (send_buffer_ s))) :: trace s)); [done | done | by split_and!] | | |];
        [by split_and! | by split_and! |]. intros _. by apply (connected_not_idle s2). }
    pose proof (restart_send_io s3 Hs2 Hc2 Hv Hf Hw eq_refl) as Hr. rewrite wp_bind in Hr. wp_simpl. exact Hr.
  - assert (Hw : io_ok (unsent s2)).
    { apply (Hk (trace s)); [done | | reflexivity]. assert (n = 0) as -> by lia. by rewrite app_nil_r. }
    pose proof (restart_send_io s2 Hs2 Hc2 Hv Hf Hw eq_refl) as Hr. rewrite wp_bind in Hr. wp_simpl. exact Hr.
Qed.

(** ** Connecting *)

(** Nothing is pending before the connection is up. *)
Lemma recv_down (s : conn) : recv_ok s -> connected_ s = false -> recv_pending_ s = false.
Proof.
  unfold recv_ok. intros HR Hc. destruct (requests_of _ _ _) as [| ? [| ? ?]]; try done;
    destruct (events_of _ _ _) as [| ? [| ? ?]]; try done; destruct HR as [? HR]; [done | destruct HR; congruence ..].
Qed.

Lemma send_down (s : conn) : send_ok s -> connected_ s = false -> send_pending_ s = false.
Proof.
  unfold send_ok. intros HR Hc. destruct (requests_of _ _ _) as [| ? [| ? ?]]; try done;
    destruct (events_of _ _ _) as [| ? [| ? ?]]; try done; destruct HR as [? HR]; [done | destruct HR; congruence ..].
Qed.

(** The connection is up and its first receive is started. *)
Lemma connected_io (s : conn) o :
  io_ok s -> connect_ok (s <| state_ := kConnected |>) -> valid (id_ s) = true -> connected_ s = false -> send_buffer_ s = [] ->
  recv_pending_ s = false /\
  io_ok (started (recv_request (id_ s) recv_cache_size) o s <| recv_pending_ := true |> <| state_ := kConnected |> <| connected_ := true |>).
Proof.
  intros [H1 [H2a H2b] H3 H4 _ _ _] Hco Hv Hc Eb. specialize (H3 Hv). specialize (H4 Hv).
  pose proof (recv_down s H3 Hc) as Hp. pose proof (send_down s H4 Hc) as Hsp. split; [done |].
  assert (HO : io_ok (disarmed (s <| state_ := kConnected |> <| connected_ := true |>))).
  { split.
    - eapply io_base_same; [exact H1 | by split_and!].
    - split; [done |]. cbn. congruence.
    - intros _. by apply (recv_ok_ext s).
    - intros _. apply (send_ok_ext s _ []); try done. by rewrite app_nil_r.
    - intros _. exact Hco.
    - by right.
    - intros _ Hne. by destruct (Hne Eb). }
  exact (start_recv_io _ o recv_cache_size HO Hv eq_refl Hp).
Qed.

Lemma HandleConnectCompletion_io (s : conn) ev q :
  io_ok s -> task_queue_ s = TPollEvent ev :: q -> ev_id ev = id_ s -> ev_operation ev = kPollOpConnect -> valid (id_ s) = true ->
  inv (s <| task_queue_ := q |>) ->
  wp (HandleConnectCompletion true F ev) (fun _ s' => io s') (s <| task_queue_ := q |>).
Proof.
  intros HO Eq Eid Eop Hv HI. destruct (pop_connect s ev q HO Eq Eid Eop Hv) as (HO1 & Hst & Hco).
  set (s1 := s <| task_queue_ := q |>) in *. destruct (inv_facts s1 HI) as (Hs1 & Hvf & Hni & _).
  assert (Hc : connected_ s1 = false) by (destruct Hs1 as [-> _]; change (state_ s1) with (state_ s); by rewrite Hst).
  unfold HandleConnectCompletion. destruct (has _ _); [apply close_io; [done | by apply Hni | apply HO1] |].
  unfold WinConnection.HandleConnected, HandleConnected_with. wp_simpl. rewrite bool_decide_true by done. cbn [negb]. wp_simpl.
  eapply wp_mono; [| apply PlatformAfterConnected_spec]. set (s2 := s1 <| connect_deadline_ms_ := 0 |>).
  assert (HO2 : io_ok s2) by (apply (same_io_ok s1); solve [done | by split_and!]). intros [e |] s3 [o ->].
  - apply close_io; [exact Hs1 | by apply Hni |]. eapply io_base_same; [apply HO2 | by split_and!].
  - destruct (i_quiet _ _ _ (proj1 HI) Hc) as [_ Eb]. destruct (connected_io s2 o HO2 Hco Hv Hc Eb) as [Hp HO3].
    assert (Hf : fd_ok s2 = true) by (change (fd_ok s2) with (fd_ok s1); rewrite <- Hvf; exact Hv).
    unfold can_recv. rewrite Hp, Hf. change (valid (id_ s2)) with (valid (id_ s)). rewrite Hv. cbn [negb andb]. wp_simpl.
    rewrite bool_decide_true by done. cbn [negb]. wp_simpl.
    eapply wp_mono; [| by apply Still_run_callback]. intros u s4 H4. eapply still_io; [| exact H4 | done]. by intros _.
Qed.

(** ** Events *)

Lemma HandlePollEvent_io (s : conn) ev q :
  io s -> owner_closing_ s = false -> task_queue_ s = TPollEvent ev :: q -> inv (s <| task_queue_ := q |>) ->
  wp (HandlePollEvent_on true F (windows true codec tcp local_address F inet_pton) ev) (fun _ s' => io s') (s <| task_queue_ := q |>).
Proof.
  intros HO Ho Eq HI. specialize (HO Ho). unfold HandlePollEvent_on.
  cbn [connect_completion recv_completion send_completion windows]. wp_simpl.
  assert (Hin : ev ∈ completions (task_queue_ s)) by (rewrite Eq; cbn; apply elem_of_cons; by left).
  destruct (io_events _ (io_started _ HO) ev Hin) as [Hst Hop]. pose proof (io_valid _ (io_started _ HO) _ Hst) as Hv.
  case_bool_decide as Eid; cbn [negb]; wp_simpl; [| intros _; by eapply pop_other]. change (ev_id ev = id_ s) in Eid. rewrite Eid in Hv.
  destruct (ev_operation ev) eqn:Eop; [done | ..].
  - by apply HandleConnectCompletion_io.
  - by apply HandleRecvCompletion_io.
  - by apply HandleSendCompletion_io.
Qed.

(** ** Tasks *)

(** An id that no request was started for. *)
Lemma fresh_none (s : conn) id op :
  io_base s -> id ∉ started_ids (trace s) ->
  requests_of id op (win_requests s) = [] /\ events_of id op (task_queue_ s) = [].
Proof.
  intros HB Hid. split.
  - destruct (requests_of id op (win_requests s)) as [| req l] eqn:E; [done |].
    assert (Hr : req ∈ requests_of id op (win_requests s)) by (rewrite E; apply elem_of_cons; by left).
    apply list_elem_of_filter in Hr as [[<- _] Hr]. by destruct Hid, (io_requests _ HB req Hr).
  - destruct (events_of id op (task_queue_ s)) as [| ev l] eqn:E; [done |].
    assert (Hr : ev ∈ events_of id op (task_queue_ s)) by (rewrite E; apply elem_of_cons; by left).
    apply list_elem_of_filter in Hr as [[<- _] Hr]. by destruct Hid, (io_events _ HB ev Hr).
Qed.

(** The connection is registered under a fresh id. *)
Lemma registered_io (s : conn) id fd T' tr :
  io_ok s -> valid (id_ s) = false -> connected_ s = false -> valid id = true -> id ∉ started_ids (trace s) ->
  same_io s (s <| trace := tr |>) -> session_of tr = session_of (trace s) ->
  io_ok (s <| trace := tr |> <| fd_ := fd |> <| id_ := id |> <| table := T' |>).
Proof.
  intros [HB [H2a H2b] _ _ _ _ _] Hv Hc Hv' Hid Hio Es. destruct (H2a Hc) as [Ex Ey]. destruct (H2b Hv) as [Er Ew].
  destruct (io_kernel _ HB id Hid) as [Ea Et]. pose proof Hio as (_ & _ & _ & A4 & A5). cbn in A4, A5.
  pose proof (fun op => fresh_none s id op HB Hid) as Hn. split.
  - eapply io_base_same; [exact HB |]. destruct Hio as (? & ? & ? & ? & ?). by split_and!.
  - split; cbn; [by rewrite Es | congruence].
  - intros _. unfold recv_ok. cbn -[requests_of events_of]. destruct (Hn kPollOpRecv) as [-> ->]. by rewrite Es, A4, Ea, Ex.
  - intros _. unfold send_ok. cbn -[requests_of events_of]. destruct (Hn kPollOpSend) as [-> ->]. by rewrite Es, A5, Et, Ey.
  - intros _. unfold connect_ok. cbn -[requests_of events_of]. by destruct (Hn kPollOpConnect) as [-> ->].
  - cbn. congruence.
  - cbn. congruence.
Qed.

Lemma start_connect_io (s : conn) o :
  io_ok s -> valid (id_ s) = true -> state_ s = kConnecting ->
  requests_of (id_ s) kPollOpConnect (win_requests s) = [] -> events_of (id_ s) kPollOpConnect (task_queue_ s) = [] ->
  io_ok (started {| operation := kPollOpConnect; req_id := id_ s; req_buffer := [] |} o s).
Proof.
  intros [H1 H2 H3 H4 _ H6 H7] Hv Hst Er Ee. split; try done.
  - apply (started_base s s _ o (recv_pending_ s) (send_pending_ s)); [done | reflexivity | done | done].
  - intros _. apply (recv_ok_ext s); try done; [by apply H3 |]. cbn -[requests_of].
    rewrite requests_snoc, decide_False, app_nil_r; [done |]. by intros [_ ?].
  - intros _. apply (send_ok_ext s _ []); try done; [by apply H4 | | by rewrite app_nil_r]. cbn -[requests_of].
    rewrite requests_snoc, decide_False, app_nil_r; [done |]. by intros [_ ?].
  - intros _. unfold connect_ok. cbn -[requests_of events_of]. rewrite requests_snoc, decide_True, Er, Ee by done. by cbn.
Qed.

Lemma ConnectResolved_io (s : conn) addr :
  io_ok s -> inv_data codec s (chunks_bytes (recv_buffer_ s)) -> attempt_ready self s ->
  match Register (table s) self with Some (id, _) => id ∉ started_ids (trace s) | None => True end ->
  wp (ConnectResolved_on true tcp self (windows true codec tcp local_address F inet_pton) addr) (fun _ s' => io s') s.
Proof.
  intros HO HD ([_ _ Hid (m & HR & Hm) _] & Hst & Hf & _) Hfr. rewrite Hf in Hid. rewrite Hid in Hm.
  assert (Hs : sync s) by (by split; apply HD). assert (Hc : connected_ s = false) by (by rewrite (i_connected _ _ _ HD), Hst).
  unfold ConnectResolved_on. cbn [open_socket start_connect after_connected windows]. wp_simpl.
  eapply wp_mono; [| apply WinOpenSocket_state]. intros r s1 (o & tr & -> & Hr).
  assert (Hni : state_ s <> kIdle) by congruence.
  destruct r as [new_fd | error]; wp_simpl.
  2: { apply close_io; [exact Hs | exact Hni |]. eapply io_base_same; [apply HO |]. destruct Hr as [-> | [fd ->]]; by split_and!. }
  destruct Hr as [Hfd ->]. unfold register_self. wp_simpl. cbn [table]. change (table _) with (table s).
  destruct (Register_ok (table s) m self HR Hm) as (id & T' & ER & Hv & _). rewrite ER in Hfr |- *. wp_simpl.
  match goal with |- if _ then wp _ _ ?x else _ => set (s2 := x) end.
  assert (HO2 : io_ok s2).
  { eapply same_io_ok; [apply (registered_io s id new_fd T' (EvSocket new_fd :: trace s)) | | |]; try done; by split_and!. }
  assert (Hn2 : requests_of (id_ s2) kPollOpConnect (win_requests s2) = [] /\ events_of (id_ s2) kPollOpConnect (task_queue_ s2) = [])
    by exact (fresh_none s id kPollOpConnect (io_started _ HO) Hfr).
  assert (Hgo : forall s3, same_io s2 s3 -> same_session s2 s3 -> state_ s3 = kConnecting -> task_queue_ s3 = task_queue_ s2 ->
    wp (WinConnection.PlatformConnect F addr) (fun rc => wp match rc with
          | ConnectError error => StartClose true CloseReason.kConnectFailed error
          | ConnectDone => HandleConnected_with true (WinConnection.PlatformAfterConnected F)
          | ConnectInProgress => mret tt
          end (fun _ s' => io s')) s3).
  { intros s3 Hio Hse Hst3 Eq3. assert (HO3 : io_ok s3) by (apply (same_io_ok s2); try done; by intros _).
    destruct Hio as (Ew & _). destruct Hse as (Ei & _ & _ & _ & Ec & _).
    eapply wp_mono; [| apply PlatformConnect_spec]. intros [| | e] s4 [o' Hs4]; [done | |]; subst s4; wp_simpl.
    - intros _. destruct Hn2 as [Hn2a Hn2b]. apply start_connect_io; rewrite ?Ei, ?Ew, ?Eq3; done.
    - apply close_io.
      + split; cbn; [rewrite Ec, Hst3; exact Hc | by rewrite Hst3].
      + cbn. congruence.
      + eapply io_base_same; [apply HO3 | by split_and!]. }
  destruct (0 <? connect_timeout_ms tcp); wp_simpl.
  - apply wp_sys_call. intros now errno _. wp_simpl. apply Hgo; solve [done | by split_and!].
  - apply Hgo; solve [done | by split_and!].
Qed.

(** A message enters the send buffer. *)
Lemma queued_io (s : conn) msg :
  io_ok s -> sync s -> connected_ s = true -> valid (id_ s) = true -> fd_ok s = true ->
  wp (UpdateWriteInterest_with true (WinConnection.PlatformStartSend F)) (fun _ s' => io s')
    (s <| trace := EvQueued msg :: trace s |> <| pending_bytes_ := usize (pending_bytes_ s + zlen msg) |>
       <| send_buffer_ := chunks_add (send_buffer_ s) msg |>).
Proof.
  intros HO Hs Hc Hv Hf. match goal with |- wp _ _ ?x => set (s1 := x) end. unfold UpdateWriteInterest_with. wp_simpl.
  change (valid (id_ s1)) with (valid (id_ s)). change (IsValidSocketHandle (fd_ s1)) with (fd_ok s). rewrite Hv, Hf. cbn [negb orb].
  destruct (send_pending_ s) eqn:Hp.
  - assert (HO1 : io_ok s1).
    { destruct HO as [H1 H2 H3 H4 H5 H6 H7]. split; try done.
      - eapply io_base_same; [exact H1 | by split_and!].
      - intros _. apply (send_ok_ext s _ msg); try done; [by apply H4 |]. apply chunks_add_bytes. }
    wp_simpl. unfold WinConnection.PlatformStartSend. wp_simpl. change (send_pending_ s1) with (send_pending_ s). rewrite Hp.
    cbn [orb]. destruct (send_buffer_ s1); wp_simpl; by intros _.
  - assert (HO1 : io_ok (unsent s1)).
    { eapply (same_io_ok s); [done | by split_and! | | intros _; by apply connected_not_idle]. split_and!; try done.
      destruct (send_buffer_ s) eqn:Eb; [done |]. rewrite (io_sending _ HO Hc) in Hp; [done |]. by rewrite Eb. }
    exact (restart_send_io s1 Hs Hc Hv Hf HO1 Hp).
Qed.

#[local] Abbreviation win_platform := (windows true codec tcp local_address F inet_pton).

(** A task that is not a completion is taken out of the queue. *)
Lemma pop_task (s : conn) t q :
  io s -> sync s -> task_queue_ s = t :: q -> (forall ev, t <> TPollEvent ev) -> (valid (id_ s) = true -> state_ s <> kIdle) ->
  io (s <| task_queue_ := q |>).
Proof.
  intros HO Hs Eq Ht Hni. apply (still_io s); [done | | done]. apply still_same; try done.
  split_and!; try done. cbn. rewrite Eq. destruct t; try done. by destruct (Ht ev).
Qed.

Lemma run_task_io (s : conn) t q :
  inv s -> io s -> owner_closing_ s = false -> task_queue_ s = t :: q -> ~ overtakes s -> id_fresh self s ->
  wp (run_task_on true codec tcp self F win_platform t) (fun _ s' => io s') (s <| task_queue_ := q |>).
Proof.
  intros HI HO Ho Eq Hov Hfr. set (s1 := s <| task_queue_ := q |>). destruct (inv_facts s HI) as (Hs & Hvf & Hni & Hup).
  assert (HO1 : (forall ev, t <> TPollEvent ev) -> io s1) by (intros Ht; by eapply pop_task).
  assert (HI1 : is_attempt t = false -> inv s1).
  { intros Hna. pose proof (i_tasks _ _ _ (proj1 HI)) as HT. rewrite Eq in HT. apply list.Forall_cons in HT as [_ HT].
    apply (inv_queue codec self true true s); [done | done |]. intros _ _. by rewrite Eq, filter_attempt_cons, Hna. }
  assert (Hstill : forall m : @M Q unit, (forall ev, t <> TPollEvent ev) -> wp m (fun _ s' => still s1 s') s1 -> wp m (fun _ s' => io s') s1).
  { intros m Ht Hm. eapply wp_mono; [| exact Hm]. intros u s2 H2. apply (still_io s1); [by apply HO1 | done | done]. }
  destruct t as [addr | reason desc | msg | ev | ev |]; cbn [run_task_on].
  - assert (Hr : attempt_ready self s1) by (by eapply (attempt_is_ready codec self true true s)).
    assert (HD1 : inv_data codec s1 (chunks_bytes (recv_buffer_ s1))).
    { pose proof (i_tasks _ _ _ (proj1 HI)) as HT. rewrite Eq in HT. apply list.Forall_cons in HT as [_ HT].
      eapply inv_data_input; [exact (proj1 HI) | done .. | apply HI]. }
    apply ConnectResolved_io; [by apply HO1 | done | done |]. unfold id_fresh in Hfr. by rewrite Eq in Hfr.
  - apply Hstill; [done |]. by apply Still_StartClose.
  - unfold IsConnected. wp_simpl. destruct (connected_ s1) eqn:Hc; wp_simpl; [| by apply HO1]. cbn [start_send windows].
    destruct (Hup Hc). apply (queued_io s1); [by apply HO1 | done ..].
  - apply HandlePollEvent_io; [done | done | done | by apply HI1].
  - apply Hstill; [done |]. unfold HandleTimerEvent. wp_simpl. destruct (negb _); wp_simpl; [by apply still_refl |].
    destruct (_ && _); [by apply Still_StartClose | by apply still_refl].
  - apply Hstill; [done |]. unfold IsConnected. wp_simpl. destruct (connected_ s1) eqn:Hc; wp_simpl; [| by apply still_refl].
    eapply wp_mono; [| by apply (ParseInput_still codec s1)]. intros r s2 H2. by wp_simpl.
Qed.

Lemma drain_round_io (s : conn) :
  inv s -> io s -> ~ overtakes s -> id_fresh self s ->
  wp (WinConnection.drain_round true codec tcp local_address self F inet_pton) (fun _ s' => io s') s.
Proof.
  intros HI HO Hov Hfr. unfold WinConnection.drain_round, drain_round_on, DrainTaskQueue. wp_simpl.
  destruct (owner_closing_ s) eqn:Ho; wp_simpl.
  - eapply wp_mono; [| apply close_released; [by apply (inv_facts s) | done]]. intros u s' ?. by wp_simpl.
  - destruct (task_queue_ s) as [| t q] eqn:Eq; wp_simpl; [done |].
    eapply wp_mono; [| by eapply run_task_io]. intros u s' ?. by wp_simpl.
Qed.

(** ** Steps of the clients *)

Lemma client_step_io (s s' : conn) : client_step self s s' -> inv s -> io s -> io s'.
Proof.
  intros Hstep HI HO. destruct (inv_facts s HI) as (Hs & _ & Hni & _).
  assert (Hm : forall {A} (m : @M Q A), Still m -> io (m s).2).
  { intros A m Hm. by apply (still_io s _ HO (Hm s Hs)). }
  destruct Hstep as [s' Hb | n r b s' Hn He | | data | | ev Hv | T' HT Hr | os' script'].
  - pose proof (Hm _ _ Still_Connect_begin) as HO'. rewrite Hb in HO'. cbn in HO'. intros Ho. specialize (HO' Ho).
    destruct HO' as [H1 H2 H3 H4 H5 H6 H7]. split; try done. eapply io_base_same; [exact H1 | by split_and!].
  - set (s0 := s <| resolving := n |>) in *.
    assert (HO0 : io s0) by (apply (still_io s _ HO); [apply still_same; solve [done | by split_and!] | done]).
    assert (HE : @Still Q _ (Connect_end r)) by (unfold Connect_end; still).
    pose proof (HE s0 Hs) as H1. unfold wp in H1. rewrite He in H1. by apply (still_io s0 s' HO0 H1).
  - apply (Hm _ (Post (TStartClose CloseReason.kUser ""))). by apply Still_Post.
  - apply (Hm _ (SendBuffer data)). unfold SendBuffer, IsConnected. still.
  - intros Ho. cbn in Ho. done.
  - apply (Hm _ (Post (TTimerEvent ev))). by apply Still_Post.
  - apply (still_io s _ HO); [apply still_same; solve [done | by split_and!] | done].
  - apply (still_io s _ HO); [apply still_same; solve [done | by split_and!] | done].
Qed.

(** ** Completion of a request *)

(** What a completion adds to the trace. *)
Definition kernel_trace (req : WinIoRequest) (ok : bool) (written : list byte) (bytes : Z) : list event :=
  if ok then match operation req with
             | kPollOpRecv => [EvArrived (req_id req) written]
             | kPollOpSend => [EvTaken (req_id req) (ztake bytes (req_buffer req))]
             | _ => []
             end
  else [].

#[local] Abbreviation completion req ok written bytes error := (to_event (write_buffer written req) ok bytes error).

Definition posted (s : conn) (id : ConnectionId) : bool :=
  bool_decide (Acquire (table s) (fun _ => true) id = Some self) && accepting_tasks_ s.

Lemma complete_request_eq req ok written bytes error (s : conn) :
  (complete_request self req ok written bytes error s).2 =
  s <| trace := kernel_trace req ok written bytes ++ trace s |>
    <| task_queue_ := task_queue_ s ++
         (if posted s (req_id req) then [TPollEvent (completion req ok written bytes error)] else []) |>.
Proof.
  unfold complete_request, deliver, PostPollEvent, Post, posted, kernel_trace, emit, when, get, modify, mbind, M_bind, mret, M_ret.
  destruct ok; [destruct (operation req) |]; cbn;
    (destruct (bool_decide _); cbn; [destruct (accepting_tasks_ s); cbn; [done |] |]); rewrite app_nil_r; by destruct s.
Qed.

Lemma kernel_trace_same req ok written bytes tr id :
  started_ids (kernel_trace req ok written bytes ++ tr) = started_ids tr /\
  session_of (kernel_trace req ok written bytes ++ tr) = session_of tr /\
  (id <> req_id req -> arrived id (kernel_trace req ok written bytes ++ tr) = arrived id tr /\
                       taken id (kernel_trace req ok written bytes ++ tr) = taken id tr) /\
  (operation req <> kPollOpRecv -> arrived id (kernel_trace req ok written bytes ++ tr) = arrived id tr) /\
  (operation req <> kPollOpSend -> taken id (kernel_trace req ok written bytes ++ tr) = taken id tr).
Proof.
  unfold kernel_trace. destruct ok; [| by split_and!]. destruct (operation req); [by split_and! | by split_and! | |];
    (split_and!; try done); cbn; intros Hne; by rewrite decide_False, app_nil_r by congruence.
Qed.

Lemma requests_mid id op l1 req l2 :
  requests_of id op (l1 ++ req :: l2) =
  requests_of id op l1 ++ (if decide (req_id req = id /\ operation req = op) then [req] else []) ++ requests_of id op l2.
Proof. unfold requests_of. rewrite list.filter_app, filter_cons. by destruct (decide _). Qed.

Lemma requests_app id op l1 l2 : requests_of id op (l1 ++ l2) = requests_of id op l1 ++ requests_of id op l2.
Proof. apply list.filter_app. Qed.

Lemma events_app id op q1 q2 : events_of id op (q1 ++ q2) = events_of id op q1 ++ events_of id op q2.
Proof. unfold events_of, completions. by rewrite omap_app, list.filter_app. Qed.

(** Other operations, and other connections, do not notice. *)
Lemma complete_other req id op l1 l2 q b ok written bytes error :
  ~ (req_id req = id /\ operation req = op) ->
  requests_of id op (l1 ++ l2) = requests_of id op (l1 ++ req :: l2) /\
  events_of id op (q ++ (if b : bool then [TPollEvent (completion req ok written bytes error)] else [])) = events_of id op q.
Proof.
  intros Hne. rewrite requests_app, requests_mid, events_app, decide_False by done. split; [done |].
  destruct b; [| by rewrite app_nil_r]. rewrite events_cons, decide_False by done. by rewrite app_nil_r.
Qed.

(** The one request of its kind becomes the one completion of its kind. *)
Lemma complete_mine (s : conn) req op l1 l2 ok written bytes error :
  inv s -> owner_closing_ s = false -> valid (id_ s) = true -> win_requests s = l1 ++ req :: l2 -> req_id req = id_ s -> operation req = op ->
  (exists x, requests_of (id_ s) op (win_requests s) = [x]) -> events_of (id_ s) op (task_queue_ s) = [] ->
  requests_of (id_ s) op (win_requests s) = [req] /\ requests_of (id_ s) op (l1 ++ l2) = [] /\
  events_of (id_ s) op (task_queue_ s ++ (if posted s (req_id req) then [TPollEvent (completion req ok written bytes error)] else [])) =
    [completion req ok written bytes error].
Proof.
  intros [HD HC] Ho Hv Ew Eid Eop [x Hx] He. rewrite Ew, requests_mid, decide_True in Hx by done.
  destruct (requests_of (id_ s) op l1) as [| y l1'] eqn:E1; [| by destruct l1'].
  destruct (requests_of (id_ s) op l2) as [| y l2'] eqn:E2; [| done].
  rewrite Ew, requests_mid, decide_True, requests_app, E1, E2, events_app, He by done. split; [done |]. split; [done |].
  destruct (HC eq_refl) as [[[_ _ _ (m & HR & Hm) _] _ _ _] _]. rewrite Hv in Hm. destruct Hm as [Hok Hm].
  assert (Hp : posted s (req_id req) = true).
  { unfold posted. rewrite (i_owner _ _ _ HD), Ho, Eid, (Acquire_ok _ _ _ _ HR) by apply Hok. rewrite Hm. by rewrite bool_decide_true. }
  rewrite Hp, events_cons, decide_True by done. done.
Qed.

Section Complete.
Context (s : conn) (l1 l2 : list WinIoRequest) (req : WinIoRequest) (ok : bool) (written : list byte) (bytes error : Z).
Hypothesis HI : inv s.
Hypothesis HO : io_ok s.
Hypothesis Ho : owner_closing_ s = false.
Hypothesis Ew : win_requests s = l1 ++ req :: l2.
Hypothesis Hres : result_ok req ok written bytes = true.

#[local] Abbreviation ev := (completion req ok written bytes error).
#[local] Abbreviation tr := (kernel_trace req ok written bytes ++ trace s).
#[local] Abbreviation after :=
  (s <| win_requests := l1 ++ l2 |> <| trace := tr |>
     <| task_queue_ := task_queue_ s ++ (if posted s (req_id req) then [TPollEvent ev] else []) |>).

Lemma complete_base : io_base after.
Proof.
  destruct (io_started _ HO) as [H1 H2 H3 H4]. pose proof (kernel_trace_same req ok written bytes (trace s)) as Hk.
  assert (Hreq : req ∈ win_requests s) by (rewrite Ew; apply elem_of_app; right; apply elem_of_cons; by left).
  destruct (Hk ConnectionId_default) as (Es & _). split; cbn; rewrite ?Es; try done.
  - intros r Hr. apply H1. rewrite Ew. apply elem_of_app. apply elem_of_app in Hr as [? | ?]; [by left | right; apply elem_of_cons; by right].
  - intros e. unfold completions. rewrite omap_app. intros [He | He]%elem_of_app; [by apply H2 |].
    destruct (posted s (req_id req)); [| by apply not_elem_of_nil in He]. apply list_elem_of_singleton in He as ->. by apply (H1 req).
  - intros id Hid. destruct (Hk id) as (_ & _ & Hne & _).
    destruct Hne as [-> ->]; [intros ->; by destruct Hid, (H1 req Hreq) | by apply H4].
Qed.

(** What the kernel reported of a receive is what it wrote. *)
Lemma completed_payload : operation req = kPollOpRecv ->
  arrived (req_id req) tr = arrived (req_id req) (trace s) ++ payload ev /\
  (failed_event ev = true \/ exists buf, ev_data ev = Some buf /\ 0 <= ev_bytes_transferred ev <= zlen buf).
Proof.
  intros Eop. unfold kernel_trace, payload, failed_event. rewrite Eop. unfold result_ok in Hres. rewrite Eop in Hres. destruct ok.
  - apply andb_true_iff in Hres as [E1%Z.eqb_eq E2%Z.leb_le]. unfold to_event. cbn. rewrite Eop. cbn. rewrite decide_True by done.
    pose proof (zlen_nonneg written). split.
    + f_equal. rewrite ztake_app_le by lia. rewrite E1. by rewrite ztake_all.
    + right. eexists. split; [done |]. zlia.
  - cbn. split; [by rewrite app_nil_r | by left].
Qed.

Lemma complete_recv_ok : valid (id_ s) = true -> recv_ok after.
Proof.
  intros Hv. pose proof (io_recv _ HO Hv) as HR. destruct (kernel_trace_same req ok written bytes (trace s) (id_ s)) as (_ & Es & Hne & Hop & _).
  destruct (decide (req_id req = id_ s /\ operation req = kPollOpRecv)) as [[Eid Eop] | Hn].
  - unfold recv_ok in HR. destruct (requests_of _ _ (win_requests s)) as [| x [| ? ?]] eqn:Ex; [| | done].
    { rewrite Ew, requests_mid, decide_True in Ex by done. by destruct (requests_of _ _ l1). }
    destruct (events_of _ _ (task_queue_ s)) as [| ? [| ? ?]] eqn:Ee; [| done ..]. destruct HR as (Hp & Hc & Ha).
    destruct (complete_mine s req _ l1 l2 ok written bytes error HI Ho Hv Ew Eid Eop) as (_ & Er & Ev); [by eexists | done |].
    unfold recv_ok. cbn -[requests_of events_of]. rewrite Er, Ev, Es. destruct (completed_payload Eop) as [Hpl Hb].
    rewrite Eid in Hpl. by rewrite Hpl, Ha.
  - destruct (complete_other req (id_ s) kPollOpRecv l1 l2 (task_queue_ s) (posted s (req_id req)) ok written bytes error Hn) as [Er Ee].
    apply (recv_ok_ext s); try done; cbn -[requests_of events_of]; [by rewrite Er, Ew | | by rewrite Es].
    destruct (decide (req_id req = id_ s)); [apply Hop; tauto | by apply Hne].
Qed.

(** What the kernel reported of a send is a part of the request. *)
Lemma complete_send_ok : valid (id_ s) = true -> send_ok after.
Proof.
  intros Hv. pose proof (io_send _ HO Hv) as HR. destruct (kernel_trace_same req ok written bytes (trace s) (id_ s)) as (_ & Es & Hne & _ & Hop).
  destruct (decide (req_id req = id_ s /\ operation req = kPollOpSend)) as [[Eid Eop] | Hn].
  - unfold send_ok in HR. destruct (requests_of _ _ (win_requests s)) as [| x [| ? ?]] eqn:Ex; [| | done].
    { rewrite Ew, requests_mid, decide_True in Ex by done. by destruct (requests_of _ _ l1). }
    destruct (events_of _ _ (task_queue_ s)) as [| ? [| ? ?]] eqn:Ee; [| done ..]. destruct HR as (Hp & Hc & Ha & Hpre).
    destruct (complete_mine s req _ l1 l2 ok written bytes error HI Ho Hv Ew Eid Eop) as (Er0 & Er & Ev); [by eexists | done |].
    rewrite Ex in Er0. injection Er0 as ->. unfold send_ok. cbn -[requests_of events_of chunks_bytes]. rewrite Er, Ev, Es.
    split; [done |]. split; [done |]. unfold result_ok in Hres. rewrite Eop in Hres. unfold kernel_trace, failed_event, to_event.
    destruct ok; [| done]. cbn -[chunks_bytes]. rewrite Eop. cbn -[chunks_bytes].
    apply andb_true_iff in Hres as [[_ E1%Z.leb_le]%andb_true_iff E2%Z.leb_le]. rewrite decide_True by done.
    destruct Hpre as [more Hmore]. rewrite Hmore. split; [zlia |]. by rewrite Ha, ztake_app_le by lia.
  - destruct (complete_other req (id_ s) kPollOpSend l1 l2 (task_queue_ s) (posted s (req_id req)) ok written bytes error Hn) as [Er Ee].
    apply (send_ok_ext s _ []); try done; cbn -[requests_of events_of]; [by rewrite Er, Ew | | by rewrite Es | by rewrite app_nil_r].
    destruct (decide (req_id req = id_ s)); [apply Hop; tauto | by apply Hne].
Qed.

Lemma complete_connect_ok : valid (id_ s) = true -> connect_ok after.
Proof.
  intros Hv. pose proof (io_connect _ HO Hv) as HR.
  destruct (decide (req_id req = id_ s /\ operation req = kPollOpConnect)) as [[Eid Eop] | Hn].
  - unfold connect_ok in HR. destruct (requests_of _ _ (win_requests s)) as [| x [| ? ?]] eqn:Ex; [| | done].
    { rewrite Ew, requests_mid, decide_True in Ex by done. by destruct (requests_of _ _ l1). }
    destruct (events_of _ _ (task_queue_ s)) as [| ? [| ? ?]] eqn:Ee; [| done ..].
    destruct (complete_mine s req _ l1 l2 ok written bytes error HI Ho Hv Ew Eid Eop) as (_ & Er & Ev); [by eexists | done |].
    unfold connect_ok. cbn -[requests_of events_of]. by rewrite Er, Ev.
  - destruct (complete_other req (id_ s) kPollOpConnect l1 l2 (task_queue_ s) (posted s (req_id req)) ok written bytes error Hn) as [Er Ee].
    apply (connect_ok_ext s); try done; cbn -[requests_of events_of]. by rewrite Er, Ew.
Qed.

Lemma complete_io_ok : io_ok after.
Proof.
  destruct (kernel_trace_same req ok written bytes (trace s) (id_ s)) as (_ & Es & _). split.
  - apply complete_base.
  - destruct (io_quiet _ HO) as [H1 H2]. split; [cbn; by rewrite Es | done].
  - apply complete_recv_ok.
  - apply complete_send_ok.
  - apply complete_connect_ok.
  - apply HO.
  - apply HO.
Qed.

End Complete.

Lemma complete_step_io (s : conn) l1 req l2 ok written bytes error :
  inv s -> io s -> win_requests s = l1 ++ req :: l2 -> result_ok req ok written bytes = true ->
  io (complete_request self req ok written bytes error (s <| win_requests := l1 ++ l2 |>)).2.
Proof. intros HI HO Ew Hres. rewrite complete_request_eq. intros Ho.
  exact (complete_io_ok s l1 l2 req ok written bytes error HI (HO Ho) Ho Ew Hres).
Qed.

(** ** Reachable states *)

(** Completions are posted for connections that exist. *)
Lemma complete_step_inv (s : conn) l1 req l2 ok written bytes error :
  inv s -> io s -> win_requests s = l1 ++ req :: l2 ->
  inv (complete_request self req ok written bytes error (s <| win_requests := l1 ++ l2 |>)).2.
Proof.
  intros HI HO Ew. set (s0 := s <| win_requests := l1 ++ l2 |>). assert (HI0 : inv s0) by (by eapply (inv_ext codec self true true s)).
  unfold complete_request. set (k := if ok then _ else _). change (wp (k;; deliver self (completion req ok written bytes error)) (fun _ s' => inv s') s0).
  assert (Hk : wp k (fun _ s1 => inv s1 /\ owner_closing_ s1 = owner_closing_ s) s0).
  { unfold k. destruct ok; [destruct (operation req) |]; wp_simpl; try done; (split; [| done]);
      [by eapply (inv_ext_io codec self true true s0 _ _ (EvArrived _ _)) | by eapply (inv_ext_io codec self true true s0 _ _ (EvTaken _ _))]. }
  wp_simpl. eapply wp_mono; [| exact Hk]. intros u s1 [HI1 Eo]. unfold deliver. wp_simpl. destruct (bool_decide _); [| done].
  unfold PostPollEvent. destruct (owner_closing_ s) eqn:Ho.
  - unfold Post. wp_simpl. rewrite (i_owner _ _ _ (proj1 HI1)), Eo. done.
  - apply (inv_Post codec self true true s1); [done | | done]. cbn. destruct (io_started _ (HO Ho)) as [H1 _ H3 _].
    apply H3, H1. rewrite Ew. apply elem_of_app. right. apply elem_of_cons. by left.
Qed.

Lemma win_step_ok (s s' : conn) :
  win_step codec tcp local_address self F inet_pton true s s' -> inv s /\ io s -> inv s' /\ io s'.
Proof.
  intros [s1 Hstep | l1 req l2 ok written bytes error Ew Hres | [Hov Hfr]%(fun f => f eq_refl)] [HI HO].
  - split; [by eapply (client_step_ok codec self true) | by eapply client_step_io].
  - split; [by apply complete_step_inv | by apply complete_step_io].
  - split; [| exact (drain_round_io s HI HO Hov Hfr)].
    pose proof (windows_ok (Q := Q) codec codec_ok tcp local_address self F inet_pton) as HP.
    refine (drain_round_ok codec codec_ok self true win_platform true s tcp F HI (fun _ => Hov) _).
    intros ev q Eq Ho _ _ Eid Eop. specialize (HO Ho). destruct (inv_facts s HI) as ([Hc _] & _).
    assert (Hv : valid (id_ s) = true).
    { rewrite <- Eid. destruct (io_started _ HO) as [_ H2 H3 _]. apply H3, H2. rewrite Eq. cbn. apply elem_of_cons. by left. }
    destruct (pop_connect s ev q HO Eq Eid Eop Hv) as (_ & Hst & _). by rewrite Hc, Hst.
Qed.

Lemma io_init T (q : Q) p : io (conn_init T q p).
Proof.
  intros _. split; try done. split; cbn; try done; intros ? ?%not_elem_of_nil; done.
Qed.

Lemma win_reachable_ok T (q : Q) p m (s : conn) :
  table_rep T m -> room T -> win_reachable codec tcp local_address self F inet_pton true T q p s -> inv s /\ io s.
Proof.
  intros HR Hr Hs. unfold win_reachable in Hs. pattern s. refine (rtc_ind_r _ _ _ _ _ Hs); clear s Hs.
  - split; [by eapply (inv_init codec codec_ok self true) | apply io_init].
  - intros s1 s2 _ H12 IH. by eapply win_step_ok.
Qed.

End Handlers.
