(* ===== verification/WinTheorems.v ===== *)
(** * The connection on Windows: theorems

    What every reachable state of a connection on Windows satisfies, and a run of the model
    on concrete input. *)

From S2P Require Import Prelude Codec SliceBuffer ConnTable Timer Poller Iocp Address Connection WinConnection ConnInv ConnProofs ConnTheorems ConnProgress WinProofs WinInv WinIo.

(** ** Concrete runs *)

(** An action of a client, the completion of the request at a position of the list of
    requests, or a task. *)
Inductive wact :=
| WClient (a : act)
| WComplete (pos : nat) (ok : bool) (written : list byte) (bytes error : Z)
| WRun.

Section Exec.
Context `{SizeT} `{PQ : PriorityQueue Q}.
Context (codec : option decode_fn) (tcp : TcpOptions) (local_address : option str) (self : conn_ref).
Context (FormatErrorMessage : Z -> string) (inet_pton : Z -> str -> option (list byte)).
#[local] Abbreviation conn := (@Connection.conn Q).

#[local] Instance id_fresh_dec (s : conn) : Decision (id_fresh self s).
Proof. unfold id_fresh. destruct (task_queue_ s) as [| [] ?], (Register (table s) self) as [[]|]; apply _. Defined.

#[export] Instance in_order_dec (s : conn) : Decision (in_order self s).
Proof. unfold in_order. apply _. Defined.

Definition wexec (d : bool) (a : wact) (s : conn) : option conn :=
  match a with
  | WClient a => exec_client a s
  | WComplete pos ok written bytes error =>
      match win_requests s !! pos with
      | Some req =>
          if result_ok req ok written bytes then
            Some (complete_request self req ok written bytes error
                    (s <| win_requests := take pos (win_requests s) ++ drop (S pos) (win_requests s) |>)).2
          else None
      | None => None
      end
  | WRun =>
      if d && negb (bool_decide (in_order self s)) then None
      else Some (WinConnection.drain_round true codec tcp local_address self FormatErrorMessage inet_pton s).2
  end.

Fixpoint wexec_all (d : bool) (acts : list wact) (s : conn) : option conn :=
  match acts with
  | [] => Some s
  | a :: acts' => s' ← wexec d a s; wexec_all d acts' s'
  end.

Lemma wexec_sound d a s s' :
  wexec d a s = Some s' -> win_step codec tcp local_address self FormatErrorMessage inet_pton d s s'.
Proof.
  destruct a as [a | pos ok written bytes error |]; cbn; intros E.
  - apply win_client. by eapply exec_client_sound.
  - destruct (win_requests s !! pos) as [req |] eqn:Er; [| done]. destruct (result_ok req ok written bytes) eqn:Ew; [| done].
    injection E as <-. apply win_complete; [| done]. by rewrite take_drop_middle.
  - destruct (d && _) eqn:Eo; [done |]. injection E as <-. apply win_run. intros ->.
    by apply negb_false_iff, bool_decide_eq_true in Eo.
Qed.

Lemma wexec_reachable d acts T (q : Q) p s :
  wexec_all d acts (conn_init T q p) = Some s ->
  win_reachable codec tcp local_address self FormatErrorMessage inet_pton d T q p s.
Proof.
  unfold win_reachable. generalize (conn_init T q p). induction acts as [| a acts IH]; cbn; intros s0 E.
  - injection E as ->. reflexivity.
  - destruct (wexec d a s0) as [s1 |] eqn:Ea; [| done]. eapply rtc_l; [by eapply wexec_sound | by apply IH].
Qed.

End Exec.

(** ** Theorems *)

Section Theorems.
Context `{SizeT} `{PQ : PriorityQueue Q}.
Context (codec : option decode_fn) (tcp : TcpOptions) (local_address : option str) (self : conn_ref).
Context (FormatErrorMessage : Z -> string) (inet_pton : Z -> str -> option (list byte)).
Context (T : ConnectionTable) (q : Q) (p : Poller) (m : gmap ConnectionId conn_ref).
Hypothesis codec_ok : forall decode, codec = Some decode -> StreamCodec decode.
Hypothesis table_ok : table_rep T m.
Hypothesis table_room : room T.

#[local] Abbreviation conn := (@Connection.conn Q).
#[local] Abbreviation Reachable s := (win_reachable codec tcp local_address self FormatErrorMessage inet_pton true T q p s).

Lemma WinReachable_ok s : Reachable s -> ConnInv.inv codec self true true s /\ io s.
Proof. by apply (win_reachable_ok codec codec_ok _ _ _ _ _ _ _ _ m). Qed.


(** The bytes of a receive that has completed and waits in the task queue. *)
Definition waiting (s : conn) : list byte := concat (payload <$> events_of (id_ s) kPollOpRecv (task_queue_ s)).


(** The bytes that a completed send has taken off the send buffer, once it is handled. *)
Definition acknowledged (s : conn) : Z :=
  foldr (fun ev n => (if failed_event ev then 0 else ev_bytes_transferred ev) + n) 0
    (events_of (id_ s) kPollOpSend (task_queue_ s)).


(** The requests of a kind that are under way: the kernel or its port holds them, or their
    completion waits in the task queue. *)
Definition under_way (s : conn) (op : PollOperation) : nat :=
  length (requests_of (id_ s) op (win_requests s)) + length (events_of (id_ s) op (task_queue_ s)).


(** The rules of the callbacks and the ownership of the socket are the same on Windows, if
    no [Disconnect] overtakes an attempt and no id is given out again: the handler has been told of a session exactly while
    [connected_] is set, each session or failed attempt is reported at most once and after its
    resources were released, the socket in [fd_] is the only one that is open, and
    the connection is found in the connection table under [id_] exactly while it has one. *)
Theorem win_session_protocol (s : conn) :
  Reachable s ->
  (exists ph, phase_of (trace s) = Some ph /\ (ph = Up <-> connected_ s = true)) /\
  sockets_of (trace s) = Some (if IsValidSocketHandle (fd_ s) then [fd_ s] else []) /\
  (state_ s = kIdle -> IsValidSocketHandle (fd_ s) = false) /\
  Acquire (table s) (fun _ => true) (id_ s) = (if IsValidSocketHandle (fd_ s) then Some self else None) /\
  fault s = false.
Proof.
  intros Hs. destruct (WinReachable_ok s Hs) as [[_ HC] _]. destruct (HC eq_refl) as [[[Hp H2 H3 (m' & HR & Hid) HF] H4 _ _] _].
  split; [done |]. split; [done |]. split; [done |]. split; [| done]. unfold fd_ok in *. rewrite <- H3.
  destruct (valid (id_ s)) eqn:Ev.
  - destruct Hid as [Hok Hm]. rewrite (Acquire_ok _ _ _ _ HR) by apply Hok. by rewrite Hm.
  - unfold Acquire. by rewrite Ev.
Qed.

End Theorems.

(** ** A session *)

(** Connect, receive a frame and the beginning of the next one, queue a reply. In [s] the
    rest of the second frame has been received and a part of the reply has been sent, and
    the connection has not handled either. *)
Module WinDemo.
Import ConnTheorems.Demo.

Definition up : sysret := RInt 1 0.
Definition pending : sysret := RInt (-1) WSA_IO_PENDING.
Definition open_calls : list sysret := [RInt 7 0; ok; ok; ok; RInt 1000 0; up; up; up; ok; pending].

Definition acts : list wact :=
  [WClient ABegin; WClient (AEnd resolved); WClient (AEnv open_calls []); WRun;
   WComplete 0 true [] 0 0; WClient (AEnv [ok; up; pending] []); WRun;
   WComplete 0 true [Byte.x61; Byte.x62; newline; Byte.x63] 4 0; WClient (AEnv [up; pending] []); WRun;
   WClient (ASend (Some [Byte.x68; Byte.x65; Byte.x79])); WClient (AEnv [up; ok] []); WRun;
   WComplete 1 true [] 2 0; WComplete 0 true [Byte.x64; newline] 2 0].

Definition s : conn := default init (wexec_all codec tcp None 0 strerror inet_pton true acts init).

Definition ran : bool := match wexec_all codec tcp None 0 strerror inet_pton true acts init with Some _ => true | None => false end.

Lemma win_reached : win_reachable codec tcp None 0 strerror inet_pton true ConnectionTable_new q p s.
Proof.
  assert (E : ran = true) by (vm_compute; reflexivity). apply (wexec_reachable _ _ _ _ _ _ true acts). revert E. unfold ran, s.
  by destruct (wexec_all _ _ _ _ _ _ _ _ _).
Qed.

Lemma s_facts :
  owner_closing_ s = false /\ valid (id_ s) = true /\ connected_ s = true /\ id_ s = id /\
  msgs (session_of (trace s)) = [[Byte.x61; Byte.x62; newline]] /\ chunks_bytes (recv_buffer_ s) = [Byte.x63] /\
  waiting s = [Byte.x64; newline] /\ acknowledged s = 2 /\ chunks_bytes (send_buffer_ s) = [Byte.x68; Byte.x65; Byte.x79] /\
  fd_ s = 7 /\ deferred_close_pending_ s = false /\ send_pending_ s = true.
Proof. vm_compute. split_and!; reflexivity. Qed.
End WinDemo.




Lemma win_session_protocol_witness : sockets_of (trace WinDemo.s) = Some [7] /\ phase_of (trace WinDemo.s) = Some Up.
Proof.
  destruct WinDemo.s_facts as (_ & _ & Hc & _ & _ & _ & _ & _ & _ & Hf & _).
  destruct (win_session_protocol Demo.codec Demo.tcp None 0 Demo.strerror Demo.inet_pton ConnectionTable_new
    Demo.q Demo.p ∅ Demo.codec_ok table_rep_empty Demo.room_new WinDemo.s WinDemo.win_reached) as ((ph & Hp & Hup) & Hs & _).
  rewrite Hf in Hs. split; [exact Hs |]. rewrite Hp, (proj2 Hup Hc). reflexivity.
Defined.

(** ** Why the tasks must be in order *)

Module WinOvertaken.
Import ConnTheorems.Demo WinDemo.

(** [Disconnect] comes while the first attempt is being resolved, and a second [Connect]
    follows; the first attempt comes up and receives a frame before the outcome of the
    second reaches the connection. *)
Definition acts : list wact :=
  [WClient ABegin; WClient ADisconnect; WRun; WClient ABegin;
   WClient (AEnd resolved); WClient (AEnv open_calls []); WRun;
   WComplete 0 true [] 0 0; WClient (AEnv [ok; up; pending] []); WRun;
   WComplete 0 true [Byte.x61; newline] 2 0; WClient (AEnv [up; pending] []); WRun;
   WClient (AEnd resolved); WClient (AEnv (RInt 8 0 :: tail open_calls) []); WRun].

(** The session is up with a delivered frame, and the connection has the id of the second
    socket, for which the kernel has received nothing, a connect request is under way and no
    receive is. *)
Definition mixed_up (s : @conn sorted_queue) : bool :=
  connected_ s && negb (owner_closing_ s) && valid (id_ s) && negb (deferred_close_pending_ s) &&
  bool_decide (msgs (session_of (trace s)) = [[Byte.x61; newline]]) && bool_decide (arrived (id_ s) (trace s) = []) &&
  bool_decide (under_way s kPollOpRecv = 0%nat) && bool_decide (under_way s kPollOpConnect = 1%nat).
End WinOvertaken.

(** In a run in which a [Disconnect] overtakes an attempt, a session can end up under the id of
    another socket: neither the exactness of the input nor that of the requests under way holds
    there. *)
Theorem win_overtaken_mixes_up :
  exists s, win_reachable Demo.codec Demo.tcp None 0 Demo.strerror Demo.inet_pton false ConnectionTable_new Demo.q Demo.p s /\
    WinOvertaken.mixed_up s = true.
Proof.
  assert (HR : forall o, wexec_all Demo.codec Demo.tcp None 0 Demo.strerror Demo.inet_pton false WinOvertaken.acts
      (conn_init ConnectionTable_new Demo.q Demo.p) = o -> (if o is Some s then WinOvertaken.mixed_up s else false) = true ->
    exists s, win_reachable Demo.codec Demo.tcp None 0 Demo.strerror Demo.inet_pton false ConnectionTable_new Demo.q Demo.p s /\
      WinOvertaken.mixed_up s = true).
  { intros [s |] Eo E; [| done]. exists s. split; [| exact E]. by apply (wexec_reachable _ _ _ _ _ _ false WinOvertaken.acts). }
  apply (HR _ eq_refl). vm_compute. reflexivity.
Qed.
