(* ===== verification/WinSystem.v ===== *)
(** * The connection on Windows together with the completion port

    [WinInv.v] keeps of the poller only the list of requests that are under way. Here the
    connection runs with the port of [Iocp.v] itself: what a task submits goes through the
    port's memory and map, the kernel completes it there, and the poll thread takes the
    completions off the port, a batch at a time, and posts them one by one. The composed
    system makes only steps of [WinInv.win_step], so the theorems of [WinTheorems.v] hold of it. *)

From S2P Require Import Prelude Codec SliceBuffer ConnTable Timer Poller Address Connection WinConnection ConnInv ConnProofs ConnTheorems ConnProgress WinProofs WinInv WinIo WinTheorems Iocp IocpSpec.

(** ** What a request looks like when it is submitted *)

Definition plain (req : WinIoRequest) : Prop :=
  operation req = kPollOpRecv -> req_buffer req = replicate (length (req_buffer req)) x00.

(** [ev] reports the outcome of [req]. *)
Definition reported (req : WinIoRequest) (ev : PollEvent) : Prop :=
  exists ok written bytes error, result_ok req ok written bytes = true /\ ev = to_event (write_buffer written req) ok bytes error.

(** An event says which request it reports, but for the bytes the kernel has overwritten. *)
Lemma reported_unique req req' ev : plain req -> plain req' -> reported req ev -> reported req' ev -> req = req'.
Proof.
  intros Hp Hp' (ok & w & b & e & Hr & ->) (ok' & w' & b' & e' & Hr' & E).
  pose proof (result_ok_fits _ _ _ _ Hr) as Hw. pose proof (result_ok_fits _ _ _ _ Hr') as Hw'.
  pose proof (key_write _ _ Hw) as Hk. pose proof (key_write _ _ Hw') as Hk'.
  injection E as Eid _ _ Eop _ Ed. cbn in Eid, Eop, Ed. unfold plain in *.
  assert (El : zlen (req_buffer req) = zlen (req_buffer req')).
  { unfold key in Hk, Hk'. cbn in Hk, Hk'. injection Hk as Hk. injection Hk' as Hk'. congruence. }
  destruct req as [op id buf], req' as [op' id' buf']. cbn in *. subst op' id'. f_equal.
  destruct (decide (op = kPollOpRecv)) as [-> | Hop].
  - rewrite (Hp eq_refl), (Hp' eq_refl). unfold zlen in El. f_equal. lia.
  - assert (Hnil : forall o w0 buf0 b0, result_ok {| operation := op; req_id := id; req_buffer := buf0 |} o w0 b0 = true -> w0 = []).
    { intros o w0 buf0 b0. unfold result_ok. cbn. destruct o, op; try done; rewrite ?andb_true_iff, ?bool_decide_eq_true; naive_solver. }
    apply Hnil in Hr as ->. apply Hnil in Hr' as ->. exact Ed.
Qed.

(** ** A task only submits requests *)

Section Submits.
Context `{SizeT} `{PQ : PriorityQueue Q}.
#[local] Abbreviation conn := (@Connection.conn Q).

Definition submits (s s' : conn) : Prop := exists new, win_requests s' = win_requests s ++ new /\ Forall plain new.
Definition Submits {A} (m : @M Q A) : Prop := forall s, submits s (m s).2.

#[export] Instance submits_preorder : PreOrder submits.
Proof.
  split.
  - intros s. exists []. by rewrite app_nil_r.
  - intros s1 s2 s3 (n1 & E1 & F1) (n2 & E2 & F2). exists (n1 ++ n2). rewrite E2, E1, app_assoc. split; [done | by apply list.Forall_app].
Qed.

Lemma submits_same s s' : win_requests s' = win_requests s -> submits s s'.
Proof. intros E. exists []. by rewrite E, app_nil_r. Qed.

Lemma Submits_ret {A} (a : A) : Submits (mret a).
Proof. intros s. by apply submits_same. Qed.

Lemma Submits_bind {A B} (m : M A) (k : A -> M B) : Submits m -> (forall a, Submits (k a)) -> Submits (m ≫= k).
Proof.
  intros Hm Hk s. unfold mbind, M_bind. specialize (Hm s). destruct (m s) as [a s1]. cbn in Hm. etrans; [exact Hm | apply Hk].
Qed.

Lemma Submits_modify f : (forall s, win_requests (f s) = win_requests s) -> Submits (modify f).
Proof. intros Hf s. apply submits_same, Hf. Qed.

Lemma Submits_when b m : Submits m -> Submits (when b m).
Proof. destruct b; [done | intros _; apply Submits_ret]. Qed.

Lemma Submits_get : Submits get.
Proof. intros s. by apply submits_same. Qed.

Lemma Submits_sys_next : Submits sys_next.
Proof. intros s. apply submits_same. unfold sys_next. by destruct (os s). Qed.

Lemma Submits_next_script : Submits next_script.
Proof. intros s. apply submits_same. unfold next_script. by destruct (script s). Qed.
End Submits.

Create HintDb submits.
#[export] Hint Resolve Submits_ret Submits_get Submits_sys_next Submits_next_script : submits.

Ltac submits := repeat first
  [ solve [auto with submits nocore]
  | match goal with
    | |- forall _, _ => intros ?
    | |- Submits (when _ _) => apply Submits_when
    | |- Submits (_ ≫= _) => apply Submits_bind
    | |- Submits (modify _) => apply Submits_modify; intros ?; reflexivity
    | |- Submits (emit _) => apply Submits_modify; intros ?; reflexivity
    | |- Submits (match ?x with _ => _ end) => destruct x
    end ].

Section Tasks.
Context `{SizeT} `{PQ : PriorityQueue Q}.
Context (codec : option decode_fn) (tcp : TcpOptions) (local_address : option str) (self : conn_ref).
Context (FormatErrorMessage : Z -> string) (inet_pton : Z -> str -> option (list byte)).
#[local] Abbreviation conn := (@Connection.conn Q).
#[local] Abbreviation F := FormatErrorMessage.

Lemma Submits_Post t : @Submits Q _ (Post t).
Proof. unfold Post. submits. Qed.
#[local] Hint Resolve Submits_Post : submits.

Lemma Submits_Connect hosts : @Submits Q _ (Connect hosts).
Proof. unfold Connect, Connect_begin, Connect_end. submits. Qed.
#[local] Hint Resolve Submits_Connect : submits.

Lemma Submits_StartClose_with cb reason desc : (forall c, Submits (cb c)) -> @Submits Q _ (StartClose_with true cb reason desc).
Proof. intros Hcb. unfold StartClose_with, FinishClose_with, PlatformCloseSocket, ResetAfterClose, PlatformResetIoState. submits. Qed.

Lemma Submits_run_apis calls : @Submits Q _ (run_apis true calls).
Proof.
  induction calls as [| c calls IH]; [apply Submits_ret |]. apply Submits_bind; [| done].
  destruct c; cbn [run_api]; unfold Disconnect, SendBuffer, IsConnected, CloseFromOwner_draining, DrainTaskQueue; submits.
  apply Submits_StartClose_with. submits.
Qed.
#[local] Hint Resolve Submits_run_apis : submits.

Lemma Submits_run_callback c : @Submits Q _ (run_callback true c).
Proof. unfold run_callback. submits. Qed.

Lemma Submits_StartClose reason desc : @Submits Q _ (Connection.StartClose true reason desc).
Proof. apply Submits_StartClose_with, Submits_run_callback. Qed.
#[local] Hint Resolve Submits_run_callback Submits_StartClose : submits.

Lemma Submits_parse_loop decode budget : forall data offset, @Submits Q _ (parse_loop true budget decode data offset).
Proof. induction budget; intros data offset; cbn [parse_loop]; unfold IsConnected; submits. Qed.
#[local] Hint Resolve Submits_parse_loop : submits.

Lemma Submits_ParseInput : @Submits Q _ (ParseInput true codec).
Proof.
  unfold ParseInput, parse_finish, FinishDeferredClose, ScheduleParseContinuation, recv_MoveHeader, IsConnected. submits.
Qed.

Lemma Submits_sys_call : @Submits Q _ sys_call.
Proof. unfold sys_call. submits. Qed.

(** The one place where requests are added. *)
Lemma Submits_submit ok req : plain req -> @Submits Q _ (submit F ok req).
Proof.
  intros Hp s. unfold submit. unfold mbind, M_bind. pose proof (Submits_sys_call s) as Hc. destruct (sys_call s) as [[rc err] s1]. cbn in Hc.
  destruct (_ || _); [| exact Hc]. etrans; [exact Hc |]. exists [req]. split; [done | by repeat constructor].
Qed.
#[local] Hint Resolve Submits_ParseInput Submits_sys_call : submits.

Lemma Submits_poller_usable : @Submits Q _ poller_usable.
Proof. unfold poller_usable. submits. Qed.

Lemma Submits_poller_StartConnect id : @Submits Q _ (poller_StartConnect F id).
Proof. unfold poller_StartConnect, must_succeed. pose proof Submits_poller_usable. submits. by apply Submits_submit. Qed.

Lemma Submits_poller_StartRecv id len : @Submits Q _ (poller_StartRecv F id len).
Proof.
  unfold poller_StartRecv. pose proof Submits_poller_usable. submits. apply Submits_submit. intros _. cbn. by rewrite length_replicate.
Qed.

Lemma Submits_poller_StartSend id data : @Submits Q _ (poller_StartSend F id data).
Proof. unfold poller_StartSend. pose proof Submits_poller_usable. submits. by apply Submits_submit. Qed.
#[local] Hint Resolve Submits_poller_usable Submits_poller_StartConnect Submits_poller_StartRecv Submits_poller_StartSend : submits.

Lemma Submits_StartRecv : @Submits Q _ (WinConnection.PlatformStartRecv F).
Proof. unfold WinConnection.PlatformStartRecv. submits. Qed.

Lemma Submits_StartSend : @Submits Q _ (WinConnection.PlatformStartSend F).
Proof. unfold WinConnection.PlatformStartSend. submits. Qed.
#[local] Hint Resolve Submits_StartRecv Submits_StartSend : submits.

Lemma Submits_HandleConnected : @Submits Q _ (HandleConnected_with true (WinConnection.PlatformAfterConnected F)).
Proof. unfold HandleConnected_with, WinConnection.PlatformAfterConnected, must_succeed. submits. Qed.

Lemma Submits_HandleRecvCompletion ev : @Submits Q _ (HandleRecvCompletion true codec F ev).
Proof. unfold HandleRecvCompletion, HandleRecvEof, DeferCloseUntilInputDrained, IsConnected. submits. Qed.

Lemma Submits_HandleSendCompletion ev : @Submits Q _ (HandleSendCompletion true F ev).
Proof. unfold HandleSendCompletion, send_MoveHeader, IsConnected. submits. Qed.
#[local] Hint Resolve Submits_HandleConnected Submits_HandleRecvCompletion Submits_HandleSendCompletion : submits.

Lemma Submits_ConnectResolved addr :
  @Submits Q _ (ConnectResolved_on true tcp self (windows true codec tcp local_address F inet_pton) addr).
Proof.
  unfold ConnectResolved_on, register_self. cbn [open_socket start_connect after_connected windows].
  unfold WinConnection.PlatformOpenSocket, WinConnection.ApplyTcpOptions, SetNonBlocking, WinConnection.PlatformConnect, poller_Add,
    must_succeed, ignore_call. submits.
Qed.

Lemma Submits_drain_round :
  @Submits Q _ (WinConnection.drain_round true codec tcp local_address self F inet_pton).
Proof.
  unfold WinConnection.drain_round, drain_round_on, DrainTaskQueue. submits.
  match goal with |- Submits (run_task_on _ _ _ _ _ _ ?t) => destruct t end; cbn [run_task_on]; [apply Submits_ConnectResolved | ..];
    unfold UpdateWriteInterest_with, HandlePollEvent_on, HandleTimerEvent, IsConnected, IsConnecting, HandleConnectCompletion;
    cbn [start_send finish_connect after_connected handle_readable handle_writable connect_completion recv_completion send_completion windows];
    unfold WinConnection.PlatformFinishConnect, HandleConnectCompletion, WinConnection.HandleConnected; submits.
Qed.
End Tasks.

(** ** The system *)

Section System.
Context `{SizeT} `{PQ : PriorityQueue Q}.
Context (codec : option decode_fn) (tcp : TcpOptions) (local_address : option str) (self : conn_ref).
Context (FormatErrorMessage : Z -> string) (inet_pton : Z -> str -> option (list byte)).
#[local] Abbreviation conn := (@Connection.conn Q).
#[local] Abbreviation Run := (WinConnection.drain_round true codec tcp local_address self FormatErrorMessage inet_pton).

(** [events]: what the last [Wait] returned and the poll thread has not posted yet. *)
Record system := System { connection : conn; completion_port : port; events : list PollEvent }.

(** What a thread does to the port when it submits requests. *)
Definition submission (a : action) : bool :=
  match a with AConnect _ _ _ | ARecv _ _ _ | ASend _ _ _ | ACall _ _ => true | _ => false end.

(** The steps: of what surrounds the connection; a task of the connection, with the same
    requests accepted by the port; the kernel or a wake-up; the poll thread in [Wait],
    and posting an event. With [d = false] these are all runs, with [d = true] those whose tasks are
    in order. *)
Inductive sys_step (d : bool) (x : system) : system -> Prop :=
| sys_client c' : client_step self (connection x) c' -> sys_step d x (System c' (completion_port x) (events x))
| sys_run acts p' :
    (d = true -> in_order self (connection x)) -> forallb submission acts = true ->
    let c' := (Run (connection x)).2 in
    port_run acts (completion_port x) =
      Some (LStart <$> drop (length (win_requests (connection x))) (win_requests c'), p') ->
    sys_step d x (System c' p' (events x))
| sys_port a p' :
    labels a (completion_port x) = [] -> act a (completion_port x) = Some p' -> sys_step d x (System (connection x) p' (events x))
| sys_wait :
    events x = [] ->
    sys_step d x (System (connection x) (Wait (completion_port x)).2 (Wait (completion_port x)).1.2)
| sys_post ev rest l1 req l2 ok written bytes error :
    events x = ev :: rest -> win_requests (connection x) = l1 ++ req :: l2 ->
    result_ok req ok written bytes = true -> ev = to_event (write_buffer written req) ok bytes error ->
    sys_step d x (System (complete_request self req ok written bytes error ((connection x) <| win_requests := l1 ++ l2 |>)).2
                         (completion_port x) rest).

Definition sys_reachable (d : bool) (T : ConnectionTable) (q : Q) (p : Poller) : system -> Prop :=
  rtc (sys_step d) (System (conn_init T q p) port_new []).

(** The requests under way are those in the pool and those whose events have been taken. *)
Record coupled (x : system) : Prop := {
  x_port : reachable (completion_port x);
  x_pool : exists pool taken, simulates (completion_port x) pool /\ Forall2 reported taken (events x) /\
             win_requests (connection x) ≡ₚ taken ++ pool;
  x_plain : Forall plain (win_requests (connection x))
}.

Lemma pool_run_starts pool news pool' : pool_run pool (LStart <$> news) pool' -> pool' ≡ₚ pool ++ news.
Proof.
  revert pool. induction news as [| req news IH]; intros pool Hr; inversion Hr as [| ? p2 ? ? ? Hs Hr']; subst; [by rewrite app_nil_r |].
  inversion Hs as [? ? Hp | |]; subst. rewrite (IH _ Hr'), Hp. cbn. by rewrite Permutation_middle.
Qed.

Lemma pool_run_events pool evs pool' :
  pool_run pool (LEvent <$> evs) pool' -> exists taken, Forall2 reported taken evs /\ pool ≡ₚ taken ++ pool'.
Proof.
  revert pool. induction evs as [| ev evs IH]; intros pool Hr; inversion Hr as [| ? p2 ? ? ? Hs Hr']; subst; [by exists [] |].
  inversion Hs as [| req ? ok w b e Hp Hres |]; subst. destruct (IH _ Hr') as (taken & HF & Hp').
  exists (req :: taken). split; [constructor; [by exists ok, w, b, e | done] |]. by rewrite Hp, Hp'.
Qed.

(** Nothing but a submission changes the list of requests. *)
Lemma Post_requests t (s : conn) : win_requests (Post t s).2 = win_requests s.
Proof. unfold Post, mbind, M_bind, get, when. by destruct (accepting_tasks_ s). Qed.

Lemma Post_ret_requests {A} t (a : A) (s : conn) : win_requests ((Post t;; mret a) s).2 = win_requests s.
Proof. pose proof (Post_requests t s) as E. unfold mbind, M_bind. by destruct (Post t s). Qed.

Lemma client_step_requests (s s' : conn) : client_step self s s' -> win_requests s' = win_requests s.
Proof.
  destruct 1 as [s1 E | n r b s1 _ E | | data | | ev _ | T' _ _ | os' script'].
  - unfold Connect_begin, mbind, M_bind, get in E. destruct (decide (state_ s = kIdle)); [| done]. by injection E as <-.
  - change s1 with (b, s1).2. rewrite <- E. unfold Connect_end. destruct r as [[e |] [[| a l] |]]; (etrans; [apply Post_ret_requests | done]).
  - apply Post_requests.
  - unfold SendBuffer, IsConnected, mbind, M_bind, get, mret, M_ret. destruct data as [[| x data] |]; try done.
    destruct (connected_ s); [| done]. exact (Post_ret_requests (TSend (x :: data)) true s).
  - done.
  - apply Post_requests.
  - done.
  - done.
Qed.

Lemma complete_request_requests req ok written bytes error (s : conn) :
  win_requests (complete_request self req ok written bytes error s).2 = win_requests s.
Proof.
  unfold complete_request, deliver, emit, mbind, M_bind, get, modify, when.
  destruct ok, (operation req); cbn; destruct (bool_decide _); try done; (etrans; [apply Post_requests | done]).
Qed.

(** Posting is always possible. *)
Lemma coupled_post x ev rest :
  coupled x -> events x = ev :: rest -> exists l1 req l2 ok written bytes error,
    win_requests (connection x) = l1 ++ req :: l2 /\ result_ok req ok written bytes = true /\
    ev = to_event (write_buffer written req) ok bytes error.
Proof.
  intros [_ (pool & taken & _ & HF & Hp) _] E. rewrite E in HF. inversion HF as [| req ? ? ? Hr HF']; subst.
  destruct Hr as (ok & w & b & e & Hres & ->). assert (Hin : req ∈ win_requests (connection x)) by (rewrite Hp; left).
  apply list_elem_of_split in Hin as (l1 & l2 & El). by exists l1, req, l2, ok, w, b, e.
Qed.

Lemma coupled_step d x y : coupled x -> sys_step d x y -> coupled y.
Proof.
  intros [HR (pool & taken & HS & HF & Hp) Hpl] [c' Hc | acts p' _ _ c' Er | a p' El Ea | Ee | ev rest l1 req l2 ok w b e Ee Ew Hres Eev].
  - pose proof (client_step_requests _ _ Hc) as E. split; cbn; [done | | by rewrite E]. exists pool, taken. by rewrite E.
  - destruct (Submits_drain_round codec tcp local_address self FormatErrorMessage inet_pton (connection x)) as (new & En & Fn).
    fold c' in En. rewrite En, drop_app_length in Er. destruct (port_run_sim _ _ _ _ _ HR HS Er) as (pool' & Hr & HS' & HR').
    split; cbn; [done | | rewrite En; by apply list.Forall_app]. exists pool', taken. split_and!; try done.
    by rewrite En, Hp, (pool_run_starts _ _ _ Hr), app_assoc.
  - destruct (act_sim _ _ _ _ (port_reachable_ok _ HR) HS Ea) as (pool' & Hr & HS'). rewrite El in Hr. inversion Hr; subst.
    split; cbn; [eapply rtc_r; [exact HR | by exists a] | by exists pool', taken | done].
  - rewrite Ee in HF. inversion HF; subst. destruct (Wait_sim _ _ (port_reachable_ok _ HR) HS) as (pool' & Hr & HS').
    destruct (pool_run_events _ _ _ Hr) as (taken' & HF' & Hp').
    split; cbn; [eapply rtc_r; [exact HR | by exists AWait] | | done]. exists pool', taken'. split_and!; try done. by rewrite Hp, Hp'.
  - rewrite Ee in HF. inversion HF as [| req' ? taken' ? Hr' HF']; subst.
    assert (Hin : req' ∈ win_requests (connection x)) by (rewrite Hp; left).
    assert (Hq : req ∈ win_requests (connection x)) by (rewrite Ew; set_solver).
    rewrite list.Forall_forall in Hpl. assert (req' = req) as ->.
    { apply (reported_unique _ _ (to_event (write_buffer w req) ok b e)); auto. by exists ok, w, b, e. }
    assert (Hl : l1 ++ l2 ≡ₚ taken' ++ pool).
    { rewrite Ew, <- Permutation_middle in Hp. cbn in Hp. by apply Permutation_cons_inv in Hp. }
    split; cbn [connection completion_port events]; [done | |]; rewrite complete_request_requests; cbn.
    + by exists pool, taken'.
    + rewrite list.Forall_forall. intros r Hr. apply Hpl. rewrite Ew. set_solver.
Qed.

End System.

(** ** Runs *)

#[export] Instance WinIoRequest_eq_dec : EqDecision WinIoRequest.
Proof. solve_decision. Defined.
#[export] Instance PollEvent_eq_dec : EqDecision PollEvent.
Proof. solve_decision. Defined.
#[export] Instance label_eq_dec : EqDecision label.
Proof. solve_decision. Defined.

Inductive sact :=
| SClient (a : ConnTheorems.act)
| SRun (acts : list action)
| SPort (a : action)
| SWait
| SPost (pos : nat) (ok : bool) (written : list byte) (bytes error : Z).

Section Exec.
Context `{SizeT} `{PQ : PriorityQueue Q}.
Context (codec : option decode_fn) (tcp : TcpOptions) (local_address : option str) (self : conn_ref).
Context (FormatErrorMessage : Z -> string) (inet_pton : Z -> str -> option (list byte)).
#[local] Abbreviation system := (@system Q).

Definition sexec (d : bool) (a : sact) (x : system) : option system :=
  match a with
  | SClient a => c' ← exec_client a (connection x); Some (System c' (completion_port x) (events x))
  | SRun acts =>
      if d && negb (bool_decide (in_order self (connection x))) || negb (forallb submission acts)
      then None
      else
        let c' := (WinConnection.drain_round true codec tcp local_address self FormatErrorMessage inet_pton (connection x)).2 in
        '(es, p') ← port_run acts (completion_port x);
        if decide (es = LStart <$> drop (length (win_requests (connection x))) (win_requests c'))
        then Some (System c' p' (events x)) else None
  | SPort a =>
      p' ← act a (completion_port x);
      if decide (labels a (completion_port x) = []) then Some (System (connection x) p' (events x)) else None
  | SWait =>
      match events x with
      | [] => Some (System (connection x) (Wait (completion_port x)).2 (Wait (completion_port x)).1.2)
      | _ => None
      end
  | SPost pos ok written bytes error =>
      match events x, win_requests (connection x) !! pos with
      | ev :: rest, Some req =>
          if result_ok req ok written bytes && bool_decide (ev = to_event (write_buffer written req) ok bytes error) then
            let l := take pos (win_requests (connection x)) ++ drop (S pos) (win_requests (connection x)) in
            Some (System (complete_request self req ok written bytes error ((connection x) <| win_requests := l |>)).2
                         (completion_port x) rest)
          else None
      | _, _ => None
      end
  end.

Fixpoint sexec_all (d : bool) (acts : list sact) (x : system) : option system :=
  match acts with [] => Some x | a :: acts' => x' ← sexec d a x; sexec_all d acts' x' end.

Lemma sexec_sound d a x y :
  sexec d a x = Some y -> sys_step codec tcp local_address self FormatErrorMessage inet_pton d x y.
Proof.
  destruct a as [a | acts | a | | pos ok w b e]; cbn; intros E.
  - destruct (exec_client a (connection x)) as [c' |] eqn:Ec; [| done]. injection E as <-. apply sys_client. by eapply exec_client_sound.
  - destruct (d && _) eqn:E1; [done |]. destruct (forallb submission acts) eqn:E3; [| done]. cbn in E. destruct (port_run acts _) as [[es p'] |] eqn:E4; [| done]. cbn in E.
    destruct (decide _) as [-> |]; [| done]. injection E as <-. eapply sys_run; [| done | done].
    intros ->. by apply negb_false_iff, bool_decide_eq_true in E1.
  - destruct (act a _) as [p' |] eqn:Ea; [| done]. cbn in E. destruct (decide _); [| done]. injection E as <-. by eapply sys_port.
  - destruct (events x) eqn:Ee; [| done]. injection E as <-. by apply sys_wait.
  - destruct (events x) as [| ev rest] eqn:Ee; [done |]. destruct (_ !! pos) as [req |] eqn:Er; [| done].
    destruct (result_ok req ok w b) eqn:Ew; [| done]. destruct (bool_decide_reflect (ev = to_event (write_buffer w req) ok b e)) as [Eev |]; [| done].
    injection E as <-. eapply sys_post; [done | | done | exact Eev]. by rewrite take_drop_middle.
Qed.

Lemma sexec_reachable d acts T (q : Q) p x :
  sexec_all d acts (System (conn_init T q p) port_new []) = Some x ->
  sys_reachable codec tcp local_address self FormatErrorMessage inet_pton d T q p x.
Proof.
  unfold sys_reachable. generalize (System (conn_init T q p) port_new []). induction acts as [| a acts IH]; cbn; intros x0 E.
  - injection E as ->. reflexivity.
  - destruct (sexec d a x0) as [x1 |] eqn:Ea; [| done]. eapply rtc_l; [by eapply sexec_sound | by apply IH].
Qed.

(** ** Theorem *)

Lemma sys_reachable_ok d T (q : Q) p x :
  sys_reachable codec tcp local_address self FormatErrorMessage inet_pton d T q p x ->
  coupled x /\ win_reachable codec tcp local_address self FormatErrorMessage inet_pton d T q p (connection x).
Proof.
  intros Hx. unfold sys_reachable in Hx. pattern x. refine (rtc_ind_r _ _ _ _ _ Hx); clear x Hx.
  - split; [| apply rtc_refl]. split; cbn; [apply rtc_refl | | constructor]. exists [], []. split_and!; [apply simulates_new | constructor | done].
  - intros x y _ Hxy [HC HW]. split; [by eapply coupled_step |]. unfold win_reachable in *.
    destruct Hxy as [c' Hc | acts p' Hord _ c' _ | a p' _ _ | _ | ev rest l1 req l2 ok w b e _ Ew Hres _]; cbn; try done;
      (eapply rtc_r; [exact HW |]); [by apply win_client | by apply win_run | by apply win_complete].
Qed.

(** C13: The connection on Windows and the completion port work together as the model of the
    connection alone assumes. However tasks, API calls, the kernel and the poll thread
    interleave ([d = false] are all runs), the connection in the composed system is in a state of
    [win_reachable]; and if in the run no [Disconnect] overtakes an attempt that is still being
    resolved and no id is given out again ([d = true]), in one of those states for which the
    theorems about the connection on Windows hold. The requests it counts as under way are
    exactly those that the port holds, in the kernel or completed, and those
    whose events the poll thread has taken and not posted; and the poll thread can always
    post its next event. *)
Theorem win_system_refines (d : bool) (T : ConnectionTable) (q : Q) (p : Poller) (x : system) :
  sys_reachable codec tcp local_address self FormatErrorMessage inet_pton d T q p x ->
  win_reachable codec tcp local_address self FormatErrorMessage inet_pton d T q p (connection x) /\
  (exists pool taken, simulates (completion_port x) pool /\ Forall2 reported taken (events x) /\
     win_requests (connection x) ≡ₚ taken ++ pool) /\
  (forall ev rest, events x = ev :: rest ->
     exists y, sys_step codec tcp local_address self FormatErrorMessage inet_pton d x y /\ events y = rest).
Proof.
  intros Hx. destruct (sys_reachable_ok d T q p x Hx) as [HC HW]. split; [done |]. split; [apply HC |].
  intros ev rest E. destruct (coupled_post x ev rest HC E) as (l1 & req & l2 & ok & w & b & e & Ew & Hres & Eev).
  eexists. split; [by eapply sys_post | done].
Qed.

End Exec.

(** ** A session over the port *)

Module WinSystemDemo.
Import ConnTheorems.Demo.

(** Connect; in [x] the poll thread has taken the completion of the connect request, and the
    connection has not seen it. *)
Definition acts : list sact :=
  [SPort (AInit true); SClient ConnTheorems.ABegin; SClient (ConnTheorems.AEnd resolved);
   SClient (ConnTheorems.AEnv WinDemo.open_calls []); SRun [AConnect id true true; ACall 0 true];
   SPort (AComplete 0 true [] 0 0); SWait].

Definition run : option (@system sorted_queue) := sexec_all codec tcp None 0 strerror inet_pton true acts (System init port_new []).
Definition x : @system sorted_queue := default (System init port_new []) run.

(** One event has been taken, of the one request that is under way. *)
Definition as_expected (o : option (@system sorted_queue)) : bool :=
  match o with
  | Some y => bool_decide (length (events y) = 1%nat) && bool_decide (length (win_requests (connection y)) = 1%nat)
  | None => false
  end.

Lemma run_as_expected : as_expected run = true.
Proof. vm_compute. reflexivity. Qed.

Lemma expected_run (P : @system sorted_queue -> Prop) o :
  (forall y, o = Some y -> P y) -> as_expected o = true ->
  P (default (System init port_new []) o) /\ length (events (default (System init port_new []) o)) = 1%nat.
Proof.
  intros HP. destruct o as [y |]; [| done]. intros [E%bool_decide_eq_true _]%andb_true_iff.
  split; [by apply HP | exact E].
Qed.

Lemma sys_reached : sys_reachable codec tcp None 0 strerror inet_pton true ConnectionTable_new q p x /\ length (events x) = 1%nat.
Proof.
  refine (expected_run (sys_reachable codec tcp None 0 strerror inet_pton true ConnectionTable_new q p) run _ run_as_expected).
  intros y. apply (sexec_reachable codec tcp None 0 strerror inet_pton true acts).
Qed.
End WinSystemDemo.

Lemma win_system_refines_witness :
  win_reachable Demo.codec Demo.tcp None 0 Demo.strerror Demo.inet_pton true ConnectionTable_new Demo.q Demo.p (connection WinSystemDemo.x) /\
  exists y, sys_step Demo.codec Demo.tcp None 0 Demo.strerror Demo.inet_pton true WinSystemDemo.x y /\ events y = [].
Proof.
  destruct WinSystemDemo.sys_reached as [Hr Hl].
  destruct (win_system_refines Demo.codec Demo.tcp None 0 Demo.strerror Demo.inet_pton true ConnectionTable_new Demo.q Demo.p WinSystemDemo.x Hr)
    as (H1 & _ & H3). split; [exact H1 |].
  destruct (events WinSystemDemo.x) as [| ev [| ? ?]]; [discriminate Hl | | discriminate Hl]. exact (H3 ev [] eq_refl).
Defined.
