(* ===== verification/ConnMetrics.v ===== *)
(** * The connection: its integer members

    The counters that [GetMetrics] reports are kept in machine words; [typed] relates them to
    what the connection received and sent since it was created, over all its sessions: on
    POSIX that is what [recv] and [send] transferred, on Windows what the completions it
    handled reported, which is at most what the kernel transferred. It
    is preserved by everything a connection does, on both platforms. *)

From S2P Require Import Prelude Codec SliceBuffer ConnTable Timer Poller Iocp Address WinConnection Connection ConnInv ConnProofs ConnTheorems ConnProgress WinProofs WinInv WinIo WinTheorems.

(** ** What was received and sent *)

(** The bytes [recv] brought and [send] took; on Windows, those of the completed receives and
    sends that the connection has handled. *)
Fixpoint total_received (tr : list event) : Z :=
  match tr with
  | [] => 0
  | EvRecv bytes :: tr' => total_received tr' + zlen bytes
  | _ :: tr' => total_received tr'
  end.

Fixpoint total_sent (tr : list event) : Z :=
  match tr with
  | [] => 0
  | EvSent bytes :: tr' => total_sent tr' + zlen bytes
  | _ :: tr' => total_sent tr'
  end.

(** What the kernel received and sent on Windows, for all sockets of the connection. *)
Fixpoint total_arrived (tr : list event) : Z :=
  match tr with
  | [] => 0
  | EvArrived _ bytes :: tr' => total_arrived tr' + zlen bytes
  | _ :: tr' => total_arrived tr'
  end.

Fixpoint total_taken (tr : list event) : Z :=
  match tr with
  | [] => 0
  | EvTaken _ bytes :: tr' => total_taken tr' + zlen bytes
  | _ :: tr' => total_taken tr'
  end.

(** The bytes that the completions of a kind in the task queue report. *)
Definition due_of (op : PollOperation) (t : task) : Z :=
  match t with
  | TPollEvent ev => if decide (ev_operation ev = op) then if failed_event ev then 0 else Z.max 0 (ev_bytes_transferred ev) else 0
  | _ => 0
  end.

Fixpoint due (op : PollOperation) (q : list task) : Z :=
  match q with [] => 0 | t :: q' => due_of op t + due op q' end.

Lemma due_of_nonneg op t : 0 <= due_of op t.
Proof. destruct t; cbn; repeat case_match; lia. Qed.

Lemma due_nonneg op q : 0 <= due op q.
Proof. induction q as [| t q IH]; cbn; [lia |]. pose proof (due_of_nonneg op t). lia. Qed.

Definition silent (t : task) : bool := match t with TPollEvent _ => false | _ => true end.

Lemma silent_due op t : silent t = true -> due_of op t = 0.
Proof. by destruct t. Qed.

Lemma due_snoc op q t : due op (q ++ [t]) = due op q + due_of op t.
Proof. induction q as [| t' q IH]; cbn; lia. Qed.

Lemma u64_add a n : u64 (u64 a + n) = u64 (a + n).
Proof. apply Zplus_mod_idemp_l. Qed.

(** Which platform the connection is on. *)
Class OnWindows := on_windows : bool.

Section Typed.
Context {W : OnWindows} `{SizeT} `{PQ : PriorityQueue Q}.
#[local] Abbreviation conn := (@Connection.conn Q).

Record typed (s : conn) : Prop := {
  t_fd : InvalidSocketHandle <= fd_ s;
  t_interest : 0 <= poll_interest_ s <= Z.lor kPollReadable kPollWritable;
  t_received : bytes_received_ s = u64 (total_received (trace s));
  t_sent : bytes_sent_ s = u64 (total_sent (trace s));
  t_arrived : on_windows = true -> total_received (trace s) + due kPollOpRecv (task_queue_ s) <= total_arrived (trace s);
  t_taken : on_windows = true -> total_sent (trace s) + due kPollOpSend (task_queue_ s) <= total_taken (trace s)
}.

Definition Typed {A} (m : @M Q A) : Prop := forall s, typed s -> wp m (fun _ s' => typed s') s.

Lemma Typed_bind {A B} (m : M A) (k : A -> M B) : Typed m -> (forall a, Typed (k a)) -> Typed (m ≫= k).
Proof. intros Hm Hk s Hs. apply wp_bind. eapply wp_mono; [| by apply Hm]. intros a s' Hc. by apply Hk. Qed.

Lemma Typed_ret {A} (a : A) : Typed (mret a).
Proof. by intros s Hs. Qed.

Lemma Typed_get : Typed get.
Proof. by intros s Hs. Qed.

Lemma Typed_modify f : (forall s, typed s -> typed (f s)) -> Typed (modify f).
Proof. intros Hf s Hs. by apply Hf. Qed.

Lemma Typed_wp {A} (m : M A) s : Typed m -> typed s -> wp m (fun _ s' => typed s') s.
Proof. auto. Qed.

(** After a change that is seen to be right where it is made. *)
Lemma Typed_then {A} f (m : M A) s : typed (f s) -> Typed m -> wp (modify f;; m) (fun _ s' => typed s') s.
Proof. intros Hs Hm. by apply Hm. Qed.

Lemma Typed_when b m : Typed m -> Typed (when b m).
Proof. destruct b; [done | intros _; apply Typed_ret]. Qed.

Lemma Typed_sys_next : Typed sys_next.
Proof. intros s []. unfold wp, sys_next. by destruct (os s). Qed.

Lemma Typed_next_script : Typed next_script.
Proof. intros s []. unfold wp, next_script. by destruct (script s). Qed.
End Typed.

Create HintDb typed.
#[export] Hint Extern 0 (silent _ = true) => reflexivity : typed.
#[export] Hint Resolve Typed_ret Typed_get Typed_sys_next Typed_next_script : typed.

(** A change of other members, or of one of these to a value in its range. *)
Ltac typed_member := let H := fresh in intros ? H; destruct H; split; cbn; done || (unfold InvalidSocketHandle in *; lia) || (cbv; intuition discriminate).

Ltac typed := repeat first
  [ solve [auto with typed nocore]
  | match goal with
    | |- forall _, _ => intros ?
    | |- Typed (when _ _) => apply Typed_when
    | |- Typed (_ ≫= _) => apply Typed_bind
    | |- Typed (modify _) => apply Typed_modify; typed_member
    | |- Typed (emit _) => apply Typed_modify; typed_member
    | |- Typed (match ?x with _ => _ end) => destruct x
    end ].

(** ** The common code *)

Section Common.
Context {W : OnWindows} `{SizeT} `{PQ : PriorityQueue Q}.
Context (codec : option decode_fn) (tcp : TcpOptions) (self : conn_ref) (FormatErrorMessage : Z -> string).
#[local] Abbreviation conn := (@Connection.conn Q).
#[local] Abbreviation F := FormatErrorMessage.

Lemma Typed_Post t : silent t = true -> @Typed _ Q _ (Post t).
Proof.
  intros Ht. unfold Post. apply Typed_bind; [typed |]. intros s0. apply Typed_when, Typed_modify. intros s [].
  split; cbn; try done; intros Hw; rewrite due_snoc, silent_due, Z.add_0_r by done; auto.
Qed.

Lemma Typed_DrainTaskQueue : @Typed _ Q _ DrainTaskQueue.
Proof.
  apply Typed_modify. intros s []. pose proof (due_nonneg kPollOpRecv (task_queue_ s)). pose proof (due_nonneg kPollOpSend (task_queue_ s)).
  split; cbn; try done; intros Hw; [specialize (t_arrived0 Hw) | specialize (t_taken0 Hw)]; lia.
Qed.
#[local] Hint Resolve Typed_Post Typed_DrainTaskQueue : typed.

Lemma Typed_Connect_begin : @Typed _ Q _ Connect_begin.
Proof. unfold Connect_begin. typed. Qed.

Lemma Typed_Connect_end r : @Typed _ Q _ (Connect_end r).
Proof. unfold Connect_end. typed. Qed.
#[local] Hint Resolve Typed_Connect_begin Typed_Connect_end : typed.

Lemma Typed_StartClose_with cb reason desc : (forall c, Typed (cb c)) -> @Typed _ Q _ (StartClose_with true cb reason desc).
Proof. intros Hcb. unfold StartClose_with, FinishClose_with, PlatformCloseSocket, ResetAfterClose, PlatformResetIoState. typed. Qed.

Lemma Typed_run_apis calls : @Typed _ Q _ (run_apis true calls).
Proof.
  induction calls as [| c calls IH]; [apply Typed_ret |]. apply Typed_bind; [| done].
  destruct c; cbn [run_api]; unfold Connect, Disconnect, SendBuffer, IsConnected, CloseFromOwner_draining; typed.
  apply Typed_StartClose_with. typed.
Qed.
#[local] Hint Resolve Typed_run_apis : typed.

Lemma Typed_run_callback c : @Typed _ Q _ (run_callback true c).
Proof. unfold run_callback. typed. Qed.

Lemma Typed_StartClose reason desc : @Typed _ Q _ (StartClose true reason desc).
Proof. apply Typed_StartClose_with, Typed_run_callback. Qed.
#[local] Hint Resolve Typed_run_callback Typed_StartClose : typed.

Lemma Typed_parse_loop decode budget : forall data offset, @Typed _ Q _ (parse_loop true budget decode data offset).
Proof. induction budget; intros data offset; cbn [parse_loop]; unfold IsConnected; typed. Qed.
#[local] Hint Resolve Typed_parse_loop : typed.

Lemma Typed_ParseInput : @Typed _ Q _ (ParseInput true codec).
Proof.
  unfold ParseInput, parse_finish, FinishDeferredClose, ScheduleParseContinuation, recv_MoveHeader, IsConnected. typed.
Qed.

Lemma Typed_sys_call : @Typed _ Q _ sys_call.
Proof. unfold sys_call. typed. Qed.
#[local] Hint Resolve Typed_sys_call : typed.

Lemma Typed_HandleConnected m : @Typed _ Q _ m -> Typed (HandleConnected_with true m).
Proof. intros Hm. unfold HandleConnected_with. typed. Qed.

(** Opening a socket touches no member. *)
Lemma opened_typed (s s' : conn) (r : Z + string) :
  typed s ->
  (exists o tr p, s' = s <| os := o |> <| trace := tr |> <| poller := p |> /\
    match r with
    | inl fd => IsValidSocketHandle fd = true /\ tr = EvSocket fd :: trace s
    | inr _ => tr = trace s \/ exists fd, tr = EvClose fd :: EvSocket fd :: trace s
    end) ->
  typed s' /\ (if r is inl fd then IsValidSocketHandle fd = true else True).
Proof.
  intros [] (o & tr & p & -> & Hr). destruct r as [fd | error]; [destruct Hr as [Hv ->] | destruct Hr as [-> | [fd ->]]]; by split.
Qed.

End Common.

#[export] Hint Resolve Typed_Post Typed_DrainTaskQueue Typed_Connect_begin Typed_Connect_end Typed_run_callback Typed_StartClose Typed_ParseInput Typed_sys_call
  Typed_HandleConnected : typed.

(** ** Platforms *)

(** What the platform has to keep; completed transfers are handled when [fits] holds. *)
Class PlatformTyped {W : OnWindows} `{SizeT} `{PQ : PriorityQueue Q} (P : @Platform Q) (fits : PollEvent -> @conn Q -> Prop) : Prop := {
  open_socket_typed addr s : typed s ->
    wp (open_socket P addr) (fun r s' => typed s' /\ (if r is inl fd then IsValidSocketHandle fd = true else True)) s;
  start_connect_typed addr : Typed (start_connect P addr);
  finish_connect_typed : Typed (finish_connect P);
  after_connected_typed : Typed (after_connected P);
  handle_readable_typed : Typed (handle_readable P);
  handle_writable_typed : Typed (handle_writable P);
  start_send_typed : Typed (start_send P);
  connect_completion_typed ev : Typed (connect_completion P ev);
  recv_completion_typed ev s : typed s -> fits ev s -> ev_operation ev = kPollOpRecv -> wp (recv_completion P ev) (fun _ s' => typed s') s;
  send_completion_typed ev s : typed s -> fits ev s -> ev_operation ev = kPollOpSend -> wp (send_completion P ev) (fun _ s' => typed s') s
}.

Section Tasks.
Context {W : OnWindows} `{SizeT} `{PQ : PriorityQueue Q}.
Context (codec : option decode_fn) (tcp : TcpOptions) (self : conn_ref) (FormatErrorMessage : Z -> string).
Context (P : @Platform Q) (fits : PollEvent -> @conn Q -> Prop) `{!PlatformTyped P fits}.
#[local] Abbreviation conn := (@Connection.conn Q).
#[local] Abbreviation F := FormatErrorMessage.
#[local] Hint Extern 0 (Typed _) =>
  first [apply start_connect_typed | apply finish_connect_typed | apply after_connected_typed | apply handle_readable_typed
        | apply handle_writable_typed | apply start_send_typed | apply connect_completion_typed] : typed.

Lemma Typed_ConnectResolved addr : Typed (ConnectResolved_on true tcp self P addr).
Proof.
  intros s Hs. unfold ConnectResolved_on. apply wp_bind. eapply wp_mono; [| by apply open_socket_typed].
  intros [fd | error] s1 [Hs1 Hv]; [| by apply Typed_StartClose]. unfold IsValidSocketHandle in Hv.
  apply Typed_then; [destruct Hs1; split; cbn; unfold InvalidSocketHandle; lia || done |].
  unfold register_self. typed.
Qed.

Lemma Typed_HandlePollEvent ev (s : conn) :
  typed s -> (ev_id ev = id_ s -> ev_operation ev = kPollOpRecv \/ ev_operation ev = kPollOpSend -> fits ev s) ->
  wp (HandlePollEvent_on true F P ev) (fun _ s' => typed s') s.
Proof.
  intros Hs Hf. unfold HandlePollEvent_on. wp_simpl. destruct (bool_decide _) eqn:Eid; cbn [negb]; wp_simpl; [| done].
  apply bool_decide_eq_true in Eid. destruct (ev_operation ev) eqn:Eop; [| by apply connect_completion_typed | apply recv_completion_typed; auto
    | apply send_completion_typed; auto].
  apply Typed_wp; [unfold IsConnecting, IsConnected; typed | done].
Qed.

Lemma Typed_drain_round (s : conn) :
  typed s ->
  (forall ev q, owner_closing_ s = false -> task_queue_ s = TPollEvent ev :: q -> ev_id ev = id_ s ->
     ev_operation ev = kPollOpRecv \/ ev_operation ev = kPollOpSend -> fits ev (s <| task_queue_ := q |>)) ->
  wp (drain_round_on true codec tcp self F P) (fun _ s' => typed s') s.
Proof.
  intros Hs Hf. unfold drain_round_on. wp_simpl. destruct (owner_closing_ s); wp_simpl.
  { eapply wp_mono; [| by apply Typed_DrainTaskQueue]. intros u s1 ?. wp_simpl.
    eapply wp_mono; [| by apply Typed_StartClose]. intros u' s' ?. by wp_simpl. }
  destruct (task_queue_ s) as [| t q] eqn:Hq; wp_simpl; [done |].
  assert (Hs' : typed (s <| task_queue_ := q |>)).
  { destruct Hs as [? ? ? ? Ha Ht]. rewrite Hq in Ha, Ht. cbn in Ha, Ht.
    pose proof (due_of_nonneg kPollOpRecv t). pose proof (due_of_nonneg kPollOpSend t).
    split; cbn; try done; intros Hw; [specialize (Ha Hw) | specialize (Ht Hw)]; lia. }
  enough (Hr : wp (run_task_on true codec tcp self F P t) (fun _ s' => typed s') (s <| task_queue_ := q |>)).
  { eapply wp_mono; [| exact Hr]. intros u s' ?. by wp_simpl. }
  destruct t as [addr | reason desc | msg | ev | ev |]; cbn [run_task_on]; unfold IsConnected, UpdateWriteInterest_with, HandleTimerEvent.
  - by apply Typed_ConnectResolved.
  - by apply Typed_StartClose.
  - apply Typed_wp; [typed | done].
  - apply Typed_HandlePollEvent; auto.
  - apply Typed_wp; [typed | done].
  - apply Typed_wp; [typed | done].
Qed.

(** What happens around a connection does not touch the members. *)
Lemma typed_client_step (s s' : conn) : client_step self s s' -> typed s -> typed s'.
Proof.
  intros Hstep Hs. destruct Hstep as [s' E | n r b s' _ E | | data | | ev _ | T' _ _ | os' script'].
  - pose proof (Typed_Connect_begin s Hs) as Hw. unfold wp in Hw. rewrite E in Hw. by destruct Hw.
  - pose proof (Typed_Connect_end r (s <| resolving := n |>)) as Hw. unfold wp in Hw. rewrite E in Hw. apply Hw. by destruct Hs.
  - by apply (Typed_Post (TStartClose CloseReason.kUser "") eq_refl).
  - assert (Hw : @Typed _ Q _ (SendBuffer data)) by (unfold SendBuffer, IsConnected; typed). by apply Hw.
  - by destruct Hs.
  - by apply Typed_Post.
  - by destruct Hs.
  - by destruct Hs.
Qed.

End Tasks.

(** ** POSIX *)

Section Posix.
#[local] Instance on_posix : OnWindows := false.
Context `{SizeT} `{PQ : PriorityQueue Q}.
Context (codec : option decode_fn) (tcp : TcpOptions) (local_address : option str).
Context (FormatErrorMessage : Z -> string) (inet_pton : Z -> str -> option (list byte)).
#[local] Abbreviation conn := (@Connection.conn Q).
#[local] Abbreviation F := FormatErrorMessage.

Lemma Typed_PlatformStartSend : @Typed _ Q _ (PlatformStartSend F).
Proof.
  unfold PlatformStartSend, Poller_Modify, epoll_ctl_set. apply Typed_bind; [typed |]. intros s.
  destruct (bool_decide (send_buffer_ s = [])); cbn [Z.lor kPollReadable kPollWritable]; typed.
Qed.
#[local] Hint Resolve Typed_PlatformStartSend : typed.

Lemma Typed_UpdateWriteInterest : @Typed _ Q _ (UpdateWriteInterest true F).
Proof. unfold UpdateWriteInterest, UpdateWriteInterest_with. typed. Qed.
#[local] Hint Resolve Typed_UpdateWriteInterest : typed.

Lemma Typed_writable_loop fuel : forall bytes, @Typed _ Q _ (writable_loop true F fuel bytes).
Proof.
  induction fuel as [| fuel IH]; intros bytes; cbn [writable_loop]; [typed |].
  destruct (negb _); [typed |]. intros s Hs. wp_simpl. destruct (send_buffer_ s) as [| front buf] eqn:Eb; [by apply Typed_UpdateWriteInterest |].
  unfold sys_send. wp_simpl. eapply wp_mono; [| by apply Typed_sys_call]. intros [rc errno] s1 Hs1.
  destruct (rc <? 0) eqn:Hrc; wp_simpl.
  { change (-1 <? 0) with true. cbv iota. apply Typed_wp; [typed | done]. }
  set (n := Z.min rc (zlen front)). pose proof (zlen_nonneg front). assert (Hn : 0 <= n <= zlen front) by lia.
  assert (Hl : zlen (ztake n front) = n) by (by apply zlen_ztake).
  destruct (Z.ltb_spec n 0); [lia |]. destruct (Z.eqb_spec n 0).
  - apply Typed_wp; [typed |]. destruct Hs1. split; cbn; try done. by rewrite Hl, e, Z.add_0_r.
  - apply Typed_then; [| auto]. destruct Hs1 as [? ? ? Ht]. split; cbn; try done. by rewrite Ht, u64_add, Hl.
Qed.

Lemma Typed_readable_loop fuel : forall bytes, @Typed _ Q _ (readable_loop F fuel bytes).
Proof.
  induction fuel as [| fuel IH]; intros bytes; cbn [readable_loop]; [typed |].
  destruct (negb _); [typed |]. intros s Hs. unfold sys_recv. wp_simpl. eapply wp_mono; [| by apply Typed_sys_next].
  intros [rc errno | [| b data]] s1 Hs1; wp_simpl; [destruct (rc <? 0); wp_simpl; [apply Typed_wp; [typed |] |] | |]; try done.
  apply Typed_then; [| auto]. destruct Hs1 as [? ? Ht ?]. split; cbn -[zlen ztake]; try done. by rewrite Ht, u64_add.
Qed.

Lemma Typed_connect_loop fuel : @Typed _ Q _ (connect_loop fuel).
Proof. induction fuel; cbn [connect_loop]; typed. Qed.
#[local] Hint Resolve Typed_writable_loop Typed_readable_loop Typed_connect_loop : typed.

#[export] Instance posix_typed : PlatformTyped (posix true codec tcp local_address F inet_pton) (fun _ _ => True).
Proof.
  split; cbn [open_socket start_connect finish_connect after_connected handle_readable handle_writable start_send
    connect_completion recv_completion send_completion posix]; intros; try (by apply Typed_ret).
  - eapply wp_mono; [| apply PlatformOpenSocket_ok]. intros r s' Hr. by eapply opened_typed.
  - unfold PlatformConnect, poller_add, Poller_Add, epoll_ctl_set. typed.
  - unfold PlatformFinishConnect. typed.
  - unfold PlatformAfterConnected, Poller_Modify, epoll_ctl_set. typed.
  - unfold PlatformHandleReadable, close_after_read, DeferCloseUntilInputDrained. typed.
  - unfold PlatformHandleWritable. typed.
  - typed.
Qed.
End Posix.

(** ** Windows *)

(** The kernel does not report more than it was given, nor more than it transferred. *)
Definition completion_fits {Q} (ev : PollEvent) (s : @conn Q) : Prop :=
  connected_ s = true -> failed_event ev = false ->
  0 <= ev_bytes_transferred ev /\
  (ev_operation ev = kPollOpSend -> ev_bytes_transferred ev <= zlen (chunks_bytes (send_buffer_ s))) /\
  (ev_operation ev = kPollOpRecv ->
     total_received (trace s) + due kPollOpRecv (task_queue_ s) + ev_bytes_transferred ev <= total_arrived (trace s)) /\
  (ev_operation ev = kPollOpSend ->
     total_sent (trace s) + due kPollOpSend (task_queue_ s) + ev_bytes_transferred ev <= total_taken (trace s)).

Section Windows.
#[local] Instance on_windows_yes : OnWindows := true.
Context `{SizeT} `{PQ : PriorityQueue Q}.
Context (codec : option decode_fn) (tcp : TcpOptions) (local_address : option str) (self : conn_ref).
Context (FormatErrorMessage : Z -> string) (inet_pton : Z -> str -> option (list byte)).
#[local] Abbreviation conn := (@Connection.conn Q).
#[local] Abbreviation F := FormatErrorMessage.

Lemma Typed_poller_usable : @Typed _ Q _ poller_usable.
Proof. unfold poller_usable. typed. Qed.
#[local] Hint Resolve Typed_poller_usable : typed.

Lemma Typed_submit ok req : @Typed _ Q _ (submit F ok req).
Proof. unfold submit. typed. Qed.
#[local] Hint Resolve Typed_submit : typed.

Lemma Typed_WinStartRecv : @Typed _ Q _ (WinConnection.PlatformStartRecv F).
Proof. unfold WinConnection.PlatformStartRecv, poller_StartRecv. typed. Qed.

Lemma Typed_WinStartSend : @Typed _ Q _ (WinConnection.PlatformStartSend F).
Proof. unfold WinConnection.PlatformStartSend, poller_StartSend. typed. Qed.
#[local] Hint Resolve Typed_WinStartRecv Typed_WinStartSend : typed.

Lemma Typed_WinAfterConnected : @Typed _ Q _ (WinConnection.PlatformAfterConnected F).
Proof. unfold WinConnection.PlatformAfterConnected, must_succeed. typed. Qed.
#[local] Hint Resolve Typed_WinAfterConnected : typed.

Lemma Typed_HandleRecvCompletion ev (s : conn) :
  typed s -> completion_fits ev s -> ev_operation ev = kPollOpRecv ->
  wp (HandleRecvCompletion true codec F ev) (fun _ s' => typed s') s.
Proof.
  intros Hs Hf Eop. unfold HandleRecvCompletion, IsConnected. wp_simpl. cbn [connected_].
  assert (Hs1 : typed (s <| recv_pending_ := false |>)) by (by destruct Hs).
  destruct (connected_ _) eqn:Hc; cbn [negb]; wp_simpl; [| done]. fold (failed_event ev).
  destruct (failed_event ev) eqn:Ef; [by apply Typed_StartClose |]. destruct (Hf Hc Ef) as (Hn & _ & Hb & _). specialize (Hb Eop).
  destruct (_ =? 0); [apply Typed_wp; [unfold HandleRecvEof, DeferCloseUntilInputDrained; typed | done] |].
  destruct (ev_data ev) as [buffer |]; [| by apply Typed_StartClose].
  destruct (Z.ltb_spec (zlen buffer) (ev_bytes_transferred ev)); [by apply Typed_StartClose |].
  wp_simpl. eapply wp_mono; [intros status s2 Hs2; apply Typed_wp; [typed | exact Hs2] | apply Typed_ParseInput].
  destruct Hs1 as [? ? Ht ? Ha Hk]. split; cbn -[zlen ztake]; try done.
  - cbn in Ht. by rewrite Ht, u64_add, zlen_ztake.
  - intros _. rewrite zlen_ztake by lia. lia.
Qed.

Lemma Typed_HandleSendCompletion ev (s : conn) :
  typed s -> completion_fits ev s -> ev_operation ev = kPollOpSend ->
  wp (HandleSendCompletion true F ev) (fun _ s' => typed s') s.
Proof.
  intros Hs Hf Eop. unfold HandleSendCompletion, IsConnected. wp_simpl. cbn [connected_].
  assert (Hs1 : typed (s <| send_pending_ := false |>)) by (by destruct Hs).
  destruct (connected_ _) eqn:Hc; cbn [negb]; wp_simpl; [| done]. fold (failed_event ev).
  destruct (failed_event ev) eqn:Ef; [by apply Typed_StartClose |]. destruct (Hf Hc Ef) as (Hn & Hle & _ & Hb). specialize (Hle Eop). specialize (Hb Eop).
  wp_simpl. destruct (0 <? _); wp_simpl; cbn [negb].
  2: { apply Typed_wp; [typed | done]. }
  unfold send_MoveHeader. wp_simpl. change (send_buffer_ (_ <| pending_bytes_ := _ |>)) with (send_buffer_ s).
  destruct (Z.ltb_spec (zlen (chunks_bytes (send_buffer_ s))) (ev_bytes_transferred ev)); [lia |]. wp_simpl. cbn [negb].
  apply Typed_wp; [typed |]. destruct Hs1 as [? ? ? Ht Ha Hk]. split; cbn -[zlen ztake chunks_bytes]; try done.
  - cbn in Ht. by rewrite Ht, u64_add, zlen_ztake.
  - intros _. rewrite zlen_ztake by lia. lia.
Qed.

#[export] Instance windows_typed :
  PlatformTyped (windows true codec tcp local_address F inet_pton) (fun ev s => completion_fits ev s).
Proof.
  split; cbn [open_socket start_connect finish_connect after_connected handle_readable handle_writable start_send
    connect_completion recv_completion send_completion windows]; intros; try (by apply Typed_ret).
  - eapply wp_mono; [| apply WinOpenSocket_spec]. intros r s' Hr. by eapply opened_typed.
  - unfold WinConnection.PlatformConnect, poller_Add, poller_StartConnect, must_succeed. typed.
  - typed.
  - typed.
  - unfold HandleConnectCompletion, WinConnection.HandleConnected. typed.
  - by apply Typed_HandleRecvCompletion.
  - by apply Typed_HandleSendCompletion.
Qed.
End Windows.

(** ** Theorem *)

Section Theorems.
Context `{SizeT} `{PQ : PriorityQueue Q}.
Context (codec : option decode_fn) (tcp : TcpOptions) (local_address : option str) (self : conn_ref).
Context (FormatErrorMessage : Z -> string) (inet_pton : Z -> str -> option (list byte)).
Context (T : ConnectionTable) (q : Q) (p : Poller) (m : gmap ConnectionId conn_ref).
Hypothesis codec_ok : forall decode, codec = Some decode -> StreamCodec decode.
Hypothesis table_ok : table_rep T m.
Hypothesis table_room : room T.

#[local] Abbreviation conn := (@Connection.conn Q).
#[local] Abbreviation PosixReachable d s :=
  (conn_reachable codec tcp local_address self FormatErrorMessage inet_pton d T q p s).
#[local] Abbreviation WinReachable s := (win_reachable codec tcp local_address self FormatErrorMessage inet_pton true T q p s).

Lemma typed_init (W : OnWindows) : @typed W Q (conn_init T q p).
Proof. split; cbn; done || lia. Qed.

Lemma typed_posix d s : PosixReachable d s -> @typed false Q s.
Proof.
  intros Hs. unfold conn_reachable in Hs. pattern s. refine (rtc_ind_r _ _ _ _ _ Hs); [apply typed_init |].
  intros s1 s2 _ [s' Hstep | ev Hv | Hov] IH; [by eapply typed_client_step | |].
  - destruct IH. unfold PostPollEvent, Post, mbind, M_bind, get, when, modify. cbn. by destruct (accepting_tasks_ s1); split.
  - apply (Typed_drain_round (W := false) codec tcp self FormatErrorMessage
      (posix true codec tcp local_address FormatErrorMessage inet_pton) (fun _ _ => True)); auto.
Qed.

(** The transfer that a task in front of the queue reports fits. *)
Lemma io_fits (s : conn) ev rest :
  @typed true Q s ->
  ConnInv.inv codec self true true s -> io s -> owner_closing_ s = false -> task_queue_ s = TPollEvent ev :: rest -> ev_id ev = id_ s ->
  ev_operation ev = kPollOpRecv \/ ev_operation ev = kPollOpSend -> completion_fits ev (s <| task_queue_ := rest |>).
Proof.
  intros Hs [HD _] HO Ho Eq Eid Eop _ Ef. specialize (HO Ho).
  assert (Hv : valid (id_ s) = true).
  { pose proof (i_tasks _ _ _ HD) as Ht. rewrite Eq in Ht. apply list.Forall_cons in Ht as [Hv _]. cbn in Hv. congruence. }
  pose proof (t_arrived _ Hs eq_refl) as Ha. pose proof (t_taken _ Hs eq_refl) as Hk. rewrite Eq in Ha, Hk. cbn in Ha, Hk. rewrite Ef in Ha, Hk.
  destruct Eop as [Eop | Eop]; [rewrite (decide_True _ _ Eop) in Ha | rewrite (decide_True _ _ Eop) in Hk]; rewrite Eop.
  - destruct (pop_recv s ev rest HO Eq Eid Eop Hv) as (_ & _ & [? | (buf & _ & Hn)] & _); [congruence |].
    split_and!; [lia | done | intros _; cbn; lia | done].
  - destruct (pop_send s ev rest HO Eq Eid Eop Hv) as (_ & _ & [? | (_ & Hn & _)]); [congruence |].
    split_and!; [lia | intros _; apply Hn | done | intros _; cbn; lia].
Qed.

(** A request that completes adds to what the kernel transferred as much as its event
    reports. *)
Lemma typed_complete (s : conn) req ok written bytes error :
  @typed true Q s -> result_ok req ok written bytes = true ->
  @typed true Q (complete_request self req ok written bytes error s).2.
Proof.
  intros Hs Hres. unfold complete_request. set (ev := to_event _ _ _ _).
  set (m1 := if ok then _ else _). set (s1 := (m1 s).2).
  assert (Hs1 : @typed true Q s1 /\
    total_received (trace s1) + due kPollOpRecv (task_queue_ s1) + due_of kPollOpRecv (TPollEvent ev) <= total_arrived (trace s1) /\
    total_sent (trace s1) + due kPollOpSend (task_queue_ s1) + due_of kPollOpSend (TPollEvent ev) <= total_taken (trace s1)).
  { pose proof (t_arrived _ Hs eq_refl) as Ha. pose proof (t_taken _ Hs eq_refl) as Hk. destruct Hs as [? ? ? ? _ _].
    unfold s1, m1, due_of, failed_event, ev, to_event. cbn [ev_operation ev_events ev_bytes_transferred write_buffer operation].
    unfold result_ok in Hres. pose proof (zlen_nonneg written). destruct ok; [destruct (operation req) |]; cbn -[zlen ztake decide] in *.
    - rewrite !decide_False by done. split; [by split | lia].
    - rewrite !decide_False by done. split; [by split | lia].
    - apply andb_true_iff in Hres as [E%Z.eqb_eq _]. rewrite decide_True, decide_False by done.
      split; [split; cbn -[zlen]; done || (intros _; lia) |].
      change (has kPollEventReadable kPollEventError) with false. cbn -[zlen]. lia.
    - apply andb_true_iff in Hres as [[_ Hb0%Z.leb_le]%andb_true_iff Hb1%Z.leb_le]. rewrite decide_False, decide_True by done.
      rewrite zlen_ztake by lia. split; [split; cbn -[zlen ztake]; done || (intros _; rewrite ?zlen_ztake by lia; lia) |].
      change (has kPollEventWritable kPollEventError) with false. cbn. lia.
    - change (has kPollEventError kPollEventError) with true. split; [by split |].
      destruct (decide (operation req = kPollOpRecv)), (decide (operation req = kPollOpSend)); cbn; lia. }
  assert (Em : (m1;; deliver self ev) s = deliver self ev s1) by (unfold s1, mbind, M_bind; by destruct (m1 s)).
  rewrite Em. clearbody s1. destruct Hs1 as (Hs1 & Ha & Hk). unfold deliver, PostPollEvent, Post, mbind, M_bind, get, when, modify, mret, M_ret. cbn.
  destruct (bool_decide _); [| done]. destruct (accepting_tasks_ s1); [| done]. destruct Hs1. split; cbn; try done; intros _; rewrite due_snoc; lia.
Qed.

Lemma typed_win s : WinReachable s -> @typed true Q s.
Proof.
  intros Hs. unfold win_reachable in Hs. pattern s. refine (rtc_ind_r _ _ _ _ _ Hs); [apply typed_init |].
  intros s1 s2 H1 [s' Hstep | l1 req l2 ok written bytes error Ew Hres | Hord] IH; [by eapply typed_client_step | |].
  - apply typed_complete; [by destruct IH | done].
  - destruct (win_reachable_ok codec codec_ok _ _ _ _ _ _ _ _ _ _ table_ok table_room H1) as [HI HO].
    apply (Typed_drain_round (W := true) codec tcp self FormatErrorMessage
      (windows true codec tcp local_address FormatErrorMessage inet_pton) (fun ev s => completion_fits ev s)); [done |].
    intros ev rest Ho. by apply io_fits.
Qed.

(** C25: What [GetMetrics] reports, over all sessions since the connection was created. On
    POSIX the counters are exact: the bytes that [send] took and [recv] brought, both modulo
    2^64. On Windows (if no [Disconnect] overtakes an attempt and no id is given out again) they
    count the sends and receives whose completion the connection handled while the session was
    up: together with the completions that wait in the task queue that is never more than
    the kernel sent and received (a completion that comes after the session ended is dropped
    and not counted). On both, [pending_bytes] is the length of the send buffer as a [size_t] and
    [connected] agrees with the state; the descriptor is valid or -1, and the interest in the
    poller is a combination of the two flags. *)
Theorem connection_metrics (d : bool) (s : conn) :
  PosixReachable d s \/ WinReachable s ->
  let metrics := (GetMetrics s).1 in
  metrics = {| m_connected := bool_decide (state_ s = kConnected); m_bytes_sent := u64 (total_sent (trace s));
               m_bytes_received := u64 (total_received (trace s));
               m_pending_bytes := usize (zlen (chunks_bytes (send_buffer_ s))) |} /\
  0 <= m_bytes_sent metrics < 2 ^ 64 /\ 0 <= m_bytes_received metrics < 2 ^ 64 /\ 0 <= m_pending_bytes metrics <= SIZE_MAX /\
  (WinReachable s ->
     total_sent (trace s) + due kPollOpSend (task_queue_ s) <= total_taken (trace s) /\
     total_received (trace s) + due kPollOpRecv (task_queue_ s) <= total_arrived (trace s)) /\
  InvalidSocketHandle <= fd_ s /\ 0 <= poll_interest_ s <= Z.lor kPollReadable kPollWritable.
Proof.
  intros Hs.
  assert (Ht : exists W, @typed W Q s) by (destruct Hs as [Hs | Hs]; [exists false; by eapply typed_posix | exists true; by apply typed_win]).
  assert (Hi : connected_ s = bool_decide (state_ s = kConnected) /\ pending_bytes_ s = usize (zlen (chunks_bytes (send_buffer_ s)))).
  { destruct Hs as [Hs | Hs].
    - destruct (Reachable_inv codec tcp local_address self FormatErrorMessage inet_pton T q p m codec_ok table_ok table_room d s Hs) as [HI _].
      by destruct HI.
    - destruct (win_reachable_ok codec codec_ok _ _ _ _ _ _ _ _ _ _ table_ok table_room Hs) as [[HI _] _]. by destruct HI. }
  destruct Ht as [W [Hf Hp Hr Ht _ _]], Hi as [Hc Hb]. change (GetMetrics s).1 with {| m_connected := connected_ s; m_bytes_sent := bytes_sent_ s;
    m_bytes_received := bytes_received_ s; m_pending_bytes := pending_bytes_ s |}.
  cbn [m_bytes_sent m_bytes_received m_pending_bytes]. rewrite Hr, Ht, Hc, Hb.
  split; [done |]. split; [by apply wrap_range |]. split; [by apply wrap_range |]. split; [| split; [| done]].
  - pose proof (wrap_range size_bits (zlen (chunks_bytes (send_buffer_ s)))). pose proof size_bits_pos. unfold usize, SIZE_MAX. lia.
  - intros Hw%typed_win. destruct Hw. auto.
Qed.

End Theorems.

Lemma connection_metrics_witness :
  m_bytes_sent (GetMetrics Demo.s).1 = u64 (total_sent (trace Demo.s)) /\ total_sent (trace Demo.s) = 2 /\
  m_bytes_received (GetMetrics WinDemo.s).1 = u64 (total_received (trace WinDemo.s)) /\
  total_received (trace WinDemo.s) + due kPollOpRecv (task_queue_ WinDemo.s) <= total_arrived (trace WinDemo.s).
Proof.
  destruct (connection_metrics Demo.codec Demo.tcp None 0 Demo.strerror Demo.inet_pton ConnectionTable_new
    Demo.q Demo.p ∅ Demo.codec_ok table_rep_empty Demo.room_new true Demo.s (or_introl Demo.reachable)) as [E1 _].
  destruct (connection_metrics Demo.codec Demo.tcp None 0 Demo.strerror Demo.inet_pton ConnectionTable_new
    Demo.q Demo.p ∅ Demo.codec_ok table_rep_empty Demo.room_new true WinDemo.s (or_intror WinDemo.win_reached))
    as (E2 & _ & _ & _ & Hk & _).
  rewrite E1, E2. split; [reflexivity |]. split; [vm_compute; reflexivity |]. split; [reflexivity |].
  apply Hk. exact WinDemo.win_reached.
Defined.
