(* ===== verification/Executor.v ===== *)
(** * Running the tasks of a connection

    [Post], [ScheduleDrain], [RescheduleDrain], [Drain], [PopAvailableTaskNode],
    [DrainTaskQueue], [NotifyIdle] and [CloseFromOwner] of
    [src/net/client_connection.cc]: how threads that post tasks, the worker that runs
    them and the owner that releases the connection synchronize through
    [draining_], [queued_tasks_], [active_posts_], [accepting_tasks_] and
    [owner_closing_].

    Every access to one of these is one step, and the steps of any number of threads
    interleave freely. With [tso = false] memory is sequentially consistent; with
    [tso = true] a thread's [store] waits in its own buffer until it is flushed, as on
    x86, while a read-modify-write or a mutex flushes it: what the [release] stores of
    the source allow.

    A task is a name. [task_queue_] is in the order of the exchanges of [push]; a pop
    reports an empty queue when there is none, or when the first push has not linked its
    node yet ([Mpscq.mpscq_empty_sound]). A job in the queue of a worker is a thread at
    [DStart]. *)

From S2P Require Import Prelude.

Abbreviation task := nat.
Abbreviation tid := nat.

(** Who called [NotifyIdle]: the end of [Post] (which still has to schedule if it won
    [draining_]), [Drain] with an empty queue, or [Drain] at its end. *)
Inductive notifier := NPost (won : bool) | NDrain (k : nat) | NFinal.

(** Who called [CloseFromOwner] or [DrainTaskQueue]: a handler inside [Drain], after
    [k] tasks, or another thread. *)
Inductive caller := Inside (k : nat) | Outside.

Inductive pc :=
(* Post *)
| PAdd (t : task)          (* active_posts_++ *)
| PCheck (t : task)        (* accepting_tasks_ *)
| PCount (t : task)        (* queued_tasks_++ *)
| PPush (t : task)         (* push: exchange *)
| PLink                    (* push: link *)
| PCas                     (* draining_: false -> true *)
| PSub (won : bool)        (* active_posts_-- *)
| PSchedule (won : bool)
(* NotifyIdle *)
| NLoad (n : notifier)     (* owner_closing_ *)
| NLock (n : notifier)     (* under idle_mtx_: active_posts_, notify_all *)
(* Drain, k tasks processed *)
| DStart
| DLoop (k : nat)          (* owner_closing_ *)
| DPop (k : nat)
| DCount (t : task) (k : nat) (* queued_tasks_-- *)
| DCall (t : task) (k : nat)  (* task() *)
| DRunning (k : nat)       (* inside the task *)
| DYield (k : nat)         (* owner_closing_, then reschedule *)
| DRelease (k : nat)       (* draining_ = false *)
| DCheckOwner (k : nat)
| DCheckQueued (k : nat)
| DCheckActive (k : nat)
| DCas (k : nat)
| DFinal                   (* draining_ = false, the owner is closing *)
(* DrainTaskQueue, then StartClose *)
| QPop (c : caller)
| QCount (c : caller)      (* queued_tasks_-- *)
| QActive (c : caller)
| QQueued (c : caller)
| QClose (c : caller)
(* CloseFromOwner *)
| OClosing (c : caller)    (* owner_closing_ = true *)
| OAccepting (c : caller)  (* accepting_tasks_ = false *)
| OWait (c : caller)       (* first wait: active_posts_ == 0 *)
| OSleep (c : caller)
| OCas
| OLock                    (* second wait *)
| OWaitDraining
| OWaitQueued
| OWaitActive
| OSleep2
| Done.

(** A store that is not visible to other threads yet. *)
Inductive pending := SDraining | SClosing | SAccepting.

#[export] Instance pending_eq_dec : EqDecision pending.
Proof. solve_decision. Defined.

Record thread := { at_pc : pc; buffer : list pending }.

Inductive event := EvPush (t : task) | EvRun (t : task) | EvDrop (t : task) | EvRelease | EvReturned.

Record mem := Mem {
  task_queue_ : list (tid * task);
  queued_tasks_ : Z;
  active_posts_ : Z;
  draining_ : bool;
  accepting_tasks_ : bool;
  owner_closing_ : bool;
  idle_mtx_ : bool;
  log : list event
}.

#[export] Instance eta_mem : Eta mem := fun m => Mem (task_queue_ m) (queued_tasks_ m) (active_posts_ m)
  (draining_ m) (accepting_tasks_ m) (owner_closing_ m) (idle_mtx_ m) (log m).
#[export] Instance set_task_queue_ : Setter task_queue_ := ltac:(solve_setter).
#[export] Instance set_queued_tasks_ : Setter queued_tasks_ := ltac:(solve_setter).
#[export] Instance set_active_posts_ : Setter active_posts_ := ltac:(solve_setter).
#[export] Instance set_draining_ : Setter draining_ := ltac:(solve_setter).
#[export] Instance set_accepting_tasks_ : Setter accepting_tasks_ := ltac:(solve_setter).
#[export] Instance set_owner_closing_ : Setter owner_closing_ := ltac:(solve_setter).
#[export] Instance set_idle_mtx_ : Setter idle_mtx_ := ltac:(solve_setter).
#[export] Instance set_log : Setter log := ltac:(solve_setter).

Record sys := { memory : mem; threads : list thread }.

Definition sys_init : sys :=
  {| memory := {| task_queue_ := []; queued_tasks_ := 0; active_posts_ := 0; draining_ := false;
                  accepting_tasks_ := true; owner_closing_ := false; idle_mtx_ := false; log := [] |};
     threads := [] |}.

Definition kDrainTaskBudget : nat := 64.

Definition commit (m : mem) (p : pending) : mem :=
  match p with
  | SDraining => m <| draining_ := false |>
  | SClosing => m <| owner_closing_ := true |>
  | SAccepting => m <| accepting_tasks_ := false |>
  end.

(** The outcome of a step of a thread: memory, program counter, store buffer, a thread
    it starts, and whether it calls [notify_all]. *)
Record outcome := { o_mem : mem; o_pc : pc; o_buffer : list pending; o_spawn : list pc; o_notify : bool }.

Definition goto (m : mem) (b : list pending) (p : pc) : option outcome :=
  Some {| o_mem := m; o_pc := p; o_buffer := b; o_spawn := []; o_notify := false |}.

(** A read-modify-write, or a mutex: the thread's stores come first. *)
Definition rmw (b : list pending) (o : option outcome) : option outcome :=
  match b with [] => o | _ :: _ => None end.

Definition store (tso : bool) (m : mem) (b : list pending) (p : pending) (next : pc) : option outcome :=
  if tso then goto m (b ++ [p]) next else goto (commit m p) b next.

(** How a running task goes on: it returns, having requested to yield or not, or the
    handler it calls releases the connection. *)
Inductive choice := Return (yield : bool) | Release.

(** The node at the front is not linked yet. *)
Definition linking (ths : list thread) (i : tid) : bool :=
  match ths !! i with
  | Some {| at_pc := PLink |} => true
  | _ => false
  end.

(** [PopAvailableTaskNode]. *)
Definition pop (m : mem) (ths : list thread) : option task * mem :=
  match task_queue_ m with
  | [] => (None, m)
  | (i, t) :: q => if linking ths i then (None, m) else (Some t, m <| task_queue_ := q |>)
  end.

(** What [NotifyIdle] returns to. *)
Definition notified (n : notifier) : pc :=
  match n with NPost won => PSchedule won | NDrain k => DCheckOwner k | NFinal => Done end.

(** One step of thread [i]. *)
Definition thread_step (tso : bool) (ch : choice) (m : mem) (ths : list thread) (i : tid) (p : pc)
    (b : list pending) : option outcome :=
  match p with
  | PAdd t => rmw b (goto (m <| active_posts_ := active_posts_ m + 1 |>) b (PCheck t))
  | PCheck t => goto m b (if accepting_tasks_ m then PCount t else PSub false)
  | PCount t => rmw b (goto (m <| queued_tasks_ := queued_tasks_ m + 1 |>) b (PPush t))
  | PPush t => rmw b (goto (m <| task_queue_ := task_queue_ m ++ [(i, t)] |> <| log := log m ++ [EvPush t] |>) b PLink)
  | PLink => goto m b PCas
  | PCas => rmw b (if draining_ m then goto m b (PSub false)
                   else goto (m <| draining_ := true |>) b (PSub true))
  | PSub won => rmw b (goto (m <| active_posts_ := active_posts_ m - 1 |>) b
                        (if active_posts_ m =? 1 then NLoad (NPost won) else PSchedule won))
  | PSchedule won => goto m b (if won then DStart else Done)
  | NLoad n => goto m b (if owner_closing_ m then NLock n else notified n)
  | NLock n =>
      rmw b (if idle_mtx_ m then None
             else Some {| o_mem := m; o_pc := notified n; o_buffer := b; o_spawn := [];
                          o_notify := active_posts_ m =? 0 |})
  | DStart => goto m b (DLoop 0)
  | DLoop k => goto m b (if owner_closing_ m then QPop Outside else DPop k)
  | DPop k =>
      match pop m ths with
      | (Some t, m') => goto m' b (DCount t k)
      | (None, _) => goto m b (DRelease k)
      end
  | DCount t k => rmw b (goto (m <| queued_tasks_ := queued_tasks_ m - 1 |>) b (DCall t k))
  | DCall t k => goto (m <| log := log m ++ [EvRun t] |>) b (DRunning k)
  | DRunning k =>
      match ch with
      | Return yield => goto m b (if yield || bool_decide (kDrainTaskBudget <= S k)%nat then DYield (S k) else DLoop (S k))
      | Release => goto m b (OClosing (Inside k))
      end
  | DYield k => goto m b (if owner_closing_ m then DLoop k else DStart)
  | DRelease k => store tso m b SDraining (NLoad (NDrain k))
  | DCheckOwner k => goto m b (if owner_closing_ m then DCas k else DCheckQueued k)
  | DCheckQueued k => goto m b (if queued_tasks_ m =? 0 then DCheckActive k else DCas k)
  | DCheckActive k => goto m b (if active_posts_ m =? 0 then Done else DCas k)
  | DCas k => rmw b (if draining_ m then goto m b Done else goto (m <| draining_ := true |>) b (DLoop k))
  | DFinal => store tso m b SDraining (NLoad NFinal)
  | QPop c =>
      match pop m ths with
      | (Some t, m') => goto (m' <| log := log m' ++ [EvDrop t] |>) b (QCount c)
      | (None, _) => goto m b (QActive c)
      end
  | QCount c => rmw b (goto (m <| queued_tasks_ := queued_tasks_ m - 1 |>) b (QPop c))
  | QActive c => goto m b (if active_posts_ m =? 0 then QQueued c else QPop c)
  | QQueued c => goto m b (if queued_tasks_ m =? 0 then QClose c else QPop c)
  | QClose c => goto (m <| log := log m ++ [EvRelease] |>) b
                  match c with Inside k => DRunning k | Outside => DFinal end
  | OClosing c => store tso m b SClosing (OAccepting c)
  | OAccepting c => store tso m b SAccepting (OWait c)
  | OWait c =>
      rmw b (if idle_mtx_ m then None
             else goto m b (if active_posts_ m =? 0
                            then match c with Inside _ => QPop c | Outside => OCas end
                            else OSleep c))
  | OSleep _ | OSleep2 | Done => None
  | OCas =>
      rmw b (if draining_ m then goto m b OLock
             else Some {| o_mem := m <| draining_ := true |>; o_pc := OLock; o_buffer := b;
                          o_spawn := [DStart]; o_notify := false |})
  | OLock => rmw b (if idle_mtx_ m then None else goto (m <| idle_mtx_ := true |>) b OWaitDraining)
  | OWaitDraining => if draining_ m then goto (m <| idle_mtx_ := false |>) b OSleep2 else goto m b OWaitQueued
  | OWaitQueued => if queued_tasks_ m =? 0 then goto m b OWaitActive else goto (m <| idle_mtx_ := false |>) b OSleep2
  | OWaitActive =>
      if active_posts_ m =? 0
      then goto (m <| idle_mtx_ := false |> <| log := log m ++ [EvReturned] |>) b Done
      else goto (m <| idle_mtx_ := false |>) b OSleep2
  end.

(** [notify_all] on [idle_cv_]. *)
Definition wake (th : thread) : thread :=
  match at_pc th with
  | OSleep c => {| at_pc := OWait c; buffer := buffer th |}
  | OSleep2 => {| at_pc := OLock; buffer := buffer th |}
  | _ => th
  end.

(** What can happen next: a call of [Post] or of [CloseFromOwner], a step of a thread,
    or one of its stores becoming visible. *)
Inductive action := APost (t : task) | AClose | ARun (i : tid) (ch : choice) | AFlush (i : tid).

Definition start (p : pc) : thread := {| at_pc := p; buffer := [] |}.

Definition act (tso : bool) (a : action) (s : sys) : option sys :=
  match a with
  | APost t => Some {| memory := memory s; threads := threads s ++ [start (PAdd t)] |}
  | AClose => Some {| memory := memory s; threads := threads s ++ [start (OClosing Outside)] |}
  | ARun i ch =>
      th ← threads s !! i;
      o ← thread_step tso ch (memory s) (threads s) i (at_pc th) (buffer th);
      let ths := <[i := {| at_pc := o_pc o; buffer := o_buffer o |}]> (threads s) ++ (start <$> o_spawn o) in
      Some {| memory := o_mem o; threads := if o_notify o then wake <$> ths else ths |}
  | AFlush i =>
      th ← threads s !! i;
      match buffer th with
      | [] => None
      | p :: b => Some {| memory := commit (memory s) p;
                          threads := <[i := {| at_pc := at_pc th; buffer := b |}]> (threads s) |}
      end
  end.

Definition step (tso : bool) (s s' : sys) : Prop := exists a, act tso a s = Some s'.
Definition reachable (tso : bool) : sys -> Prop := rtc (step tso) sys_init.

Fixpoint acts (tso : bool) (l : list action) (s : sys) : option sys :=
  match l with
  | [] => Some s
  | a :: l' => s' ← act tso a s; acts tso l' s'
  end.
