(* ===== verification/ExecProofs.v ===== *)
(** * Running the tasks of a connection: proofs

    One thread at a time runs the tasks of a connection, in the order in which they
    were posted; no task is forgotten while memory is sequentially consistent, and
    nothing runs after [CloseFromOwner] has returned. Two runs show where this ends. *)

Set Warnings "-clear-no-such-hyp".
From S2P Require Import Prelude Executor.

(** ** Counting threads *)

(** A relation between the memory and two weights of the threads holds in every
    reachable state if every step, looking at its own thread only, keeps it. *)
Section Weights.
Context (tso : bool) (f g : thread -> Z) (Inv : mem -> Z -> Z -> Prop).
Hypothesis f_nonneg : forall th, 0 <= f th.
Hypothesis g_nonneg : forall th, 0 <= g th.
Hypothesis f_wake : forall th, f (wake th) = f th.
Hypothesis g_wake : forall th, g (wake th) = g th.
Hypothesis f_start : forall t, f (start (PAdd t)) = 0 /\ f (start (OClosing Outside)) = 0.
Hypothesis g_start : forall t, g (start (PAdd t)) = 0 /\ g (start (OClosing Outside)) = 0.
Hypothesis init_ok : Inv (memory sys_init) 0 0.
Hypothesis step_ok : forall s ch i th o Rf Rg,
  reachable tso s -> threads s !! i = Some th ->
  thread_step tso ch (memory s) (threads s) i (at_pc th) (buffer th) = Some o ->
  0 <= Rf -> 0 <= Rg -> weigh g (threads s) = g th + Rg -> Inv (memory s) (f th + Rf) (g th + Rg) ->
  Inv (o_mem o) (f {| at_pc := o_pc o; buffer := o_buffer o |} + Rf + weigh f (start <$> o_spawn o))
                (g {| at_pc := o_pc o; buffer := o_buffer o |} + Rg + weigh g (start <$> o_spawn o)).
Hypothesis flush_ok : forall s i p pd b Rf Rg,
  reachable tso s -> threads s !! i = Some {| at_pc := p; buffer := pd :: b |} -> 0 <= Rf -> 0 <= Rg ->
  Inv (memory s) (f {| at_pc := p; buffer := pd :: b |} + Rf) (g {| at_pc := p; buffer := pd :: b |} + Rg) ->
  Inv (commit (memory s) pd) (f {| at_pc := p; buffer := b |} + Rf) (g {| at_pc := p; buffer := b |} + Rg).

Lemma weights_reachable s : reachable tso s -> Inv (memory s) (weigh f (threads s)) (weigh g (threads s)).
Proof.
  intros Hs. pattern s. refine (rtc_ind_r _ _ _ _ _ Hs); clear s Hs; [done |].
  intros s s' Hs [a Ha] IH. destruct a as [t | | i ch | i]; cbn in Ha.
  - injection Ha as <-. cbn [memory threads]. rewrite !weigh_app. cbn [weigh foldr]. rewrite (proj1 (f_start t)), (proj1 (g_start t)), !Z.add_0_r. done.
  - injection Ha as <-. cbn [memory threads]. rewrite !weigh_app. cbn [weigh foldr].
    rewrite (proj2 (f_start 0%nat)), (proj2 (g_start 0%nat)), !Z.add_0_r. done.
  - destruct (threads s !! i) as [th |] eqn:Hi; cbn in Ha; [| done].
    destruct (thread_step _ _ _ _ _ _ _) as [o |] eqn:Ho; cbn in Ha; [| done]. injection Ha as <-. cbn [memory threads].
    destruct (weigh_split f _ _ _ Hi) as [Ef Ef']. destruct (weigh_split g _ _ _ Hi) as [Eg Eg']. rewrite Ef, Eg in IH.
    eapply step_ok in IH; [| done | done | exact Ho | by apply weigh_nonneg | by apply weigh_nonneg | exact Eg].
    destruct (o_notify o); rewrite ?weigh_fmap by done; by rewrite !weigh_app, Ef', Eg'.
  - destruct (threads s !! i) as [[p b] |] eqn:Hi; cbn in Ha; [| done]. destruct b as [| pd b]; [done |].
    injection Ha as <-. cbn [memory threads].
    destruct (weigh_split f _ _ _ Hi) as [Ef Ef']. destruct (weigh_split g _ _ _ Hi) as [Eg Eg']. rewrite Ef, Eg in IH.
    rewrite Ef', Eg'. eapply flush_ok; [done | exact Hi | by apply weigh_nonneg | by apply weigh_nonneg | done].
Qed.
End Weights.

Lemma pop_Some m ths t m' :
  pop m ths = (Some t, m') -> exists i q, task_queue_ m = (i, t) :: q /\ m' = m <| task_queue_ := q |>.
Proof.
  unfold pop. destruct (task_queue_ m) as [| [i u] q]; [done |]. destruct (linking ths i); [done |].
  intros [= <- <-]. eauto.
Qed.

(** Take the step [Ho] of a thread apart. *)
Ltac split_step Ho := unfold thread_step, rmw, store, goto, notified in Ho; cbn [at_pc buffer] in Ho;
  repeat match type of Ho with
  | context [match ?x with _ => _ end] => destruct x eqn:?; try discriminate Ho
  end; first [discriminate Ho | injection Ho as <-]; subst;
  try match goal with H : pop _ _ = (Some _, _) |- _ => apply pop_Some in H as (? & ? & ? & ->) end;
  cbn [o_mem o_pc o_buffer o_spawn o_notify fmap list_fmap weigh foldr] in *.

(** ** The invariants *)

(** The threads that hold [draining_]: those that won it and have not given it back. *)
Definition holds_token (p : pc) : Z :=
  match p with
  | PSub true | PSchedule true | NLoad (NPost true) | NLock (NPost true)
  | DStart | DLoop _ | DPop _ | DCount _ _ | DCall _ _ | DRunning _ | DYield _ | DRelease _ | DFinal
  | QPop _ | QCount _ | QActive _ | QQueued _ | QClose _
  | OClosing (Inside _) | OAccepting (Inside _) | OWait (Inside _) | OSleep (Inside _) => 1
  | _ => 0
  end.

Fixpoint unflushed (b : list pending) : Z :=
  match b with
  | [] => 0
  | SDraining :: b' => 1 + unflushed b'
  | _ :: b' => unflushed b'
  end.

Definition token (th : thread) : Z := holds_token (at_pc th) + unflushed (buffer th).

(** The calls of [Post] that [active_posts_] counts. *)
Definition posting (th : thread) : Z :=
  match at_pc th with
  | PCheck _ | PCount _ | PPush _ | PLink | PCas | PSub _ => 1
  | _ => 0
  end.

(** The tasks [queued_tasks_] counts that are not in the queue. *)
Definition counted (th : thread) : Z :=
  match at_pc th with
  | PPush _ | DCount _ _ | QCount _ => 1
  | _ => 0
  end.

(** The threads that are going to look at the queue although they do not hold
    [draining_]. *)
Definition rescuer (th : thread) : Z :=
  match at_pc th with
  | PLink | PCas | NLoad (NDrain _) | NLock (NDrain _) | DCheckOwner _ | DCheckQueued _ | DCas _ => 1
  | _ => 0
  end.

(** The threads that have seen [owner_closing_] in [Drain]. *)
Definition closing (th : thread) : Z :=
  match at_pc th with
  | QPop Outside | QCount Outside | QActive Outside | QQueued Outside | QClose Outside | DFinal => 1
  | _ => 0
  end.

(** The threads inside [DrainTaskQueue]. *)
Definition clearing (th : thread) : Z :=
  match at_pc th with
  | QPop _ | QCount _ | QActive _ | QQueued _ => 1
  | _ => 0
  end.

(** The threads that have set [owner_closing_]. *)
Definition owner (th : thread) : Z :=
  match at_pc th with
  | OAccepting _ | OWait _ | OSleep _ => if bool_decide (SClosing ∈ buffer th) then 0 else 1
  | OCas | OLock | OWaitDraining | OWaitQueued | OWaitActive | OSleep2 => 1
  | _ => 0
  end.

(** The thread that is at work on a task. *)
Definition running (th : thread) : Z :=
  match at_pc th with
  | DPop _ | DCount _ _ | DCall _ _ | DRunning _
  | QPop (Inside _) | QCount (Inside _) | QActive (Inside _) | QQueued (Inside _) | QClose (Inside _)
  | OClosing (Inside _) | OAccepting (Inside _) | OWait (Inside _) | OSleep (Inside _) => 1
  | _ => 0
  end.

(** The owner has found [draining_] clear. *)
Definition passed (th : thread) : Z :=
  match at_pc th with
  | OWaitQueued | OWaitActive => 1
  | _ => 0
  end.

Lemma unflushed_nonneg b : 0 <= unflushed b.
Proof. induction b as [| [] b IH]; cbn in *; lia. Qed.

Lemma unflushed_app b c : unflushed (b ++ c) = unflushed b + unflushed c.
Proof. induction b as [| [] b IH]; cbn in *; lia. Qed.

(** Every case of these definitions. *)
Ltac weight_cases := repeat match goal with
  | |- context [match ?x with _ => _ end] => destruct x eqn:?
  | H : context [match ?x with _ => _ end] |- _ => destruct x eqn:?
  end; simplify_eq/=; try done; try lia; try congruence.

Lemma holds_token_range p : 0 <= holds_token p <= 1.
Proof. unfold holds_token. weight_cases. Qed.

Lemma token_nonneg th : 0 <= token th.
Proof. pose proof (holds_token_range (at_pc th)). pose proof (unflushed_nonneg (buffer th)). unfold token. lia. Qed.

Lemma token_wake th : token (wake th) = token th.
Proof. destruct th as [[] b]; try done; by destruct c. Qed.

(** [draining_] is a lock: it is set exactly while one thread holds it. *)
Lemma token_inv tso s :
  reachable tso s -> weigh token (threads s) = if draining_ (memory s) then 1 else 0.
Proof.
  intros Hs. refine (weights_reachable tso token token (fun m n _ => n = if draining_ m then 1 else 0)
    token_nonneg token_nonneg token_wake token_wake _ _ _ _ _ s Hs); clear s Hs; try done.
  - intros s ch i [p b] o Rf Rg _ _ Ho HRf _ _ Hinv. cbn [at_pc buffer] in *. unfold token in *. cbn [at_pc buffer] in *.
    pose proof (unflushed_nonneg b). destruct p; split_step Ho; rewrite ?unflushed_app in *; cbn in *; weight_cases.
  - intros s i p pd b Rf Rg _ _ HRf _ Hinv. unfold token in *. cbn [at_pc buffer] in *.
    pose proof (unflushed_nonneg b). pose proof (holds_token_range p). destruct pd; cbn in *; weight_cases.
Qed.

(** The other weights are between 0 and 1 and do not depend on sleeping. *)
Ltac weight := unfold posting, counted, rescuer, closing, clearing, owner, running, passed, wake, start in *;
  cbn [at_pc buffer] in *; weight_cases.
Ltac by_weight := intros []; weight.

Lemma posting_inv tso s : reachable tso s -> active_posts_ (memory s) = weigh posting (threads s).
Proof.
  intros Hs. refine (weights_reachable tso posting posting (fun m n _ => active_posts_ m = n)
    ltac:(by_weight) ltac:(by_weight) ltac:(by_weight) ltac:(by_weight) ltac:(by_weight) ltac:(by_weight) _ _ _ s Hs);
    clear s Hs; [done | |].
  - intros s ch i [p b] o Rf Rg _ _ Ho HRf _ _ Hinv. destruct p; split_step Ho; weight.
  - intros s i p pd b Rf Rg _ _ HRf _ Hinv. by destruct pd.
Qed.

Lemma counted_inv tso s :
  reachable tso s -> queued_tasks_ (memory s) = zlen (task_queue_ (memory s)) + weigh counted (threads s).
Proof.
  intros Hs. refine (weights_reachable tso counted counted (fun m n _ => queued_tasks_ m = zlen (task_queue_ m) + n)
    ltac:(by_weight) ltac:(by_weight) ltac:(by_weight) ltac:(by_weight) ltac:(by_weight) ltac:(by_weight) _ _ _ s Hs);
    clear s Hs; [done | |].
  - intros s ch i [p b] o Rf Rg _ _ Ho HRf _ _ Hinv.
    destruct p; split_step Ho; cbn [task_queue_ set_field set_task_queue_ set_queued_tasks_ set_log] in *;
      try match goal with H : task_queue_ _ = _ |- _ => rewrite H in Hinv end;
      rewrite ?zlen_app in *; weight; zlia.
  - intros s i p pd b Rf Rg _ _ HRf _ Hinv. by destruct pd.
Qed.

Lemma closing_inv tso s : reachable tso s -> 0 < weigh closing (threads s) -> owner_closing_ (memory s) = true.
Proof.
  intros Hs. refine (weights_reachable tso closing closing (fun m n _ => 0 < n -> owner_closing_ m = true)
    ltac:(by_weight) ltac:(by_weight) ltac:(by_weight) ltac:(by_weight) ltac:(by_weight) ltac:(by_weight) _ _ _ s Hs);
    clear s Hs; [done | |].
  - intros s ch i [p b] o Rf Rg _ _ Ho HRf _ _ Hinv Hn.
    destruct p; split_step Ho; try done; specialize (Hinv ltac:(weight)); cbn in *; congruence.
  - intros s i p pd b Rf Rg _ _ HRf _ Hinv Hn. destruct pd; cbn; auto.
Qed.

Lemma owner_buffer p b b' :
  (SClosing ∈ b <-> SClosing ∈ b') -> owner {| at_pc := p; buffer := b |} = owner {| at_pc := p; buffer := b' |}.
Proof. intros Hb. unfold owner. cbn [at_pc buffer]. by rewrite (bool_decide_ext _ _ Hb). Qed.

Lemma owner_inv tso s : reachable tso s -> 0 < weigh owner (threads s) -> owner_closing_ (memory s) = true.
Proof.
  intros Hs. refine (weights_reachable tso owner owner (fun m n _ => 0 < n -> owner_closing_ m = true)
    ltac:(by_weight) ltac:(by_weight) ltac:(by_weight) ltac:(by_weight) ltac:(by_weight) ltac:(by_weight) _ _ _ s Hs);
    clear s Hs; [done | |].
  - intros s ch i [p b] o Rf Rg _ _ Ho HRf _ _ Hinv Hn.
    destruct p; split_step Ho; try done; try (specialize (Hinv ltac:(weight)); cbn in *; congruence); apply Hinv.
    + unfold owner in *. cbn [at_pc buffer] in *. rewrite bool_decide_true in Hn by set_solver. lia.
    + rewrite (owner_buffer _ _ b) in Hn by set_solver. unfold owner in *. cbn [at_pc buffer] in *. lia.
  - intros s i p pd b Rf Rg _ _ HRf _ Hinv Hn.
    destruct pd; cbn; [| done |]; apply Hinv; by rewrite (owner_buffer _ _ b) by set_solver.
Qed.

Lemma weigh_counted_nonneg l : 0 <= weigh counted l.
Proof. apply weigh_nonneg. by_weight. Qed.

(** Sequentially consistent memory has no store buffers. *)
Lemma sc_buffer s i th : reachable false s -> threads s !! i = Some th -> buffer th = [].
Proof.
  intros Hs Hi. assert (Hn : weigh (fun th => zlen (buffer th)) (threads s) = 0).
  { clear Hi. refine (weights_reachable false (fun th => zlen (buffer th)) (fun _ => 0) (fun _ n _ => n = 0)
      (fun th => zlen_nonneg _) (fun _ => Z.le_refl 0) _ (fun _ => eq_refl) _ _ _ _ _ s Hs); clear s Hs; [| done .. | |].
    - intros [[] b]; done.
    - intros s ch i' [p b] o Rf Rg _ _ Ho HRf _ _ Hinv. cbn [buffer] in *.
      destruct p; split_step Ho; cbn in *; zlia.
    - intros s i' p pd b Rf Rg _ _ HRf _. cbn. zlia. }
  apply zlen_0. pose proof (weigh_at (fun th => zlen (buffer th)) _ _ _ (fun th => zlen_nonneg (buffer th)) Hi).
  cbn in *. zlia.
Qed.

(** Sequentially consistent memory: a queued task that nobody holding [draining_] is
    going to find has a rescuer. *)
Lemma rescue_inv s :
  reachable false s -> owner_closing_ (memory s) = false -> draining_ (memory s) = false ->
  task_queue_ (memory s) <> [] -> 0 < weigh rescuer (threads s).
Proof.
  intros Hs. refine (weights_reachable false rescuer rescuer
    (fun m n _ => owner_closing_ m = false -> draining_ m = false -> task_queue_ m <> [] -> 0 < n)
    ltac:(by_weight) ltac:(by_weight) ltac:(by_weight) ltac:(by_weight) ltac:(by_weight) ltac:(by_weight) _ _ _ s Hs);
    clear s Hs; [done | |].
  - intros s ch i [p b] o Rf Rg Hs Hi Ho HRf _ _ Hinv Hcl Hdr Hq.
    assert (HA : queued_tasks_ (memory s) = 0 -> task_queue_ (memory s) = []).
    { rewrite (counted_inv _ _ Hs). pose proof (weigh_counted_nonneg (threads s)). intros E. apply zlen_0. zlia. }
    assert (HB : p = DFinal -> owner_closing_ (memory s) = true).
    { intros ->. apply (closing_inv _ _ Hs). eapply Z.lt_le_trans; [| eapply (weigh_at closing), Hi; by_weight]. done. }
    clear Hs Hi. destruct p; split_step Ho; cbn in Hcl, Hdr, Hq; try congruence;
      try (specialize (Hinv ltac:(congruence) ltac:(congruence) ltac:(congruence))); try (specialize (HB eq_refl); congruence); clear HB;
      try (apply Z.eqb_eq in Heqb0; specialize (HA Heqb0); congruence); clear HA; try (unfold rescuer in *; cbn in *; lia).
  - intros s i p pd b Rf Rg Hs Hi. by apply sc_buffer in Hi.
Qed.

(** ** After [CloseFromOwner] *)

(** Nothing runs after the owner's call returned. *)
Definition quiet_log (l : list event) : Prop :=
  forall l1 l2 t, l = l1 ++ EvReturned :: l2 -> EvRun t ∉ l2.

Lemma quiet_log_snoc l e :
  quiet_log l -> (forall t, e = EvRun t -> EvReturned ∉ l) -> quiet_log (l ++ [e]).
Proof.
  intros Hl He l1 l2 t E. destruct (decide (l2 = [])) as [-> | Hne]; [apply not_elem_of_nil |].
  destruct (exists_last Hne) as (l3 & x & ->). rewrite app_comm_cons, app_assoc in E. apply app_inj_tail in E as [-> ->].
  rewrite elem_of_app, list_elem_of_singleton. intros [Hin | <-]; [by eapply Hl |].
  apply (He t eq_refl). rewrite elem_of_app. right. left.
Qed.

Lemma quiet_log_other l e : quiet_log l -> (forall t, e <> EvRun t) -> quiet_log (l ++ [e]).
Proof. intros Hl He. apply quiet_log_snoc; [done |]. intros t ->. by destruct (He t). Qed.

Lemma running_token th : running th <= token th.
Proof. pose proof (unflushed_nonneg (buffer th)). unfold token, holds_token. destruct th as [[] b]; weight. Qed.

(** Once the owner has seen [draining_] clear, no task is being run. *)
Definition released (m : mem) (n1 n2 : Z) : Prop :=
  (0 < n1 \/ EvReturned ∈ log m -> n2 = 0 /\ owner_closing_ m = true) /\ quiet_log (log m).

Lemma released_ext m m' n1 n2 n1' n2' :
  released m n1 n2 -> log m' = log m -> (owner_closing_ m = true -> owner_closing_ m' = true) ->
  n1' <= n1 -> (owner_closing_ m = true -> 0 <= n2' <= n2) -> released m' n1' n2'.
Proof.
  intros [H1 H2] El Ho Hn1 Hn2. split; rewrite El; [| done]. intros Hn. destruct H1 as [-> Hcl].
  - destruct Hn; [left; lia | by right].
  - specialize (Hn2 Hcl). split; [lia | auto].
Qed.

Lemma released_log m m' e n1 n2 n1' n2' :
  released m n1 n2 -> log m' = log m ++ [e] -> owner_closing_ m' = owner_closing_ m ->
  (forall t, e = EvRun t -> 0 < n2) -> (e = EvReturned -> 0 < n1) -> n1' <= n1 -> n2' = n2 -> released m' n1' n2'.
Proof.
  intros [H1 H2] El Eo Hr He Hn1 ->. split; rewrite El; rewrite ?Eo.
  - intros Hn. apply H1. rewrite elem_of_app, list_elem_of_singleton in Hn.
    destruct Hn as [? | [? | <-]]; [left; lia | by right | left; auto].
  - apply quiet_log_snoc; [done |]. intros t E Hin. specialize (Hr t E). destruct H1 as [? _]; [by right | lia].
Qed.

Lemma released_inv tso s :
  reachable tso s -> released (memory s) (weigh passed (threads s)) (weigh running (threads s)).
Proof.
  intros Hs. refine (weights_reachable tso passed running released
    ltac:(by_weight) ltac:(by_weight) ltac:(by_weight) ltac:(by_weight) ltac:(by_weight) ltac:(by_weight) _ _ _ s Hs);
    clear s Hs.
  - split; [intros [? | ?%not_elem_of_nil]; done || lia |]. intros l1 l2 t E. symmetry in E. by apply app_nil in E as [_ ?].
  - intros s ch i [p b] o Rf Rg Hs Hi Ho HRf HRg Hg Hinv.
    assert (Hrun : draining_ (memory s) = false -> weigh running (threads s) = 0).
    { intros Hd. pose proof (token_inv _ _ Hs) as Ht. rewrite Hd in Ht.
      pose proof (weigh_le running token (threads s) running_token).
      assert (0 <= weigh running (threads s)) by (apply weigh_nonneg; by_weight). lia. }
    assert (Hown : p = OWaitDraining -> owner_closing_ (memory s) = true).
    { intros ->. apply (owner_inv _ _ Hs). eapply Z.lt_le_trans; [| eapply (weigh_at owner), Hi; by_weight]. done. }
    clear Hs Hi. rewrite Hg in Hrun. clear Hg.
    destruct p; try match goal with c : caller |- _ => destruct c end; split_step Ho;
      unfold passed, running in Hinv, Hrun |- *; cbn [at_pc buffer start] in *;
      try (eapply released_ext; [exact Hinv | cbn; done || congruence || lia ..]; fail);
      try (eapply released_log; [exact Hinv | cbn; done || congruence || lia ..]; fail).
    split; [| apply Hinv]. intros _. split; [rewrite Hrun by done; lia | auto].
  - intros s i p pd b Rf Rg _ _ HRf HRg Hinv. eapply released_ext; [exact Hinv | by destruct pd .. | done |].
    intros _. unfold running. cbn [at_pc]. split; [| done]. weight.
Qed.

