(* ===== verification/ExecTheorems.v ===== *)
(** * Running the tasks of a connection: theorems

    The order in which tasks run, the theorems on [Post], [Drain] and [CloseFromOwner]
    that the invariants of [ExecProofs.v] give, and runs on concrete inputs. *)

From S2P Require Import Prelude Executor ExecProofs.

(** ** Order *)

Definition pushed (l : list event) : list task := omap (fun e => match e with EvPush t => Some t | _ => None end) l.

(** Tasks that were run, or deleted when the owner closed. *)
Definition finished (l : list event) : list task :=
  omap (fun e => match e with EvRun t | EvDrop t => Some t | _ => None end) l.

Definition ran (l : list event) : list task := omap (fun e => match e with EvRun t => Some t | _ => None end) l.

(** The task a thread has taken and not yet called. *)
Definition in_hand (th : thread) : list task :=
  match at_pc th with DCount t _ | DCall t _ => [t] | _ => [] end.

Definition in_hands (ths : list thread) : list task := concat (in_hand <$> ths).

Lemma in_hands_app l k : in_hands (l ++ k) = in_hands l ++ in_hands k.
Proof. unfold in_hands. by rewrite fmap_app, concat_app. Qed.

Lemma in_hands_nil ths : (forall th, th ∈ ths -> in_hand th = []) -> in_hands ths = [].
Proof.
  unfold in_hands. induction ths as [| th ths IH]; intros Hn; [done |]. cbn. rewrite (Hn th) by left.
  apply IH. intros th' Hin. apply Hn. by right.
Qed.

Lemma in_hands_wake ths : in_hands (wake <$> ths) = in_hands ths.
Proof.
  unfold in_hands. induction ths as [| [p b] ths IH]; [done |]. cbn. rewrite IH. f_equal.
  destruct p; try done; by destruct c.
Qed.

Lemma in_hand_token th : token th = 0 -> in_hand th = [].
Proof. destruct th as [[] b]; try done; unfold token; cbn; pose proof (unflushed_nonneg b); lia. Qed.

(** A thread that does not change what it holds. *)
Lemma in_hands_same (ths : list thread) i th th' :
  ths !! i = Some th -> in_hand th' = in_hand th -> in_hands (<[i := th']> ths) = in_hands ths.
Proof.
  intros Hi E. unfold in_hands. f_equal. rewrite list_fmap_insert, E. apply list_insert_id.
  by rewrite list_lookup_fmap, Hi.
Qed.

(** The thread that holds [draining_] is the only one that can hold a task. *)
Lemma in_hands_token tso s i th th' :
  reachable tso s -> threads s !! i = Some th -> 1 <= token th -> in_hands (<[i := th']> (threads s)) = in_hand th'.
Proof.
  intros Hs Hi Ht. pose proof (token_inv _ _ Hs) as Hsum. destruct (weigh_split token _ _ _ Hi) as [E _].
  assert (Hrest : forall th0, th0 ∈ delete i (threads s) -> in_hand th0 = []).
  { intros th0 Hin. apply in_hand_token. apply list_elem_of_lookup in Hin as [j Hj].
    pose proof (weigh_at token _ _ _ token_nonneg Hj). pose proof (token_nonneg th0).
    destruct (draining_ (memory s)); lia. }
  assert (Hi' : <[i := th']> (threads s) !! i = Some th') by (apply list_lookup_insert_eq; by eapply lookup_lt_Some).
  rewrite <- (take_drop_middle _ _ _ Hi'), in_hands_app.
  cbn [in_hands fmap list_fmap concat]. fold (in_hands (drop (S i) (<[i := th']> (threads s)))).
  rewrite (in_hands_nil (take i _)), (in_hands_nil (drop (S i) _)); [by rewrite app_nil_r | |];
    intros th0 Hin; apply Hrest; rewrite <- (delete_insert_same _ i th'), delete_take_drop, elem_of_app; auto.
Qed.

Lemma in_hands_holder tso s i th :
  reachable tso s -> threads s !! i = Some th -> 1 <= token th -> in_hands (threads s) = in_hand th.
Proof. intros Hs Hi Ht. rewrite <- (list_insert_id _ _ _ Hi) at 1. by eapply in_hands_token. Qed.

(** Tasks leave the queue in the order in which they were pushed. *)
Definition fifo (m : mem) (hands : list task) : Prop :=
  pushed (log m) = finished (log m) ++ hands ++ (snd <$> task_queue_ m).

Lemma pushed_snoc l e : pushed (l ++ [e]) = pushed l ++ pushed [e].
Proof. apply omap_app. Qed.

Lemma finished_snoc l e : finished (l ++ [e]) = finished l ++ finished [e].
Proof. apply omap_app. Qed.

(** Steps that neither push, nor take, nor call. *)
Lemma fifo_neutral m m' hands :
  fifo m hands -> task_queue_ m' = task_queue_ m -> pushed (log m') = pushed (log m) ->
  finished (log m') = finished (log m) -> fifo m' hands.
Proof. unfold fifo. by intros H -> -> ->. Qed.

Lemma fifo_step tso s ch i p b o :
  reachable tso s -> threads s !! i = Some {| at_pc := p; buffer := b |} ->
  thread_step tso ch (memory s) (threads s) i p b = Some o -> fifo (memory s) (in_hands (threads s)) ->
  fifo (o_mem o) (in_hands (<[i := {| at_pc := o_pc o; buffer := o_buffer o |}]> (threads s))).
Proof.
  intros Hs Hi Ho Hf. pose proof (unflushed_nonneg b) as Hb.
  pose proof (in_hands_holder tso s i _ Hs Hi) as Hold. pose proof (fun th' => in_hands_token tso s i _ th' Hs Hi) as Hnew.
  pose proof (fun th' => in_hands_same (threads s) i _ th' Hi) as Hsame. clear Hs Hi. unfold token in Hold, Hnew.
  destruct p; split_step Ho;
    try (rewrite Hsame by done; apply (fifo_neutral _ _ _ Hf); cbn; rewrite ?pushed_snoc, ?finished_snoc, ?app_nil_r; done).
  all: unfold fifo in *.
  - rewrite Hsame by done. cbn. rewrite pushed_snoc, finished_snoc, fmap_app, Hf. cbn. by rewrite app_nil_r, !app_assoc.
  - rewrite Hnew by (cbn; lia). rewrite Hold in Hf by (cbn; lia). rewrite H in Hf. exact Hf.
  - rewrite Hnew by (cbn; lia). rewrite Hold in Hf by (cbn; lia). change (log (?m <| log := ?l |>)) with l.
    rewrite pushed_snoc, finished_snoc, Hf. cbn. by rewrite app_nil_r, <- app_assoc.
  - rewrite Hnew by (cbn; lia). rewrite Hold in Hf by (cbn; lia). rewrite H in Hf. change (log (?m <| log := ?l |>)) with l.
    rewrite pushed_snoc, finished_snoc. change (log (_ <| task_queue_ := _ |>)) with (log (memory s)). rewrite Hf.
    cbn. by rewrite app_nil_r, <- app_assoc.
Qed.

Lemma fifo_inv tso s : reachable tso s -> fifo (memory s) (in_hands (threads s)).
Proof.
  intros Hs. pattern s. refine (rtc_ind_r _ _ _ _ _ Hs); clear s Hs; [done |].
  intros s s' Hs [a Ha] IH. destruct a as [t | | i ch | i]; cbn in Ha.
  - injection Ha as <-. cbn [memory threads]. by rewrite in_hands_app, app_nil_r.
  - injection Ha as <-. cbn [memory threads]. by rewrite in_hands_app, app_nil_r.
  - destruct (threads s !! i) as [[p b] |] eqn:Hi; cbn in Ha; [| done].
    destruct (thread_step _ _ _ _ _ _ _) as [o |] eqn:Ho; cbn in Ha; [| done]. injection Ha as <-. cbn [memory threads].
    assert (Hsp : in_hands (start <$> o_spawn o) = []) by (clear -Ho; destruct p; split_step Ho; done).
    destruct (o_notify o); rewrite ?in_hands_wake, in_hands_app, Hsp, app_nil_r; by eapply fifo_step.
  - destruct (threads s !! i) as [[p b] |] eqn:Hi; cbn in Ha; [| done]. destruct b as [| pd b]; [done |].
    injection Ha as <-. cbn [memory threads]. rewrite (in_hands_same _ _ _ _ Hi) by done.
    apply (fifo_neutral _ _ _ IH); by destruct pd.
Qed.

(** ** Theorems *)

(** Tasks are deleted only when the owner closes. *)
Definition dropping (m : mem) (n _ : Z) : Prop :=
  0 < n \/ (exists t, EvDrop t ∈ log m) -> owner_closing_ m = true.

Lemma dropping_ext m m' n n' n2 n2' :
  dropping m n n2 -> (owner_closing_ m = true -> owner_closing_ m' = true) ->
  (0 < n' -> 0 < n \/ owner_closing_ m = true) ->
  (log m' = log m \/ (exists e, log m' = log m ++ [e] /\ ((forall t, e <> EvDrop t) \/ 0 < n))) ->
  dropping m' n' n2'.
Proof.
  intros H Ho Hn Hl [Hn' | [t Ht]]; apply Ho.
  - destruct (Hn Hn'); auto.
  - destruct Hl as [-> | (e & -> & Hl)] in Ht; [eauto |]. apply elem_of_app in Ht as [? | <-%list_elem_of_singleton]; [eauto |].
    destruct Hl as [Hl | ?]; [by destruct (Hl t) | auto].
Qed.

Lemma dropped_inv tso s t : reachable tso s -> EvDrop t ∈ log (memory s) -> owner_closing_ (memory s) = true.
Proof.
  intros Hs Ht. assert (Hd : dropping (memory s) (weigh clearing (threads s)) (weigh clearing (threads s))); [| eauto].
  clear Ht. refine (weights_reachable tso clearing clearing dropping
    ltac:(by_weight) ltac:(by_weight) ltac:(by_weight) ltac:(by_weight) ltac:(by_weight) ltac:(by_weight) _ _ _ s Hs);
    clear s Hs.
  - intros [? | [u ?%not_elem_of_nil]]; [lia | done].
  - intros s ch i [p b] o Rf Rg Hs Hi Ho HRf _ _ Hinv.
    assert (Hown : forall c, p = OWait c -> b = [] -> owner_closing_ (memory s) = true).
    { intros c -> ->. apply (owner_inv _ _ Hs). eapply Z.lt_le_trans; [| eapply (weigh_at owner), Hi; by_weight]. done. }
    clear Hs Hi. destruct p; split_step Ho; unfold clearing in *; cbn [at_pc start buffer] in *;
      (eapply dropping_ext; [exact Hinv | cbn; congruence || done | cbn; try lia; eauto | first [left; reflexivity | right; eexists; (split; [reflexivity |])]]);
      try (left; congruence); try (right; lia).
  - intros s i p pd b Rf Rg _ _ HRf _ Hinv. eapply dropping_ext; [exact Hinv | by destruct pd | auto | left; by destruct pd].
Qed.

Lemma lookup_delete_other {A} (l : list A) i j x :
  l !! j = Some x -> i <> j -> exists k, delete i l !! k = Some x.
Proof.
  intros Hj Hne. destruct (decide (j < i)%nat).
  - exists j. by rewrite list_lookup_delete_lt.
  - exists (pred j). rewrite list_lookup_delete_ge by lia. by replace (S (pred j)) with j by lia.
Qed.

(** C14: [draining_] works as a lock, on sequentially consistent and on buffered memory:
    at most one [Drain] of a connection is scheduled or running, so its tasks, and with
    them the callbacks of the handler, never run concurrently. *)
Theorem drain_exclusive (tso : bool) (s : sys) (i j : tid) (th th' : thread) :
  reachable tso s -> threads s !! i = Some th -> threads s !! j = Some th' ->
  holds_token (at_pc th) = 1 -> holds_token (at_pc th') = 1 -> i = j.
Proof.
  intros Hs Hi Hj Ht Ht'. destruct (decide (i = j)) as [| Hne]; [done | exfalso].
  pose proof (token_inv _ _ Hs) as Hsum. destruct (weigh_split token _ _ _ Hi) as [E _].
  destruct (lookup_delete_other _ _ _ _ Hj Hne) as [k Hk]. pose proof (weigh_at token _ _ _ token_nonneg Hk) as Hle.
  pose proof (unflushed_nonneg (buffer th)). pose proof (unflushed_nonneg (buffer th')). unfold token in *.
  destruct (draining_ (memory s)); lia.
Qed.

Lemma finished_ran l : (forall t, EvDrop t ∉ l) -> finished l = ran l.
Proof.
  induction l as [| e l IH]; intros Hd; [done |].
  assert (Hl : finished l = ran l) by (apply IH; intros t Ht; apply (Hd t); by right).
  unfold finished, ran in *. cbn. destruct e; cbn; rewrite ?Hl; try done. destruct (Hd t). left.
Qed.

(** C2: Tasks run once each and in the order in which they were pushed, on either memory, and
    none is lost or deleted early. What was pushed is, in this order, what has been run or
    deleted, then the task a [Drain] has taken out of the queue and not yet run or deleted, then
    what is in the queue. A task is deleted only when the owner is closing; until then
    what is finished is what has been run. *)
Theorem drain_in_order (tso : bool) (s : sys) :
  reachable tso s ->
  let m := memory s in
  pushed (log m) = finished (log m) ++ in_hands (threads s) ++ (snd <$> task_queue_ m) /\
  (forall t, EvDrop t ∈ log m -> owner_closing_ m = true) /\
  (owner_closing_ m = false -> finished (log m) = ran (log m)).
Proof.
  intros Hs m. split; [exact (fifo_inv _ _ Hs) |]. split; [intros t Ht; by eapply dropped_inv |].
  intros Ho. apply finished_ran. intros t Ht. subst m. rewrite (dropped_inv _ _ _ Hs Ht) in Ho. done.
Qed.

(** C23: On sequentially consistent memory no task is forgotten: when every call of
    [Post] and every [Drain] has ended, and the owner is not closing, all tasks posted
    have been run and [draining_] is clear. *)
Theorem drain_complete (s : sys) :
  reachable false s -> owner_closing_ (memory s) = false -> Forall (fun th => at_pc th = Done) (threads s) ->
  ran (log (memory s)) = pushed (log (memory s)) /\ draining_ (memory s) = false /\ queued_tasks_ (memory s) = 0.
Proof.
  intros Hs Ho Hdone.
  assert (Hw : forall f, f (start Done) = 0 -> weigh f (threads s) = 0).
  { intros f Hf. apply weigh_none. intros th Hin. apply list_elem_of_lookup in Hin as [i Hi].
    pose proof (sc_buffer _ _ _ Hs Hi). pose proof (list.Forall_lookup_1 _ _ _ _ Hdone Hi).
    destruct th; cbn in *; by subst. }
  assert (Hd : draining_ (memory s) = false).
  { pose proof (token_inv _ _ Hs) as Ht. rewrite Hw in Ht by done. by destruct (draining_ (memory s)). }
  assert (Hq : task_queue_ (memory s) = []).
  { destruct (decide (task_queue_ (memory s) = [])) as [| Hne]; [done | exfalso].
    pose proof (rescue_inv s Hs Ho Hd Hne). rewrite Hw in *; [lia | done]. }
  split; [| split; [done |]].
  - pose proof (fifo_inv _ _ Hs) as Hf. unfold fifo in Hf. rewrite Hq, <- (finished_ran (log _)) in *.
    + rewrite Hf, in_hands_nil; [by rewrite app_nil_r |]. intros th Hin. unfold in_hand.
      rewrite list.Forall_forall in Hdone. by rewrite Hdone.
    + intros t Ht. rewrite (dropped_inv _ _ _ Hs Ht) in Ho. done.
  - rewrite (counted_inv _ _ Hs), Hq, Hw; done.
Qed.

(** C24: After [CloseFromOwner] has returned to a thread other than the handler's no task
    is started, on either memory, so no callback of the handler follows; and none is
    under way at that moment. *)
Theorem close_from_owner_quiet (tso : bool) (s : sys) :
  reachable tso s -> quiet_log (log (memory s)) /\
  (EvReturned ∈ log (memory s) -> forall th, th ∈ threads s -> running th = 0).
Proof.
  intros Hs. destruct (released_inv _ _ Hs) as [H1 H2]. split; [done |]. intros Hr th [i Hi]%list_elem_of_lookup.
  destruct (H1 (or_intror Hr)) as [H0 _]. assert (Hn : forall th, 0 <= running th) by by_weight.
  pose proof (weigh_at running _ _ _ Hn Hi). specialize (Hn th). lia.
Qed.

(** ** Runs *)

Lemma acts_reachable tso l s : acts tso l sys_init = Some s -> reachable tso s.
Proof.
  unfold reachable. generalize sys_init. induction l as [| a l IH]; cbn; intros s0 E.
  - injection E as ->. reflexivity.
  - destruct (act tso a s0) as [s1 |] eqn:Ea; [| done]. eapply rtc_l; [by exists a | by apply IH].
Qed.

(** [n] steps of thread [i]. *)
Definition steps (n : nat) (i : tid) : list action := replicate n (ARun i (Return false)).

(** C39: On buffered memory a task can be forgotten. [Drain] clears [draining_] with a
    plain release store and then loads [queued_tasks_] and [active_posts_], which may
    happen before the store is visible: a [Post] in between finds [draining_] set and
    leaves the task to a [Drain] that has already returned. Every thread has ended, every
    store is visible, the owner is not closing, and the second task is still queued. *)
Theorem drain_can_forget :
  exists s, reachable true s /\ Forall (fun th => th = start Done) (threads s) /\
    owner_closing_ (memory s) = false /\ draining_ (memory s) = false /\
    pushed (log (memory s)) = [1%nat; 2%nat] /\ ran (log (memory s)) = [1%nat].
Proof.
  set (l := [APost 1] ++ steps 22 0 ++ [APost 2] ++ steps 9 1 ++ [AFlush 0]).
  exists (default sys_init (acts true l sys_init)).
  split; [apply (acts_reachable _ l); vm_compute; reflexivity |].
  split; [vm_compute; by repeat constructor |]. split_and!; vm_compute; reflexivity.
Qed.

(** [CloseFromOwner] can hang, even on sequentially consistent memory. It sets
    [owner_closing_] before it clears [accepting_tasks_]; a [Post] that comes between the
    two, after [Drain] has emptied the queue for the closing owner but before it clears
    [draining_], leaves a task that nobody is going to delete, and the owner waits for
    [queued_tasks_] to become 0 with no thread left that could wake it. *)
Theorem close_from_owner_can_hang :
  exists s, reachable false s /\ threads s = [start Done; start OSleep2; start Done] /\
    (forall i ch, act false (ARun i ch) s = None) /\
    draining_ (memory s) = false /\ queued_tasks_ (memory s) = 1 /\ EvReturned ∉ log (memory s).
Proof.
  set (l := [APost 1] ++ steps 10 0 ++ [AClose] ++ steps 1 1 ++ steps 6 0 ++ [APost 2] ++ steps 10 2 ++
            steps 5 1 ++ steps 4 0 ++ steps 3 1).
  exists (default sys_init (acts false l sys_init)).
  split; [apply (acts_reachable _ l); vm_compute; reflexivity |].
  split; [vm_compute; reflexivity |]. split.
  - intros i ch. vm_compute. by destruct i as [| [| [| i]]].
  - split; [vm_compute; reflexivity |]. split; [vm_compute; reflexivity |].
    vm_compute. intros Hin. repeat (apply elem_of_cons in Hin as [Hin | Hin]; [done |]). by apply not_elem_of_nil in Hin.
Qed.

(** Two tasks are posted and run, then the owner releases the connection. *)
Definition two_tasks : list action := [APost 1] ++ steps 22 0 ++ [APost 2] ++ steps 22 1.
Definition and_close : list action := two_tasks ++ [AClose] ++ steps 4 2 ++ steps 9 3 ++ steps 4 2.
Definition ran_two : sys := default sys_init (acts false two_tasks sys_init).
Definition ran_closed : sys := default sys_init (acts false and_close sys_init).
Definition ran_first : sys := default sys_init (acts false ([APost 1] ++ steps 14 0) sys_init).

Lemma ran_two_reachable : reachable false ran_two.
Proof. apply (acts_reachable _ two_tasks). vm_compute. reflexivity. Qed.

Lemma ran_closed_reachable : reachable false ran_closed.
Proof. apply (acts_reachable _ and_close). vm_compute. reflexivity. Qed.

Lemma ran_first_reachable : reachable false ran_first.
Proof. apply (acts_reachable _ ([APost 1] ++ steps 14 0)). vm_compute. reflexivity. Qed.

Lemma drain_exclusive_witness :
  threads ran_first !! 0%nat = Some (start (DRunning 0)) /\
  (forall j th', threads ran_first !! j = Some th' -> holds_token (at_pc th') = 1 -> 0%nat = j).
Proof.
  assert (H0 : threads ran_first !! 0%nat = Some (start (DRunning 0))) by (vm_compute; reflexivity).
  split; [exact H0 |]. intros j th' Hj Ht.
  exact (drain_exclusive false ran_first 0 j _ th' ran_first_reachable H0 Hj eq_refl Ht).
Defined.

(** Two tasks have been posted and run; the same with the second one taken but not run yet. *)
Definition ran_one : sys := default sys_init (acts false ([APost 1] ++ steps 22 0 ++ [APost 2] ++ steps 12 1) sys_init).

Lemma ran_one_reachable : reachable false ran_one.
Proof. apply (acts_reachable _ ([APost 1] ++ steps 22 0 ++ [APost 2] ++ steps 12 1)). vm_compute. reflexivity. Qed.

Lemma drain_in_order_witness :
  finished (log (memory ran_two)) = [1%nat; 2%nat] /\
  pushed (log (memory ran_two)) = finished (log (memory ran_two)) /\
  finished (log (memory ran_one)) = ran (log (memory ran_one)).
Proof.
  split; [vm_compute; reflexivity |]. split.
  - destruct (drain_in_order false ran_two ran_two_reachable) as [E _]. rewrite E.
    replace (in_hands (threads ran_two)) with (@nil nat) by (vm_compute; reflexivity).
    replace (snd <$> task_queue_ (memory ran_two)) with (@nil nat) by (vm_compute; reflexivity).
    by rewrite !app_nil_r.
  - apply (drain_in_order false ran_one ran_one_reachable). vm_compute. reflexivity.
Defined.

Lemma drain_complete_witness :
  pushed (log (memory ran_two)) = [1%nat; 2%nat] /\ ran (log (memory ran_two)) = pushed (log (memory ran_two)).
Proof.
  split; [vm_compute; reflexivity |].
  apply (drain_complete ran_two ran_two_reachable); [vm_compute; reflexivity |].
  vm_compute. repeat constructor.
Defined.

Lemma close_from_owner_quiet_witness : EvReturned ∈ log (memory ran_closed) /\ quiet_log (log (memory ran_closed)).
Proof.
  split; [| exact (proj1 (close_from_owner_quiet false ran_closed ran_closed_reachable))].
  vm_compute. repeat (left || right).
Defined.
