(* ===== verification/Worker.v ===== *)
(** * A worker of the pool

    [PostToWorker], [Run], [ShouldStop], [PopTask], [DrainQueue] and [Stop] of
    [src/net/worker_pool.cc], seen from one worker: any number of threads that post to
    it, the worker thread, and threads that stop the pool, among them the worker itself
    when a task calls [Stop].

    Every access to [stopping_], [generation_], [workers_], [accepting], [active_posts]
    and the queue is one step; a critical section of the worker's [mtx] is one step,
    because nothing in it waits except [cv.wait], which releases it. Memory is
    sequentially consistent: in [Stop] the mutex of the worker lies between the store to
    [accepting] and the load of [active_posts].

    The generation of the worker is fixed; [moved] says that [generation_] has left it,
    which it never comes back to. A later [Start] ([ARestart]) clears [stopping_] and
    makes new workers. The queue is the list of the pushes that have been exchanged,
    with the thread that made them: [Mpscq.mpscq_first] and [Mpscq.mpscq_empty_sound]
    are what [push] and [PopAndCheckEnd] promise about it. *)

From S2P Require Import Prelude.

Abbreviation task := nat.
Abbreviation tid := nat.

(** Who calls [Stop]: a task on the worker itself, or another thread. *)
Inductive stopper := Self | Other.

(** Where [Run] calls [ShouldStop]: before a pop, with a node in hand, or after the
    queue was empty. *)
Inductive test := TTop | TNode (t : task) | TEnd.

Inductive pc :=
(* PostToWorker *)
| PStopping (t : task)     (* stopping_ *)
| PLoad (t : task)         (* LoadWorkers *)
| PAdd (t : task)          (* active_posts++ *)
| PAccepting (t : task)    (* accepting *)
| PBackOut                 (* active_posts--, rejected *)
| PPush (t : task)         (* push: exchange *)
| PLink (first : bool)     (* push: link *)
| PWake                    (* under mtx: wake_pending = true *)
| PNotifyOne               (* cv.notify_one *)
| PSub                     (* active_posts-- *)
| PCheck                   (* accepting *)
| PNotifyAll               (* under mtx: cv.notify_all *)
(* Run *)
| WWait                    (* under mtx: wake_pending, or wait *)
| WSleep
| WGeneration (k : test)   (* ShouldStop: generation_ *)
| WStopping (k : test)     (* ShouldStop: stopping_ *)
| WPop                     (* PopTask *)
| WCall (t : task)         (* task() *)
| WRunning                 (* inside the task *)
| WDone
(* Stop *)
| SStart (c : stopper)     (* lock mtx_; stopping_ *)
| SGeneration (c : stopper)  (* generation_++ *)
| SStore (c : stopper)     (* StoreWorkers *)
| SAccepting (c : stopper) (* accepting = false; unlock mtx_ *)
| SWake (c : stopper)      (* under mtx: wake_pending = true *)
| SNotify (c : stopper)    (* cv.notify_one *)
| SJoin (c : stopper)      (* join or detach *)
| SWait (c : stopper)      (* under mtx: active_posts == 0, or wait *)
| SSleep (c : stopper)
| SDrain (c : stopper)     (* DrainQueue *)
| Done.

Inductive event := EvPush (t : task) | EvRun (t : task) | EvDelete (t : task) | EvStopped.

(** The members of [WorkerPool] and of one [WorkerState]; [listed]: this worker is in
    the list [workers_] points to. *)
Record mem := Mem {
  mtx_ : bool;
  stopping_ : bool;
  moved : bool;
  listed : bool;
  accepting : bool;
  active_posts : Z;
  wake_pending : bool;
  queue : list (tid * task);
  log : list event
}.

#[export] Instance eta_mem : Eta mem := fun m => Mem (mtx_ m) (stopping_ m) (moved m) (listed m) (accepting m)
  (active_posts m) (wake_pending m) (queue m) (log m).
#[export] Instance set_mtx_ : Setter mtx_ := ltac:(solve_setter).
#[export] Instance set_stopping_ : Setter stopping_ := ltac:(solve_setter).
#[export] Instance set_moved : Setter moved := ltac:(solve_setter).
#[export] Instance set_listed : Setter listed := ltac:(solve_setter).
#[export] Instance set_accepting : Setter accepting := ltac:(solve_setter).
#[export] Instance set_active_posts : Setter active_posts := ltac:(solve_setter).
#[export] Instance set_wake_pending : Setter wake_pending := ltac:(solve_setter).
#[export] Instance set_queue : Setter queue := ltac:(solve_setter).
#[export] Instance set_log : Setter log := ltac:(solve_setter).

Record sys := { memory : mem; threads : list pc }.

(** A worker as [Start] leaves it. Its own thread is the first one. *)
Definition sys_init : sys :=
  {| memory := {| mtx_ := false; stopping_ := false; moved := false; listed := true; accepting := true;
                  active_posts := 0; wake_pending := false; queue := []; log := [] |};
     threads := [WWait] |}.

(** The outcome of a step of a thread: memory, program counter, and whether it notifies
    the condition variable. *)
Record outcome := { o_mem : mem; o_pc : pc; o_notify : bool }.

Definition goto (m : mem) (p : pc) : option outcome := Some {| o_mem := m; o_pc := p; o_notify := false |}.
Definition notify (m : mem) (p : pc) : option outcome := Some {| o_mem := m; o_pc := p; o_notify := true |}.

Inductive popped := Empty | Popped (t : task) (q : list (tid * task)) | Retry.

(** The thread that has exchanged and not linked yet, with the result of its [push]. *)
Definition linking (ths : list pc) (i : tid) : option bool :=
  match ths !! i with
  | Some (PLink first) => Some first
  | _ => None
  end.

(** [PopAndCheckEnd]. The last node is returned when the stub has been put behind it; a
    node pushed after that has the stub as predecessor, and until it is linked the queue
    looks empty. Behind any other node that is not linked yet the caller has to retry. *)
Definition PopAndCheckEnd (ths : list pc) (q : list (tid * task)) : popped :=
  match q with
  | [] => Empty
  | (i, t) :: q' =>
      match linking ths i with
      | Some true => Empty
      | Some false => Retry
      | None =>
          match q' with
          | (j, _) :: _ => if linking ths j is Some false then Retry else Popped t q'
          | [] => Popped t q'
          end
      end
  end.

(** What [ShouldStop] decides. *)
Definition should_stop (m : mem) (k : test) (stop : bool) (next : pc) : option outcome :=
  if stop
  then goto (match k with TNode t => m <| log := log m ++ [EvDelete t] |> | _ => m end) WDone
  else goto m next.

Definition go_on (k : test) : pc :=
  match k with TTop => WPop | TNode t => WCall t | TEnd => WWait end.

(** [Stop] returns to the task that called it, or to its thread. *)
Definition returned (c : stopper) : pc := match c with Self => WRunning | Other => Done end.

(** One step of thread [i]. [ch] decides what the model leaves open: whether a push onto
    a queue that is not empty finds the stub, and whether a running task calls [Stop]. *)
Definition thread_step (ch : bool) (m : mem) (ths : list pc) (i : tid) (p : pc) : option outcome :=
  match p with
  | PStopping t => goto m (if stopping_ m then Done else PLoad t)
  | PLoad t => goto m (if listed m then PAdd t else Done)
  | PAdd t => goto (m <| active_posts := active_posts m + 1 |>) (PAccepting t)
  | PAccepting t => goto m (if accepting m then PPush t else PBackOut)
  | PBackOut => goto (m <| active_posts := active_posts m - 1 |>) (if active_posts m =? 1 then PNotifyAll else Done)
  | PPush t => goto (m <| queue := queue m ++ [(i, t)] |> <| log := log m ++ [EvPush t] |>)
                 (PLink (bool_decide (queue m = []) || ch))
  | PLink first => goto m (if first then PWake else PSub)
  | PWake => goto (m <| wake_pending := true |>) PNotifyOne
  | PNotifyOne => notify m PSub
  | PSub => goto (m <| active_posts := active_posts m - 1 |>) (if active_posts m =? 1 then PCheck else Done)
  | PCheck => goto m (if accepting m then Done else PNotifyAll)
  | PNotifyAll => notify m Done
  | WWait => if wake_pending m then goto (m <| wake_pending := false |>) (WGeneration TTop) else goto m WSleep
  | WGeneration k => should_stop m k (moved m) (WStopping k)
  | WStopping k => should_stop m k (stopping_ m) (go_on k)
  | WPop =>
      match PopAndCheckEnd ths (queue m) with
      | Popped t q => goto (m <| queue := q |>) (WGeneration (TNode t))
      | Empty => goto m (WGeneration TEnd)
      | Retry => None
      end
  | WCall t => goto (m <| log := log m ++ [EvRun t] |>) WRunning
  | WRunning => goto m (if ch then SStart Self else WGeneration TTop)
  | SStart c =>
      if mtx_ m then None
      else if stopping_ m || moved m then goto m (returned c)
      else goto (m <| mtx_ := true |> <| stopping_ := true |>) (SGeneration c)
  | SGeneration c => goto (m <| moved := true |>) (SStore c)
  | SStore c => goto (m <| listed := false |>) (SAccepting c)
  | SAccepting c => goto (m <| accepting := false |> <| mtx_ := false |>) (SWake c)
  | SWake c => goto (m <| wake_pending := true |>) (SNotify c)
  | SNotify c => notify m (SJoin c)
  | SJoin c =>
      match c with
      | Self => goto m (SWait c)
      | Other => if ths !! 0%nat is Some WDone then goto m (SWait c) else None
      end
  | SWait c => goto m (if active_posts m =? 0 then SDrain c else SSleep c)
  | SDrain c =>
      match PopAndCheckEnd ths (queue m) with
      | Popped t q => goto (m <| queue := q |> <| log := log m ++ [EvDelete t] |>) (SDrain c)
      | Empty => goto (m <| log := log m ++ [EvStopped] |>) (returned c)
      | Retry => None
      end
  | WSleep | WDone | SSleep _ | Done => None
  end.

(** A thread that waits on [cv] looks at its condition again. *)
Definition wake (p : pc) : pc :=
  match p with
  | WSleep => WWait
  | SSleep c => SWait c
  | _ => p
  end.

(** What can happen next: a call of [Post] or of [Stop], a step of a thread, a spurious
    wakeup, or [Start] after [Stop]. At most one thread waits on [cv]
    ([WorkerProofs.one_waiter]), so [notify_one] wakes all. *)
Inductive action := APost (t : task) | AStop | ARun (i : tid) (ch : bool) | ASpurious (i : tid) | ARestart.

Definition act (a : action) (s : sys) : option sys :=
  let m := memory s in
  match a with
  | APost t => Some {| memory := m; threads := threads s ++ [PStopping t] |}
  | AStop => Some {| memory := m; threads := threads s ++ [SStart Other] |}
  | ARun i ch =>
      p ← threads s !! i;
      o ← thread_step ch m (threads s) i p;
      let ths := <[i := o_pc o]> (threads s) in
      Some {| memory := o_mem o; threads := if o_notify o then wake <$> ths else ths |}
  | ASpurious i =>
      p ← threads s !! i;
      Some {| memory := m; threads := <[i := wake p]> (threads s) |}
  | ARestart => if mtx_ m || negb (stopping_ m) then None
                else Some {| memory := m <| stopping_ := false |>; threads := threads s |}
  end.

Definition step (s s' : sys) : Prop := exists a, act a s = Some s'.
Definition reachable : sys -> Prop := rtc step sys_init.

Fixpoint acts (l : list action) (s : sys) : option sys :=
  match l with
  | [] => Some s
  | a :: l' => s' ← act a s; acts l' s'
  end.
