(* ===== verification/WorkerProofs.v ===== *)
(** * A worker of the pool: invariants

    What holds at every moment of every run of [Worker.v]: the counters and flags count
    the threads they should, a worker that sleeps on a queue that is not empty is going
    to be woken, and [Stop] looks at the queue only when nobody else does. *)

From S2P Require Import Prelude Worker.

(** ** Weights *)

Section Weights.
Context (f g : pc -> Z) (keep_f keep_g : bool) (Inv : mem -> Z -> Z -> Prop).
Hypothesis f_nonneg : forall p, 0 <= f p.
Hypothesis g_nonneg : forall p, 0 <= g p.
(** Waking threads either does not change a weight, or it makes it 0. *)
Hypothesis f_wake : forall p, f (wake p) = if keep_f then f p else 0.
Hypothesis g_wake : forall p, g (wake p) = if keep_g then g p else 0.
Hypothesis f_start : forall t, f (PStopping t) = 0 /\ f (SStart Other) = 0.
Hypothesis g_start : forall t, g (PStopping t) = 0 /\ g (SStart Other) = 0.
Hypothesis init_ok : Inv (memory sys_init) (f WWait) (g WWait).

Definition after (h : pc -> Z) (keep notified : bool) (p : pc) (R : Z) : Z :=
  if notified && negb keep then 0 else h p + R.

Hypothesis step_ok : forall s ch i p o Rf Rg,
  reachable s -> threads s !! i = Some p -> thread_step ch (memory s) (threads s) i p = Some o ->
  0 <= Rf -> 0 <= Rg -> weigh f (threads s) = f p + Rf -> weigh g (threads s) = g p + Rg ->
  Inv (memory s) (f p + Rf) (g p + Rg) ->
  Inv (o_mem o) (after f keep_f (o_notify o) (o_pc o) Rf) (after g keep_g (o_notify o) (o_pc o) Rg).
Hypothesis wake_ok : forall m p Rf Rg, 0 <= Rf -> 0 <= Rg ->
  Inv m (f p + Rf) (g p + Rg) -> Inv m (f (wake p) + Rf) (g (wake p) + Rg).
Hypothesis restart_ok : forall s Rf Rg, reachable s -> 0 <= Rf -> 0 <= Rg ->
  mtx_ (memory s) = false -> stopping_ (memory s) = true ->
  Inv (memory s) Rf Rg -> Inv ((memory s) <| stopping_ := false |>) Rf Rg.

Lemma weigh_woken (h : pc -> Z) (keep : bool) (l : list pc) :
  (forall p, h (wake p) = if keep then h p else 0) -> weigh h (wake <$> l) = if keep then weigh h l else 0.
Proof.
  intros Hw. destruct keep; [by apply weigh_fmap |]. apply weigh_none. intros p (q & -> & _)%list_elem_of_fmap.
  apply Hw.
Qed.

Lemma worker_weights_reachable s : reachable s -> Inv (memory s) (weigh f (threads s)) (weigh g (threads s)).
Proof.
  intros Hs. pattern s. refine (rtc_ind_r _ _ _ _ _ Hs); clear s Hs; [cbn; by rewrite !Z.add_0_r |].
  intros s s' Hs [a Ha] IH. destruct a as [t | | i ch | i |]; cbn in Ha.
  - injection Ha as <-. cbn [memory threads]. rewrite !weigh_app. cbn [weigh foldr].
    by rewrite (proj1 (f_start t)), (proj1 (g_start t)), !Z.add_0_r.
  - injection Ha as <-. cbn [memory threads]. rewrite !weigh_app. cbn [weigh foldr].
    by rewrite (proj2 (f_start 0%nat)), (proj2 (g_start 0%nat)), !Z.add_0_r.
  - destruct (threads s !! i) as [p |] eqn:Hi; cbn in Ha; [| done].
    destruct (thread_step _ _ _ _ _) as [o |] eqn:Ho; cbn in Ha; [| done]. injection Ha as <-. cbn [memory threads].
    destruct (weigh_split f _ _ _ Hi) as [Ef Ef']. destruct (weigh_split g _ _ _ Hi) as [Eg Eg']. rewrite Ef, Eg in IH.
    eapply step_ok in IH; [| done | done | exact Ho | by apply weigh_nonneg | by apply weigh_nonneg | done | done].
    unfold after in IH. destruct (o_notify o); cbn [andb] in IH; [| by rewrite Ef', Eg'].
    rewrite (weigh_woken f keep_f), (weigh_woken g keep_g) by done. by destruct keep_f, keep_g; rewrite ?Ef', ?Eg'.
  - destruct (threads s !! i) as [p |] eqn:Hi; cbn in Ha; [| done]. injection Ha as <-. cbn [memory threads].
    destruct (weigh_split f _ _ _ Hi) as [Ef Ef']. destruct (weigh_split g _ _ _ Hi) as [Eg Eg']. rewrite Ef, Eg in IH.
    rewrite Ef', Eg'. apply wake_ok; [by apply weigh_nonneg .. | done].
  - destruct (mtx_ (memory s)) eqn:?, (stopping_ (memory s)) eqn:?; try done. injection Ha as <-. cbn [memory threads].
    apply restart_ok; [done | by apply weigh_nonneg .. | done | done | done].
Qed.
End Weights.

Lemma pop_Popped ths q t q' : PopAndCheckEnd ths q = Popped t q' -> exists j, q = (j, t) :: q'.
Proof.
  destruct q as [| [j u] q]; [done |]. cbn. intros Hp. exists j. by repeat case_match; simplify_eq.
Qed.

(** The queue looks empty only when it is, or when a [push] that is going to return
    [true] has not linked its node. *)
Lemma pop_Empty ths q : PopAndCheckEnd ths q = Empty -> q = [] \/ exists j, ths !! j = Some (PLink true).
Proof.
  destruct q as [| [j t] q]; [by left |]. cbn. unfold linking. intros Hp. right. exists j.
  by destruct (ths !! j) as [[] |]; repeat case_match; simplify_eq.
Qed.

(** Take the step [Ho] of a thread apart. *)
Ltac split_step Ho := unfold thread_step, should_stop, goto, notify in Ho;
  repeat match type of Ho with
  | context [match ?x with _ => _ end] =>
      let y := fresh "y" in let E := fresh "E" in
      remember x as y eqn:E in Ho; destruct y; symmetry in E; try discriminate Ho
  end; first [discriminate Ho | injection Ho as <-]; subst; unfold after in *;
  repeat match goal with
  | H : PopAndCheckEnd _ _ = Popped _ _ |- _ => apply pop_Popped in H as [? H]
  | H : _ || _ = false |- _ => apply orb_false_iff in H as [? ?]
  | H : stopping_ _ || _ = true |- _ => apply orb_prop in H as [? | ?]
  end;
  cbn [o_mem o_pc o_notify andb negb go_on returned] in *.

Ltac cases_pc p := destruct p; try match goal with k : test |- _ => destruct k | c : stopper |- _ => destruct c end.

Ltac weight_cases := unfold go_on, returned in *; cbn in *; repeat match goal with
  | |- context [match ?x with _ => _ end] => destruct x eqn:?
  | H : context [match ?x with _ => _ end] |- _ => destruct x eqn:?
  end; simplify_eq/=; try done; try lia; try congruence.

(** ** The weights *)

(** The calls that [active_posts] counts. *)
Definition posting (p : pc) : Z :=
  match p with PAccepting _ | PBackOut | PPush _ | PLink _ | PWake | PNotifyOne | PSub => 1 | _ => 0 end.

(** Those of them that were accepted and have not returned. *)
Definition pushing (p : pc) : Z :=
  match p with PPush _ | PLink _ | PWake | PNotifyOne => 1 | _ => 0 end.

(** The worker, also inside a task that calls [Stop]. *)
Definition worker (p : pc) : Z :=
  match p with
  | WWait | WSleep | WGeneration _ | WStopping _ | WPop | WCall _ | WRunning | WDone
  | SStart Self | SGeneration Self | SStore Self | SAccepting Self | SWake Self | SNotify Self | SJoin Self
  | SWait Self | SSleep Self | SDrain Self => 1
  | _ => 0
  end.

(** The worker has seen the end of the queue and has not looked again. *)
Definition idle (p : pc) : Z :=
  match p with WGeneration TEnd | WStopping TEnd | WWait | WSleep => 1 | _ => 0 end.

(** The threads that are going to set [wake_pending]. *)
Definition waker (p : pc) : Z :=
  match p with PLink true | PWake => 1 | _ => 0 end.

(** The worker waits on [cv]; the threads that are going to notify. *)
Definition asleep (p : pc) : Z := match p with WSleep => 1 | _ => 0 end.
Definition notifier (p : pc) : Z := match p with PNotifyOne | SNotify _ => 1 | _ => 0 end.
Definition stop_asleep (p : pc) : Z := match p with SSleep _ => 1 | _ => 0 end.
Definition stop_notifier (p : pc) : Z := match p with PNotifyAll | PCheck => 1 | _ => 0 end.

(** The thread whose [Stop] stops this worker: while it holds [mtx_], from [generation_++]
    on, at all, from the unlocking of [mtx_] on, from [wake_pending = true] on, from the
    join on, and from [active_posts == 0] on. *)
Definition holder (p : pc) : Z := match p with SGeneration _ | SStore _ | SAccepting _ => 1 | _ => 0 end.
Definition counted_up (p : pc) : Z :=
  match p with
  | SStore _ | SAccepting _ | SWake _ | SNotify _ | SJoin _ | SWait _ | SSleep _ | SDrain _ => 1
  | _ => 0
  end.
Definition in_stop (p : pc) : Z :=
  match p with
  | SGeneration _ | SStore _ | SAccepting _ | SWake _ | SNotify _ | SJoin _ | SWait _ | SSleep _ | SDrain _ => 1
  | _ => 0
  end.
Definition unlocked (p : pc) : Z :=
  match p with SWake _ | SNotify _ | SJoin _ | SWait _ | SSleep _ | SDrain _ => 1 | _ => 0 end.
Definition woken (p : pc) : Z := match p with SNotify _ | SJoin _ | SWait _ | SSleep _ | SDrain _ => 1 | _ => 0 end.
Definition joined (p : pc) : Z := match p with SWait _ | SSleep _ | SDrain _ => 1 | _ => 0 end.
Definition draining (p : pc) : Z := match p with SDrain _ => 1 | _ => 0 end.

(** The worker is going to wait without calling [ShouldStop] before, or waits. *)
Definition waiting (p : pc) : Z := match p with WStopping TEnd | WWait | WSleep => 1 | _ => 0 end.

(** The worker may still take or run a task. *)
Definition working (p : pc) : Z :=
  match p with
  | WWait | WSleep | WGeneration (TNode _) | WGeneration TEnd | WStopping _ | WPop | WCall _ => 1
  | _ => 0
  end.

Ltac weight := unfold posting, pushing, worker, idle, waker, asleep, notifier, stop_asleep, stop_notifier, holder, counted_up, in_stop,
  unlocked, woken, joined, draining, waiting, working, wake in *; weight_cases.
Ltac by_weight := intros []; cbn; first [done | lia | by repeat case_match].

(** ** Flags and counters *)

Ltac weights f g kf kg Inv Hs := refine (worker_weights_reachable f g kf kg Inv
  ltac:(by_weight) ltac:(by_weight) ltac:(by_weight) ltac:(by_weight) ltac:(by_weight) ltac:(by_weight) _ _ _ _ _ Hs).

(** The three side conditions of an invariant that a step of one thread preserves; what
    is left is the step. *)
Ltac side := clear; repeat intro; cbn in *; first [done | lia | weight].
Ltac by_inv := auto; intros; match goal with H : 0 < _ -> _ |- _ => apply H; lia end.
Ltac step_intro := clear; intros s ch i p o Rf Rg Hs Hi Ho HRf HRg Ef Eg Hinv.

Lemma worker_posting_inv s : reachable s -> active_posts (memory s) = weigh posting (threads s).
Proof.
  intros Hs. weights posting posting true true (fun m n (_ : Z) => active_posts m = n) Hs; [side | | side ..].
  step_intro. clear Hs Hi Ef Eg. destruct p; split_step Ho; weight.
Qed.

Lemma worker_step ch m ths i p o : thread_step ch m ths i p = Some o -> worker (o_pc o) = worker p.
Proof. intros Ho. destruct p; try destruct c; split_step Ho; clear; weight. Qed.

Lemma worker_wake p : worker (wake p) = worker p.
Proof. destruct p; weight. Qed.

Lemma worker_inv s : reachable s -> weigh worker (threads s) = 1.
Proof.
  intros Hs. weights worker worker true true (fun (_ : mem) n (_ : Z) => n = 1) Hs; [side | | side ..].
  step_intro. unfold after. rewrite (worker_step _ _ _ _ _ _ Ho), andb_false_r. lia.
Qed.

(** The worker is the first thread. *)
Lemma worker_first s : reachable s -> exists p, threads s !! 0%nat = Some p /\ worker p = 1.
Proof.
  intros Hs. pattern s. refine (rtc_ind_r _ _ _ _ _ Hs); clear s Hs; [by eexists |].
  intros s s' Hs [a Ha] (p & Hp & Hw). destruct a as [t | | i ch | i |]; cbn in Ha.
  - injection Ha as <-. cbn [threads]. exists p. by rewrite lookup_app_l by (by eapply lookup_lt_Some).
  - injection Ha as <-. cbn [threads]. exists p. by rewrite lookup_app_l by (by eapply lookup_lt_Some).
  - destruct (threads s !! i) as [q |] eqn:Hi; cbn in Ha; [| done].
    destruct (thread_step _ _ _ _ _) as [o |] eqn:Ho; cbn in Ha; [| done]. injection Ha as <-. cbn [threads].
    assert (Hq : i = 0%nat -> worker (o_pc o) = 1).
    { intros ->. rewrite Hi in Hp. injection Hp as ->. by rewrite (worker_step _ _ _ _ _ _ Ho). }
    assert (Hl : exists p', <[i := o_pc o]> (threads s) !! 0%nat = Some p' /\ worker p' = 1).
    { destruct (decide (i = 0%nat)) as [-> | Hne].
      - rewrite list_lookup_insert_eq by (by eapply lookup_lt_Some). eauto.
      - rewrite list_lookup_insert_ne by done. eauto. }
    destruct Hl as (p' & Hl & Hp'). destruct (o_notify o); [| eauto].
    exists (wake p'). rewrite list_lookup_fmap, Hl. by rewrite worker_wake.
  - destruct (threads s !! i) as [q |] eqn:Hi; cbn in Ha; [| done]. injection Ha as <-. cbn [threads].
    destruct (decide (i = 0%nat)) as [-> | Hne].
    + rewrite list_lookup_insert_eq by (by eapply lookup_lt_Some). exists (wake q).
      rewrite worker_wake. rewrite Hi in Hp. by injection Hp as ->.
    + rewrite list_lookup_insert_ne by done. eauto.
  - destruct (mtx_ (memory s)), (stopping_ (memory s)); try done. injection Ha as <-. eauto.
Qed.

(** ** The phases of [Stop] *)

(** [mtx_] is held by the one thread that stops the worker. *)
Lemma holder_inv s : reachable s -> weigh holder (threads s) = if mtx_ (memory s) then 1 else 0.
Proof.
  intros Hs. weights holder holder true true (fun m n (_ : Z) => n = if mtx_ m then 1 else 0) Hs; [side | | side ..].
  step_intro. clear Hs Hi Ef Eg. destruct p; split_step Ho; weight.
Qed.

Lemma moved_inv s : reachable s -> 0 < weigh counted_up (threads s) -> moved (memory s) = true.
Proof.
  intros Hs. weights counted_up counted_up true true (fun m n (_ : Z) => 0 < n -> moved m = true) Hs;
    [side | | clear; intros m [] *; cbn; auto | auto].
  step_intro. clear Hs Hi Ef Eg. destruct p; split_step Ho; weight; by_inv.
Qed.

(** A [Stop] that has returned. *)
#[export] Instance event_eq_dec : EqDecision event.
Proof. solve_decision. Defined.

Definition stops (l : list event) : Z := zlen (filter (fun e => e = EvStopped) l).

Lemma stops_snoc l e : stops (l ++ [e]) = stops l + if decide (e = EvStopped) then 1 else 0.
Proof. unfold stops. rewrite list.filter_app, zlen_app, filter_cons. by case_decide. Qed.

Lemma stops_pos l : EvStopped ∈ l -> 0 < stops l.
Proof.
  intros He. unfold stops. assert (EvStopped ∈ filter (fun e => e = EvStopped) l) as Hf by (by apply list_elem_of_filter).
  destruct (filter _ l); [by apply not_elem_of_nil in Hf | zlia].
Qed.

(** One call stops the worker, once. *)
Lemma stops_inv s :
  reachable s ->
  weigh in_stop (threads s) + stops (log (memory s)) = (if stopping_ (memory s) then 1 else if moved (memory s) then 1 else 0) /\
  (mtx_ (memory s) = false -> stopping_ (memory s) = true -> moved (memory s) = true).
Proof.
  intros Hs. weights in_stop in_stop true true (fun m n (_ : Z) =>
    n + stops (log m) = (if stopping_ m then 1 else if moved m then 1 else 0) /\
    (mtx_ m = false -> stopping_ m = true -> moved m = true)) Hs.
  - done.
  - step_intro. destruct Hinv as [H1 H2].
    assert (Hm : counted_up p = 1 -> moved (memory s) = true).
    { intros Hc. apply (moved_inv _ Hs). pose proof (weigh_at counted_up _ _ _ ltac:(by_weight) Hi). lia. }
    pose proof (zlen_nonneg (filter (fun e => e = EvStopped) (log (memory s)))) as Hnn. fold (stops (log (memory s))) in Hnn.
    clear Hs Hi Ef Eg. destruct p; split_step Ho; cbn [stopping_ moved mtx_ log set_field set_stopping_ set_moved set_mtx_ set_log] in *;
      rewrite ?stops_snoc; try rewrite decide_False by done; split; weight; auto; try (intros Hx Hy; specialize (H2 Hx Hy); congruence).
  - clear. intros m [] *; cbn; auto.
  - clear. intros s Rf Rg _ _ _ Hm Hst [H1 H2]. cbn. split; [| done]. by rewrite (H2 Hm Hst), Hst in *.
Qed.

Lemma stopped_snoc l e : EvStopped ∈ l ++ [e] <-> EvStopped ∈ l \/ e = EvStopped.
Proof. rewrite elem_of_app, list_elem_of_singleton. naive_solver. Qed.

(** What the thread at hand says of the flags. *)
Lemma at_moved s i p : reachable s -> threads s !! i = Some p -> counted_up p = 1 -> moved (memory s) = true.
Proof.
  intros Hs Hi Hc. apply (moved_inv _ Hs). pose proof (weigh_at counted_up _ _ _ ltac:(by_weight) Hi). lia.
Qed.

Lemma stopped_moved s : reachable s -> EvStopped ∈ log (memory s) -> moved (memory s) = true.
Proof.
  intros Hs. weights posting posting true true (fun m (_ _ : Z) => EvStopped ∈ log m -> moved m = true) Hs; [by intros ?%not_elem_of_nil | | auto ..].
  step_intro. pose proof (at_moved _ _ _ Hs Hi) as Hm.
  clear Hs Hi Ef Eg. cases_pc p; split_step Ho; cbn; rewrite ?stopped_snoc; auto; try (intros [? | ?]; auto; discriminate); intros Hn; by apply Hinv in Hn.
Qed.

(** From its unlocking of [mtx_] on nobody is accepted. *)
Lemma accepting_inv s :
  reachable s -> 0 < weigh unlocked (threads s) \/ EvStopped ∈ log (memory s) -> accepting (memory s) = false.
Proof.
  intros Hs. weights unlocked unlocked true true
    (fun m n (_ : Z) => 0 < n \/ EvStopped ∈ log m -> accepting m = false) Hs.
  - intros [? | ?%not_elem_of_nil]; weight.
  - step_intro. clear Hs Hi Ef Eg.
    cases_pc p; split_step Ho; unfold unlocked in *; cbn in *; rewrite ?stopped_snoc; auto; intros Hn;
      apply Hinv; destruct_or? Hn; try discriminate Hn; solve [by right | left; lia].
  - clear. intros m [] *; cbn; auto.
  - auto.
Qed.

(** Weights of the worker's thread alone. *)
Lemma only_worker h s i p :
  (forall q, 0 <= h q <= worker q) -> reachable s -> threads s !! i = Some p -> worker p = 1 ->
  weigh h (threads s) = h p.
Proof.
  intros Hh Hs Hi Hw. destruct (weigh_split h _ _ _ Hi) as [-> _]. destruct (weigh_split worker _ _ _ Hi) as [E _].
  rewrite (worker_inv _ Hs) in E. pose proof (weigh_le h worker (delete i (threads s)) ltac:(intros q; apply Hh)).
  assert (0 <= weigh h (delete i (threads s))) by (apply weigh_nonneg; intros q; apply Hh). lia.
Qed.

Ltac below := let q := fresh in intros q; destruct q; try match goal with c : stopper |- _ => destruct c | k : test |- _ => destruct k end; cbn; lia.

(** ** No wakeup is lost *)

(** A worker that sleeps although it should not is about to be notified. *)
Lemma notify_inv s :
  reachable s -> 0 < weigh asleep (threads s) -> wake_pending (memory s) = true -> 0 < weigh notifier (threads s).
Proof.
  intros Hs. weights asleep notifier false true (fun m nf ng => 0 < nf -> wake_pending m = true -> 0 < ng) Hs; [side | | | auto].
  - step_intro. clear Hs Hi Ef Eg. cases_pc p; split_step Ho; weight; auto.
  - clear. intros m p Rf Rg HRf HRg Hinv Hn. destruct p; weight; auto. apply Hinv. lia.
Qed.

(** Posts that find the queue empty, or look empty, are going to wake the worker. *)
Lemma waker_inv s :
  reachable s -> 0 < weigh idle (threads s) -> wake_pending (memory s) = false -> queue (memory s) <> [] ->
  0 < weigh waker (threads s).
Proof.
  intros Hs. weights idle waker true true
    (fun m nf ng => 0 < nf -> wake_pending m = false -> queue m <> [] -> 0 < ng) Hs; [side | | clear; intros m [] *; cbn; auto | auto].
  step_intro.
  assert (Hidle : worker p = 1 -> idle p + Rf = idle p).
  { intros Hw. rewrite <- Ef. apply (only_worker idle _ _ _ ltac:(below) Hs Hi Hw). }
  assert (Hhead : PopAndCheckEnd (threads s) (queue (memory s)) = Empty -> queue (memory s) <> [] -> 0 < waker p + Rg).
  { rewrite <- Eg. clear. intros [? | (j & Hj)]%pop_Empty Hq; [done |].
    pose proof (weigh_at waker _ _ _ ltac:(by_weight) Hj). cbn in *. lia. }
  clear Hs Hi Ef Eg.
  cases_pc p; split_step Ho; unfold worker, idle, waker in *; cbn in *; intros Hn Hp Hq;
    try (specialize (Hidle eq_refl); lia); try congruence; try (apply Hinv; done || lia); auto.
  - case_bool_decide; cbn; [lia |]. assert (0 < 0 + Rg) by auto. destruct ch; lia.
  - apply Hinv; [done | done |]. by rewrite E.
Qed.

(** ** The end of the worker *)

(** A worker that has been told to stop does not go to sleep on it. *)
Lemma waiting_inv s :
  reachable s -> 0 < weigh woken (threads s) -> 0 < weigh waiting (threads s) -> wake_pending (memory s) = true.
Proof.
  intros Hs. weights woken waiting true true (fun m nf ng => 0 < nf -> 0 < ng -> wake_pending m = true) Hs;
    [side | | clear; intros m [] *; cbn; auto | auto].
  step_intro.
  assert (Hw : worker p = 1 -> waiting p + Rg = waiting p).
  { intros Hw. rewrite <- Eg. apply (only_worker waiting _ _ _ ltac:(below) Hs Hi Hw). }
  assert (Hm : 0 < woken p + Rf -> moved (memory s) = true).
  { rewrite <- Ef. intros Hn. apply (moved_inv _ Hs). pose proof (weigh_le woken counted_up (threads s) ltac:(by_weight)). lia. }
  clear Hs Hi Ef Eg. cases_pc p; split_step Ho; unfold worker, woken, waiting in *; cbn in *; intros Hn Hg;
    try (specialize (Hw eq_refl); lia); try congruence; try (apply Hinv; done || lia); auto.
  specialize (Hm Hn). congruence.
Qed.

(** [Stop] sleeps only while there are posts in flight, or one of them is about to notify
    it. *)
Lemma stop_notify_inv s :
  reachable s -> 0 < weigh stop_asleep (threads s) -> 0 < active_posts (memory s) \/ 0 < weigh stop_notifier (threads s).
Proof.
  intros Hs. weights stop_asleep stop_notifier false true
    (fun m nf ng => 0 < nf -> 0 < active_posts m \/ 0 < ng) Hs; [side | | | auto].
  - step_intro.
    assert (Ha : 0 <= active_posts (memory s)) by (rewrite (worker_posting_inv _ Hs); apply weigh_nonneg; by_weight).
    assert (Hacc : 0 < stop_asleep p + Rf -> accepting (memory s) = false).
    { rewrite <- Ef. intros Hn. apply (accepting_inv _ Hs). left.
      pose proof (weigh_le stop_asleep unlocked (threads s) ltac:(by_weight)). lia. }
    clear Hs Hi Ef Eg. cases_pc p; split_step Ho; unfold stop_asleep, stop_notifier in *; cbn in *; intros Hn; zbool; try lia;
      try (specialize (Hinv Hn); lia). specialize (Hacc Hn). congruence.
  - clear. intros m p Rf Rg HRf HRg Hinv Hn. destruct p; cbn in *; auto; lia.
Qed.

(** While [Stop] empties the queue, and afterwards, nobody pushes. *)
Lemma pushing_inv s :
  reachable s -> 0 < weigh draining (threads s) \/ EvStopped ∈ log (memory s) -> weigh pushing (threads s) = 0.
Proof.
  intros Hs. weights draining pushing true true (fun m nf ng => 0 < nf \/ EvStopped ∈ log m -> ng = 0) Hs;
    [side | | clear; intros m [] *; cbn; auto | auto].
  step_intro.
  assert (Hp : active_posts (memory s) = 0 -> pushing p + Rg = 0).
  { rewrite <- Eg, (worker_posting_inv _ Hs). intros E.
    pose proof (weigh_le pushing posting (threads s) ltac:(by_weight)). pose proof (weigh_nonneg pushing (threads s) ltac:(by_weight)). lia. }
  assert (Hacc : 0 < draining p + Rf \/ EvStopped ∈ log (memory s) -> accepting (memory s) = false).
  { rewrite <- Ef. intros [Hn | Hn]; apply (accepting_inv _ Hs); [left | by right].
    pose proof (weigh_le draining unlocked (threads s) ltac:(by_weight)). lia. }
  clear Hs Hi Ef Eg. cases_pc p; split_step Ho; unfold draining, pushing in *; cbn in *; rewrite ?stopped_snoc;
    intros Hn; destruct_or? Hn; try discriminate Hn; zbool; try (apply Hp; done);
    try (specialize (Hinv ltac:(solve [by right | left; lia])); try done; try lia);
    rewrite Hacc in E by (solve [by right | left; lia]); done.
Qed.

(** A [Stop] that has returned leaves an empty queue. *)
Lemma stopped_queue s : reachable s -> EvStopped ∈ log (memory s) -> queue (memory s) = [].
Proof.
  intros Hs. weights pushing pushing true true (fun m (_ _ : Z) => EvStopped ∈ log m -> queue m = []) Hs;
    [by intros ?%not_elem_of_nil | | auto ..].
  step_intro.
  assert (Hp : 0 < draining p \/ EvStopped ∈ log (memory s) -> weigh pushing (threads s) = 0).
  { intros Hn. apply (pushing_inv _ Hs). destruct Hn as [Hn | Hn]; [left | by right].
    pose proof (weigh_at draining _ _ _ ltac:(by_weight) Hi). lia. }
  assert (Hlink : forall j, threads s !! j = Some (PLink true) -> weigh pushing (threads s) = 0 -> False).
  { intros j Hj. pose proof (weigh_at pushing _ _ _ ltac:(by_weight) Hj). cbn in *. lia. }
  rewrite Ef in Hp.
  clear Hs Hi Eg. cases_pc p; split_step Ho; cbn in *; rewrite ?stopped_snoc; auto;
    intros Hn; destruct_or? Hn; try discriminate Hn; auto; try (rewrite Hinv in * by done; done).
  all: try (specialize (Hp (or_intror Hn)); lia).
  all: apply pop_Empty in E as [? | [j Hj]]; [done |]; destruct (Hlink j Hj); rewrite Ef; apply Hp; by left.
Qed.

(** When [Stop] has joined the worker, or has detached it, nobody else takes tasks. *)
Lemma working_inv s :
  reachable s -> 0 < weigh joined (threads s) \/ EvStopped ∈ log (memory s) -> weigh working (threads s) = 0.
Proof.
  intros Hs. weights joined working true true (fun m nf ng => 0 < nf \/ EvStopped ∈ log m -> ng = 0) Hs;
    [intros [? | ?%not_elem_of_nil]; done | | | auto].
  - step_intro.
    assert (Hw : worker p = 1 -> working p + Rg = working p).
    { intros Hw. rewrite <- Eg. apply (only_worker working _ _ _ ltac:(below) Hs Hi Hw). }
    assert (H0 : threads s !! 0%nat = Some WDone -> working p + Rg = 0).
    { intros H0. rewrite <- Eg. apply (only_worker working _ _ _ ltac:(below) Hs H0 eq_refl). }
    assert (Hm : 0 < joined p + Rf \/ EvStopped ∈ log (memory s) -> moved (memory s) = true).
    { rewrite <- Ef. intros [Hn | Hn]; [apply (moved_inv _ Hs) | by apply (stopped_moved _ Hs)].
      pose proof (weigh_le joined counted_up (threads s) ltac:(by_weight)). lia. }
    clear Hs Hi Ef Eg. cases_pc p; split_step Ho; unfold worker, joined, working in *; cbn in *; rewrite ?stopped_snoc;
      intros Hn; destruct_or? Hn; try discriminate Hn; try (by apply H0); try (by apply Hw);
      try (apply Hinv; solve [by right | left; lia]).
    all: try (specialize (Hw eq_refl); lia).
    all: specialize (Hm ltac:(solve [by right | left; lia])); congruence.
  - clear. intros m [] *; cbn; auto.
Qed.

(** At most one thread waits on [cv]. *)
Lemma one_waiter s : reachable s -> weigh asleep (threads s) + weigh stop_asleep (threads s) <= 1.
Proof.
  intros Hs. pose proof (weigh_le asleep working (threads s) ltac:(by_weight)).
  pose proof (weigh_le working worker (threads s) ltac:(below)).
  pose proof (weigh_le stop_asleep joined (threads s) ltac:(by_weight)).
  pose proof (weigh_le joined in_stop (threads s) ltac:(by_weight)).
  pose proof (worker_inv _ Hs). destruct (stops_inv _ Hs) as [Hst _].
  pose proof (zlen_nonneg (filter (fun e => e = EvStopped) (log (memory s)))) as Hn. fold (stops (log (memory s))) in Hn.
  assert (0 <= weigh stop_asleep (threads s)) by (apply weigh_nonneg; by_weight).
  destruct (Z_lt_le_dec 0 (weigh joined (threads s))) as [Hj | Hj].
  - rewrite (working_inv _ Hs) in * by (by left). repeat case_match; lia.
  - lia.
Qed.

(** ** Order *)

Definition pushed (l : list event) : list task := omap (fun e => match e with EvPush t => Some t | _ => None end) l.

(** Tasks that were run, or deleted by a worker or a pool that stops. *)
Definition finished (l : list event) : list task :=
  omap (fun e => match e with EvRun t | EvDelete t => Some t | _ => None end) l.

Definition ran (l : list event) : list task := omap (fun e => match e with EvRun t => Some t | _ => None end) l.

(** The task the worker has taken and not yet called. *)
Definition hand (p : pc) : list task :=
  match p with WGeneration (TNode t) | WStopping (TNode t) | WCall t => [t] | _ => [] end.

Definition in_hand (ths : list pc) : list task := match ths !! 0%nat with Some p => hand p | None => [] end.

Definition fifo (m : mem) (h : list task) : Prop := pushed (log m) = finished (log m) ++ h ++ (snd <$> queue m).

Lemma fifo_snoc m m' e h h' :
  fifo m h -> log m' = log m ++ [e] ->
  match e with
  | EvPush t => h' = h /\ (snd <$> queue m') = (snd <$> queue m) ++ [t]
  | EvRun t | EvDelete t => h ++ (snd <$> queue m) = t :: h' ++ (snd <$> queue m')
  | EvStopped => h' = h /\ queue m' = queue m
  end -> fifo m' h'.
Proof.
  unfold fifo, pushed, finished. intros Hf -> He. rewrite !omap_app, Hf.
  destruct e; cbn; [destruct He as [-> ->] | rewrite He | rewrite He | destruct He as [-> ->]]; rewrite ?app_nil_r, <- ?app_assoc; done.
Qed.

(** The thread at hand is the worker, and it is the first one, or it holds nothing. *)
Lemma worker_at s i p : reachable s -> threads s !! i = Some p -> worker p = if decide (i = 0%nat) then 1 else 0.
Proof.
  intros Hs Hi. destruct (worker_first _ Hs) as (p0 & H0 & Hw). case_decide as E; [congruence |].
  destruct (weigh_split worker _ _ _ H0) as [E0 _]. rewrite (worker_inv _ Hs), Hw in E0.
  assert (Hd : exists k, delete 0%nat (threads s) !! k = Some p).
  { exists (pred i). rewrite list_lookup_delete_ge by lia. by replace (S (pred i)) with i by lia. }
  destruct Hd as [k Hk]. pose proof (weigh_at worker _ _ _ ltac:(below) Hk).
  assert (0 <= worker p) by (revert p Hi Hk H; clear; intros p _ _ _; revert p; below). lia.
Qed.

Lemma worker_fifo_step s ch i p o :
  reachable s -> threads s !! i = Some p -> thread_step ch (memory s) (threads s) i p = Some o ->
  fifo (memory s) (in_hand (threads s)) -> fifo (o_mem o) (in_hand (<[i := o_pc o]> (threads s))).
Proof.
  intros Hs Hi Ho Hf. pose proof (worker_at _ _ _ Hs Hi) as Hw.
  assert (Hjoin : 0 < joined p -> i <> 0%nat -> in_hand (threads s) = []).
  { intros Hj Hne. destruct (worker_first _ Hs) as (p0 & H0 & Hw0). unfold in_hand. rewrite H0.
    pose proof (only_worker working _ _ _ ltac:(below) Hs H0 Hw0) as E. rewrite (working_inv _ Hs) in E.
    - revert E. clear. cases_pc p0; done.
    - left. pose proof (weigh_at joined _ _ _ ltac:(by_weight) Hi). lia. }
  assert (Hh : in_hand (<[i := o_pc o]> (threads s)) = if decide (i = 0%nat) then hand (o_pc o) else in_hand (threads s)).
  { unfold in_hand. case_decide; [subst; by rewrite list_lookup_insert_eq by (by eapply lookup_lt_Some) |].
    by rewrite list_lookup_insert_ne. }
  assert (Hh0 : i = 0%nat -> in_hand (threads s) = hand p) by (intros ->; unfold in_hand; by rewrite Hi).
  rewrite Hh. clear Hh Hs Hi. case_decide as Hz.
  - rewrite Hh0 in Hf by done. clear Hh0 Hjoin.
    cases_pc p; split_step Ho; try discriminate Hw; try exact Hf; try (eapply fifo_snoc; [exact Hf | reflexivity |]); cbn; try done.
    + unfold fifo in *. by rewrite E in Hf.
    + by rewrite E.
  - cases_pc p; split_step Ho; try discriminate Hw; try exact Hf; try (eapply fifo_snoc; [exact Hf | reflexivity |]); cbn; try done.
    + by rewrite fmap_app.
    + rewrite Hjoin, E by done. done.
Qed.

Lemma in_hand_wake ths : in_hand (wake <$> ths) = in_hand ths.
Proof. unfold in_hand. rewrite list_lookup_fmap. by destruct (ths !! 0%nat) as [[] |]. Qed.

Lemma worker_fifo_inv s : reachable s -> fifo (memory s) (in_hand (threads s)).
Proof.
  intros Hs. pattern s. refine (rtc_ind_r _ _ _ _ _ Hs); clear s Hs; [done |].
  intros s s' Hs [a Ha] IH. destruct (worker_first _ Hs) as (p0 & H0 & _).
  assert (Happ : forall k, in_hand (threads s ++ k) = in_hand (threads s)).
  { intros k. unfold in_hand. by rewrite lookup_app_l by (by eapply lookup_lt_Some). }
  destruct a as [t | | i ch | i |]; cbn in Ha.
  - injection Ha as <-. cbn [memory threads]. by rewrite Happ.
  - injection Ha as <-. cbn [memory threads]. by rewrite Happ.
  - destruct (threads s !! i) as [p |] eqn:Hi; cbn in Ha; [| done].
    destruct (thread_step _ _ _ _ _) as [o |] eqn:Ho; cbn in Ha; [| done]. injection Ha as <-. cbn [memory threads].
    destruct (o_notify o); rewrite ?in_hand_wake; by eapply worker_fifo_step.
  - destruct (threads s !! i) as [p |] eqn:Hi; cbn in Ha; [| done]. injection Ha as <-. cbn [memory threads].
    unfold in_hand in *. destruct (decide (i = 0%nat)) as [-> | Hne].
    + rewrite list_lookup_insert_eq by (by eapply lookup_lt_Some). rewrite Hi in IH. by destruct p.
    + by rewrite list_lookup_insert_ne.
  - destruct (mtx_ (memory s)), (stopping_ (memory s)); try done. injection Ha as <-. exact IH.
Qed.

(** ** Deadlock *)

(** Where a thread can be when it cannot go on. *)
Definition blocked (m : mem) (ths : list pc) (p : pc) : Prop :=
  match p with
  | WSleep | WDone | SSleep _ | Done => True
  | SStart _ => mtx_ m = true
  | SJoin Other => ths !! 0%nat <> Some WDone
  | WPop | SDrain _ => exists j, ths !! j = Some (PLink false)
  | _ => False
  end.

Lemma pop_Retry ths q : PopAndCheckEnd ths q = Retry -> exists j, ths !! j = Some (PLink false).
Proof.
  destruct q as [| [i t] q]; [done |]. cbn. unfold linking. intros Hp.
  destruct (ths !! i) as [[] |] eqn:Hi; try destruct q as [| [j u] q]; repeat case_match; simplify_eq; eauto.
Qed.

Lemma stuck_blocked m ths i p : (forall ch, thread_step ch m ths i p = None) -> blocked m ths p.
Proof.
  intros Hn. specialize (Hn false). unfold thread_step, should_stop, goto, notify in Hn.
  destruct p; cbn; try (repeat case_match; done); repeat case_match; try done; try congruence; by eapply pop_Retry.
Qed.

Definition gone (p : pc) : Z := match p with WDone => 1 | _ => 0 end.

(** The worker returns only when it is told to. *)
Lemma gone_inv s : reachable s -> 0 < weigh gone (threads s) -> moved (memory s) = true \/ stopping_ (memory s) = true.
Proof.
  intros Hs. weights gone gone true true (fun m n (_ : Z) => 0 < n -> moved m = true \/ stopping_ m = true) Hs;
    [side | | clear; intros m [] *; cbn; auto |].
  - step_intro. clear Hs Hi Ef Eg. cases_pc p; split_step Ho; unfold gone in *; cbn in *; auto.
  - clear. intros s Rf Rg Hs _ _ Hm Hst _ _. left. by apply (stops_inv _ Hs).
Qed.

Lemma stops_elem l : 0 < stops l -> EvStopped ∈ l.
Proof.
  unfold stops. intros Hl. destruct (filter (fun e => e = EvStopped) l) as [| e l'] eqn:E; [done |].
  assert (He : e ∈ filter (fun e => e = EvStopped) l) by (rewrite E; left).
  by apply list_elem_of_filter in He as [-> ?].
Qed.

Section Stuck.
Context (s : sys) (Hs : reachable s) (Hstuck : forall i ch, act (ARun i ch) s = None).

Lemma stuck_at i p : threads s !! i = Some p -> blocked (memory s) (threads s) p.
Proof.
  intros Hi. apply (stuck_blocked _ _ i). intros ch. specialize (Hstuck i ch). cbn in Hstuck. rewrite Hi in Hstuck. cbn in Hstuck.
  by destruct (thread_step _ _ _ _ _).
Qed.

(** Nobody is at a place where a thread can go on. *)
Lemma stuck_none h : (forall m ths p, blocked m ths p -> h p = 0) -> weigh h (threads s) = 0.
Proof. intros Hh. apply weigh_none. intros p (i & Hi)%list_elem_of_lookup. by eapply Hh, stuck_at. Qed.

Ltac none := apply stuck_none; clear; intros m ths []; cbn; done.

Lemma stuck_thread i p : threads s !! i = Some p -> p = Done \/ p = WDone \/ p = WSleep.
Proof.
  assert (Hpost : weigh posting (threads s) = 0) by none.
  assert (Hnot : weigh notifier (threads s) = 0) by none.
  assert (Hsn : weigh stop_notifier (threads s) = 0) by none.
  assert (Hhold : weigh holder (threads s) = 0) by none.
  assert (Hsleep : forall j c, threads s !! j <> Some (SSleep c)).
  { intros j c Hj. pose proof (weigh_at stop_asleep _ _ _ ltac:(by_weight) Hj) as Hw. cbn in Hw.
    destruct (stop_notify_inv _ Hs ltac:(lia)); [rewrite (worker_posting_inv _ Hs) in *|]; lia. }
  assert (Hmtx : mtx_ (memory s) = false) by (pose proof (holder_inv _ Hs); destruct (mtx_ (memory s)); [lia | done]).
  assert (Hlink : forall j, threads s !! j <> Some (PLink false)) by (by intros j ?%stuck_at).
  intros Hi. pose proof (stuck_at _ _ Hi) as Hb. destruct p; cbn in Hb; try done; auto.
  - destruct Hb as [j Hj]. by destruct (Hlink j).
  - congruence.
  - destruct c; [done |]. destruct (worker_first _ Hs) as (p0 & H0 & Hw). pose proof (stuck_at _ _ H0) as Hb0.
    assert (p0 = WSleep) as ->.
    { destruct p0; cbn in Hb0, Hw; try done; try (destruct c; done); try congruence;
        [destruct Hb0 as [j Hj]; by destruct (Hlink j) | by destruct (Hsleep 0%nat c) |
         destruct Hb0 as [j Hj]; by destruct (Hlink j)]. }
    pose proof (weigh_at asleep _ _ _ ltac:(by_weight) H0) as Ha. pose proof (weigh_at waiting _ _ _ ltac:(by_weight) H0) as Hwt.
    pose proof (weigh_at woken _ _ _ ltac:(by_weight) Hi) as Hwo. cbn in Ha, Hwt, Hwo.
    pose proof (notify_inv _ Hs ltac:(lia) (waiting_inv _ Hs ltac:(lia) ltac:(lia))). lia.
  - by destruct (Hsleep i c).
  - destruct Hb as [j Hj]. by destruct (Hlink j).
Qed.

Lemma stuck_stops : stops (log (memory s)) = if moved (memory s) then 1 else 0.
Proof.
  destruct (stops_inv _ Hs) as [Hst Hmv]. assert (weigh in_stop (threads s) = 0) as E.
  { apply weigh_none. intros p (i & Hi)%list_elem_of_lookup. by destruct (stuck_thread _ _ Hi) as [-> | [-> | ->]]. }
  assert (Hmtx : mtx_ (memory s) = false).
  { pose proof (holder_inv _ Hs). pose proof (weigh_le holder in_stop (threads s) ltac:(by_weight)).
    destruct (mtx_ (memory s)); [lia | done]. }
  specialize (Hmv Hmtx). destruct (stopping_ (memory s)), (moved (memory s)); lia.
Qed.

End Stuck.
