(* ===== verification/WorkerTheorems.v ===== *)
(** * A worker of the pool: theorems

    What the invariants of [WorkerProofs.v] say about a worker and the threads that use
    it, and runs on concrete inputs. *)

From S2P Require Import Prelude Worker WorkerProofs.

(** ** Before the theorems *)

(** The threads inside [PopTask]: the queue is made for one. *)
Definition consuming (p : pc) : Z := match p with WPop | SDrain _ => 1 | _ => 0 end.

Definition popping (p : pc) : Z := match p with WPop => 1 | _ => 0 end.

Lemma weigh_plus f g (l : list pc) : weigh (fun p => f p + g p) l = weigh f l + weigh g l.
Proof. unfold weigh. induction l; cbn; lia. Qed.

Lemma worker_finished_ran l : (forall t, EvDelete t ∉ l) -> ran l = finished l.
Proof.
  unfold ran, finished. induction l as [| e l IH]; intros Hd; [done |]. cbn. rewrite IH by set_solver.
  destruct e; try done. set_solver.
Qed.

(** Tasks are deleted only when the pool stops. *)
Lemma deleted_inv s :
  reachable s -> (exists t, EvDelete t ∈ log (memory s)) -> moved (memory s) = true \/ stopping_ (memory s) = true.
Proof.
  intros Hs. weights gone gone true true
    (fun m (_ _ : Z) => (exists t, EvDelete t ∈ log m) -> moved m = true \/ stopping_ m = true) Hs.
  - by intros [t ?%not_elem_of_nil].
  - step_intro. pose proof (at_moved _ _ _ Hs Hi) as Hm. clear Hs Hi Ef Eg.
    cases_pc p; split_step Ho; cbn in *; auto; intros [u Hu]; rewrite ?elem_of_app, ?list_elem_of_singleton in Hu; naive_solver.
  - auto.
  - clear. intros s Rf Rg Hs _ _ Hm Hst _ _. left. by apply (stops_inv _ Hs).
Qed.

(** A [Stop] that has returned is the last event. *)
Lemma stopped_last s : reachable s -> EvStopped ∈ log (memory s) -> list.last (log (memory s)) = Some EvStopped.
Proof.
  intros Hs. weights gone gone true true (fun m (_ _ : Z) => EvStopped ∈ log m -> list.last (log m) = Some EvStopped) Hs;
    [by intros ?%not_elem_of_nil | | auto ..].
  step_intro.
  assert (Hp : EvStopped ∈ log (memory s) -> pushing p = 0 /\ working p = 0 /\ draining p = 0).
  { intros Hn. pose proof (pushing_inv _ Hs (or_intror Hn)). pose proof (working_inv _ Hs (or_intror Hn)).
    pose proof (weigh_at pushing _ _ _ ltac:(by_weight) Hi). pose proof (weigh_at working _ _ _ ltac:(below) Hi).
    pose proof (weigh_at draining _ _ _ ltac:(by_weight) Hi). pose proof (stops_pos _ Hn). destruct (stops_inv _ Hs) as [Hst _].
    pose proof (weigh_le draining in_stop (threads s) ltac:(by_weight)).
    assert (0 <= pushing p /\ 0 <= working p /\ 0 <= draining p) by (clear; cases_pc p; done).
    repeat case_match; lia. }
  clear Hs Hi Ef Eg. cases_pc p; split_step Ho; cbn in *; auto; rewrite ?stopped_snoc, ?last_snoc; auto;
    intros [Hn | ?]; try done; specialize (Hp Hn); lia.
Qed.

(** ** Theorems *)

(** The queue of a worker has one consumer: the worker and a [Stop] that empties the
    queue are never inside [PopTask] at the same time, also when a task stops the pool it
    runs on. *)
Theorem worker_single_consumer (s : sys) : reachable s -> weigh consuming (threads s) <= 1.
Proof.
  intros Hs. assert (E : weigh consuming (threads s) = weigh popping (threads s) + weigh draining (threads s)).
  { rewrite <- weigh_plus. unfold weigh. induction (threads s) as [| [] l IH]; cbn in *; lia. }
  pose proof (weigh_le popping working (threads s) ltac:(by_weight)).
  pose proof (weigh_le working worker (threads s) ltac:(below)). pose proof (worker_inv _ Hs).
  pose proof (weigh_le draining joined (threads s) ltac:(by_weight)).
  pose proof (weigh_le draining in_stop (threads s) ltac:(by_weight)). destruct (stops_inv _ Hs) as [Hst _].
  pose proof (zlen_nonneg (filter (fun e => e = EvStopped) (log (memory s)))) as Hn. fold (stops (log (memory s))) in Hn.
  destruct (Z_lt_le_dec 0 (weigh joined (threads s))) as [Hj | Hj]; [| lia].
  rewrite (working_inv _ Hs) in * by (by left). repeat case_match; lia.
Qed.

(** C15: A worker runs what was posted to it in the order of the posts and once: the tasks that
    were run or deleted are the first of those accepted, and none was deleted unless the
    pool stops. *)
Theorem worker_in_order (s : sys) :
  reachable s ->
  finished (log (memory s)) `prefix_of` pushed (log (memory s)) /\
  (moved (memory s) = false -> stopping_ (memory s) = false -> ran (log (memory s)) = finished (log (memory s))).
Proof.
  intros Hs. split; [eexists; apply (worker_fifo_inv _ Hs) |]. intros Hm Hst. apply worker_finished_ran. intros t Ht.
  destruct (deleted_inv _ Hs); [eauto | congruence ..].
Qed.

(** C16: [Stop] leaves nothing behind: when it has returned every task that was accepted has been
    run or deleted, no thread is going to push another one, and nothing happens to this
    worker any more. *)
Theorem worker_stop_complete (s : sys) :
  reachable s -> EvStopped ∈ log (memory s) ->
  finished (log (memory s)) = pushed (log (memory s)) /\ queue (memory s) = [] /\
  weigh pushing (threads s) = 0 /\ list.last (log (memory s)) = Some EvStopped.
Proof.
  intros Hs Hn. pose proof (worker_fifo_inv _ Hs) as Hf. unfold fifo in Hf. rewrite (stopped_queue _ Hs Hn) in Hf.
  assert (in_hand (threads s) = []) as Hh.
  { destruct (worker_first _ Hs) as (p0 & H0 & Hw). unfold in_hand. rewrite H0.
    pose proof (only_worker working _ _ _ ltac:(below) Hs H0 Hw) as E. rewrite (working_inv _ Hs (or_intror Hn)) in E.
    revert E. clear. cases_pc p0; done. }
  rewrite Hh, app_nil_r in Hf. split_and!; [done | by apply stopped_queue | by apply pushing_inv; auto | by apply stopped_last].
Qed.

(** C22: No wakeup is lost and [Stop] does not hang: if no thread can go on then every post and
    every [Stop] has returned, every accepted task has been run or deleted, and the worker
    sleeps on an empty queue, or has returned if the pool was stopped. *)
Theorem worker_no_deadlock (s : sys) :
  reachable s -> (forall i ch, act (ARun i ch) s = None) ->
  (forall i p, threads s !! i = Some p ->
     p = if decide (i = 0%nat) then (if moved (memory s) then WDone else WSleep) else Done) /\
  queue (memory s) = [] /\ finished (log (memory s)) = pushed (log (memory s)) /\
  (moved (memory s) = true -> EvStopped ∈ log (memory s)).
Proof.
  intros Hs Hst. destruct (worker_first _ Hs) as (p0 & H0 & Hw0).
  pose proof (stuck_thread _ Hs Hst) as Hall. pose proof (stuck_stops _ Hs Hst) as Hstops.
  assert (Hstopped : moved (memory s) = true -> EvStopped ∈ log (memory s)).
  { intros E. apply stops_elem. rewrite Hstops, E. lia. }
  assert (Hzero : forall h, h Done = 0 -> h WDone = 0 -> h WSleep = 0 -> weigh h (threads s) = 0).
  { intros h H1 H2 H3. apply weigh_none. intros p (i & Hi)%list_elem_of_lookup. by destruct (Hall _ _ Hi) as [-> | [-> | ->]]. }
  assert (Hp0 : p0 = if moved (memory s) then WDone else WSleep).
  { destruct (Hall _ _ H0) as [-> | [-> | ->]]; [done | |].
    - pose proof (weigh_at gone _ _ _ ltac:(by_weight) H0) as Hg. cbn in Hg.
      destruct (gone_inv _ Hs ltac:(lia)) as [-> | E]; [done |]. destruct (stops_inv _ Hs) as [Hc _].
      rewrite (Hzero in_stop), E, Hstops in Hc by done. by destruct (moved (memory s)).
    - destruct (moved (memory s)); [| done]. pose proof (weigh_at working _ _ _ ltac:(below) H0) as Hg. cbn in Hg.
      pose proof (working_inv _ Hs (or_intror (Hstopped eq_refl))). lia. }
  assert (Hq : queue (memory s) = []).
  { destruct (moved (memory s)) eqn:E; [by apply (stopped_queue _ Hs); auto |]. subst p0.
    pose proof (weigh_at idle _ _ _ ltac:(below) H0) as Hi. pose proof (weigh_at asleep _ _ _ ltac:(by_weight) H0) as Ha. cbn in Hi, Ha.
    destruct (wake_pending (memory s)) eqn:Ew.
    - pose proof (notify_inv _ Hs ltac:(lia) Ew) as Hn. rewrite Hzero in Hn; done.
    - destruct (queue (memory s)) eqn:Eq; [done |].
      pose proof (waker_inv _ Hs ltac:(lia) Ew ltac:(by rewrite Eq)) as Hn. rewrite Hzero in Hn; done. }
  split_and!; [| done | | done].
  - intros i p Hi. pose proof (worker_at _ _ _ Hs Hi) as Hw. case_decide; [congruence |].
    by destruct (Hall _ _ Hi) as [-> | [-> | ->]].
  - pose proof (worker_fifo_inv _ Hs) as Hf. unfold fifo, in_hand in Hf. rewrite Hq, H0, Hp0 in Hf.
    destruct (moved (memory s)); cbn in Hf; by rewrite app_nil_r in Hf.
Qed.

(** ** Runs *)

Lemma worker_acts_reachable l s s' : reachable s -> acts l s = Some s' -> reachable s'.
Proof.
  revert s. induction l as [| a l IH]; intros s Hs Hl; [by injection Hl as <- |].
  cbn in Hl. destruct (act a s) as [s1 |] eqn:Ha; [| done]. apply (IH s1); [| done].
  eapply rtc_r; [exact Hs | by exists a].
Qed.

Definition steps (i : tid) (n : nat) : list action := replicate n (ARun i false).

(** Task 7 is posted to a sleeping worker, which runs it and sleeps again. *)
Definition post_and_run : list action := steps 0 1 ++ [APost 7] ++ steps 1 10 ++ steps 0 14.

(** Then a thread stops the pool. *)
Definition post_and_stop : list action := post_and_run ++ [AStop] ++ steps 2 6 ++ steps 0 2 ++ steps 2 3.

(** Task 8 is posted while the worker takes task 7; a task stops the pool with a third task
    in the queue. *)
Definition stop_from_task : list action :=
  [APost 7; APost 8; APost 9] ++ steps 1 10 ++ steps 2 7 ++ steps 0 7 ++ steps 3 7 ++ [ARun 0 true] ++ steps 0 11.

Definition asleep_again : sys := Eval vm_compute in default sys_init (acts post_and_run sys_init).
Definition all_stopped : sys := Eval vm_compute in default sys_init (acts post_and_stop sys_init).
Definition self_stopped : sys := Eval vm_compute in default sys_init (acts stop_from_task sys_init).

Lemma run_reachable l s : acts l sys_init = Some s -> reachable s.
Proof. apply worker_acts_reachable, rtc_refl. Qed.

Lemma asleep_again_reachable : reachable asleep_again.
Proof. apply (run_reachable post_and_run). by vm_compute. Qed.

Lemma all_stopped_reachable : reachable all_stopped.
Proof. apply (run_reachable post_and_stop). by vm_compute. Qed.

Lemma self_stopped_reachable : reachable self_stopped.
Proof. apply (run_reachable stop_from_task). by vm_compute. Qed.

Lemma worker_single_consumer_witness : weigh consuming (threads self_stopped) <= 1.
Proof. apply (worker_single_consumer self_stopped), self_stopped_reachable. Defined.

Lemma worker_in_order_witness :
  [7; 8; 9]%nat `prefix_of` [7; 8; 9]%nat /\ ran (log (memory asleep_again)) = [7]%nat.
Proof.
  split.
  - exact (proj1 (worker_in_order self_stopped self_stopped_reachable)).
  - exact (proj2 (worker_in_order asleep_again asleep_again_reachable) eq_refl eq_refl).
Defined.

Lemma worker_stop_complete_witness :
  finished (log (memory self_stopped)) = [7; 8; 9]%nat /\ list.last (log (memory self_stopped)) = Some EvStopped.
Proof.
  destruct (worker_stop_complete self_stopped self_stopped_reachable) as (H1 & _ & _ & H2).
  - do 6 right. left.
  - by split.
Defined.

Lemma worker_no_deadlock_witness :
  threads all_stopped = [WDone; Done; Done] /\ finished (log (memory all_stopped)) = [7]%nat /\
  EvStopped ∈ log (memory all_stopped).
Proof.
  destruct (worker_no_deadlock all_stopped all_stopped_reachable) as (_ & _ & H2 & H3).
  - intros [| [| [| i]]] ch; reflexivity.
  - split_and!; [reflexivity | exact H2 | by apply H3].
Defined.
