(* ===== verification/WorkerPool.v ===== *)
(** * The worker pool

    The pool as its callers see it: [Start], [Stop], [Post], [PickWorker] and
    [WorkerCount] of [src/net/worker_pool.cc]. Each of [Start] and [Stop] runs under
    [mtx_] up to the end of what it does to the members of the pool, so a call is one
    step; what happens between the threads of one worker is in [Worker.v].

    [threads] and [detached] are the world outside: every thread the pool has created, by the
    worker it runs, until it is joined; one that calls [Stop] itself is detached instead, and
    exists until it has returned from its task and seen that the pool has stopped. Creating a
    thread can throw. *)

From S2P Require Import Prelude.

(** A [WorkerState], by its name: the generation it was made for and its place. *)
Abbreviation worker := (Z * nat)%type.

Section WorkerPool.
Context `{SizeT}.

Record WorkerPool := Pool {
  stopping_ : bool;
  generation_ : Z;
  next_worker_ : Z;
  workers_ : list worker;
  accepting : gset worker;
  threads : gset worker;
  detached : gset worker
}.

#[export] Instance eta_pool : Eta WorkerPool := fun p =>
  Pool (stopping_ p) (generation_ p) (next_worker_ p) (workers_ p) (accepting p) (threads p) (detached p).
#[export] Instance set_stopping_ : Setter stopping_ := ltac:(solve_setter).
#[export] Instance set_generation_ : Setter generation_ := ltac:(solve_setter).
#[export] Instance set_next_worker_ : Setter next_worker_ := ltac:(solve_setter).
#[export] Instance set_workers_ : Setter workers_ := ltac:(solve_setter).
#[export] Instance set_accepting : Setter accepting := ltac:(solve_setter).
#[export] Instance set_threads : Setter threads := ltac:(solve_setter).
#[export] Instance set_detached : Setter detached := ltac:(solve_setter).

Definition WorkerPool_new : WorkerPool :=
  {| stopping_ := true; generation_ := 0; next_worker_ := 0; workers_ := []; accepting := ∅; threads := ∅; detached := ∅ |}.

(** The loop of [Start] from worker [i] on, with [n] workers to go: [made] is what has been
    made. Worker [j]'s thread is created if [ok j]; otherwise the constructor of
    [std::thread] throws, with the worker already in the list. *)
Fixpoint start_loop (ok : nat -> bool) (generation : Z) (i n : nat) (made : list worker) (p : WorkerPool)
    : bool * list worker * WorkerPool :=
  match n with
  | O => (true, made, p)
  | S n' =>
      let w := (generation, i) in
      let p := p <| accepting := {[w]} ∪ accepting p |> in
      let made := made ++ [w] in
      if ok i then start_loop ok generation (S i) n' made (p <| threads := {[w]} ∪ threads p |>)
      else (false, made, p)
  end.

(** [accepting] is cleared for every worker of the list. *)
Definition stop_accepting (l : list worker) (p : WorkerPool) : WorkerPool :=
  p <| accepting := accepting p ∖ list_to_set l |>.

(** Every thread of the list that is joinable is joined, or detached if it is the caller's
    own: [self] is the worker whose thread calls, [None] if the caller is another thread. *)
Definition join_all (self : option worker) (l : list worker) (p : WorkerPool) : WorkerPool :=
  let own := filter (fun w => self = Some w) (list_to_set l ∩ threads p) in
  p <| threads := threads p ∖ list_to_set l |> <| detached := detached p ∪ own |>.

(** A detached thread ends: its worker's loop sees [ShouldStop]. *)
Definition thread_ends (w : worker) (p : WorkerPool) : WorkerPool := p <| detached := detached p ∖ {[w]} |>.

Definition Start (ok : nat -> bool) (n : Z) (p : WorkerPool) : bool * WorkerPool :=
  let n := if n =? 0 then 1 else n in
  if negb (stopping_ p) then (true, p)
  else
    let generation := u64 (generation_ p + 1) in
    let p := p <| stopping_ := false |> <| generation_ := generation |> in
    match start_loop ok generation 0 (Z.to_nat n) [] p with
    | (true, l, p) => (true, p <| workers_ := l |>)
    | (false, l, p) =>
        let p := p <| stopping_ := true |> <| generation_ := u64 (generation_ p + 1) |> in
        (false, (join_all None l (stop_accepting l p)) <| workers_ := [] |>)
    end.

Definition Stop (self : option worker) (p : WorkerPool) : WorkerPool :=
  if stopping_ p then p
  else
    let l := workers_ p in
    let p := p <| stopping_ := true |> <| generation_ := u64 (generation_ p + 1) |> <| workers_ := [] |> in
    join_all self l (stop_accepting l p).

Definition WorkerCount (p : WorkerPool) : Z := zlen (workers_ p).

Definition PickWorker (p : WorkerPool) : Z * WorkerPool :=
  let count := WorkerCount p in
  if count =? 0 then (0, p)
  else (next_worker_ p mod count, p <| next_worker_ := usize (next_worker_ p + 1) |>).

(** The part of [PostToWorker] before it turns to a worker: which one, if any. *)
Definition select_worker (p : WorkerPool) (worker_index : Z) : option worker :=
  if stopping_ p then None
  else workers_ p !! Z.to_nat (worker_index mod zlen (workers_ p)).

(** [Post(worker_index, task)] when no other thread stops the pool meanwhile: the worker
    that gets the task, or the refusal. An empty [task] is refused. *)
Definition Post (p : WorkerPool) (worker_index : Z) (task : bool) : option worker :=
  if negb task then None
  else
    w ← select_worker p worker_index;
    if bool_decide (w ∈ accepting p) then Some w else None.

(** ** The state between calls *)

(** Stopped, nothing is left: no worker, no thread but a detached one. Started, the list has the workers of the
    current generation, each with its thread and accepting tasks; there are no others. *)
Definition pool_ok (p : WorkerPool) : Prop :=
  accepting p = list_to_set (workers_ p) /\ threads p = list_to_set (workers_ p) /\
  (stopping_ p = true <-> workers_ p = []) /\
  workers_ p = (fun i => (generation_ p, i)) <$> seq 0 (length (workers_ p)) /\
  0 <= next_worker_ p <= SIZE_MAX.

Lemma pool_ok_new : pool_ok WorkerPool_new.
Proof. unfold pool_ok, SIZE_MAX. cbn. pose proof size_bits_pos. split_and!; try done. assert (0 < 2 ^ size_bits) by lia. lia. Qed.

Definition row (generation : Z) (i n : nat) : list worker := (fun j => (generation, j)) <$> seq i n.

Lemma row_S generation i n : row generation i (S n) = (generation, i) :: row generation (S i) n.
Proof. done. Qed.

(** What the loop of [Start] leaves alone. *)
Definition same_but (p p' : WorkerPool) : Prop :=
  stopping_ p' = stopping_ p /\ generation_ p' = generation_ p /\ next_worker_ p' = next_worker_ p.

(** The workers the loop makes: all of them, or those up to the first whose thread cannot
    be created. *)
Lemma start_loop_ok ok generation i n list p :
  let '(r, list', p') := start_loop ok generation i n list p in
  exists k, (k <= n)%nat /\ (r = true -> k = n) /\ list' = list ++ row generation i k /\ same_but p p' /\
    accepting p' = list_to_set (row generation i k) ∪ accepting p /\
    threads p' ⊆ list_to_set (row generation i k) ∪ threads p /\
    (r = true -> threads p' = list_to_set (row generation i k) ∪ threads p).
Proof.
  revert i list p. induction n as [| n IH]; intros i list p; cbn [start_loop].
  - exists 0%nat. change (row generation i 0) with (@nil worker). rewrite app_nil_r, list_to_set_nil.
    split_and!; try done; clear; set_solver.
  - destruct (ok i).
    + specialize (IH (S i) (list ++ [(generation, i)])
        (p <| accepting := {[(generation, i)]} ∪ accepting p |> <| threads := {[(generation, i)]} ∪ threads p |>)).
      destruct (start_loop _ _ _ _ _ _) as [[r list'] p']. destruct IH as (k & Hk & Hr & Hl & Hp & H1 & H2 & H3).
      cbn [accepting threads set_field set_accepting set_threads] in *.
      exists (S k). rewrite row_S, list_to_set_cons.
      split_and!; [lia | auto with lia | by rewrite Hl, <- app_assoc | done | clear -H1 | clear -H2 | clear -H3]; set_solver.
    + exists 1%nat. rewrite row_S. change (row generation (S i) 0) with (@nil worker).
      rewrite list_to_set_cons, list_to_set_nil.
      split_and!; try lia; try done; clear; set_solver.
Qed.

(** [Start]: the pool runs with [max 1 n] workers, or, if a thread could not be created,
    there is no worker and no thread, as before. *)
Lemma Start_ok ok n p :
  pool_ok p -> 0 <= n ->
  let '(r, p') := Start ok n p in
  pool_ok p' /\ (r = true -> stopping_ p' = false) /\ (r = false -> stopping_ p' = true) /\
  (stopping_ p = false -> r = true /\ p' = p) /\ (stopping_ p = true -> r = true -> WorkerCount p' = Z.max 1 n).
Proof.
  intros HP Hn0. unfold Start. destruct (stopping_ p) eqn:Es; cbn [negb]; [| by split_and!].
  destruct HP as (Ha & Ht & Hs & Hw & Hn). pose proof (proj1 Hs Es) as E0. rewrite E0 in Ha, Ht, Hw. rewrite list_to_set_nil in Ha, Ht.
  pose proof (start_loop_ok ok (u64 (generation_ p + 1)) 0 (Z.to_nat (if n =? 0 then 1 else n)) []
    (p <| stopping_ := false |> <| generation_ := u64 (generation_ p + 1) |>)) as HL.
  destruct (start_loop _ _ _ _ _ _) as [[r list] p']. destruct HL as (k & Hk & Hr & Hl & (P1 & P2 & P3) & H1 & H2 & H3). cbn in *.
  rewrite Ha, union_empty_r_L in H1. rewrite Ht in H2, H3. rewrite union_empty_r_L in H2, H3. subst list. cbn in *.
  assert (Hlen : length (row (u64 (generation_ p + 1)) 0 k) = k) by (unfold row; by rewrite length_fmap, length_seq).
  destruct r.
  - rewrite Hr in * by done. specialize (H3 eq_refl). unfold pool_ok. cbn. rewrite Hlen, P1, P2, P3.
    unfold WorkerCount, zlen. cbn. rewrite Hlen. split_and!; try done.
    + split; [done |]. intros E. apply (f_equal length) in E. rewrite Hlen in E. cbn in E. destruct (n =? 0) eqn:?; lia.
    + lia.
    + lia.
    + intros _ _. destruct (n =? 0) eqn:?; lia.
  - assert (Hd : threads p' ∖ list_to_set (row (u64 (generation_ p + 1)) 0 k) = ∅) by (clear -H2; set_solver).
    unfold pool_ok, join_all, stop_accepting. cbn. rewrite Hd, H1, P3, difference_diag_L. split_and!; done || lia.
Qed.

Lemma Stop_ok self p :
  pool_ok p -> pool_ok (Stop self p) /\ stopping_ (Stop self p) = true /\ threads (Stop self p) = ∅.
Proof.
  intros HP. pose proof HP as (Ha & Ht & Hs & Hw & Hn). unfold Stop. destruct (stopping_ p) eqn:Es.
  - split; [done |]. split; [done |]. rewrite Ht. by rewrite (proj1 Hs eq_refl).
  - unfold pool_ok, join_all, stop_accepting. cbn. rewrite Ha, Ht, difference_diag_L. split_and!; done || lia.
Qed.

(** If every thread can be created, [Start] succeeds. *)
Lemma Start_granted ok n p : (forall i, ok i = true) -> (Start ok n p).1 = true.
Proof.
  intros Hok. unfold Start. destruct (negb (stopping_ p)); [done |]. cbn zeta.
  assert (HL : forall k g i made q, (start_loop ok g i k made q).1.1 = true).
  { induction k as [| k IH]; intros g i made q; cbn; [done |]. rewrite Hok. apply IH. }
  specialize (HL (Z.to_nat (if n =? 0 then 1 else n)) (u64 (generation_ p + 1)) 0%nat []
    (p <| stopping_ := false |> <| generation_ := u64 (generation_ p + 1) |>)).
  destruct (start_loop _ _ _ _ _ _) as [[r l] p']. cbn in HL. by subst r.
Qed.

(** Only a worker's own [Stop] detaches a thread. *)
Lemma join_all_detached self l p :
  detached (join_all self l p) ⊆ detached p ∪ (if self is Some w then {[w]} else ∅).
Proof. unfold join_all. cbn. destruct self; set_solver. Qed.

Lemma start_loop_detached ok generation i n made p :
  detached (start_loop ok generation i n made p).2 = detached p.
Proof. revert i made p. induction n as [| n IH]; intros i made p; cbn; [done |]. destruct (ok i); [by rewrite IH | done]. Qed.

Lemma Start_detached ok n p : detached (Start ok n p).2 ⊆ detached p.
Proof.
  unfold Start. destruct (negb (stopping_ p)); [done |]. cbn zeta.
  set (p1 := p <| stopping_ := false |> <| generation_ := _ |>).
  pose proof (start_loop_detached ok (u64 (generation_ p + 1)) 0 (Z.to_nat (if n =? 0 then 1 else n)) [] p1) as E.
  destruct (start_loop _ _ _ _ _ _) as [[r l] p']. cbn in E. destruct r; cbn; [by rewrite E |]. rewrite E. cbn. set_solver.
Qed.

Lemma Stop_detached self p : detached (Stop self p) ⊆ detached p ∪ (if self is Some w then {[w]} else ∅).
Proof.
  unfold Stop. destruct (stopping_ p); [set_solver |]. etrans; [apply join_all_detached |]. cbn. done.
Qed.

Lemma PickWorker_ok p : pool_ok p -> pool_ok (PickWorker p).2.
Proof.
  intros HP. pose proof HP as (Ha & Ht & Hs & Hw & Hn). unfold PickWorker. case_match; [done |].
  split_and!; try done; cbn; unfold usize, wrap, SIZE_MAX; pose proof size_bits_pos;
    pose proof (Z.mod_pos_bound (next_worker_ p + 1) (2 ^ size_bits)); lia.
Qed.

(** ** Programs *)

(** The calls that change the pool, and the end of a detached thread. *)
Inductive pool_op := OStart (ok : nat -> bool) (n : Z) | OStop (self : option worker) | OPick | OEnds (w : worker).

Definition pool_step (p : WorkerPool) (op : pool_op) : WorkerPool :=
  match op with
  | OStart ok n => (Start ok n p).2
  | OStop self => Stop self p
  | OPick => (PickWorker p).2
  | OEnds w => thread_ends w p
  end.

Definition pool_run (ops : list pool_op) : WorkerPool := foldl pool_step WorkerPool_new ops.

Definition op_ok (op : pool_op) : Prop := match op with OStart _ n => 0 <= n | _ => True end.

Lemma pool_run_ok ops : Forall op_ok ops -> pool_ok (pool_run ops).
Proof.
  unfold pool_run. intros Hops. induction ops as [| op ops IH] using rev_ind; [apply pool_ok_new |].
  apply list.Forall_app in Hops as [Hops [Hop _]%list.Forall_cons]. specialize (IH Hops). rewrite foldl_app. cbn.
  destruct op as [ok n | self | | w]; cbn in *; [| by apply Stop_ok | by apply PickWorker_ok | done].
  pose proof (Start_ok ok n _ IH Hop) as HS. destruct (Start _ _ _) as [r p']. apply HS.
Qed.

Lemma pool_run_detached ops w : w ∈ detached (pool_run ops) -> OStop (Some w) ∈ ops.
Proof.
  unfold pool_run. induction ops as [| op ops IH] using rev_ind; [set_solver |]. rewrite foldl_app. cbn. intros Hw.
  apply elem_of_app. destruct op as [ok n | self | | w']; cbn in Hw.
  - left. apply IH. by eapply Start_detached.
  - apply Stop_detached in Hw. destruct self as [w' |]; [| left; apply IH; set_solver].
    apply elem_of_union in Hw as [Hw | ->%elem_of_singleton]; [left; auto | right; by left].
  - left. apply IH. unfold PickWorker in Hw. by destruct (WorkerCount _ =? 0).
  - left. apply IH. set_solver.
Qed.

(** Threads are neither leaked nor lost, whatever the sequence of [Start], [Stop] and
    [PickWorker], and whichever thread cannot be created: between calls the threads that
    exist are those of the workers in the list, one each, and there are none exactly when
    the pool is stopped, apart from a worker's thread that has itself called [Stop]; a [Post] finds a worker that accepts it exactly when the pool is
    started. *)
Theorem pool_threads (ops : list pool_op) (worker_index : Z) :
  Forall op_ok ops -> 0 <= worker_index ->
  let p := pool_run ops in
  threads p = list_to_set (workers_ p) /\ NoDup (workers_ p) /\ (stopping_ p = true <-> threads p = ∅) /\
  (forall w, w ∈ detached p -> OStop (Some w) ∈ ops) /\
  (stopping_ p = false <-> exists w, Post p worker_index true = Some w /\ w ∈ threads p).
Proof.
  intros Hops Hi p. pose proof (pool_run_ok _ Hops) as (Ha & Ht & Hs & Hw & Hn). fold p in Ha, Ht, Hs, Hw, Hn.
  assert (Hempty : threads p = ∅ <-> workers_ p = []).
  { rewrite Ht. split; [| by intros ->]. destruct (workers_ p) as [| w l]; [done |]. cbn. set_solver. }
  split_and!; [done | | by rewrite Hempty | apply pool_run_detached | ].
  { rewrite Hw. apply NoDup_fmap_2; [intros ? ? [=]; done | apply NoDup_seq]. }
  unfold Post, select_worker. cbn [negb]. destruct (stopping_ p) eqn:Es.
  { split; [done |]. by intros (w & E & _). }
  split; [intros _ | done]. destruct (workers_ p) as [| w l] eqn:El; [by destruct Hs as [_ Hs]; specialize (Hs eq_refl) |].
  assert (Hb : 0 <= worker_index mod zlen (w :: l) < zlen (w :: l)) by (apply Z.mod_pos_bound; zlia).
  destruct (lookup_lt_is_Some_2 (w :: l) (Z.to_nat (worker_index mod zlen (w :: l)))) as [x Hx]; [unfold zlen in *; lia |].
  exists x. rewrite Hx. cbn. assert (x ∈ w :: l) by (by eapply list_elem_of_lookup_2).
  rewrite bool_decide_true by (rewrite Ha; by apply elem_of_list_to_set). split; [done |]. rewrite Ht. by apply elem_of_list_to_set.
Qed.

(** ** Round robin *)

Fixpoint picks (n : nat) (p : WorkerPool) : list Z :=
  match n with
  | O => []
  | S n' => let '(i, p') := PickWorker p in i :: picks n' p'
  end.

Lemma picks_eq n p :
  0 < WorkerCount p -> 0 <= next_worker_ p -> next_worker_ p + Z.of_nat n <= SIZE_MAX ->
  picks n p = (fun i => (next_worker_ p + Z.of_nat i) mod WorkerCount p) <$> seq 0 n.
Proof.
  revert p. induction n as [| n IH]; intros p Hc H0 Hn; [done |]. cbn [picks seq fmap list_fmap]. unfold PickWorker at 1.
  destruct (WorkerCount p =? 0) eqn:E; [lia |]. rewrite Z.add_0_r. f_equal. rewrite IH; cbn; rewrite ?usize_small by lia; try lia; [| done].
  rewrite <- fmap_S_seq, <- list_fmap_compose. apply list_fmap_ext. intros i x _. unfold compose. change (WorkerCount (p <| next_worker_ := _ |>)) with (WorkerCount p).
  f_equal. lia.
Qed.

(** Consecutive numbers, as many as there are residues, take each residue once. *)
Lemma residues_perm (x c : Z) :
  0 < c -> ((fun i => (x + Z.of_nat i) mod c) <$> seq 0 (Z.to_nat c)) ≡ₚ (Z.of_nat <$> seq 0 (Z.to_nat c)).
Proof.
  intros Hc. apply submseteq_length_Permutation; [| by rewrite !length_fmap].
  apply NoDup_submseteq.
  - apply NoDup_alt. intros i j y. rewrite !list_lookup_fmap, !fmap_Some. intros (a & Ha & ->) (b & Hb & E).
    apply lookup_seq in Ha as [-> Ha]. apply lookup_seq in Hb as [-> Hb]. cbn in E.
    pose proof (Z.div_mod (x + Z.of_nat i) c ltac:(lia)). pose proof (Z.div_mod (x + Z.of_nat j) c ltac:(lia)).
    assert (Z.of_nat i - Z.of_nat j = c * ((x + Z.of_nat i) / c - (x + Z.of_nat j) / c)) as Hd by lia.
    assert ((x + Z.of_nat i) / c - (x + Z.of_nat j) / c = 0) by nia. lia.
  - intros y (i & -> & Hi)%list_elem_of_fmap. apply list_elem_of_fmap.
    pose proof (Z.mod_pos_bound (x + Z.of_nat i) c Hc). exists (Z.to_nat ((x + Z.of_nat i) mod c)).
    split; [lia |]. apply elem_of_seq. lia.
Qed.

(** [PickWorker] distributes evenly: as many picks in a row as there are workers choose each
    of them once, as long as the counter does not wrap around. *)
Theorem pick_round_robin (p : WorkerPool) :
  0 < WorkerCount p -> 0 <= next_worker_ p -> next_worker_ p + WorkerCount p <= SIZE_MAX ->
  picks (length (workers_ p)) p ≡ₚ (Z.of_nat <$> seq 0 (length (workers_ p))).
Proof.
  intros Hc H0 Hn. rewrite picks_eq by (unfold WorkerCount, zlen in *; lia).
  replace (length (workers_ p)) with (Z.to_nat (WorkerCount p)) by (unfold WorkerCount, zlen; lia). by apply residues_perm.
Qed.

End WorkerPool.

(** ** Examples *)

(** Two workers; stopped; then three of five threads can be created. *)
Definition pool_demo : list pool_op :=
  [OStart (fun _ => true) 2; OPick; OStop None; OStart (fun i => bool_decide (i < 3)%nat) 5; OStart (fun _ => true) 0].

Lemma pool_threads_witness : exists w, Post (pool_run pool_demo) 7 true = Some w /\ w ∈ threads (pool_run pool_demo).
Proof.
  destruct (pool_threads pool_demo 7) as (_ & _ & _ & _ & Hw); [repeat constructor; cbn; lia | lia |].
  apply Hw. reflexivity.
Defined.

Lemma pick_round_robin_witness :
  let p := pool_run [OStart (fun _ => true) 3; OPick] in picks 3 p ≡ₚ [0; 1; 2].
Proof.
  apply (pick_round_robin (pool_run [OStart (fun _ => true) 3; OPick])); [reflexivity | by vm_compute | by vm_compute].
Defined.
