(* ===== verification/Runtime.v ===== *)
(** * The global runtime and the library's life cycle

    [src/net/runtime.cc], [src/core/init.cc] and [src/core/library.cc]: how the poller, the
    worker pool, the timers and the connection table are brought up and down together, how
    many workers there are, what one round of the poll thread delivers, and the reference
    count of [LibraryInit] and [LibraryShutdown]. These calls are serialized by
    [g_init_mtx], so each is one step. *)

From Stdlib Require Import Sorting.Sorted.
From S2P Require Import Prelude ConnTable Timer Poller WorkerPool.

Section Runtime.
Context `{SizeT} `{PQ : PriorityQueue Q}.

(** ** Data *)

Inductive WorkerThreadMode := kWorkerThreadsDefault | kWorkerThreadsAuto | kWorkerThreadsFixed.

(** The enumerators' values, and the name a mode has in the log. *)
Definition mode_value (m : WorkerThreadMode) : Z :=
  match m with kWorkerThreadsDefault => 0 | kWorkerThreadsAuto => 1 | kWorkerThreadsFixed => 2 end.
Definition WorkerThreadModeName (mode : Z) : string :=
  if mode =? 0 then "default" else if mode =? 1 then "auto" else if mode =? 2 then "fixed" else "unknown".

Lemma mode_name m : WorkerThreadModeName (mode_value m) <> "unknown"%string.
Proof. by destruct m. Qed.

Definition kDefaultWorkerThreads : Z := 2.
Definition kDefaultMaxWorkerThreads : Z := 8.
Definition kMaxPollTimeoutMs : Z := 1000.

(** [poll_thread_]: the thread exists. *)
Record GlobalRuntime := RT {
  running_ : bool;
  worker_thread_mode_ : WorkerThreadMode;
  configured_worker_threads_ : Z;
  poll_thread_ : bool;
  poller_ : Poller;
  timers_ : Q;
  pool_ : WorkerPool;
  connections_ : ConnectionTable
}.

#[export] Instance eta_runtime : Eta GlobalRuntime := fun r => RT (running_ r) (worker_thread_mode_ r)
  (configured_worker_threads_ r) (poll_thread_ r) (poller_ r) (timers_ r) (pool_ r) (connections_ r).
#[export] Instance set_running_ : Setter running_ := ltac:(solve_setter).
#[export] Instance set_worker_thread_mode_ : Setter worker_thread_mode_ := ltac:(solve_setter).
#[export] Instance set_configured_worker_threads_ : Setter configured_worker_threads_ := ltac:(solve_setter).
#[export] Instance set_poll_thread_ : Setter poll_thread_ := ltac:(solve_setter).
#[export] Instance set_poller_ : Setter poller_ := ltac:(solve_setter).
#[export] Instance set_timers_ : Setter timers_ := ltac:(solve_setter).
#[export] Instance set_pool_ : Setter pool_ := ltac:(solve_setter).
#[export] Instance set_connections_ : Setter connections_ := ltac:(solve_setter).

Definition GlobalRuntime_new : GlobalRuntime :=
  {| running_ := false; worker_thread_mode_ := kWorkerThreadsDefault;
     configured_worker_threads_ := kDefaultWorkerThreads; poll_thread_ := false; poller_ := Poller_new;
     timers_ := pq_new; pool_ := WorkerPool_new; connections_ := ConnectionTable_new |}.

(** ** The number of workers *)

(** [hardware_concurrency] is an [unsigned int]; 0 means unknown. *)
Definition DefaultWorkerThreads (hardware_concurrency : Z) : Z :=
  if hardware_concurrency =? 0 then 2
  else if hardware_concurrency <=? 2 then 1
  else Z.min (Z.max 2 (hardware_concurrency / 2)) kDefaultMaxWorkerThreads.

Definition IsWorkerThreadsAuto (r : GlobalRuntime) : bool :=
  match worker_thread_mode_ r with kWorkerThreadsAuto => true | _ => false end.

Definition GetWorkerThreads (r : GlobalRuntime) : Z :=
  if IsWorkerThreadsAuto r then 0 else configured_worker_threads_ r.

Definition ResolveWorkerThreads (r : GlobalRuntime) (hardware_concurrency : Z) : Z :=
  if IsWorkerThreadsAuto r then DefaultWorkerThreads hardware_concurrency
  else if 0 <? configured_worker_threads_ r then configured_worker_threads_ r else kDefaultWorkerThreads.

Definition SetWorkerThreads (worker_threads : Z) (r : GlobalRuntime) : bool * GlobalRuntime :=
  if running_ r then (false, r)
  else if worker_threads =? 0 then
    (true, r <| configured_worker_threads_ := kDefaultWorkerThreads |>
             <| worker_thread_mode_ := kWorkerThreadsDefault |>)
  else (true, r <| configured_worker_threads_ := worker_threads |> <| worker_thread_mode_ := kWorkerThreadsFixed |>).

Definition SetWorkerThreadsAuto (r : GlobalRuntime) : bool * GlobalRuntime :=
  if running_ r then (false, r)
  else (true, r <| configured_worker_threads_ := 0 |> <| worker_thread_mode_ := kWorkerThreadsAuto |>).

(** ** Start and stop *)

(** What the system answers while the runtime starts. *)
Record start_env := {
  env_init : init_results;
  hardware_concurrency : Z;
  worker_thread_ok : nat -> bool;
  poll_thread_ok : bool
}.

Inductive start_error := PollerInitFailed (errno : Z) | WorkerPoolFailed | PollThreadFailed.

(** [None] is [CONNX_ERROR_NONE]. *)
Definition Runtime_Start (env : start_env) (r : GlobalRuntime) : option start_error * GlobalRuntime :=
  if running_ r then (None, r)
  else
    match Poller_Init (poller_ r) (env_init env) with
    | (Some errno, p) => (Some (PollerInitFailed errno), r <| poller_ := p |>)
    | (None, p) =>
        let r := r <| poller_ := p |> in
        let worker_count := ResolveWorkerThreads r (hardware_concurrency env) in
        match Start (worker_thread_ok env) worker_count (pool_ r) with
        | (false, w) => (Some WorkerPoolFailed, r <| pool_ := w |> <| poller_ := Poller_Shutdown (poller_ r) |>)
        | (true, w) =>
            let r := r <| pool_ := w |> <| running_ := true |> in
            if poll_thread_ok env then (None, r <| poll_thread_ := true |>)
            else (Some PollThreadFailed,
                  r <| running_ := false |> <| pool_ := Stop None (pool_ r) |>
                    <| poller_ := Poller_Shutdown (poller_ r) |>)
        end
    end.

(** The caller of [Stop] is not one of the workers. *)
Definition Runtime_Stop (r : GlobalRuntime) : GlobalRuntime :=
  if negb (running_ r) then r
  else
    let r := r <| running_ := false |> in
    (* poller_.Wake(); the poll thread sees running_ and is joined *)
    let r := r <| poll_thread_ := false |> in
    r <| pool_ := Stop None (pool_ r) |> <| timers_ := TimerClear (timers_ r) |>
      <| connections_ := Clear (connections_ r) |> <| poller_ := Poller_Shutdown (poller_ r) |>.

(** ** The poll thread *)

(** What a connection is told by a round. *)
Inductive delivery := DPoll (ev : PollEvent) | DTimer (ev : TimerEvent).

(** [connections_.Acquire], then [PostPollEvent] or [PostTimerEvent]. *)
Definition deliver (T : ConnectionTable) (alive : conn_ref -> bool) (id : ConnectionId) (d : delivery)
    : option (conn_ref * delivery) :=
  c ← Acquire T alive id; Some (c, d).

(** The timeout of [Wait] in a round that begins at [now]. *)
Definition poll_timeout (r : GlobalRuntime) (now : Z) : option Z :=
  NextTimeoutMs (timers_ r) now kMaxPollTimeoutMs.

(** One round of [PollLoop]: [n], [errno] and [evs] are the result of [epoll_wait], [now]
    is the time after it. *)
Definition poll_round (r : GlobalRuntime) (alive : conn_ref -> bool) (n errno : Z) (evs : list epoll_event) (now : Z)
    : list (conn_ref * delivery) * GlobalRuntime :=
  let '(_, events) := Poller_Wait (poller_ r) n errno evs in
  let '(timers, q) := PopExpired (timers_ r) now in
  (omap (fun ev => deliver (connections_ r) alive (ev_id ev) (DPoll ev)) events ++
   omap (fun ev => deliver (connections_ r) alive (tid ev) (DTimer ev)) timers,
   r <| timers_ := q |>).

(** ** The library *)

Record Library := { g_initializations : Z; runtime : GlobalRuntime }.

Definition Library_new : Library := {| g_initializations := 0; runtime := GlobalRuntime_new |}.

Definition LibraryInit (env : start_env) (l : Library) : bool * Library :=
  let n := g_initializations l + 1 in
  if n =? 1 then
    match Runtime_Start env (runtime l) with
    | (None, r) => (true, {| g_initializations := n; runtime := r |})
    | (Some _, r) => (false, {| g_initializations := n - 1; runtime := r |})
    end
  else (true, {| g_initializations := n; runtime := runtime l |}).

Definition LibraryShutdown (l : Library) : Library :=
  if g_initializations l <=? 0 then l
  else
    let n := g_initializations l - 1 in
    {| g_initializations := n; runtime := if n =? 0 then Runtime_Stop (runtime l) else runtime l |}.

(** The constructor and the destructor of [LibraryInitService]. *)
Definition LibraryInitService_new (call_init : bool) (env : start_env) (l : Library) : bool * Library :=
  if call_init then LibraryInit env l else (false, l).

Definition LibraryInitService_destroy (init_called_ : bool) (l : Library) : Library :=
  if init_called_ then LibraryShutdown l else l.

(** ** All or nothing *)

Definition env_ok (env : start_env) : Prop :=
  fresh_fds (env_init env) /\ 0 <= hardware_concurrency env <= UINT32_MAX.

(** Everything runs, or nothing is left. *)
Record runtime_ok (r : GlobalRuntime) : Prop := {
  rt_pool : pool_ok (pool_ r);
  rt_poller : poller_ok (poller_ r);
  rt_configured : 0 <= configured_worker_threads_ r;
  rt_attached : detached (pool_ r) = ∅;
  rt_up : running_ r = true -> 0 <= poll_fd_ (poller_ r) /\ stopping_ (pool_ r) = false /\ poll_thread_ r = true;
  rt_down : running_ r = false ->
    poller_ r = Poller_new /\ stopping_ (pool_ r) = true /\ poll_thread_ r = false /\
    pq_elems (timers_ r) = [] /\ connections_ r = ConnectionTable_new
}.

Lemma poller_ok_new : poller_ok Poller_new.
Proof. unfold poller_ok. cbn. repeat split; set_solver || lia || done. Qed.

Lemma runtime_ok_new : runtime_ok GlobalRuntime_new.
Proof.
  split; cbn; [apply pool_ok_new | apply poller_ok_new | unfold kDefaultWorkerThreads; lia | done | done |].
  intros _. rewrite pq_new_elems. by split_and!.
Qed.

Lemma ResolveWorkerThreads_pos r hc : 0 <= configured_worker_threads_ r -> 0 <= hc -> 1 <= ResolveWorkerThreads r hc.
Proof.
  intros Hc Hh. unfold ResolveWorkerThreads, DefaultWorkerThreads, kDefaultMaxWorkerThreads, kDefaultWorkerThreads.
  repeat case_match; zbool; lia.
Qed.

Lemma subset_empty (X : gset worker) : X ⊆ ∅ -> X = ∅.
Proof. set_solver. Qed.

Lemma Stop_attached w : detached w = ∅ -> detached (Stop None w) = ∅.
Proof. intros E. apply subset_empty. pose proof (Stop_detached None w). set_solver. Qed.

Lemma Runtime_Start_ok env r :
  runtime_ok r -> env_ok env ->
  let '(e, r') := Runtime_Start env r in
  runtime_ok r' /\ (e = None <-> running_ r' = true) /\
  (running_ r = false -> e = None -> WorkerCount (pool_ r') = ResolveWorkerThreads r (hardware_concurrency env)).
Proof.
  intros HR [Hfd Hhc]. pose proof HR as [Hpool Hpol Hc Hatt Hup Hdown]. unfold Runtime_Start.
  destruct (running_ r) eqn:Er; [by split_and! |].
  destruct (Hdown eq_refl) as (Hp & Hst & Hth & Hti & Htb).
  pose proof (Poller_Init_ok (poller_ r) (env_init env) Hpol Hfd) as HI. destruct (Poller_Init _ _) as [[errno |] p].
  - destruct HI as [Hok He]. cbn. rewrite Er. split; [| done]. rewrite (poller_closed p).
    + split; cbn; rewrite ?Er; auto using poller_ok_new; done.
    + done.
    + destruct (Z_lt_le_dec (poll_fd_ p) 0); [done |]. by apply He in l.
  - destruct HI as [Hok [He _]]. specialize (He eq_refl). cbn.
    pose proof (ResolveWorkerThreads_pos r (hardware_concurrency env) Hc ltac:(lia)) as Hn.
    change (ResolveWorkerThreads (r <| poller_ := p |>) _) with (ResolveWorkerThreads r (hardware_concurrency env)).
    pose proof (Start_detached (worker_thread_ok env) (ResolveWorkerThreads r (hardware_concurrency env)) (pool_ r)) as Hd.
    rewrite Hatt in Hd.
    pose proof (Start_ok (worker_thread_ok env) (ResolveWorkerThreads r (hardware_concurrency env)) (pool_ r) Hpool ltac:(lia)) as HS.
    destruct (Start _ _ _) as [b w]. cbn [snd] in Hd. apply (subset_empty _) in Hd.
    destruct b; destruct HS as (Hw & Hw1 & Hw2 & _ & Hcount).
    + specialize (Hw1 eq_refl). specialize (Hcount Hst eq_refl). destruct (poll_thread_ok env).
      * split; [split; cbn; done |]. split; [done |]. intros _ _. cbn. lia.
      * destruct (Stop_ok None w Hw) as (HS1 & HS2 & HS3). split; [| done]. split; cbn; try done.
        -- rewrite Poller_Shutdown_ok by done. apply poller_ok_new.
        -- by apply Stop_attached.
        -- intros _. by rewrite Poller_Shutdown_ok.
    + specialize (Hw2 eq_refl). cbn. rewrite Er. split; [| done].
      split; cbn; rewrite ?Er; try done.
      * rewrite Poller_Shutdown_ok by done. apply poller_ok_new.
      * intros _. by rewrite Poller_Shutdown_ok.
Qed.

Lemma Runtime_Stop_ok r : runtime_ok r -> runtime_ok (Runtime_Stop r) /\ running_ (Runtime_Stop r) = false.
Proof.
  intros HR. unfold Runtime_Stop. destruct (running_ r) eqn:Er; cbn; [| done]. destruct HR as [Hpool Hpol Hc Hatt Hup Hdown].
  destruct (Stop_ok None _ Hpool) as (HS1 & HS2 & HS3). split; [| done]. split; cbn; try done.
  - rewrite Poller_Shutdown_ok by done. apply poller_ok_new.
  - by apply Stop_attached.
  - intros _. rewrite Poller_Shutdown_ok by done. by rewrite TimerClear_ok.
Qed.

Lemma SetWorkerThreads_ok n r : runtime_ok r -> 0 <= n -> runtime_ok (SetWorkerThreads n r).2.
Proof.
  intros HR Hn. unfold SetWorkerThreads. destruct (running_ r) eqn:Er; [done |]. destruct HR as [Hpool Hpol Hc Hatt Hup Hdown].
  case_match; split; cbn; auto; unfold kDefaultWorkerThreads; lia.
Qed.

Lemma SetWorkerThreadsAuto_ok r : runtime_ok r -> runtime_ok (SetWorkerThreadsAuto r).2.
Proof.
  intros HR. unfold SetWorkerThreadsAuto. destruct (running_ r) eqn:Er; [done |]. destruct HR as [Hpool Hpol Hc Hatt Hup Hdown].
  split; cbn; auto; lia.
Qed.

(** ** Programs *)

(** The calls of the library's life cycle; [LUse]: while the runtime is up the connections
    change the timers and the table. *)
Inductive lib_op :=
| LInit (env : start_env)
| LShutdown
| LSetWorkers (n : Z)
| LSetAuto
| LUse (q : Q) (T : ConnectionTable).

Definition lib_step (l : Library) (op : lib_op) : Library :=
  let set r := {| g_initializations := g_initializations l; runtime := r |} in
  match op with
  | LInit env => (LibraryInit env l).2
  | LShutdown => LibraryShutdown l
  | LSetWorkers n => set (SetWorkerThreads n (runtime l)).2
  | LSetAuto => set (SetWorkerThreadsAuto (runtime l)).2
  | LUse q T => if running_ (runtime l)
                then set ((runtime l) <| timers_ := q |> <| connections_ := T |>) else l
  end.

Definition lib_run (ops : list lib_op) : Library := foldl lib_step Library_new ops.

Definition lib_op_ok (op : lib_op) : Prop :=
  match op with LInit env => env_ok env | LSetWorkers n => 0 <= n | _ => True end.

(** The calls of a program with the results [LibraryInit] returns. *)
Definition lib_answer (l : Library) (op : lib_op) : bool :=
  match op with LInit env => (LibraryInit env l).1 | _ => true end.

Fixpoint lib_calls (l : Library) (ops : list lib_op) : list (lib_op * bool) :=
  match ops with
  | [] => []
  | op :: ops => (op, lib_answer l op) :: lib_calls (lib_step l op) ops
  end.

(** The specification, on the calls and their results alone: how many successful
    [LibraryInit] have not been undone. A [LibraryShutdown] undoes one; when there is none
    to undo, it is surplus and has no effect. *)
Definition held_step (n : Z) (call : lib_op * bool) : Z :=
  match call with
  | (LInit _, true) => n + 1
  | (LShutdown, _) => Z.max 0 (n - 1)
  | _ => n
  end.

Definition held (calls : list (lib_op * bool)) : Z := foldl held_step 0 calls.

(** Every system call [Runtime_Start] makes succeeds. *)
Definition env_grants (env : start_env) : Prop :=
  0 <= r_create1 (env_init env) /\ 0 <= r_eventfd (env_init env) /\ r_ctl (env_init env) = 0 /\
  (forall i, worker_thread_ok env i = true) /\ poll_thread_ok env = true.

Definition library_ok (l : Library) : Prop :=
  runtime_ok (runtime l) /\ 0 <= g_initializations l /\ (running_ (runtime l) = true <-> 0 < g_initializations l).

Lemma LibraryInit_ok env l :
  library_ok l -> env_ok env ->
  let '(ok, l') := LibraryInit env l in
  library_ok l' /\ g_initializations l' = (if ok then g_initializations l + 1 else g_initializations l) /\
  (ok = false -> g_initializations l = 0).
Proof.
  intros (HR & H0 & Hrun) Henv. unfold LibraryInit. destruct (Z.eqb_spec (g_initializations l + 1) 1) as [E | E].
  - pose proof (Runtime_Start_ok env _ HR Henv) as HS. destruct (Runtime_Start env (runtime l)) as [[e |] r'];
      destruct HS as (HR' & Hr & _); unfold library_ok; cbn.
    + split; [| split; lia]. split; [done |]. split; [lia |]. split; [| lia]. intros E'. by apply Hr in E'.
    + split; [| done]. split; [done |]. split; [lia |]. split; [lia |]. intros _. by apply Hr.
  - unfold library_ok; cbn. split; [| done]. split; [done |]. split; [lia |]. rewrite Hrun. lia.
Qed.

Lemma lib_step_ok l op :
  library_ok l -> lib_op_ok op ->
  library_ok (lib_step l op) /\ g_initializations (lib_step l op) = held_step (g_initializations l) (op, lib_answer l op).
Proof.
  intros HL Hop. pose proof HL as (HR & H0 & Hrun). destruct op as [env | | n | | q T]; cbn in *.
  - pose proof (LibraryInit_ok env l HL Hop) as HI. by destruct (LibraryInit env l) as [[] l']; destruct HI as (? & ? & _).
  - unfold LibraryShutdown, library_ok. destruct (Z.leb_spec (g_initializations l) 0); [split; [done | lia] |]. cbn.
    split; [| lia]. destruct (Runtime_Stop_ok _ HR) as [HS1 HS2].
    destruct (Z.eqb_spec (g_initializations l - 1) 0); split; try done; (split; [lia |]); rewrite ?HS2, ?Hrun; split; done || lia.
  - split; [| done]. split; cbn; [by apply SetWorkerThreads_ok |]. split; [done |]. rewrite <- Hrun.
    unfold SetWorkerThreads. destruct (running_ (runtime l)) eqn:Er; cbn; rewrite ?Er; [done |]. case_match; cbn; by rewrite ?Er.
  - split; [| done]. split; cbn; [by apply SetWorkerThreadsAuto_ok |]. split; [done |]. rewrite <- Hrun.
    unfold SetWorkerThreadsAuto. destruct (running_ (runtime l)) eqn:Er; cbn; by rewrite ?Er.
  - destruct (running_ (runtime l)) eqn:Er; [| done]. split; [| done]. unfold library_ok. cbn. rewrite Er. split; [| done].
    destruct HR as [Hpool Hpol Hc Hatt Hup Hdown]. split; cbn; rewrite ?Er; auto; done.
Qed.

Lemma lib_run_ok ops : Forall lib_op_ok ops -> library_ok (lib_run ops).
Proof.
  unfold lib_run. intros Hops. induction ops as [| op ops IH] using rev_ind.
  - split; cbn; [apply runtime_ok_new | done].
  - apply list.Forall_app in Hops as [Hops [Hop _]%list.Forall_cons]. rewrite foldl_app. cbn. by apply lib_step_ok; auto.
Qed.

Lemma lib_calls_held l ops :
  library_ok l -> Forall lib_op_ok ops ->
  g_initializations (foldl lib_step l ops) = foldl held_step (g_initializations l) (lib_calls l ops).
Proof.
  revert l. induction ops as [| op ops IH]; intros l HL Hops; cbn; [done |]. apply list.Forall_cons in Hops as [Hop Hops].
  destruct (lib_step_ok l op HL Hop) as [HL' E]. cbn [held_step] in E. rewrite <- E. by apply IH.
Qed.

Lemma Runtime_Start_granted env r : runtime_ok r -> env_grants env -> (Runtime_Start env r).1 = None.
Proof.
  intros HR (Hc & He & Hk & Hw & Hp). unfold Runtime_Start. destruct (running_ r) eqn:Er; [done |].
  destruct HR as [_ _ _ _ _ Hdown]. destruct (Hdown Er) as (E & _). rewrite E. unfold Poller_Init, Init_wake, epoll_ctl_set. cbn.
  destruct (Z.ltb_spec (r_create1 (env_init env)) 0); [lia |]. cbn. destruct (Z.ltb_spec (r_eventfd (env_init env)) 0); [lia |].
  rewrite Hk, lookup_empty, (bool_decide_false (is_Some None)) by (by intros []). cbn. match goal with |- context [Start ?ok ?n ?p] => pose proof (Start_granted ok n p Hw) as HS end.
  destruct (Start _ _ _) as [b w]. cbn in HS. subst b. by rewrite Hp.
Qed.

(** C18: The library is reference counted and all or nothing. For every sequence of calls,
    whichever system call or thread creation fails on the way, [g_initializations] is the
    number of successful [LibraryInit] that have not been undone by a [LibraryShutdown], where
    a surplus shutdown is ignored. While it is positive the runtime is up: the poller is
    open, at least one worker accepts tasks and the poll thread runs; while it is 0 nothing is
    left: no descriptor, no thread, no timer and no registered connection. A further
    [LibraryInit] succeeds if the runtime is up already, or if the system refuses nothing.
    (The shutdown is called by a thread that is not one of the workers.) *)
Theorem library_all_or_nothing (ops : list lib_op) (env : start_env) :
  Forall lib_op_ok ops ->
  let l := lib_run ops in let r := runtime l in let n := held (lib_calls Library_new ops) in
  g_initializations l = n /\
  (0 < n ->
     running_ r = true /\ 0 <= poll_fd_ (poller_ r) /\ 1 <= WorkerCount (pool_ r) /\ poll_thread_ r = true) /\
  (n = 0 ->
     running_ r = false /\ poller_ r = Poller_new /\ WorkerCount (pool_ r) = 0 /\ threads (pool_ r) = ∅ /\
     detached (pool_ r) = ∅ /\ poll_thread_ r = false /\ pq_elems (timers_ r) = [] /\
     connections_ r = ConnectionTable_new) /\
  (0 < n \/ env_grants env -> (LibraryInit env l).1 = true).
Proof.
  intros Hops l r n. pose proof (lib_run_ok ops Hops) as HL. fold l in HL.
  assert (E : g_initializations l = n) by (apply lib_calls_held; [split; [apply runtime_ok_new | done] | done]).
  rewrite <- E. clearbody l n. subst r. set (r := runtime l).
  destruct HL as (HR & H0 & Hrun). pose proof HR as [(_ & Ht & Hs & _) _ _ Hatt Hup Hdown]. fold r in Ht, Hs, Hatt, Hup, Hdown, Hrun.
  unfold WorkerCount. split_and!; [done | intros Hn | intros Hn | intros Hn].
  - apply Hrun in Hn. destruct (Hup Hn) as (H1 & H2 & H3). split_and!; try done.
    destruct (workers_ (pool_ r)) as [| w ws]; [by rewrite (proj2 Hs eq_refl) in H2 |]. zlia.
  - assert (Hr : running_ r = false) by (destruct (running_ r); [lia | done]).
    destruct (Hdown Hr) as (H1 & H2 & H3 & H4 & H5). rewrite Ht, (proj1 Hs H2). by split_and!.
  - unfold LibraryInit. destruct (Z.eqb_spec (g_initializations l + 1) 1); [| done]. destruct Hn as [? | Hn]; [lia |].
    pose proof (Runtime_Start_granted env _ HR Hn). by destruct (Runtime_Start env (runtime l)) as [[err |] r'].
Qed.

(** [LibraryInit] and [LibraryShutdown] are reference counted: one call more changes the
    count as specified; only the first [LibraryInit] can fail, and a surplus
    [LibraryShutdown] does nothing. *)
Theorem library_refcount (ops : list lib_op) (op : lib_op) :
  Forall lib_op_ok (ops ++ [op]) ->
  let l := lib_run ops in
  g_initializations (lib_run (ops ++ [op])) = held_step (g_initializations l) (op, lib_answer l op) /\
  (forall env, op = LInit env -> 0 < g_initializations l -> (LibraryInit env l).1 = true) /\
  (op = LShutdown -> g_initializations l = 0 -> lib_run (ops ++ [op]) = l).
Proof.
  intros [Hops [Hop _]%list.Forall_cons]%list.Forall_app l. pose proof (lib_run_ok ops Hops) as HL. fold l in HL.
  assert (Hstep : lib_run (ops ++ [op]) = lib_step l op) by (unfold lib_run; by rewrite foldl_app). rewrite Hstep.
  split_and!.
  - by apply lib_step_ok.
  - intros env -> Hn. pose proof (LibraryInit_ok env l HL Hop) as HI. destruct (LibraryInit env l) as [[] l']; [done |].
    destruct HI as (_ & _ & HI). cbn. lia.
  - intros -> E. cbn. unfold LibraryShutdown. by rewrite E.
Qed.

(** The configured number of workers is what starts: [n], the default of 2 for 0, and in
    automatic mode between 1 and 8, and not more than there are processors. *)
Theorem worker_threads_started (r : GlobalRuntime) (env : start_env) (n : Z) :
  runtime_ok r -> running_ r = false -> env_ok env -> 0 <= n ->
  let count r0 := let '(e, r') := Runtime_Start env r0 in if e is None then Some (WorkerCount (pool_ r')) else None in
  (forall c, count (SetWorkerThreads n r).2 = Some c -> c = if n =? 0 then 2 else n) /\
  (forall c, count (SetWorkerThreadsAuto r).2 = Some c ->
     1 <= c <= 8 /\ (hardware_concurrency env <> 0 -> c <= hardware_concurrency env)).
Proof.
  intros HR Hr Henv Hn. cbn zeta. pose proof Henv as [_ Hhc]. split; intros c.
  - pose proof (SetWorkerThreads_ok n r HR Hn) as HR1. pose proof (Runtime_Start_ok env _ HR1 Henv) as HS.
    destruct (Runtime_Start _ _) as [[] r']; [done |]. intros [= <-]. destruct HS as (_ & _ & HS).
    unfold SetWorkerThreads in HS. rewrite Hr in HS. destruct (Z.eqb_spec n 0); rewrite HS by done;
      unfold ResolveWorkerThreads; cbn; [done |]. destruct (Z.ltb_spec 0 n); lia.
  - pose proof (SetWorkerThreadsAuto_ok r HR) as HR1. pose proof (Runtime_Start_ok env _ HR1 Henv) as HS.
    destruct (Runtime_Start _ _) as [[] r']; [done |]. intros [= <-]. destruct HS as (_ & _ & HS).
    unfold SetWorkerThreadsAuto in HS. rewrite Hr in HS. rewrite HS by done. unfold ResolveWorkerThreads, DefaultWorkerThreads, kDefaultMaxWorkerThreads.
    cbn. repeat case_match; zbool; try lia. pose proof (Z.div_lt (hardware_concurrency env) 2). lia.
Qed.

(** ** A round of the poll thread *)

(** The socket events and the timers of a round, as they are delivered. *)
Definition polled (out : list (conn_ref * delivery)) : list (conn_ref * ConnectionId) :=
  omap (fun '(c, d) => match d with DPoll ev => Some (c, ev_id ev) | DTimer _ => None end) out.
Definition timed (out : list (conn_ref * delivery)) : list (conn_ref * TimerEvent) :=
  omap (fun '(c, d) => match d with DTimer ev => Some (c, ev) | DPoll _ => None end) out.

(** The connection registered under an id, if it is alive. *)
Definition registered (m : registry) (alive : conn_ref -> bool) {A} (id : ConnectionId) (x : A) : option (conn_ref * A) :=
  c ← m !! id; if alive c then Some (c, x) else None.

Lemma deliver_ok T m alive id d :
  table_rep T m -> 0 <= slot id -> deliver T alive id d = registered m alive id d.
Proof.
  intros HR Hs. unfold deliver, registered. rewrite (Acquire_ok T m) by done.
  destruct (m !! id) as [c |]; [| done]. cbn. by destruct (alive c).
Qed.

Lemma timed_timers T m alive l :
  table_rep T m -> (forall e, e ∈ l -> 0 <= slot (tid e)) ->
  timed (omap (fun ev => deliver T alive (tid ev) (DTimer ev)) l) = omap (fun ev => registered m alive (tid ev) ev) l /\
  polled (omap (fun ev => deliver T alive (tid ev) (DTimer ev)) l) = [].
Proof.
  intros HR. induction l as [| ev l IH]; intros Hl; [done |]. destruct IH as [IH1 IH2]; [set_solver |]. unfold timed, polled in *. cbn.
  rewrite (deliver_ok T m) by (done || set_solver). unfold registered in *.
  destruct (m !! tid ev) as [c |]; cbn; [| done]. destruct (alive c); cbn; [| done]. by rewrite IH1.
Qed.

Lemma polled_events T m alive l :
  table_rep T m -> (forall e, e ∈ l -> 0 <= slot (ev_id e)) ->
  polled (omap (fun ev => deliver T alive (ev_id ev) (DPoll ev)) l) = omap (fun id => registered m alive id id) (ev_id <$> l) /\
  timed (omap (fun ev => deliver T alive (ev_id ev) (DPoll ev)) l) = [].
Proof.
  intros HR. induction l as [| ev l IH]; intros Hl; [done |]. destruct IH as [IH1 IH2]; [set_solver |]. unfold timed, polled in *. cbn.
  rewrite (deliver_ok T m) by (done || set_solver). unfold registered in *.
  destruct (m !! ev_id ev) as [c |]; cbn; [| done]. destruct (alive c); cbn; [| done]. by rewrite IH1.
Qed.

(** A round of the poll thread delivers to the right connections: an event of a socket that
    was added under [id] goes to the connection registered under [id] if it is alive, in the
    kernel's order, wake-ups go to nobody; of the timers exactly those that are due are
    delivered in the same way and removed, earliest first, and the others are kept. *)
Theorem poll_round_delivers (r : GlobalRuntime) (m : registry) (alive : conn_ref -> bool) (errno now : Z)
    (evs : list epoll_event) (ids : list (option ConnectionId)) :
  table_rep (connections_ r) m -> 0 <= poll_fd_ (poller_ r) ->
  Forall2 (fun ev oid => match oid with
                         | None => ee_u64 ev = 0
                         | Some id => id_ok id /\ valid id = true /\ ee_u64 ev = ToUint64 id
                         end) evs ids ->
  (forall e, e ∈ pq_elems (timers_ r) -> id_ok (tid e)) ->
  let '(out, r') := poll_round r alive (zlen evs) errno evs now in
  polled out = omap (fun oid => id ← oid; registered m alive id id) ids /\
  (exists due, due ≡ₚ filter (expired now) (pq_elems (timers_ r)) /\
     Sorted (fun a b => deadline_ms a <= deadline_ms b) due /\
     timed out = omap (fun e => registered m alive (tid e) e) due) /\
  pq_elems (timers_ r') ≡ₚ filter (fun e => ~ expired now e) (pq_elems (timers_ r)).
Proof.
  intros HT Hp HF Htm. unfold poll_round. pose proof (poller_wait_ids (poller_ r) (zlen evs) errno evs ids Hp eq_refl HF) as HW.
  destruct (Poller_Wait _ _ _ _) as [rc events] eqn:EW. cbn in HW.
  pose proof (PopExpired_ok (timers_ r) now) as HP. destruct (PopExpired _ _) as [due q]. destruct HP as (Hd & Hq & Hso).
  assert (Hslots : forall e, e ∈ events -> 0 <= slot (ev_id e)).
  { intros e He. assert (Hin : ev_id e ∈ omap (fun oid => oid) ids) by (rewrite <- HW; by apply list_elem_of_fmap_2).
    apply list_elem_of_omap in Hin as (oid & Hoid & ->). apply list_elem_of_lookup in Hoid as [i Hi].
    destruct (Forall2_lookup_r _ _ _ _ _ HF Hi) as (ev & _ & Hok & _). apply Hok. }
  assert (Hdue : forall e, e ∈ due -> 0 <= slot (tid e)).
  { intros e He. rewrite Hd in He. apply list_elem_of_filter in He as [_ He]. by apply Htm. }
  destruct (polled_events _ m alive events HT Hslots) as [P1 P2]. destruct (timed_timers _ m alive due HT Hdue) as [T1 T2].
  split_and!; [| exists due; split_and!; [done | done |] | done].
  - unfold polled in *. rewrite omap_app, P1, T2, app_nil_r, HW. clear.
    induction ids as [| [id |] ids IH]; cbn; [done | | done]. by rewrite IH.
  - unfold timed in *. by rewrite omap_app, P2, T1.
Qed.

End Runtime.

(** ** Examples *)

(** A system with four processors on which everything works, and one on which the second
    worker thread cannot be created. *)
Definition env_demo : start_env :=
  {| env_init := {| r_create1 := 5; r_create := -1; r_getfd := 0; r_setfd := 0; r_eventfd := 6; r_ctl := 0; r_errno := 0 |};
     hardware_concurrency := 4; worker_thread_ok := fun _ => true; poll_thread_ok := true |}.
Definition env_full : start_env :=
  {| env_init := env_init env_demo; hardware_concurrency := 4;
     worker_thread_ok := fun i => bool_decide (i < 1)%nat; poll_thread_ok := true |}.

Lemma env_demo_ok : env_ok env_demo.
Proof. unfold env_ok, fresh_fds, UINT32_MAX. cbn. lia. Qed.
Lemma env_full_ok : env_ok env_full.
Proof. exact env_demo_ok. Qed.

(** The first initialization fails, two succeed, one is undone. *)
Definition lib_demo : list (@lib_op sorted_queue) :=
  [LInit env_full; LSetWorkers 3; LInit env_demo; LInit env_full; LShutdown].

Lemma lib_demo_ok : Forall lib_op_ok (lib_demo ++ [LShutdown]).
Proof. repeat (apply List.Forall_cons; [cbn; auto using env_demo_ok, env_full_ok; lia |]). apply List.Forall_nil. Qed.

Lemma library_all_or_nothing_witness :
  held (lib_calls Library_new (lib_demo ++ [LShutdown; LShutdown; LInit env_demo])) = 1 /\
  running_ (runtime (lib_run (lib_demo ++ [LShutdown; LShutdown; LInit env_demo]))) = true /\
  threads (pool_ (runtime (lib_run (lib_demo ++ [LShutdown])))) = ∅.
Proof.
  split; [reflexivity |]. split.
  - refine (proj1 (proj1 (proj2 (library_all_or_nothing (lib_demo ++ [LShutdown; LShutdown; LInit env_demo]) env_demo _)) _));
      [| vm_compute; reflexivity].
    repeat (apply List.Forall_cons; [cbn; auto using env_demo_ok, env_full_ok; lia |]). apply List.Forall_nil.
  - apply (library_all_or_nothing (lib_demo ++ [LShutdown]) env_demo lib_demo_ok). reflexivity.
Defined.

Lemma library_refcount_witness : g_initializations (lib_run (lib_demo ++ [LShutdown])) = 0.
Proof. exact (proj1 (library_refcount lib_demo LShutdown lib_demo_ok)). Defined.

Lemma worker_threads_started_witness :
  let count r0 := let '(e, r') := Runtime_Start env_demo r0 in
    if e is None then Some (WorkerCount (pool_ r')) else None in
  forall c, count (SetWorkerThreads 3 (@GlobalRuntime_new sorted_queue _)).2 = Some c -> c = 3.
Proof. exact (proj1 (worker_threads_started GlobalRuntime_new env_demo 3 runtime_ok_new eq_refl env_demo_ok ltac:(lia))). Defined.

(** Connection 7 is registered; its socket is readable, the poller was woken, and a timer
    of a connection that is gone is due. *)
Definition id_demo : ConnectionId := {| slot := 0; generation := 1 |}.
Definition round_demo : @GlobalRuntime sorted_queue :=
  (runtime (lib_run [LInit env_demo]))
    <| connections_ := {| entries_ := [{| e_generation := 1; e_active := true; e_conn := Some 7%nat |}]; free_slots_ := [] |} |>
    <| timers_ := Add pq_new 100 {| slot := 3; generation := 2 |} kConnectTimeout |>.

Lemma table_demo_rep : table_rep (connections_ round_demo) {[id_demo := 7%nat]}.
Proof.
  destruct (Register_ok ConnectionTable_new ∅ 7 table_rep_empty) as (id & T & HR & _ & _ & _ & HT).
  - right. by vm_compute.
  - vm_compute in HR. injection HR as <- <-. exact HT.
Qed.

Lemma poll_round_delivers_witness :
  polled (poll_round round_demo (fun _ => true) 2 0
    [{| ee_events := EPOLLIN; ee_u64 := 0 |}; {| ee_events := EPOLLIN; ee_u64 := ToUint64 id_demo |}] 150).1 =
  [(7%nat, id_demo)].
Proof.
  pose proof (poll_round_delivers round_demo {[id_demo := 7%nat]} (fun _ => true) 0 150
    [{| ee_events := EPOLLIN; ee_u64 := 0 |}; {| ee_events := EPOLLIN; ee_u64 := ToUint64 id_demo |}]
    [None; Some id_demo] table_demo_rep) as H.
  destruct (poll_round _ _ _ _ _ _) as [out r']. apply H.
  - vm_compute. discriminate.
  - repeat constructor; cbn; unfold UINT32_MAX; lia || reflexivity.
  - intros e He. vm_compute in He. apply list_elem_of_singleton in He as ->. unfold id_ok, UINT32_MAX. cbn. lia.
Defined.

(** ** Winsock *)

(** [LibraryInit] and [LibraryShutdown] on Windows also start and clean up Winsock. What the
    runtime is does not matter for this: [start] and [stop] are [ClientImpl::Init] and
    [ClientImpl::Shutdown]. *)
Module Winsock.
Section Winsock.
Context {R E : Type} (start : E -> R -> bool * R) (stop : R -> R).

(** [startups], [cleanups]: the successful calls of [WSAStartup] and the calls of [WSACleanup]. *)
Record WinLibrary := { initializations : Z; startups : Z; cleanups : Z; win_runtime : R }.

Definition winsock_init (rc : Z) (l : WinLibrary) : WinLibrary :=
  if rc =? 0 then {| initializations := initializations l; startups := startups l + 1; cleanups := cleanups l; win_runtime := win_runtime l |} else l.
Definition winsock_shutdown (l : WinLibrary) : WinLibrary :=
  {| initializations := initializations l; startups := startups l; cleanups := cleanups l + 1; win_runtime := win_runtime l |}.

Definition set_count (n : Z) (l : WinLibrary) : WinLibrary :=
  {| initializations := n; startups := startups l; cleanups := cleanups l; win_runtime := win_runtime l |}.

Definition LibraryInit_win32 (rc : Z) (env : E) (l : WinLibrary) : bool * WinLibrary :=
  let l := set_count (initializations l + 1) l in
  if initializations l =? 1 then
    let l := winsock_init rc l in
    if negb (rc =? 0) then (false, set_count (initializations l - 1) l)
    else
      let '(ok, r) := start env (win_runtime l) in
      let l := {| initializations := initializations l; startups := startups l; cleanups := cleanups l; win_runtime := r |} in
      if ok then (true, l) else let l := winsock_shutdown l in (false, set_count (initializations l - 1) l)
  else (true, l).

Definition LibraryShutdown_win32 (l : WinLibrary) : WinLibrary :=
  if initializations l <=? 0 then l
  else
    let l := set_count (initializations l - 1) l in
    if initializations l =? 0 then
      winsock_shutdown {| initializations := initializations l; startups := startups l; cleanups := cleanups l; win_runtime := stop (win_runtime l) |}
    else l.

Inductive op := OInit (rc : Z) (env : E) | OShutdown.
Definition step (l : WinLibrary) (o : op) : WinLibrary :=
  match o with OInit rc env => (LibraryInit_win32 rc env l).2 | OShutdown => LibraryShutdown_win32 l end.

#[local] Ltac balance := cbn; split; [lia |]; repeat match goal with
  | |- context [0 <? ?x] => destruct (Z.ltb_spec 0 x)
  | H : context [0 <? ?x] |- _ => destruct (Z.ltb_spec 0 x)
  end; lia.

(** Every start of Winsock is cleaned up exactly once, also when the runtime does not start, and
    Winsock is up exactly while the library is initialized. *)
Theorem winsock_balanced (ops : list op) (r : R) :
  let l := foldl step {| initializations := 0; startups := 0; cleanups := 0; win_runtime := r |} ops in
  0 <= initializations l /\ startups l - cleanups l = (if 0 <? initializations l then 1 else 0).
Proof.
  induction ops as [| o ops IH] using rev_ind; [done |]. rewrite foldl_app. cbn zeta in *. cbn [foldl].
  set (l := foldl _ _ ops) in *. clearbody l. destruct IH as [H0 Hb]. destruct o as [rc env |]; cbn [step].
  - unfold LibraryInit_win32, winsock_init, winsock_shutdown. cbn. destruct (Z.eqb_spec (initializations l + 1) 1); [| balance].
    destruct (rc =? 0); cbn; [destruct (start env (win_runtime l)) as [[] r'] |]; balance.
  - unfold LibraryShutdown_win32, winsock_shutdown. destruct (Z.leb_spec (initializations l) 0); [done |].
    cbn. destruct (Z.eqb_spec (initializations l - 1) 0); balance.
Qed.
End Winsock.
End Winsock.
