(* ===== verification/Sync.v ===== *)
(** * Mutexes, once-initialization, and the library's own lock

    [src/utils/sync.h], [src/utils/sync.cc] (POSIX: a mutex is not recursive) and the locking of
    [src/core/init.cc]. [Runtime.v] takes [LibraryInit] and [LibraryShutdown] as single steps;
    here they are what they are: a call of [ConnxOnceInit], and a scope of a [MutexLock] whose
    body is made of several accesses. Any number of threads call them.

    The machine is generic in the body ([Guarded]); the theorems say that it behaves as if
    the calls were single steps, and that it does not deadlock and ends. *)

From S2P Require Import Prelude WorkerPool Timer Poller ConnTable Runtime.

(** ** The primitives *)

Inductive mutex := MUninit | MFree | MHeld (owner : nat).
Inductive once := ONever | ORunning (by_ : nat) | ODone.

(** What a call does: go on, block, or something undefined. *)
Inductive sync_result (A : Type) := Go (a : A) | Block | Undefined.
#[global] Arguments Go {A} a.
#[global] Arguments Block {A}.
#[global] Arguments Undefined {A}.

(** [pthread_mutex_init] on a mutex in use is undefined. *)
Definition ConnxMutexInit (m : mutex) : sync_result mutex := match m with MUninit => Go MFree | _ => Undefined end.
Definition ConnxMutexLock (i : nat) (m : mutex) : sync_result mutex :=
  match m with MUninit => Undefined | MFree => Go (MHeld i) | MHeld _ => Block end.
Definition ConnxMutexUnlock (i : nat) (m : mutex) : sync_result mutex :=
  match m with MHeld j => if decide (i = j) then Go MFree else Undefined | _ => Undefined end.

(** The constructor and the destructor of [MutexLock]. *)
Definition MutexLock_new (i : nat) (m : mutex) : sync_result mutex := ConnxMutexLock i m.
Definition MutexLock_destroy (i : nat) (m : mutex) : sync_result mutex := ConnxMutexUnlock i m.

(** [ConnxOnceInit] begins: run the function, or go on, or wait for the thread that runs it. *)
Definition ConnxOnceInit (i : nat) (o : once) : sync_result (bool * once) :=
  match o with ONever => Go (true, ORunning i) | ORunning _ => Block | ODone => Go (false, ODone) end.

(** ** Calls whose body is guarded by a mutex *)

(** [C]: the calls; [L]: where the body of a call is; [R]: what it returns; [reset]: what the
    once-initialization makes of the data. [run] is the whole body as one step. *)
Class Guarded (D C L R : Type) := {
  entry : C -> L;
  body : C -> L -> D -> D * (L + R);
  reset : D -> D;
  run : C -> D -> D * R;
  rank : L -> nat;
  body_rank c l d d' l' : body c l d = (d', inl l') -> (rank l' < rank l)%nat;
  body_run c d l d1 d2 r :
    rtc (fun x y => body c x.1 x.2 = (y.2, inl y.1)) (entry c, d) (l, d1) -> body c l d1 = (d2, inr r) -> run c d = (d2, r)
}.

Section Machine.
Context `{G : Guarded D C L R}.

(** Where a thread is: outside, in the function of [ConnxOnceInit], before the lock, in the
    scope of the lock, at its end. *)
Inductive pc := PIdle | PInit (k : nat) | PLock | PIn (l : L) | PUnlock (r : R).

(** A thread makes the calls in [todo], of which the first may be under way. *)
Record thread := Thread { todo : list C; at_ : pc; rets : list R }.

(** [log]: the calls in the order in which they got the lock. *)
Record sys := Sys { g_init_mtx : mutex; g_basic_init : once; data : D; threads : list thread; log : list (nat * C) }.

(** A step of [do_basic_init]: the mutex, then the data. *)
Definition do_basic_init (k : nat) (m : mutex) (d : D) : sync_result (mutex * D) :=
  match k with
  | 2%nat => match ConnxMutexInit m with Go m => Go (m, d) | Block => Block | Undefined => Undefined end
  | _ => Go (m, reset d)
  end.

Definition thread_step (i : nat) (t : thread) (x : sys) : sync_result sys :=
  let go m o d t' lg := Go {| g_init_mtx := m; g_basic_init := o; data := d; threads := <[i := t']> (threads x); log := lg |} in
  match todo t with
  | [] => Block
  | c :: todo' =>
      match at_ t with
      | PIdle =>
          match ConnxOnceInit i (g_basic_init x) with
          | Go (true, o) => go (g_init_mtx x) o (data x) (Thread (todo t) (PInit 2) (rets t)) (log x)
          | Go (false, o) => go (g_init_mtx x) o (data x) (Thread (todo t) PLock (rets t)) (log x)
          | Block => Block
          | Undefined => Undefined
          end
      | PInit 0 => go (g_init_mtx x) ODone (data x) (Thread (todo t) PLock (rets t)) (log x)
      | PInit (S k as n) =>
          match do_basic_init n (g_init_mtx x) (data x) with
          | Go (m, d) => go m (g_basic_init x) d (Thread (todo t) (PInit k) (rets t)) (log x)
          | Block => Block
          | Undefined => Undefined
          end
      | PLock =>
          match MutexLock_new i (g_init_mtx x) with
          | Go m => go m (g_basic_init x) (data x) (Thread (todo t) (PIn (entry c)) (rets t)) (log x ++ [(i, c)])
          | Block => Block
          | Undefined => Undefined
          end
      | PIn l =>
          match body c l (data x) with
          | (d, inl l') => go (g_init_mtx x) (g_basic_init x) d (Thread (todo t) (PIn l') (rets t)) (log x)
          | (d, inr r) => go (g_init_mtx x) (g_basic_init x) d (Thread (todo t) (PUnlock r) (rets t)) (log x)
          end
      | PUnlock r =>
          match MutexLock_destroy i (g_init_mtx x) with
          | Go m => go m (g_basic_init x) (data x) (Thread todo' PIdle (rets t ++ [r])) (log x)
          | Block => Block
          | Undefined => Undefined
          end
      end
  end.

Definition sys_init (d : D) (programs : list (list C)) : sys :=
  {| g_init_mtx := MUninit; g_basic_init := ONever; data := d; threads := (fun p => Thread p PIdle []) <$> programs; log := [] |}.

Definition step (x y : sys) : Prop := exists i t, threads x !! i = Some t /\ thread_step i t x = Go y.

(** ** The calls as single steps *)

Fixpoint replay (lg : list (nat * C)) (d : D) : D * list (nat * R) :=
  match lg with
  | [] => (d, [])
  | (i, c) :: lg' => let '(d', r) := run c d in let '(d'', rs) := replay lg' d' in (d'', (i, r) :: rs)
  end.

(** What belongs to thread [i]. *)
Definition of_thread {A} (i : nat) (l : list (nat * A)) : list A := (filter (fun x => x.1 = i) l).*2.

(** ** The invariant *)

(** A thread that holds the lock. *)
Definition inside (t : thread) : bool := match at_ t with PIn _ | PUnlock _ => true | _ => false end.

(** The calls of thread [i] in the log and those to come are its program, and what it got back
    is what they return as single steps. *)
Definition thread_ok (d0 : D) (lg : list (nat * C)) (i : nat) (p : list C) (t : thread) : Prop :=
  of_thread i lg ++ (if inside t then tail (todo t) else todo t) = p /\
  (exists more, of_thread i (replay lg (reset d0)).2 = rets t ++ more /\
     (inside t = false -> more = []) /\ (forall r, at_ t = PUnlock r -> more = [r]) /\ (inside t = true -> length more = 1%nat)) /\
  (at_ t <> PIdle -> todo t <> []).

Definition threads_ok (d0 : D) (P : list (list C)) (lg : list (nat * C)) (ths : list thread) : Prop :=
  forall i t, ths !! i = Some t -> exists p, P !! i = Some p /\ thread_ok d0 lg i p t.

(** All threads but [i] satisfy [Q]. *)
Definition others (i : nat) (ths : list thread) (Q : thread -> Prop) : Prop := forall j t, j <> i -> ths !! j = Some t -> Q t.

Definition holder_ok (d0 : D) (i : nat) (x : sys) : Prop :=
  exists t lg c, threads x !! i = Some t /\ log x = lg ++ [(i, c)] /\ head (todo t) = Some c /\
    match at_ t with
    | PIn l => rtc (fun u v => body c u.1 u.2 = (v.2, inl v.1)) (entry c, (replay lg (reset d0)).1) (l, data x)
    | PUnlock r => run c (replay lg (reset d0)).1 = (data x, r)
    | _ => False
    end.

Definition phase_ok (d0 : D) (x : sys) : Prop :=
  match g_basic_init x with
  | ONever => g_init_mtx x = MUninit /\ data x = d0 /\ log x = [] /\ (forall j t, threads x !! j = Some t -> at_ t = PIdle)
  | ORunning i =>
      log x = [] /\ others i (threads x) (fun t => at_ t = PIdle) /\
      exists t k, threads x !! i = Some t /\ at_ t = PInit k /\
        match k with
        | 0%nat => g_init_mtx x = MFree /\ data x = reset d0
        | 1%nat => g_init_mtx x = MFree /\ data x = d0
        | 2%nat => g_init_mtx x = MUninit /\ data x = d0
        | _ => False
        end
  | ODone =>
      (forall j t k, threads x !! j = Some t -> at_ t <> PInit k) /\
      match g_init_mtx x with
      | MUninit => False
      | MFree => (forall j t, threads x !! j = Some t -> inside t = false) /\ data x = (replay (log x) (reset d0)).1
      | MHeld i => others i (threads x) (fun t => inside t = false) /\ holder_ok d0 i x
      end
  end.

Definition inv (d0 : D) (P : list (list C)) (x : sys) : Prop :=
  length (threads x) = length P /\ threads_ok d0 P (log x) (threads x) /\ phase_ok d0 x.

Lemma replay_snoc lg i c d :
  replay (lg ++ [(i, c)]) d =
    ((run c (replay lg d).1).1, (replay lg d).2 ++ [(i, (run c (replay lg d).1).2)]).
Proof.
  revert d. induction lg as [| [j c'] lg IH]; intros d; cbn; [by destruct (run c d) |].
  destruct (run c' d) as [d' r]. rewrite IH. by destruct (replay lg d').
Qed.

Lemma of_thread_app {A} i (l k : list (nat * A)) : of_thread i (l ++ k) = of_thread i l ++ of_thread i k.
Proof. unfold of_thread. by rewrite list.filter_app, fmap_app. Qed.

Lemma of_thread_one {A} i j (a : A) : of_thread i [(j, a)] = if decide (i = j) then [a] else [].
Proof. unfold of_thread. rewrite list.filter_cons. cbn. by destruct (decide (i = j)), (decide (j = i)); subst. Qed.

(** A call of another thread does not matter. *)
Lemma thread_ok_other d0 lg i j c p t : i <> j -> thread_ok d0 lg i p t -> thread_ok d0 (lg ++ [(j, c)]) i p t.
Proof.
  intros Hij (H1 & (more & H2 & H3) & H4). unfold thread_ok. rewrite replay_snoc. cbn [snd].
  rewrite !(of_thread_app i), !(of_thread_one i), !decide_False, !app_nil_r by done. split; [done |]. split; [by exists more | done].
Qed.

(** Only thread [i] changes. *)
Lemma threads_ok_insert d0 P lg ths i t p t' :
  threads_ok d0 P lg ths -> ths !! i = Some t -> P !! i = Some p -> thread_ok d0 lg i p t' -> threads_ok d0 P lg (<[i := t']> ths).
Proof.
  intros HT Hi Hp Ht j u Hj. apply list_lookup_insert_Some in Hj as [(-> & <- & _) | [_ Hj]]; [by exists p | by apply HT].
Qed.

Lemma threads_ok_lock d0 P lg ths i t p c t' :
  threads_ok d0 P lg ths -> ths !! i = Some t -> P !! i = Some p -> thread_ok d0 (lg ++ [(i, c)]) i p t' ->
  threads_ok d0 P (lg ++ [(i, c)]) (<[i := t']> ths).
Proof.
  intros HT Hi Hp Ht j u Hj. apply list_lookup_insert_Some in Hj as [(-> & <- & _) | [Hij Hj]]; [by exists p |].
  destruct (HT _ _ Hj) as (q & Hq & Hu). exists q. split; [done |]. by apply thread_ok_other.
Qed.

Lemma others_insert i ths t' (Q : thread -> Prop) : others i ths Q -> others i (<[i := t']> ths) Q.
Proof. intros HO j t Hj Hl. rewrite list_lookup_insert_ne in Hl by done. by eapply HO. Qed.

Definition good (d0 : D) (P : list (list C)) (o : sync_result sys) : Prop :=
  match o with Go y => inv d0 P y | Block => True | Undefined => False end.

Section Steps.
Context (d0 : D) (P : list (list C)) (x : sys) (Hinv : inv d0 P x).
Context (i : nat) (t : thread) (Hi : threads x !! i = Some t).

(** The thread was outside and stays outside. *)
Lemma thread_outside p t' :
  thread_ok d0 (log x) i p t -> inside t = false -> inside t' = false -> todo t' = todo t -> rets t' = rets t -> todo t <> [] ->
  thread_ok d0 (log x) i p t'.
Proof.
  intros (H1 & (more & H2 & H3 & _) & _) Ht Ht' Etd Er Hne. unfold thread_ok. rewrite Ht', Etd, Er. rewrite Ht in H1. split; [done |].
  split; [| done]. exists more. split_and!; [done | intros _; by apply H3 | | done]. intros r Hr. unfold inside in Ht'. by rewrite Hr in Ht'.
Qed.

Lemma lookup_new t' : <[i := t']> (threads x) !! i = Some t'.
Proof. apply list_lookup_insert_eq. by eapply lookup_lt_Some. Qed.

Lemma outside_step c rest m o a :
  todo t = c :: rest -> inside t = false -> inside (Thread (todo t) a (rets t)) = false ->
  (forall d, phase_ok d0 {| g_init_mtx := m; g_basic_init := o; data := d; threads := <[i := Thread (todo t) a (rets t)]> (threads x); log := log x |} ->
    inv d0 P {| g_init_mtx := m; g_basic_init := o; data := d; threads := <[i := Thread (todo t) a (rets t)]> (threads x); log := log x |}).
Proof.
  intros Ec Ht Ha d Hph. destruct Hinv as (Hl & HT & _). destruct (HT _ _ Hi) as (p & Hp & Hok). split_and!; [cbn [threads]; by rewrite length_insert | | exact Hph].
  eapply threads_ok_insert; [done | done | done |]. eapply thread_outside; try done. by rewrite Ec.
Qed.

Lemma step_once c rest : todo t = c :: rest -> at_ t = PIdle -> good d0 P (thread_step i t x).
Proof.
  intros Ec Ea. unfold thread_step. rewrite Ec, Ea. assert (Ht : inside t = false) by (unfold inside; by rewrite Ea).
  pose proof Hinv as (_ & _ & Hph). unfold phase_ok in Hph. rewrite <- Ec.
  destruct (g_basic_init x) as [| j |] eqn:Eo; cbn [ConnxOnceInit good].
  - destruct Hph as (Hm & Hd & Hlg & Hall). eapply outside_step; [done | done | done |]. cbn. split_and!; [done | |].
    + apply others_insert. intros j u _ Hj. by eapply Hall.
    + exists (Thread (todo t) (PInit 2) (rets t)), 2%nat. split_and!; try done. apply lookup_new.
  - done.
  - destruct Hph as (Hno & Hm). eapply outside_step; [done | done | done |]. cbn. split.
    + intros j u k Hj. apply list_lookup_insert_Some in Hj as [(_ & <- & _) | [_ Hj]]; [done | by eapply Hno].
    + destruct (g_init_mtx x) as [| | j]; [done | |].
      * destruct Hm as [Hall Hd]. split; [| done]. intros j u Hj. apply list_lookup_insert_Some in Hj as [(_ & <- & _) | [_ Hj]]; [done | by eapply Hall].
      * destruct Hm as [Hoth Hh]. assert (Hij : i <> j).
        { intros Eij. destruct Hh as (u & ? & ? & Hu & _ & _ & Hat). rewrite <- Eij, Hi in Hu. injection Hu as <-. by rewrite Ea in Hat. }
        split.
        -- intros k u Hk Hu. apply list_lookup_insert_Some in Hu as [(_ & <- & _) | [_ Hu]]; [done | by eapply Hoth].
        -- destruct Hh as (u & lg & c' & Hu & Hrest). exists u, lg, c'. split; [| done]. cbn. by rewrite list_lookup_insert_ne.
Qed.

Lemma step_init c rest k : todo t = c :: rest -> at_ t = PInit k -> good d0 P (thread_step i t x).
Proof.
  intros Ec Ea. unfold thread_step. rewrite Ec, Ea. assert (Ht : inside t = false) by (unfold inside; by rewrite Ea).
  pose proof Hinv as (_ & _ & Hph). unfold phase_ok in Hph. rewrite <- Ec.
  destruct (g_basic_init x) as [| j |] eqn:Eo.
  { destruct Hph as (_ & _ & _ & Hall). rewrite (Hall _ _ Hi) in Ea. done. }
  2:{ destruct Hph as (Hno & _). by destruct (Hno _ _ k Hi). }
  destruct Hph as (Hlg & Hoth & u & k' & Hu & Eu & Hk).
  assert (j = i) as ->. { destruct (decide (i = j)) as [Eij | Hij]; [done |]. by rewrite (Hoth i t Hij Hi) in Ea. }
  rewrite Hi in Hu. injection Hu as <-. rewrite Ea in Eu. injection Eu as <-.
  assert (Hnew : forall a, others i (<[i := Thread (todo t) a (rets t)]> (threads x)) (fun t => at_ t = PIdle)) by (intros a; by apply others_insert).
  destruct k as [| [| [| k]]]; [| | | done]; destruct Hk as [Hm Hd].
  - cbn [good]. eapply outside_step; [done | done | done |]. cbn. split.
    + intros l u n Hl. destruct (decide (l = i)) as [-> | Hne]; [rewrite lookup_new in Hl; by injection Hl as <- |]. by rewrite (Hnew _ l u Hne Hl).
    + rewrite Hm, Hlg. cbn. split; [| done]. intros l u Hl. destruct (decide (l = i)) as [-> | Hne].
      * rewrite lookup_new in Hl. by injection Hl as <-.
      * unfold inside. by rewrite (Hnew _ l u Hne Hl).
  - cbn [good do_basic_init]. eapply outside_step; [done | done | done |]. cbn. split_and!; [done | done |].
    exists (Thread (todo t) (PInit 0) (rets t)), 0%nat. split_and!; try done; [apply lookup_new | by rewrite Hd].
  - rewrite Hm. cbn [good do_basic_init ConnxMutexInit]. eapply outside_step; [done | done | done |]. cbn. split_and!; [done | done |].
    exists (Thread (todo t) (PInit 1) (rets t)), 1%nat. split_and!; try done. apply lookup_new.
Qed.

(** Past the once-initialization. *)
Lemma phase_done : at_ t <> PIdle -> (forall k, at_ t <> PInit k) ->
  g_basic_init x = ODone /\ (forall j u k, threads x !! j = Some u -> at_ u <> PInit k) /\
  match g_init_mtx x with
  | MUninit => False
  | MFree => (forall j t, threads x !! j = Some t -> inside t = false) /\ data x = (replay (log x) (reset d0)).1
  | MHeld i => others i (threads x) (fun t => inside t = false) /\ holder_ok d0 i x
  end.
Proof.
  intros H1 H2. pose proof Hinv as (_ & _ & Hph). unfold phase_ok in Hph. destruct (g_basic_init x) as [| j |] eqn:Eo; [exfalso .. | done].
  - destruct Hph as (_ & _ & _ & Hall). by apply H1, (Hall i).
  - destruct Hph as (_ & Hoth & u & k & Hu & Eu & _). destruct (decide (j = i)) as [-> | Hij].
    + rewrite Hi in Hu. injection Hu as <-. by apply (H2 k).
    + by apply H1, (Hoth i).
Qed.

(** No thread is in [ConnxOnceInit] after this one has moved on to [a]. *)
Lemma no_init a td rs : (forall j u k, threads x !! j = Some u -> at_ u <> PInit k) -> (forall k, a <> PInit k) ->
  forall j u k, <[i := Thread td a rs]> (threads x) !! j = Some u -> at_ u <> PInit k.
Proof. intros Hno Ha j u k Hj. apply list_lookup_insert_Some in Hj as [(_ & <- & _) | [_ Hj]]; [apply Ha | by eapply Hno]. Qed.

Lemma step_lock c rest : todo t = c :: rest -> at_ t = PLock -> good d0 P (thread_step i t x).
Proof.
  intros Ec Ea. unfold thread_step. rewrite Ec, Ea. rewrite <- Ec.
  destruct phase_done as (Eo & Hno & Hm); [by rewrite Ea | intros k; by rewrite Ea |].
  destruct (g_init_mtx x) as [| | j] eqn:Em; cbn [MutexLock_new ConnxMutexLock good]; [done | | done].
  destruct Hm as [Hall Hd]. destruct Hinv as (Hl & HT & _). destruct (HT _ _ Hi) as (p & Hp & Hok). split_and!.
  - cbn [threads]. by rewrite length_insert.
  - cbn. eapply threads_ok_lock; [done | done | done |].
    destruct Hok as (H1 & (more & H2 & H3 & _) & _). unfold inside in H1, H3. rewrite Ea in H1, H3. rewrite (H3 eq_refl), app_nil_r in H2.
    unfold thread_ok. rewrite replay_snoc, of_thread_app, of_thread_one, decide_True by done. cbn [inside at_ todo rets snd]. split_and!.
    + rewrite Ec in *. by rewrite <- app_assoc.
    + eexists. split_and!; [by rewrite of_thread_app, of_thread_one, decide_True, H2 by done | done | done | done].
    + by rewrite Ec.
  - unfold phase_ok. cbn. rewrite Eo. split; [by apply no_init |]. split.
    + apply others_insert. intros k u _ Hu. by eapply Hall.
    + exists (Thread (todo t) (PIn (entry c)) (rets t)), (log x), c. split_and!; [apply lookup_new | done | by rewrite Ec |]. cbn. rewrite Hd. apply rtc_refl.
Qed.

(** The thread that holds the lock. *)
Lemma phase_inside : inside t = true ->
  g_basic_init x = ODone /\ (forall j u k, threads x !! j = Some u -> at_ u <> PInit k) /\
  g_init_mtx x = MHeld i /\ others i (threads x) (fun t => inside t = false) /\ holder_ok d0 i x.
Proof.
  intros Ht. destruct phase_done as (Eo & Hno & Hm); [intros E; unfold inside in Ht; by rewrite E in Ht | intros k E; unfold inside in Ht; by rewrite E in Ht |].
  destruct (g_init_mtx x) as [| | j]; [done | by rewrite (proj1 Hm i t Hi) in Ht |]. destruct Hm as [Hoth Hh].
  destruct (decide (j = i)) as [-> | Hij]; [done |]. by rewrite (Hoth i t (not_eq_sym Hij) Hi) in Ht.
Qed.

Lemma step_body c rest l : todo t = c :: rest -> at_ t = PIn l -> good d0 P (thread_step i t x).
Proof.
  intros Ec Ea. unfold thread_step. rewrite Ec, Ea. rewrite <- Ec. assert (Ht : inside t = true) by (unfold inside; by rewrite Ea).
  destruct (phase_inside Ht) as (Eo & Hno & Em & Hoth & (u & lg & c' & Hu & Hlg & Hc & Hat)).
  rewrite Hi in Hu. injection Hu as <-. rewrite Ec in Hc. injection Hc as <-. rewrite Ea in Hat.
  destruct Hinv as (Hl & HT & _). destruct (HT _ _ Hi) as (p & Hp & H1 & (more & H2 & _ & _ & H3) & _). rewrite Ht in H1.
  destruct (body c l (data x)) as [d [l' | r]] eqn:Eb; cbn [good].
  - split_and!; [cbn [threads]; by rewrite length_insert | |].
    + eapply threads_ok_insert; [done | done | done |]. split; [exact H1 |]. split; [| cbn; by rewrite Ec].
      exists more. split_and!; [done | done | done | intros _; by apply H3].
    + unfold phase_ok. cbn. rewrite Eo, Em. split; [by apply no_init |]. split; [by apply others_insert |].
      eexists _, lg, c. split_and!; [apply lookup_new | done | cbn; by rewrite Ec |]. cbn. eapply rtc_r; [exact Hat | exact Eb].
  - pose proof (body_run c _ _ _ _ _ Hat Eb) as Hrun.
    split_and!; [cbn [threads]; by rewrite length_insert | |].
    + eapply threads_ok_insert; [done | done | done |]. split; [exact H1 |]. split; [| cbn; by rewrite Ec].
      assert (Em' : more = [r]).
      { rewrite Hlg, replay_snoc in H2. cbn [snd] in H2. rewrite of_thread_app, of_thread_one, decide_True, Hrun in H2 by done. cbn [snd] in H2.
        specialize (H3 Ht). destruct more as [| r' [| ? ?]]; [done | | done]. apply app_inj_tail in H2 as [_ ->]. done. }
      exists more. split_and!; [done | done | | intros _; by apply H3]. intros r' Hr'. injection Hr' as <-. exact Em'.
    + unfold phase_ok. cbn. rewrite Eo, Em. split; [by apply no_init |]. split; [by apply others_insert |].
      eexists _, lg, c. split_and!; [apply lookup_new | done | cbn; by rewrite Ec |]. exact Hrun.
Qed.

Lemma step_unlock c rest r : todo t = c :: rest -> at_ t = PUnlock r -> good d0 P (thread_step i t x).
Proof.
  intros Ec Ea. unfold thread_step. rewrite Ec, Ea. assert (Ht : inside t = true) by (unfold inside; by rewrite Ea).
  destruct (phase_inside Ht) as (Eo & Hno & Em & Hoth & (u & lg & c' & Hu & Hlg & Hc & Hat)).
  rewrite Hi in Hu. injection Hu as <-. rewrite Ec in Hc. injection Hc as <-. rewrite Ea in Hat.
  destruct Hinv as (Hl & HT & _). destruct (HT _ _ Hi) as (p & Hp & H1 & (more & H2 & _ & Hmore & H3) & _). rewrite Ht, Ec in H1.
  rewrite Em. cbn [MutexLock_destroy ConnxMutexUnlock]. rewrite decide_True by done. cbn [good]. split_and!.
  - cbn [threads]. by rewrite length_insert.
  - eapply threads_ok_insert; [done | done | done |]. split; [exact H1 |]. split; [| done].
    exists []. rewrite (Hmore r Ea) in H2. split_and!; [cbn; by rewrite app_nil_r | done | done | done].
  - unfold phase_ok. cbn. rewrite Eo. split; [by apply no_init |]. split.
    + intros j u Hj. apply list_lookup_insert_Some in Hj as [(_ & <- & _) | [Hj' Hj]]; [done | by apply (Hoth j u (not_eq_sym Hj'))].
    + rewrite Hlg, replay_snoc, Hat. done.
Qed.
End Steps.

Lemma step_good d0 P x i t : inv d0 P x -> threads x !! i = Some t -> good d0 P (thread_step i t x).
Proof.
  intros Hinv Hi. destruct (todo t) as [| c rest] eqn:Ec; [unfold thread_step; by rewrite Ec |].
  destruct (at_ t) as [| k | | l | r] eqn:Ea; [by eapply step_once | by eapply step_init | by eapply step_lock | by eapply step_body | by eapply step_unlock].
Qed.

Lemma lock_inv_init d0 P : inv d0 P (sys_init d0 P).
Proof.
  split_and!.
  - cbn. by rewrite length_fmap.
  - intros i t Hi. cbn in Hi. rewrite list_lookup_fmap in Hi. destruct (P !! i) as [p |]; [| done]. injection Hi as <-. exists p.
    split; [done |]. split; [done |]. split; [| done]. by exists [].
  - cbn. split_and!; try done. intros j t Hj. rewrite list_lookup_fmap in Hj. destruct (P !! j); [| done]. by injection Hj as <-.
Qed.

Lemma lock_reachable_inv d0 P x : rtc step (sys_init d0 P) x -> inv d0 P x.
Proof.
  intros Hx. pattern x. refine (rtc_ind_r _ _ _ _ _ Hx); [apply lock_inv_init |]. intros y z _ (i & t & Hi & Hz) Hy.
  pose proof (step_good _ _ _ _ _ Hy Hi) as HG. by rewrite Hz in HG.
Qed.

(** ** Progress and termination *)

(** The steps a call can take at most, and those a thread has left. *)
Definition call_cost (c : C) : nat := rank (entry c) + 8.
Definition pc_cost (c : C) (a : pc) : nat :=
  match a with PIdle => call_cost c | PInit k => rank (entry c) + 4 + k | PLock => rank (entry c) + 3 | PIn l => rank l + 2 | PUnlock _ => 1 end.
Definition calls_cost (cs : list C) : nat := sum_list (call_cost <$> cs).
Definition thread_cost (t : thread) : nat := match todo t with [] => 0 | c :: rest => pc_cost c (at_ t) + calls_cost rest end.
Definition cost (ths : list thread) : nat := sum_list (thread_cost <$> ths).

Lemma cost_insert ths i t t' :
  ths !! i = Some t -> (thread_cost t' < thread_cost t)%nat -> (cost (<[i := t']> ths) < cost ths)%nat.
Proof.
  unfold cost. revert i. induction ths as [| u ths IH]; intros [| i] Hi Hc; [done | done | |].
  - injection Hi as ->. change (thread_cost t' + sum_list (thread_cost <$> ths) < thread_cost t + sum_list (thread_cost <$> ths))%nat. lia.
  - specialize (IH i Hi Hc).
    change (thread_cost u + sum_list (thread_cost <$> <[i := t']> ths) < thread_cost u + sum_list (thread_cost <$> ths))%nat. lia.
Qed.

(** What changes in a step is one thread, which gets closer to its end. *)
Lemma thread_step_cost i t x y :
  thread_step i t x = Go y -> exists t', threads y = <[i := t']> (threads x) /\ (thread_cost t' < thread_cost t)%nat.
Proof.
  unfold thread_step. destruct t as [[| c rest] a rs]; [done |]. cbn [todo at_ rets]. intros HS.
  destruct a as [| [| k] | | l | r].
  - destruct (ConnxOnceInit i _) as [[[] o] | |]; [| | done | done]; injection HS as <-; eexists; (split; [reflexivity |]); cbn; unfold call_cost; lia.
  - injection HS as <-. eexists. split; [reflexivity |]. cbn. lia.
  - destruct (do_basic_init _ _ _) as [[m d] | |]; [| done | done]. injection HS as <-. eexists. split; [reflexivity |]. cbn. lia.
  - destruct (MutexLock_new i _) as [m | |]; [| done | done]. injection HS as <-. eexists. split; [reflexivity |]. cbn. lia.
  - destruct (body c l (data x)) as [d [l' | r]] eqn:Eb; injection HS as <-; eexists; (split; [reflexivity |]); cbn; [| lia].
    pose proof (body_rank _ _ _ _ _ Eb). lia.
  - destruct (MutexLock_destroy i _) as [m | |]; [| done | done]. injection HS as <-. eexists. split; [reflexivity |].
    unfold thread_cost. cbn [todo at_]. destruct rest as [| c' rest]; unfold calls_cost; cbn; lia.
Qed.

Lemma step_cost x y : step x y -> (cost (threads y) < cost (threads x))%nat.
Proof.
  intros (i & t & Hi & HS). destruct (thread_step_cost _ _ _ _ HS) as (t' & -> & Hc). by eapply cost_insert.
Qed.

Lemma steps_bounded n x y : nsteps step n x y -> (n + cost (threads y) <= cost (threads x))%nat.
Proof. induction 1 as [| n x y z Hxy _ IH]; [lia |]. apply step_cost in Hxy. lia. Qed.

Lemma cost_init d P : cost (threads (sys_init d P)) = sum_list (calls_cost <$> P).
Proof. unfold cost, sys_init. cbn [threads]. rewrite <- list_fmap_compose. f_equal. apply list_fmap_ext. intros _ [| c p] _; done. Qed.

(** Some thread can always go on. *)
Lemma progress d0 P x i t : inv d0 P x -> threads x !! i = Some t -> todo t <> [] -> exists y, step x y.
Proof.
  intros (Hl & HT & Hph) Hi Htd. unfold phase_ok in Hph.
  assert (Hgo : forall j u c rest, threads x !! j = Some u -> todo u = c :: rest -> (exists y, thread_step j u x = Go y) -> exists y, step x y).
  { intros j u c rest Hj _ [y Hy]. by exists y, j, u. }
  destruct (todo t) as [| c rest] eqn:Ec; [done |]. destruct (g_basic_init x) as [| j |] eqn:Eo.
  - destruct Hph as (_ & _ & _ & Hall). apply (Hgo i t c rest Hi Ec). unfold thread_step. rewrite Ec, (Hall i t Hi), Eo. cbn. by eexists.
  - destruct Hph as (_ & _ & u & k & Hu & Eu & Hk). destruct (HT _ _ Hu) as (p & _ & _ & _ & Hne).
    destruct (todo u) as [| c' rest'] eqn:Ec'; [destruct Hne; congruence |]. apply (Hgo j u c' rest' Hu Ec'). unfold thread_step. rewrite Ec', Eu.
    destruct k as [| [| [| k]]]; [| | | done]; destruct Hk as [Hm _]; rewrite ?Hm; cbn; by eexists.
  - destruct Hph as (Hno & Hm). destruct (g_init_mtx x) as [| | j] eqn:Em; [done | |].
    + destruct Hm as [Hall _]. apply (Hgo i t c rest Hi Ec). unfold thread_step. rewrite Ec, Eo, Em. specialize (Hall _ _ Hi).
      destruct (at_ t) eqn:Ea; unfold inside in Hall; rewrite Ea in Hall; try done; [cbn; by eexists | by destruct (Hno _ _ k Hi) | cbn; by eexists].
    + destruct Hm as [_ (u & lg & c' & Hu & _ & Hc & Hat)]. destruct (todo u) as [| c'' rest'] eqn:Ec'; [done |]. injection Hc as ->.
      apply (Hgo j u c' rest' Hu Ec'). unfold thread_step. rewrite Ec'. destruct (at_ u) as [| | | l | r]; try done.
      * destruct (body c' l (data x)) as [d [l' | r]]; by eexists.
      * rewrite Em. cbn. rewrite decide_True by done. by eexists.
Qed.

(** ** What the lock guarantees *)

Lemma machine_linearizable d0 P x :
  rtc step (sys_init d0 P) x ->
  (forall i t, threads x !! i = Some t -> thread_step i t x <> Undefined) /\
  (forall i j t u, threads x !! i = Some t -> threads x !! j = Some u -> inside t = true -> inside u = true -> i = j) /\
  (forall i t, threads x !! i = Some t -> todo t = [] ->
     P !! i = Some (of_thread i (log x)) /\ rets t = of_thread i (replay (log x) (reset d0)).2) /\
  (log x <> [] -> (forall i t, threads x !! i = Some t -> inside t = false) -> data x = (replay (log x) (reset d0)).1).
Proof.
  intros Hx. pose proof (lock_reachable_inv _ _ _ Hx) as Hinv. split_and!.
  - intros i t Hi HU. pose proof (step_good _ _ _ _ _ Hinv Hi) as HG. by rewrite HU in HG.
  - intros i j t u Hi Hj Ht Hu. destruct (phase_inside _ _ _ Hinv _ _ Hi Ht) as (_ & _ & _ & Hoth & _).
    destruct (decide (j = i)); [done |]. by rewrite (Hoth j u) in Hu.
  - intros i t Hi Htd. destruct Hinv as (_ & HT & _). destruct (HT _ _ Hi) as (p & Hp & H1 & (more & H2 & H3 & _) & H4).
    assert (Ea : at_ t = PIdle) by (destruct (at_ t); try done; by destruct H4). assert (Hin : inside t = false) by (unfold inside; by rewrite Ea).
    rewrite Hin, Htd, app_nil_r in H1. rewrite (H3 Hin), app_nil_r in H2. by subst p.
  - intros Hlg Hin. destruct Hinv as (_ & _ & Hph). unfold phase_ok in Hph. destruct (g_basic_init x); [by destruct Hph as (_ & _ & ? & _) | by destruct Hph | ].
    destruct Hph as (_ & Hm). destruct (g_init_mtx x) as [| | j]; [done | apply Hm |].
    destruct Hm as [_ (u & lg & c & Hu & _ & _ & Hat)]. specialize (Hin j u Hu). unfold inside in Hin. by destruct (at_ u).
Qed.

Lemma machine_ends d0 P n x :
  nsteps step n (sys_init d0 P) x ->
  (n <= sum_list (calls_cost <$> P))%nat /\ ((forall y, ~ step x y) -> forall i t, threads x !! i = Some t -> todo t = []).
Proof.
  intros Hn. split.
  - apply steps_bounded in Hn. rewrite cost_init in Hn. lia.
  - intros Hstop i t Hi. destruct (todo t) as [| c rest] eqn:Ec; [done |]. exfalso.
    destruct (progress d0 P x i t) as [y Hy]; [| done | by rewrite Ec | by apply (Hstop y)].
    apply lock_reachable_inv. by apply rtc_nsteps_2 in Hn.
Qed.

(** Running a schedule. *)
Fixpoint scheduled (sch : list nat) (x : sys) : option sys :=
  match sch with
  | [] => Some x
  | i :: sch' => t ← threads x !! i; match thread_step i t x with Go y => scheduled sch' y | _ => None end
  end.

Lemma scheduled_steps sch : forall x y, scheduled sch x = Some y -> nsteps step (length sch) x y.
Proof.
  induction sch as [| i sch IH]; cbn; intros x y HS; [injection HS as ->; constructor |].
  destruct (threads x !! i) as [t |] eqn:Hi; cbn in HS; [| done]. destruct (thread_step i t x) as [z | |] eqn:Hz; try done.
  econstructor; [by exists i, t | by apply IH].
Qed.
End Machine.

(** ** The library *)

Section LibraryLock.
Context `{PQ : PriorityQueue Q}.
#[local] Abbreviation Library := (@Library Q).

Inductive lib_call := CInit (env : start_env) | CShutdown.

(** Where the body of a call is: it has read the counter, it starts or stops the runtime, it
    takes back the count of a start that failed. *)
Inductive lib_pc := LRead | LWrite (n : Z) | LRuntime | LUndo.

Definition set_count (n : Z) (l : Library) : Library := {| g_initializations := n; runtime := runtime l |}.

(** [LibraryInit] after the lock. *)
Definition init_body (env : start_env) (p : lib_pc) (l : Library) : Library * (lib_pc + bool) :=
  match p with
  | LRead => (l, inl (LWrite (g_initializations l)))
  | LWrite n => (set_count (n + 1) l, if n + 1 =? 1 then inl LRuntime else inr true)
  | LRuntime =>
      let '(err, r) := Runtime_Start env (runtime l) in
      ({| g_initializations := g_initializations l; runtime := r |}, if err is None then inr true else inl LUndo)
  | LUndo => (set_count (g_initializations l - 1) l, inr false)
  end.

(** [LibraryShutdown] after the lock. *)
Definition shutdown_body (p : lib_pc) (l : Library) : Library * (lib_pc + bool) :=
  match p with
  | LRead => (l, if g_initializations l <=? 0 then inr true else inl (LWrite (g_initializations l)))
  | LWrite n => (set_count (n - 1) l, if n - 1 =? 0 then inl LRuntime else inr true)
  | LRuntime => ({| g_initializations := g_initializations l; runtime := Runtime_Stop (runtime l) |}, inr true)
  | LUndo => (l, inr true)
  end.

Definition lib_body (c : lib_call) : lib_pc -> Library -> Library * (lib_pc + bool) :=
  match c with CInit env => init_body env | CShutdown => shutdown_body end.

(** The calls as [Runtime.v] has them. *)
Definition lib_call_run (c : lib_call) (l : Library) : Library * bool :=
  match c with CInit env => let '(ok, l') := LibraryInit env l in (l', ok) | CShutdown => (LibraryShutdown l, true) end.

Definition lib_rank (p : lib_pc) : nat := match p with LRead => 3 | LWrite _ => 2 | LRuntime => 1 | LUndo => 0 end.

Lemma lib_body_rank c p l l' p' : lib_body c p l = (l', inl p') -> (lib_rank p' < lib_rank p)%nat.
Proof.
  destruct c as [env |], p as [| n | |]; cbn; intros E.
  - injection E as _ <-. cbn. lia.
  - destruct (n + 1 =? 1); [| done]. injection E as _ <-. cbn. lia.
  - destruct (Runtime_Start env (runtime l)) as [[e |] r]; [| done]. injection E as _ <-. cbn. lia.
  - done.
  - destruct (g_initializations l <=? 0); [done |]. injection E as _ <-. cbn. lia.
  - destruct (n - 1 =? 0); [| done]. injection E as _ <-. cbn. lia.
  - done.
  - done.
Qed.

(** The rest of a body, from any point of it. *)
Fixpoint lib_finish (fuel : nat) (c : lib_call) (p : lib_pc) (l : Library) : option (Library * bool) :=
  match fuel with
  | O => None
  | S fuel' => match lib_body c p l with (l', inl p') => lib_finish fuel' c p' l' | (l', inr r) => Some (l', r) end
  end.

Lemma lib_finish_all c l : lib_finish 4 c LRead l = Some (lib_call_run c l).
Proof.
  destruct c as [env |]; cbn -[Z.leb Z.eqb].
  - unfold LibraryInit. destruct (Z.eqb_spec (g_initializations l + 1) 1) as [E | E]; cbn.
    + destruct (Runtime_Start env (runtime l)) as [[e |] r]; cbn; done.
    + done.
  - unfold LibraryShutdown. destruct (g_initializations l <=? 0); [done |]. cbn -[Z.eqb].
    by destruct (g_initializations l - 1 =? 0).
Qed.

Lemma lib_finish_mono n c p l o : lib_finish n c p l = Some o -> lib_finish (S n) c p l = Some o.
Proof.
  revert p l. induction n as [| n IH]; intros p l HF; [done |]. cbn in HF |- *. destruct (lib_body c p l) as [l' [p' | r]]; [| done].
  exact (IH _ _ HF).
Qed.

Lemma lib_finish_more k n c p l o : lib_finish n c p l = Some o -> lib_finish (k + n) c p l = Some o.
Proof. intros HF. induction k as [| k IH]; [exact HF | by apply lib_finish_mono]. Qed.

Lemma lib_body_run c l p l1 l2 r :
  rtc (fun x y => lib_body c x.1 x.2 = (y.2, inl y.1)) (LRead, l) (p, l1) -> lib_body c p l1 = (l2, inr r) -> lib_call_run c l = (l2, r).
Proof.
  intros Hr Hb. enough (HF : exists n, lib_finish n c LRead l = Some (l2, r)).
  { destruct HF as [n HF%(lib_finish_more 4)]. pose proof (lib_finish_more n _ _ _ _ _ (lib_finish_all c l)) as HA.
    rewrite Nat.add_comm in HA. congruence. }
  change LRead with (LRead, l).1. change l with (LRead, l).2 at 2. revert Hb. change p with (p, l1).1. change l1 with (p, l1).2 at 2.
  induction Hr as [x | x y z Hxy _ IH]; intros Hb.
  - exists 1%nat. cbn. by rewrite Hb.
  - destruct (IH Hb) as [n HF]. exists (S n). cbn. by rewrite Hxy.
Qed.

#[export] Instance library_guarded : Guarded Library lib_call lib_pc bool := {
  entry := fun _ => LRead;
  body := lib_body;
  reset := set_count 0;
  run := lib_call_run;
  rank := lib_rank;
  body_rank := lib_body_rank;
  body_run := lib_body_run
}.

(** C19: [LibraryInit] and [LibraryShutdown] are atomic. Any number of threads make any sequence of these
    calls: the mutex is initialized exactly once and before it is used, is released only by the thread that
    holds it, and no two threads are in the locked part. The calls take effect one at a time, in the
    order in which they got the lock: whenever nobody holds it, the library is in the state
    that this sequence of calls of [Runtime.v] leaves, and a thread that is done has made its calls in order and
    got the answers of that sequence. *)
Theorem library_calls_atomic (l0 : Library) (P : list (list lib_call)) (x : sys) :
  rtc step (sys_init l0 P) x ->
  (forall i t, threads x !! i = Some t -> thread_step i t x <> Undefined) /\
  (forall i j t u, threads x !! i = Some t -> threads x !! j = Some u -> inside t = true -> inside u = true -> i = j) /\
  (forall i t, threads x !! i = Some t -> todo t = [] ->
     P !! i = Some (of_thread i (log x)) /\ rets t = of_thread i (replay (log x) (set_count 0 l0)).2) /\
  (log x <> [] -> (forall i t, threads x !! i = Some t -> inside t = false) -> data x = (replay (log x) (set_count 0 l0)).1).
Proof. intros Hx. exact (machine_linearizable l0 P x Hx). Qed.

(** The threads do not block each other for ever: every run ends after at most 11 steps for
    each call, and it cannot stop before every thread has made all its calls. *)
Theorem library_calls_end (l0 : Library) (P : list (list lib_call)) (n : nat) (x : sys) :
  nsteps step n (sys_init l0 P) x ->
  (n <= 11 * sum_list (length <$> P))%nat /\
  ((forall y, ~ step x y) -> forall i t, threads x !! i = Some t -> todo t = []).
Proof.
  intros Hn. destruct (machine_ends _ _ _ _ Hn) as [H1 H2]. split; [| exact H2].
  enough (E : sum_list (calls_cost <$> P) = (11 * sum_list (length <$> P))%nat) by lia. clear. induction P as [| p P IH]; [done |].
  cbn. cbn in IH. rewrite IH. enough (calls_cost p = (11 * length p)%nat) by lia. clear. unfold calls_cost. induction p as [| c p IH]; cbn; [done |].
  change (sum_list (call_cost <$> p) = (11 * length p)%nat) in IH. lia.
Qed.

End LibraryLock.

(** ** Two threads *)

Module SyncDemo.
Definition programs : list (list lib_call) := [[CInit env_demo; CShutdown]; [CInit env_demo]].
Definition start : @sys (@Library sorted_queue) lib_call lib_pc bool := sys_init Library_new programs.

(** The second thread waits for the first to initialize the mutex, and then for the lock. *)
Definition schedule : list nat :=
  [0; 0; 0; 0; 1; 0; 0; 0; 0; 0; 1; 1; 1; 1; 0; 0; 0; 0; 0]%nat.

Definition check (o : option (@sys (@Library sorted_queue) lib_call lib_pc bool)) : bool :=
  match o with
  | Some x => forallb (fun t => match todo t with [] => true | _ => false end) (threads x) &&
              forallb (fun t => negb (inside t)) (threads x) && bool_decide (length (log x) = 3%nat)
  | None => false
  end.

Lemma run_ok o (Q0 : @sys (@Library sorted_queue) lib_call lib_pc bool -> Prop) :
  (forall x, o = Some x -> Q0 x) -> check o = true -> exists x, Q0 x /\ log x <> [] /\
    (forall i t, threads x !! i = Some t -> todo t = [] /\ inside t = false).
Proof.
  intros HQ. destruct o as [x |]; [| done]. cbn. intros [[H1 H2]%andb_true_iff H3%bool_decide_eq_true]%andb_true_iff. exists x.
  split; [by apply HQ |]. split; [by destruct (log x) |]. intros i t Hi. apply list_elem_of_lookup_2, list_elem_of_In in Hi.
  rewrite forallb_forall in H1, H2. specialize (H1 t Hi). specialize (H2 t Hi). apply negb_true_iff in H2. by destruct (todo t).
Qed.
End SyncDemo.

Lemma library_calls_atomic_witness :
  exists x, rtc step SyncDemo.start x /\ data x = (replay (log x) (set_count 0 Library_new)).1.
Proof.
  destruct (SyncDemo.run_ok (scheduled SyncDemo.schedule SyncDemo.start) (rtc step SyncDemo.start)) as (x & Hx & Hlg & Ht).
  - intros x Hx. eapply rtc_nsteps_2. exact (scheduled_steps _ _ _ Hx).
  - vm_compute. reflexivity.
  - exists x. split; [exact Hx |]. destruct (library_calls_atomic Library_new SyncDemo.programs x Hx) as (_ & _ & _ & Hd).
    apply (Hd Hlg). intros i t Hi. apply (Ht i t Hi).
Defined.

Lemma library_calls_end_witness : exists n x, nsteps step n SyncDemo.start x /\ (n <= 33)%nat.
Proof.
  destruct (SyncDemo.run_ok (scheduled SyncDemo.schedule SyncDemo.start) (fun x => exists n, nsteps step n SyncDemo.start x)) as (x & [n Hx] & _).
  - intros x Hx. eexists. exact (scheduled_steps _ _ _ Hx).
  - vm_compute. reflexivity.
  - exists n, x. split; [exact Hx |]. apply (library_calls_end Library_new SyncDemo.programs n x Hx).
Defined.
