(* ===== verification/Client.v ===== *)
(** * Clients and the C interface

    [src/bridge/c.cc], [src/bridge/client.cc], [src/net/clientimpl.cc] and
    [src/utils/refcounted.h]: the objects behind the handles of the API, who owns them, and
    what every call allocates, hands over and frees.

    Objects live in an explicit heap; a pointer is a location or [None] for NULL. Using an
    object that is not there, or deleting it twice, is a [Fault]; a failed [CONNX_ASSERT] is
    an [Abort], a call that never returns a [Hang]. The connection behind a client is the one of
    [Connection.v]; here it is the
    object that owns the codec. When [CloseFromOwner] returns nothing uses it any more
    ([ExecTheorems.close_from_owner_quiet]), and [reset] then deletes it; that it returns is not
    certain ([ExecTheorems.close_from_owner_can_hang]), so whether it does is an argument of
    the calls that release a client. *)

From S2P Require Import Prelude Codec Timer Poller Address Connection Runtime.

Abbreviation loc := nat.

(** ** Data *)

(** The classes derived from [Codec]. *)
Inductive codec :=
| Delimiter (delimiter_ : byte)
| FixedLength (fixed_length_ : Z)
| LengthField (self : LengthFieldCodec)
| DecodeCallback (callback_ : option decode_fn).

(** [connx_decode_callback_s::Decode]. *)
Definition callback_Decode (callback_ : option decode_fn) : decode_fn := fun data =>
  match callback_ with
  | None => (DecodeResult.kError, 0)
  | Some f => f data
  end.

(** The virtual [Codec::Decode]. *)
Definition codec_Decode `{SizeT} (c : codec) : decode_fn :=
  match c with
  | Delimiter d => DelimiterCodec_Decode d
  | FixedLength n => FixedLengthCodec_Decode n
  | LengthField self => LengthFieldCodec_decode_fn self
  | DecodeCallback cb => callback_Decode cb
  end.

Record ClientOptions := Options { opt_codec : option loc; opt_tcp : TcpOptions; opt_local_address : option loc }.

#[export] Instance eta_options : Eta ClientOptions := fun o => Options (opt_codec o) (opt_tcp o) (opt_local_address o).
#[export] Instance set_opt_codec : Setter opt_codec := ltac:(solve_setter).
#[export] Instance set_opt_tcp : Setter opt_tcp := ltac:(solve_setter).
#[export] Instance set_opt_local_address : Setter opt_local_address := ltac:(solve_setter).

(** The default member initializers of [TcpOptions] and [ClientOptions]. *)
Definition TcpOptions_default : TcpOptions :=
  {| tcp_nodelay := 1; tcp_quickack := 0; send_buffer_size := 0; recv_buffer_size := 0; linger_sec := -1;
     connect_timeout_ms := 0 |}.
Definition ClientOptions_default : ClientOptions :=
  {| opt_codec := None; opt_tcp := TcpOptions_default; opt_local_address := None |}.

(** Which of the four callbacks of a C handler are set. *)
Record handler_fns := { on_connected_ : bool; on_connect_failed_ : bool; on_closed_ : bool; on_message_ : bool }.

(** The objects: a C string, a codec, [connx_codec_s], [connx_client_handler_s],
    [connx_client_options_s], [connx_client_s], [ClientAdaptor], [ClientImpl] and
    [ClientConnection]. *)
Inductive obj :=
| OString (s : str)
| OCodec (c : codec)
| OWrapper (codec_ : option loc)
| OHandler (fns : handler_fns)
| OOptions (opts : ClientOptions) (local_address_copy : option loc)
| OClient (impl handler : loc)
| OAdaptor (init_called_ : bool) (impl_ : option loc)
| OImpl (refs_ : Z) (opts_ : ClientOptions) (handler_ connection_ : option loc)
| OConn (handler_ : loc) (opts_ : ClientOptions).

Section Client.
Context `{SizeT} `{PQ : PriorityQueue Q}.

Record api := Api { heap : gmap loc obj; library : @Library Q }.

Inductive outcome (A : Type) := Ret (a : A) (s : api) | Abort | Hang | Fault.
#[global] Arguments Ret {A} a s.
#[global] Arguments Abort {A}.
#[global] Arguments Hang {A}.
#[global] Arguments Fault {A}.

Definition M (A : Type) : Type := api -> outcome A.
#[export] Instance M_ret : MRet M := fun A a s => Ret a s.
#[export] Instance M_bind : MBind M := fun A B k m s =>
  match m s with Ret a s' => k a s' | Abort => Abort | Hang => Hang | Fault => Fault end.

(** ** Memory *)

Definition new_obj (o : obj) : M loc := fun s =>
  let l := fresh (dom (heap s)) in Ret l {| heap := <[l := o]> (heap s); library := library s |}.

Definition load (l : loc) : M obj := fun s =>
  match heap s !! l with Some o => Ret o s | None => Fault end.

Definition store (l : loc) (o : obj) : M unit := fun s =>
  match heap s !! l with
  | Some _ => Ret tt {| heap := <[l := o]> (heap s); library := library s |}
  | None => Fault
  end.

Definition free (l : loc) : M unit := fun s =>
  match heap s !! l with
  | Some _ => Ret tt {| heap := delete l (heap s); library := library s |}
  | None => Fault
  end.

Definition fault {A} : M A := fun _ => Fault.
Definition abort {A} : M A := fun _ => Abort.
Definition hang {A} : M A := fun _ => Hang.

(** [free] or [delete] of a pointer that may be NULL. *)
Definition free_opt (l : option loc) : M unit := match l with Some l => free l | None => mret tt end.

(** The library's init count is the one of [Runtime.v]. *)
Definition library_init (env : start_env) : M bool := fun s =>
  let '(ok, l) := LibraryInitService_new true env (library s) in Ret ok {| heap := heap s; library := l |}.
Definition library_release (init_called_ : bool) : M unit := fun s =>
  Ret tt {| heap := heap s; library := LibraryInitService_destroy init_called_ (library s) |}.

(** ** ClientImpl *)

(** [~ClientConnection], as far as it owns memory. *)
Definition ClientConnection_destroy (c : loc) : M unit :=
  o ← load c;
  match o with
  | OConn _ opts => free_opt (opt_codec opts);; free c
  | _ => fault
  end.

Definition ClientImpl_SetOptions (i : loc) (opts : ClientOptions) : M unit :=
  o ← load i;
  match o with
  | OImpl refs _ handler connection => store i (OImpl refs opts handler connection)
  | _ => fault
  end.

Definition ClientImpl_Start (i : loc) (handler : loc) : M unit :=
  o ← load i;
  match o with
  | OImpl refs opts _ (Some c) => store i (OImpl refs opts (Some handler) (Some c))
  | OImpl refs opts _ None =>
      c ← new_obj (OConn handler opts);
      store i (OImpl refs (opts <| opt_codec := None |>) (Some handler) (Some c))
  | _ => fault
  end.

(** The call of [CloseFromOwner], which waits for the tasks of the connection that are queued and
    running; [closes]: it returns. What it does is in [Executor.v], step by step. *)
Definition CloseFromOwner (closes : bool) (c : loc) : M unit :=
  o ← load c;
  match o with
  | OConn _ _ => if closes then mret tt else hang
  | _ => fault
  end.

Definition ClientImpl_Stop (closes : bool) (i : loc) : M unit :=
  o ← load i;
  match o with
  | OImpl refs opts handler (Some c) =>
      CloseFromOwner closes c;;
      (* connection_.reset() *)
      ClientConnection_destroy c;;
      store i (OImpl refs opts handler None)
  | OImpl _ _ _ None => mret tt
  | _ => fault
  end.

(** [~ClientImpl] and [delete]. *)
Definition ClientImpl_destroy (closes : bool) (i : loc) : M unit := ClientImpl_Stop closes i;; free i.

Definition Ref (i : loc) : M unit :=
  o ← load i;
  match o with
  | OImpl refs opts handler connection => store i (OImpl (refs + 1) opts handler connection)
  | _ => fault
  end.

Definition Unref (closes : bool) (i : loc) : M unit :=
  o ← load i;
  match o with
  | OImpl refs opts handler connection =>
      store i (OImpl (refs - 1) opts handler connection);;
      if refs =? 1 then ClientImpl_destroy closes i else mret tt
  | _ => fault
  end.

(** The connection an implementation has, as an object that is there to be called. *)
Definition ClientImpl_connection (i : loc) : M (option (loc * ClientOptions)) :=
  o ← load i;
  match o with
  | OImpl _ _ _ (Some c) =>
      o ← load c;
      match o with OConn _ opts => mret (Some (c, opts)) | _ => fault end
  | OImpl _ _ _ None => mret None
  | _ => fault
  end.

(** The calls that go to the connection. Its answers are arguments: whether [Connect] and
    [SendBuffer] accept, whether it is connected or connecting, its counters. *)
Definition ClientImpl_Connect (i : loc) (hosts : option str) (accepted : str -> bool) : M bool :=
  c ← ClientImpl_connection i;
  mret (match c, hosts with Some _, Some hosts => accepted hosts | _, _ => false end).

Definition ClientImpl_Disconnect (i : loc) : M unit := ClientImpl_connection i;; mret tt.

Definition ClientImpl_SendMsg (i : loc) (msg : list byte) (accepted : bool) : M bool :=
  c ← ClientImpl_connection i;
  mret (match c, msg with Some _, _ :: _ => accepted | _, _ => false end).

Definition ClientImpl_IsConnected (i : loc) (connected : bool) : M bool :=
  c ← ClientImpl_connection i; mret (match c with Some _ => connected | None => false end).

Definition ClientImpl_IsConnecting (i : loc) (connecting : bool) : M bool :=
  c ← ClientImpl_connection i; mret (match c with Some _ => connecting | None => false end).

Definition Metrics_default : Metrics :=
  {| m_connected := false; m_bytes_sent := 0; m_bytes_received := 0; m_pending_bytes := 0 |}.

(** What is written to [*out_metrics]; [out_metrics]: the pointer is not NULL. *)
Definition ClientImpl_GetMetrics (i : loc) (out_metrics : bool) (m : Metrics) : M (option Metrics) :=
  c ← ClientImpl_connection i;
  mret (if out_metrics then Some (match c with Some _ => m | None => Metrics_default end) else None).

(** ** ClientAdaptor *)

Definition ClientAdaptor_new (env : start_env) : M loc :=
  ok ← library_init env;
  if ok : bool then
    i ← new_obj (OImpl 1 ClientOptions_default None None);
    new_obj (OAdaptor true (Some i))
  else new_obj (OAdaptor false None).

Definition ClientAdaptor_destroy (closes : bool) (a : loc) : M unit :=
  o ← load a;
  match o with
  | OAdaptor init_called (Some i) => ClientImpl_Stop closes i;; Unref closes i;; library_release init_called;; free a
  | OAdaptor init_called None => library_release init_called;; free a
  | _ => fault
  end.

Definition ClientAdaptor_Init (a : loc) (handler : loc) (opts : ClientOptions) : M unit :=
  o ← load a;
  match o with
  | OAdaptor _ (Some i) => ClientImpl_SetOptions i opts;; ClientImpl_Start i handler
  | _ => fault
  end.

(** [impl_], which every call but the constructor and the destructor uses unchecked. *)
Definition ClientAdaptor_impl (a : loc) : M loc :=
  o ← load a;
  match o with OAdaptor _ (Some i) => mret i | _ => fault end.

Definition ClientAdaptor_Connect (a : loc) (hosts : option str) (accepted : str -> bool) : M bool :=
  match hosts with
  | None => mret false
  | Some hosts => i ← ClientAdaptor_impl a; ClientImpl_Connect i (Some hosts) accepted
  end.

(** The address is a string of its own, freed after the call. *)
Definition ClientAdaptor_Connect_ip_port (a : loc) (ip : option str) (port : Z) (accepted : str -> bool) : M bool :=
  match ip with
  | Some ip =>
      if (port <=? 0) || (65535 <? port) then mret false
      else
        addr ← new_obj (OString (connx_join_host_port ip port));
        i ← ClientAdaptor_impl a;
        ok ← ClientImpl_Connect i (Some (connx_join_host_port ip port)) accepted;
        free addr;;
        mret ok
  | None => mret false
  end.

Definition ClientAdaptor_Disconnect (a : loc) : M unit := i ← ClientAdaptor_impl a; ClientImpl_Disconnect i.

Definition ClientAdaptor_IsConnected (a : loc) (connected : bool) : M bool :=
  i ← ClientAdaptor_impl a; ClientImpl_IsConnected i connected.

(** [data] is [None] for NULL. The slice that carries the bytes to the connection is a value
    ([Slice.slice_program_safe]). *)
Definition ClientAdaptor_SendBuffer (a : loc) (data : option (list byte)) (accepted : bool) : M bool :=
  match data with
  | None | Some [] => mret false
  | Some data => i ← ClientAdaptor_impl a; ClientImpl_SendMsg i data accepted
  end.

Definition ClientAdaptor_GetMetrics (a : loc) (metrics : bool) (m : Metrics) : M (option Metrics) :=
  i ← ClientAdaptor_impl a; ClientImpl_GetMetrics i metrics m.

Definition CreateClient (env : start_env) (handler : option loc) (opts : ClientOptions) : M (option loc) :=
  match handler, opt_codec opts with
  | Some h, Some _ =>
      p ← ClientAdaptor_new env;
      o ← load p;
      match o with
      | OAdaptor _ None => ClientAdaptor_destroy true p;; mret None (* no connection to close *)
      | _ => ClientAdaptor_Init p h opts;; mret (Some p)
      end
  | _, _ => mret None
  end.

Definition ReleaseClient (closes : bool) (cli : option loc) : M unit :=
  match cli with Some a => ClientAdaptor_destroy closes a | None => mret tt end.

(** ** Handlers and codecs of the C interface *)

Definition connx_client_handler_new (fns : handler_fns) : M loc := new_obj (OHandler fns).

Definition connx_client_handler_destroy (handler : option loc) : M unit := free_opt handler.

Definition new_codec (c : codec) : M loc :=
  wrapper ← new_obj (OWrapper None);
  k ← new_obj (OCodec c);
  store wrapper (OWrapper (Some k));;
  mret wrapper.

Definition connx_codec_new_delimiter (delimiter : byte) : M loc := new_codec (Delimiter delimiter).

Definition connx_codec_new_fixed_length (frame_length : Z) : M loc :=
  new_codec (FixedLength (FixedLengthCodec_new frame_length)).

Definition connx_codec_new_length_field (length_field_offset length_field_length header_len network_to_host : Z) : M loc :=
  match LengthFieldCodec_new length_field_offset length_field_length header_len (negb (network_to_host =? 0)) with
  | Some self => new_codec (LengthField self)
  | None => abort
  end.

Definition connx_codec_new_callback (callback : option decode_fn) : M (option loc) :=
  match callback with
  | None => mret None
  | Some f => wrapper ← new_codec (DecodeCallback (Some f)); mret (Some wrapper)
  end.

Definition connx_codec_destroy (codec : option loc) : M unit :=
  match codec with
  | None => mret tt
  | Some w =>
      o ← load w;
      match o with
      | OWrapper k => free_opt k;; free w
      | _ => fault
      end
  end.

(** ** Options of the C interface *)

Definition connx_client_options_new : M loc := new_obj (OOptions ClientOptions_default None).

Definition connx_client_options_destroy (options : option loc) : M unit :=
  match options with
  | None => mret tt
  | Some l =>
      o ← load l;
      match o with
      | OOptions opts copy => free_opt copy;; free_opt (opt_codec opts);; free l
      | _ => fault
      end
  end.

Definition connx_client_options_set_codec (options codec : option loc) : M unit :=
  match options, codec with
  | Some l, Some w =>
      o ← load l;
      match o with
      | OOptions opts copy =>
          free_opt (opt_codec opts);;
          o ← load w;
          match o with
          | OWrapper k =>
              store l (OOptions (opts <| opt_codec := k |>) copy);;
              store w (OWrapper None)
          | _ => fault
          end
      | _ => fault
      end
  | _, _ => mret tt
  end.

Definition connx_client_options_set_local_address (options : option loc) (local_address : option str) : M unit :=
  match options with
  | None => mret tt
  | Some l =>
      o ← load l;
      match o with
      | OOptions opts copy =>
          free_opt copy;;
          match local_address with
          | Some s =>
              c ← new_obj (OString s);
              store l (OOptions (opts <| opt_local_address := Some c |>) (Some c))
          | None => store l (OOptions (opts <| opt_local_address := None |>) None)
          end
      | _ => fault
      end
  end.

(** The setters of [opts.tcp]. *)
Definition set_tcp_field (options : option loc) (f : TcpOptions -> TcpOptions) : M unit :=
  match options with
  | None => mret tt
  | Some l =>
      o ← load l;
      match o with
      | OOptions opts copy => store l (OOptions (opts <| opt_tcp := f (opt_tcp opts) |>) copy)
      | _ => fault
      end
  end.

Definition connx_client_options_set_tcp_nodelay (options : option loc) (enabled : Z) : M unit :=
  set_tcp_field options (fun t => {| tcp_nodelay := if enabled =? 0 then 0 else 1; tcp_quickack := tcp_quickack t;
    send_buffer_size := send_buffer_size t; recv_buffer_size := recv_buffer_size t; linger_sec := linger_sec t;
    connect_timeout_ms := connect_timeout_ms t |}).

Definition connx_client_options_set_send_buffer_size (options : option loc) (size : Z) : M unit :=
  set_tcp_field options (fun t => {| tcp_nodelay := tcp_nodelay t; tcp_quickack := tcp_quickack t;
    send_buffer_size := size; recv_buffer_size := recv_buffer_size t; linger_sec := linger_sec t;
    connect_timeout_ms := connect_timeout_ms t |}).

Definition connx_client_options_set_recv_buffer_size (options : option loc) (size : Z) : M unit :=
  set_tcp_field options (fun t => {| tcp_nodelay := tcp_nodelay t; tcp_quickack := tcp_quickack t;
    send_buffer_size := send_buffer_size t; recv_buffer_size := size; linger_sec := linger_sec t;
    connect_timeout_ms := connect_timeout_ms t |}).

Definition connx_client_options_set_linger (options : option loc) (sec : Z) : M unit :=
  set_tcp_field options (fun t => {| tcp_nodelay := tcp_nodelay t; tcp_quickack := tcp_quickack t;
    send_buffer_size := send_buffer_size t; recv_buffer_size := recv_buffer_size t; linger_sec := sec;
    connect_timeout_ms := connect_timeout_ms t |}).

Definition connx_client_options_set_connect_timeout (options : option loc) (ms : Z) : M unit :=
  set_tcp_field options (fun t => {| tcp_nodelay := tcp_nodelay t; tcp_quickack := tcp_quickack t;
    send_buffer_size := send_buffer_size t; recv_buffer_size := recv_buffer_size t; linger_sec := linger_sec t;
    connect_timeout_ms := ms |}).

(** ** Clients of the C interface *)

Definition connx_client_new (env : start_env) (handler options : option loc) : M (option loc) :=
  match handler, options with
  | Some h, Some l =>
      o ← load l;
      match o with
      | OOptions opts copy =>
          match opt_codec opts with
          | None => mret None
          | Some _ =>
              (* [new connx_client_s], deleted again when there is no client *)
              impl ← CreateClient env (Some h) opts;
              match impl with
              | None => mret None
              | Some a =>
                  c ← new_obj (OClient a h);
                  store l (OOptions (opts <| opt_codec := None |>) copy);;
                  mret (Some c)
              end
          end
      | _ => fault
      end
  | _, _ => mret None
  end.

Definition connx_client_destroy (closes : bool) (client : option loc) : M unit :=
  match client with
  | None => mret tt
  | Some l =>
      o ← load l;
      match o with
      | OClient impl _ => ReleaseClient closes (Some impl);; free l
      | _ => fault
      end
  end.

(** [client->impl]. *)
Definition client_impl (l : loc) : M loc :=
  o ← load l;
  match o with OClient a _ => mret a | _ => fault end.

(** The connection a client call reaches, through [connx_client_s], [ClientAdaptor] and
    [ClientImpl]; [None]: there is none. *)
Definition connection_of (client : option loc) : M (option (loc * ClientOptions)) :=
  match client with
  | None => mret None
  | Some l => a ← client_impl l; i ← ClientAdaptor_impl a; ClientImpl_connection i
  end.

Definition connx_client_connect (client : option loc) (host : option str) (accepted : str -> bool) : M Z :=
  match client, host with
  | Some l, Some host =>
      a ← client_impl l;
      ok ← ClientAdaptor_Connect a (Some host) accepted;
      mret (if ok : bool then 0 else -1)
  | _, _ => mret (-1)
  end.

Definition connx_client_connect_ip_port (client : option loc) (ip : option str) (port : Z) (accepted : str -> bool) : M Z :=
  match client, ip with
  | Some l, Some ip =>
      a ← client_impl l;
      ok ← ClientAdaptor_Connect_ip_port a (Some ip) port accepted;
      mret (if ok : bool then 0 else -1)
  | _, _ => mret (-1)
  end.

Definition connx_client_disconnect (client : option loc) : M unit :=
  match client with
  | Some l => a ← client_impl l; ClientAdaptor_Disconnect a
  | None => mret tt
  end.

Definition connx_client_is_connected (client : option loc) (connected : bool) : M Z :=
  match client with
  | Some l =>
      a ← client_impl l;
      ok ← ClientAdaptor_IsConnected a connected;
      mret (if ok : bool then 1 else 0)
  | None => mret 0
  end.

Definition connx_client_send_buffer (client : option loc) (data : option (list byte)) (accepted : bool) : M Z :=
  match client, data with
  | Some l, Some (b :: d) =>
      a ← client_impl l;
      ok ← ClientAdaptor_SendBuffer a (Some (b :: d)) accepted;
      mret (if ok : bool then 0 else -1)
  | _, _ => mret (-1)
  end.

(** [connx_client_get_metrics]: what is written to [*metrics]; [None]: nothing is. *)
Definition connx_client_get_metrics (client : option loc) (metrics : bool) (m : Metrics) : M (option Metrics) :=
  match client with
  | Some l =>
      if metrics then
        a ← client_impl l;
        ClientAdaptor_GetMetrics a true m
      else mret None
  | None => mret None
  end.

(** ** The library *)

Definition connx_library_init (env : start_env) : M Z := fun s =>
  let '(ok, l) := LibraryInit env (library s) in Ret (if ok then 0 else -1) {| heap := heap s; library := l |}.
Definition connx_library_shutdown : M unit := fun s =>
  Ret tt {| heap := heap s; library := LibraryShutdown (library s) |}.

(** A call on the runtime behind the library. *)
Definition with_runtime {A} (f : @GlobalRuntime Q -> A * @GlobalRuntime Q) : M A := fun s =>
  let '(a, r) := f (runtime (library s)) in
  Ret a {| heap := heap s; library := {| g_initializations := g_initializations (library s); runtime := r |} |}.

(** The static functions of [ClientImpl], behind those of the C++ interface. *)
Definition ClientImpl_Init (env : start_env) : M (option start_error) := with_runtime (Runtime_Start env).
Definition ClientImpl_Shutdown : M unit := with_runtime (fun r => (tt, Runtime_Stop r)).
Definition ClientImpl_SetRuntimeWorkerThreads (worker_threads : Z) : M bool := with_runtime (SetWorkerThreads worker_threads).
Definition ClientImpl_SetRuntimeWorkerThreadsAuto : M bool := with_runtime SetWorkerThreadsAuto.
Definition ClientImpl_GetRuntimeWorkerThreads : M Z := with_runtime (fun r => (GetWorkerThreads r, r)).
Definition ClientImpl_IsRuntimeWorkerThreadsAuto : M bool := with_runtime (fun r => (IsWorkerThreadsAuto r, r)).

Definition SetRuntimeWorkerThreads (worker_threads : Z) : M bool := ClientImpl_SetRuntimeWorkerThreads worker_threads.
Definition GetRuntimeWorkerThreads : M Z := ClientImpl_GetRuntimeWorkerThreads.
Definition SetRuntimeWorkerThreadsAuto : M bool := ClientImpl_SetRuntimeWorkerThreadsAuto.
Definition IsRuntimeWorkerThreadsAuto : M bool := ClientImpl_IsRuntimeWorkerThreadsAuto.

Definition connx_runtime_set_worker_threads (worker_threads : Z) : M Z :=
  ok ← SetRuntimeWorkerThreads worker_threads; mret (if ok : bool then 0 else -1).
Definition connx_runtime_set_worker_threads_auto : M Z :=
  ok ← SetRuntimeWorkerThreadsAuto; mret (if ok : bool then 0 else -1).

Definition connx_runtime_get_worker_threads : M Z := GetRuntimeWorkerThreads.
Definition connx_runtime_is_worker_threads_auto : M Z :=
  auto ← IsRuntimeWorkerThreadsAuto; mret (if auto : bool then 1 else 0).

(** What [PlatformOpenSocket] reads of the options when the connection is made. *)
Definition read_local_address (client : option loc) : M (option str) :=
  c ← connection_of client;
  match c with
  | Some (_, {| opt_local_address := Some s |}) =>
      o ← load s;
      match o with OString s => mret (Some s) | _ => fault end
  | _ => mret None
  end.

(** The overrides of [connx_client_handler_s]: whether a C function is called. *)
Definition handler_calls (fns : handler_fns) (cb : callback) : bool :=
  match cb with
  | OnConnected => on_connected_ fns
  | OnConnectFailed _ => on_connect_failed_ fns
  | OnClosed => on_closed_ fns
  | OnMessage _ => on_message_ fns
  end.

(** A callback of the connection behind a client. *)
Definition run_handler (client : option loc) (cb : callback) : M bool :=
  c ← connection_of client;
  match c with
  | Some (c, _) =>
      o ← load c;
      match o with
      | OConn h _ =>
          o ← load h;
          match o with OHandler fns => mret (handler_calls fns cb) | _ => fault end
      | _ => fault
      end
  | None => mret false
  end.

End Client.
