(* ===== verification/ClientProofs.v ===== *)
(** * Ownership behind the C interface

    The heap is always the disjoint union of what the live handles own; every call keeps
    it so, uses nothing that is gone, and frees what it takes away. *)

From S2P Require Import Prelude Codec Timer Poller Address Connection Runtime Client.

(** ** Heaps as lists of cells *)

Definition cells : Type := list (loc * obj).

Definition rep (h : gmap loc obj) (L : cells) : Prop := NoDup L.*1 /\ h = list_to_map L.

Lemma rep_perm h L K : L ≡ₚ K -> rep h L -> rep h K.
Proof.
  intros HP [Hn ->]. split; [by rewrite <- (fmap_Permutation fst L K HP) |]. by apply list_to_map_proper.
Qed.

Lemma rep_nil : rep ∅ [].
Proof. by split; [constructor |]. Qed.

Lemma rep_lookup h l o L : rep h ((l, o) :: L) -> h !! l = Some o.
Proof. intros [_ ->]. cbn. by rewrite lookup_insert_eq. Qed.

Lemma rep_notin h l o L : rep h ((l, o) :: L) -> (l ∉ L.*1) /\ list_to_map (M := gmap loc obj) L !! l = None.
Proof.
  intros [Hn _]. cbn in Hn. apply list.NoDup_cons in Hn as [Hl _]. split; [done |]. by apply not_elem_of_list_to_map.
Qed.

Lemma rep_store h l o o' L : rep h ((l, o) :: L) -> rep (<[l := o']> h) ((l, o') :: L).
Proof. intros [Hn ->]. split; [done |]. cbn. by rewrite insert_insert_eq. Qed.

Lemma rep_free h l o L : rep h ((l, o) :: L) -> rep (delete l h) L.
Proof.
  intros HR. pose proof (rep_notin _ _ _ _ HR) as [_ Hl]. destruct HR as [Hn ->]. cbn in *.
  split; [by apply list.NoDup_cons in Hn as [_ ?] |]. by rewrite delete_insert_id.
Qed.

Lemma rep_alloc h l o L : rep h L -> h !! l = None -> rep (<[l := o]> h) ((l, o) :: L).
Proof.
  intros [Hn ->] Hl. split; [| done]. cbn. constructor; [| done]. by apply not_elem_of_list_to_map_2 in Hl.
Qed.

Lemma rep_elem h L l o : rep h L -> h !! l = Some o <-> (l, o) ∈ L.
Proof. intros [Hn ->]. symmetry. by apply elem_of_list_to_map. Qed.

(** ** What handles own *)

(** A live handle with everything it owns. The pointer [la] of a client is borrowed. *)
Inductive root :=
| RHandler (l : loc) (fns : handler_fns)
| RWrapper (l : loc) (k : option (loc * codec))
| ROptions (l : loc) (tcp : TcpOptions) (k : option (loc * codec)) (copy : option (loc * str))
| RClient (l a i c k : loc) (x : codec) (h : loc) (tcp : TcpOptions) (la : option loc).

Definition codec_cells (k : option (loc * codec)) : cells := match k with Some (k, x) => [(k, OCodec x)] | None => [] end.
Definition string_cells (k : option (loc * str)) : cells := match k with Some (k, x) => [(k, OString x)] | None => [] end.

Definition root_cells (r : root) : cells :=
  match r with
  | RHandler l fns => [(l, OHandler fns)]
  | RWrapper l k => (l, OWrapper (fst <$> k)) :: codec_cells k
  | ROptions l tcp k copy =>
      (l, OOptions {| opt_codec := fst <$> k; opt_tcp := tcp; opt_local_address := fst <$> copy |} (fst <$> copy))
      :: codec_cells k ++ string_cells copy
  | RClient l a i c k x h tcp la =>
      [(l, OClient a h); (a, OAdaptor true (Some i));
       (i, OImpl 1 {| opt_codec := None; opt_tcp := tcp; opt_local_address := la |} (Some h) (Some c));
       (c, OConn h {| opt_codec := Some k; opt_tcp := tcp; opt_local_address := la |}); (k, OCodec x)]
  end.

Definition roots_cells (R : list root) : cells := R ≫= root_cells.

Lemma roots_cells_perm R R' : R ≡ₚ R' -> roots_cells R ≡ₚ roots_cells R'.
Proof. intros HP. unfold roots_cells. by rewrite HP. Qed.

(** ** Programs over cells *)

(** [pick l o L K]: the cell of [l] in [L] holds [o], and [K] are the other cells. *)
Inductive pick (l : loc) (o : obj) : cells -> cells -> Prop :=
| pick_here L : pick l o ((l, o) :: L) L
| pick_next c L K : pick l o L K -> pick l o (c :: L) (c :: K).

Lemma pick_perm l o L K : pick l o L K -> L ≡ₚ (l, o) :: K.
Proof. induction 1 as [| c L K _ IH]; [done |]. rewrite IH. constructor. Qed.

Section ClientProofs.
Context `{SizeT} `{PQ : PriorityQueue Q}.

(** The weakest precondition of a call that must return. *)
Definition wp {A} (m : M (Q := Q) A) (Φ : A -> api -> Prop) (s : api) : Prop :=
  match m s with Ret a s' => Φ a s' | Abort | Hang | Fault => False end.

(** The memory is exactly [L]. *)
Definition holds (L : cells) (lib : @Library Q) (s : api) : Prop := rep (heap s) L /\ library s = lib.

Lemma cwp_ret {A} (a : A) (Φ : A -> api -> Prop) s : Φ a s -> wp (mret a) Φ s.
Proof. done. Qed.

Lemma cwp_bind {A B} (m : M A) (k : A -> M B) Φ s : wp m (fun a s' => wp (k a) Φ s') s -> wp (m ≫= k) Φ s.
Proof. unfold wp, mbind, M_bind. by destruct (m s). Qed.

Lemma cwp_mono {A} (m : M A) (Φ Ψ : A -> api -> Prop) s : wp m Φ s -> (forall a s', Φ a s' -> Ψ a s') -> wp m Ψ s.
Proof. unfold wp. destruct (m s); auto. Qed.

(** A program that may hang, if [P]. *)
Definition wp_or (P : Prop) {A} (m : M (Q := Q) A) (Φ : A -> api -> Prop) (s : api) : Prop :=
  match m s with Ret a s' => Φ a s' | Hang => P | Abort | Fault => False end.

Lemma wp_returns P {A} (m : M A) Φ s : wp m Φ s -> wp_or P m Φ s.
Proof. unfold wp, wp_or. by destruct (m s). Qed.

Lemma wp_or_bind P {A B} (m : M A) (k : A -> M B) Φ s : wp_or P m (fun a s' => wp_or P (k a) Φ s') s -> wp_or P (m ≫= k) Φ s.
Proof. unfold wp_or, mbind, M_bind. by destruct (m s). Qed.

Lemma wp_then P {A B} (m : M A) (k : A -> M B) Φ s : wp m (fun a s' => wp_or P (k a) Φ s') s -> wp_or P (m ≫= k) Φ s.
Proof. intros HW. by apply wp_or_bind, wp_returns. Qed.

Lemma wp_hangs (P : Prop) {A B} (m : M A) (k : A -> M B) Φ s : m s = Hang -> P -> wp_or P (m ≫= k) Φ s.
Proof. intros E HP. unfold wp_or, mbind, M_bind. by rewrite E. Qed.

Lemma wp_new o L lib s (Φ : loc -> api -> Prop) :
  holds L lib s -> (forall l s', holds ((l, o) :: L) lib s' -> Φ l s') -> wp (new_obj o) Φ s.
Proof.
  intros [HR HL] HΦ. unfold wp, new_obj. apply HΦ. split; [| done]. cbn. apply rep_alloc; [done |].
  apply not_elem_of_dom, is_fresh.
Qed.

Lemma wp_load l o L K lib s (Φ : obj -> api -> Prop) : holds L lib s -> pick l o L K -> Φ o s -> wp (load l) Φ s.
Proof. intros [HR _] HP HΦ. unfold wp, load. by rewrite (rep_lookup _ _ _ _ (rep_perm _ _ _ (pick_perm _ _ _ _ HP) HR)). Qed.

Lemma wp_store l o o' L K lib s (Φ : unit -> api -> Prop) :
  holds L lib s -> pick l o L K -> (forall s', holds ((l, o') :: K) lib s' -> Φ tt s') -> wp (store l o') Φ s.
Proof.
  intros [HR HL] HP%pick_perm HΦ. apply (rep_perm _ _ _ HP) in HR. unfold wp, store. rewrite (rep_lookup _ _ _ _ HR).
  apply HΦ. split; [| done]. by apply (rep_store _ _ o o').
Qed.

Lemma wp_free l o L K lib s (Φ : unit -> api -> Prop) :
  holds L lib s -> pick l o L K -> (forall s', holds K lib s' -> Φ tt s') -> wp (free l) Φ s.
Proof.
  intros [HR HL] HP%pick_perm HΦ. apply (rep_perm _ _ _ HP) in HR. unfold wp, free. rewrite (rep_lookup _ _ _ _ HR).
  apply HΦ. split; [| done]. by apply (rep_free _ _ o).
Qed.

Lemma wp_release b L lib s (Φ : unit -> api -> Prop) :
  holds L lib s -> (forall s', holds L (LibraryInitService_destroy b lib) s' -> Φ tt s') -> wp (library_release b) Φ s.
Proof. intros [HR <-] HΦ. by apply HΦ. Qed.

Lemma wp_init env L lib s (Φ : bool -> api -> Prop) :
  holds L lib s -> (forall s', holds L (LibraryInit env lib).2 s' -> Φ (LibraryInit env lib).1 s') -> wp (library_init env) Φ s.
Proof. intros [HR <-] HΦ. unfold wp, library_init. cbn. destruct (LibraryInit env (library s)). by apply HΦ. Qed.

(** ** What the calls do to the handles *)

Definition own (R : list root) (lib : @Library Q) (s : api) : Prop := holds (roots_cells R) lib s.

Lemma own_perm R R' lib s : R ≡ₚ R' -> own R lib s -> own R' lib s.
Proof. intros HP [HR HL]. split; [| done]. eapply rep_perm; [by apply roots_cells_perm | done]. Qed.

Lemma holds_own L R lib s : L ≡ₚ roots_cells R -> holds L lib s -> own R lib s.
Proof. intros HP [HR HL]. split; [| done]. by eapply rep_perm. Qed.

End ClientProofs.

Ltac pick := repeat first [apply pick_here | apply pick_next].
Ltac wp_step :=
  first
    [ apply cwp_bind
    | eapply wp_load; [eassumption | by pick |]
    | eapply wp_store; [eassumption | by pick | intros ? ?]
    | eapply wp_free; [eassumption | by pick | intros ? ?]
    | eapply wp_new; [eassumption | intros ? ? ?]
    | eapply wp_release; [eassumption | intros ? ?]
    | apply cwp_ret ]; cbn beta iota.
Ltac wp_steps := repeat wp_step.
Ltac give_back := eapply holds_own; [| eassumption]; cbn; solve_Permutation.

Section Calls.
Context `{SizeT} `{PQ : PriorityQueue Q}.
#[local] Abbreviation api := (Client.api (Q := Q)).
#[local] Abbreviation M := (Client.M (Q := Q)).

Lemma wp_new_codec x R lib (s : api) (Φ : loc -> api -> Prop) :
  own R lib s -> (forall w k s', own (RWrapper w (Some (k, x)) :: R) lib s' -> Φ w s') -> wp (new_codec x) Φ s.
Proof.
  intros HO HΦ. unfold own in HO. unfold new_codec. wp_steps. eapply HΦ. give_back.
Qed.

Lemma wp_codec_destroy w k R lib (s : api) (Φ : unit -> api -> Prop) :
  own (RWrapper w k :: R) lib s -> (forall s', own R lib s' -> Φ tt s') -> wp (connx_codec_destroy (Some w)) Φ s.
Proof.
  intros HO HΦ. unfold own in HO. cbn in HO. unfold connx_codec_destroy. destruct k as [[k x] |]; cbn in HO; wp_steps; by apply HΦ.
Qed.

Lemma wp_options_destroy l tcp k copy R lib (s : api) (Φ : unit -> api -> Prop) :
  own (ROptions l tcp k copy :: R) lib s -> (forall s', own R lib s' -> Φ tt s') ->
  wp (connx_client_options_destroy (Some l)) Φ s.
Proof.
  intros HO HΦ. unfold own in HO. unfold connx_client_options_destroy.
  destruct k as [[k x] |], copy as [[c str] |]; cbn in HO; wp_steps; by apply HΦ.
Qed.

Lemma wp_set_codec l tcp k copy w k' R lib (s : api) (Φ : unit -> api -> Prop) :
  own (ROptions l tcp k copy :: RWrapper w k' :: R) lib s ->
  (forall s', own (ROptions l tcp k' copy :: RWrapper w None :: R) lib s' -> Φ tt s') ->
  wp (connx_client_options_set_codec (Some l) (Some w)) Φ s.
Proof.
  intros HO HΦ. unfold own in HO. unfold connx_client_options_set_codec.
  destruct k as [[k x] |], copy as [[c str] |], k' as [[k' x'] |]; cbn in HO; wp_steps; apply HΦ; give_back.
Qed.

Lemma wp_set_local_address l tcp k copy addr R lib (s : api) (Φ : unit -> api -> Prop) :
  own (ROptions l tcp k copy :: R) lib s ->
  (forall copy' s', snd <$> copy' = addr -> own (ROptions l tcp k copy' :: R) lib s' -> Φ tt s') ->
  wp (connx_client_options_set_local_address (Some l) addr) Φ s.
Proof.
  intros HO HΦ. unfold own in HO. unfold connx_client_options_set_local_address.
  destruct k as [[k x] |], copy as [[c str] |], addr as [a |]; cbn in HO; wp_steps;
    first [eapply (HΦ (Some (_, a))) | eapply (HΦ None)]; try reflexivity; give_back.
Qed.

Lemma wp_set_tcp l tcp k copy f R lib (s : api) (Φ : unit -> api -> Prop) :
  own (ROptions l tcp k copy :: R) lib s ->
  (forall s', own (ROptions l (f tcp) k copy :: R) lib s' -> Φ tt s') -> wp (set_tcp_field (Some l) f) Φ s.
Proof.
  intros HO HΦ. unfold own in HO. unfold set_tcp_field. cbn in HO. wp_steps. apply HΦ. give_back.
Qed.

(** [connx_client_new] hands the codec to the client and borrows the handler and the local
    address; without a codec or a runtime it changes no handle. *)
Lemma wp_client_new env h l tcp k copy R lib (s : api) (Φ : option loc -> api -> Prop) :
  own (ROptions l tcp k copy :: R) lib s ->
  (forall s', own (ROptions l tcp k copy :: R) (if k is Some _ then (LibraryInit env lib).2 else lib) s' ->
     (k <> None -> (LibraryInit env lib).1 = false) -> Φ None s') ->
  (forall c a i cc kk x s', k = Some (kk, x) -> (LibraryInit env lib).1 = true ->
     own (RClient c a i cc kk x h tcp (fst <$> copy) :: ROptions l tcp None copy :: R) (LibraryInit env lib).2 s' ->
     Φ (Some c) s') ->
  wp (connx_client_new env (Some h) (Some l)) Φ s.
Proof.
  intros HO HN HC. unfold own in HO. unfold connx_client_new, CreateClient. cbn in HO.
  destruct k as [[k x] |]; cbn in HO; wp_steps; cbn [fmap option_fmap option_map fst opt_codec]; wp_steps; [| by apply HN; [give_back |]].
  unfold ClientAdaptor_new. wp_steps. eapply wp_init; [eassumption |]. intros s1 HO1.
  destruct (LibraryInit env lib) as [[] lib'] eqn:EL; cbn [fst snd] in *; wp_steps.
  - unfold ClientAdaptor_Init, ClientImpl_SetOptions, ClientImpl_Start. wp_steps. eapply (HC _ _ _ _ k x); [done | done |].
    destruct copy as [[c str] |]; give_back.
  - unfold ClientAdaptor_destroy. wp_steps. cbn [LibraryInitService_destroy] in *. apply HN; [| done]. destruct copy as [[c str] |]; give_back.
Qed.

Lemma wp_client_destroy c a i cc k x h tcp la R lib (s : api) (Φ : unit -> api -> Prop) :
  own (RClient c a i cc k x h tcp la :: R) lib s -> (forall s', own R (LibraryShutdown lib) s' -> Φ tt s') ->
  wp (connx_client_destroy true (Some c)) Φ s.
Proof.
  intros HO HΦ. unfold own in HO. cbn in HO.
  unfold connx_client_destroy, ReleaseClient, ClientAdaptor_destroy, Unref, ClientImpl_Stop, CloseFromOwner, ClientConnection_destroy.
  wp_steps. unfold ClientImpl_destroy, ClientImpl_Stop. wp_steps. by apply HΦ.
Qed.

(** Without [CloseFromOwner] returning, neither of the two ways to release a client returns. *)
Lemma hang_release a i cc refs iopts hh h opts (s : api) :
  heap s !! a = Some (OAdaptor true (Some i)) -> heap s !! i = Some (OImpl refs iopts hh (Some cc)) ->
  heap s !! cc = Some (OConn h opts) -> ReleaseClient false (Some a) s = Hang.
Proof.
  intros Ha Hi Hc. unfold ReleaseClient, ClientAdaptor_destroy, ClientImpl_Stop, CloseFromOwner, mbind, M_bind, load.
  by rewrite Ha; cbn; rewrite Hi; cbn; rewrite Hc.
Qed.

Lemma hang_client_destroy c a i cc k x h tcp la R lib (s : api) :
  own (RClient c a i cc k x h tcp la :: R) lib s -> connx_client_destroy false (Some c) s = Hang.
Proof.
  intros [HR _]. assert (HL : forall l o, (l, o) ∈ root_cells (RClient c a i cc k x h tcp la) -> heap s !! l = Some o).
  { intros l o Hin. eapply (rep_elem _ _ _ _ HR). unfold roots_cells. rewrite bind_cons. apply elem_of_app. by left. }
  cbn [root_cells] in HL. unfold connx_client_destroy, mbind, M_bind, load. rewrite (HL c (OClient a h)) by set_solver. cbv beta iota.
  erewrite hang_release; [done | ..]; apply HL; [do 1 right; left | do 2 right; left | do 3 right; left].
Qed.

Lemma wp_connection_of c a i cc k x h tcp la R lib (s : api) (Φ : option (loc * ClientOptions) -> api -> Prop) :
  own (RClient c a i cc k x h tcp la :: R) lib s ->
  Φ (Some (cc, {| opt_codec := Some k; opt_tcp := tcp; opt_local_address := la |})) s ->
  wp (connection_of (Some c)) Φ s.
Proof.
  intros HO HΦ. unfold own in HO. cbn in HO. unfold connection_of, client_impl, ClientAdaptor_impl, ClientImpl_connection. by wp_steps.
Qed.

Lemma connection_of_client c a i cc k x h tcp la R lib (s : api) :
  own (RClient c a i cc k x h tcp la :: R) lib s ->
  connection_of (Some c) s = Ret (Some (cc, {| opt_codec := Some k; opt_tcp := tcp; opt_local_address := la |})) s.
Proof.
  intros HO. pose proof (wp_connection_of _ _ _ _ _ _ _ _ _ _ _ s
    (fun r s' => Ret r s' = Ret (Some (cc, {| opt_codec := Some k; opt_tcp := tcp; opt_local_address := la |})) s) HO eq_refl) as HW.
  unfold wp in HW. by destruct (connection_of (Some c) s).
Qed.

(** Cells of different roots are different. *)
Lemma own_disjoint r R lib (s : api) l o : own (r :: R) lib s -> (l, o) ∈ root_cells r -> l ∉ (roots_cells R).*1.
Proof.
  intros [[Hnd _] _] Hin Hin'. cbn in Hnd. rewrite fmap_app in Hnd. apply list.NoDup_app in Hnd as (_ & Hd & _).
  apply (Hd l); [| done]. by apply (list_elem_of_fmap_2 fst _ _ Hin).
Qed.

(** ** Programs over the C interface *)

(** A call with its arguments; [closes] says whether [CloseFromOwner] returns. [COpenSocket] and [CCallback] are what the threads of the
    library do behind a client: read the local address, call the handler. *)
Inductive call :=
| CHandlerNew (fns : handler_fns)
| CHandlerDestroy (handler : option loc)
| CCodecDelimiter (delimiter : byte)
| CCodecFixedLength (frame_length : Z)
| CCodecLengthField (length_field_offset length_field_length header_len network_to_host : Z)
| CCodecCallback (callback : option decode_fn)
| CCodecDestroy (codec : option loc)
| COptionsNew
| COptionsDestroy (options : option loc)
| CSetCodec (options codec : option loc)
| CSetLocalAddress (options : option loc) (local_address : option str)
| CSetNodelay (options : option loc) (enabled : Z)
| CSetSendBuffer (options : option loc) (size : Z)
| CSetRecvBuffer (options : option loc) (size : Z)
| CSetLinger (options : option loc) (sec : Z)
| CSetConnectTimeout (options : option loc) (ms : Z)
| CClientNew (env : start_env) (handler options : option loc)
| CClientDestroy (client : option loc) (closes : bool)
| CConnect (client : option loc) (host : option str) (accepted : str -> bool)
| CConnectIpPort (client : option loc) (ip : option str) (port : Z) (accepted : str -> bool)
| CDisconnect (client : option loc)
| CIsConnected (client : option loc) (connected : bool)
| CSendBuffer (client : option loc) (data : option (list byte)) (accepted : bool)
| CGetMetrics (client : option loc) (metrics : bool) (m : Metrics)
| CLibraryInit (env : start_env)
| CLibraryShutdown
| CSetWorkerThreads (n : Z)
| CSetWorkerThreadsAuto
| COpenSocket (client : option loc)
| CCallback (client : option loc) (cb : callback).

Inductive value := VUnit | VInt (z : Z) | VPtr (p : option loc) | VStr (s : option str) | VMetrics (m : option Metrics).

Definition exec (c : call) : M value :=
  match c with
  | CHandlerNew fns => p ← connx_client_handler_new fns; mret (VPtr (Some p))
  | CHandlerDestroy h => connx_client_handler_destroy h;; mret VUnit
  | CCodecDelimiter d => p ← connx_codec_new_delimiter d; mret (VPtr (Some p))
  | CCodecFixedLength n => p ← connx_codec_new_fixed_length n; mret (VPtr (Some p))
  | CCodecLengthField a b c d => p ← connx_codec_new_length_field a b c d; mret (VPtr (Some p))
  | CCodecCallback f => p ← connx_codec_new_callback f; mret (VPtr p)
  | CCodecDestroy w => connx_codec_destroy w;; mret VUnit
  | COptionsNew => p ← connx_client_options_new; mret (VPtr (Some p))
  | COptionsDestroy o => connx_client_options_destroy o;; mret VUnit
  | CSetCodec o w => connx_client_options_set_codec o w;; mret VUnit
  | CSetLocalAddress o a => connx_client_options_set_local_address o a;; mret VUnit
  | CSetNodelay o v => connx_client_options_set_tcp_nodelay o v;; mret VUnit
  | CSetSendBuffer o v => connx_client_options_set_send_buffer_size o v;; mret VUnit
  | CSetRecvBuffer o v => connx_client_options_set_recv_buffer_size o v;; mret VUnit
  | CSetLinger o v => connx_client_options_set_linger o v;; mret VUnit
  | CSetConnectTimeout o v => connx_client_options_set_connect_timeout o v;; mret VUnit
  | CClientNew env h o => p ← connx_client_new env h o; mret (VPtr p)
  | CClientDestroy c closes => connx_client_destroy closes c;; mret VUnit
  | CConnect c host acc => z ← connx_client_connect c host acc; mret (VInt z)
  | CConnectIpPort c ip port acc => z ← connx_client_connect_ip_port c ip port acc; mret (VInt z)
  | CDisconnect c => connx_client_disconnect c;; mret VUnit
  | CIsConnected c b => z ← connx_client_is_connected c b; mret (VInt z)
  | CSendBuffer c d acc => z ← connx_client_send_buffer c d acc; mret (VInt z)
  | CGetMetrics c b m => m ← connx_client_get_metrics c b m; mret (VMetrics m)
  | CLibraryInit env => z ← connx_library_init env; mret (VInt z)
  | CLibraryShutdown => connx_library_shutdown;; mret VUnit
  | CSetWorkerThreads n => z ← connx_runtime_set_worker_threads n; mret (VInt z)
  | CSetWorkerThreadsAuto => z ← connx_runtime_set_worker_threads_auto; mret (VInt z)
  | COpenSocket c => a ← read_local_address c; mret (VStr a)
  | CCallback c cb => b ← run_handler c cb; mret (VInt (if b : bool then 1 else 0))
  end.

(** The initializations the program itself holds after a call. *)
Definition held (n : Z) (c : call) (v : value) : Z :=
  match c, v with
  | CLibraryInit _, VInt 0 => n + 1
  | CLibraryShutdown, _ => n - 1
  | _, _ => n
  end.

(** *** The rules of use *)

Definition is_handler (o : obj) : bool := if o is OHandler _ then true else false.
Definition is_wrapper (o : obj) : bool := if o is OWrapper _ then true else false.
Definition is_options (o : obj) : bool := if o is OOptions _ _ then true else false.
Definition is_client (o : obj) : bool := if o is OClient _ _ then true else false.

(** A handle of the right kind that has not been destroyed, or NULL. *)
Definition valid_handle (P : obj -> bool) (s : api) (h : option loc) : Prop :=
  match h with Some l => (P <$> heap s !! l) = Some true | None => True end.

(** No connection uses the handler or the local address at [l]. *)
Definition unused (s : api) (l : loc) : Prop :=
  forall c h opts, heap s !! c = Some (OConn h opts) -> h <> l /\ opt_local_address opts <> Some l.

Definition unused_copy (s : api) (options : option loc) : Prop :=
  forall l opts copy, options = Some l -> heap s !! l = Some (OOptions opts (Some copy)) -> unused s copy.

(** What a program may call: the handles are valid, a handler outlives the clients it was
    given to, and so do options that hold a local address (c.h does not ask for this); it shuts down the library only
    as often as it initialized it. *)
Definition allowed (n : Z) (c : call) (s : api) : Prop :=
  match c with
  | CHandlerDestroy h => valid_handle is_handler s h /\ (forall l, h = Some l -> unused s l)
  | CCodecDestroy w => valid_handle is_wrapper s w
  | COptionsDestroy o | CSetLocalAddress o _ => valid_handle is_options s o /\ unused_copy s o
  | CSetCodec o w => valid_handle is_options s o /\ valid_handle is_wrapper s w
  | CSetNodelay o _ | CSetSendBuffer o _ | CSetRecvBuffer o _ | CSetLinger o _ | CSetConnectTimeout o _ =>
      valid_handle is_options s o
  | CClientNew env h o => env_ok env /\ valid_handle is_handler s h /\ valid_handle is_options s o
  | CClientDestroy c _ | CConnect c _ _ | CConnectIpPort c _ _ _ | CDisconnect c | CIsConnected c _ | CSendBuffer c _ _
  | CGetMetrics c _ _ | COpenSocket c | CCallback c _ => valid_handle is_client s c
  | CLibraryInit env => env_ok env
  | CLibraryShutdown => 0 < n
  | CSetWorkerThreads n => 0 <= n
  | _ => True
  end.

(** What a program does that follows the rules, with the initializations it holds. *)
Inductive session : Z -> api -> Prop :=
| session_begin : session 0 {| heap := ∅; library := Library_new |}
| session_call n c v s s' : session n s -> allowed n c s -> exec c s = Ret v s' -> session (held n c v) s'.

(** *** The invariant *)

Definition is_rclient (r : root) : Z := if r is RClient _ _ _ _ _ _ _ _ _ then 1 else 0.
Definition clients (R : list root) : Z := weigh is_rclient R.

(** What the handles provide, and what the clients borrow. *)
Definition handler_of (r : root) : option loc := if r is RHandler l _ then Some l else None.
Definition string_of (r : root) : option loc := if r is ROptions _ _ _ copy then fst <$> copy else None.
Definition uses_handler (r : root) : option loc := if r is RClient _ _ _ _ _ _ h _ _ then Some h else None.
Definition uses_string (r : root) : option loc := if r is RClient _ _ _ _ _ _ _ _ la then la else None.

Record capi (n : Z) (R : list root) (s : api) : Prop := {
  capi_own : own R (library s) s;
  capi_lib : library_ok (library s);
  capi_held : 0 <= n;
  capi_count : g_initializations (library s) = n + clients R;
  capi_handlers : omap uses_handler R ⊆ omap handler_of R;
  capi_strings : omap uses_string R ⊆ omap string_of R;
}.

Lemma capi_perm n R R' (s : api) : R ≡ₚ R' -> capi n R s -> capi n R' s.
Proof.
  intros HP [HO HL Hn Hc Hh Hs]. split; try done.
  - by eapply own_perm.
  - unfold clients in *. by rewrite <- (weigh_perm _ _ _ HP).
  - by rewrite <- HP.
  - by rewrite <- HP.
Qed.

Lemma capi_cell n R (s : api) l o : capi n R s -> heap s !! l = Some o -> exists r, r ∈ R /\ (l, o) ∈ root_cells r.
Proof.
  intros [[HR _] _ _ _ _ _] Hl. apply (rep_elem _ _ _ _ HR) in Hl. unfold roots_cells in Hl.
  by apply list_elem_of_bind in Hl as (r & ? & ?); exists r.
Qed.

Lemma capi_conn n R (s : api) c a i cc k x h tcp la :
  capi n R s -> RClient c a i cc k x h tcp la ∈ R ->
  heap s !! cc = Some (OConn h {| opt_codec := Some k; opt_tcp := tcp; opt_local_address := la |}).
Proof.
  intros [[HR _] _ _ _ _ _] Hin. apply (rep_elem _ _ _ _ HR). unfold roots_cells. apply list_elem_of_bind.
  exists (RClient c a i cc k x h tcp la). split; [cbn; set_solver | done].
Qed.

(** The root of a valid handle. *)
Lemma capi_root n R (s : api) l (P : obj -> bool) (K : root -> Prop) :
  capi n R s -> valid_handle P s (Some l) -> (forall o r, (l, o) ∈ root_cells r -> P o = true -> K r) ->
  exists r, K r /\ r ∈ R.
Proof.
  intros HC Hv HK. cbn in Hv. destruct (heap s !! l) as [o |] eqn:Hl; [| done]. injection Hv as Ho.
  destruct (capi_cell _ _ _ _ _ HC Hl) as (r & Hin & Hr). exists r. split; [by eapply HK | done].
Qed.

Ltac root_cases := intros o r Hr Ho; destruct r as [| ? [[]|] | ? ? [[]|] [[]|] |]; cbn in Hr; set_unfold in Hr;
  destruct_or?; simplify_eq; cbn in *; try done; repeat eexists.

Lemma handler_root n R (s : api) l :
  capi n R s -> valid_handle is_handler s (Some l) -> exists fns, RHandler l fns ∈ R.
Proof.
  intros HC Hv. destruct (capi_root _ _ _ _ _ (fun r => exists fns, r = RHandler l fns) HC Hv) as (r & [fns ->] & Hin); [root_cases |].
  by exists fns.
Qed.

Lemma wrapper_root n R (s : api) l : capi n R s -> valid_handle is_wrapper s (Some l) -> exists k, RWrapper l k ∈ R.
Proof.
  intros HC Hv. destruct (capi_root _ _ _ _ _ (fun r => exists k, r = RWrapper l k) HC Hv) as (r & [k ->] & Hin); [root_cases |].
  by exists k.
Qed.

Lemma options_root n R (s : api) l :
  capi n R s -> valid_handle is_options s (Some l) -> exists tcp k copy, ROptions l tcp k copy ∈ R.
Proof.
  intros HC Hv. destruct (capi_root _ _ _ _ _ (fun r => exists tcp k copy, r = ROptions l tcp k copy) HC Hv)
    as (r & (tcp & k & copy & ->) & Hin); [root_cases |]. by exists tcp, k, copy.
Qed.

Lemma client_root n R (s : api) l :
  capi n R s -> valid_handle is_client s (Some l) -> exists a i cc k x h tcp la, RClient l a i cc k x h tcp la ∈ R.
Proof.
  intros HC Hv. destruct (capi_root _ _ _ _ _ (fun r => exists a i cc k x h tcp la, r = RClient l a i cc k x h tcp la) HC Hv)
    as (r & (a & i & cc & k & x & h & tcp & la & ->) & Hin); [root_cases |]. by exists a, i, cc, k, x, h, tcp, la.
Qed.

Lemma capi_front n R (s : api) r : capi n R s -> r ∈ R -> exists R', R ≡ₚ r :: R' /\ capi n (r :: R') s.
Proof. intros HC [R' HR]%elem_of_Permutation. exists R'. split; [done |]. by eapply capi_perm. Qed.

(** Nothing borrows what [unused] says is free. *)
Lemma unused_handlers n R (s : api) l : capi n R s -> unused s l -> (l ∉ omap uses_handler R) /\ (l ∉ omap uses_string R).
Proof.
  intros HC Hu. split; intros (r & Hin & Hr)%list_elem_of_omap; destruct r as [| | | c a i cc k x h tcp la]; try done; cbn in Hr;
    simplify_eq; destruct (Hu _ _ _ (capi_conn _ _ _ _ _ _ _ _ _ _ _ _ HC Hin)) as [H1 H2]; cbn in *; congruence.
Qed.

(** *** Every call keeps the invariant *)

(** A call that leaves the library alone. *)
Lemma capi_next n R R' (s : api) s' :
  capi n R s -> own R' (library s) s' -> clients R' = clients R ->
  omap uses_handler R' ⊆ omap handler_of R' -> omap uses_string R' ⊆ omap string_of R' -> capi n R' s'.
Proof.
  intros [HO HL Hn Hc Hh Hs] HO' Hc' Hh' Hs'. assert (E : library s' = library s) by apply HO'. split; rewrite ?E; try done.
  by rewrite Hc'.
Qed.

Ltac next HC := eapply (capi_next _ _ _ _ _ HC); [eassumption | by cbn | |];
  pose proof (capi_handlers _ _ _ HC); pose proof (capi_strings _ _ _ HC); cbn in *.

Definition keeps (n : Z) (c : call) (s : api) : Prop := wp (exec c) (fun v s' => exists R', capi (held n c v) R' s') s.

Lemma capi_here n R (s : api) : capi n R s -> exists R', capi n R' s.
Proof. by exists R. Qed.

(** A call that only looks. *)
Lemma keeps_pure {A} n R (c : call) (m : M A) (k : A -> value) s :
  capi n R s -> exec c = (a ← m; mret (k a)) -> (forall v, held n c v = n) -> wp m (fun _ s' => s' = s) s -> keeps n c s.
Proof.
  intros HC E Hh Hm. unfold keeps. rewrite E. apply cwp_bind. eapply cwp_mono; [exact Hm |]. intros a s' ->. apply cwp_ret. rewrite Hh. by exists R.
Qed.

Lemma keeps_handlers n R (s : api) c :
  capi n R s -> allowed n c s -> match c with CHandlerNew _ | CHandlerDestroy _ => keeps n c s | _ => True end.
Proof.
  intros HC Ha. destruct c as [fns | [l |] | | | | | | | | | | | | | | | | | | | | | | | | | | | |]; try done; unfold keeps; cbn in *.
  - apply cwp_bind. eapply wp_new; [apply HC |]. intros l s' HO. apply cwp_ret. exists (RHandler l fns :: R). next HC; set_solver.
  - destruct Ha as [Hv Hu]. destruct (handler_root _ _ _ _ HC Hv) as [fns Hin].
    destruct (capi_front _ _ _ _ HC Hin) as (R' & HR & HC'). pose proof (capi_own _ _ _ HC') as HO.
    destruct (unused_handlers _ _ _ _ HC' (Hu l eq_refl)) as [Hn1 Hn2].
    unfold own in HO. cbn in HO. unfold connx_client_handler_destroy, free_opt. wp_steps. exists R'. next HC'; set_solver.
  - apply cwp_bind, cwp_ret, cwp_ret. by exists R.
Qed.

Lemma keeps_codecs n R (s : api) c :
  capi n R s -> allowed n c s ->
  match c with
  | CCodecDelimiter _ | CCodecFixedLength _ | CCodecCallback _ | CCodecDestroy _ => keeps n c s
  | CCodecLengthField a b h d => LengthFieldCodec_new a b h (negb (d =? 0)) <> None -> keeps n c s
  | _ => True
  end.
Proof.
  intros HC Ha. pose proof (capi_own _ _ _ HC) as HO.
  assert (HN : forall x (k : loc -> value) c, exec c = (p ← new_codec x; mret (k p)) -> (forall v, held n c v = n) -> keeps n c s).
  { intros x k c' E Hh. unfold keeps. rewrite E. apply cwp_bind. eapply wp_new_codec; [done |]. intros w l s' HO'. apply cwp_ret.
    rewrite Hh. eexists. next HC; set_solver. }
  destruct c; try done.
  - by eapply HN.
  - by eapply HN.
  - cbn in *. intros Hn. destruct (LengthFieldCodec_new _ _ _ _) as [self |] eqn:E; [| done].
    eapply (HN (LengthField self) (fun p => VPtr (Some p))); [| done]. cbn. unfold connx_codec_new_length_field. by rewrite E.
  - destruct callback as [f |]; [| by apply cwp_bind, cwp_ret, cwp_ret; exists R]. unfold keeps. cbn. unfold connx_codec_new_callback.
    do 2 apply cwp_bind. eapply wp_new_codec; [done |]. intros w l s' HO'. apply cwp_ret, cwp_ret. eexists. next HC; set_solver.
  - destruct codec as [w |]; [| by apply cwp_bind, cwp_ret, cwp_ret; exists R]. cbn in Ha.
    destruct (wrapper_root _ _ _ _ HC Ha) as [k Hin]. destruct (capi_front _ _ _ _ HC Hin) as (R' & HR & HC').
    unfold keeps. cbn. apply cwp_bind. eapply wp_codec_destroy; [apply HC' |]. intros s' HO'. apply cwp_ret. exists R'. next HC'; set_solver.
Qed.

(** A valid options handle, its root in front. *)
Lemma options_front n R (s : api) l :
  capi n R s -> valid_handle is_options s (Some l) ->
  exists tcp k copy R', R ≡ₚ ROptions l tcp k copy :: R' /\ capi n (ROptions l tcp k copy :: R') s.
Proof.
  intros HC Hv. destruct (options_root _ _ _ _ HC Hv) as (tcp & k & copy & Hin).
  destruct (capi_front _ _ _ _ HC Hin) as (R' & HR & HC'). by exists tcp, k, copy, R'.
Qed.

(** Nobody borrows the local address of options that [unused_copy] lets go. *)
Lemma unused_copy_strings n l tcp k copy R (s : api) :
  capi n (ROptions l tcp k copy :: R) s -> unused_copy s (Some l) -> omap uses_string R ⊆ omap string_of R.
Proof.
  intros HC Hu. pose proof (capi_strings _ _ _ HC) as Hs. cbn in Hs. destruct copy as [[c str] |]; cbn in Hs; [| done].
  assert (Hc : unused s c).
  { eapply (Hu l); [done |]. eapply (rep_elem _ _ _ _ (proj1 (capi_own _ _ _ HC))). cbn. left. }
  destruct (unused_handlers _ _ _ _ HC Hc) as [_ Hn]. cbn in Hn. set_solver.
Qed.

Lemma keeps_tcp n R (c : call) (options : option loc) (f : TcpOptions -> TcpOptions) s :
  capi n R s -> valid_handle is_options s options -> exec c = (set_tcp_field options f;; mret VUnit) ->
  (forall v, held n c v = n) -> keeps n c s.
Proof.
  intros HC Hv E Hh. unfold keeps. rewrite E. apply cwp_bind. destruct options as [l |]; [| apply cwp_ret, cwp_ret; rewrite Hh; by exists R].
  destruct (options_front _ _ _ _ HC Hv) as (tcp & k & copy & R' & HR & HC').
  eapply wp_set_tcp; [apply HC' |]. intros s' HO. apply cwp_ret. rewrite Hh. eexists. next HC'; set_solver.
Qed.

Lemma keeps_set_codec n R (s : api) options codec : capi n R s -> allowed n (CSetCodec options codec) s -> keeps n (CSetCodec options codec) s.
Proof.
  intros HC [Ho Hw]. unfold keeps. cbn. apply cwp_bind.
  destruct options as [l |]; [| by apply cwp_ret, cwp_ret; exists R]. destruct codec as [w |]; [| by apply cwp_ret, cwp_ret; exists R].
  destruct (options_front _ _ _ _ HC Ho) as (tcp & k & copy & R1 & HR & HC1).
  destruct (wrapper_root _ _ _ _ HC1 Hw) as (k' & Hin). apply elem_of_cons in Hin as [| Hin]; [done |].
  apply elem_of_Permutation in Hin as [R2 HR2]. assert (HC2 : capi n (ROptions l tcp k copy :: RWrapper w k' :: R2) s)
    by (eapply capi_perm; [by rewrite <- HR2 | done]).
  eapply wp_set_codec; [apply HC2 |]. intros s' HO. apply cwp_ret. eexists. next HC2; set_solver.
Qed.

Lemma keeps_options n R (s : api) c :
  capi n R s -> allowed n c s ->
  match c with
  | COptionsNew | COptionsDestroy _ | CSetCodec _ _ | CSetLocalAddress _ _ | CSetNodelay _ _ | CSetSendBuffer _ _
  | CSetRecvBuffer _ _ | CSetLinger _ _ | CSetConnectTimeout _ _ => keeps n c s
  | _ => True
  end.
Proof.
  intros HC Ha. destruct c; try done; try (by eapply (keeps_tcp _ _ _ options); eauto); try by eapply keeps_set_codec.
  - unfold keeps. cbn. apply cwp_bind. eapply wp_new; [apply HC |]. intros l s' HO. apply cwp_ret.
    exists (ROptions l TcpOptions_default None None :: R). next HC; set_solver.
  - unfold keeps. cbn. apply cwp_bind. destruct options as [l |]; [| by apply cwp_ret, cwp_ret; exists R]. destruct Ha as [Hv Hu].
    destruct (options_front _ _ _ _ HC Hv) as (tcp & k & copy & R' & HR & HC').
    pose proof (unused_copy_strings _ _ _ _ _ _ _ HC' Hu) as Hs. eapply wp_options_destroy; [apply HC' |].
    intros s' HO. apply cwp_ret. exists R'. next HC'; set_solver.
  - unfold keeps. cbn. apply cwp_bind. destruct options as [l |]; [| by apply cwp_ret, cwp_ret; exists R]. destruct Ha as [Hv Hu].
    destruct (options_front _ _ _ _ HC Hv) as (tcp & k & copy & R' & HR & HC').
    pose proof (unused_copy_strings _ _ _ _ _ _ _ HC' Hu) as Hs. eapply wp_set_local_address; [apply HC' |].
    intros copy' s' _ HO. apply cwp_ret. eexists. next HC'; [set_solver |]. destruct copy' as [[] |]; cbn; set_solver.
Qed.

(** *** Clients *)

Lemma LibraryShutdown_ok (l : @Library Q) :
  library_ok l -> 0 < g_initializations l ->
  library_ok (LibraryShutdown l) /\ g_initializations (LibraryShutdown l) = g_initializations l - 1.
Proof. intros HL Hn. destruct (lib_step_ok l LShutdown HL I) as [H1 H2]. cbn in *. split; [done | lia]. Qed.

Lemma clients_nonneg R : 0 <= clients R.
Proof. apply weigh_nonneg. by intros []. Qed.

Lemma capi_lib_next n n' R R' (s : api) s' lib :
  capi n R s -> own R' lib s' -> library_ok lib -> 0 <= n' -> g_initializations lib = n' + clients R' ->
  omap uses_handler R' ⊆ omap handler_of R' -> omap uses_string R' ⊆ omap string_of R' -> capi n' R' s'.
Proof. intros HC HO HL Hn Hc Hh Hs. assert (E : library s' = lib) by apply HO. by split; rewrite ?E. Qed.

Lemma client_front n R (s : api) l :
  capi n R s -> valid_handle is_client s (Some l) ->
  exists a i cc k x h tcp la R', R ≡ₚ RClient l a i cc k x h tcp la :: R' /\ capi n (RClient l a i cc k x h tcp la :: R') s.
Proof.
  intros HC Hv. destruct (client_root _ _ _ _ HC Hv) as (a & i & cc & k & x & h & tcp & la & Hin).
  destruct (capi_front _ _ _ _ HC Hin) as (R' & HR & HC'). by exists a, i, cc, k, x, h, tcp, la, R'.
Qed.

Lemma keeps_client_new n R (s : api) env handler options :
  capi n R s -> allowed n (CClientNew env handler options) s -> keeps n (CClientNew env handler options) s.
Proof.
  intros HC (Henv & Hh & Ho). unfold keeps. cbn. apply cwp_bind.
  destruct handler as [h |]; [| by apply cwp_ret, cwp_ret; exists R]. destruct options as [l |]; [| by apply cwp_ret, cwp_ret; exists R].
  destruct (options_front _ _ _ _ HC Ho) as (tcp & k & copy & R' & HR & HC').
  destruct (handler_root _ _ _ _ HC' Hh) as (fns & Hin).
  pose proof (LibraryInit_ok env _ (capi_lib _ _ _ HC) Henv) as HI. pose proof (capi_count _ _ _ HC') as Hc.
  pose proof (capi_held _ _ _ HC) as Hn. pose proof (capi_handlers _ _ _ HC') as H1. pose proof (capi_strings _ _ _ HC') as H2.
  assert (Hhin : h ∈ omap handler_of (ROptions l tcp k copy :: R')) by (apply list_elem_of_omap; by exists (RHandler h fns)).
  eapply wp_client_new; [apply HC' | |].
  - intros s' HO Hk. apply cwp_ret. exists (ROptions l tcp k copy :: R'). destruct k as [kx |].
    + rewrite (surjective_pairing (LibraryInit env (library s))), Hk in HI by done. destruct HI as (HL & HG & _).
      eapply (capi_lib_next n n); eauto; lia.
    + eapply (capi_lib_next n n); eauto; apply HC'.
  - intros c a i cc kk x s' -> HL1 HO. apply cwp_ret.
    rewrite (surjective_pairing (LibraryInit env (library s))), HL1 in HI. destruct HI as (HL & HG & _).
    eexists. eapply (capi_lib_next n n); [done | exact HO | done | done | unfold clients in *; cbn in *; lia | |].
    + cbn in *. set_solver.
    + destruct copy as [[] |]; cbn in *; set_solver.
Qed.

Lemma keeps_client_destroy n R (s : api) client :
  capi n R s -> allowed n (CClientDestroy client true) s -> keeps n (CClientDestroy client true) s.
Proof.
  intros HC Hv. unfold keeps. cbn. apply cwp_bind. destruct client as [l |]; [| by apply cwp_ret, cwp_ret; exists R].
  destruct (client_front _ _ _ _ HC Hv) as (a & i & cc & k & x & h & tcp & la & R' & HR & HC').
  pose proof (clients_nonneg R') as H0. destruct HC' as [HO HL Hn Hc Hh Hs] eqn:E. clear E.
  change (clients (_ :: R')) with (1 + clients R') in Hc.
  destruct (LibraryShutdown_ok _ HL) as [HL1 HL2]; [lia |].
  eapply wp_client_destroy; [exact HO |]. intros s' HO'. apply cwp_ret. exists R'.
  eapply (capi_lib_next n n); [done | exact HO' | done | done | lia | |].
  - cbn in Hh. clear -Hh. set_solver.
  - cbn in Hs. destruct la; clear -Hs; set_solver.
Qed.

(** What a client borrows is still there. *)
Lemma wp_read_local_address n R (s : api) client :
  capi n R s -> valid_handle is_client s client -> wp (read_local_address client) (fun _ s' => s' = s) s.
Proof.
  intros HC Hv. unfold read_local_address. apply cwp_bind. destruct client as [l |]; [| done].
  destruct (client_front _ _ _ _ HC Hv) as (a & i & cc & k & x & h & tcp & la & R' & HR & HC').
  eapply wp_connection_of; [apply HC' |]. destruct la as [c |]; [| done]. cbn.
  pose proof (capi_strings _ _ _ HC') as Hs. cbn in Hs.
  assert (Hin : c ∈ omap string_of R') by set_solver.
  apply list_elem_of_omap in Hin as (r & Hin & Hr). destruct r as [| | ol otcp ok [[c' str] |] |]; try done. injection Hr as ->.
  apply cwp_bind. unfold wp, load.
  assert (Hl : heap s !! c = Some (OString str)); [| by rewrite Hl].
  eapply (rep_elem _ _ _ _ (proj1 (capi_own _ _ _ HC'))). unfold roots_cells. apply list_elem_of_bind.
  eexists. split; [| right; exact Hin]. cbn. set_solver.
Qed.

Lemma wp_run_handler n R (s : api) client cb :
  capi n R s -> valid_handle is_client s client -> wp (run_handler client cb) (fun _ s' => s' = s) s.
Proof.
  intros HC Hv. unfold run_handler. apply cwp_bind. destruct client as [l |]; [| done].
  destruct (client_front _ _ _ _ HC Hv) as (a & i & cc & k & x & h & tcp & la & R' & HR & HC').
  eapply wp_connection_of; [apply HC' |]. apply cwp_bind.
  unfold wp at 1, load at 1. rewrite (capi_conn _ _ _ _ _ _ _ _ _ _ _ _ HC' (list_elem_of_here _ _)). apply cwp_bind. unfold wp, load.
  pose proof (capi_handlers _ _ _ HC') as Hh. cbn in Hh. assert (Hin : h ∈ omap handler_of R') by set_solver.
  apply list_elem_of_omap in Hin as (r & Hin & Hr). destruct r as [l' fns | | |]; try done. injection Hr as ->.
  assert (Hl : heap s !! h = Some (OHandler fns)); [| by rewrite Hl].
  eapply (rep_elem _ _ _ _ (proj1 (capi_own _ _ _ HC'))). unfold roots_cells. apply list_elem_of_bind.
  eexists. split; [| right; exact Hin]. cbn. set_solver.
Qed.

(** Following a valid client to its connection. *)
Ltac reach HC Hv :=
  let a := fresh "a" in let i := fresh "i" in let cc := fresh "cc" in let k := fresh "k" in let x := fresh "x" in
  let h := fresh "h" in let tcp := fresh "tcp" in let la := fresh "la" in let R' := fresh "R'" in
  destruct (client_front _ _ _ _ HC Hv) as (a & i & cc & k & x & h & tcp & la & R' & _ & HC');
  pose proof (capi_own _ _ _ HC') as HO; unfold own in HO; cbn in HO;
  unfold ClientAdaptor_Connect, ClientAdaptor_Disconnect, ClientAdaptor_IsConnected, ClientAdaptor_SendBuffer, ClientAdaptor_GetMetrics,
    ClientAdaptor_Connect_ip_port, ClientImpl_Connect, ClientImpl_Disconnect, ClientImpl_IsConnected, ClientImpl_SendMsg,
    ClientImpl_GetMetrics, client_impl, ClientAdaptor_impl, ClientImpl_connection.

Lemma keeps_connect_ip_port n R (s : api) client ip port acc :
  capi n R s -> valid_handle is_client s client -> keeps n (CConnectIpPort client ip port acc) s.
Proof.
  intros HC Hv. unfold keeps. cbn. apply cwp_bind. destruct client as [l |]; [| by apply cwp_ret, cwp_ret; exists R].
  destruct ip as [ip |]; [| by apply cwp_ret, cwp_ret; exists R]. unfold connx_client_connect_ip_port. reach HC Hv.
  destruct ((port <=? 0) || (65535 <? port)); wp_steps; eexists; [exact HC' |].
  refine (capi_next _ _ _ _ _ HC' _ eq_refl (capi_handlers _ _ _ HC') (capi_strings _ _ _ HC')). assumption.
Qed.

(** The one call that can wait forever. *)
Definition hangs (c : call) : Prop := match c with CClientDestroy (Some _) false => True | _ => False end.
#[export] Instance hangs_dec c : Decision (hangs c).
Proof. destruct c; try apply _. destruct client, closes; apply _. Defined.

Lemma keeps_clients n R (s : api) c :
  capi n R s -> allowed n c s ->
  match c with
  | CClientDestroy _ _ => ~ hangs c -> keeps n c s
  | CClientNew _ _ _ | CConnect _ _ _ | CConnectIpPort _ _ _ _ | CDisconnect _ | CIsConnected _ _
  | CSendBuffer _ _ _ | CGetMetrics _ _ _ | COpenSocket _ | CCallback _ _ => keeps n c s
  | _ => True
  end.
Proof.
  intros HC Ha. destruct c; try done; try (by eapply keeps_client_new); try (by eapply keeps_connect_ip_port);
    try (eapply keeps_pure; [exact HC | reflexivity | done |]);
    try (by eapply wp_read_local_address); try (by eapply wp_run_handler); (destruct client as [l |]; [| try done]).
  - intros Hn. destruct closes; [by eapply keeps_client_destroy | by destruct Hn].
  - intros _. apply cwp_bind, cwp_ret, cwp_ret. by exists R.
  - destruct host; [| done]. unfold connx_client_connect. reach HC Ha. by wp_steps.
  - unfold connx_client_disconnect. reach HC Ha. by wp_steps.
  - unfold connx_client_is_connected. reach HC Ha. by wp_steps.
  - destruct data as [[| b d] |]; try done. unfold connx_client_send_buffer. reach HC Ha. by wp_steps.
  - destruct metrics; [| done]. unfold connx_client_get_metrics. reach HC Ha. by wp_steps.
Qed.

Lemma keeps_library n R (s : api) c :
  capi n R s -> allowed n c s ->
  match c with CLibraryInit _ | CLibraryShutdown | CSetWorkerThreads _ | CSetWorkerThreadsAuto => keeps n c s | _ => True end.
Proof.
  intros HC Ha. pose proof HC as [[HR _] HL Hn Hc Hh Hs]. pose proof (clients_nonneg R) as H0. destruct c; try done; unfold keeps; cbn in *.
  - pose proof (LibraryInit_ok env _ HL Ha) as HI. unfold wp, connx_library_init, mbind, M_bind.
    destruct (LibraryInit env (library s)) as [[] lib]; destruct HI as (HL' & HG & _); cbn in *; exists R;
      split; cbn; try done; try lia.
  - destruct (LibraryShutdown_ok _ HL) as [HL' HG]; [lia |]. exists R. split; cbn; try done; lia.
  - pose proof (lib_step_ok (library s) (LSetWorkers n0) HL Ha) as [HL' _]. unfold wp, connx_runtime_set_worker_threads, SetRuntimeWorkerThreads, ClientImpl_SetRuntimeWorkerThreads, with_runtime, mbind, M_bind.
    cbn in *. destruct (SetWorkerThreads n0 _) as [ok r]. cbn in *. exists R. by split.
  - pose proof (lib_step_ok (library s) LSetAuto HL Ha) as [HL' _]. unfold wp, connx_runtime_set_worker_threads_auto, SetRuntimeWorkerThreadsAuto, ClientImpl_SetRuntimeWorkerThreadsAuto, with_runtime, mbind, M_bind.
    cbn in *. destruct (SetWorkerThreadsAuto _) as [ok r]. cbn in *. exists R. by split.
Qed.

(** The one assertion a call can fail. *)
Definition asserts (c : call) : Prop :=
  match c with CCodecLengthField a b h d => LengthFieldCodec_new a b h (negb (d =? 0)) = None | _ => False end.
#[export] Instance asserts_dec c : Decision (asserts c).
Proof. destruct c; cbn; apply _. Defined.

Lemma keeps_all n R (s : api) c : capi n R s -> allowed n c s -> ~ asserts c -> ~ hangs c -> keeps n c s.
Proof.
  intros HC Ha Hn Hg. pose proof (keeps_handlers _ _ _ _ HC Ha). pose proof (keeps_codecs _ _ _ _ HC Ha). pose proof (keeps_options _ _ _ _ HC Ha).
  pose proof (keeps_clients _ _ _ _ HC Ha). pose proof (keeps_library _ _ _ _ HC Ha). by destruct c; auto.
Qed.

Lemma asserts_abort c (s : api) : asserts c -> exec c s = Abort.
Proof.
  destruct c; try done. cbn. intros E. unfold connx_codec_new_length_field, mbind, M_bind. by rewrite E.
Qed.

Lemma hangs_hang n R (s : api) c : capi n R s -> allowed n c s -> hangs c -> exec c s = Hang.
Proof.
  intros HC Ha Hg. destruct c; try done. destruct client as [l |], closes; try done. cbn [exec allowed] in *.
  destruct (client_front _ _ _ _ HC Ha) as (a & i & cc & k & x & h & tcp & la & R' & _ & HC').
  unfold mbind, M_bind. by rewrite (hang_client_destroy _ _ _ _ _ _ _ _ _ _ _ _ (capi_own _ _ _ HC')).
Qed.

Lemma capi_begin : capi 0 [] {| heap := ∅; library := Library_new |}.
Proof. split; try done; [split; [apply rep_nil | done] |]. exact (lib_run_ok [] (List.Forall_nil _)). Qed.

Lemma session_capi n (s : api) : session n s -> exists R, capi n R s.
Proof.
  induction 1 as [| n c v s s' _ [R HC] Ha E]; [exists []; apply capi_begin |].
  destruct (decide (asserts c)) as [Hc | Hc]; [by rewrite (asserts_abort c s Hc) in E |].
  destruct (decide (hangs c)) as [Hg | Hg]; [by rewrite (hangs_hang _ _ _ _ HC Ha Hg) in E |].
  pose proof (keeps_all _ _ _ _ HC Ha Hc Hg) as HK. unfold keeps, wp in HK. by rewrite E in HK.
Qed.

End Calls.
