(* ===== verification/ClientTheorems.v ===== *)
(** * What the C interface guarantees

    Memory safety and freedom from leaks for every program that follows the rules of
    [ClientProofs.allowed], and what happens without the one rule that [connx/c.h] does not
    state: options with a local address must outlive the clients made with them. *)

From S2P Require Import Prelude Codec Timer Poller Address Connection Runtime Client ClientProofs.

Section Claims.
Context `{SizeT} `{PQ : PriorityQueue Q}.

(** The handles of the interface; everything else is internal. *)
Definition is_handle (o : obj) : bool := is_handler o || is_wrapper o || is_options o || is_client o.

(** C3: Memory safety of the C interface: a program passes valid handles or NULL, destroys a
    handler, and options with a local address, only when no client uses them, and initializes
    and shuts down the library in pairs. Then nothing is used after it was freed or freed twice,
    by a call or by the library's threads, and the call returns, but for two exceptions.
    [connx_codec_new_length_field] on a field it cannot read aborts the process. And
    [connx_client_destroy] of a client waits in [CloseFromOwner] for the tasks of the connection:
    it does not return exactly when that wait does not end, which is possible
    ([ExecTheorems.close_from_owner_can_hang]). (Starting and stopping the library's threads are
    single steps here; [PollLoop.v] and [WorkerTheorems.v] show that they end.) *)
Theorem capi_safe (n : Z) (s : api (Q := Q)) (c : call) :
  session n s -> allowed n c s ->
  match exec c s with
  | Ret v s' => ~ asserts c /\ ~ hangs c
  | Abort => asserts c
  | Hang => hangs c
  | Fault => False
  end.
Proof.
  intros Hs Ha. destruct (session_capi _ _ Hs) as [R HC]. destruct (decide (asserts c)) as [Hc | Hc]; [by rewrite asserts_abort |].
  destruct (decide (hangs c)) as [Hg | Hg]; [by rewrite (hangs_hang _ _ _ _ HC Ha Hg) |].
  pose proof (keeps_all _ _ _ _ HC Ha Hc Hg) as HK. unfold keeps, wp in HK. by destruct (exec c s).
Qed.

(** C17: No leaks: when such a program has destroyed all its handles, no object is left, of the
    handles' own or behind them, and the library is initialized exactly as often as the
    program itself holds it. As long as a client exists, the runtime is up. *)
Theorem capi_no_leak (n : Z) (s : api (Q := Q)) :
  session n s ->
  ((forall l o, heap s !! l = Some o -> is_handle o = false) -> heap s = ∅ /\ g_initializations (library s) = n) /\
  (forall l a h, heap s !! l = Some (OClient a h) -> running_ (runtime (library s)) = true).
Proof.
  intros Hs. destruct (session_capi _ _ Hs) as [R HC]. split.
  - intros Hno. assert (HR : R = []).
    { destruct R as [| r R]; [done | exfalso].
      assert (Hcell : forall l o, (l, o) ∈ root_cells r -> heap s !! l = Some o).
      { intros l o Hin. eapply (rep_elem _ _ _ _ (proj1 (capi_own _ _ _ HC))). cbn. apply elem_of_app. by left. }
      destruct r as [l fns | l k | l tcp k copy | l a i c k x h tcp la]; cbn [root_cells] in Hcell;
        specialize (Hno l _ (Hcell _ _ (list_elem_of_here _ _))); done. }
    subst R. destruct HC as [[[_ HR] _] _ _ Hc _ _]. cbn in *. split; [done |]. unfold clients, weigh in Hc. cbn in Hc. lia.
  - intros l a h Hl. destruct (client_root n R s l HC) as (? & ? & ? & ? & ? & ? & ? & ? & Hin); [by cbn; rewrite Hl |].
    destruct (capi_front _ _ _ _ HC Hin) as (R' & _ & HC'). destruct HC' as [_ (_ & _ & Hrun) Hn Hc _ _].
    change (clients (_ :: R')) with (1 + clients R') in Hc. pose proof (clients_nonneg R'). apply Hrun. lia.
Qed.

(** A client keeps the [local_address] pointer of the options it was made with, not a copy.
    Once these options are destroyed, which the documentation of [connx_client_new] allows
    ("[opts] may be destroyed independently afterwards"), the client's next connection attempt
    reads freed memory. *)
Theorem local_address_dangles (n : Z) (s : api (Q := Q)) (client options : loc) (opts : ClientOptions) (copy : loc)
    (c : loc) (copts : ClientOptions) :
  session n s -> heap s !! options = Some (OOptions opts (Some copy)) ->
  (is_client <$> heap s !! client) = Some true -> connection_of (Some client) s = Ret (Some (c, copts)) s ->
  opt_local_address copts = Some copy ->
  exists s', connx_client_options_destroy (Some options) s = Ret tt s' /\ read_local_address (Some client) s' = Fault.
Proof.
  intros Hs Ho Hv Hc Hla. destruct (session_capi _ _ Hs) as [R HC].
  destruct (options_front n R s options HC) as (tcp & k & cp & R' & _ & HC1); [by cbn; rewrite Ho |].
  pose proof (proj1 (capi_own _ _ _ HC1)) as HR. cbn in HR. pose proof (rep_lookup _ _ _ _ HR) as Ho'. rewrite Ho in Ho'.
  injection Ho' as -> Ecp. destruct cp as [[cc str] |]; [| done]. injection Ecp as ->.
  destruct (client_root n _ s client HC1 Hv) as (a & i & c1 & kk & x & h & tcp' & la & Hin).
  destruct (capi_front _ _ _ _ HC1 Hin) as (R1 & _ & HC2).
  rewrite (connection_of_client _ _ _ _ _ _ _ _ _ _ _ _ (capi_own _ _ _ HC2)) in Hc. injection Hc as -> <-. cbn in Hla. subst la.
  apply elem_of_cons in Hin as [| [R2 HP]%elem_of_Permutation]; [done |]. pose proof (capi_own _ _ _ HC1) as HO1.
  pose proof (wp_options_destroy options tcp k _ R' (library s) s (fun _ s' => own R' (library s) s') HO1 (fun _ HO => HO)) as HD.
  unfold wp in HD. destruct (connx_client_options_destroy (Some options) s) as [[] s' | | |]; try done. exists s'. split; [done |].
  unfold read_local_address, mbind, M_bind. rewrite (connection_of_client _ _ _ _ _ _ _ _ _ _ _ _ (own_perm _ _ _ _ HP HD)).
  unfold load. destruct HD as [[_ Eh] _]. assert (Hn : heap s' !! cc = None); [| by rewrite Hn].
  rewrite Eh. apply not_elem_of_list_to_map_1. eapply (own_disjoint _ _ _ _ _ (OString str) HO1). cbn. set_solver.
Qed.

End Claims.

(** ** Examples *)

(** A program that makes a client with a local address and destroys everything again. *)
Definition api_begin : api (Q := sorted_queue) := {| heap := ∅; library := Library_new |}.
Definition fns_demo : handler_fns :=
  {| on_connected_ := true; on_connect_failed_ := false; on_closed_ := true; on_message_ := true |}.
Definition calls_up : list call :=
  [CHandlerNew fns_demo; CCodecDelimiter x0a; COptionsNew; CSetLocalAddress (Some 3%nat) (Some [x31]);
   CSetCodec (Some 3%nat) (Some 1%nat); CClientNew env_demo (Some 0%nat) (Some 3%nat)].
Definition calls_down : list call :=
  [CClientDestroy (Some 8%nat) true; COptionsDestroy (Some 3%nat); CCodecDestroy (Some 1%nat); CHandlerDestroy (Some 0%nat)].

Definition after (s : api) (c : call) : api := match exec c s with Ret _ s' => s' | _ => s end.
Definition state_after (cs : list call) : api := foldl after api_begin cs.

(** Running a program whose calls are allowed. *)
Definition returns (c : call) (s : api (Q := sorted_queue)) : bool := if exec c s is Ret _ _ then true else false.

Lemma session_after c s :
  session 0 s -> allowed 0 c s -> returns c s = true -> (forall v, held 0 c v = 0) -> session 0 (after s c).
Proof.
  intros Hs Ha Hr Hh. unfold after, returns in *. destruct (exec c s) as [v s' | | |] eqn:E; try done.
  rewrite <- (Hh v). by eapply session_call.
Qed.

(** [unused], by looking at every object. *)
Definition unusedb (s : api (Q := sorted_queue)) (l : loc) : bool :=
  forallb (fun '(_, o) => match o with
                          | OConn h opts => negb (bool_decide (h = l)) && negb (bool_decide (opt_local_address opts = Some l))
                          | _ => true
                          end) (map_to_list (heap s)).

Lemma unusedb_ok s l : unusedb s l = true -> unused s l.
Proof.
  intros Hb c h opts Hc. unfold unusedb in Hb. rewrite forallb_forall in Hb.
  specialize (Hb (c, OConn h opts)). cbn in Hb. rewrite andb_true_iff, !negb_true_iff, !bool_decide_eq_false in Hb.
  apply Hb. by apply list_elem_of_In, elem_of_map_to_list.
Qed.

Definition unused_copyb (s : api (Q := sorted_queue)) (l : loc) : bool :=
  match heap s !! l with Some (OOptions _ (Some copy)) => unusedb s copy | _ => true end.

Lemma unused_copyb_ok s l : unused_copyb s l = true -> unused_copy s (Some l).
Proof. intros Hb ? opts copy [= <-] Hl. unfold unused_copyb in Hb. rewrite Hl in Hb. by apply unusedb_ok. Qed.

(** The checks of [allowed] on a concrete state. *)
Ltac allow :=
  lazymatch goal with
  | |- _ /\ _ => split; allow
  | |- unused_copy _ _ => apply unused_copyb_ok; by vm_compute
  | |- forall _, _ => intros ? [= <-]; apply unusedb_ok; by vm_compute
  | |- env_ok _ => apply env_demo_ok
  | |- _ => by vm_compute
  end.

Lemma session_up : session 0 (state_after calls_up).
Proof.
  unfold state_after, calls_up. cbn [foldl].
  do 6 (apply session_after; [| cbn [allowed]; allow | by vm_compute | done]). exact session_begin.
Qed.

Lemma session_down : session 0 (foldl after (state_after calls_up) calls_down).
Proof.
  unfold calls_down. cbn [foldl].
  do 4 (apply session_after; [| cbn [allowed]; allow | by vm_compute | done]). exact session_up.
Qed.

(** The client is destroyed; or the call hangs with its connection. *)
Lemma capi_safe_witness :
  match exec (CClientDestroy (Some 8%nat) true) (state_after calls_up) with Ret _ _ => True | _ => False end /\
  exec (CClientDestroy (Some 8%nat) false) (state_after calls_up) = Hang.
Proof.
  pose proof (capi_safe 0 (state_after calls_up) (CClientDestroy (Some 8%nat) true) session_up ltac:(by vm_compute)) as H1.
  pose proof (capi_safe 0 (state_after calls_up) (CClientDestroy (Some 8%nat) false) session_up ltac:(by vm_compute)) as H2.
  split; [clear H2; by destruct (exec _ _) | clear H1].
  destruct (exec _ _); [destruct H2 as [_ H2]; by destruct H2 | done | done | done].
Defined.

Lemma capi_no_leak_witness : heap (foldl after (state_after calls_up) calls_down) = ∅.
Proof.
  apply (capi_no_leak 0 _ session_down). intros l o Hl. assert (E : heap (foldl after (state_after calls_up) calls_down) = ∅) by by vm_compute.
  rewrite E, lookup_empty in Hl. discriminate Hl.
Defined.

Lemma local_address_dangles_witness :
  exists s', connx_client_options_destroy (Some 3%nat) (state_after calls_up) = Ret tt s' /\
    read_local_address (Some 8%nat) s' = Fault.
Proof.
  eapply (local_address_dangles 0 (state_after calls_up) 8 3 _ 4 7 _ session_up); by vm_compute.
Defined.
