(* ===== verification/EchoClient.v ===== *)
(** * The echo clients of the examples

    [example/client_c.c] and [example/client_cc.cc], over the objects of [Client.v]: both make a
    client with a codec that cuts at newlines, connect, greet, answer two messages and
    disconnect at the third. What they print is left out.

    The callbacks that come before the main thread sees the flag are an argument, with the
    connection's answer to what is sent in each; a run in which the flag has not been set ends
    in the waiting loop. Another argument, [closes], says whether [CloseFromOwner] returns when
    the client is released. *)

From S2P Require Import Prelude Codec Timer Poller Address Connection Runtime Client ClientProofs.

Definition newline : byte := x0a.
Definition line (s : string) : str := lit s ++ [newline].

(** ** The state of a program *)

(** What it asks of its client. *)
Inductive request := RSend (data : str) | RDisconnect.

(** [g_done] and [count], [done_] and [count_]; [requests] in the order they were made. *)
Record echo := Echo { done_ : bool; count_ : Z; requests : list request }.

#[export] Instance eta_echo : Eta echo := fun e => Echo (done_ e) (count_ e) (requests e).
#[export] Instance set_done : Setter done_ := ltac:(solve_setter).
#[export] Instance set_count : Setter count_ := ltac:(solve_setter).
#[export] Instance set_requests : Setter requests := ltac:(solve_setter).

Definition echo_new : echo := {| done_ := false; count_ := 0; requests := [] |}.
Definition asked (r : request) (e : echo) : echo := e <| requests := requests e ++ [r] |>.

(** [snprintf(buf, sizeof(buf), "echo #%d\n", count)], which is at most 18 characters. *)
Definition echo_text (count : Z) : str := lit "echo #" ++ format_d count ++ [newline].

Definition all_fns : handler_fns := {| on_connected_ := true; on_connect_failed_ := true; on_closed_ := true; on_message_ := true |}.

Section EchoClient.
Context `{SizeT} `{PQ : PriorityQueue Q}.
#[local] Abbreviation M := (Client.M (Q := Q)).

(** ** The C client *)

Definition c_hello : str := line "hello from connx (C API)".

Definition on_connected (g_client : option loc) (accepted : bool) (e : echo) : M echo :=
  connx_client_send_buffer g_client (Some c_hello) accepted;; mret (asked (RSend c_hello) e).

Definition on_connect_failed (e : echo) : M echo := mret (e <| done_ := true |>).
Definition on_closed (e : echo) : M echo := mret (e <| done_ := true |>).

Definition on_message (g_client : option loc) (accepted : bool) (e : echo) : M echo :=
  let e := e <| count_ := count_ e + 1 |> in
  if count_ e <? 3 then
    connx_client_send_buffer g_client (Some (echo_text (count_ e))) accepted;;
    mret (asked (RSend (echo_text (count_ e))) e)
  else
    connx_client_disconnect g_client;;
    mret ((asked RDisconnect e) <| done_ := true |>).

(** A callback of the library's threads: the handler object calls the C function. *)
Definition c_callback (g_client : option loc) (cb : callback) (accepted : bool) (e : echo) : M echo :=
  called ← run_handler g_client cb;
  if called : bool then
    match cb with
    | OnConnected => on_connected g_client accepted e
    | OnConnectFailed _ => on_connect_failed e
    | OnClosed => on_closed e
    | OnMessage _ => on_message g_client accepted e
    end
  else mret e.

Fixpoint c_callbacks (g_client : option loc) (cbs : list (callback * bool)) (e : echo) : M echo :=
  match cbs with
  | [] => mret e
  | (cb, accepted) :: cbs' => e ← c_callback g_client cb accepted e; c_callbacks g_client cbs' e
  end.

(** From [connx_client_new] to [cleanup]: the flag says whether [cleanup] is reached. *)
Definition c_session (host : str) (connects : str -> bool) (cbs : list (callback * bool)) (m : Metrics) (g_client : option loc) : M (bool * echo) :=
  match g_client with
  | None => mret (true, echo_new)
  | Some _ =>
      r ← connx_client_connect g_client (Some host) connects;
      if negb (r =? 0) then mret (true, echo_new)
      else
        e ← c_callbacks g_client cbs echo_new;
        if done_ e then connx_client_get_metrics g_client true m;; mret (true, e) else mret (false, e)
  end.

(** [main]; [None]: it is still waiting for the flag. *)
Definition c_main (argc : Z) (host : str) (env : start_env) (connects : str -> bool) (cbs : list (callback * bool)) (m : Metrics)
    (closes : bool) :
    M (option Z * echo) :=
  if negb (argc =? 2) then mret (Some 1, echo_new)
  else
    handler ← connx_client_handler_new all_fns;
    codec ← connx_codec_new_delimiter newline;
    opts ← connx_client_options_new;
    connx_client_options_set_codec (Some opts) (Some codec);;
    connx_client_options_set_connect_timeout (Some opts) 5000;;
    g_client ← connx_client_new env (Some handler) (Some opts);
    r ← c_session host connects cbs m g_client;
    if negb r.1 then mret (None, r.2)
    else
      connx_client_destroy closes g_client;;
      connx_client_options_destroy (Some opts);;
      connx_codec_destroy (Some codec);;
      connx_client_handler_destroy (Some handler);;
      mret (Some 0, r.2).

(** ** The C++ client *)

Definition cc_hello : str := line "hello from connx (C++ API)".

Definition EchoClient_Send (client_ : loc) (data : str) (accepted : bool) (e : echo) : M echo :=
  ClientAdaptor_SendBuffer client_ (Some data) accepted;; mret (asked (RSend data) e).

Definition OnConnected_ (client_ : loc) (accepted : bool) (e : echo) : M echo := EchoClient_Send client_ cc_hello accepted e.
Definition OnConnectFailed_ (e : echo) : M echo := mret (e <| done_ := true |>).
Definition OnClosed_ (e : echo) : M echo := mret (e <| done_ := true |>).

Definition OnMessage_ (client_ : loc) (accepted : bool) (e : echo) : M echo :=
  let e := e <| count_ := count_ e + 1 |> in
  if count_ e <? 3 then EchoClient_Send client_ (echo_text (count_ e)) accepted e
  else
    ClientAdaptor_Disconnect client_;;
    mret ((asked RDisconnect e) <| done_ := true |>).

(** The virtual call through the handler that the connection of the client has. *)
Definition cc_callback (client_ : loc) (cb : callback) (accepted : bool) (e : echo) : M echo :=
  i ← ClientAdaptor_impl client_;
  c ← ClientImpl_connection i;
  match c with
  | None => mret e
  | Some (c, _) =>
      o ← load c;
      match o with
      | OConn h _ =>
          load h;;
          match cb with
          | OnConnected => OnConnected_ client_ accepted e
          | OnConnectFailed _ => OnConnectFailed_ e
          | OnClosed => OnClosed_ e
          | OnMessage _ => OnMessage_ client_ accepted e
          end
      | _ => fault
      end
  end.

Fixpoint cc_callbacks (client_ : loc) (cbs : list (callback * bool)) (e : echo) : M echo :=
  match cbs with
  | [] => mret e
  | (cb, accepted) :: cbs' => e ← cc_callback client_ cb accepted e; cc_callbacks client_ cbs' e
  end.

(** [EchoClient::Run] of the object [this]; the flag says whether it returns. *)
Definition EchoClient_Run (this : loc) (host : str) (env : start_env) (connects : str -> bool) (cbs : list (callback * bool)) (m : Metrics)
    (closes : bool) : M (bool * echo) :=
  codec ← new_obj (OCodec (Delimiter newline));
  let opts := {| opt_codec := Some codec; opt_local_address := None;
                 opt_tcp := {| tcp_nodelay := 1; tcp_quickack := 0; send_buffer_size := 0; recv_buffer_size := 0; linger_sec := -1;
                               connect_timeout_ms := 5000 |} |} in
  client_ ← CreateClient env (Some this) opts;
  match client_ with
  | None => free codec;; mret (true, echo_new)
  | Some client =>
      ok ← ClientAdaptor_Connect client (Some host) connects;
      if negb ok then ReleaseClient closes (Some client);; mret (true, echo_new)
      else
        e ← cc_callbacks client cbs echo_new;
        if done_ e then ClientAdaptor_GetMetrics client true m;; ReleaseClient closes (Some client);; mret (true, e)
        else mret (false, e)
  end.

(** [main]: the [EchoClient] lives as long as [main]. *)
Definition cc_main (argc : Z) (host : str) (env : start_env) (connects : str -> bool) (cbs : list (callback * bool)) (m : Metrics)
    (closes : bool) : M (option Z * echo) :=
  if negb (argc =? 2) then mret (Some 1, echo_new)
  else
    client ← new_obj (OHandler all_fns);
    r ← EchoClient_Run client host env connects cbs m closes;
    if (r.1 : bool) then free client;; mret (Some 0, r.2) else mret (None, r.2).

(** ** Specification *)

(** What a callback makes of the program. *)
Definition react (hello : str) (e : echo) (cb : callback) : echo :=
  match cb with
  | OnConnected => asked (RSend hello) e
  | OnMessage _ =>
      let e := e <| count_ := count_ e + 1 |> in
      if count_ e <? 3 then asked (RSend (echo_text (count_ e))) e else (asked RDisconnect e) <| done_ := true |>
  | OnConnectFailed _ | OnClosed => e <| done_ := true |>
  end.

Definition reacted (hello : str) (cbs : list callback) : echo := foldl (react hello) echo_new cbs.

(** ** Memory *)

Ltac reveal :=
  unfold ClientAdaptor_Connect, ClientAdaptor_Disconnect, ClientAdaptor_SendBuffer, ClientAdaptor_GetMetrics,
    ClientImpl_Connect, ClientImpl_Disconnect, ClientImpl_SendMsg, ClientImpl_GetMetrics, client_impl, ClientAdaptor_impl,
    ClientImpl_connection.

(** The cells of a client and of the handler it uses. *)
Definition client_cells (a i c k h : loc) (x : codec) (tcp : TcpOptions) : cells :=
  [(a, OAdaptor true (Some i)); (i, OImpl 1 {| opt_codec := None; opt_tcp := tcp; opt_local_address := None |} (Some h) (Some c));
   (c, OConn h {| opt_codec := Some k; opt_tcp := tcp; opt_local_address := None |}); (k, OCodec x); (h, OHandler all_fns)].

Lemma wp_c_send l a i c k h x tcp L lib (s : api (Q := Q)) data accepted (Φ : Z -> api -> Prop) :
  holds ((l, OClient a h) :: client_cells a i c k h x tcp ++ L) lib s -> (forall z, Φ z s) ->
  wp (connx_client_send_buffer (Some l) (Some data) accepted) Φ s.
Proof. intros HO HΦ. cbn in HO. unfold connx_client_send_buffer. destruct data; reveal; wp_steps; apply HΦ. Qed.

Lemma wp_c_callback l a i c k h x tcp L lib (s : api (Q := Q)) cb accepted e (Φ : echo -> api -> Prop) :
  holds ((l, OClient a h) :: client_cells a i c k h x tcp ++ L) lib s -> Φ (react c_hello e cb) s ->
  wp (c_callback (Some l) cb accepted e) Φ s.
Proof.
  intros HO HΦ. pose proof HO as HL. cbn in HL. unfold c_callback, run_handler, connection_of. reveal. wp_steps.
  destruct cb; cbn [handler_calls all_fns on_connected_ on_connect_failed_ on_closed_ on_message_ react] in *; try exact HΦ.
  - apply cwp_bind. eapply wp_c_send; [exact HO |]. intros z. exact HΦ.
  - unfold on_message. destruct (_ <? 3).
    + apply cwp_bind. eapply wp_c_send; [exact HO |]. intros z. exact HΦ.
    + unfold connx_client_disconnect. reveal. wp_steps. exact HΦ.
Qed.

Lemma wp_c_callbacks l a i c k h x tcp L lib (s : api (Q := Q)) cbs (Φ : echo -> api -> Prop) :
  holds ((l, OClient a h) :: client_cells a i c k h x tcp ++ L) lib s ->
  forall e, Φ (foldl (react c_hello) e cbs.*1) s -> wp (c_callbacks (Some l) cbs e) Φ s.
Proof.
  intros HO. induction cbs as [| [cb accepted] cbs IH]; intros e HΦ; [exact HΦ |].
  apply cwp_bind. eapply wp_c_callback; [exact HO |]. apply IH, HΦ.
Qed.

(** What a session leaves: the client, unchanged, and the program's state. *)
Definition session_state (hello : str) (connected : bool) (cbs : list (callback * bool)) : echo :=
  if connected then reacted hello cbs.*1 else echo_new.
Definition session_over (hello : str) (connected : bool) (cbs : list (callback * bool)) : bool :=
  negb connected || done_ (reacted hello cbs.*1).

Lemma wp_c_session l a i c k h x tcp L lib (s : api (Q := Q)) host connects cbs m (Φ : bool * echo -> api -> Prop) :
  holds ((l, OClient a h) :: client_cells a i c k h x tcp ++ L) lib s ->
  Φ (session_over c_hello (connects host) cbs, session_state c_hello (connects host) cbs) s ->
  wp (c_session host connects cbs m (Some l)) Φ s.
Proof.
  intros HO HΦ. unfold c_session. apply cwp_bind. unfold connx_client_connect. pose proof HO as HL. cbn in HL. reveal. wp_steps.
  unfold session_state, session_over in HΦ. destruct (connects host); cbn [negb orb Z.eqb Z.opp Pos.eqb] in *; [| exact HΦ].
  apply cwp_bind. eapply wp_c_callbacks; [exact HO |]. unfold reacted in HΦ. destruct (done_ _) eqn:Ed; [| exact HΦ].
  unfold connx_client_get_metrics. reveal. wp_steps. exact HΦ.
Qed.

(** The program has ended and left nothing behind. *)
Definition left_clean (s s' : api (Q := Q)) : Prop :=
  heap s' = heap s /\ library_ok (library s') /\ g_initializations (library s') = g_initializations (library s).

(** How a program ends: it has a client if the library could be started, and returns if the session is over and the
    client, if there is one, could be released; it hangs in the release if that does not return. *)
Definition client_run (hello : str) (env : start_env) (connected : bool) (cbs : list (callback * bool)) (closes : bool) (s : api (Q := Q))
    (o : outcome (Q := Q) (option Z * echo)) : Prop :=
  let started := (LibraryInit env (library s)).1 in
  let over := session_over hello (started && connected) cbs in
  match o with
  | Ret (r, e) s' =>
      e = session_state hello (started && connected) cbs /\
      if over then r = Some 0 /\ left_clean s s' /\ (started = true -> closes = true) else r = None
  | Hang => started = true /\ over = true /\ closes = false
  | Abort | Fault => False
  end.

Lemma wp_client_run hello env connected cbs closes (s : api (Q := Q)) (prog : M (option Z * echo)) :
  wp_or (client_run hello env connected cbs closes s Hang) prog (fun r s' => client_run hello env connected cbs closes s (Ret r s')) s ->
  client_run hello env connected cbs closes s (prog s).
Proof. unfold wp_or. by destruct (prog s). Qed.

Lemma own_same_heap R lib lib' (s s' : api (Q := Q)) : own R lib s -> own R lib' s' -> heap s' = heap s.
Proof. intros [[_ E1] _] [[_ E2] _]. congruence. Qed.

(** Starting the library and, if that succeeded, shutting it down. *)
Lemma library_restored env (lib : @Library Q) :
  library_ok lib -> env_ok env ->
  let lib' := (LibraryInit env lib).2 in
  let lib'' := if (LibraryInit env lib).1 then LibraryShutdown lib' else lib' in
  library_ok lib'' /\ g_initializations lib'' = g_initializations lib.
Proof.
  intros HL Henv. pose proof (LibraryInit_ok env lib HL Henv) as HI. destruct (LibraryInit env lib) as [[] lib']; cbn in *.
  - destruct HI as (HL' & HG & _). pose proof HL as (_ & H0 & _). destruct (LibraryShutdown_ok _ HL') as [H1 H2]; [lia |]. split; [done | lia].
  - by destruct HI as (HL' & HG & _).
Qed.

(** *** The C client *)

Lemma wp_c_cleanup o tcp k w kw h fns R lib (s : api (Q := Q)) e (Φ : option Z * echo -> api -> Prop) :
  own (ROptions o tcp k None :: RWrapper w kw :: RHandler h fns :: R) lib s -> (forall s', own R lib s' -> Φ (Some 0, e) s') ->
  wp (connx_client_options_destroy (Some o);; connx_codec_destroy (Some w);; connx_client_handler_destroy (Some h);; mret (Some 0, e)) Φ s.
Proof.
  intros HO HΦ. apply cwp_bind. eapply wp_options_destroy; [exact HO |]. intros s1 H1.
  apply cwp_bind. eapply wp_codec_destroy; [exact H1 |]. intros s2 H2. unfold own in H2. cbn in H2.
  unfold connx_client_handler_destroy, free_opt. wp_steps. by apply HΦ.
Qed.

Lemma wp_c_main host env connects cbs m closes R (s : api (Q := Q)) :
  own R (library s) s -> library_ok (library s) -> env_ok env ->
  client_run c_hello env (connects host) cbs closes s (c_main 2 host env connects cbs m closes s).
Proof.
  intros HO HL Henv. destruct (library_restored env _ HL Henv) as [HL' HG']. apply wp_client_run.
  assert (Hend : forall b s', (LibraryInit env (library s)).1 = b ->
    own R (if b then LibraryShutdown (LibraryInit env (library s)).2 else (LibraryInit env (library s)).2) s' -> left_clean s s').
  { intros b s' Eb HO'. assert (El := proj2 HO'). rewrite <- Eb in El. unfold left_clean. rewrite El. split; [by eapply own_same_heap | done]. }
  unfold c_main. cbn [Z.eqb negb Pos.eqb]. apply wp_then. eapply wp_new; [exact HO |]. intros h s1 H1.
  apply wp_then. eapply (wp_new_codec _ (RHandler h all_fns :: R)); [exact H1 |]. intros w k s2 H2.
  apply wp_then. eapply wp_new; [exact H2 |]. intros o s3 H3.
  apply wp_then. eapply (wp_set_codec o TcpOptions_default None None w _ (RHandler h all_fns :: R)); [exact H3 |]. intros s4 H4.
  apply wp_then. eapply wp_set_tcp; [exact H4 |]. intros s5 H5.
  apply wp_then. eapply wp_client_new; [exact H5 | |].
  - intros s6 H6 Hno. apply wp_then, cwp_ret. cbn [fst snd negb]. apply wp_then, cwp_ret, wp_returns.
    eapply wp_c_cleanup; [exact H6 |]. intros s7 H7. unfold client_run. rewrite Hno by done. cbn. split_and!; try done.
    apply (Hend false); [by apply Hno | done].
  - intros c a i cc kk x s6 _ Hyes H6. apply wp_then. eapply (wp_c_session c a i cc kk h x _ (root_cells (ROptions o _ None None) ++ root_cells (RWrapper w None) ++ roots_cells R)).
    { destruct H6 as [H6 El]. split; [| exact El]. eapply rep_perm; [| exact H6]. cbn. solve_Permutation. }
    cbn [fst snd]. assert (Eb : (LibraryInit env (library s)).1 && connects host = connects host) by (by rewrite Hyes).
    unfold client_run. cbv zeta. rewrite Eb, Hyes. destruct (session_over c_hello (connects host) cbs) eqn:Eo; cbn [negb]; [| done].
    destruct closes; [| by eapply wp_hangs; [eapply hang_client_destroy; exact H6 |]].
    apply wp_then. eapply wp_client_destroy; [exact H6 |]. intros s7 H7. eapply wp_returns, wp_c_cleanup; [exact H7 |]. intros s8 H8.
    split_and!; try done. by apply (Hend true).
Qed.

(** *** The C++ client *)

Lemma wp_cc_send a i c k h x tcp L lib (s : api (Q := Q)) data accepted e (Φ : echo -> api -> Prop) :
  holds (client_cells a i c k h x tcp ++ L) lib s -> Φ (asked (RSend data) e) s -> wp (EchoClient_Send a data accepted e) Φ s.
Proof. intros HO HΦ. cbn in HO. unfold EchoClient_Send. destruct data; reveal; wp_steps; exact HΦ. Qed.

Lemma wp_cc_callback a i c k h x tcp L lib (s : api (Q := Q)) cb accepted e (Φ : echo -> api -> Prop) :
  holds (client_cells a i c k h x tcp ++ L) lib s -> Φ (react cc_hello e cb) s -> wp (cc_callback a cb accepted e) Φ s.
Proof.
  intros HO HΦ. pose proof HO as HL. cbn in HL. unfold cc_callback. reveal. wp_steps. destruct cb; cbn [react] in *; try exact HΦ.
  - by eapply wp_cc_send.
  - unfold OnMessage_. destruct (_ <? 3); [by eapply wp_cc_send |]. reveal. wp_steps. exact HΦ.
Qed.

Lemma wp_cc_callbacks a i c k h x tcp L lib (s : api (Q := Q)) cbs (Φ : echo -> api -> Prop) :
  holds (client_cells a i c k h x tcp ++ L) lib s ->
  forall e, Φ (foldl (react cc_hello) e cbs.*1) s -> wp (cc_callbacks a cbs e) Φ s.
Proof.
  intros HO. induction cbs as [| [cb accepted] cbs IH]; intros e HΦ; [exact HΦ |].
  apply cwp_bind. eapply wp_cc_callback; [exact HO |]. apply IH, HΦ.
Qed.

Lemma wp_cc_metrics a i c k h x tcp L lib (s : api (Q := Q)) m :
  holds (client_cells a i c k h x tcp ++ L) lib s -> wp (ClientAdaptor_GetMetrics a true m) (fun _ s' => s' = s) s.
Proof. intros HO. cbn in HO. reveal. by wp_steps. Qed.

Lemma wp_create env h k x tcp L lib (s : api (Q := Q)) (Φ : option loc -> api -> Prop) :
  holds ((k, OCodec x) :: (h, OHandler all_fns) :: L) lib s ->
  (forall s', (LibraryInit env lib).1 = false ->
     holds ((k, OCodec x) :: (h, OHandler all_fns) :: L) (LibraryInit env lib).2 s' -> Φ None s') ->
  (forall a i c s', (LibraryInit env lib).1 = true -> holds (client_cells a i c k h x tcp ++ L) (LibraryInit env lib).2 s' -> Φ (Some a) s') ->
  wp (CreateClient env (Some h) {| opt_codec := Some k; opt_tcp := tcp; opt_local_address := None |}) Φ s.
Proof.
  intros HO HN HC. unfold CreateClient, ClientAdaptor_new. cbn [opt_codec]. wp_steps. eapply wp_init; [exact HO |]. intros s1 HO1.
  destruct (LibraryInit env lib) as [[] lib'] eqn:EL; cbn [fst snd] in *; wp_steps.
  - unfold ClientAdaptor_Init, ClientImpl_SetOptions, ClientImpl_Start. wp_steps. eapply HC; [done |].
    match goal with HH : holds _ lib' ?s2 |- holds _ _ ?s2 => destruct HH as [HR El] end. split; [| exact El].
    eapply rep_perm; [| exact HR]. cbn. solve_Permutation.
  - unfold ClientAdaptor_destroy. wp_steps. by apply HN.
Qed.

Lemma wp_release_client a i c k h x tcp L lib (s : api (Q := Q)) (Φ : unit -> api -> Prop) :
  holds (client_cells a i c k h x tcp ++ L) lib s ->
  (forall s', holds ((h, OHandler all_fns) :: L) (LibraryShutdown lib) s' -> Φ tt s') -> wp (ReleaseClient true (Some a)) Φ s.
Proof.
  intros HO HΦ. cbn in HO. unfold ReleaseClient, ClientAdaptor_destroy, Unref, ClientImpl_Stop, CloseFromOwner, ClientConnection_destroy.
  wp_steps. unfold ClientImpl_destroy, ClientImpl_Stop. wp_steps. by apply HΦ.
Qed.

(** Releasing the client, before the end of a program. *)
Lemma wp_release_or (P : Prop) {B} closes a i c k h x tcp L lib (s : api (Q := Q)) (f : unit -> M B) Φ :
  holds (client_cells a i c k h x tcp ++ L) lib s -> (closes = false -> P) ->
  (closes = true -> forall s', holds ((h, OHandler all_fns) :: L) (LibraryShutdown lib) s' -> wp_or P (f tt) Φ s') ->
  wp_or P (ReleaseClient closes (Some a) ≫= f) Φ s.
Proof.
  intros HO HP HΦ. destruct closes; [apply wp_then; eapply wp_release_client; [exact HO | by apply HΦ] |].
  destruct HO as [HR _]. cbn in HR. eapply wp_hangs; [| by apply HP].
  eapply hang_release; eapply (rep_elem _ _ _ _ HR); [left | right; left | do 2 right; left].
Qed.

Lemma wp_EchoClient_Run (P : Prop) this host env connects cbs m closes L lib (s : api (Q := Q)) (Φ : bool * echo -> api -> Prop) :
  holds ((this, OHandler all_fns) :: L) lib s ->
  let started := (LibraryInit env lib).1 in
  let over := session_over cc_hello (started && connects host) cbs in
  (started = true -> over = true -> closes = false -> P) ->
  (forall s',
     (over = true ->
      holds ((this, OHandler all_fns) :: L) (if started then LibraryShutdown (LibraryInit env lib).2 else (LibraryInit env lib).2) s' /\
      (started = true -> closes = true)) ->
     Φ (over, session_state cc_hello (started && connects host) cbs) s') ->
  wp_or P (EchoClient_Run this host env connects cbs m closes) Φ s.
Proof.
  intros HO started over HP HΦ. unfold EchoClient_Run. apply wp_then. eapply wp_new; [exact HO |]. intros k s1 H1. cbv zeta.
  apply wp_then. subst started over. eapply wp_create; [exact H1 | |].
  - intros s2 Eb H2. rewrite Eb in HΦ. apply wp_returns. wp_steps. by apply HΦ.
  - intros a i c s2 Eb H2. rewrite Eb in HP, HΦ. cbn [andb] in HP, HΦ. apply wp_then. pose proof H2 as H2'. cbn in H2'. reveal. wp_steps.
    unfold session_over, session_state in HP, HΦ. destruct (connects host); cbn [negb orb] in *.
    + apply wp_then. eapply wp_cc_callbacks; [exact H2 |]. unfold reacted in HP, HΦ. destruct (done_ _) eqn:Ed; [| by apply HΦ].
      apply wp_then. eapply cwp_mono; [by eapply wp_cc_metrics |]. intros ? s3 ->.
      eapply wp_release_or; [exact H2 | auto |]. intros Hc s4 H4. by apply HΦ.
    + eapply wp_release_or; [exact H2 | auto |]. intros Hc s3 H3. by apply HΦ.
Qed.

Lemma wp_cc_main host env connects cbs m closes R (s : api (Q := Q)) :
  own R (library s) s -> library_ok (library s) -> env_ok env ->
  client_run cc_hello env (connects host) cbs closes s (cc_main 2 host env connects cbs m closes s).
Proof.
  intros HO HL Henv. destruct (library_restored env _ HL Henv) as [HL' HG']. apply wp_client_run.
  unfold cc_main. cbn [Z.eqb negb Pos.eqb]. apply wp_then. eapply wp_new; [exact HO |]. intros h s1 H1. apply wp_or_bind.
  eapply wp_EchoClient_Run; [exact H1 | done |]. intros s2 H2. cbn [fst snd].
  destruct (session_over cc_hello ((LibraryInit env (library s)).1 && connects host) cbs) eqn:Eo.
  - destruct (H2 eq_refl) as [H3 Hc]. apply wp_returns. wp_steps. unfold client_run. cbv zeta. rewrite Eo. split_and!; [done | done | | done].
    match goal with HH : holds _ _ ?s3 |- left_clean _ ?s3 => rename HH into H4 end. unfold left_clean. rewrite (proj2 H4).
    split; [| done]. by eapply own_same_heap.
  - apply wp_returns, cwp_ret. unfold client_run. cbv zeta. by rewrite Eo.
Qed.

(** ** Theorems *)

(** C37: The two client programs are safe and clean, whatever the library, the connection and the
    callbacks do: no object is used after it was deleted or deleted twice; the program is in
    the waiting loop as long as the session is not over and its flag is not set; when it
    returns, with 0, everything it allocated is freed, nothing else has changed, and the library is initialized as
    often as before. The codec is deleted exactly once on every path: by the program when no
    client could be made, else with the client. The program does not end exactly when the
    session is over and [CloseFromOwner] does not return for the client it releases. *)
Theorem echo_clients_clean (n : Z) (s : api (Q := Q)) (host : str) (env : start_env) (connects : str -> bool)
    (cbs : list (callback * bool)) (m : Metrics) (closes : bool) :
  session n s -> env_ok env ->
  client_run c_hello env (connects host) cbs closes s (c_main 2 host env connects cbs m closes s) /\
  client_run cc_hello env (connects host) cbs closes s (cc_main 2 host env connects cbs m closes s).
Proof.
  intros Hs Henv. destruct (session_capi _ _ Hs) as [R HC].
  split; [apply (wp_c_main _ _ _ _ _ _ R) | apply (wp_cc_main _ _ _ _ _ _ R)]; try apply HC; exact Henv.
Qed.

End EchoClient.

(** The bytes a program has sent. *)
Definition sent_bytes (e : echo) : list byte := requests e ≫= (fun r => if r is RSend data then data else []).

(** With a server that sends everything back ([EchoServer.v]) the dialogue does not stall: until
    the third message the echo of what was sent holds one frame more than have been
    received, and with the third message the client disconnects and is done. *)
Theorem echo_dialogue (hello : str) (msgs : list (list byte)) :
  hello = c_hello \/ hello = cc_hello -> (length msgs <= 3)%nat ->
  let e := reacted hello (OnConnected :: (OnMessage <$> msgs)) in
  frames (DelimiterCodec_Decode newline) (sent_bytes e) = (take (S (length msgs)) [hello; echo_text 1; echo_text 2], [], false) /\
  done_ e = bool_decide (length msgs = 3%nat) /\ (list.last (requests e) = Some RDisconnect <-> length msgs = 3%nat).
Proof.
  intros Hh Hl. destruct msgs as [| m1 [| m2 [| m3 [| m4 msgs]]]]; [| | | | cbn in Hl; lia];
    destruct Hh as [-> | ->]; (split; [vm_compute; reflexivity | split; [reflexivity | vm_compute; naive_solver]]).
Qed.

(** ** A run *)

Definition echo_start : api (Q := sorted_queue) := {| heap := ∅; library := Library_new |}.
Definition echo_cbs : list (callback * bool) :=
  (fun cb => (cb, true)) <$> [OnConnected; OnMessage c_hello; OnMessage (echo_text 1); OnMessage (echo_text 2); OnClosed].

Lemma echo_clients_clean_witness :
  exists e s', c_main 2 (lit "127.0.0.1:9000") env_demo (fun _ => true) echo_cbs Metrics_default true echo_start = Ret (Some 0, e) s' /\
    heap s' = ∅ /\ requests e = [RSend c_hello; RSend (echo_text 1); RSend (echo_text 2); RDisconnect].
Proof.
  destruct (echo_clients_clean 0 echo_start (lit "127.0.0.1:9000") env_demo (fun _ => true) echo_cbs Metrics_default true session_begin env_demo_ok)
    as [HC _]. unfold client_run in HC. destruct (c_main _ _ _ _ _ _ _ _) as [[r e] s' | | |]; [| destruct HC | destruct HC as (_ & _ & [=]) | destruct HC].
  destruct HC as [-> [-> [[Hh _] _]]]. exists (reacted c_hello (echo_cbs.*1)), s'. split_and!; [reflexivity | exact Hh | vm_compute; reflexivity].
Defined.

Lemma echo_dialogue_witness : done_ (reacted c_hello [OnConnected; OnMessage c_hello; OnMessage (echo_text 1); OnMessage (echo_text 2)]) = true.
Proof. apply (echo_dialogue c_hello [c_hello; echo_text 1; echo_text 2] (or_introl eq_refl)). cbn. lia. Defined.
