(* ===== verification/EchoServer.v ===== *)
(** * The echo server of the examples

    [example/server.cc], on POSIX: one thread, [select] over a table of clients, what a client
    sends goes back to it. The results of the system calls of a round are its argument; a
    descriptor outside an [fd_set] is undefined behaviour, [None].

    The specification is the automaton [replay] on the calls the server makes: it says which
    call on which socket may come when, and what has been received and sent back on every open
    connection. *)

From S2P Require Import Prelude.

(** ** The program *)

Definition BUF_SIZE : Z := 4096.
Definition FD_SETSIZE : Z := 1024.
Definition INVALID_SOCKET : Z := -1.

(** What the server does to sockets; [EvReject] is the message that it has no room. *)
Inductive event :=
| EvAccept (fd : Z)
| EvReject (fd : Z)
| EvRecv (fd : Z) (data : option (list byte))
| EvSend (fd : Z) (data : list byte) (n : Z)
| EvClose (fd : Z).

Record server := Server {
  listen_fd : Z;
  clients : list Z;
  max_i : Z;
  max_fd : Z;
  all_fds : gset Z;
  trace : list event
}.

#[export] Instance eta_server : Eta server :=
  fun s => Server (listen_fd s) (clients s) (max_i s) (max_fd s) (all_fds s) (trace s).
#[export] Instance set_clients : Setter clients := ltac:(solve_setter).
#[export] Instance set_max_i : Setter max_i := ltac:(solve_setter).
#[export] Instance set_max_fd : Setter max_fd := ltac:(solve_setter).
#[export] Instance set_all_fds : Setter all_fds := ltac:(solve_setter).
#[export] Instance set_trace : Setter trace := ltac:(solve_setter).

Definition log (e : event) (s : server) : server := s <| trace := trace s ++ [e] |>.

(** The macros on [fd_set], a bit array of [FD_SETSIZE] bits. *)
Definition in_fd_set (fd : Z) : bool := (0 <=? fd) && (fd <? FD_SETSIZE).
Definition FD_SET (fd : Z) (set : gset Z) : option (gset Z) := if in_fd_set fd then Some ({[fd]} ∪ set) else None.
Definition FD_CLR (fd : Z) (set : gset Z) : option (gset Z) := if in_fd_set fd then Some (set ∖ {[fd]}) else None.
Definition FD_ISSET (fd : Z) (set : gset Z) : option bool := if in_fd_set fd then Some (bool_decide (fd ∈ set)) else None.

(** The results of the calls of one round: of [select], of [accept] (a socket or -1), of
    [recv] on a socket ([None] for -1, no bytes at the end of the stream; if more have arrived
    than there is room for, it takes the first) and of [send]. *)
Record round_env := { select_ret : Z; select_fds : gset Z; accept_ret : Z; recv_ret : Z -> option (list byte); send_ret : Z -> Z }.

(** [recv] into a buffer of [BUF_SIZE] bytes. *)
Definition recv (env : round_env) (fd : Z) : option (list byte) := ztake BUF_SIZE <$> recv_ret env fd.

(** The first free slot, or -1. *)
Fixpoint find_slot (i : Z) (cl : list Z) : Z :=
  match cl with
  | [] => -1
  | c :: cl' => if c =? INVALID_SOCKET then i else find_slot (i + 1) cl'
  end.

Definition accept_client (env : round_env) (s : server) : option server :=
  let cli_fd := accept_ret env in
  if cli_fd =? INVALID_SOCKET then Some s
  else
    let s := log (EvAccept cli_fd) s in
    let slot := find_slot 0 (clients s) in
    if slot <? 0 then Some (log (EvClose cli_fd) (log (EvReject cli_fd) s))
    else
      let s := s <| clients := <[Z.to_nat slot := cli_fd]> (clients s) |> in
      set ← FD_SET cli_fd (all_fds s);
      let s := s <| all_fds := set |> in
      let s := if max_fd s <? cli_fd then s <| max_fd := cli_fd |> else s in
      Some (if max_i s <? slot then s <| max_i := slot |> else s).

(** The connection in slot [i] is over. *)
Definition drop_client (i : Z) (fd : Z) (s : server) : option server :=
  set ← FD_CLR fd (all_fds s);
  Some ((log (EvClose fd) (s <| all_fds := set |>)) <| clients := <[Z.to_nat i := INVALID_SOCKET]> (clients s) |>).

Definition serve_client (env : round_env) (i fd : Z) (s : server) : option server :=
  let s := log (EvRecv fd (recv env fd)) s in
  match recv env fd with
  | None | Some [] => drop_client i fd s
  | Some data =>
      let sent := send_ret env fd in
      let s := log (EvSend fd data sent) s in
      if negb (sent =? zlen data) then drop_client i fd s else Some s
  end.

(** The loop over [slots]. *)
Fixpoint client_loop (env : round_env) (slots : list Z) (nready : Z) (s : server) : option server :=
  match slots with
  | [] => Some s
  | i :: slots' =>
      if nready <=? 0 then Some s
      else
        fd ← clients s !! Z.to_nat i;
        if fd =? INVALID_SOCKET then client_loop env slots' nready s
        else
          ready ← FD_ISSET fd (select_fds env);
          if negb ready then client_loop env slots' nready s
          else s ← serve_client env i fd s; client_loop env slots' (nready - 1) s
  end.

Definition serve_clients (env : round_env) (nready : Z) (s : server) : option server :=
  client_loop env (seqZ 0 (max_i s + 1)) nready s.

(** One round: [None] is undefined behaviour, [Some None] the end of the loop. *)
Definition round (env : round_env) (s : server) : option (option server) :=
  if select_ret env <? 0 then Some None
  else
    ready ← FD_ISSET (listen_fd s) (select_fds env);
    if ready : bool then
      s ← accept_client env s;
      let nready := select_ret env - 1 in
      if nready <=? 0 then Some (Some s) else Some <$> serve_clients env nready s
    else Some <$> serve_clients env (select_ret env) s.

(** How the program is doing after the rounds it has made. *)
Inductive outcome := Exit (code : Z) (tr : list event) | Running (s : server) | Undefined.

Fixpoint server_loop (envs : list round_env) (s : server) : outcome :=
  match envs with
  | [] => Running s
  | env :: envs' =>
      match round env s with
      | None => Undefined
      | Some None => Exit 0 (trace (log (EvClose (listen_fd s)) s))
      | Some (Some s') => server_loop envs' s'
      end
  end.

(** [main]: [port] is the number in the argument, [fd], [bound] and [listening] the results of
    [socket], [bind] and [listen]. *)
Definition main (argc port fd bound listening : Z) (envs : list round_env) : outcome :=
  if negb (argc =? 2) then Exit 1 []
  else if (port <=? 0) || (65535 <? port) then Exit 1 []
  else if fd =? INVALID_SOCKET then Exit 1 []
  else if negb (bound =? 0) then Exit 1 [EvClose fd]
  else if negb (listening =? 0) then Exit 1 [EvClose fd]
  else
    match FD_SET fd ∅ with
    | None => Undefined
    | Some set =>
        server_loop envs {| listen_fd := fd; clients := replicate (Z.to_nat FD_SETSIZE) INVALID_SOCKET; max_i := -1;
          max_fd := fd; all_fds := set; trace := [] |}
    end.

(** ** Specification *)

(** An open connection: what came in, what went back, and whether it must be closed. *)
Record chan := Chan { got : list byte; back : list byte; finished : bool }.

Definition step_chan (e : event) (c : chan) : option chan :=
  match e with
  | EvRecv _ None | EvRecv _ (Some []) => if finished c then None else Some (Chan (got c) (back c) true)
  | EvRecv _ (Some data) =>
      if finished c then None else if decide (got c = back c) then Some (Chan (got c ++ data) (back c) false) else None
  | EvSend _ data n =>
      if finished c then None
      else if decide (got c = back c ++ data) then Some (Chan (got c) (back c ++ ztake n data) (negb (n =? zlen data))) else None
  | EvReject _ => if decide (got c = []) then Some (Chan [] [] true) else None
  | EvAccept _ | EvClose _ => None
  end.

Definition event_fd (e : event) : Z :=
  match e with EvAccept fd | EvReject fd | EvRecv fd _ | EvSend fd _ _ | EvClose fd => fd end.

(** A socket is opened when it is not open, used only while it is, and closed when it must
    be. *)
Definition replay_event (m : gmap Z chan) (e : event) : option (gmap Z chan) :=
  match e with
  | EvAccept fd => if m !! fd is Some _ then None else Some (<[fd := Chan [] [] false]> m)
  | EvClose fd => c ← m !! fd; if finished c then Some (delete fd m) else None
  | _ => c ← m !! event_fd e; c' ← step_chan e c; Some (<[event_fd e := c']> m)
  end.

Definition replay_from (m : gmap Z chan) (tr : list event) : option (gmap Z chan) :=
  foldl (fun o e => m ← o; replay_event m e) (Some m) tr.
Definition replay (tr : list event) : option (gmap Z chan) := replay_from ∅ tr.

(** What a round does on a client that is ready. *)
Definition served (env : round_env) (fd : Z) : list event :=
  EvRecv fd (recv env fd) ::
  match recv env fd with
  | None | Some [] => [EvClose fd]
  | Some data => EvSend fd data (send_ret env fd) :: if send_ret env fd =? zlen data then [] else [EvClose fd]
  end.

(** What it does on a new connection. *)
Definition accepted (env : round_env) (s : server) : list event :=
  if decide (listen_fd s ∈ select_fds env) then
    if accept_ret env =? INVALID_SOCKET then []
    else EvAccept (accept_ret env) ::
         if decide (INVALID_SOCKET ∈ clients s) then [] else [EvReject (accept_ret env); EvClose (accept_ret env)]
  else [].

(** The clients that are ready, slot by slot. *)
Definition is_ready (env : round_env) (fd : Z) : Prop := fd <> INVALID_SOCKET /\ fd ∈ select_fds env.
#[export] Instance is_ready_dec env fd : Decision (is_ready env fd) := ltac:(unfold is_ready; apply _).
Definition ready (env : round_env) (cl : list Z) : list Z := filter (is_ready env) cl.

Definition is_client (s : server) (fd : Z) : Prop := fd <> INVALID_SOCKET /\ fd ∈ clients s.

(** The system calls do what they are documented to do in a process that may have [limit]
    descriptors: [select] reports only sockets it was asked about, and how many; [accept]
    returns a descriptor that is not open. *)
Record env_ok (limit : Z) (s : server) (env : round_env) : Prop := {
  env_fds : select_fds env ⊆ all_fds s;
  env_count : 0 <= select_ret env -> select_ret env = Z.of_nat (size (select_fds env));
  env_accept : accept_ret env = INVALID_SOCKET \/ 0 <= accept_ret env < limit /\ accept_ret env ∉ all_fds s
}.

Fixpoint envs_ok (limit : Z) (envs : list round_env) (s : server) : Prop :=
  match envs with
  | [] => True
  | env :: envs' =>
      env_ok limit s env /\ match round env s with Some (Some s') => envs_ok limit envs' s' | _ => True end
  end.

(** ** Invariant *)

(** Every open connection is idle: what came in went back. *)
Definition idle (c : chan) : Prop := got c = back c /\ finished c = false.

Definition account (s : server) (m : gmap Z chan) : Prop :=
  replay (trace s) = Some m /\ (forall fd, is_Some (m !! fd) <-> is_client s fd) /\ map_Forall (fun _ => idle) m.

Record server_ok (s : server) : Prop := {
  ok_len : length (clients s) = Z.to_nat FD_SETSIZE;
  ok_slot : forall i fd, clients s !! i = Some fd -> fd <> INVALID_SOCKET ->
    Z.of_nat i <= max_i s /\ fd <= max_fd s /\ in_fd_set fd = true /\ fd <> listen_fd s;
  ok_inj : forall i j fd, clients s !! i = Some fd -> clients s !! j = Some fd -> fd <> INVALID_SOCKET -> i = j;
  ok_all : forall fd, fd ∈ all_fds s <-> fd = listen_fd s \/ is_client s fd;
  ok_max : -1 <= max_i s < FD_SETSIZE;
  ok_listen : listen_fd s <= max_fd s /\ in_fd_set (listen_fd s) = true;
  ok_account : exists m, account s m
}.

Lemma replay_app tr tr' : replay (tr ++ tr') = m ← replay tr; replay_from m tr'.
Proof.
  unfold replay, replay_from. rewrite foldl_app. destruct (foldl _ (Some ∅) tr); [done |]. cbn.
  induction tr' as [| e tr' IH]; [done |]. exact IH.
Qed.

Lemma replay_log tr m tr' m' : replay tr = Some m -> replay_from m tr' = Some m' -> replay (tr ++ tr') = Some m'.
Proof. intros E E'. by rewrite replay_app, E. Qed.

Lemma find_slot_spec k cl :
  0 <= k ->
  (find_slot k cl = -1 /\ INVALID_SOCKET ∉ cl) \/
  (exists i, find_slot k cl = k + Z.of_nat i /\ cl !! i = Some INVALID_SOCKET).
Proof.
  revert k. induction cl as [| c cl IH]; intros k Hk; cbn [find_slot]; [left; split; [done | set_solver] |].
  destruct (Z.eqb_spec c INVALID_SOCKET) as [-> | Hc]; [right; exists 0%nat; split; [lia | done] |].
  destruct (IH (k + 1)) as [[-> Hn] | (i & -> & Hi)]; [lia | left | right].
  - split; [done |]. rewrite elem_of_cons. naive_solver.
  - exists (S i). split; [lia | done].
Qed.

Lemma is_client_insert s i x y fd :
  server_ok s -> clients s !! i = Some x -> fd <> INVALID_SOCKET ->
  fd ∈ <[i := y]> (clients s) <-> fd = y \/ (fd ∈ clients s /\ fd <> x).
Proof.
  intros Hok Hi Hfd. rewrite !list_elem_of_lookup. pose proof (lookup_lt_Some _ _ _ Hi) as Hlt. split.
  - intros [j Hj]. destruct (decide (i = j)) as [-> | Hij].
    + rewrite list_lookup_insert_eq in Hj by done. left. congruence.
    + rewrite list_lookup_insert_ne in Hj by done. right. split; [by exists j |]. intros ->. apply Hij. by eapply ok_inj.
  - intros [-> | [[j Hj] Hx]]; [exists i; by apply list_lookup_insert_eq |].
    exists j. rewrite list_lookup_insert_ne; [done |]. intros ->. congruence.
Qed.

(** A free slot is taken by a new socket. *)
Lemma occupy_ok s i fd :
  server_ok s -> clients s !! i = Some INVALID_SOCKET -> in_fd_set fd = true -> fd ∉ all_fds s ->
  let s1 := (log (EvAccept fd) s) <| clients := <[i := fd]> (clients s) |> <| all_fds := {[fd]} ∪ all_fds s |> in
  let s2 := if max_fd s1 <? fd then s1 <| max_fd := fd |> else s1 in
  server_ok (if max_i s2 <? Z.of_nat i then s2 <| max_i := Z.of_nat i |> else s2).
Proof.
  intros Hok Hi Hin Hnew s1 s2. set (s3 := if max_i s2 <? _ then _ else _).
  assert (Hfd : fd <> INVALID_SOCKET) by (intros ->; done). pose proof (lookup_lt_Some _ _ _ Hi) as Hlt.
  assert (E : listen_fd s3 = listen_fd s /\ clients s3 = <[i := fd]> (clients s) /\ all_fds s3 = {[fd]} ∪ all_fds s /\
    trace s3 = trace s ++ [EvAccept fd] /\ max_fd s3 = Z.max (max_fd s) fd /\ max_i s3 = Z.max (max_i s) (Z.of_nat i)).
  { subst s3 s2 s1. cbn. destruct (Z.ltb_spec (max_fd s) fd); cbn; destruct (Z.ltb_spec (max_i s) (Z.of_nat i)); cbn; split_and!; try done; lia. }
  destruct E as (El & Ec & Ea & Et & Ef & Ei). clearbody s3. clear s1 s2.
  destruct Hok as [Hl Hs Hj Ha Hm Hli Hacc] eqn:Hok'. clear Hok'.
  assert (Hcl : forall f, is_client s3 f <-> f = fd \/ is_client s f).
  { intros f. unfold is_client. rewrite Ec. split.
    - intros [Hf Hin']. rewrite (is_client_insert _ _ _ _ _ Hok Hi) in Hin' by done. naive_solver.
    - intros Hf. assert (f <> INVALID_SOCKET) by naive_solver. rewrite (is_client_insert _ _ _ _ _ Hok Hi) by done. naive_solver. }
  assert (Hnc : ~ is_client s fd) by (intros Hc; apply Hnew, Ha; by right).
  split.
  - by rewrite Ec, length_insert.
  - intros j f Hjf Hf. rewrite Ec in Hjf. rewrite Ei, Ef, El. destruct (decide (i = j)) as [-> | Hij].
    + rewrite list_lookup_insert_eq in Hjf by done. injection Hjf as <-. split_and!; [lia | lia | done |].
      intros ->. apply Hnew, Ha. by left.
    + rewrite list_lookup_insert_ne in Hjf by done. destruct (Hs _ _ Hjf Hf) as (? & ? & ? & ?). split_and!; [lia | lia | done | done].
  - intros j k f. rewrite Ec. intros Hj1 Hk1 Hf. apply list_lookup_insert_Some in Hj1, Hk1.
    assert (Hn : forall x, clients s !! x = Some fd -> False) by (intros x Hx; apply Hnc; split; [done | by apply list_elem_of_lookup_2 in Hx]).
    naive_solver.
  - intros f. rewrite Ea, El, Hcl, elem_of_union, elem_of_singleton, Ha. naive_solver.
  - rewrite Ei. unfold FD_SETSIZE in *. lia.
  - rewrite El, Ef. split; [lia | apply Hli].
  - destruct Hacc as (m & Hr & Hd & Hi'). exists (<[fd := Chan [] [] false]> m). assert (Hm0 : m !! fd = None).
    { apply eq_None_not_Some. by rewrite Hd. }
    split_and!.
    + rewrite Et. eapply replay_log; [done |]. cbn. by rewrite Hm0.
    + intros f. rewrite Hcl, lookup_insert_is_Some, Hd. naive_solver.
    + by apply map_Forall_insert_2.
Qed.

(** A connection is closed and its slot is free again. *)
Lemma vacate_ok s tr i fd c :
  server_ok s -> clients s !! i = Some fd -> fd <> INVALID_SOCKET ->
  (forall m, account s m -> replay_from m tr = Some (<[fd := c m]> m) /\ finished (c m) = true) ->
  server_ok {| listen_fd := listen_fd s; clients := <[i := INVALID_SOCKET]> (clients s); max_i := max_i s; max_fd := max_fd s;
    all_fds := all_fds s ∖ {[fd]}; trace := (trace s ++ tr) ++ [EvClose fd] |}.
Proof.
  intros Hok Hi Hfd Htr. pose proof (lookup_lt_Some _ _ _ Hi) as Hlt. set (s' := Server _ _ _ _ _ _).
  destruct Hok as [Hl Hs Hj Ha Hm Hli Hacc] eqn:Hok'. clear Hok'.
  assert (Hcl : forall f, is_client s' f <-> is_client s f /\ f <> fd).
  { intros f. unfold is_client. cbn. split.
    - intros [Hf Hin]. rewrite (is_client_insert _ _ _ _ _ Hok Hi) in Hin by done. naive_solver.
    - intros [[Hf Hin] Hne]. rewrite (is_client_insert _ _ _ _ _ Hok Hi) by done. naive_solver. }
  split.
  - cbn. by rewrite length_insert.
  - intros j f Hjf Hf. cbn in Hjf |- *. apply list_lookup_insert_Some in Hjf as [(_ & ? & _) | [_ Hjf]]; [congruence |]. by apply Hs.
  - intros j k f Hj1 Hk1 Hf. cbn in Hj1, Hk1. apply list_lookup_insert_Some in Hj1, Hk1. naive_solver.
  - intros f. rewrite Hcl. cbn. rewrite elem_of_difference, elem_of_singleton, Ha.
    assert (fd <> listen_fd s) by (apply (Hs i fd Hi Hfd)). naive_solver.
  - exact Hm.
  - exact Hli.
  - destruct Hacc as (m & Hacc). destruct (Htr m Hacc) as [Ht Hc]. destruct Hacc as (Hr & Hd & Hi'). exists (delete fd m). split_and!.
    + cbn. eapply replay_log; [by eapply replay_log |]. cbn. rewrite lookup_insert_eq. cbn. by rewrite Hc, delete_insert_eq.
    + intros f. rewrite Hcl, lookup_delete_is_Some, Hd. naive_solver.
    + by apply map_Forall_delete.
Qed.

(** A connection that stays open has sent back what it received. *)
Lemma stay_ok s tr i fd c :
  server_ok s -> clients s !! i = Some fd -> fd <> INVALID_SOCKET ->
  (forall m, account s m -> replay_from m tr = Some (<[fd := c m]> m) /\ idle (c m)) ->
  server_ok (s <| trace := trace s ++ tr |>).
Proof.
  intros Hok Hi Hfd Htr. destruct Hok as [Hl Hs Hj Ha Hm Hli (m & Hacc)]. split; try done.
  destruct (Htr m Hacc) as [Ht Hid]. destruct Hacc as (Hr & Hd & Hi'). exists (<[fd := c m]> m). split_and!.
  - by eapply replay_log.
  - intros f. rewrite lookup_insert_is_Some, Hd. split.
    2:{ intros Hf. destruct (decide (fd = f)); [by left | by right]. }
    intros [<- | [_ Hf]]; [| done]. split; [done | by apply list_elem_of_lookup_2 in Hi].
  - by apply map_Forall_insert_2.
Qed.

Lemma ztake_zlen {A} (l : list A) : ztake (zlen l) l = l.
Proof. by apply ztake_all. Qed.

(** The channel of a client before and after the calls of a round. *)
Definition chan_of (m : gmap Z chan) (fd : Z) : chan := default (Chan [] [] false) (m !! fd).

Lemma account_chan s m i fd :
  account s m -> clients s !! i = Some fd -> fd <> INVALID_SOCKET ->
  m !! fd = Some (Chan (got (chan_of m fd)) (got (chan_of m fd)) false).
Proof.
  intros (_ & Hd & Hi) Hc Hfd. destruct (proj2 (Hd fd)) as [[g b f] Hm]; [split; [done | by apply list_elem_of_lookup_2 in Hc] |].
  destruct (Hi _ _ Hm) as [E1 E2]. cbn in *. subst. unfold chan_of. by rewrite Hm.
Qed.

Lemma replay_ended m fd g r :
  m !! fd = Some (Chan g g false) -> r = None \/ r = Some [] -> replay_from m [EvRecv fd r] = Some (<[fd := Chan g g true]> m).
Proof. intros Hm [-> | ->]; cbn; rewrite Hm; done. Qed.

Lemma replay_echo m fd g b d n :
  m !! fd = Some (Chan g g false) ->
  replay_from m [EvRecv fd (Some (b :: d)); EvSend fd (b :: d) n] =
    Some (<[fd := Chan (g ++ b :: d) (g ++ ztake n (b :: d)) (negb (n =? zlen (b :: d)))]> m).
Proof.
  intros Hm. cbn. rewrite Hm. cbn. rewrite decide_True by done. cbn. rewrite lookup_insert_eq. cbn.
  rewrite decide_True by done. cbn. by rewrite insert_insert_eq.
Qed.

Lemma replay_rejected (m : gmap Z chan) fd :
  m !! fd = None -> replay_from m [EvAccept fd; EvReject fd; EvClose fd] = Some m.
Proof.
  intros Hm. unfold replay_from. cbn [foldl mbind option_bind replay_event]. rewrite Hm. cbn [mbind option_bind event_fd step_chan].
  rewrite lookup_insert_eq. cbn [mbind option_bind event_fd step_chan got]. rewrite decide_True by done. cbn [mbind option_bind].
  rewrite lookup_insert_eq. cbn [mbind option_bind finished]. by rewrite insert_insert_eq, delete_insert_id.
Qed.

(** The server after it has dropped the client in slot [i]. *)
Definition dropped (s : server) (i : nat) (fd : Z) (tr : list event) : server :=
  {| listen_fd := listen_fd s; clients := <[i := INVALID_SOCKET]> (clients s); max_i := max_i s; max_fd := max_fd s;
     all_fds := all_fds s ∖ {[fd]}; trace := (trace s ++ tr) ++ [EvClose fd] |}.

Lemma drop_client_eq s i fd tr :
  in_fd_set fd = true -> drop_client (Z.of_nat i) fd (s <| trace := trace s ++ tr |>) = Some (dropped s i fd tr).
Proof. intros Hin. unfold drop_client, FD_CLR. rewrite Hin, Nat2Z.id. reflexivity. Qed.

Lemma serve_client_ok env s i fd :
  server_ok s -> clients s !! i = Some fd -> fd <> INVALID_SOCKET ->
  exists s', serve_client env (Z.of_nat i) fd s = Some s' /\ server_ok s' /\ trace s' = trace s ++ served env fd /\
    listen_fd s' = listen_fd s /\ max_i s' = max_i s /\
    (clients s' = clients s \/ clients s' = <[i := INVALID_SOCKET]> (clients s)).
Proof.
  intros Hok Hi Hfd. destruct (ok_slot _ Hok _ _ Hi Hfd) as (_ & _ & Hin & _). unfold served.
  assert (Hend : recv env fd = None \/ recv env fd = Some [] ->
    server_ok (dropped s i fd [EvRecv fd (recv env fd)])).
  { intros Hr. apply (vacate_ok _ _ _ _ (fun m => Chan (got (chan_of m fd)) (got (chan_of m fd)) true) Hok Hi Hfd).
    intros m Hm. split; [| reflexivity]. apply replay_ended; [by eapply account_chan | exact Hr]. }
  destruct (recv env fd) as [[| b d] |] eqn:Er; unfold serve_client; rewrite Er.
  - eexists. split; [by apply drop_client_eq |]. split; [apply Hend; by right |]. cbn. rewrite <- app_assoc. by auto.
  - assert (Hecho := fun m (Hm : account s m) => replay_echo m fd _ b d (send_ret env fd) (account_chan _ _ _ _ Hm Hi Hfd)).
    change (log (EvSend fd (b :: d) (send_ret env fd)) (log (EvRecv fd (Some (b :: d))) s)) with
      (s <| trace := (trace s ++ [EvRecv fd (Some (b :: d))]) ++ [EvSend fd (b :: d) (send_ret env fd)] |>).
    rewrite <- app_assoc. cbn [app].
    destruct (Z.eqb_spec (send_ret env fd) (zlen (b :: d))) as [En | En]; cbn [negb].
    + eexists. split; [reflexivity |]. split; [| by auto]. eapply (stay_ok _ _ _ _ _ Hok Hi Hfd). intros m Hm.
      split; [by apply Hecho |]. split; cbn [got back finished]; [by rewrite En, ztake_zlen | done].
    + eexists. split; [by apply drop_client_eq |]. split; [| cbn; rewrite <- app_assoc; by auto].
      eapply (vacate_ok _ _ _ _ _ Hok Hi Hfd). intros m Hm. split; [by apply Hecho |]. done.
  - eexists. split; [by apply drop_client_eq |]. split; [apply Hend; by left |]. cbn. rewrite <- app_assoc. by auto.
Qed.

(** ** The rounds *)

Lemma ready_insert env cl i x y :
  cl !! i = Some x -> ~ is_ready env x -> ~ is_ready env y -> ready env (<[i := y]> cl) = ready env cl.
Proof.
  intros Hi Hx Hy. rewrite (insert_take_drop cl i y) by (by eapply lookup_lt_Some).
  rewrite <- (take_drop_middle cl i x Hi) at 3. unfold ready. rewrite !list.filter_app, !list.filter_cons. by rewrite !decide_False.
Qed.

Lemma ready_drop env cl i x :
  cl !! i = Some x ->
  ready env (drop i cl) = (if decide (is_ready env x) then [x] else []) ++ ready env (drop (S i) cl).
Proof. intros Hi. rewrite (drop_S _ _ _ Hi). unfold ready. rewrite list.filter_cons. by destruct (decide _). Qed.

(** No slot above [max_i] is in use. *)
Lemma ready_above env s n : server_ok s -> max_i s < Z.of_nat n -> ready env (drop n (clients s)) = [].
Proof.
  intros Hok Hn. unfold ready. destruct (filter _ _) as [| x l] eqn:E; [done | exfalso].
  assert (Hx : x ∈ filter (is_ready env) (drop n (clients s))) by (rewrite E; left).
  apply list_elem_of_filter in Hx as [[Hx _] [j Hj]%list_elem_of_lookup]. rewrite lookup_drop in Hj.
  destruct (ok_slot _ Hok _ _ Hj Hx) as (? & _). lia.
Qed.

(** Counting the ready sockets down to 0 skips none of them. *)
Lemma client_loop_ok env n : forall i s nready,
  server_ok s -> max_i s + 1 = Z.of_nat (i + n) -> zlen (ready env (drop i (clients s))) <= nready ->
  exists s', client_loop env (seqZ (Z.of_nat i) (Z.of_nat n)) nready s = Some s' /\ server_ok s' /\
    trace s' = trace s ++ (ready env (drop i (clients s)) ≫= served env) /\ listen_fd s' = listen_fd s.
Proof.
  induction n as [| n IH]; intros i s nready Hok Hmax Hn.
  { exists s. rewrite ready_above by (done || lia). cbn. by rewrite app_nil_r. }
  rewrite seqZ_cons by lia. cbn [client_loop]. destruct (Z.leb_spec nready 0) as [Hz | Hz].
  { exists s. rewrite (zlen_0 (ready env (drop i (clients s)))); [cbn; by rewrite app_nil_r |]. pose proof (zlen_nonneg (ready env (drop i (clients s)))). lia. }
  replace (Z.pred (Z.of_nat (S n))) with (Z.of_nat n) by lia. replace (Z.succ (Z.of_nat i)) with (Z.of_nat (S i)) by lia.
  destruct (lookup_lt_is_Some_2 (clients s) i) as [fd Hi].
  { rewrite (ok_len _ Hok). pose proof (ok_max _ Hok). lia. }
  rewrite (ready_drop _ _ _ _ Hi) in Hn |- *. rewrite Nat2Z.id, Hi. cbn [mbind option_bind].
  destruct (Z.eqb_spec fd INVALID_SOCKET) as [Efd | Hfd].
  { rewrite decide_False in Hn |- * by (intros [? _]; done). apply IH; [done | lia | done]. }
  unfold FD_ISSET. destruct (ok_slot _ Hok _ _ Hi Hfd) as (_ & _ & -> & _). cbn [mbind option_bind].
  destruct (decide (fd ∈ select_fds env)) as [Hr | Hr].
  2:{ rewrite (bool_decide_eq_false_2 _ Hr). cbn [negb]. rewrite decide_False in Hn |- * by (intros [_ ?]; done). apply IH; [done | lia | done]. }
  rewrite (bool_decide_eq_true_2 _ Hr). cbn [negb]. rewrite decide_True in Hn |- * by done.
  destruct (serve_client_ok env s i fd Hok Hi Hfd) as (s1 & -> & Hok1 & Et & El & Em & Ec). cbn [mbind option_bind].
  assert (Ed : drop (S i) (clients s1) = drop (S i) (clients s)).
  { destruct Ec as [-> | ->]; [done |]. apply drop_insert_lt. lia. }
  destruct (IH (S i) s1 (nready - 1) Hok1) as (s' & -> & Hok' & Et' & El').
  { rewrite Em. lia. }
  { rewrite Ed. rewrite zlen_app in Hn. unfold zlen in Hn at 1. cbn in Hn. lia. }
  exists s'. split_and!; [done | done | | congruence]. rewrite Et', Et, Ed, bind_app. cbn. by rewrite app_nil_r, <- app_assoc.
Qed.

(** Distinct elements stay distinct when others are filtered out. *)
Lemma NoDup_filter_inj {A} (P : A -> Prop) `{forall x, Decision (P x)} (l : list A) :
  (forall i j x, l !! i = Some x -> l !! j = Some x -> P x -> i = j) -> NoDup (filter P l).
Proof.
  induction l as [| y l IH]; intros Hinj; [constructor |].
  assert (IH' : NoDup (filter P l)).
  { apply IH. intros i j x Hi Hj Hx. enough (S i = S j) by lia. by apply (Hinj (S i) (S j) x). }
  rewrite list.filter_cons. destruct (decide (P y)) as [Hy | Hy]; [| done]. constructor; [| done].
  intros [_ [j Hj]%list_elem_of_lookup]%list_elem_of_filter. by specialize (Hinj 0%nat (S j) y eq_refl Hj Hy).
Qed.

Lemma serve_clients_ok env s nready :
  server_ok s -> zlen (ready env (clients s)) <= nready ->
  exists s', serve_clients env nready s = Some s' /\ server_ok s' /\
    trace s' = trace s ++ (ready env (clients s) ≫= served env) /\ listen_fd s' = listen_fd s.
Proof.
  intros Hok Hn. unfold serve_clients. pose proof (ok_max _ Hok).
  replace (max_i s + 1) with (Z.of_nat (Z.to_nat (max_i s + 1))) by lia.
  apply (client_loop_ok env _ 0 s nready Hok); [lia | exact Hn].
Qed.

Lemma accept_client_ok limit env s :
  limit <= FD_SETSIZE -> server_ok s -> env_ok limit s env -> listen_fd s ∈ select_fds env ->
  exists s', accept_client env s = Some s' /\ server_ok s' /\ trace s' = trace s ++ accepted env s /\
    listen_fd s' = listen_fd s /\ ready env (clients s') = ready env (clients s).
Proof.
  intros Hlim Hok Henv Hl. unfold accept_client, accepted. rewrite decide_True by done.
  destruct (Z.eqb_spec (accept_ret env) INVALID_SOCKET) as [_ | Hfd]; [exists s; by rewrite app_nil_r |].
  destruct (env_accept _ _ _ Henv) as [| [Hr Hnew]]; [done |].
  assert (Hin : in_fd_set (accept_ret env) = true) by (unfold in_fd_set; lia). cbn [clients log].
  change (clients (log (EvAccept (accept_ret env)) s)) with (clients s).
  destruct (find_slot_spec 0 (clients s) ltac:(lia)) as [[-> Hno] | (i & -> & Hi)].
  - rewrite (decide_False (P := INVALID_SOCKET ∈ clients s)) by done. cbn.
    eexists. split; [done |]. split; [| cbn; by rewrite <- !app_assoc].
    destruct Hok as [H1 H2 H3 H4 H5 H6 (m & Hm & Hd & Hi)]. split; try done. exists m. split; [| done]. cbn. rewrite <- !app_assoc.
    eapply replay_log; [done |]. apply replay_rejected, eq_None_not_Some. rewrite Hd. intros Hc. apply Hnew, H4. by right.
  - rewrite (decide_True (P := INVALID_SOCKET ∈ clients s)) by (by apply list_elem_of_lookup_2 in Hi).
    destruct (Z.ltb_spec (0 + Z.of_nat i) 0); [lia |]. rewrite Z.add_0_l, Nat2Z.id. unfold FD_SET. rewrite Hin. cbn [mbind option_bind].
    eexists. split; [reflexivity |]. split; [by apply (occupy_ok s i (accept_ret env)) |].
    assert (Hready : ready env (<[i := accept_ret env]> (clients s)) = ready env (clients s)).
    { apply (ready_insert _ _ _ INVALID_SOCKET); [done | by intros [? _] |]. intros [_ Hs]. by apply Hnew, (env_fds _ _ _ Henv). }
    cbn. destruct (max_fd s <? _); cbn; destruct (max_i s <? _); cbn; done.
Qed.

(** [select] counts the clients that are ready, and the listening socket. *)
Lemma ready_count limit env s :
  server_ok s -> env_ok limit s env -> 0 <= select_ret env ->
  zlen (ready env (clients s)) + (if decide (listen_fd s ∈ select_fds env) then 1 else 0) <= select_ret env.
Proof.
  intros Hok Henv Hn. rewrite (env_count _ _ _ Henv Hn). set (L := if decide (listen_fd s ∈ select_fds env) then [listen_fd s] else []).
  assert (Hnd : NoDup (L ++ ready env (clients s))).
  { apply list.NoDup_app. split; [| split].
    - subst L. destruct (decide _); [apply list.NoDup_singleton | constructor].
    - intros x Hx Hr. apply list_elem_of_filter in Hr as [[Hr _] [j Hj]%list_elem_of_lookup].
      assert (x = listen_fd s) as -> by (subst L; destruct (decide _); set_solver). by destruct (ok_slot _ Hok _ _ Hj Hr) as (_ & _ & _ & ?).
    - apply NoDup_filter_inj. intros i j x Hi Hj [Hx _]. by apply (ok_inj _ Hok i j x). }
  assert (Hsub : list_to_set (C := gset Z) (L ++ ready env (clients s)) ⊆ select_fds env).
  { intros x. rewrite elem_of_list_to_set, elem_of_app. intros [Hx | Hx].
    - subst L. destruct (decide _); set_solver.
    - by apply list_elem_of_filter in Hx as [[_ ?] _]. }
  apply subseteq_size in Hsub. rewrite size_list_to_set in Hsub by done. rewrite length_app in Hsub. unfold zlen.
  subst L. destruct (decide _); cbn in Hsub; lia.
Qed.

(** One round of the loop. *)
Definition round_events (env : round_env) (s : server) : list event := accepted env s ++ (ready env (clients s) ≫= served env).

Lemma round_ok limit env s :
  limit <= FD_SETSIZE -> server_ok s -> env_ok limit s env -> 0 <= select_ret env ->
  exists s', round env s = Some (Some s') /\ server_ok s' /\ trace s' = trace s ++ round_events env s /\ listen_fd s' = listen_fd s.
Proof.
  intros Hlim Hok Henv Hn. pose proof (ready_count _ _ _ Hok Henv Hn) as Hc. unfold round, FD_ISSET, round_events.
  destruct (Z.ltb_spec (select_ret env) 0); [lia |]. rewrite (proj2 (ok_listen _ Hok)). cbn [mbind option_bind].
  destruct (decide (listen_fd s ∈ select_fds env)) as [Hl | Hl].
  - rewrite (bool_decide_eq_true_2 _ Hl). destruct (accept_client_ok _ _ _ Hlim Hok Henv Hl) as (s1 & -> & Hok1 & Et & El & Er).
    cbn [mbind option_bind]. destruct (Z.leb_spec (select_ret env - 1) 0) as [Hz | Hz].
    + exists s1. split_and!; try done. rewrite (zlen_0 (ready env (clients s))); [cbn; by rewrite app_nil_r |].
      pose proof (zlen_nonneg (ready env (clients s))). lia.
    + destruct (serve_clients_ok env s1 (select_ret env - 1) Hok1) as (s2 & -> & Hok2 & Et2 & El2); [rewrite Er; lia |].
      exists s2. split_and!; [done | done | | congruence]. by rewrite Et2, Et, Er, <- app_assoc.
  - rewrite (bool_decide_eq_false_2 _ Hl). destruct (serve_clients_ok env s (select_ret env) Hok) as (s2 & -> & Hok2 & Et2 & El2); [lia |].
    exists s2. split_and!; try done. unfold accepted. by rewrite decide_False.
Qed.

Lemma server_loop_ok limit : forall envs s,
  limit <= FD_SETSIZE -> server_ok s -> envs_ok limit envs s ->
  match server_loop envs s with
  | Undefined => False
  | Exit code tr => code = 0 /\ (exists tr', tr = tr' ++ [EvClose (listen_fd s)] /\ is_Some (replay tr')) /\
      Exists (fun env => select_ret env < 0) envs
  | Running s' => server_ok s' /\ listen_fd s' = listen_fd s /\ Forall (fun env => 0 <= select_ret env) envs
  end.
Proof.
  induction envs as [| env envs IH]; intros s Hlim Hok Hs; [by split_and! |]. destruct Hs as [Henv Hs]. cbn [server_loop].
  destruct (Z.ltb_spec (select_ret env) 0) as [Hneg | Hpos].
  - assert (E : round env s = Some None) by (unfold round; by apply Z.ltb_lt in Hneg as ->). rewrite E. split; [done |].
    split; [| by left]. exists (trace s). split; [done |]. destruct (ok_account _ Hok) as (m & Hm & _). by eexists.
  - destruct (round_ok _ _ _ Hlim Hok Henv Hpos) as (s1 & E & Hok1 & _ & El). rewrite E in Hs |- *.
    specialize (IH s1 Hlim Hok1 Hs). rewrite El in IH. destruct (server_loop envs s1) as [code tr | s' |]; [| | exact IH].
    + destruct IH as (? & ? & ?). split_and!; [done | done | by right].
    + destruct IH as (? & ? & ?). split_and!; [done | done | by constructor].
Qed.

(** One round more. *)
Lemma server_loop_snoc envs env : forall s s',
  server_loop envs s = Running s' -> server_loop (envs ++ [env]) s = server_loop [env] s'.
Proof.
  induction envs as [| e envs IH]; intros s s' Hs; [by injection Hs as -> |]. cbn [server_loop app] in *.
  destruct (round e s) as [[s1 |] |]; [| done | done]. by apply IH.
Qed.

(** The state in which the loop starts. *)
Definition started (fd : Z) : server :=
  {| listen_fd := fd; clients := replicate (Z.to_nat FD_SETSIZE) INVALID_SOCKET; max_i := -1; max_fd := fd;
     all_fds := {[fd]} ∪ ∅; trace := [] |}.

Lemma started_ok fd : in_fd_set fd = true -> server_ok (started fd).
Proof.
  intros Hin. assert (Hno : forall i x, clients (started fd) !! i = Some x -> x <> INVALID_SOCKET -> False).
  { intros i x [-> _]%lookup_replicate_1. done. }
  assert (Hcl : forall f, ~ is_client (started fd) f) by (intros f [Hf [i Hi]%list_elem_of_lookup]; by eapply Hno).
  split.
  - apply length_replicate.
  - intros i f Hi Hf. destruct (Hno i f Hi Hf).
  - intros i j f Hi _ Hf. destruct (Hno i f Hi Hf).
  - intros f. change (all_fds (started fd)) with ({[fd]} ∪ ∅ : gset Z). rewrite elem_of_union, elem_of_singleton, elem_of_empty.
    split; [intros [-> | []]; by left | intros [-> | []%Hcl]; by left].
  - done.
  - split; [cbn; lia | done].
  - exists ∅. split; [done |]. split; [| apply map_Forall_empty]. intros f. rewrite lookup_empty. split; [by intros [] | by intros []%Hcl].
Qed.

(** C36: The echo server, in a process that may have at most [FD_SETSIZE] descriptors: whatever
    [select], [accept], [recv] and [send] return ([env_ok]), no descriptor outside an [fd_set] is used, no
    socket is used after it was closed or closed twice, and none is forgotten: the connections
    that the calls so far leave open are those in the table of clients, [select] waits for
    exactly them and the listening socket, and on each of them everything received has been
    sent back. A round accepts a connection if there is one and then serves
    every client that is ready, once; a connection is closed only when it ended, failed, could not take
    all its bytes back or found no free slot. The server runs as long as no [select] has failed; a
    round whose [select] fails closes the listening socket, touches nothing else, and the program
    ends with 0. *)
Theorem echo_server_exact (limit port fd : Z) (envs : list round_env) :
  limit <= FD_SETSIZE -> 0 < port <= 65535 -> 0 <= fd < limit -> envs_ok limit envs (started fd) ->
  match main 2 port fd 0 0 envs with
  | Undefined => False
  | Exit code tr => code = 0 /\ (exists tr', tr = tr' ++ [EvClose fd] /\ is_Some (replay tr')) /\
      Exists (fun env => select_ret env < 0) envs
  | Running s =>
      (exists m, replay (trace s) = Some m /\ (forall f, is_Some (m !! f) <-> is_client s f) /\
         forall f c, m !! f = Some c -> got c = back c /\ finished c = false) /\
      (forall f, f ∈ all_fds s <-> f = fd \/ is_client s f) /\ (forall f, f ∈ all_fds s -> f < max_fd s + 1) /\
      Forall (fun env => 0 <= select_ret env) envs /\
      (forall env, env_ok limit s env -> 0 <= select_ret env ->
        exists s', round env s = Some (Some s') /\ main 2 port fd 0 0 (envs ++ [env]) = Running s' /\
          trace s' = trace s ++ round_events env s) /\
      (forall env, select_ret env < 0 -> main 2 port fd 0 0 (envs ++ [env]) = Exit 0 (trace s ++ [EvClose fd]))
  end.
Proof.
  intros Hlim Hport Hfd Hs. assert (Hin : in_fd_set fd = true) by (unfold in_fd_set; lia).
  assert (Hmain : forall es, main 2 port fd 0 0 es = server_loop es (started fd)).
  { intros es. unfold main. cbn [Z.eqb negb Pos.eqb]. destruct (Z.leb_spec port 0); [lia |]. destruct (Z.ltb_spec 65535 port); [lia |].
    cbn [orb]. destruct (Z.eqb_spec fd INVALID_SOCKET); [unfold INVALID_SOCKET in *; lia |]. unfold FD_SET. by rewrite Hin. }
  rewrite Hmain. pose proof (server_loop_ok limit envs _ Hlim (started_ok fd Hin) Hs) as HL.
  destruct (server_loop envs _) as [code tr | s |] eqn:Erun; [exact HL | | exact HL]. cbn [listen_fd started] in HL.
  destruct HL as (Hok & El & Hall). split_and!; [| | | exact Hall | |].
  - destruct (ok_account _ Hok) as (m & Hr & Hd & Hi). exists m. split_and!; [done | done |]. intros f c Hf. apply (Hi f c Hf).
  - intros f. rewrite <- El. apply (ok_all _ Hok).
  - intros f Hf. apply (ok_all _ Hok) in Hf as [-> | [Hf [i Hi]%list_elem_of_lookup]]; [pose proof (proj1 (ok_listen _ Hok)); lia |].
    destruct (ok_slot _ Hok _ _ Hi Hf) as (_ & ? & _). lia.
  - intros env Henv Hn. destruct (round_ok _ _ _ Hlim Hok Henv Hn) as (s' & E & _ & Et & _). exists s'.
    rewrite Hmain, (server_loop_snoc _ _ _ _ Erun). cbn [server_loop]. by rewrite E.
  - intros env Hn%Z.ltb_lt. rewrite Hmain, (server_loop_snoc _ _ _ _ Erun). cbn [server_loop]. unfold round. rewrite Hn.
    cbn. by rewrite El.
Qed.

(** Where the process may have more descriptors, [FD_SET] is called with one that an
    [fd_set] has no bit for: the server only looks for a free slot, and it has as many slots as
    an [fd_set] has bits. *)
Theorem echo_server_fd_overflow (env : round_env) (s : server) :
  server_ok s -> INVALID_SOCKET ∈ clients s -> listen_fd s ∈ select_fds env -> 0 <= select_ret env ->
  FD_SETSIZE <= accept_ret env -> round env s = None.
Proof.
  intros Hok Hfree Hl Hn Ha. unfold round, FD_ISSET. destruct (Z.ltb_spec (select_ret env) 0); [lia |].
  rewrite (proj2 (ok_listen _ Hok)). cbn [mbind option_bind]. rewrite (bool_decide_eq_true_2 _ Hl). unfold accept_client, FD_SET.
  assert (E : in_fd_set (accept_ret env) = false) by (unfold in_fd_set; lia). rewrite E.
  destruct (Z.eqb_spec (accept_ret env) INVALID_SOCKET); [unfold INVALID_SOCKET, FD_SETSIZE in *; lia |].
  change (clients (log (EvAccept (accept_ret env)) s)) with (clients s).
  destruct (find_slot_spec 0 (clients s) ltac:(lia)) as [[_ ?] | (i & -> & _)]; [done |].
  by destruct (Z.ltb_spec (0 + Z.of_nat i) 0); [lia |].
Qed.

(** ** A session *)

#[export] Instance env_ok_dec limit s env : Decision (env_ok limit s env).
Proof.
  refine (cast_if (decide ((select_fds env ⊆ all_fds s /\ (0 <= select_ret env -> select_ret env = Z.of_nat (size (select_fds env)))) /\
    (accept_ret env = INVALID_SOCKET \/ 0 <= accept_ret env < limit /\ accept_ret env ∉ all_fds s))));
    [abstract (destruct_and!; by split) | abstract (intros []; tauto)].
Defined.

Definition envs_okb (limit : Z) : list round_env -> server -> bool :=
  fix go envs s :=
    match envs with
    | [] => true
    | env :: envs' => bool_decide (env_ok limit s env) && match round env s with Some (Some s') => go envs' s' | _ => true end
    end.

Lemma envs_okb_ok limit envs : forall s, envs_okb limit envs s = true -> envs_ok limit envs s.
Proof.
  induction envs as [| env envs IH]; intros s; cbn [envs_okb envs_ok]; [done |]. intros [He%bool_decide_eq_true Hs]%andb_true_iff.
  split; [done |]. destruct (round env s) as [[s' |] |]; [by apply IH | done | done].
Qed.

Module EchoDemo.
Definition env (fds : list Z) (acc : Z) (d : option (list byte)) (n : Z) : round_env :=
  {| select_ret := zlen fds; select_fds := list_to_set fds; accept_ret := acc; recv_ret := fun _ => d; send_ret := fun _ => n |}.

(** Two clients come; the first sends two bytes while the second is accepted; the second's
    answer does not fit. *)
Definition envs : list round_env :=
  [env [3] 4 None 0; env [3; 4] 5 (Some [x68; x69]) 2; env [5] (-1) (Some [x61; x62; x63]) 1].

Definition check (o : outcome) : bool :=
  match o with Running s => bool_decide (trace s <> []) && bool_decide (ready (env [4; 5] 0 None 0) (clients s) = [4]) | _ => false end.

Definition failed : round_env :=
  {| select_ret := -1; select_fds := ∅; accept_ret := -1; recv_ret := fun _ => None; send_ret := fun _ => 0 |}.

Lemma checked : check (main 2 9000 3 0 0 envs) = true.
Proof. vm_compute. reflexivity. Qed.
End EchoDemo.

(** After that, [select] fails. *)
Lemma echo_server_exact_witness :
  exists s m, main 2 9000 3 0 0 EchoDemo.envs = Running s /\ replay (trace s) = Some m /\
    (forall f c, m !! f = Some c -> got c = back c) /\
    main 2 9000 3 0 0 (EchoDemo.envs ++ [EchoDemo.failed]) = Exit 0 (trace s ++ [EvClose 3]).
Proof.
  pose proof (echo_server_exact 1024 9000 3 EchoDemo.envs ltac:(done) ltac:(lia) ltac:(lia)
    (envs_okb_ok 1024 EchoDemo.envs (started 3) ltac:(vm_compute; reflexivity))) as HT.
  pose proof EchoDemo.checked as HC. destruct (main 2 9000 3 0 0 EchoDemo.envs) as [| s |]; [discriminate HC | | discriminate HC].
  destruct HT as ((m & Hm & _ & Hi) & _ & _ & _ & _ & He). exists s, m. split; [reflexivity |]. split; [exact Hm |].
  split; [intros f c Hf; apply (Hi f c Hf) |]. apply He. reflexivity.
Defined.

Lemma echo_server_fd_overflow_witness : round (EchoDemo.env [3] 1024 None 0) (started 3) = None.
Proof.
  apply echo_server_fd_overflow; [by apply started_ok | by vm_compute; left | set_solver | done | done].
Defined.
