(* ===== verification/EchoSession.v ===== *)
(** * A session between a connection and the echo server

    The connection of [Connection.v] on one side and the server of [EchoServer.v] on the other,
    with a network between them that does what TCP promises: at any moment each end has received a
    prefix of what the other has sent. *)

From S2P Require Import Prelude Codec SliceBuffer ConnTable Timer Poller Address EchoServer Connection ConnInv ConnProofs ConnTheorems.

(** ** What the server has received and sent on a socket *)

(** Since the socket was accepted, also after it was closed. *)
Definition io_step (f : Z) (io : list byte * list byte) (e : EchoServer.event) : list byte * list byte :=
  match e with
  | EchoServer.EvAccept fd => if decide (fd = f) then ([], []) else io
  | EchoServer.EvRecv fd (Some data) => if decide (fd = f) then (io.1 ++ data, io.2) else io
  | EchoServer.EvSend fd data n => if decide (fd = f) then (io.1, io.2 ++ ztake n data) else io
  | _ => io
  end.

Definition server_io (f : Z) (tr : list EchoServer.event) : list byte * list byte := foldl (io_step f) ([], []) tr.

Lemma server_io_snoc f tr e : server_io f (tr ++ [e]) = io_step f (server_io f tr) e.
Proof. unfold server_io. by rewrite foldl_app. Qed.

(** The open connections agree with it, and none has sent what it did not receive. *)
Definition io_ok (tr : list EchoServer.event) (m : gmap Z chan) : Prop :=
  (forall f, (server_io f tr).2 `prefix_of` (server_io f tr).1) /\
  forall f c, m !! f = Some c -> server_io f tr = (got c, back c).

Lemma step_chan_io e c c' :
  step_chan e c = Some c' -> back c `prefix_of` got c -> back c' `prefix_of` got c' /\ io_step (event_fd e) (got c, back c) e = (got c', back c').
Proof.
  destruct e as [fd | fd | fd [[| b d] |] | fd d n | fd]; cbn; try done; intros E Hp; rewrite ?decide_True by done.
  - destruct (decide (got c = [])) as [Eg |]; [| done]. injection E as <-. cbn. rewrite Eg in Hp |- *. by apply prefix_nil_inv in Hp as ->.
  - destruct (finished c); [done |]. injection E as <-. by rewrite app_nil_r.
  - destruct (finished c); [done |]. destruct (decide _) as [Eg |]; [| done]. injection E as <-. cbn. rewrite Eg. split; [by apply prefix_app_r | done].
  - destruct (finished c); [done |]. by injection E as <-.
  - destruct (finished c); [done |]. destruct (decide _) as [Eg |]; [| done]. injection E as <-. cbn. split; [| done].
    rewrite Eg. apply prefix_app. exists (zdrop n d). by rewrite ztake_zdrop.
Qed.

(** Other sockets are not concerned. *)
Lemma io_step_other f e io : event_fd e <> f -> io_step f io e = io.
Proof. intros Hf. destruct e as [fd | fd | fd [d |] | fd d n | fd]; cbn in *; by rewrite ?decide_False. Qed.

Lemma io_ok_step tr m e m' : io_ok tr m -> replay_event m e = Some m' -> io_ok (tr ++ [e]) m'.
Proof.
  intros [Hp Hm] He.
  assert (Hgen : forall c c', m !! event_fd e = Some c -> step_chan e c = Some c' -> io_ok (tr ++ [e]) (<[event_fd e := c']> m)).
  { intros c c' Hc Hs. pose proof (Hm _ _ Hc) as Eio. pose proof (Hp (event_fd e)) as Hpf. rewrite Eio in Hpf.
    destruct (step_chan_io _ _ _ Hs Hpf) as [Hp' E']. split.
    - intros f. rewrite server_io_snoc. destruct (decide (event_fd e = f)) as [<- | Hf]; [by rewrite Eio, E' | by rewrite io_step_other].
    - intros f d Hd. rewrite server_io_snoc. apply lookup_insert_Some in Hd as [[<- <-] | [Hf Hd]]; [by rewrite Eio, E' |].
      rewrite io_step_other by done. by apply Hm. }
  destruct e as [fd | fd | fd r | fd d n | fd]; cbn in He.
  2-4: destruct (m !! fd) as [c |] eqn:Hc; [| done]; cbn in He; match type of He with (?o ≫= _) = _ => destruct o as [c' |] eqn:Hs; [| done] end;
    injection He as <-; by eapply Hgen.
  - destruct (m !! fd) as [c |] eqn:Hc; [done |]. injection He as <-. split.
    + intros f. rewrite server_io_snoc. cbn. by destruct (decide (fd = f)).
    + intros f c Hf. rewrite server_io_snoc. cbn. apply lookup_insert_Some in Hf as [[<- <-] | [Hf Hl]]; [by rewrite decide_True |].
      rewrite decide_False by done. by apply Hm.
  - destruct (m !! fd) as [c |] eqn:Hc; [| done]. cbn in He. destruct (finished c); [| done]. injection He as <-. split.
    + intros f. rewrite server_io_snoc. apply Hp.
    + intros f c' Hf. rewrite server_io_snoc. apply lookup_delete_Some in Hf as [_ Hf]. by apply Hm.
Qed.

(** The server never sends on a socket what it did not receive there, in that order. *)
Lemma server_echoes tr m f : EchoServer.replay tr = Some m -> (server_io f tr).2 `prefix_of` (server_io f tr).1.
Proof.
  intros Hr. enough (io_ok tr m) as [Hp _] by apply Hp. revert m Hr. induction tr as [| e tr IH] using rev_ind; intros m Hr.
  - injection Hr as <-. split; [done |]. intros g c Hg. by rewrite lookup_empty in Hg.
  - rewrite replay_app in Hr. destruct (EchoServer.replay tr) as [m0 |]; [| done]. cbn in Hr. eapply io_ok_step; [by apply IH | exact Hr].
Qed.

Lemma running_echoes limit port fd envs srv f :
  limit <= FD_SETSIZE -> 0 <= fd < limit -> envs_ok limit envs (started fd) -> main 2 port fd 0 0 envs = Running srv ->
  (server_io f (EchoServer.trace srv)).2 `prefix_of` (server_io f (EchoServer.trace srv)).1.
Proof.
  intros Hlim Hfd Henv Hmain. assert (Hin : in_fd_set fd = true) by (unfold in_fd_set; lia). unfold main in Hmain. cbn [Z.eqb negb Pos.eqb] in Hmain.
  destruct (_ || _); [done |]. destruct (fd =? INVALID_SOCKET); [done |]. unfold FD_SET in Hmain. rewrite Hin in Hmain.
  pose proof (server_loop_ok limit envs _ Hlim (started_ok fd Hin) Henv) as HL. unfold started in HL. rewrite Hmain in HL. destruct HL as (Hok & _).
  destruct (ok_account _ Hok) as (m & Hr & _). by eapply server_echoes.
Qed.

(** ** Both ends *)

(** What TCP promises of a session of the connection and the server's socket [f]. *)
Definition tcp_between (σ : session) (f : Z) (tr : list EchoServer.event) : Prop :=
  (server_io f tr).1 `prefix_of` sent σ /\ rx σ `prefix_of` (server_io f tr).2.

(** More data only adds frames. *)
Lemma frames_prefix decode `{StreamCodec decode} l k :
  l `prefix_of` k -> (frames decode l).1.1 `prefix_of` (frames decode k).1.1.
Proof.
  intros [more ->]. rewrite frames_app by done. destruct (frames decode l) as [[fs rest] []]; cbn [fst]; [done |].
  destruct (frames decode (rest ++ more)) as [[fs' rest'] bad']. cbn [fst]. by exists fs'.
Qed.

Section EndToEnd.
Context `{SizeT} `{PQ : PriorityQueue Q}.
Context (codec : option decode_fn) (tcp : TcpOptions) (local_address : option str) (self : conn_ref).
Context (FormatErrorMessage : Z -> string) (inet_pton : Z -> str -> option (list byte)).
Context (T : ConnectionTable) (q : Q) (p : Poller) (m : gmap ConnectionId conn_ref).
Hypothesis codec_ok : forall decode, codec = Some decode -> StreamCodec decode.
Hypothesis table_ok : table_rep T m.
Hypothesis table_room : room T.

(** C35: From end to end: a connection on a POSIX system talks to the echo server over a network that keeps TCP's
    promise ([tcp_between]: each end has received the first of the bytes the other has sent), and the server's
    process may have at most [FD_SETSIZE] descriptors and is still running. Then the bytes the
    connection receives are the first of those it was given to send, and the messages its
    handler gets are the first frames of those bytes, in order; if the application
    sends whole frames, it gets back its own messages. This holds at any moment, whatever the connection's
    system calls return, whatever the server's return within [env_ok] ([select] reports descriptors it
    was asked about and how many, [accept] fails or returns a new descriptor below the limit), and
    however the data is cut up on the way. *)
Theorem echo_end_to_end (d : bool) (decode : decode_fn) (s : conn) (limit port fd f : Z) (envs : list round_env) (srv : server) :
  codec = Some decode -> conn_reachable codec tcp local_address self FormatErrorMessage inet_pton d T q p s ->
  limit <= FD_SETSIZE -> 0 <= fd < limit -> envs_ok limit envs (started fd) -> main 2 port fd 0 0 envs = Running srv ->
  let σ := session_of (trace s) in
  tcp_between σ f (EchoServer.trace srv) ->
  rx σ `prefix_of` queued σ /\ msgs σ `prefix_of` (frames decode (queued σ)).1.1 /\
  forall texts, Forall (fun t => decode t = (DecodeResult.kSuccess, zlen t)) texts -> queued σ `prefix_of` concat texts ->
    msgs σ `prefix_of` texts.
Proof.
  intros Hc Hs Hlim Hfd Henv Hmain σ [Hin Hout]. pose proof (codec_ok _ Hc) as HS.
  destruct (Reachable_inv codec tcp local_address self FormatErrorMessage inet_pton T q p m codec_ok table_ok table_room _ _ Hs) as [HI _].
  assert (Hq : sent σ `prefix_of` queued σ) by (exists (chunks_bytes (send_buffer_ s)); apply (i_output _ _ _ HI)).
  assert (Hrx : rx σ `prefix_of` queued σ).
  { etrans; [exact Hout |]. etrans; [| etrans; [exact Hin | exact Hq]]. exact (running_echoes _ _ _ _ _ f Hlim Hfd Henv Hmain). }
  pose proof (i_input _ _ _ HI) as Hp. rewrite Hc in Hp.
  assert (Hm : msgs σ `prefix_of` (frames decode (rx σ)).1.1) by (rewrite (parsed_frames decode _ _ _ Hp : frames decode (rx σ) = _); by eexists).
  split_and!; [done | etrans; [exact Hm | by apply frames_prefix] |].
  intros texts Ht Hqt. etrans; [exact Hm |]. etrans; [exact (frames_prefix decode _ _ (transitivity Hrx Hqt)) |].
  rewrite <- (app_nil_r (concat texts)), frames_concat by done. cbn. by rewrite app_nil_r.
Qed.
End EndToEnd.

(** ** A session *)

(** The application sends [hey] and a newline; the kernel takes all of it; the server gets it
    in two pieces, of which it has read and sent back the first two bytes; the connection has received one. *)
Module SessionDemo.
Import ConnTheorems.Demo.

Definition text : list byte := [Byte.x68; Byte.x65; Byte.x79; newline].
Definition acts : list act :=
  [ABegin; AEnd resolved; AEnv (open_calls 7) []; ARun; ready kPollEventWritable; AEnv [ok; ok] []; ARun;
   ASend (Some text); AEnv [ok] []; ARun; ready kPollEventWritable; AEnv [RInt 4 0; ok] []; ARun;
   ready kPollEventReadable; AEnv [RData [Byte.x68]] []; ARun].
Definition s : conn := default init (run true acts).

Lemma reached : conn_reachable codec tcp None 0 strerror inet_pton true ConnectionTable_new q p s.
Proof. apply (exec_all_reachable _ _ _ _ _ _ _ acts). vm_compute. reflexivity. Qed.

Definition envs : list round_env :=
  [EchoDemo.env [3] 4 None 0; EchoDemo.env [4] (-1) (Some [Byte.x68; Byte.x65]) 2].
Definition srv : server := match main 2 9000 3 0 0 envs with Running srv => srv | _ => started 3 end.

Lemma s_session : queued (session_of (trace s)) = text /\ sent (session_of (trace s)) = text /\ rx (session_of (trace s)) = [Byte.x68].
Proof. vm_compute. split_and!; reflexivity. Qed.

Lemma srv_io : server_io 4 (EchoServer.trace srv) = ([Byte.x68; Byte.x65], [Byte.x68; Byte.x65]).
Proof. vm_compute. reflexivity. Qed.
End SessionDemo.

Lemma echo_end_to_end_witness :
  rx (session_of (trace SessionDemo.s)) = [Byte.x68] /\ msgs (session_of (trace SessionDemo.s)) `prefix_of` [SessionDemo.text].
Proof.
  destruct SessionDemo.s_session as (Hq & Hs & Hr).
  destruct (echo_end_to_end Demo.codec Demo.tcp None 0 Demo.strerror Demo.inet_pton ConnectionTable_new Demo.q Demo.p ∅
    Demo.codec_ok table_rep_empty Demo.room_new true _ SessionDemo.s 1024 9000 3 4 SessionDemo.envs SessionDemo.srv eq_refl SessionDemo.reached)
    as (_ & _ & H3).
  - done.
  - lia.
  - apply envs_okb_ok. vm_compute. reflexivity.
  - vm_compute. reflexivity.
  - unfold tcp_between. rewrite SessionDemo.srv_io, Hs, Hr. split; [by exists [Byte.x79; Demo.newline] | by exists [Byte.x65]].
  - split; [exact Hr |]. apply (H3 [SessionDemo.text]); [| rewrite Hq; cbn; reflexivity].
    constructor; [reflexivity | constructor].
Defined.
